(* ===== verification/_CoqProject ===== *)
-Q . S2P
Prelude.v
Wire.v
RpcClient.v
Runtime.v
CString.v
Storage.v
Members.v
Raft.v
Config.v
Proposals.v
HostClients.v
Peer.v
KvSpec.v
PeerSafety.v
PeerApply.v
PeerQueue.v
Outbox.v
Answers.v
RaftNet.v
PeerFaults.v
Recovery.v
Host.v
Services.v
HostLaws.v
ServiceLaws.v
System.v
Traces.v
Hosting.v
Truth.v
EchoServer.v
Shutdown.v
Progress.v
Cluster.v
RealTime.v
Final.v
Linear.v
Owed.v
EchoClient.v
Clients.v
Instances.v
ReplRaft.v
Witnesses.v
ClusterWitness.v
ClientsWitness.v
ObjPool.v
Threads.v
BlockingQueue.v
LoopTask.v
FixedFunction.v
LogStream.v
Clock.v
NetBase.v
AsioRpc.v
Logging.v
