(* ===== verification/Prelude.v ===== *)
(** * jkv: a verification development

    jkv is a replicated key-value server.  A server process ([example/echo/server]) runs one
    [PeerHost], whose peers are the members of raft groups.  A client ([example/echo/client])
    sends a Get, a Put or a Del to [KvServiceImpl]; the peer that leads the group proposes the
    request to raft, and when the entry comes back committed every member applies it to its
    leveldb database and the one that proposed it answers the client.  [RaftMsgServiceImpl] and
    the clients of [PeerHost] carry the messages of raft between the hosts.  The C++ code is
    about 1000 lines over the author's RPC library jrpc (headers in third-party/jrpc, the bodies
    in a binary) and raft library jraft (an empty submodule).

    ** How the parts interact

    Every peer lives in the event loop of one worker thread.  A service receives a request in a
    thread of the RPC server and queues a callback in the loop; the callback finds the peer and
    calls [ProposeKvOp] or [Step]; a timer calls [Tick], which drives raft and handles what it
    has ready: messages to send, entries to apply.  A pending proposal holds the pointer to the
    response and the closure that sends it, so that responses and closures are shared by the RPC
    layer, the loop and the queue of the peer.  The model keeps them in a store by address.

    ** Effects

    Code that has an effect is a function in the monad [M S] of this file: from a state, it
    returns, aborts the process ([JLOG_FATAL]), meets undefined behaviour, or runs out of the
    fuel of its model.  [wp] is the weakest precondition of such code, with rules that [wp_step]
    applies; [moves] and [keeps] say how a piece of code changes the state, or what of it it
    leaves as it was, however it ends.  Whether a FATAL record ends the process is decided in a library and is a parameter
    ([FatalPolicy]); a theorem that needs it says so.  Integers are in [Z] with their width
    written out ([u16], [u32], [u64], [i32], [i64]).

    ** The files

    The program, bottom up (the names of the definitions are those of the code):
    - Wire: the messages of pb/*.proto, with their fields and defaults;
    - RpcClient, Runtime: what net/rpc/rpc_client.h and net/rpc/closure_guard.h define; the
      store of responses and the trace of closures that ran;
    - CString: [atoi] and [std::to_string];
    - Storage: [DiskStorage] (src/storage) over leveldb, and the interface [KvStore] through
      which the peer uses it;
    - Members: [Peer::InitGroupMembers] and [GroupMember] (src/peer/peer.cc, peer.h);
    - Raft: the operations of [jraft::RawNode] that a peer calls, and the laws of the library;
    - Config: src/common/config.h;
    - Proposals: [Proposal], [Peer::GetProposal], [Peer::CallbackAll];
    - HostClients: [PeerHost::GetClient];
    - Peer: every other method of [Peer];
    - Host: the rest of [PeerHost] (src/peer/peer_host.cc) over the state of a process;
    - Services: the two services (src/service);
    - System: the process as a transition system: requests arrive, callbacks run, timers fire
      and calls complete in any order;
    - EchoServer, EchoClient: the two programs, with their flags and checks;
    - Shutdown: the end of the server's main, when its locals are destroyed.

    What is proved about it:
    - KvSpec is the abstract replicated map.  PeerApply shows that a peer that applies committed
      entries follows it, whatever its role; that two peers that apply the same log in different
      pieces agree; that a leader answers the requests it took with the results of the map.
    - PeerSafety and PeerQueue have the invariants of a peer (responses live, clients connected
      once, the queue ordered by (term, index)) and that every operation keeps them.
    - Proposals shows that the loop of [GetProposal] ends on every queue and loses no closure,
      and what it does on an ordered one.
    - PeerFaults is about lost leadership, poisonous entries, dropped proposals and requests
      that are never answered.
    - Members has the parser of the member list with its round trip; Storage the refinement of a
      finite map by [DiskStorage]; HostLaws and ServiceLaws each branch of [AddLocalPeer] and of
      the services.
    - Recovery shows that a peer that is handed the whole log again, on top of the database it
      left, ends in the right state.
    - EchoServer lifts them to every reachable state of a running server: no undefined
      behaviour, a closure runs at most once, the queues are ordered, the call objects of
      outgoing calls are not leaked; EchoClient has what a run of the client sends and returns.
      Progress adds that a tick leaves no proposal behind what it hands out.  Shutdown has what
      is defined, and what is not, while main returns.
    - RaftNet is a network of raft nodes without servers around them.  Outbox has the messages a
      peer sends and Answers what it tells its clients; Hosting shows that a server process is a
      node of the network, and Truth that what it tells its clients is true of the log.
    - Cluster puts several servers side by side, each as [main] leaves it, whose messages arrive
      in any order, repeatedly or never, and which stop at any moment.  Every run of it is a run
      of the network, so the databases agree, the clients get the answers of the one log, and no
      message goes astray.  Traces shows that nothing takes back what a process has done, and
      RealTime that the answers respect real time.
      Final shows that a response is neither written nor pointed to after its closure ran.
    - Linear is the specification of the whole system: the log read as operations of the clients
      explains every database and every answer that is not a rejection, in the order of real time.
      An answer is that of the client's own operation if raft accepted its proposal, and that of
      another operation if raft dropped it.
      Owed is its liveness: a server loses no closure except for a committed command that is not
      answered, and a request that raft accepted is answered as soon as the server is handed an
      entry behind it.  Clients adds the runs of the client program: requests that
      arrive late, repeatedly or never, calls that fail, and the exit of a run, with the
      answer to its own command in the linearization if raft accepted the proposal; a run that
      waits for an entry raft has gone past can
      end.

    The parts of jrpc whose code is in its headers:
    - ObjPool: [ObjPool] (base/obj_pool.h) refines a set of live slots;
    - Threads: a machine of interleaved threads with a mutex and a condition variable, on which
      BlockingQueue (base/blocking_queue.h: linearizable, no lost wake-up) and LoopTask
      (net/event/loop_task.h: [Wait] returns after the task ran, both threads end) are proved;
    - FixedFunction: [fixed_size_function] (base/fixed_size_function.h) keeps each functor in
      exactly one object under any sequence of its members;
    - LogStream: [StringPiece] is the lexicographic order of the bytes viewed, and [LogStream]
      writes within its buffer (base/logging);
    - Clock: the arithmetic of [TimeCycle], [Timestamp] and [Timer] (base/time, net/event);
    - NetBase: alignment, the positions of a ring buffer and the attachments of a call;
    - AsioRpc: the framing of net/rpc/asio_rpc.h, which the requests lack;
    - Logging: the file name, the level filter and the null check of base/logging/logging.h.

    Instances has a concrete implementation of each parameter that satisfies its laws, and
    Witnesses applies the theorems to concrete states and runs with them.  ReplRaft is a raft
    node that replicates the log of a fixed leader, ClusterWitness a run of two servers with it
    and ClientsWitness two runs of the client beside them: a Put, and a Get that reads it.

    ** Parameters and their laws

    Code that is not in the repository is a parameter, and what the program relies on is a class
    of laws: [RawNode] (Raft: the position of a leader does not go back, messages go to members
    of the group, a storage gives back the snapshot written), [LevelDB] (Storage: a database file
    is a finite map), [KvCodec] (Wire: parsing what was serialized), [BoostSplit] (Members),
    [RpcNet] (RpcClient: the result of [Connect]), [HashOrder] (Peer: the order in which an
    unordered_map is iterated), and the arguments [new_MemoryStorage] and [GetWorker] of [main]
    (EchoServer).  What raft guarantees of its log is the class [RaftSafety] (RaftNet): nodes
    hand out one log, whose indexes increase; the position a leader gives a proposal is that of
    no other proposal and of no entry already handed out, and it is behind those the leader has
    handed out itself; an entry with data was proposed.  It speaks of the raft nodes alone and is
    used for the theorems about a cluster only.  In Clock the rates of the clock are parameters,
    in ObjPool the flag [assertions] of the build, and in AsioRpc the representation of an [int]
    and the socket of boost::asio.

    ** Fuel and bounds

    [GetProposal_loop] has the length of the queue plus one as its fuel, and
    [GetProposal_correct] shows that it is never used up.  [to_string] prints at most 20 digits,
    enough for 64 bits.  No other definition has fuel: the loops of the program run over lists.
    In LoopTask the bound of 56 steps is the number of instructions of the two threads, counted
    with one wake-up.

    ** What is not modelled

    - jraft: an empty submodule.  Consensus itself is therefore a law here, not a theorem.
    - The return of a stopped server to its cluster: its [MemoryStorage] is empty then, so raft
      guarantees nothing of its votes.  Recovery has what the replay of the log does.
    - The wire format of protobuf, the sockets, the RPC server and the event loop: library code.
    - What a closure does when it runs (it sends the response and frees it): the trace records
      that it ran and the response it could read, and the response stays in the store.  Final
      shows that the next step of a server is defined also if the responses of all closures that
      ran have been freed before it, and that none of them changes after its closure ran.
    - A [MemoryStorage] shared by several peers of one host: each peer has its own.
    - Threads that run at once: the callbacks of the loop are atomic, also against the
      destructors at the end of main.
    - Log records below FATAL, and the start of logging and of threads.
    - In the pool of ObjPool, the constructor and destructor of the pooled type; in Clock, the
      differences that are computed in [double].
    - Tests, scripts, header declarations whose bodies are in the jrpc binary, and accessors of one
      field in jrpc. *)
From stdpp Require Export base gmap strings list fin_maps sorting.
From Stdlib Require Export ZArith Lia.

#[global] Open Scope Z_scope.

(** ** Effects *)

(** The result of running a piece of the program from a state.
    - [Ok a s]: normal return of [a] in state [s];
    - [Abort msg s]: [JLOG_FATAL << msg] terminated the process in state [s];
    - [Ub what]: the C++ code performed an operation with undefined behaviour
      (null or dangling pointer, end iterator, out-of-range element);
    - [Stuck]: a loop ran out of the fuel its model was given. *)
Inductive outcome (S A : Type) : Type :=
  | Ok (a : A) (s : S)
  | Abort (msg : string) (s : S)
  | Ub (what : string)
  | Stuck.
Arguments Ok {S A} a s.
Arguments Abort {S A} msg s.
Arguments Ub {S A} what.
Arguments Stuck {S A}.

(** A computation over the C++ state [S] that returns an [A]. *)
Definition M (S A : Type) : Type := S → outcome S A.

#[export] Instance M_ret S : MRet (M S) := λ A a s, Ok a s.
#[export] Instance M_bind S : MBind (M S) := λ A B f m s,
  match m s with
  | Ok a s' => f a s'
  | Abort msg s' => Abort msg s'
  | Ub w => Ub w
  | Stuck => Stuck
  end.

Definition get_state {S} : M S S := λ s, Ok s s.
Definition put_state {S} (s' : S) : M S unit := λ _, Ok () s'.
Definition modify {S} (f : S → S) : M S unit := λ s, Ok () (f s).
Definition ub {S A} (what : string) : M S A := λ _, Ub what.

(** [if (b) m;] *)
Definition when {S} (b : bool) (m : M S unit) : M S unit :=
  if b then m else mret ().

(** [for (const auto& x : l) f(x);] *)
Fixpoint for_each {S A} (f : A → M S unit) (l : list A) : M S unit :=
  match l with
  | [] => mret ()
  | x :: l' => f x ;; for_each f l'
  end.

(** Run a computation on a part of the state. *)
Definition zoom {S T A} (get : S → T) (put : T → S → S) (m : M T A) : M S A := λ s,
  match m (get s) with
  | Ok a t => Ok a (put t s)
  | Abort msg t => Abort msg (put t s)
  | Ub w => Ub w
  | Stuck => Stuck
  end.

(** Run a computation on a fresh local variable and return its final value. *)
Definition with_local {S T} (init : T) (m : M T unit) : M S T := λ s,
  match m init with
  | Ok _ t => Ok t s
  | Abort msg _ => Abort msg s
  | Ub w => Ub w
  | Stuck => Stuck
  end.

(** What [JLOG_FATAL << msg] does after it has logged: the body of
    [jbase::Logger::~Logger] is in the jrpc library and not in the repository,
    so whether a FATAL record terminates the process is a parameter. *)
Class FatalPolicy : Type := fatal_aborts : bool.

Definition fatal `{FatalPolicy} {S} (msg : string) : M S unit := λ s,
  if fatal_aborts then Abort msg s else Ok () s.

(** ** Fixed-width unsigned integers *)

Definition UINT16_MAX : Z := 2 ^ 16 - 1.
Definition UINT32_MAX : Z := 2 ^ 32 - 1.
Definition UINT64_MAX : Z := 2 ^ 64 - 1.
Definition u16 (z : Z) : Z := z mod 2 ^ 16.
Definition u32 (z : Z) : Z := z mod 2 ^ 32.
Definition u64 (z : Z) : Z := z mod 2 ^ 64.

#[global] Arguments u16 : simpl never.
#[global] Arguments u32 : simpl never.
#[global] Arguments u64 : simpl never.

Lemma u16_bounds z : 0 ≤ u16 z ≤ UINT16_MAX.
Proof. unfold u16, UINT16_MAX. pose proof (Z.mod_pos_bound z (2 ^ 16)). lia. Qed.
Lemma u32_bounds z : 0 ≤ u32 z ≤ UINT32_MAX.
Proof. unfold u32, UINT32_MAX. pose proof (Z.mod_pos_bound z (2 ^ 32)). lia. Qed.
Lemma u64_bounds z : 0 ≤ u64 z ≤ UINT64_MAX.
Proof. unfold u64, UINT64_MAX. pose proof (Z.mod_pos_bound z (2 ^ 64)). lia. Qed.
Lemma u16_small z : 0 ≤ z ≤ UINT16_MAX → u16 z = z.
Proof. unfold u16, UINT16_MAX. intros. apply Z.mod_small. lia. Qed.
Lemma u32_small z : 0 ≤ z ≤ UINT32_MAX → u32 z = z.
Proof. unfold u32, UINT32_MAX. intros. apply Z.mod_small. lia. Qed.
Lemma u64_small z : 0 ≤ z ≤ UINT64_MAX → u64 z = z.
Proof. unfold u64, UINT64_MAX. intros. apply Z.mod_small. lia. Qed.

(** ** Equality of computations

    Two computations are equal when they agree on every state; binding,
    iteration and state focusing respect it. *)
#[export] Instance M_equiv S A : Equiv (M S A) := λ m1 m2, ∀ s, m1 s = m2 s.
#[export] Instance M_equivalence S A : Equivalence (≡@{M S A}).
Proof.
  split; unfold equiv, M_equiv.
  - by intros m s.
  - by intros m1 m2 H s.
  - intros m1 m2 m3 H1 H2 s. by rewrite H1.
Qed.

Lemma bind_eq {S A B} (m : M S A) (f : A → M S B) s :
  (m ≫= f) s = match m s with
               | Ok a s' => f a s' | Abort msg s' => Abort msg s'
               | Ub w => Ub w | Stuck => Stuck end.
Proof. done. Qed.

Lemma bind_Ok {S A B} (m : M S A) (f : A → M S B) s a s' :
  m s = Ok a s' → (m ≫= f) s = f a s'.
Proof. intros E. by rewrite bind_eq, E. Qed.

Lemma bind_Abort {S A B} (m : M S A) (f : A → M S B) s msg s' :
  m s = Abort msg s' → (m ≫= f) s = Abort msg s'.
Proof. intros E. by rewrite bind_eq, E. Qed.

Lemma when_false {S} (m : M S unit) b s : b = false → when b m s = Ok () s.
Proof. by intros ->. Qed.

Lemma fatal_Abort `{FatalPolicy} {S} msg (s : S) :
  fatal_aborts = true → fatal msg s = Abort msg s.
Proof. unfold fatal. by intros ->. Qed.

#[export] Instance bind_proper {S A B} :
  Proper (pointwise_relation A (≡) ==> (≡) ==> (≡)) (@mbind (M S) _ A B).
Proof.
  intros f g Hfg m1 m2 Hm s. rewrite !bind_eq, Hm. destruct (m2 s); try done. apply Hfg.
Qed.

#[export] Instance zoom_proper {S T A} get put :
  Proper ((≡) ==> (≡)) (@zoom S T A get put).
Proof. intros m1 m2 Hm s. unfold zoom. by rewrite Hm. Qed.

Lemma for_each_proper {S A} (f g : A → M S unit) l :
  (∀ x, x ∈ l → f x ≡ g x) → for_each f l ≡ for_each g l.
Proof.
  induction l as [|x l IH]; intros H; [done|]. simpl.
  rewrite (H x) by set_solver. intros s. rewrite !bind_eq.
  destruct (g x s); try done. apply IH. set_solver.
Qed.

Lemma bind_ret_l {S A B} (a : A) (f : A → M S B) : (mret a ≫= f) ≡ f a.
Proof. done. Qed.
Lemma bind_ret_r {S A} (m : M S A) : (m ≫= mret) ≡ m.
Proof. intros s. rewrite bind_eq. by destruct (m s). Qed.
Lemma bind_assoc {S A B C} (m : M S A) (f : A → M S B) (g : B → M S C) :
  ((m ≫= f) ≫= g) ≡ (m ≫= λ a, f a ≫= g).
Proof. intros s. rewrite !bind_eq. by destruct (m s). Qed.

Lemma for_each_app {S A} (f : A → M S unit) l1 l2 :
  for_each f (l1 ++ l2) ≡ (for_each f l1 ;; for_each f l2).
Proof.
  induction l1 as [|x l1 IH]; intros s; [done|]. simpl. rewrite !bind_eq.
  by destruct (f x s).
Qed.

(** ** Weakest preconditions

    [wp U m Q R s]: running [m] from [s] terminates (never [Stuck]); a normal
    return satisfies [Q], a process abort happens in a state satisfying [R],
    and undefined behaviour is possible only if [U].  With [U := False] the
    triple includes the absence of undefined behaviour, with [U := True] it
    speaks of the defined executions only. *)
Definition wp {S A} (U : Prop) (m : M S A) (Q : A → S → Prop) (R : S → Prop) (s : S) : Prop :=
  match m s with
  | Ok a s' => Q a s'
  | Abort _ s' => R s'
  | Ub _ => U
  | Stuck => False
  end.

#[export] Instance wp_proper {S A} U :
  Proper ((≡) ==> (=) ==> (=) ==> (=) ==> iff) (@wp S A U).
Proof. intros m1 m2 Hm Q ? <- R ? <- s ? <-. unfold wp. by rewrite Hm. Qed.

Section wp_rules.
Context {S : Type} (U : Prop).
Implicit Types (s : S) (R : S → Prop).

Lemma wp_mono {A} (m : M S A) (Q Q' : A → S → Prop) R R' s :
  wp U m Q R s → (∀ a s', Q a s' → Q' a s') → (∀ s', R s' → R' s') →
  wp U m Q' R' s.
Proof. unfold wp. intros H HQ HR. destruct (m s); auto. Qed.

Lemma wp_ret {A} (a : A) (Q : A → S → Prop) R s : Q a s → wp U (mret a) Q R s.
Proof. done. Qed.

Lemma wp_bind {A B} (m : M S A) (f : A → M S B) (Q : B → S → Prop) R s :
  wp U m (λ a s', wp U (f a) Q R s') R s → wp U (m ≫= f) Q R s.
Proof. unfold wp. rewrite bind_eq. by destruct (m s). Qed.

Lemma wp_modify (f : S → S) (Q : unit → S → Prop) R s :
  Q () (f s) → wp U (modify f) Q R s.
Proof. done. Qed.

Lemma wp_get (Q : S → S → Prop) R s : Q s s → wp U get_state Q R s.
Proof. done. Qed.

Lemma wp_put s0 (Q : unit → S → Prop) R s : Q () s0 → wp U (put_state s0) Q R s.
Proof. done. Qed.

Lemma wp_ub {A} w (Q : A → S → Prop) R s : U → wp U (ub w) Q R s.
Proof. done. Qed.

Lemma wp_fatal `{FatalPolicy} msg (Q : unit → S → Prop) R s :
  (fatal_aborts = true → R s) → (fatal_aborts = false → Q () s) →
  wp U (fatal msg) Q R s.
Proof. unfold wp, fatal. destruct fatal_aborts; auto. Qed.

Lemma wp_when b (m : M S unit) (Q : unit → S → Prop) R s :
  (b = true → wp U m Q R s) → (b = false → Q () s) → wp U (when b m) Q R s.
Proof. destruct b; intros H1 H2; [by apply H1|by apply H2]. Qed.

Lemma wp_for_each {A} (f : A → M S unit) (I : list A → S → Prop) R l s :
  I l s →
  (∀ x l' s', x ∈ l → I (x :: l') s' → wp U (f x) (λ _ s'', I l' s'') R s') →
  wp U (for_each f l) (λ _ s', I [] s') R s.
Proof.
  revert s. induction l as [|x l IH]; intros s HI Hf; simpl; [done|].
  apply wp_bind. eapply wp_mono; [apply Hf; [set_solver|done]| |done].
  intros [] s' HI'. apply IH; [done|]. intros y l' s'' Hy. apply Hf. set_solver.
Qed.

Lemma wp_zoom {T A} (get : S → T) put (m : M T A) (Q : A → S → Prop) R s :
  wp U m (λ a t, Q a (put t s)) (λ t, R (put t s)) (get s) →
  wp U (zoom get put m) Q R s.
Proof. unfold wp, zoom. by destruct (m (get s)). Qed.

Lemma wp_with_local {T} (init : T) (m : M T unit) (Q : T → S → Prop) R s :
  wp U m (λ _ t, Q t s) (λ _, R s) init → wp U (with_local init m) Q R s.
Proof. unfold wp, with_local. by destruct (m init). Qed.

Lemma wp_Ok {A} (m : M S A) (Q : A → S → Prop) R s a s' :
  wp U m Q R s → m s = Ok a s' → Q a s'.
Proof. unfold wp. intros H E. by rewrite E in H. Qed.
End wp_rules.

(** Ruling out undefined behaviour is the stronger judgement. *)
Lemma wp_defined {S A} U (m : M S A) (Q : A → S → Prop) R s : wp False m Q R s → wp U m Q R s.
Proof. unfold wp. by destruct (m s). Qed.

(** Two specifications of one computation hold together. *)
Lemma wp_and {S A} U (m : M S A) (Q Q' : A → S → Prop) (R R' : S → Prop) s :
  wp U m Q R s → wp True m Q' R' s →
  wp U m (λ a s', Q a s' ∧ Q' a s') (λ s', R s' ∧ R' s') s.
Proof. unfold wp. by destruct (m s). Qed.

(** ** What a computation may change

    [moves R m]: whatever [m] does, and whether it returns or aborts, the state
    afterwards is related to the one before by [R].  [keeps f m] is the special
    case in which the part [f] of the state stays what it was. *)
Definition moves {S A} (R : relation S) (m : M S A) : Prop := ∀ s,
  match m s with
  | Ok _ s' | Abort _ s' => R s s'
  | Ub _ | Stuck => True
  end.

#[export] Instance moves_proper {S A} (R : relation S) :
  Proper ((≡) ==> iff) (@moves S A R).
Proof. intros m1 m2 Hm. split; intros H s; specialize (H s); by rewrite Hm in *. Qed.

Section moves_rules.
Context {S : Type} (R : relation S) `{!PreOrder R}.

Lemma moves_ret {A} (a : A) : moves R (mret a).
Proof. intros s. simpl. reflexivity. Qed.
Lemma moves_get : moves R get_state.
Proof. intros s. simpl. reflexivity. Qed.
Lemma moves_ub {A} what : moves R (ub what : M S A).
Proof. done. Qed.
Lemma moves_fatal `{FatalPolicy} msg : moves R (fatal msg).
Proof. intros s. unfold fatal. destruct fatal_aborts; reflexivity. Qed.
Lemma moves_modify g : (∀ s, R s (g s)) → moves R (modify g).
Proof. intros Hg s. apply Hg. Qed.

Lemma moves_bind {A C} (m : M S A) (k : A → M S C) :
  moves R m → (∀ a, moves R (k a)) → moves R (m ≫= k).
Proof.
  intros Hm Hk s. rewrite bind_eq. specialize (Hm s).
  destruct (m s) as [a s'|msg s'| |]; [|done..]. specialize (Hk a s').
  destruct (k a s'); first [by etrans|done].
Qed.

Lemma moves_when b (m : M S unit) : moves R m → moves R (when b m).
Proof. intros Hm. destruct b; [done|apply moves_ret]. Qed.

Lemma moves_for_each {A} (g : A → M S unit) l : (∀ x, moves R (g x)) → moves R (for_each g l).
Proof.
  intros Hg. induction l as [|x l IH]; [apply moves_ret|]. simpl. by apply moves_bind.
Qed.

(** What is known of the move can be added to any specification. *)
Lemma wp_moves {A} U (m : M S A) (Q : A → S → Prop) P s :
  wp U m Q P s → moves R m → wp U m (λ a s', Q a s' ∧ R s s') (λ s', P s' ∧ R s s') s.
Proof. intros Hw Hm. specialize (Hm s). unfold wp in *. by destruct (m s). Qed.
End moves_rules.

Definition same {S B} (f : S → B) : relation S := λ s s', f s' = f s.
#[export] Instance same_preorder {S B} (f : S → B) : PreOrder (same f).
Proof. unfold same. split; [done|]. intros s1 s2 s3 H12 H23. congruence. Qed.

Definition keeps {S A B} (f : S → B) (m : M S A) : Prop := moves (same f) m.

Section keeps_rules.
Context {S B : Type} (f : S → B).

Lemma keeps_ret {A} (a : A) : keeps f (mret a).
Proof. done. Qed.
Lemma keeps_get : keeps f get_state.
Proof. done. Qed.
Lemma keeps_ub {A} what : keeps f (ub what : M S A).
Proof. done. Qed.
Lemma keeps_fatal `{FatalPolicy} msg : keeps f (fatal msg).
Proof. apply moves_fatal, _. Qed.
Lemma keeps_modify g : (∀ s, f (g s) = f s) → keeps f (modify g).
Proof. apply (moves_modify (same f)). Qed.
Lemma keeps_bind {A C} (m : M S A) (k : A → M S C) :
  keeps f m → (∀ a, keeps f (k a)) → keeps f (m ≫= k).
Proof. apply moves_bind, _. Qed.
Lemma keeps_when b (m : M S unit) : keeps f m → keeps f (when b m).
Proof. apply moves_when, _. Qed.
Lemma keeps_for_each {A} (g : A → M S unit) l : (∀ x, keeps f (g x)) → keeps f (for_each g l).
Proof. apply moves_for_each, _. Qed.

Lemma keeps_zoom {T A D} (get : S → T) put (h : T → D) (m : M T A) :
  keeps h m → (∀ s t, h t = h (get s) → f (put t s) = f s) → keeps f (zoom get put m).
Proof.
  intros Hm Hput s. unfold zoom. specialize (Hm (get s)). unfold same in *.
  destruct (m (get s)); auto.
Qed.

Lemma wp_keeps {A} U (m : M S A) (Q : A → S → Prop) R s :
  wp U m Q R s → keeps f m →
  wp U m (λ a s', Q a s' ∧ f s' = f s) (λ s', R s' ∧ f s' = f s) s.
Proof. apply (wp_moves (same f)). Qed.

Lemma keeps_Ok {A} (m : M S A) s a s' : keeps f m → m s = Ok a s' → f s' = f s.
Proof. intros Hm E. specialize (Hm s). by rewrite E in Hm. Qed.
End keeps_rules.

(** ** Automation *)

Create HintDb jkv.
Create Rewrite HintDb jkv_rw.
#[export] Hint Resolve u16_bounds u32_bounds u64_bounds : jkv.
#[export] Hint Resolve wp_ret when_false fatal_Abort : jkv.

(** [auto with keeps] walks through a program. *)
Create HintDb keeps.
#[export] Hint Resolve keeps_ret keeps_get keeps_ub keeps_fatal keeps_bind keeps_when
  keeps_for_each : keeps.

(** Run the first statement of a bind whose result [auto] can find. *)
Ltac run := erewrite bind_Ok by (first [reflexivity | eauto with jkv]).
Ltac runs_to_end := repeat run.

(** One symbolic-execution step of a [wp] goal, driven by the program. *)
Ltac wp_step :=
  lazymatch goal with
  | |- wp _ (mret _) _ _ _ => apply wp_ret
  | |- wp _ (_ ≫= _) _ _ _ => apply wp_bind
  | |- wp _ (modify _) _ _ _ => apply wp_modify
  | |- wp _ get_state _ _ _ => apply wp_get
  | |- wp _ (put_state _) _ _ _ => apply wp_put
  | |- wp _ (fatal _) _ _ _ => apply wp_fatal; intros ?
  | |- wp _ (when _ _) _ _ _ => apply wp_when; intros ?
  | |- wp _ (zoom _ _ _) _ _ _ => apply wp_zoom
  | |- wp _ (with_local _ _) _ _ _ => apply wp_with_local
  | |- wp _ (match ?x with _ => _ end) _ _ _ => destruct x eqn:?; subst
  end; simpl.

Ltac wp_steps := repeat wp_step.

(** Invert an equation [m s = Ok a s'] whose computation is a bind. *)
Ltac inv_bind H :=
  rewrite bind_eq in H;
  lazymatch type of H with
  | context [match ?m ?s with Ok _ _ => _ | _ => _ end] =>
      let E := fresh "E" in
      destruct (m s) as [?a ?s'| | | ] eqn:E; try discriminate H
  end.

(** ** Generic lemmas *)

Lemma lookup_weaken_ne {A} (m1 m2 : gmap Z A) k x y :
  m1 ⊆ m2 → m1 !! k = Some x → m2 !! k = Some y → x = y.
Proof. intros Hs H1 H2. pose proof (lookup_weaken _ _ _ _ H1 Hs). congruence. Qed.

Lemma NoDup_submseteq {A} (l k : list A) : l ⊆+ k → NoDup k → NoDup l.
Proof.
  intros Hs Hk. apply submseteq_Permutation in Hs as [l' Hl]. rewrite Hl in Hk.
  by apply NoDup_app in Hk as [? _].
Qed.

Section filters.
Context {A : Type} (R : relation A) (P : A → Prop) `{∀ x, Decision (P x)}.

Lemma filter_none l : Forall (λ x, ¬ P x) l → filter P l = [].
Proof. induction 1 as [|x l Hx _ IH]; [done|]. by rewrite filter_cons, decide_False. Qed.

Lemma filter_all l : Forall P l → filter P l = l.
Proof.
  induction 1 as [|x l Hx _ IH]; [done|]. rewrite filter_cons, decide_True by done.
  by f_equal.
Qed.

Lemma StronglySorted_filter l : StronglySorted R l → StronglySorted R (filter P l).
Proof.
  induction 1 as [|x l Hs IH Hx]; [constructor|]. rewrite filter_cons.
  case_decide; [|done]. constructor; [done|]. apply Forall_forall.
  intros y [_ Hy]%list_elem_of_filter. by eapply Forall_forall in Hx.
Qed.

(** A predicate that holds downwards along the order of a sorted list cuts
    it in two. *)
Lemma sorted_filter_split l :
  StronglySorted R l → (∀ x y, R x y → P y → P x) →
  l = filter P l ++ filter (λ x, ¬ P x) l.
Proof.
  intros Hs HP. induction Hs as [|x l Hs IH Hx]; [done|].
  rewrite !filter_cons. destruct (decide (P x)) as [Hp|Hp].
  - rewrite (decide_False (P := ¬ P x)) by naive_solver. simpl. by f_equal.
  - rewrite (decide_True (P := ¬ P x)) by done.
    assert (Forall (λ y, ¬ P y) l) as Hn by (eapply Forall_impl; [done|]; naive_solver).
    rewrite filter_none by done. simpl. f_equal. clear IH Hx Hs.
    induction Hn as [|y l Hy _ IH]; [done|].
    rewrite filter_cons, (decide_True (P := ¬ P y)) by done. by f_equal.
Qed.
End filters.
