(* ===== verification/Wire.v ===== *)
(** * Wire: the messages of pb/*.proto

    The C++ classes of these messages are generated by protoc from the .proto
    files; the records below have the fields of those files.  The wire format
    itself belongs to the protobuf library and is a parameter ([KvCodec]). *)
From S2P Require Import Prelude.

(** ** pb/kv_op.proto *)

Module GetReq.
Record t : Type := mk { key : string }.
Definition default : t := mk "".
End GetReq.

Module GetResp.
Record t : Type := mk { value : string }.
Definition default : t := mk "".
Definition set_value (v : string) (r : t) : t := mk v.
End GetResp.

Module PutReq.
Record t : Type := mk { key : string; value : string }.
Definition default : t := mk "" "".
End PutReq.

Module DelReq.
Record t : Type := mk { key : string }.
Definition default : t := mk "".
End DelReq.

(** proto3 enums are open: a received message can carry any number. *)
Inductive CmdType : Type := kInvalid | kGet | kPut | kDel | kCmdUnknown (n : Z).
#[export] Instance CmdType_eq_dec : EqDecision CmdType.
Proof. solve_decision. Defined.

Module KvReq.
Record t : Type := mk {
  cmd_type : CmdType;
  f_get_req : option GetReq.t;
  f_put_req : option PutReq.t;
  f_del_req : option DelReq.t }.
Definition default : t := mk kInvalid None None None.
(* an absent sub-message reads as its default instance *)
Definition get_req (r : t) : GetReq.t := from_option id GetReq.default (f_get_req r).
Definition put_req (r : t) : PutReq.t := from_option id PutReq.default (f_put_req r).
Definition del_req (r : t) : DelReq.t := from_option id DelReq.default (f_del_req r).
(* the three requests a client builds *)
Definition of_get (k : string) : t := mk kGet (Some (GetReq.mk k)) None None.
Definition of_put (k v : string) : t := mk kPut None (Some (PutReq.mk k v)) None.
Definition of_del (k : string) : t := mk kDel None None (Some (DelReq.mk k)).
End KvReq.

Module KvResp.
Record t : Type := mk {
  cmd_type : CmdType;
  rejected : bool;
  f_get_resp : option GetResp.t;
  f_put_resp : option unit;
  f_del_resp : option unit }.
Definition default : t := mk kInvalid false None None None.
Definition set_rejected (b : bool) (r : t) : t :=
  mk (cmd_type r) b (f_get_resp r) (f_put_resp r) (f_del_resp r).
(* r.mutable_get_resp()->... creates the sub-message when it is absent *)
Definition mutable_get_resp (f : GetResp.t → GetResp.t) (r : t) : t :=
  mk (cmd_type r) (rejected r)
     (Some (f (from_option id GetResp.default (f_get_resp r))))
     (f_put_resp r) (f_del_resp r).
End KvResp.

(** ** pb/eraft.proto, pb/errnum.proto (package jraft) *)

Inductive EntryType : Type := kEntryNormal | kEntryConfChange | kEntryUnknown (n : Z).
#[export] Instance EntryType_eq_dec : EqDecision EntryType.
Proof. solve_decision. Defined.

Module Entry.
Record t : Type := mk { type : EntryType; term : Z; index : Z; data : string }.
End Entry.

Module ConfState.
Record t : Type := mk {
  voters : list Z; learners : list Z; voters_outgoing : list Z;
  learners_next : list Z; auto_leave : bool }.
Definition default : t := mk [] [] [] [] false.
Definition add_voters (v : Z) (c : t) : t :=
  mk (voters c ++ [v]) (learners c) (voters_outgoing c) (learners_next c) (auto_leave c).
End ConfState.

Module Snapshot.
(* SnapshotMetadata { conf_state, index, term } is flattened into the record *)
Record t : Type := mk { data : string; conf_state : ConfState.t; index : Z; term : Z }.
Definition default : t := mk "" ConfState.default 0 0.
Definition mutable_conf_state (f : ConfState.t → ConfState.t) (s : t) : t :=
  mk (data s) (f (conf_state s)) (index s) (term s).
End Snapshot.

Inductive MessageType : Type :=
  | kMsgHup | kMsgBeat | kMsgProp | kMsgApp | kMsgAppResp | kMsgVote | kMsgVoteResp
  | kMsgSnap | kMsgHeartbeat | kMsgHeartbeatResp | kMsgUnreachable | kMsgSnapStatus
  | kMsgCheckQuorum | kMsgTransferLeader | kMsgTimeoutNow | kMsgReadIndex
  | kMsgReadIndexResp | kMsgPreVote | kMsgPreVoteResp | kMsgUnknown (n : Z).

Module Message.
Record t : Type := mk {
  type : MessageType; to : Z; from : Z; term : Z; log_term : Z; index : Z;
  entries : list Entry.t; commit : Z; snapshot : option Snapshot.t;
  reject : bool; reject_hint : Z; context : string }.
End Message.

Inductive ErrNum : Type :=
  | kOk | kErrCompacted | kErrSnapOutOfData | kErrUnavailable
  | kErrSnapshotTemporarilyUnavailable | kErrSerializeFail | kErrProposalDropped
  | kErrStepLocalMsg | kErrStepPeerNotFound.
#[export] Instance ErrNum_eq_dec : EqDecision ErrNum.
Proof. solve_decision. Defined.

(** ** pb/meta.proto, pb/raft_msg.proto *)

Module PeerMeta.
Record t : Type := mk { host_id : Z; peer_id : Z }.
End PeerMeta.

Module RaftMsgReq.
Record t : Type := mk { from_peer : PeerMeta.t; to_peer : PeerMeta.t; msg : Message.t }.
End RaftMsgReq.

(** ** The protobuf wire format of KvReq *)

Class KvCodec : Type := {
  (* the flag the call returns and the bytes it leaves in its argument *)
  SerializeToString : KvReq.t → bool * string;
  (* the flag the call returns and the message it leaves in [this] *)
  ParseFromString : string → bool * KvReq.t
}.

(** What the protobuf documentation promises: parsing inverts serialization,
    and the empty byte string is the message with every field at its default. *)
Class KvCodecLaws `{KvCodec} : Prop := {
  parse_serialize r s : SerializeToString r = (true, s) → ParseFromString s = (true, r);
  parse_empty : ParseFromString "" = (true, KvReq.default)
}.
