(* ===== verification/RpcClient.v ===== *)
(** * RpcClient: the client channel of jrpc as its header declares it

    third-party/jrpc/include/jrpc/net/rpc/rpc_client.h gives the members with
    their initial values and the inline setters; the bodies of the constructor
    and of [Connect] are in the jrpc library, so [Connect] is a parameter. *)
From S2P Require Import Prelude.

(** jrpc::SockAddress(ip, port) *)
Module SockAddress.
Record t : Type := mk { ip : string; port : Z }.
End SockAddress.
#[export] Instance SockAddress_eq_dec : EqDecision SockAddress.t.
Proof. solve_decision. Defined.

(** jrpc::EventWorker*: None is nullptr. *)
Abbreviation WorkerPtr := (option Z).

Inductive Transport : Type := kTcp.

Module RpcClient.
Record t : Type := mk {
  tp_ : Transport;
  worker_ : WorkerPtr;
  peer_addr : SockAddress.t;
  name : string;
  rpc_depth_ : Z;          (* uint32_t *)
  timeout_ms_ : Z;         (* uint32_t *)
  conn_idle_time_s_ : Z    (* uint64_t *)
}.

Definition ctor (tp : Transport) (w : WorkerPtr) (addr : SockAddress.t) (nm : string) : t :=
  {| tp_ := tp; worker_ := w; peer_addr := addr; name := nm;
     rpc_depth_ := UINT32_MAX; timeout_ms_ := 3000; conn_idle_time_s_ := UINT64_MAX |}.

(* the argument is converted to uint32_t at the call *)
Definition set_rpc_depth (rpc_depth : Z) (c : t) : t :=
  let d := u32 rpc_depth in
  {| tp_ := tp_ c; worker_ := worker_ c; peer_addr := peer_addr c; name := name c;
     rpc_depth_ := if d =? 0 then UINT32_MAX else d;
     timeout_ms_ := timeout_ms_ c; conn_idle_time_s_ := conn_idle_time_s_ c |}.

Definition set_timeout_ms (timeout_ms : Z) (c : t) : t :=
  {| tp_ := tp_ c; worker_ := worker_ c; peer_addr := peer_addr c; name := name c;
     rpc_depth_ := rpc_depth_ c; timeout_ms_ := u32 timeout_ms;
     conn_idle_time_s_ := conn_idle_time_s_ c |}.

Definition set_conn_idle_time_s (time_s : Z) (c : t) : t :=
  let s := u64 time_s in
  {| tp_ := tp_ c; worker_ := worker_ c; peer_addr := peer_addr c; name := name c;
     rpc_depth_ := rpc_depth_ c; timeout_ms_ := timeout_ms_ c;
     conn_idle_time_s_ := if s =? 0 then UINT64_MAX else s |}.
End RpcClient.

(** [int RpcClient::Connect()]: 0 on success.  The answer of the network can
    change from one attempt to the next, so it depends on the attempts made. *)
Class RpcNet : Type := Connect : list RpcClient.t → RpcClient.t → Z.
