(* ===== verification/Runtime.v ===== *)
(** * Runtime: the memory and the callbacks the components share

    Responses ([KvResp*]) are objects of a shared store addressed by pointers:
    the RPC layer, the proposal queue and the services alias them.  A
    [google::protobuf::Closure*] is an opaque pointer; running it is recorded
    in the trace with the responses it can read at that moment (the closure
    itself, which sends the response, belongs to jrpc). *)
From S2P Require Import Prelude Wire RpcClient.

Abbreviation RespPtr := Z (only parsing).
Abbreviation DonePtr := Z (only parsing).

Inductive Event : Type :=
  (* done->Run() *)
  | EvRun (done : DonePtr) (resps : gmap Z KvResp.t)
  (* stub.HandleRaftMsg(cntl, &raft_msg, resp, done): the call objects
     (controller and response) are the pair identified by [call] *)
  | EvRaftRpc (client : RpcClient.t) (req : RaftMsgReq.t) (call : Z).

Module Mem.
Record t : Type := mk {
  resps : gmap Z KvResp.t;   (* the KvResp objects *)
  trace : list Event;        (* oldest first *)
  calls : gset Z;            (* RpcController/RaftMsgResp pairs not yet deleted *)
  next_call : Z              (* the next fresh pair *)
}.
Definition set_resps (f : gmap Z KvResp.t → gmap Z KvResp.t) (m : t) : t :=
  mk (f (resps m)) (trace m) (calls m) (next_call m).
Definition add_event (e : Event) (m : t) : t :=
  mk (resps m) (trace m ++ [e]) (calls m) (next_call m).
Definition empty : t := mk ∅ [] ∅ 0.
End Mem.

(** [done->Run()]: the response it sends stays in the store, where the library
    frees it; Final shows that no step needs it any more. *)
Definition Run (done : DonePtr) : M Mem.t unit :=
  modify (λ m, Mem.add_event (EvRun done (Mem.resps m)) m).

(** A write through a response pointer; writing through a dangling pointer is
    undefined behaviour. *)
Definition write_resp (p : RespPtr) (f : KvResp.t → KvResp.t) : M Mem.t unit := λ m,
  match Mem.resps m !! p with
  | Some r => Ok () (Mem.set_resps <[p := f r]> m)
  | None => Ub "write through a dangling KvResp*"
  end.

(** [new jrpc::RpcController(...)] and [new RaftMsgResp] *)
Definition new_call : M Mem.t Z := λ m,
  let c := Mem.next_call m in
  Ok c (Mem.mk (Mem.resps m) (Mem.trace m) ({[c]} ∪ Mem.calls m) (c + 1)).

(** the unique_ptr guards of HandleSendMsg2Peer delete the pair *)
Definition delete_call (c : Z) : M Mem.t unit := λ m,
  if decide (c ∈ Mem.calls m)
  then Ok () (Mem.mk (Mem.resps m) (Mem.trace m) (Mem.calls m ∖ {[c]}) (Mem.next_call m))
  else Ub "delete of a pointer that is not live".

(** jrpc::ClosureGuard (closure_guard.h): runs its closure when destroyed. *)
Module ClosureGuard.
Record t : Type := mk { done_ : option DonePtr }.

Definition ctor0 : t := mk None.
Definition ctor (done : option DonePtr) : t := mk done.

Definition run_if_set (g : t) : M Mem.t unit :=
  match done_ g with Some d => Run d | None => mret () end.

Definition dtor (g : t) : M Mem.t unit := run_if_set g.

Definition reset (done : option DonePtr) (g : t) : M Mem.t t :=
  run_if_set g ;; mret (mk done).

(* returns the closure and the emptied guard *)
Definition release (g : t) : option DonePtr * t := (done_ g, mk None).

Definition empty (g : t) : bool :=
  match done_ g with None => true | Some _ => false end.

Definition swap (g other : t) : t * t := (mk (done_ other), mk (done_ g)).
End ClosureGuard.

(** ** The closures run so far *)

Definition run_of (e : Event) : list DonePtr :=
  match e with EvRun d _ => [d] | EvRaftRpc _ _ _ => [] end.
Definition runs (tr : list Event) : list DonePtr := tr ≫= run_of.

(** What the receiver of a response sees: the store at the moment the closure ran. *)
Definition answered (d : DonePtr) (p : RespPtr) (r : KvResp.t) (tr : list Event) : Prop :=
  ∃ h, EvRun d h ∈ tr ∧ h !! p = Some r.

Lemma runs_app t1 t2 : runs (t1 ++ t2) = runs t1 ++ runs t2.
Proof. apply bind_app. Qed.

Lemma runs_add_run d h tr : runs (tr ++ [EvRun d h]) = runs tr ++ [d].
Proof. rewrite runs_app. done. Qed.

Lemma elem_of_runs d tr : d ∈ runs tr ↔ ∃ h, EvRun d h ∈ tr.
Proof.
  unfold runs. rewrite list_elem_of_bind. split.
  - intros ([d' h|c r k] & Hd & He); simpl in Hd; [|set_solver].
    apply list_elem_of_singleton in Hd as ->. eauto.
  - intros [h He]. exists (EvRun d h). set_solver.
Qed.

Lemma Run_Ok d m : Run d m = Ok () (Mem.add_event (EvRun d (Mem.resps m)) m).
Proof. done. Qed.

Lemma write_resp_Ok p f r m :
  Mem.resps m !! p = Some r →
  write_resp p f m = Ok () (Mem.set_resps <[p := f r]> m).
Proof. intros Hr. unfold write_resp. by rewrite Hr. Qed.

(** Operations that reach the shared memory never free or invent a response. *)
Lemma wp_write_resp U p f Q R m :
  is_Some (Mem.resps m !! p) →
  (∀ r, Mem.resps m !! p = Some r → Q () (Mem.set_resps <[p := f r]> m)) →
  wp U (write_resp p f) Q R m.
Proof. intros [r Hr] HQ. unfold wp. rewrite (write_resp_Ok _ _ _ _ Hr). auto. Qed.

Lemma wp_Run U d Q R m :
  Q () (Mem.add_event (EvRun d (Mem.resps m)) m) → wp U (Run d) Q R m.
Proof. done. Qed.

#[export] Hint Rewrite runs_app runs_add_run : jkv_rw.
