(* ===== verification/CString.v ===== *)
(** * CString: the standard-library conversions the program uses

    [std::to_string] on an unsigned integer and [atoi] on a C string, with
    their round trip.  [atoi] skips white space, reads an optional sign and the
    longest run of digits; a value outside of [int] is undefined behaviour in C
    and modelled as [None].  Strings are given by their bytes; the C string of
    a [std::string] ends at its first NUL, which is not a digit, so scanning
    stops there as it does on the bytes.  [i32] is the conversion to [int]. *)
From S2P Require Import Prelude.
From Stdlib Require Export Ascii.
From Stdlib Require String.

#[local] Open Scope Z_scope.

Definition INT_MAX : Z := 2 ^ 31 - 1.
Definition INT_MIN : Z := - 2 ^ 31.

(** [static_cast<int>] of an integer *)
Definition i32 (z : Z) : Z := (z + 2 ^ 31) mod 2 ^ 32 - 2 ^ 31.

Lemma i32_small z : - 2 ^ 31 ≤ z ≤ INT_MAX → i32 z = z.
Proof. unfold i32, INT_MAX. intros. rewrite Z.mod_small; lia. Qed.

#[global] Arguments i32 : simpl never.

Definition is_space (c : ascii) : bool :=
  let n := nat_of_ascii c in (n =? 32)%nat || ((9 <=? n)%nat && (n <=? 13)%nat).

Fixpoint skip_space (s : string) : string :=
  match s with
  | String c s' => if is_space c then skip_space s' else s
  | EmptyString => EmptyString
  end.

Definition digit_of (c : ascii) : option Z :=
  let n := Z.of_nat (nat_of_ascii c) in
  if (48 <=? n) && (n <=? 57) then Some (n - 48) else None.

Fixpoint scan_digits (acc : Z) (s : string) : Z :=
  match s with
  | String c s' =>
      match digit_of c with
      | Some d => scan_digits (acc * 10 + d) s'
      | None => acc
      end
  | EmptyString => acc
  end.

Definition signed_scan (s : string) : Z :=
  match s with
  | String "-" s' => - scan_digits 0 s'
  | String "+" s' => scan_digits 0 s'
  | s' => scan_digits 0 s'
  end.

Definition atoi (s : string) : option Z :=
  let v := signed_scan (skip_space s) in
  if (INT_MIN <=? v) && (v <=? INT_MAX) then Some v else None.

Definition digit_char (d : Z) : ascii := ascii_of_nat (48 + Z.to_nat d).

Fixpoint dec_aux (fuel : nat) (n : Z) (acc : string) : string :=
  match fuel with
  | O => acc
  | S f =>
      let acc' := String (digit_char (n mod 10)) acc in
      if n <? 10 then acc' else dec_aux f (n / 10) acc'
  end.

(** [std::to_string(uint64_t)]: 2^64 < 10^20, so 20 digits are enough. *)
Definition to_string (n : Z) : string := dec_aux 20 n "".

Definition chars (s : string) : list ascii := String.list_ascii_of_string s.
Definition no_char (c : ascii) (s : string) : Prop := c ∉ chars s.

#[export] Instance no_char_dec c s : Decision (no_char c s).
Proof. unfold no_char. apply _. Defined.

#[global] Arguments atoi : simpl never.
#[global] Arguments to_string : simpl never.

(** ** Digits *)

Lemma digit_of_char d : 0 ≤ d < 10 → digit_of (digit_char d) = Some d.
Proof.
  intros H. assert (d = 0 ∨ d = 1 ∨ d = 2 ∨ d = 3 ∨ d = 4 ∨ d = 5 ∨ d = 6 ∨ d = 7
    ∨ d = 8 ∨ d = 9) as Hd by lia. by destruct_or! Hd; subst.
Qed.

Lemma digit_not_space c d : digit_of c = Some d → is_space c = false.
Proof.
  unfold digit_of, is_space. set (n := nat_of_ascii c).
  destruct (48 <=? Z.of_nat n) eqn:E; simpl; [|done]. intros _.
  apply Z.leb_le in E. rewrite (proj2 (Nat.eqb_neq n 32)) by lia.
  rewrite (proj2 (Nat.leb_gt n 13)) by lia. simpl. apply andb_false_r.
Qed.

Lemma digit_not_sign c d s : digit_of c = Some d →
  signed_scan (String c s) = scan_digits 0 (String c s).
Proof.
  intros Hd. unfold signed_scan.
  destruct c as [[] [] [] [] [] [] [] []]; try done; by vm_compute in Hd.
Qed.

Lemma scan_dec fuel n tl :
  (0 < fuel)%nat → 0 ≤ n < 10 ^ Z.of_nat fuel →
  scan_digits 0 (dec_aux fuel n tl) = scan_digits n tl.
Proof.
  revert n tl. induction fuel as [|f IH]; intros n tl Hf Hn; [lia|].
  cbn [dec_aux]. pose proof (Z.mod_pos_bound n 10).
  pose proof (Z.div_mod n 10). destruct (Z.ltb_spec n 10).
  - cbn [scan_digits]. rewrite digit_of_char by lia.
    by rewrite Z.mod_small, Z.mul_0_l, Z.add_0_l by lia.
  - rewrite IH.
    + cbn [scan_digits]. rewrite digit_of_char by lia.
      by replace (n / 10 * 10 + n mod 10) with n by lia.
    + destruct f; [simpl in Hn; lia|lia].
    + rewrite Nat2Z.inj_succ, Z.pow_succ_r in Hn by lia.
      split; [apply Z.div_pos; lia|apply Z.div_lt_upper_bound; lia].
Qed.

Lemma dec_head fuel n tl : (0 < fuel)%nat → 0 ≤ n →
  ∃ d s, 0 ≤ d < 10 ∧ dec_aux fuel n tl = String (digit_char d) s.
Proof.
  revert n tl. induction fuel as [|f IH]; intros n tl Hf Hn; [lia|].
  cbn [dec_aux]. pose proof (Z.mod_pos_bound n 10).
  destruct (n <? 10); [eexists _, _; split; [|done]; lia|].
  destruct f as [|f]; [eexists _, _; split; [|done]; lia|].
  apply IH; [lia|]. apply Z.div_pos; lia.
Qed.

Lemma dec_chars fuel n tl :
  0 ≤ n → ∀ c, c ∈ chars (dec_aux fuel n tl) →
  is_Some (digit_of c) ∨ c ∈ chars tl.
Proof.
  revert n tl. induction fuel as [|f IH]; intros n tl Hn c Hc; [by right|].
  cbn [dec_aux] in Hc. pose proof (Z.mod_pos_bound n 10) as Hm.
  assert (c ∈ chars (String (digit_char (n mod 10)) tl) →
          is_Some (digit_of c) ∨ c ∈ chars tl) as Hhd.
  { unfold chars. simpl. intros [->|?]%elem_of_cons; [left|by right].
    rewrite digit_of_char by lia. eauto. }
  destruct (n <? 10); [auto|].
  apply IH in Hc as [?|?]; [by left|auto|apply Z.div_pos; lia].
Qed.

Lemma to_string_digits n c : 0 ≤ n → c ∈ chars (to_string n) → is_Some (digit_of c).
Proof.
  intros Hn [?|Hc]%dec_chars; [done| |done]. unfold chars in Hc. set_solver.
Qed.

Lemma to_string_no_char n c : 0 ≤ n → digit_of c = None → no_char c (to_string n).
Proof. intros Hn Hc [? ?]%to_string_digits; [congruence|done]. Qed.

Lemma UINT64_lt_pow : UINT64_MAX < 10 ^ Z.of_nat 20.
Proof. done. Qed.

(** ** Round trip *)

Lemma scan_to_string n : 0 ≤ n ≤ UINT64_MAX → scan_digits 0 (to_string n) = n.
Proof.
  intros Hn. pose proof UINT64_lt_pow. unfold to_string.
  rewrite scan_dec; [done|lia|lia].
Qed.

Lemma to_string_inj n m :
  0 ≤ n ≤ UINT64_MAX → 0 ≤ m ≤ UINT64_MAX → to_string n = to_string m → n = m.
Proof. intros Hn Hm E. by rewrite <- (scan_to_string n), E, scan_to_string. Qed.

Lemma atoi_to_string n : 0 ≤ n ≤ INT_MAX → atoi (to_string n) = Some n.
Proof.
  intros Hn. unfold atoi.
  assert (signed_scan (skip_space (to_string n)) = n) as ->.
  { destruct (dec_head 20 n "") as (d & s & Hd & E); [lia|lia|].
    unfold to_string. rewrite E. pose proof (digit_of_char d Hd) as Hc.
    cbn [skip_space]. rewrite (digit_not_space _ _ Hc), (digit_not_sign _ _ _ Hc).
    rewrite <- E. apply scan_to_string. unfold INT_MAX, UINT64_MAX in *. lia. }
  unfold INT_MIN, INT_MAX in *.
  rewrite (proj2 (Z.leb_le _ _)), (proj2 (Z.leb_le _ _)) by lia. done.
Qed.

Lemma atoi_bounds s v : atoi s = Some v → INT_MIN ≤ v ≤ INT_MAX.
Proof.
  unfold atoi. destruct (_ && _) eqn:E; [|done]. intros [= <-].
  apply andb_true_iff in E as [?%Z.leb_le ?%Z.leb_le]. lia.
Qed.

#[export] Hint Resolve atoi_bounds : jkv.

Example atoi_spaces : atoi "  -12x" = Some (-12).
Proof. reflexivity. Qed.
Example atoi_empty : atoi "" = Some 0.
Proof. reflexivity. Qed.
Example atoi_overflow : atoi "2147483648" = None.
Proof. reflexivity. Qed.
