(* ===== verification/Storage.v ===== *)
(** * Storage: src/storage/disk_storage.{h,cc}

    [DiskStorage] wraps a leveldb database.  leveldb and boost::filesystem are
    parameters ([LevelDB]) with leveldb's documented behaviour as laws.  The
    file ends with the contract the peer relies on, the interface [KvStore]:
    a store with a finite map as its contents, which [DiskStorage] implements
    when [JLOG_FATAL] aborts. *)
From S2P Require Import Prelude.

Module Status.
Record t : Type := mk { ok : bool; ToString : string }.
End Status.

(** leveldb::DB and the file system it lives in. *)
Class LevelDB : Type := {
  ldb : Type;
  filesystem : Type;
  fs_exists : filesystem → string → bool;
  fs_create_directories : string → filesystem → filesystem;
  (* DB::Open(opts, path, &db): None leaves db at nullptr; the flag is
     opts.create_if_missing *)
  DB_Open : bool → string → filesystem → Status.t * option ldb * filesystem;
  (* the string is the value of [val] after the call, from the empty string *)
  DB_Get : ldb → string → Status.t * string;
  DB_Put : ldb → string → string → Status.t * ldb;
  DB_Delete : ldb → string → Status.t * ldb
}.

(** leveldb's documentation: a successful Get returns the stored value (an
    absent key answers NotFound), a successful write is applied, and a
    successful Open yields a database. *)
Class LevelDBLaws `{LevelDB} : Type := {
  db_contents : ldb → gmap string string;
  DB_Open_ok c path fs st db fs' :
    DB_Open c path fs = (st, db, fs') → Status.ok st = true → is_Some db;
  DB_Get_ok d k st v :
    DB_Get d k = (st, v) → Status.ok st = true → db_contents d !! k = Some v;
  DB_Put_ok d k v st d' :
    DB_Put d k v = (st, d') → Status.ok st = true →
    db_contents d' = <[k := v]> (db_contents d);
  DB_Delete_ok d k st d' :
    DB_Delete d k = (st, d') → Status.ok st = true →
    db_contents d' = delete k (db_contents d)
}.

(** A database whose device never fails. *)
Class LevelDBReliable `{LevelDBLaws} : Prop := {
  DB_Get_reliable d k v :
    db_contents d !! k = Some v → Status.ok (DB_Get d k).1 = true;
  DB_Put_reliable d k v : Status.ok (DB_Put d k v).1 = true;
  DB_Delete_reliable d k : Status.ok (DB_Delete d k).1 = true
}.

Module DiskStorage.
Section DiskStorage.
Context `{FatalPolicy} `{LevelDB}.

Record t : Type := mk { db_path_ : string; db_ : option ldb (* nullptr: None *) }.

Definition ctor (db_path : string) : M filesystem t :=
  fs ← get_state;
  when (negb (fs_exists fs db_path)) (modify (fs_create_directories db_path)) ;;
  fs ← get_state;
  let '(status, db, fs') := DB_Open true db_path fs in
  put_state fs' ;;
  when (negb (Status.ok status))
    (fatal ("can't open db, err_msg: " +:+ Status.ToString status)) ;;
  mret (mk db_path db).

(* the handles the destructor deletes *)
Definition dtor (s : t) : list ldb := option_list (db_ s).

Definition Get (key : string) : M t string := λ s,
  match db_ s with
  | None => Ub "db_->Get on nullptr"
  | Some db =>
      let '(status, val) := DB_Get db key in
      (when (negb (Status.ok status))
         (fatal ("can't get kv from db, err_msg: " +:+ Status.ToString status)) ;;
       mret val) s
  end.

Definition Put (key val : string) : M t unit := λ s,
  match db_ s with
  | None => Ub "db_->Put on nullptr"
  | Some db =>
      let '(status, db') := DB_Put db key val in
      when (negb (Status.ok status))
        (fatal ("can't put kv to db, err_msg: " +:+ Status.ToString status))
        (mk (db_path_ s) (Some db'))
  end.

Definition Del (key : string) : M t unit := λ s,
  match db_ s with
  | None => Ub "db_->Delete on nullptr"
  | Some db =>
      let '(status, db') := DB_Delete db key in
      when (negb (Status.ok status))
        (fatal ("can't del kv from db, err_msg: " +:+ Status.ToString status))
        (mk (db_path_ s) (Some db'))
  end.
End DiskStorage.
End DiskStorage.

(** ** The interface the peer uses *)

(** The operations a peer calls on its [kv_db_]. *)
Class KvStore (T : Type) : Type := {
  store_get : string → M T string;
  store_put : string → string → M T unit;
  store_del : string → M T unit
}.

(** What they promise: an open store stays open, and its contents behave as a
    finite map.  An operation either returns with its effect applied or
    aborts the process; it never has undefined behaviour. *)
Class KvStoreLaws (T : Type) `{KvStore T} : Type := {
  contents : T → gmap string string;
  is_open : T → Prop;
  store_get_wp k s : is_open s →
    wp False (store_get k) (λ v s', s' = s ∧ contents s !! k = Some v) (λ s', s' = s) s;
  store_put_wp k v s : is_open s →
    wp False (store_put k v)
      (λ _ s', is_open s' ∧ contents s' = <[k := v]> (contents s)) is_open s;
  store_del_wp k s : is_open s →
    wp False (store_del k)
      (λ _ s', is_open s' ∧ contents s' = delete k (contents s)) is_open s
}.

(** A store that only aborts when it must: a Get of a key it does not hold. *)
Class KvStoreTotal (T : Type) `{KvStoreLaws T} : Prop := {
  store_get_total k v s : is_open s → contents s !! k = Some v → store_get k s = Ok v s;
  store_put_total k v s : is_open s → ∃ s', store_put k v s = Ok () s';
  store_del_total k s : is_open s → ∃ s', store_del k s = Ok () s'
}.

Section store_interface.
Context {T : Type} `{KvStoreLaws T}.

Lemma store_get_present k s v s' :
  is_open s → store_get k s = Ok v s' → s' = s ∧ contents s !! k = Some v.
Proof. intros Ho E. exact (wp_Ok _ _ _ _ _ _ _ (store_get_wp k s Ho) E). Qed.

(** The interface alone forces a Get of an absent key to kill the process. *)
Lemma store_get_absent k s :
  is_open s → contents s !! k = None → ∃ msg, store_get k s = Abort msg s.
Proof.
  intros Ho Hk. pose proof (store_get_wp k s Ho) as Hwp. unfold wp in Hwp.
  destruct (store_get k s) as [v s'|msg s'| |]; try done.
  - destruct Hwp. congruence.
  - subst. eauto.
Qed.
End store_interface.

#[export] Instance DiskStorage_KvStore `{FatalPolicy} `{LevelDB} : KvStore DiskStorage.t := {|
  store_get := DiskStorage.Get;
  store_put := DiskStorage.Put;
  store_del := DiskStorage.Del
|}.

Section DiskStorage_laws.
Context `{FatalPolicy} `{LevelDBLaws}.

Definition ds_contents (s : DiskStorage.t) : gmap string string :=
  from_option db_contents ∅ (DiskStorage.db_ s).
Definition ds_open (s : DiskStorage.t) : Prop := is_Some (DiskStorage.db_ s).

(** With an aborting [JLOG_FATAL], the constructor returns an open store. *)
Lemma DiskStorage_ctor_wp path fs :
  fatal_aborts = true →
  wp False (DiskStorage.ctor path)
    (λ s _, ds_open s ∧ DiskStorage.db_path_ s = path) (λ _, True) fs.
Proof.
  intros Hf. unfold DiskStorage.ctor. wp_steps; try done; try congruence.
  all: split; [|done]; eapply DB_Open_ok; [done|].
  all: by apply negb_false_iff.
Qed.

Lemma ds_get_wp k s : fatal_aborts = true → ds_open s →
  wp False (DiskStorage.Get k)
    (λ v s', s' = s ∧ ds_contents s !! k = Some v) (λ s', s' = s) s.
Proof.
  intros Hf [db Hdb]. unfold wp, DiskStorage.Get, ds_contents. rewrite Hdb. simpl.
  destruct (DB_Get db k) as [st v] eqn:E. unfold when, fatal.
  destruct (Status.ok st) eqn:Hok; simpl.
  - split; [done|]. by eapply DB_Get_ok.
  - by rewrite Hf.
Qed.

Lemma ds_put_wp k v s : fatal_aborts = true → ds_open s →
  wp False (DiskStorage.Put k v)
    (λ _ s', ds_open s' ∧ ds_contents s' = <[k := v]> (ds_contents s)) ds_open s.
Proof.
  intros Hf [db Hdb]. unfold wp, DiskStorage.Put, ds_contents, ds_open. rewrite Hdb.
  destruct (DB_Put db k v) as [st db'] eqn:E. unfold when, fatal.
  destruct (Status.ok st) eqn:Hok; simpl.
  - split; [done|]. by eapply DB_Put_ok.
  - by rewrite Hf.
Qed.

Lemma ds_del_wp k s : fatal_aborts = true → ds_open s →
  wp False (DiskStorage.Del k)
    (λ _ s', ds_open s' ∧ ds_contents s' = delete k (ds_contents s)) ds_open s.
Proof.
  intros Hf [db Hdb]. unfold wp, DiskStorage.Del, ds_contents, ds_open. rewrite Hdb.
  destruct (DB_Delete db k) as [st db'] eqn:E. unfold when, fatal.
  destruct (Status.ok st) eqn:Hok; simpl.
  - split; [done|]. by eapply DB_Delete_ok.
  - by rewrite Hf.
Qed.

(** [DiskStorage] meets the peer's contract when FATAL records abort. *)
Definition DiskStorage_KvStoreLaws (Hf : fatal_aborts = true) : KvStoreLaws DiskStorage.t := {|
  contents := ds_contents;
  is_open := ds_open;
  store_get_wp k s := ds_get_wp k s Hf;
  store_put_wp k v s := ds_put_wp k v s Hf;
  store_del_wp k s := ds_del_wp k s Hf
|}.

Lemma DiskStorage_KvStoreTotal (Hf : fatal_aborts = true) :
  LevelDBReliable → @KvStoreTotal DiskStorage.t _ (DiskStorage_KvStoreLaws Hf).
Proof.
  intros Hr. split; simpl; unfold store_get, store_put, store_del; simpl.
  - intros k v s [db Hdb] Hk. unfold ds_contents in Hk. rewrite Hdb in Hk. simpl in Hk.
    unfold DiskStorage.Get. rewrite Hdb.
    pose proof (DB_Get_reliable db k v Hk) as Hok.
    destruct (DB_Get db k) as [st w] eqn:E. simpl in Hok. rewrite Hok. simpl.
    unfold when. simpl.
    pose proof (DB_Get_ok _ _ _ _ E Hok). by simplify_eq.
  - intros k v s [db Hdb]. unfold DiskStorage.Put. rewrite Hdb.
    pose proof (DB_Put_reliable db k v) as Hok.
    destruct (DB_Put db k v) as [st db']. simpl in Hok. rewrite Hok. simpl. eauto.
  - intros k s [db Hdb]. unfold DiskStorage.Del. rewrite Hdb.
    pose proof (DB_Delete_reliable db k) as Hok.
    destruct (DB_Delete db k) as [st db']. simpl in Hok. rewrite Hok. simpl. eauto.
Qed.

(** C31 [DiskStorage] implements a finite map, with an aborting FATAL: from an
    open storage no operation has undefined behaviour; a Get that returns
    gives the value stored under the key and changes nothing (so a Get of an
    absent key cannot return), a Put or Del that returns has updated exactly
    that key, and the storage stays open even in the state of an abort. *)
Theorem DiskStorage_correct s :
  fatal_aborts = true → ds_open s →
  (∀ k, wp False (DiskStorage.Get k)
     (λ v s', s' = s ∧ ds_contents s !! k = Some v) (λ s', s' = s) s) ∧
  (∀ k v, wp False (DiskStorage.Put k v)
     (λ _ s', ds_open s' ∧ ds_contents s' = <[k := v]> (ds_contents s)) ds_open s) ∧
  (∀ k, wp False (DiskStorage.Del k)
     (λ _ s', ds_open s' ∧ ds_contents s' = delete k (ds_contents s)) ds_open s).
Proof.
  intros Hf Ho. split_and!; intros; [by apply ds_get_wp|by apply ds_put_wp|by apply ds_del_wp].
Qed.
End DiskStorage_laws.
