(* ===== verification/Members.v ===== *)
(** * Members: the member list of a raft group (Peer::InitGroupMembers)

    src/peer/peer.h (GroupMember) and Peer::InitGroupMembers of
    src/peer/peer.cc: the parser of
    [host1,peer1,ip1,port1|host2,peer2,ip2,port2|...].  [boost::split] is a
    parameter with its documented behaviour as laws. *)
From S2P Require Import Prelude CString.

#[local] Open Scope char_scope.
#[local] Open Scope Z_scope.

(** [boost::split(strs, s, boost::is_any_of(sep))] for a one-character set:
    the value of [strs] after the call. *)
Class BoostSplit : Type := split : string → ascii → list string.

Fixpoint join (sep : ascii) (l : list string) : string :=
  match l with
  | [] => ""
  | [s] => s
  | s :: l' => s +:+ String sep (join sep l')
  end.

(** Without token compression, the pieces are what separates the occurrences
    of the separator: at least one piece, none contains the separator. *)
Class BoostSplitLaws `{BoostSplit} : Prop := {
  split_join s c : join c (split s c) = s;
  split_no_sep s c : Forall (no_char c) (split s c);
  split_nonempty s c : split s c ≠ []
}.

Module GroupMember.
Record t : Type := mk { host_id : Z; peer_id : Z; ip : string; port : Z }.
(* the arguments are converted to HostId, PeerId and uint16_t *)
Definition ctor (host_id peer_id : Z) (ip : string) (port : Z) : t :=
  mk (u64 host_id) (u64 peer_id) ip (u16 port).
End GroupMember.
#[export] Instance GroupMember_eq_dec : EqDecision GroupMember.t.
Proof. solve_decision. Defined.

Abbreviation peers_map := (gmap Z GroupMember.t).

Section InitGroupMembers.
Context `{FatalPolicy} `{BoostSplit}.

Definition atoi_m {S} (s : string) : M S Z :=
  match atoi s with Some v => mret v | None => ub "atoi: value out of range" end.

(* addr_info[i] *)
Definition elem_at {S} (l : list string) (i : nat) : M S string :=
  match l !! i with Some x => mret x | None => ub "vector index out of range" end.

(* unordered_map::insert keeps the element already there *)
Definition insert_if_absent (g : GroupMember.t) (peers : peers_map) : peers_map :=
  match peers !! GroupMember.host_id g with
  | Some _ => peers
  | None => <[GroupMember.host_id g := g]> peers
  end.

(** The body of the loop of [Peer::InitGroupMembers]. *)
Definition InitGroupMember (str : string) : M peers_map unit :=
  let addr_info := split str "," in
  when (negb (length addr_info =? 4)%nat) (fatal "invalid member") ;;
  a0 ← elem_at addr_info 0; h ← atoi_m a0;
  peers ← get_state;
  when (bool_decide (is_Some (peers !! u64 h))) (fatal "same host in one cluster") ;;
  a1 ← elem_at addr_info 1; p ← atoi_m a1;
  a2 ← elem_at addr_info 2;
  a3 ← elem_at addr_info 3; port ← atoi_m a3;
  modify (insert_if_absent (GroupMember.ctor h p a2 port)).

Definition InitGroupMembers (members : string) : M peers_map unit :=
  let strs := split members "|" in
  when (bool_decide (strs = [])) (fatal "invalid members") ;;
  for_each InitGroupMember strs.
End InitGroupMembers.

(** ** Reference parser *)

Section reference.
Context `{BoostSplit}.

Definition parse_member (str : string) : option GroupMember.t :=
  match split str "," with
  | [a0; a1; a2; a3] =>
      h ← atoi a0; p ← atoi a1; port ← atoi a3;
      Some (GroupMember.ctor h p a2 port)
  | _ => None
  end.

Definition by_host (g : GroupMember.t) : Z * GroupMember.t := (GroupMember.host_id g, g).
Definition member_table (ms : list GroupMember.t) : peers_map := list_to_map (by_host <$> ms).
End reference.

Definition print_member (g : GroupMember.t) : string :=
  join "," [to_string (GroupMember.host_id g); to_string (GroupMember.peer_id g);
            GroupMember.ip g; to_string (GroupMember.port g)].
Definition print_members (ms : list GroupMember.t) : string := join "|" (print_member <$> ms).

(** A member the textual format can express: ids that fit in an [int], an
    address without the separators. *)
Definition printable (g : GroupMember.t) : Prop :=
  0 ≤ GroupMember.host_id g ≤ INT_MAX ∧ 0 ≤ GroupMember.peer_id g ≤ INT_MAX ∧
  0 ≤ GroupMember.port g ≤ UINT16_MAX ∧
  no_char "," (GroupMember.ip g) ∧ no_char "|" (GroupMember.ip g).

#[export] Instance printable_dec g : Decision (printable g).
Proof. unfold printable. apply _. Defined.

(** ** Splitting is determined by its laws *)

Lemma chars_app s1 s2 : chars (s1 +:+ s2) = chars s1 ++ chars s2.
Proof. unfold chars. induction s1 as [|c s1 IH]; simpl; [done|]. by rewrite <- IH. Qed.

Lemma no_char_cons c x s : no_char c (String x s) ↔ c ≠ x ∧ no_char c s.
Proof. unfold no_char, chars. simpl. by rewrite not_elem_of_cons. Qed.

Lemma piece_unique c a b x y :
  no_char c a → no_char c b →
  a +:+ String c x = b +:+ String c y → a = b ∧ x = y.
Proof.
  revert b. induction a as [|d a IH]; intros [|e b] Ha Hb E; simpl in E.
  - by simplify_eq.
  - simplify_eq. by apply no_char_cons in Hb as [? _].
  - simplify_eq. by apply no_char_cons in Ha as [? _].
  - simplify_eq. apply no_char_cons in Ha as [_ Ha], Hb as [_ Hb].
    edestruct IH as [-> ->]; eauto.
Qed.

Lemma piece_last c a b x : no_char c a → a ≠ b +:+ String c x.
Proof.
  intros Ha ->. unfold no_char in Ha. rewrite chars_app in Ha. apply Ha.
  unfold chars. simpl. set_solver.
Qed.

Lemma join_cons c s l : l ≠ [] → join c (s :: l) = s +:+ String c (join c l).
Proof. by destruct l. Qed.

Lemma join_inj c l k :
  l ≠ [] → k ≠ [] → Forall (no_char c) l → Forall (no_char c) k →
  join c l = join c k → l = k.
Proof.
  revert k. induction l as [|a l IH]; intros [|b k] Hl Hk Fl Fk E; try done.
  apply Forall_cons in Fl as [Ha Fl], Fk as [Hb Fk].
  destruct (decide (l = [])) as [->|Hl'], (decide (k = [])) as [->|Hk'].
  - simpl in E. by subst.
  - rewrite (join_cons _ b k) in E by done. simpl in E. by apply piece_last in E.
  - rewrite (join_cons _ a l) in E by done. simpl in E.
    symmetry in E. by apply piece_last in E.
  - rewrite !join_cons in E by done. apply piece_unique in E as [-> E]; [|done..].
    f_equal. by apply IH.
Qed.

Section split_laws.
Context `{BoostSplitLaws}.

Lemma split_of_join c l :
  l ≠ [] → Forall (no_char c) l → split (join c l) c = l.
Proof.
  intros Hl Fl. apply (join_inj c); auto using split_nonempty, split_no_sep, split_join.
Qed.
End split_laws.

(** ** The loop body against the reference parser *)

Section init_members.
Context `{FatalPolicy} `{BoostSplit}.

Lemma elem_at_Ok {S} (l : list string) i x (s : S) :
  l !! i = Some x → elem_at l i s = Ok x s.
Proof. intros E. unfold elem_at. by rewrite E. Qed.

Lemma atoi_m_Ok {S} a v (s : S) : atoi a = Some v → atoi_m a s = Ok v s.
Proof. intros E. unfold atoi_m. by rewrite E. Qed.

#[local] Hint Resolve elem_at_Ok atoi_m_Ok : jkv.

Lemma parse_member_fields str g : parse_member str = Some g →
  ∃ a0 a1 a2 a3 h p port, split str "," = [a0; a1; a2; a3] ∧
    atoi a0 = Some h ∧ atoi a1 = Some p ∧ atoi a3 = Some port ∧
    g = GroupMember.ctor h p a2 port.
Proof.
  unfold parse_member. destruct (split str ",") as [|a0 [|a1 [|a2 [|a3 [|]]]]] eqn:Es;
    try done.
  destruct (atoi a0) as [h|] eqn:E0; simpl; [|done].
  destruct (atoi a1) as [p|] eqn:E1; simpl; [|done].
  destruct (atoi a3) as [q|] eqn:E3; simpl; [|done].
  intros [= <-]. naive_solver.
Qed.

(** A member that parses and names a new host is added. *)
Lemma InitGroupMember_add str g m :
  parse_member str = Some g → m !! GroupMember.host_id g = None →
  InitGroupMember str m = Ok () (<[GroupMember.host_id g := g]> m).
Proof.
  intros (a0 & a1 & a2 & a3 & h & p & q & Es & E0 & E1 & E3 & ->)%parse_member_fields Hm.
  assert (bool_decide (is_Some (m !! u64 h)) = false).
  { apply bool_decide_eq_false_2. simpl in Hm. rewrite Hm. by intros []. }
  unfold InitGroupMember. rewrite Es. runs_to_end.
  unfold modify, insert_if_absent. by rewrite Hm.
Qed.

Lemma InitGroupMember_dup str g m :
  fatal_aborts = true → parse_member str = Some g → is_Some (m !! GroupMember.host_id g) →
  InitGroupMember str m = Abort "same host in one cluster" m.
Proof.
  intros Hf (a0 & a1 & a2 & a3 & h & p & q & Es & E0 & E1 & E3 & ->)%parse_member_fields Hm.
  unfold InitGroupMember. rewrite Es. do 4 run. apply bind_Abort.
  rewrite bool_decide_eq_true_2 by done. by apply fatal_Abort.
Qed.

Lemma InitGroupMember_arity str m :
  fatal_aborts = true → length (split str ",") ≠ 4%nat →
  InitGroupMember str m = Abort "invalid member" m.
Proof.
  intros Hf Hl. unfold InitGroupMember. apply bind_Abort.
  rewrite (proj2 (Nat.eqb_neq _ _) Hl). by apply fatal_Abort.
Qed.

(** Conversely, with an aborting FATAL, the loop body returns only then. *)
Lemma InitGroupMember_Ok str m m' :
  fatal_aborts = true → InitGroupMember str m = Ok () m' →
  ∃ g, parse_member str = Some g ∧ m !! GroupMember.host_id g = None ∧
       m' = <[GroupMember.host_id g := g]> m.
Proof.
  intros Hf E.
  destruct (decide (length (split str ",") = 4%nat)) as [Hl|Hl];
    [|by rewrite InitGroupMember_arity in E].
  destruct (parse_member str) as [g|] eqn:Hg.
  - destruct (m !! GroupMember.host_id g) as [g'|] eqn:Hm.
    + rewrite (InitGroupMember_dup _ g) in E; [done..|]. by rewrite Hm.
    + rewrite (InitGroupMember_add _ g) in E by done. exists g. naive_solver.
  - exfalso. revert E Hg. unfold InitGroupMember, parse_member.
    destruct (split str ",") as [|a0 [|a1 [|a2 [|a3 [|]]]]]; try done.
    unfold atoi_m. rewrite bind_eq. simpl. do 2 (rewrite bind_eq; simpl).
    destruct (atoi a0) as [h|]; simpl; [|done]. do 2 (rewrite bind_eq; simpl).
    destruct (when _ _ m) as [[] m1| | |]; try done. do 2 (rewrite bind_eq; simpl).
    destruct (atoi a1) as [p|]; simpl; [|done]. do 3 (rewrite bind_eq; simpl).
    by destruct (atoi a3).
Qed.

(** The loop from a table [m] of members already read. *)
Lemma members_loop strs m m' :
  fatal_aborts = true →
  for_each InitGroupMember strs m = Ok () m' ↔
  ∃ ms, mapM parse_member strs = Some ms ∧ NoDup (GroupMember.host_id <$> ms) ∧
        (∀ g, g ∈ ms → m !! GroupMember.host_id g = None) ∧
        m' = member_table ms ∪ m.
Proof.
  intros Hf. revert m. induction strs as [|s strs IH]; intros m; simpl.
  { split.
    - intros [= <-]. exists []. split_and!; [done|constructor|set_solver|].
      unfold member_table. simpl. by rewrite (left_id_L ∅ (∪)).
    - intros (ms & [= <-] & _ & _ & ->). unfold member_table. simpl.
      by rewrite (left_id_L ∅ (∪)). }
  rewrite bind_eq. split.
  - destruct (InitGroupMember s m) as [[] m1| | |] eqn:E; try done.
    apply InitGroupMember_Ok in E as (g & Hg & Hm & ->); [|done].
    intros (ms & Hms & Hnd & Hfresh & ->)%IH. rewrite Hg. simpl. rewrite Hms. simpl.
    assert (GroupMember.host_id g ∉ GroupMember.host_id <$> ms) as Hnot.
    { intros (g' & Hh & Hin)%list_elem_of_fmap. specialize (Hfresh g' Hin).
      rewrite <- Hh, lookup_insert_eq in Hfresh. done. }
    eexists. split_and!; [done|by constructor| |].
    + intros g' [->|Hin]%elem_of_cons; [done|].
      specialize (Hfresh g' Hin). by apply lookup_insert_None in Hfresh as [? _].
    + unfold member_table. simpl. rewrite <- insert_union_l.
      symmetry. apply insert_union_r. unfold by_host.
      apply not_elem_of_list_to_map_1. rewrite <- list_fmap_compose. done.
  - destruct (parse_member s) as [g|] eqn:Hg; simpl; [|by intros (?&?&?)].
    destruct (mapM parse_member strs) as [ms|] eqn:Hms; simpl; [|by intros (?&?&?)].
    intros (ms' & [= <-] & [Hnot Hnd]%NoDup_cons & Hfresh & ->).
    rewrite (InitGroupMember_add _ g) by (auto; set_solver).
    apply IH. eexists. split_and!; [done|done| |].
    + intros g' Hin. rewrite lookup_insert_ne; [set_solver|].
      intros Hh. apply Hnot. rewrite Hh. by apply list_elem_of_fmap_2.
    + unfold member_table. simpl. rewrite <- insert_union_l.
      apply insert_union_r.
      apply not_elem_of_list_to_map_1. rewrite <- list_fmap_compose. done.
Qed.
End init_members.

(** ** Properties of the parser *)

Section members_properties.
Context `{FatalPolicy} `{BoostSplitLaws}.

Lemma InitGroupMembers_loop s m :
  InitGroupMembers s m = for_each InitGroupMember (split s "|") m.
Proof.
  unfold InitGroupMembers. rewrite bool_decide_eq_false_2 by apply split_nonempty.
  done.
Qed.

(** C27 [InitGroupMembers] with an aborting FATAL: it returns exactly when every
    piece between the bars is a member with four fields and convertible
    numbers and no host is named twice, and the table it returns maps each
    host to its member. *)
Theorem InitGroupMembers_correct s m :
  fatal_aborts = true →
  InitGroupMembers s ∅ = Ok () m ↔
  ∃ ms, mapM parse_member (split s "|") = Some ms ∧
        NoDup (GroupMember.host_id <$> ms) ∧ m = member_table ms.
Proof.
  intros Hf. rewrite InitGroupMembers_loop, members_loop by done.
  setoid_rewrite (right_id_L ∅ (∪)). naive_solver.
Qed.

Lemma parse_print_member g : printable g → parse_member (print_member g) = Some g.
Proof.
  intros (Hh & Hp & Hq & Hc & _). unfold parse_member, print_member.
  assert (INT_MAX ≤ UINT64_MAX ∧ UINT16_MAX ≤ INT_MAX) as [? ?] by done.
  rewrite split_of_join; [|done|].
  - rewrite !atoi_to_string by lia. simpl. unfold GroupMember.ctor.
    rewrite !u64_small, u16_small by lia. by destruct g.
  - repeat constructor; try done; apply to_string_no_char; (lia || done).
Qed.

Lemma chars_join c s l :
  c ∈ chars (join s l) → c = s ∨ ∃ x, x ∈ l ∧ c ∈ chars x.
Proof.
  induction l as [|x l IH]; [unfold chars; simpl; set_solver|].
  destruct (decide (l = [])) as [->|Hl]; [intros; right; exists x; set_solver|].
  rewrite join_cons by done. rewrite chars_app. unfold chars at 2. simpl.
  rewrite elem_of_app, elem_of_cons. intros [?|[->|Hin]]; [|by left|].
  - right. exists x. set_solver.
  - destruct (IH Hin) as [->|(y & ? & ?)]; [by left|right; exists y; set_solver].
Qed.

Lemma print_member_no_bar g : printable g → no_char "|" (print_member g).
Proof.
  intros (Hh & Hp & Hq & _ & Hb) [?|(x & Hx & Hc)]%chars_join; [done|].
  assert (∀ n, 0 ≤ n → "|"%char ∉ chars (to_string n)) as Hn.
  { intros n Hn. by apply to_string_no_char. }
  repeat (apply elem_of_cons in Hx as [->|Hx]); try (by eapply Hn; [|done]; lia).
  - done.
  - by apply elem_of_nil in Hx.
Qed.

(** C28 Round trip of the documented member format
    [host1,peer1,ip1,port1|host2,peer2,ip2,port2|...]: printing a non-empty
    list of members of distinct hosts and parsing it gives their table, for
    ids within [int], ports within [uint16_t] and addresses without the
    separators. *)
Theorem InitGroupMembers_roundtrip ms :
  ms ≠ [] → Forall printable ms → NoDup (GroupMember.host_id <$> ms) →
  InitGroupMembers (print_members ms) ∅ = Ok () (member_table ms).
Proof.
  intros Hne Hpr Hnd. rewrite InitGroupMembers_loop. unfold print_members.
  rewrite split_of_join.
  2: { by destruct ms. }
  2: { apply Forall_fmap. eapply Forall_impl; [done|]. apply print_member_no_bar. }
  assert (∀ m, (∀ g, g ∈ ms → m !! GroupMember.host_id g = None) →
    for_each InitGroupMember (print_member <$> ms) m = Ok () (member_table ms ∪ m)) as Hloop.
  { clear Hne. induction ms as [|g ms IH]; intros m Hm; simpl.
    { unfold member_table. simpl. by rewrite (left_id_L ∅ (∪)). }
    apply Forall_cons in Hpr as [Hg Hpr]. apply NoDup_cons in Hnd as [Hnot Hnd].
    erewrite bind_Ok
      by (apply InitGroupMember_add; [by apply parse_print_member|set_solver]).
    rewrite IH; [|done|done|].
    - f_equal. unfold member_table. simpl. rewrite <- insert_union_l. symmetry.
      apply insert_union_r, not_elem_of_list_to_map_1. by rewrite <- list_fmap_compose.
    - intros g' Hin. rewrite lookup_insert_ne; [set_solver|].
      intros E. apply Hnot. rewrite E. by apply list_elem_of_fmap_2. }
  rewrite Hloop by set_solver. by rewrite (right_id_L ∅ (∪)).
Qed.

(** The two error branches, with an aborting FATAL.  Let the pieces of the
    member string be [pre ++ str :: post], with [pre] read into the table
    [m1].  A piece [str] that has not four fields aborts with "invalid
    member"; a piece that parses but names a host already read aborts with
    "same host in one cluster".  The pieces after it are not read, and the
    table is left at [m1]. *)
Theorem InitGroupMembers_errors s pre str post m1 :
  fatal_aborts = true → split s "|" = pre ++ str :: post →
  for_each InitGroupMember pre ∅ = Ok () m1 →
  (length (split str ",") ≠ 4%nat →
     InitGroupMembers s ∅ = Abort "invalid member" m1) ∧
  (∀ g, parse_member str = Some g → is_Some (m1 !! GroupMember.host_id g) →
     InitGroupMembers s ∅ = Abort "same host in one cluster" m1).
Proof.
  intros Hf Hs Hpre. rewrite InitGroupMembers_loop, Hs.
  assert (∀ msg, InitGroupMember str m1 = Abort msg m1 →
    for_each InitGroupMember (pre ++ str :: post) ∅ = Abort msg m1) as Hrun.
  { intros msg Hstr. rewrite for_each_app, (bind_Ok _ _ _ _ _ Hpre). simpl.
    by apply bind_Abort. }
  split.
  - intros Hl. by apply Hrun, InitGroupMember_arity.
  - intros g Hg Hm. by eapply Hrun, InitGroupMember_dup.
Qed.

(** The fields of every member in the table are within their C++ types, and
    the table is keyed by the host id. *)
Definition member_ok (k : Z) (g : GroupMember.t) : Prop :=
  k = GroupMember.host_id g ∧ 0 ≤ GroupMember.host_id g ≤ UINT64_MAX ∧
  0 ≤ GroupMember.peer_id g ≤ UINT64_MAX ∧ 0 ≤ GroupMember.port g ≤ UINT16_MAX.

Lemma InitGroupMembers_wp s m :
  wp True (InitGroupMembers s) (λ _ _, True) (λ _, True) m.
Proof.
  unfold InitGroupMembers. wp_steps; [done| |].
  all: apply (wp_for_each _ _ (λ _ _, True)); [done|].
  all: intros str _ m1 _ _; unfold InitGroupMember, elem_at, atoi_m; by wp_steps.
Qed.

(** Whatever the member string and whether or not FATAL aborts, the table
    stays keyed by host id with every field within the range of its C++ type
    ([uint64_t] ids, a [uint16_t] port). *)
Theorem InitGroupMembers_bounds s m :
  map_Forall member_ok m →
  wp True (InitGroupMembers s) (λ _ m', map_Forall member_ok m') (map_Forall member_ok) m.
Proof.
  intros Hm. unfold InitGroupMembers. wp_steps; [done| |].
  all: apply (wp_for_each _ _ (λ _ m, map_Forall member_ok m)); [done|].
  all: intros str _ m1 _ Hm1; unfold InitGroupMember, elem_at, atoi_m; wp_steps;
    try done.
  all: unfold insert_if_absent; simpl; destruct (m1 !! u64 _) as [g'|]; [done|].
  all: apply map_Forall_insert_2; [|done].
  all: split_and!; simpl; auto with jkv; apply u64_bounds || apply u16_bounds.
Qed.
End members_properties.
