(* ===== verification/Raft.v ===== *)
(** * Raft: the interface of the jraft library

    jraft is a git submodule whose sources are not in the repository; the peer
    drives it through [jraft::RawNode].  [RawNode] lists the operations the
    peer calls, each a parameter.  The documented behaviour some theorems rely
    on is the law class [RawNodeLaws], written against the transitions
    [raft_op] that the peer makes. *)
From S2P Require Import Prelude Wire.

Inductive ReadOnlyOption : Type := kReadOnlySafe | kReadOnlyOther (n : Z).

(** jraft::Config, as Peer::Peer fills it.  Its [storage] member is passed
    beside it, as the storage object it points to. *)
Module RaftConfig.
Record t : Type := mk {
  id : Z; election_tick : Z; heartbeat_tick : Z; applied : Z;
  max_size_per_msg : Z; max_committed_size_per_ready : Z;
  max_uncommitted_entries_size : Z; max_inflight_msgs : Z;
  check_quorum : bool; pre_vote : bool; read_only_option : ReadOnlyOption;
  disable_proposal_forwarding : bool }.
End RaftConfig.

Class RawNode : Type := {
  (* jraft::MemoryStorage *)
  mem_storage : Type;
  GetSnapshot : mem_storage → ErrNum * option Snapshot.t;
  (* a write through the SnapshotPtr that GetSnapshot returned *)
  write_snapshot : (Snapshot.t → Snapshot.t) → mem_storage → mem_storage;
  (* jraft::Validate(&c) *)
  Validate : RaftConfig.t → RaftConfig.t;
  (* jraft::RawNode and jraft::Ready *)
  raw_node : Type;
  ready : Type;
  new_RawNode : RaftConfig.t → mem_storage → raw_node;
  IsLeader : raw_node → bool;
  term : raw_node → Z;              (* raft().term() *)
  LastIndex : raw_node → Z;         (* raft().raft_log()->LastIndex() *)
  Tick : raw_node → raw_node;
  Step : Message.t → raw_node → ErrNum * raw_node;
  Propose : string → raw_node → ErrNum * raw_node;
  HasReady : raw_node → bool;
  GetReady : raw_node → ready * raw_node;
  entries : ready → list Entry.t;
  messages : ready → list Message.t;
  committed_entries : ready → list Entry.t;
  (* mutable_raft()->mutable_storage()->Append(entries) *)
  Append : list Entry.t → raw_node → raw_node;
  Advance : ready → raw_node → raw_node
}.

(** The changes of a raw node between two callbacks of a peer: a tick, a
    message, a proposal, or one whole round of Ready (entries appended to the
    storage when there are any). *)
Inductive raft_op `{RawNode} : raw_node → raw_node → Prop :=
  | op_tick r : raft_op r (Tick r)
  | op_step m r : raft_op r (Step m r).2
  | op_propose d r : raft_op r (Propose d r).2
  | op_ready r rd r1 :
      GetReady r = (rd, r1) →
      raft_op r (Advance rd (if bool_decide (entries rd = []) then r1
                             else Append (entries rd) r1)).

(** Lexicographic order on (term, index). *)
Definition lex_lt (a b : Z * Z) : Prop := a.1 < b.1 ∨ (a.1 = b.1 ∧ a.2 < b.2).
Definition lex_le (a b : Z * Z) : Prop := a = b ∨ lex_lt a b.

#[export] Instance lex_lt_dec a b : Decision (lex_lt a b).
Proof. unfold lex_lt. apply _. Defined.

Lemma lex_le_total a b : lex_lt a b ∨ a = b ∨ lex_lt b a.
Proof.
  destruct a as [a1 a2], b as [b1 b2]. unfold lex_lt. simpl.
  destruct (Z.lt_total a1 b1) as [?|[->|?]]; [by left; left| |by right; right; left].
  destruct (Z.lt_total a2 b2) as [?|[->|?]]; auto 10.
Qed.

#[export] Instance lex_lt_strict : StrictOrder lex_lt.
Proof.
  split.
  - intros [a b]. unfold complement, lex_lt. simpl. lia.
  - intros [a1 a2] [b1 b2] [c1 c2]. unfold lex_lt. simpl. lia.
Qed.

#[export] Instance lex_le_preorder : PreOrder lex_le.
Proof.
  split; [by left|]. intros a b c [->|H1] [->|H2]; unfold lex_le; auto.
  right. by etrans.
Qed.

(** The position of an entry in the log of raft. *)
Definition entry_pos (e : Entry.t) : Z * Z := (Entry.term e, Entry.index e).

(** What the raft library promises about those transitions.
    - [raft_le] orders the states of a node in time, and from one leader state
      to a later one the pair (term, last index) does not decrease: terms only
      grow, and in its own term a leader only appends.
    - the members a node knows are its voters; jkv never applies a membership
      change, so they stay what they were when the node was built, and the
      messages of a Ready are addressed to them.
    - log indexes are far from overflowing [uint64_t]. *)
Class RawNodeLaws `{RawNode} : Type := {
  raft_le : raw_node → raw_node → Prop;
  raft_le_preorder :: PreOrder raft_le;
  raft_op_le r r' : raft_op r r' → raft_le r r';
  leader_position r r' :
    raft_le r r' → IsLeader r = true → IsLeader r' = true →
    lex_le (term r, LastIndex r) (term r', LastIndex r');
  LastIndex_bounds r : 0 ≤ LastIndex r < UINT64_MAX;
  members : raw_node → list Z;
  raft_op_members r r' : raft_op r r' → members r' = members r;
  new_members c ms e snap :
    GetSnapshot ms = (e, Some snap) →
    members (new_RawNode c ms) = ConfState.voters (Snapshot.conf_state snap);
  write_GetSnapshot f ms e snap :
    GetSnapshot ms = (e, Some snap) → GetSnapshot (write_snapshot f ms) = (e, Some (f snap));
  ready_to_members r rd r' m :
    GetReady r = (rd, r') → m ∈ messages rd → Message.to m ∈ members r
}.
