(* ===== verification/Config.v ===== *)
(** * Config: src/common/config.h

    The identifiers and the option records of hosts and peers, with their
    default member initializers. *)
From S2P Require Import Prelude RpcClient Raft.

Abbreviation HostId := Z (only parsing).
Abbreviation PeerId := Z (only parsing).

Definition kNoHost : HostId := 0.
Definition kNoPeer : PeerId := 0.

(** [uint64_t]/[size_t] limits *)
Definition SIZE_MAX : Z := UINT64_MAX.

Module PeerHostOption.
Section PeerHostOption.
Context `{RawNode}.

Record t : Type := mk {
  host_id : HostId;
  worker : WorkerPtr;
  db_path : string;
  storage : option mem_storage    (* MemoryStoragePtr *)
}.

Definition default : t := mk kNoHost None "" None.
End PeerHostOption.
End PeerHostOption.

Module PeerOption.
Section PeerOption.
Context `{RawNode}.

Record t : Type := mk {
  host_id : HostId;
  peer_id : PeerId;
  ip : string;
  port : Z;
  worker : WorkerPtr;
  members : string;
  election_tick : Z;
  heartbeat_tick : Z;
  storage : option mem_storage;
  max_size_per_msg : Z;
  max_committed : Z;
  max_uncommitted_entries_size : Z;
  max_inflight_msgs : Z;
  max_inflight_bytes : Z;
  check_quorum : bool;
  pre_vote : bool;
  read_only_option : ReadOnlyOption;
  disable_proposal_forwarding : bool
}.

Definition default : t :=
  mk kNoHost kNoPeer "127.0.0.1" 0 None "" 0 0 None UINT64_MAX UINT64_MAX 0
     SIZE_MAX 0 false false kReadOnlySafe false.
End PeerOption.
End PeerOption.
