(* ===== verification/Proposals.v ===== *)
(** * Proposals: the queue of pending client proposals of a peer

    src/peer/peer.h (Proposal, proposals_) and Peer::GetProposal,
    Peer::CallbackAll of src/peer/peer.cc.  A proposal remembers the (term,
    index) at which its command was proposed, the response to fill and the
    closure that sends it.  When an entry is committed, [GetProposal] rejects
    the proposals its position has overtaken and returns the one at exactly
    that position.  A proposal is shared by a shared_ptr and never written, so
    the queue holds the records themselves; the responses are aliased and live
    in [Mem]. *)
From S2P Require Import Prelude Wire RpcClient Runtime Raft.

Module Proposal.
Record t : Type := mk { index : Z; term : Z; resp : RespPtr; done : DonePtr }.
End Proposal.

Definition position (p : Proposal.t) : Z * Z := (Proposal.term p, Proposal.index p).

(** The part of the peer's state the queue operations touch. *)
Module Queue.
Record t : Type := mk { proposals_ : list Proposal.t; mem : Mem.t }.
Definition set_proposals (q : list Proposal.t) (s : t) : t := mk q (mem s).
Definition set_mem (m : Mem.t) (s : t) : t := mk (proposals_ s) m.
End Queue.

Definition in_mem {A} : M Mem.t A → M Queue.t A := zoom Queue.mem Queue.set_mem.

(** [p->resp->set_rejected(true); p->done->Run();] *)
Definition reject (p : Proposal.t) : M Queue.t unit :=
  in_mem (write_resp (Proposal.resp p) (KvResp.set_rejected true)) ;;
  in_mem (Run (Proposal.done p)).

Definition pop_front : M Queue.t unit :=
  modify (λ s, Queue.set_proposals (tail (Queue.proposals_ s)) s).

(** The [while] loop of Peer::GetProposal. *)
Fixpoint GetProposal_loop (fuel : nat) (index term : Z) : M Queue.t (option Proposal.t) :=
  match fuel with
  | O => λ _, Stuck
  | S f =>
      st ← get_state;
      match Queue.proposals_ st with
      | [] => mret None
      | p :: _ =>
          if term =? Proposal.term p then
            if index =? Proposal.index p then pop_front ;; mret (Some p)
            else if index <? Proposal.index p then mret None
            else
              when (Proposal.index p <? index) (pop_front ;; reject p) ;;
              GetProposal_loop f index term
          else if term <? Proposal.term p then mret None
          else
            when (Proposal.term p <? term) (pop_front ;; reject p) ;;
            GetProposal_loop f index term
      end
  end.

Definition GetProposal (index term : Z) : M Queue.t (option Proposal.t) :=
  st ← get_state; GetProposal_loop (S (length (Queue.proposals_ st))) index term.

Definition CallbackAll : M Queue.t unit :=
  st ← get_state;
  for_each reject (Queue.proposals_ st) ;;
  modify (Queue.set_proposals []).

(** ** Reference definitions *)

(** Effect of rejecting a proposal on the memory. *)
Definition rejected_mem (m : Mem.t) (p : Proposal.t) : Mem.t :=
  let m' := Mem.set_resps (alter (KvResp.set_rejected true) (Proposal.resp p)) m in
  Mem.add_event (EvRun (Proposal.done p) (Mem.resps m')) m'.

(** Split the queue at the first proposal that is not before [pos]. *)
Fixpoint overtaken (pos : Z * Z) (q : list Proposal.t) : list Proposal.t :=
  match q with
  | p :: q' => if decide (lex_lt (position p) pos) then p :: overtaken pos q' else []
  | [] => []
  end.
Fixpoint remaining (pos : Z * Z) (q : list Proposal.t) : list Proposal.t :=
  match q with
  | p :: q' => if decide (lex_lt (position p) pos) then remaining pos q' else q
  | [] => []
  end.

(** The proposal at [pos], if the remaining queue starts with it. *)
Definition matched (pos : Z * Z) (q : list Proposal.t) : option Proposal.t * list Proposal.t :=
  match remaining pos q with
  | p :: q' => if decide (position p = pos) then (Some p, q') else (None, p :: q')
  | [] => (None, [])
  end.

Definition live (m : Mem.t) (q : list Proposal.t) : Prop :=
  Forall (λ p, is_Some (Mem.resps m !! Proposal.resp p)) q.

Definition dones (q : list Proposal.t) : list DonePtr := Proposal.done <$> q.

(** ** Lemmas *)

Lemma overtaken_remaining pos q : overtaken pos q ++ remaining pos q = q.
Proof. induction q as [|p q IH]; simpl; [done|]. case_decide; simpl; congruence. Qed.

Lemma overtaken_lt pos q : Forall (λ p, lex_lt (position p) pos) (overtaken pos q).
Proof. induction q; simpl; [done|]. case_decide; by constructor. Qed.

Lemma remaining_head pos q p q' :
  remaining pos q = p :: q' → ¬ lex_lt (position p) pos.
Proof. induction q; simpl; [done|]. case_decide; [done|]. by intros [= -> ->]. Qed.

Lemma live_rejected_mem m p q : live m q → live (rejected_mem m p) q.
Proof.
  intros Hl. eapply Forall_impl; [exact Hl|]. intros p' [r Hr].
  unfold rejected_mem. simpl. destruct (decide (Proposal.resp p = Proposal.resp p')) as [->|].
  - rewrite lookup_alter_eq, Hr. eauto.
  - rewrite lookup_alter_ne by done. eauto.
Qed.

Lemma live_foldl m ps q : live m q → live (foldl rejected_mem m ps) q.
Proof. revert m. induction ps; simpl; auto using live_rejected_mem. Qed.

Lemma reject_Ok p q m : is_Some (Mem.resps m !! Proposal.resp p) →
  reject p (Queue.mk q m) = Ok () (Queue.mk q (rejected_mem m p)).
Proof.
  intros [r Hr]. unfold reject, in_mem.
  erewrite bind_Ok by (unfold zoom; simpl; by rewrite (write_resp_Ok _ _ r)).
  unfold zoom. simpl. unfold rejected_mem, Mem.set_resps, Mem.add_event. simpl.
  assert (alter (KvResp.set_rejected true) (Proposal.resp p) (Mem.resps m) =
          <[Proposal.resp p := KvResp.set_rejected true r]> (Mem.resps m)) as ->.
  { apply map_eq. intros i. rewrite lookup_alter, lookup_insert. case_decide; [|done].
    subst. by rewrite Hr. }
  done.
Qed.

Lemma rejects_Ok ps q m : live m ps →
  for_each reject ps (Queue.mk q m) = Ok () (Queue.mk q (foldl rejected_mem m ps)).
Proof.
  revert m. induction ps as [|p ps IH]; intros m Hl; [done|].
  apply Forall_cons in Hl as [Hp Hl]. simpl. rewrite (bind_Ok _ _ _ _ _ (reject_Ok _ _ _ Hp)).
  by apply IH, live_rejected_mem.
Qed.

Lemma runs_rejected_mem m p :
  runs (Mem.trace (rejected_mem m p)) = runs (Mem.trace m) ++ [Proposal.done p].
Proof. unfold rejected_mem. simpl. by rewrite runs_add_run. Qed.

Lemma runs_rejects m ps :
  runs (Mem.trace (foldl rejected_mem m ps)) = runs (Mem.trace m) ++ dones ps.
Proof.
  revert m. induction ps as [|p ps IH]; intros m; simpl; [by rewrite app_nil_r|].
  rewrite IH, runs_rejected_mem. by rewrite <- app_assoc.
Qed.

Lemma calls_rejects m ps : Mem.calls (foldl rejected_mem m ps) = Mem.calls m.
Proof. revert m. induction ps as [|p ps IH]; intros m; simpl; [done|]. by rewrite IH. Qed.

(** One iteration of the loop, by the position of the head. *)
Lemma GetProposal_loop_step f i t p q m :
  GetProposal_loop (S f) i t (Queue.mk (p :: q) m) =
    if decide (position p = (t, i)) then Ok (Some p) (Queue.mk q m)
    else if decide (lex_lt (position p) (t, i))
    then (reject p ;; GetProposal_loop f i t) (Queue.mk q m)
    else Ok None (Queue.mk (p :: q) m).
Proof.
  destruct p as [pi pt pr pd]. unfold position, lex_lt. simpl. rewrite bind_eq. simpl.
  destruct (Z.eqb_spec t pt) as [->|Ht].
  - destruct (Z.eqb_spec i pi) as [->|Hi]; [by rewrite decide_True by done|].
    rewrite decide_False by congruence.
    destruct (Z.ltb_spec i pi).
    + by rewrite decide_False by lia.
    + rewrite decide_True by lia. rewrite (proj2 (Z.ltb_lt pi i)) by lia. done.
  - rewrite decide_False by congruence.
    destruct (Z.ltb_spec t pt).
    + by rewrite decide_False by lia.
    + rewrite decide_True by lia. rewrite (proj2 (Z.ltb_lt pt t)) by lia. done.
Qed.

Lemma GetProposal_loop_spec i t q m f :
  (length q < f)%nat → live m q →
  GetProposal_loop f i t (Queue.mk q m) =
    Ok (matched (t, i) q).1
       (Queue.mk (matched (t, i) q).2 (foldl rejected_mem m (overtaken (t, i) q))).
Proof.
  revert m f. induction q as [|p q IH]; intros m [|f] Hf Hl; simpl in Hf; try lia; [done|].
  apply Forall_cons in Hl as [Hp Hl]. rewrite GetProposal_loop_step.
  unfold matched. simpl. destruct (decide (lex_lt (position p) (t, i))) as [Hlt|Hge].
  - rewrite decide_False by (intros E; rewrite E in Hlt; exact (irreflexivity lex_lt _ Hlt)).
    rewrite (bind_Ok _ _ _ _ _ (reject_Ok _ _ _ Hp)). rewrite IH; [done|lia|].
    by apply live_rejected_mem.
  - by case_decide.
Qed.

Lemma matched_queue pos q p q' :
  matched pos q = (Some p, q') → remaining pos q = p :: q' ∧ position p = pos.
Proof. unfold matched. destruct (remaining pos q); [done|]. case_decide; naive_solver. Qed.

Lemma matched_none_queue pos q q' : matched pos q = (None, q') → remaining pos q = q'.
Proof. unfold matched. destruct (remaining pos q); [naive_solver|]. case_decide; naive_solver. Qed.

(** The proposals of the queue are the rejected ones, the returned one and the
    ones that stay. *)
Lemma matched_partition pos q :
  q = overtaken pos q ++ option_list (matched pos q).1 ++ (matched pos q).2.
Proof.
  rewrite <- (overtaken_remaining pos q) at 1. f_equal.
  destruct (matched pos q) as [[p|] q'] eqn:E; simpl.
  - by apply matched_queue in E as [-> _].
  - by apply matched_none_queue in E.
Qed.

(** The proposal that is taken, behind some that have been overtaken. *)
Lemma behind_overtaken pos qs p q :
  Forall (λ p', lex_lt (position p') pos) qs → position p = pos →
  overtaken pos (qs ++ p :: q) = qs ∧ matched pos (qs ++ p :: q) = (Some p, q).
Proof.
  intros Hlt Hp. unfold matched. induction Hlt as [|p' qs Hp' _ [IHo IHm]]; simpl.
  - rewrite !decide_False by (rewrite Hp; apply (irreflexivity lex_lt)).
    by rewrite decide_True.
  - rewrite !decide_True by done. split; [by rewrite IHo|done].
Qed.

Lemma resps_rejects m ps a :
  a ∉ (Proposal.resp <$> ps) → Mem.resps (foldl rejected_mem m ps) !! a = Mem.resps m !! a.
Proof.
  revert m. induction ps as [|p ps IH]; intros m; simpl; [done|].
  intros [Hne Hin]%not_elem_of_cons. rewrite IH by done. simpl. by rewrite lookup_alter_ne.
Qed.

Lemma live_app m q1 q2 : live m (q1 ++ q2) ↔ live m q1 ∧ live m q2.
Proof. apply Forall_app. Qed.

(** ** Properties *)

Section queue_laws.
Implicit Types (q : list Proposal.t) (m : Mem.t).

Lemma GetProposal_eq i t q m : live m q →
  GetProposal i t (Queue.mk q m) =
    Ok (matched (t, i) q).1
       (Queue.mk (matched (t, i) q).2 (foldl rejected_mem m (overtaken (t, i) q))).
Proof.
  intros Hl. unfold GetProposal. erewrite bind_Ok by reflexivity.
  apply GetProposal_loop_spec; [simpl; lia|done].
Qed.

Lemma CallbackAll_eq q m : live m q →
  CallbackAll (Queue.mk q m) = Ok () (Queue.mk [] (foldl rejected_mem m q)).
Proof.
  intros Hl. unfold CallbackAll. erewrite bind_Ok by reflexivity. simpl.
  by rewrite (bind_Ok _ _ _ _ _ (rejects_Ok q q m Hl)).
Qed.

(** A proposal that stays or is returned is still live after the rejections. *)
Lemma live_matched pos q m m' : live m q →
  m' = foldl rejected_mem m (overtaken pos q) →
  live m' (option_list (matched pos q).1 ++ (matched pos q).2).
Proof.
  intros Hl ->. apply live_foldl. rewrite (matched_partition pos q) in Hl.
  by apply live_app in Hl as [_ Hl].
Qed.

(** C15 The [while] loop of [GetProposal] terminates and computes its
    reference, whatever the order of the queue: it rejects, from the front,
    the proposals whose (term, index) is before that of the committed entry
    (response marked rejected, closure run, in queue order), stops at the
    first one that is not, and pops and returns that one exactly when its
    position is the entry's. *)
Theorem GetProposal_correct i t q m : live m q →
  GetProposal i t (Queue.mk q m) =
    Ok (matched (t, i) q).1
       (Queue.mk (matched (t, i) q).2 (foldl rejected_mem m (overtaken (t, i) q))).
Proof. apply GetProposal_eq. Qed.

Definition at_pos (pos : Z * Z) (p : Proposal.t) : Prop := position p = pos.
Definition before (pos : Z * Z) (p : Proposal.t) : Prop := lex_lt (position p) pos.
Definition after (pos : Z * Z) (p : Proposal.t) : Prop := lex_lt pos (position p).
#[export] Instance at_pos_dec pos p : Decision (at_pos pos p).
Proof. unfold at_pos. apply _. Defined.
#[export] Instance before_dec pos p : Decision (before pos p).
Proof. unfold before. apply _. Defined.
#[export] Instance after_dec pos p : Decision (after pos p).
Proof. unfold after. apply _. Defined.

(** The queue in the order of the positions, as the peer builds it. *)
Definition queue_sorted q : Prop :=
  StronglySorted (λ p p', lex_le (position p) (position p')) q.

Lemma overtaken_filter pos q : queue_sorted q → overtaken pos q = filter (before pos) q.
Proof.
  intros Hs. induction Hs as [|p q Hs IH Hf]; [done|]. simpl. rewrite filter_cons.
  destruct (decide (lex_lt (position p) pos)) as [Hp|Hp];
    [by rewrite decide_True, IH by done|].
  rewrite decide_False by done. symmetry.
  apply filter_none, Forall_forall. intros p' Hin Hb. apply Hp.
  apply (proj1 (Forall_forall _ _) Hf) in Hin as [E|?]; [by rewrite E|by etrans].
Qed.

Lemma remaining_filter pos q : queue_sorted q →
  remaining pos q = filter (at_pos pos) q ++ filter (after pos) q.
Proof.
  intros Hs.
  assert (∀ p p', lex_le (position p) (position p') → before pos p' → before pos p) as Hd1.
  { unfold before. intros p p' [->|?]; [done|]. intros. by etrans. }
  assert (∀ p p', lex_le (position p) (position p') → ¬ after pos p' → ¬ after pos p) as Hd2.
  { unfold after. intros p p' [->|?]; [done|]. intros Hn Ha. apply Hn. by etrans. }
  pose proof (sorted_filter_split _ (before pos) q Hs Hd1) as E1.
  pose proof (overtaken_remaining pos q) as E2. rewrite overtaken_filter in E2 by done.
  pose proof (eq_trans E2 E1) as E3. apply app_inv_head in E3. rewrite E3.
  rewrite (sorted_filter_split (λ p p', lex_le (position p) (position p'))
             (λ p, ¬ after pos p) (filter _ q)); [| |exact Hd2];
    [|by apply StronglySorted_filter].
  rewrite !list_filter_filter. f_equal; apply list_filter_iff; intros p.
  - unfold after, before, at_pos. split.
    + intros [Ha Hb]. by destruct (lex_le_total (position p) pos) as [?|[?|?]].
    + intros ->. split; apply (irreflexivity lex_lt).
  - unfold after, before. split; [intros [Ha _]; by apply dec_stable|].
    intros Ha. split; [by intros Hn|]. intros Hb.
    apply (irreflexivity lex_lt pos). by etrans.
Qed.

(** C16 On a queue ordered by position, [GetProposal] for a committed entry
    sorts the whole queue out by the entry's (term, index): every proposal
    before it is rejected, the first proposal at it is returned, and what
    stays in the queue are the other proposals at it and all those after. *)
Theorem GetProposal_sorted i t q m : live m q → queue_sorted q →
  GetProposal i t (Queue.mk q m) =
    Ok (head (filter (at_pos (t, i)) q))
       (Queue.mk (tail (filter (at_pos (t, i)) q) ++ filter (after (t, i)) q)
                 (foldl rejected_mem m (filter (before (t, i)) q))).
Proof.
  intros Hl Hs. rewrite GetProposal_eq by done. rewrite <- overtaken_filter by done.
  unfold matched. rewrite remaining_filter by done.
  destruct (filter (at_pos (t, i)) q) as [|p l] eqn:Ea; simpl.
  - destruct (filter (after (t, i)) q) as [|p l] eqn:Ef; [done|].
    rewrite decide_False; [done|]. intros E.
    assert (p ∈ filter (after (t, i)) q) as Hp by (rewrite Ef; by left).
    apply list_elem_of_filter in Hp as [Hp _]. unfold after in Hp. rewrite E in Hp.
    by apply (irreflexivity lex_lt) in Hp.
  - rewrite decide_True; [done|].
    assert (p ∈ filter (at_pos (t, i)) q) as Hp by (rewrite Ea; by left).
    by apply list_elem_of_filter in Hp as [? _].
Qed.

(** No closure is lost or duplicated by [GetProposal]: the closures already
    run, plus those of the queue, are afterwards run, in the queue, or the one
    of the returned proposal. *)
Theorem GetProposal_accounting i t q m r s' : live m q →
  GetProposal i t (Queue.mk q m) = Ok r s' →
  runs (Mem.trace (Queue.mem s')) ++ dones (option_list r) ++ dones (Queue.proposals_ s')
    = runs (Mem.trace m) ++ dones q.
Proof.
  intros Hl. rewrite GetProposal_eq by done. intros [= <- <-]. simpl.
  rewrite runs_rejects, <- app_assoc. f_equal. unfold dones. rewrite <- !fmap_app.
  f_equal. symmetry. apply matched_partition.
Qed.

(** [CallbackAll] rejects every pending proposal, in queue order, and
    empties the queue. *)
Theorem CallbackAll_correct q m : live m q →
  CallbackAll (Queue.mk q m) = Ok () (Queue.mk [] (foldl rejected_mem m q)) ∧
  runs (Mem.trace (foldl rejected_mem m q)) = runs (Mem.trace m) ++ dones q ∧
  ∀ p, p ∈ q → ∃ r, Mem.resps (foldl rejected_mem m q) !! Proposal.resp p = Some r ∧
                    KvResp.rejected r = true.
Proof.
  intros Hl. split_and!; [by apply CallbackAll_eq|apply runs_rejects|].
  revert m Hl. induction q as [|p q IH]; intros m Hl p' Hin; [set_solver|].
  apply Forall_cons in Hl as [[r Hr] Hl]. simpl.
  apply elem_of_cons in Hin as [->|Hin].
  - assert (∃ r', Mem.resps (rejected_mem m p) !! Proposal.resp p = Some r' ∧
                  KvResp.rejected r' = true) as Hrej.
    { unfold rejected_mem. simpl. rewrite lookup_alter_eq, Hr. simpl. eauto. }
    clear IH Hl Hr. revert Hrej. generalize (rejected_mem m p).
    induction q as [|p' q IH]; intros m' (r' & Hr' & Hrej); simpl; [eauto|].
    apply IH. unfold rejected_mem. simpl.
    destruct (decide (Proposal.resp p' = Proposal.resp p)) as [->|Hne].
    + rewrite lookup_alter_eq, Hr'. simpl. eauto.
    + rewrite lookup_alter_ne by done. eauto.
  - apply IH; [|done]. by apply live_rejected_mem.
Qed.
End queue_laws.
