(* ===== verification/HostClients.v ===== *)
(** * HostClients: PeerHost::GetClient (src/peer/peer_host.cc)

    The cache of RPC clients of a host, one per remote host.  It is the part of
    [PeerHost] that the peers call back into when they send messages. *)
From S2P Require Import Prelude RpcClient Config.

Module ClientMgr.
Record t : Type := mk {
  rpc_cli_mgr_ : gmap Z RpcClient.t;
  connects : list RpcClient.t   (* the Connect calls made so far, oldest first *)
}.
Definition empty : t := mk ∅ [].
Definition set_client (h : HostId) (c : RpcClient.t) (s : t) : t :=
  mk (<[h := c]> (rpc_cli_mgr_ s)) (connects s).
Definition add_connect (c : RpcClient.t) (s : t) : t :=
  mk (rpc_cli_mgr_ s) (connects s ++ [c]).
End ClientMgr.

Section GetClient.
Context `{FatalPolicy} `{RpcNet}.

Definition make_client (w : WorkerPtr) (addr : SockAddress.t) (timeout_ms : Z)
    (name : string) : RpcClient.t :=
  RpcClient.set_rpc_depth 10000
    (RpcClient.set_timeout_ms timeout_ms (RpcClient.ctor kTcp w addr name)).

(** int ret = client->Connect(); *)
Definition connect (c : RpcClient.t) : M ClientMgr.t Z := λ s,
  Ok (Connect (ClientMgr.connects s) c) (ClientMgr.add_connect c s).

Definition GetClient (host_id : HostId) (w : WorkerPtr) (addr : SockAddress.t)
    (timeout_ms : Z) (name : string) (create_if_missing : bool) :
    M ClientMgr.t (option RpcClient.t) :=
  st ← get_state;
  match ClientMgr.rpc_cli_mgr_ st !! host_id with
  | None =>
      if negb create_if_missing then mret None
      else
        let client := make_client w addr timeout_ms name in
        ret ← connect client;
        when (negb (ret =? 0)) (fatal "connect failed") ;;
        modify (ClientMgr.set_client host_id client) ;;
        mret (Some client)
  | Some client => mret (Some client)
  end.

(** ** Lemmas *)

Definition mgr_le (s s' : ClientMgr.t) : Prop :=
  ClientMgr.rpc_cli_mgr_ s ⊆ ClientMgr.rpc_cli_mgr_ s'.
#[export] Instance mgr_le_preorder : PreOrder mgr_le.
Proof. unfold mgr_le. split; [by intros ?|intros ???; apply transitivity]. Qed.

(** Each Connect call was for a client now in the table, except possibly the
    last one before an abort. *)
Definition connects_counted (s : ClientMgr.t) : Prop :=
  length (ClientMgr.connects s) = size (ClientMgr.rpc_cli_mgr_ s).

Lemma GetClient_wp h w addr tm nm create s :
  connects_counted s →
  wp False (GetClient h w addr tm nm create)
    (λ c s', connects_counted s' ∧ mgr_le s s' ∧
             c = ClientMgr.rpc_cli_mgr_ s' !! h ∧ (create = true → is_Some c))
    (λ s', ClientMgr.rpc_cli_mgr_ s' = ClientMgr.rpc_cli_mgr_ s) s.
Proof.
  intros Hc. unfold GetClient. do 2 wp_step.
  destruct (ClientMgr.rpc_cli_mgr_ s !! h) as [c|] eqn:E.
  { wp_step. split_and!; [done|reflexivity|done|by eauto]. }
  destruct create; simpl; [|wp_step; by split_and!].
  wp_step. unfold wp at 1, connect. simpl.
  wp_steps; [done|..].
  all: split_and!; [|by apply insert_subseteq|by rewrite lookup_insert_eq|by eauto].
  all: unfold connects_counted in *; simpl.
  all: rewrite length_app, map_size_insert_None by done; simpl; lia.
Qed.

(** A client is created once per host: after [GetClient] returned a client
    for a host, every later call for that host (whatever worker, address,
    time-out, name or creation flag) returns the same client and changes
    nothing; in particular it does not connect again. *)
Theorem GetClient_cached h w addr tm nm create s c s' w' addr' tm' nm' create' :
  GetClient h w addr tm nm create s = Ok (Some c) s' →
  GetClient h w' addr' tm' nm' create' s' = Ok (Some c) s'.
Proof.
  intros E. assert (ClientMgr.rpc_cli_mgr_ s' !! h = Some c) as Hc.
  { revert E. unfold GetClient. erewrite bind_Ok by reflexivity.
    destruct (ClientMgr.rpc_cli_mgr_ s !! h) as [c0|] eqn:E0; [by intros [= <- <-]|].
    destruct create; simpl; [|done]. erewrite bind_Ok by reflexivity. rewrite bind_eq.
    destruct (when _ _ _) as [[] s1| | |]; [|done..]. erewrite bind_Ok by reflexivity.
    intros [= <- <-]. simpl. apply lookup_insert_eq. }
  unfold GetClient. erewrite bind_Ok by reflexivity. by rewrite Hc.
Qed.

(** [GetClient] on any manager whose Connect calls are all accounted for:
    it never has undefined behaviour; a normal return yields the client the
    table holds for the host (always one when creation is allowed), keeps
    every client already there, and leaves exactly one Connect per client;
    when Connect fails and FATAL aborts, the table is as before. *)
Theorem GetClient_correct h w addr tm nm create s :
  connects_counted s →
  wp False (GetClient h w addr tm nm create)
    (λ c s', connects_counted s' ∧ mgr_le s s' ∧
             c = ClientMgr.rpc_cli_mgr_ s' !! h ∧ (create = true → is_Some c))
    (λ s', ClientMgr.rpc_cli_mgr_ s' = ClientMgr.rpc_cli_mgr_ s) s.
Proof. apply GetClient_wp. Qed.
End GetClient.
