(* ===== verification/Peer.v ===== *)
(** * Peer: a member of a raft group (src/peer/peer.{h,cc})

    The peer drives a raft node: it proposes client commands, sends the
    messages and applies the committed entries the node hands out, and answers
    the clients whose proposals were committed.  Its code runs in one event
    loop thread.  [Ctx] is the state one of its methods can reach: the peer
    object, the client cache of its host and the shared memory.  The database
    is used through the interface [KvStore]. *)
From S2P Require Import Prelude Wire RpcClient Runtime CString Storage Members Raft Config.
From S2P Require Import Proposals HostClients.

Module Peer.
Section Peer.
Context `{FatalPolicy} `{KvCodec} `{BoostSplit} `{RpcNet} `{RawNode}.
Context {T : Type} `{KvStore T}.

(** The object.  [host_] is the enclosing host; [mem_storage_] is the storage
    inside [raw_node_]. *)
Record t : Type := mk {
  self_ : GroupMember.t;
  worker_ : WorkerPtr;
  peers_ : peers_map;
  raw_node_ : raw_node;
  kv_db_ : T;
  proposals_ : list Proposal.t
}.

Definition set_raw_node (r : raw_node) (p : t) : t :=
  mk (self_ p) (worker_ p) (peers_ p) r (kv_db_ p) (proposals_ p).
Definition set_kv_db (d : T) (p : t) : t :=
  mk (self_ p) (worker_ p) (peers_ p) (raw_node_ p) d (proposals_ p).
Definition set_proposals (q : list Proposal.t) (p : t) : t :=
  mk (self_ p) (worker_ p) (peers_ p) (raw_node_ p) (kv_db_ p) q.

Definition IsLeader (p : t) : bool := Raft.IsLeader (raw_node_ p).
Definition Term (p : t) : Z := Raft.term (raw_node_ p).
Definition NextProposalIndex (p : t) : Z := u64 (LastIndex (raw_node_ p) + 1).

Record Ctx : Type := mk_ctx { peer : t; clients : ClientMgr.t; mem : Mem.t }.

(** ** Access to the parts of the context *)

Definition in_clients {A} : M ClientMgr.t A → M Ctx A :=
  zoom clients (λ c x, mk_ctx (peer x) c (mem x)).
Definition in_mem {A} : M Mem.t A → M Ctx A :=
  zoom mem (λ m x, mk_ctx (peer x) (clients x) m).
Definition in_db {A} : M T A → M Ctx A :=
  zoom (λ x, kv_db_ (peer x)) (λ d x, mk_ctx (set_kv_db d (peer x)) (clients x) (mem x)).
Definition in_queue {A} : M Queue.t A → M Ctx A :=
  zoom (λ x, Queue.mk (proposals_ (peer x)) (mem x))
       (λ s x, mk_ctx (set_proposals (Queue.proposals_ s) (peer x)) (clients x)
                      (Queue.mem s)).
Definition get_peer : M Ctx t := λ x, Ok (peer x) x.
Definition set_raft (r : raw_node) : M Ctx unit :=
  modify (λ x, mk_ctx (set_raw_node r (peer x)) (clients x) (mem x)).

(** ** Proposing *)

(* raw_node_->Propose(context); the returned ErrNum is not used *)
Definition raft_Propose (context : string) : M Ctx unit :=
  p ← get_peer;
  set_raft (Propose context (raw_node_ p)).2.

Definition ProposeKvOp (req : KvReq.t) (resp : RespPtr) (done : DonePtr) : M Ctx unit :=
  let '(ok, context) := SerializeToString req in
  when (negb ok) (fatal "failed to serialize to str") ;;
  self ← get_peer;
  let ni := NextProposalIndex self in
  let p := Proposal.mk ni (Term self) resp done in
  when (IsLeader self)
    (modify (λ x, mk_ctx (set_proposals (proposals_ (peer x) ++ [p]) (peer x))
                         (clients x) (mem x))) ;;
  raft_Propose context.

(** jraft::ErrNum Peer::Step(const jraft::Message& msg) *)
Definition Step (msg : Message.t) : M Ctx ErrNum :=
  p ← get_peer;
  let '(err, r) := Raft.Step msg (raw_node_ p) in
  set_raft r ;; mret err.

(** ** Sending *)

Definition SendMsg2Peer (msg : Message.t) : M Ctx unit :=
  self ← get_peer;
  match peers_ self !! Message.to msg with
  | None => ub "peers_.end()->second"
  | Some to_member =>
      let raft_msg := RaftMsgReq.mk
        (PeerMeta.mk (GroupMember.host_id (self_ self)) (GroupMember.peer_id (self_ self)))
        (PeerMeta.mk (GroupMember.host_id to_member) (GroupMember.peer_id to_member))
        msg in
      let sock_addr := SockAddress.mk (GroupMember.ip to_member) (GroupMember.port to_member) in
      client ← in_clients (GetClient (Message.to msg) (worker_ self) sock_addr 300 "" true);
      match client with
      | None => ub "client->conn() on nullptr"
      | Some client =>
          cntl ← in_mem new_call;
          in_mem (modify (Mem.add_event (EvRaftRpc client raft_msg cntl)))
      end
  end.

(** The callback of the RPC: its two unique_ptr delete the call objects. *)
Definition HandleSendMsg2Peer (cntl : Z) : M Ctx unit := in_mem (delete_call cntl).

Definition SendMsgs (msgs : list Message.t) : M Ctx unit := for_each SendMsg2Peer msgs.

(** ** Applying *)

Definition run_done (p : option Proposal.t) : M Ctx unit :=
  match p with
  | Some p => in_mem (Run (Proposal.done p))
  | None => mret ()
  end.

Definition ProcessNormal (entry : Entry.t) (p : option Proposal.t) : M Ctx unit :=
  let '(ok, req) := ParseFromString (Entry.data entry) in
  when (negb ok) (fatal "failed to parse from str") ;;
  match KvReq.cmd_type req with
  | kInvalid => mret ()
  | kGet =>
      val ← in_db (store_get (GetReq.key (KvReq.get_req req)));
      match p with
      | Some p =>
          in_mem (write_resp (Proposal.resp p)
                    (KvResp.mutable_get_resp (GetResp.set_value val))) ;;
          in_mem (Run (Proposal.done p))
      | None => mret ()
      end
  | kPut =>
      in_db (store_put (PutReq.key (KvReq.put_req req)) (PutReq.value (KvReq.put_req req))) ;;
      run_done p
  | kDel =>
      in_db (store_del (DelReq.key (KvReq.del_req req))) ;;
      run_done p
  | kCmdUnknown _ => fatal "should not come here."
  end.

(* TODO: finish it *)
Definition ProcessConfChange (entry : Entry.t) (p : option Proposal.t) : M Ctx unit :=
  mret ().

Definition ProcessEntry (entry : Entry.t) : M Ctx unit :=
  self ← get_peer;
  p ← (if IsLeader self
       then in_queue (GetProposal (Entry.index entry) (Entry.term entry))
       else in_queue CallbackAll ;; mret None);
  if decide (Entry.type entry = kEntryNormal)
  then ProcessNormal entry p
  else ProcessConfChange entry p.

Definition ProcessEntries (ents : list Entry.t) : M Ctx unit := for_each ProcessEntry ents.

Definition HandleRaftReady : M Ctx unit :=
  self ← get_peer;
  if negb (HasReady (raw_node_ self)) then mret ()
  else
    let '(rd, r1) := GetReady (raw_node_ self) in
    set_raft r1 ;;
    when (negb (bool_decide (entries rd = [])))
      (self ← get_peer; set_raft (Append (entries rd) (raw_node_ self))) ;;
    when (negb (bool_decide (messages rd = []))) (SendMsgs (messages rd)) ;;
    when (negb (bool_decide (committed_entries rd = [])))
      (ProcessEntries (committed_entries rd)) ;;
    self ← get_peer; set_raft (Advance rd (raw_node_ self)).

Definition Tick : M Ctx unit :=
  self ← get_peer;
  set_raft (Raft.Tick (raw_node_ self)) ;;
  HandleRaftReady.
End Peer.
#[global] Arguments t {_} T.
#[global] Arguments Ctx {_} T.
End Peer.

Lemma wp_get_peer `{RawNode} {T} U (Q : Peer.t T → Peer.Ctx T → Prop) R x :
  Q (Peer.peer x) x → wp U Peer.get_peer Q R x.
Proof. done. Qed.

(** One [wp] step of a method of the peer. *)
Ltac peer_step :=
  lazymatch goal with
  | |- wp _ Peer.get_peer _ _ _ => apply wp_get_peer
  | |- wp _ (Peer.in_clients _) _ _ _ => apply wp_zoom
  | |- wp _ (Peer.in_mem _) _ _ _ => apply wp_zoom
  | |- wp _ (Peer.in_db _) _ _ _ => apply wp_zoom
  | |- wp _ (Peer.in_queue _) _ _ _ => apply wp_zoom
  | |- wp _ (Peer.set_raft _) _ _ _ => apply wp_modify
  | |- _ => wp_step
  end; simpl.

(** ** Construction *)

Module PeerInit.
Section PeerInit.
Context `{FatalPolicy} `{BoostSplit} `{RawNode} `{LevelDB}.

(** The order in which [for (const auto& p : peers_)] visits the hosts: some
    enumeration of the keys of the unordered_map. *)
Class HashOrder : Type := host_order : peers_map → list Z.
Class HashOrderLaws `{HashOrder} : Prop := host_order_perm m : host_order m ≡ₚ (map_to_list m).*1.

Context `{HashOrder}.

(** The configuration the constructor passes to raft. *)
Definition config (host_id : HostId) : RaftConfig.t := {|
  RaftConfig.id := host_id;
  RaftConfig.election_tick := 8;
  RaftConfig.heartbeat_tick := 1;
  RaftConfig.applied := 0;
  RaftConfig.max_size_per_msg := 1024 * 1024;
  RaftConfig.max_committed_size_per_ready := 0;
  RaftConfig.max_uncommitted_entries_size := 2 ^ 30;
  RaftConfig.max_inflight_msgs := 256;
  RaftConfig.check_quorum := true;
  RaftConfig.pre_vote := true;
  RaftConfig.read_only_option := kReadOnlySafe;
  RaftConfig.disable_proposal_forwarding := false
|}.

(** [for (const auto& p : peers_) conf_state->add_voters(p.first);] *)
Definition add_all_voters (hosts : list Z) (s : Snapshot.t) : Snapshot.t :=
  foldl (λ s h, Snapshot.mutable_conf_state (ConfState.add_voters h) s) s hosts.

Definition db_file (db_path : string) (peer_id : PeerId) : string :=
  db_path +:+ "/" +:+ "peer_" +:+ to_string peer_id.

(** Peer::Peer; [db_path] is [host_->db_path()]. *)
Definition ctor (opt : PeerOption.t) (db_path : string) :
    M filesystem (Peer.t DiskStorage.t) :=
  let self := GroupMember.mk (PeerOption.host_id opt) (PeerOption.peer_id opt)
                             (PeerOption.ip opt) (PeerOption.port opt) in
  peers ← with_local ∅ (InitGroupMembers (PeerOption.members opt));
  let c := config (GroupMember.host_id self) in
  when (bool_decide (PeerOption.storage opt = None))
    (fatal "storage should constructed at start") ;;
  let c := Validate c in
  match PeerOption.storage opt with
  | None => ub "mem_storage_->GetSnapshot on nullptr"
  | Some storage =>
      let '(err, snap) := GetSnapshot storage in
      when (negb (bool_decide (err = kOk))) (fatal "can't get snapshot from storage") ;;
      match snap with
      | None => ub "snap->mutable_metadata on nullptr"
      | Some _ =>
          let storage := write_snapshot (add_all_voters (host_order peers)) storage in
          let raw := new_RawNode c storage in
          db ← DiskStorage.ctor (db_file db_path (PeerOption.peer_id opt));
          mret (Peer.mk self (PeerOption.worker opt) peers raw db [])
      end
  end.

(** Peer::~Peer deletes the raft node and the database. *)
Definition dtor (p : Peer.t DiskStorage.t) : raw_node * list ldb :=
  (Peer.raw_node_ p, DiskStorage.dtor (Peer.kv_db_ p)).
End PeerInit.
End PeerInit.
