(* ===== verification/KvSpec.v ===== *)
(** * KvSpec: the abstract key-value state machine

    What the replicated log means: a finite map from keys to values, changed
    by the committed commands in log order.  The peers' databases refine it
    (PeerApply). *)
From S2P Require Import Prelude Wire.

Abbreviation kv_map := (gmap string string).

Definition kv_apply (m : kv_map) (r : KvReq.t) : kv_map :=
  match KvReq.cmd_type r with
  | kPut => <[PutReq.key (KvReq.put_req r) := PutReq.value (KvReq.put_req r)]> m
  | kDel => delete (DelReq.key (KvReq.del_req r)) m
  | _ => m
  end.

(** The commands a client is answered for. *)
Definition answerable (r : KvReq.t) : Prop :=
  KvReq.cmd_type r = kGet ∨ KvReq.cmd_type r = kPut ∨ KvReq.cmd_type r = kDel.
#[export] Instance answerable_dec r : Decision (answerable r).
Proof. unfold answerable. apply _. Defined.

(** A Get of an absent key has no answer. *)
Definition executable (m : kv_map) (r : KvReq.t) : Prop :=
  match KvReq.cmd_type r with
  | kGet => is_Some (m !! GetReq.key (KvReq.get_req r))
  | kCmdUnknown _ => False
  | _ => True
  end.
#[export] Instance executable_dec m r : Decision (executable m r).
Proof. unfold executable. destruct (KvReq.cmd_type r); apply _. Defined.

(** The response of an executed command, from the state it is applied to. *)
Definition kv_answer (m : kv_map) (r : KvReq.t) (resp : KvResp.t) : KvResp.t :=
  match KvReq.cmd_type r with
  | kGet =>
      KvResp.mutable_get_resp
        (GetResp.set_value (default "" (m !! GetReq.key (KvReq.get_req r)))) resp
  | _ => resp
  end.

Section log.
Context `{KvCodec}.

Definition decode (e : Entry.t) : KvReq.t := (ParseFromString (Entry.data e)).2.

(** Entries other than normal ones carry no command. *)
Definition entry_apply (m : kv_map) (e : Entry.t) : kv_map :=
  if decide (Entry.type e = kEntryNormal) then kv_apply m (decode e) else m.

Definition log_apply (m : kv_map) (es : list Entry.t) : kv_map := foldl entry_apply m es.

(** The entry can be applied to [m]: it decodes, and its command executes. *)
Definition entry_executable (m : kv_map) (e : Entry.t) : Prop :=
  Entry.type e = kEntryNormal →
  (ParseFromString (Entry.data e)).1 = true ∧ executable m (decode e).

Fixpoint log_executable (m : kv_map) (es : list Entry.t) : Prop :=
  match es with
  | [] => True
  | e :: es' => entry_executable m e ∧ log_executable (entry_apply m e) es'
  end.

Lemma log_apply_app m es1 es2 : log_apply m (es1 ++ es2) = log_apply (log_apply m es1) es2.
Proof. apply foldl_app. Qed.
End log.
