(* ===== verification/PeerSafety.v ===== *)
(** * PeerSafety: what every peer operation preserves

    [ctx_ok] is the invariant of the state a peer works on: its database is
    open, the responses of its pending proposals are live, every RPC client
    was connected once.  [frame] relates the states before and after
    an operation.  [cx_dones] collects the closures the peer is responsible
    for: those it ran and those of its queue; no operation adds one to them
    except ProposeKvOp, which adds its argument. *)
From S2P Require Import Prelude Wire RpcClient Runtime Storage Members Raft Config Proposals.
From S2P Require Import HostClients Peer KvSpec.

(** The RPC calls issued in a trace. *)
Definition issued_of (e : Event) : list Z :=
  match e with EvRun _ _ => [] | EvRaftRpc _ _ c => [c] end.
Definition issued (tr : list Event) : gset Z := list_to_set (tr ≫= issued_of).

(** With [C] the calls whose callback has run: the call objects that are live
    are exactly those of the calls issued and not completed. *)
Definition calls_ok (C : gset Z) (m : Mem.t) : Prop :=
  C ⊆ issued (Mem.trace m) ∧ Mem.calls m = issued (Mem.trace m) ∖ C ∧
  ∀ c, c ∈ issued (Mem.trace m) → c < Mem.next_call m.

Lemma issued_app t1 t2 : issued (t1 ++ t2) = issued t1 ∪ issued t2.
Proof. unfold issued. rewrite bind_app. apply list_to_set_app_L. Qed.

Lemma issued_run d h : issued [EvRun d h] = ∅.
Proof. done. Qed.

Lemma issued_rpc c r k : issued [EvRaftRpc c r k] = {[k]}.
Proof. unfold issued. simpl. set_solver. Qed.

(** What the operations may do to the shared memory. *)
Record mem_frame (m m' : Mem.t) : Prop := {
  mf_dom : dom (Mem.resps m') = dom (Mem.resps m);
  mf_trace : Mem.trace m `prefix_of` Mem.trace m';
  mf_calls C : calls_ok C m → calls_ok C m'
}.

#[export] Instance mem_frame_preorder : PreOrder mem_frame.
Proof.
  split.
  - intros m. by split.
  - intros m1 m2 m3 [D1 T1 C1] [D2 T2 C2]. split; [congruence|by etrans|auto].
Qed.

Lemma mem_frame_run d m : mem_frame m (Mem.add_event (EvRun d (Mem.resps m)) m).
Proof.
  split; simpl; [done|by apply prefix_app_r|].
  intros C (H1 & H2 & H3). unfold calls_ok. simpl.
  rewrite issued_app, issued_run, (right_id_L ∅ (∪)). done.
Qed.

Lemma mem_frame_write p r m :
  is_Some (Mem.resps m !! p) → mem_frame m (Mem.set_resps <[p := r]> m).
Proof.
  intros Hp. split; simpl; [|done|done].
  rewrite dom_insert_L. apply elem_of_dom in Hp. set_solver.
Qed.

Lemma mem_frame_reject p m : is_Some (Mem.resps m !! Proposal.resp p) →
  mem_frame m (rejected_mem m p).
Proof.
  intros Hp. unfold rejected_mem.
  etrans; [|apply mem_frame_run]. split; simpl; [|done|done].
  apply dom_alter_L.
Qed.

Lemma mem_frame_rejects ps m : live m ps → mem_frame m (foldl rejected_mem m ps).
Proof.
  revert m. induction ps as [|p ps IH]; intros m Hl; simpl; [reflexivity|].
  apply Forall_cons in Hl as [Hp Hl]. etrans; [by apply mem_frame_reject|].
  by apply IH, live_rejected_mem.
Qed.

Lemma live_frame m m' q : mem_frame m m' → live m q → live m' q.
Proof.
  intros Hf Hl. eapply Forall_impl; [exact Hl|]. intros p Hp. simpl.
  apply elem_of_dom. rewrite (mf_dom _ _ Hf). by apply elem_of_dom.
Qed.

#[export] Hint Resolve live_frame : jkv.

Section safety.
Context `{FatalPolicy} `{KvCodec} `{BoostSplit} `{RpcNet} `{RawNodeLaws}.
Context {T : Type} `{KvStoreLaws T}.
Implicit Types (x : Peer.Ctx T) (q : list Proposal.t).

Definition cx_props x : list Proposal.t := Peer.proposals_ (Peer.peer x).
Definition cx_raft x : raw_node := Peer.raw_node_ (Peer.peer x).
Definition cx_db x : T := Peer.kv_db_ (Peer.peer x).
Definition cx_runs x : list DonePtr := runs (Mem.trace (Peer.mem x)).
Definition cx_dones x : list DonePtr := cx_runs x ++ dones (cx_props x).

Record ctx_ok x : Prop := {
  ok_live : live (Peer.mem x) (cx_props x);
  ok_open : is_open (cx_db x);
  ok_connects : connects_counted (Peer.clients x)
}.

(** The peer knows the address of every raft member. *)
Definition knows_members x : Prop :=
  ∀ h, h ∈ members (cx_raft x) → is_Some (Peer.peers_ (Peer.peer x) !! h).

(** Everything but the queue, the database and the raft node. *)
Record frame x x' : Prop := {
  fr_self : Peer.self_ (Peer.peer x') = Peer.self_ (Peer.peer x);
  fr_worker : Peer.worker_ (Peer.peer x') = Peer.worker_ (Peer.peer x);
  fr_peers : Peer.peers_ (Peer.peer x') = Peer.peers_ (Peer.peer x);
  fr_clients : mgr_le (Peer.clients x) (Peer.clients x');
  fr_mem : mem_frame (Peer.mem x) (Peer.mem x')
}.

#[export] Instance frame_preorder : PreOrder frame.
Proof.
  split.
  - intros x. split; reflexivity.
  - intros x1 x2 x3 [A1 B1 C1 D1 E1] [A2 B2 C2 D2 E2].
    split; [congruence|congruence|congruence|by etrans|by etrans].
Qed.

(** ** Sending *)

(** Sending to a known member: no undefined behaviour, and only the client
    cache and the trace change. *)
Lemma SendMsg2Peer_wp msg x :
  ctx_ok x → is_Some (Peer.peers_ (Peer.peer x) !! Message.to msg) →
  wp False (Peer.SendMsg2Peer msg)
    (λ _ x', ctx_ok x' ∧ frame x x' ∧ Peer.peer x' = Peer.peer x ∧
             cx_dones x' = cx_dones x)
    (λ x', cx_dones x' = cx_dones x) x.
Proof.
  intros Hok [to Hto]. unfold Peer.SendMsg2Peer. do 2 peer_step. rewrite Hto.
  do 2 peer_step.
  eapply wp_mono; [by apply GetClient_wp, Hok| |done].
  simpl. intros c cm (Hcnt & Hle & _ & [cl ->]); [done|].
  do 2 peer_step. unfold wp at 1, new_call. simpl. do 2 peer_step.
  set (c := Mem.next_call _).
  split_and!.
  - split; simpl; [apply Hok|apply Hok|done].
  - split; simpl; try done. split; simpl; [done|by apply prefix_app_r|].
    intros C (H1' & H2' & H3'). unfold calls_ok. simpl.
    rewrite issued_app, issued_rpc. split_and!; [set_solver| |].
    + rewrite H2'. assert (c ∉ C) as Hc.
      { intros Hin. apply H1', H3' in Hin. unfold c in Hin. lia. }
      set_solver.
    + intros c' [Hin| ->%elem_of_singleton]%elem_of_union; [|lia].
      apply H3' in Hin. unfold c. lia.
  - done.
  - unfold cx_dones, cx_runs, cx_props. simpl. rewrite runs_app. simpl.
    by rewrite app_nil_r.
Qed.

Lemma SendMsgs_wp msgs x :
  ctx_ok x → (∀ m, m ∈ msgs → is_Some (Peer.peers_ (Peer.peer x) !! Message.to m)) →
  wp False (Peer.SendMsgs msgs)
    (λ _ x', ctx_ok x' ∧ frame x x' ∧ Peer.peer x' = Peer.peer x ∧
             cx_dones x' = cx_dones x)
    (λ x', cx_dones x' = cx_dones x) x.
Proof.
  intros Hok Hto. unfold Peer.SendMsgs.
  apply (wp_for_each False Peer.SendMsg2Peer (λ _ x', ctx_ok x' ∧ frame x x' ∧
    Peer.peer x' = Peer.peer x ∧ cx_dones x' = cx_dones x)); [done|].
  intros m _ x1 Hm (Hok1 & Hf1 & Hp1 & Hd1).
  eapply wp_mono; [apply SendMsg2Peer_wp; [done|rewrite Hp1; by apply Hto]| |].
  - intros [] x2 (Hok2 & Hf2 & Hp2 & Hd2). split_and!; [done|by etrans|congruence..].
  - simpl. congruence.
Qed.

(** ** The proposal of an entry *)

Lemma take_proposal_wp i t x :
  ctx_ok x →
  wp False (if Peer.IsLeader (Peer.peer x) then Peer.in_queue (GetProposal i t)
            else Peer.in_queue CallbackAll ;; mret None)
    (λ p x1, ctx_ok x1 ∧ frame x x1 ∧ cx_raft x1 = cx_raft x ∧ cx_db x1 = cx_db x ∧
             live (Peer.mem x1) (option_list p) ∧
             (∀ pr, p = Some pr → Peer.IsLeader (Peer.peer x) = true ∧
                                  pr ∈ cx_props x ∧ position pr = (t, i)) ∧
             cx_runs x1 ++ dones (option_list p) ++ dones (cx_props x1) = cx_dones x ∧
             cx_props x1 `suffix_of` cx_props x)
    (λ _, False) x.
Proof.
  intros Hok. pose proof (ok_live _ Hok) as Hl. destruct Peer.IsLeader.
  - peer_step. unfold wp. rewrite GetProposal_eq by done. simpl.
    fold (cx_props x). set (pos := (t, i)).
    pose proof (matched_partition pos (cx_props x)) as Hpart.
    pose proof (live_matched pos _ _ _ Hl eq_refl) as [Hlp Hlq]%live_app.
    assert (mem_frame (Peer.mem x) (foldl rejected_mem (Peer.mem x) (overtaken pos (cx_props x))))
      as Hmf.
    { apply mem_frame_rejects. rewrite Hpart in Hl. by apply live_app in Hl as [? _]. }
    split_and!; [by split; try done; apply Hok|by split|done|done|done| | |].
    + intros pr Hpr. fold (cx_props x) in Hpr. fold pos in Hpr.
      destruct (matched pos (cx_props x)) as [r q'] eqn:E. simpl in Hpr, Hpart. subst r.
      split_and!; [done|rewrite Hpart; set_solver|by eapply matched_queue].
    + unfold cx_dones, cx_runs. simpl. rewrite runs_rejects, <- app_assoc.
      f_equal. symmetry. etrans; [exact (f_equal dones Hpart)|].
      unfold dones. by rewrite !fmap_app.
    + eexists. rewrite app_assoc in Hpart. exact Hpart.
  - peer_step. peer_step. unfold wp at 1. rewrite CallbackAll_eq by done. simpl.
    apply wp_ret. fold (cx_props x).
    assert (mem_frame (Peer.mem x) (foldl rejected_mem (Peer.mem x) (cx_props x))) as Hmf
      by by apply mem_frame_rejects.
    split_and!; [|by split|done|done|by constructor|done| |by apply suffix_nil].
    + split; simpl; try apply Hok. constructor.
    + unfold cx_runs, cx_dones. simpl. rewrite runs_rejects, app_nil_r. done.
Qed.

(** ** Applying an entry *)

Lemma run_done_wp p x :
  ctx_ok x → 
  wp False (Peer.run_done p)
    (λ _ x', ctx_ok x' ∧ frame x x' ∧ cx_raft x' = cx_raft x ∧ cx_db x' = cx_db x ∧
             cx_props x' = cx_props x ∧
             cx_runs x' = cx_runs x ++ dones (option_list p))
    (λ _, False) x.
Proof.
  intros Hok. destruct p as [p|]; simpl.
  - peer_step. apply wp_Run. split_and!; try done.
    + split; simpl; apply Hok.
    + split; simpl; try done. apply mem_frame_run.
    + unfold cx_runs. simpl. by rewrite runs_add_run.
  - peer_step. by rewrite app_nil_r.
Qed.

Definition set_db (d : T) x : Peer.Ctx T :=
  Peer.mk_ctx (Peer.set_kv_db d (Peer.peer x)) (Peer.clients x) (Peer.mem x).

Lemma set_db_ok d x : ctx_ok x → is_open d → ctx_ok (set_db d x).
Proof. intros Hok Ho. split; simpl; try apply Hok. done. Qed.

Lemma set_db_frame d x : frame x (set_db d x).
Proof. by split. Qed.

Definition applied (cs : gmap string string) (ps : list Proposal.t) x x' : Prop :=
  ctx_ok x' ∧ frame x x' ∧ cx_raft x' = cx_raft x ∧ contents (cx_db x') = cs ∧
  cx_props x' = cx_props x ∧ cx_runs x' = cx_runs x ++ dones ps.

(** Nothing but the database may have changed when an operation aborts. *)
Definition stopped x x' : Prop := cx_runs x' = cx_runs x ∧ cx_props x' = cx_props x.

Lemma applied_run_done p cs x x1 :
  ctx_ok x1 → frame x x1 → cx_raft x1 = cx_raft x → contents (cx_db x1) = cs →
  cx_props x1 = cx_props x → cx_runs x1 = cx_runs x →
  wp False (Peer.run_done p) (λ _ x', applied cs (option_list p) x x') (stopped x) x1.
Proof.
  intros Hok Hf Hr Hc Hp Hn. eapply wp_mono; [by apply run_done_wp| |done].
  intros [] x2 (? & ? & ? & ? & ? & ?). split_and!; first [done|congruence|by etrans].
Qed.

Lemma applied_set_db d p x :
  ctx_ok x → is_open d →
  wp False (Peer.run_done p) (λ _ x', applied (contents d) (option_list p) x x')
    (stopped x) (set_db d x).
Proof. intros Hok Ho. apply applied_run_done; auto using set_db_ok, set_db_frame. Qed.

Lemma put_cmd_wp k v p x :
  ctx_ok x →
  wp False (Peer.in_db (store_put k v) ;; Peer.run_done p)
    (λ _ x', applied (<[k := v]> (contents (cx_db x))) (option_list p) x x') (stopped x) x.
Proof.
  intros Hok. do 2 peer_step. eapply wp_mono; [apply store_put_wp, Hok| |done].
  intros [] d [Ho Hd]. fold (cx_db x) in Hd. rewrite <- Hd. by apply applied_set_db.
Qed.

Lemma del_cmd_wp k p x :
  ctx_ok x →
  wp False (Peer.in_db (store_del k) ;; Peer.run_done p)
    (λ _ x', applied (delete k (contents (cx_db x))) (option_list p) x x') (stopped x) x.
Proof.
  intros Hok. do 2 peer_step. eapply wp_mono; [apply store_del_wp, Hok| |done].
  intros [] d [Ho Hd]. fold (cx_db x) in Hd. rewrite <- Hd. by apply applied_set_db.
Qed.

Lemma get_cmd_wp k p x :
  ctx_ok x → live (Peer.mem x) (option_list p) →
  wp False
    (val ← Peer.in_db (store_get k);
     match p with
     | Some p =>
         Peer.in_mem (write_resp (Proposal.resp p)
                        (KvResp.mutable_get_resp (GetResp.set_value val))) ;;
         Peer.in_mem (Run (Proposal.done p))
     | None => mret ()
     end)
    (λ _ x', applied (contents (cx_db x)) (option_list p) x x') (stopped x) x.
Proof.
  intros Hok Hl. do 2 peer_step. eapply wp_mono; [apply store_get_wp, Hok| |].
  2: { by intros d ->. }
  intros val d [-> Hk]. destruct p as [p|].
  2: { peer_step. split_and!; try done; [split; simpl; apply Hok|by rewrite app_nil_r]. }
  apply Forall_cons in Hl as [Hp _].
  do 2 peer_step. apply wp_write_resp; [done|]. intros r Hr.
  change (wp False (Peer.run_done (Some p)) (λ _ x',
    applied (contents (cx_db x)) [p] x x') (stopped x)
    (Peer.mk_ctx (Peer.set_kv_db (cx_db x) (Peer.peer x)) (Peer.clients x)
      (Mem.set_resps <[Proposal.resp p :=
         KvResp.mutable_get_resp (GetResp.set_value val) r]> (Peer.mem x)))).
  apply (applied_run_done (Some p)); try done.
  - split; simpl; try apply Hok.
    apply (live_frame (Peer.mem x)); [by apply mem_frame_write|apply Hok].
  - split; simpl; try done. by apply mem_frame_write.
Qed.

(** The command of a normal entry is applied to the database; a proposal is
    answered unless the command is the no-op. *)
Lemma ProcessNormal_wp e p x :
  ctx_ok x → live (Peer.mem x) (option_list p) →
  wp False (Peer.ProcessNormal e p)
    (λ _ x', ∃ ps, ps ⊆+ option_list p ∧ (answerable (decode e) → ps = option_list p) ∧
                   applied (kv_apply (contents (cx_db x)) (decode e)) ps x x')
    (stopped x) x.
Proof.
  intros Hok Hl. unfold Peer.ProcessNormal, kv_apply, decode, answerable.
  destruct (ParseFromString (Entry.data e)) as [ok req]. simpl.
  assert (∀ cs, cs = contents (cx_db x) → applied cs [] x x) as Hid.
  { intros cs ->. split_and!; try done. by rewrite app_nil_r. }
  peer_step. eapply (wp_mono _ _ (λ _ x', x' = x) _ (stopped x)); [|intros [] ? ->|done].
  { peer_step; [peer_step|]; done. }
  destruct (KvReq.cmd_type req); simpl.
  - peer_step. exists []. split_and!; [apply submseteq_nil_l|naive_solver|by apply Hid].
  - eapply wp_mono; [by apply get_cmd_wp| |done]. simpl. intros. eexists. by split_and!.
  - eapply wp_mono; [by apply put_cmd_wp| |done]. simpl. intros. eexists. by split_and!.
  - eapply wp_mono; [by apply del_cmd_wp| |done]. simpl. intros. eexists. by split_and!.
  - peer_step; [done|].
    exists []. split_and!; [apply submseteq_nil_l|naive_solver|by apply Hid].
Qed.

(** ** Applying the committed entries *)

(** No proposal is dropped at this entry: it carries a command a client is
    answered for, or the peer does not lead, or no proposal is at its
    position. *)
Definition accounted x (e : Entry.t) : Prop :=
  (Entry.type e = kEntryNormal ∧ answerable (decode e)) ∨
  Peer.IsLeader (Peer.peer x) = false ∨
  (∀ p, p ∈ cx_props x → position p ≠ (Entry.term e, Entry.index e)).

(** A closure is lost if its proposal is at the position of an entry that
    clients are not answered for. *)
Definition lost (es : list Entry.t) x (d : DonePtr) : Prop :=
  ∃ p e, p ∈ cx_props x ∧ Proposal.done p = d ∧ e ∈ es ∧ position p = (Entry.term e, Entry.index e) ∧
         ¬ (Entry.type e = kEntryNormal ∧ answerable (decode e)).

(** What applying the entries [es] does to the context. *)
Record entries_step (es : list Entry.t) x x' : Prop := {
  es_ok : ctx_ok x';
  es_frame : frame x x';
  es_raft : cx_raft x' = cx_raft x;
  es_contents : contents (cx_db x') = log_apply (contents (cx_db x)) es;
  es_props : cx_props x' `suffix_of` cx_props x;
  es_dones : cx_dones x' ⊆+ cx_dones x;
  es_accounted : Forall (accounted x) es → cx_dones x' ≡ₚ cx_dones x;
  es_lost d : d ∈ cx_dones x → d ∈ cx_dones x' ∨ lost es x d
}.

(** What is known when the process aborts. *)
Definition aborted x x' : Prop := cx_dones x' ⊆+ cx_dones x.

Lemma entries_step_nil x : ctx_ok x → entries_step [] x x.
Proof. split; try done. intros d. by left. Qed.

Lemma accounted_later x x' e :
  accounted x e → cx_raft x' = cx_raft x → cx_props x' `suffix_of` cx_props x →
  accounted x' e.
Proof.
  intros [Ha|[Hl|Hp]] Hr [q Hq]; [by left|right; left|right; right].
  - revert Hl. unfold Peer.IsLeader. fold (cx_raft x) (cx_raft x'). by rewrite Hr.
  - intros p Hin. apply Hp. rewrite Hq. set_solver.
Qed.

Lemma entries_step_app es1 es2 x x1 x2 :
  entries_step es1 x x1 → entries_step es2 x1 x2 → entries_step (es1 ++ es2) x x2.
Proof.
  intros [A1 B1 C1 D1 E1 F1 G1 L1] [A2 B2 C2 D2 E2 F2 G2 L2].
  split; [done|by etrans|congruence| |by etrans|by etrans| |].
  - by rewrite log_apply_app, D2, D1.
  - intros [Ha1 Ha2]%Forall_app. etrans; [apply G2|by apply G1].
    eapply Forall_impl; [exact Ha2|]. intros e He. by eapply accounted_later.
  - intros d [Hd|(p & e & ? & ? & ? & ?)]%L1; [|right; exists p, e; set_solver].
    apply L2 in Hd as [?|(p & e & Hp & ? & ? & ?)]; [by left|right]. exists p, e.
    destruct E1 as [l ->]. set_solver.
Qed.

(** From the proposal taken for an entry to the end of its processing. *)
Lemma taken_step e r x x1 x2 ps :
  frame x x1 → cx_raft x1 = cx_raft x → cx_db x1 = cx_db x →
  (∀ pr, r = Some pr → Peer.IsLeader (Peer.peer x) = true ∧
         pr ∈ cx_props x ∧ position pr = (Entry.term e, Entry.index e)) →
  cx_runs x1 ++ dones (option_list r) ++ dones (cx_props x1) = cx_dones x →
  cx_props x1 `suffix_of` cx_props x →
  ps ⊆+ option_list r →
  (Entry.type e = kEntryNormal ∧ answerable (decode e) → ps = option_list r) →
  applied (entry_apply (contents (cx_db x)) e) ps x1 x2 →
  entries_step [e] x x2.
Proof.
  intros Hf Hr Hd Hpr Hdones Hsuf Hps Hans (Hok & Hf2 & Hr2 & Hc & Hp & Hrun).
  assert (cx_dones x2 = cx_runs x1 ++ dones ps ++ dones (cx_props x1)) as Hd2.
  { unfold cx_dones. by rewrite Hp, Hrun, <- app_assoc. }
  split; [done|by etrans|congruence|done|by rewrite Hp| | |].
  - rewrite Hd2, <- Hdones. apply submseteq_skips_l, submseteq_skips_r.
    by apply fmap_submseteq.
  - intros [Ha _]%Forall_cons. rewrite Hd2, <- Hdones.
    assert (ps = option_list r) as ->; [|done].
    destruct r as [pr|]; [|by apply submseteq_nil_r in Hps].
    destruct (Hpr pr eq_refl) as (Hl & Hin & Hpos).
    destruct Ha as [Ha|[Ha|Ha]]; [by apply Hans|congruence|by apply Ha in Hpos].
  - intros d. rewrite Hd2, <- Hdones, !elem_of_app. intros Hin.
    destruct (decide (Entry.type e = kEntryNormal ∧ answerable (decode e))) as [He|He];
      [rewrite Hans by done; by left|].
    destruct Hin as [?|[Hin|?]]; [by auto|right|by auto].
    destruct r as [pr|]; [|by apply not_elem_of_nil in Hin].
    apply list_elem_of_singleton in Hin as ->. exists pr, e.
    destruct (Hpr pr eq_refl) as (_ & ? & ?). split_and!; [done..|by left|done|done].
Qed.

Lemma ProcessEntry_wp e x :
  ctx_ok x →
  wp False (Peer.ProcessEntry e) (λ _ x', entries_step [e] x x') (aborted x) x.
Proof.
  intros Hok. unfold Peer.ProcessEntry. do 3 peer_step.
  eapply wp_mono; [by apply take_proposal_wp| |done].
  intros r x1 (Hok1 & Hf & Hr & Hd & Hl & Hpr & Hdones & Hsuf). simpl.
  assert (∀ x2, stopped x1 x2 → aborted x x2) as Hst.
  { intros x2 [H7 H8]. unfold aborted, cx_dones at 1. rewrite H7, H8, <- Hdones.
    apply submseteq_skips_l, submseteq_inserts_l. done. }
  destruct (decide (Entry.type e = kEntryNormal)) as [Ht|Ht].
  - eapply wp_mono; [by apply ProcessNormal_wp| |exact Hst].
    intros [] x2 (ps & Hps & Hans & Happ). eapply taken_step; try done; [naive_solver|].
    unfold entry_apply. rewrite decide_True by done. by rewrite <- Hd.
  - apply wp_ret. eapply (taken_step e r x x1 x1 []); try done;
      [apply submseteq_nil_l|naive_solver|].
    unfold entry_apply. rewrite decide_False by done.
    split_and!; try done; [by rewrite Hd|by rewrite app_nil_r].
Qed.

Lemma ProcessEntries_wp es x :
  ctx_ok x →
  wp False (Peer.ProcessEntries es) (λ _ x', entries_step es x x') (aborted x) x.
Proof.
  unfold Peer.ProcessEntries. revert x. induction es as [|e es IH]; intros x Hok; simpl.
  { apply wp_ret. by apply entries_step_nil. }
  apply wp_bind. eapply wp_mono; [by apply ProcessEntry_wp| |done].
  intros [] x1 H1'. eapply wp_mono; [by apply IH, H1'| |].
  - intros [] x2 H2'. by apply (entries_step_app [e] es x x1).
  - intros x2 H2'. unfold aborted in *. etrans; [exact H2'|apply H1'].
Qed.

(** ** A round of Ready *)

Definition with_raft (r : raw_node) x : Peer.Ctx T :=
  Peer.mk_ctx (Peer.set_raw_node r (Peer.peer x)) (Peer.clients x) (Peer.mem x).

Lemma with_raft_ok r x : ctx_ok x → ctx_ok (with_raft r x).
Proof. intros Hok. split; simpl; apply Hok. Qed.

Lemma with_raft_frame r x : frame x (with_raft r x).
Proof. by split. Qed.

(** The raft node after the round that handed out [rd], from its state [r1]
    after GetReady. *)
Definition after_ready (rd : ready) (r1 : raw_node) : raw_node :=
  Advance rd (if bool_decide (entries rd = []) then r1 else Append (entries rd) r1).

(** What a callback of the peer does when it moves the raft node through
    [rr] and applies the entries [es]. *)
Record callback (rr : raw_node → raw_node → Prop) (es : list Entry.t) x x' : Prop := {
  cb_ok : ctx_ok x';
  cb_frame : frame x x';
  cb_raft : rr (cx_raft x) (cx_raft x');
  cb_contents : contents (cx_db x') = log_apply (contents (cx_db x)) es;
  cb_props : cx_props x' `suffix_of` cx_props x;
  cb_dones : cx_dones x' ⊆+ cx_dones x
}.

(** The loops over an empty list of messages or entries are no-ops, so that the
    tests before them do not matter. *)
Lemma when_nonempty {S A} (f : list A → M S unit) l s :
  f [] s = Ok () s → when (negb (bool_decide (l = []))) (f l) s = f l s.
Proof. intros Hf. destruct l; [by rewrite Hf|done]. Qed.

(** The stages of a round: with the entries stored, the messages are sent, the
    committed entries are applied and the round is advanced. *)
Lemma HandleRaftReady_stages U (Q : unit → Peer.Ctx T → Prop) R x :
  (HasReady (cx_raft x) = false → Q () x) →
  (∀ rd r1, HasReady (cx_raft x) = true → GetReady (cx_raft x) = (rd, r1) →
     wp U (Peer.SendMsgs (messages rd))
       (λ _ x2, wp U (Peer.ProcessEntries (committed_entries rd))
          (λ _ x3, Q () (with_raft (Advance rd (cx_raft x3)) x3)) R x2) R
       (with_raft (if bool_decide (entries rd = []) then r1 else Append (entries rd) r1) x)) →
  wp U Peer.HandleRaftReady Q R x.
Proof.
  intros Hno Hyes. unfold Peer.HandleRaftReady. do 2 peer_step. fold (cx_raft x).
  destruct (HasReady (cx_raft x)); simpl; [|by apply Hno].
  destruct (GetReady (cx_raft x)) as [rd r1]. specialize (Hyes rd r1 eq_refl eq_refl).
  do 3 peer_step. set (r2 := if bool_decide _ then _ else _) in Hyes.
  apply (wp_mono _ _ (λ _ x', x' = with_raft r2 x) _ (λ _, False)); [| |done].
  { unfold r2. peer_step; [do 3 peer_step|]; destruct (bool_decide _); simpl in *;
      congruence || done. }
  intros [] x1 ->. peer_step. unfold wp at 1. rewrite when_nonempty by done.
  revert Hyes. unfold wp at 1. destruct (Peer.SendMsgs _ _) as [[] x2| | |]; try done.
  intros Hyes. peer_step. unfold wp at 1. rewrite when_nonempty by done.
  revert Hyes. unfold wp. by destruct (Peer.ProcessEntries _ _) as [[] x3| | |].
Qed.

Lemma HandleRaftReady_wp x :
  ctx_ok x → knows_members x →
  wp False Peer.HandleRaftReady
    (λ _ x', if HasReady (cx_raft x)
             then callback (λ r r', r' = after_ready (GetReady r).1 (GetReady r).2)
                    (committed_entries (GetReady (cx_raft x)).1) x x'
             else x' = x)
    (aborted x) x.
Proof.
  intros Hok Hkm. apply HandleRaftReady_stages; [by intros ->|]. intros rd r1 -> Erd. rewrite Erd.
  set (r2 := if bool_decide _ then _ else _). simpl.
  eapply wp_mono; [apply SendMsgs_wp; [by apply with_raft_ok|]| |].
  { intros m Hm. apply Hkm. by eapply ready_to_members. }
  2: { intros x' Hx'. unfold aborted. by rewrite Hx'. }
  intros [] x2 (Hok2 & Hf2 & Hp2 & Hd2). eapply wp_mono; [by apply ProcessEntries_wp| |].
  2: { intros x' Hx'. unfold aborted in *. by rewrite Hd2 in Hx'. }
  intros [] x3 [Hok3 Hf3 Hr3 Hc3 Hq3 Hd3 _]. split.
  - by apply with_raft_ok.
  - etrans; [by apply with_raft_frame|]. etrans; [done|]. etrans; [done|].
    by apply with_raft_frame.
  - unfold after_ready. rewrite Erd. simpl. rewrite Hr3. unfold cx_raft. by rewrite Hp2.
  - etrans; [exact Hc3|]. unfold cx_db. by rewrite Hp2.
  - etrans; [exact Hq3|]. unfold cx_props. by rewrite Hp2.
  - etrans; [exact Hd3|]. by rewrite Hd2.
Qed.

(** The raft transitions of a tick: the tick, then the Ready if there is one. *)
Definition tick_raft (r r' : raw_node) : Prop :=
  r' = (let r1 := Raft.Tick r in
        if HasReady r1 then after_ready (GetReady r1).1 (GetReady r1).2 else r1).

Definition tick_entries (r : raw_node) : list Entry.t :=
  if HasReady (Raft.Tick r) then committed_entries (GetReady (Raft.Tick r)).1 else [].

Lemma knows_members_op r' x :
  knows_members x → raft_op (cx_raft x) r' → knows_members (with_raft r' x).
Proof.
  intros Hk Hop h Hh. apply Hk. by rewrite <- (raft_op_members _ _ Hop).
Qed.

Lemma Tick_wp x :
  ctx_ok x → knows_members x →
  wp False Peer.Tick (λ _ x', callback tick_raft (tick_entries (cx_raft x)) x x')
    (aborted x) x.
Proof.
  intros Hok Hkm. unfold Peer.Tick. do 4 peer_step. fold (cx_raft x).
  fold (with_raft (Raft.Tick (cx_raft x)) x). set (x1 := with_raft _ x).
  eapply wp_mono; [apply HandleRaftReady_wp;
    [by apply with_raft_ok|by apply knows_members_op; [|constructor]]| |done].
  intros [] x'. unfold tick_entries.
  change (cx_raft x1) with (Raft.Tick (cx_raft x)).
  destruct (HasReady (Raft.Tick (cx_raft x))) eqn:Ehr.
  - intros [A B C D E F]. split; try done.
    + etrans; [by apply with_raft_frame|done].
    + unfold tick_raft. simpl. by rewrite Ehr.
  - intros ->. split; try done; [by apply with_raft_ok|].
    unfold tick_raft. by rewrite Ehr.
Qed.

(** ** Messages and proposals *)

Lemma Step_wp m x :
  ctx_ok x →
  wp False (Peer.Step m)
    (λ e x', e = (Raft.Step m (cx_raft x)).1 ∧
             callback (λ r r', r' = (Raft.Step m r).2) [] x x') (λ _, False) x.
Proof.
  intros Hok. unfold Peer.Step. do 2 peer_step. fold (cx_raft x).
  destruct (Raft.Step m (cx_raft x)) as [e r] eqn:Es. do 3 peer_step.
  fold (with_raft r x). split; [done|]. split; try done.
  - by apply with_raft_ok.
  - simpl. by rewrite Es.
Qed.

Definition push_proposal (p : Proposal.t) x : Peer.Ctx T :=
  Peer.mk_ctx (Peer.set_proposals (cx_props x ++ [p]) (Peer.peer x)) (Peer.clients x)
              (Peer.mem x).

(** The proposal a leader queues for a request. *)
Definition new_proposal x (resp done : Z) : Proposal.t :=
  Proposal.mk (Peer.NextProposalIndex (Peer.peer x)) (Peer.Term (Peer.peer x)) resp done.

Lemma ProposeKvOp_wp req resp done_ x :
  wp False (Peer.ProposeKvOp req resp done_)
    (λ _ x', x' = with_raft (Propose (SerializeToString req).2 (cx_raft x)).2
                   (if Peer.IsLeader (Peer.peer x)
                    then push_proposal (new_proposal x resp done_) x else x))
    (λ x', x' = x) x.
Proof.
  unfold Peer.ProposeKvOp, Peer.raft_Propose.
  destruct (SerializeToString req) as [ok s]. simpl.
  peer_step. eapply (wp_mono _ _ (λ _ x', x' = x) _ (λ x', x' = x));
    [peer_step; [by peer_step|done]| |done].
  intros [] ? ->. do 2 peer_step.
  peer_step. eapply (wp_mono _ _ (λ _ x', x' = if Peer.IsLeader (Peer.peer x)
    then push_proposal (new_proposal x resp done_) x else x) _ (λ _, False)); [| |done].
  { destruct (Peer.IsLeader (Peer.peer x)); by peer_step. }
  intros [] x1 ->. do 3 peer_step. by destruct (Peer.IsLeader (Peer.peer x)).
Qed.
End safety.
