(* ===== verification/PeerApply.v ===== *)
(** * PeerApply: the peers refine the key-value state machine

    What applying the committed entries does to the database and to the
    clients: the contents follow [KvSpec], replicas that apply the same log
    agree, and a leader answers its pending proposals with the results of the
    state machine. *)
From S2P Require Import Prelude Wire RpcClient Runtime Storage Members Raft Config Proposals.
From S2P Require Import HostClients Peer KvSpec PeerSafety.

Section apply.
Context `{FatalPolicy} `{KvCodec} `{BoostSplit} `{RpcNet} `{RawNodeLaws}.
Context {T : Type} `{KvStoreLaws T}.
Implicit Types (x : Peer.Ctx T) (e : Entry.t).

(** ** Refinement *)

(** C8 Refinement of the replicated map: when a peer returns from applying a
    list of committed entries, whatever its role, its pending proposals and
    the state of its clients, the contents of its database are the fold of
    the abstract state machine over the entries; raft, the member table and
    the responses' addresses are untouched, and there was no undefined
    behaviour. *)
Theorem ProcessEntries_refines es x :
  ctx_ok x →
  wp False (Peer.ProcessEntries es)
    (λ _ x', contents (cx_db x') = log_apply (contents (cx_db x)) es ∧
             cx_raft x' = cx_raft x ∧ ctx_ok x' ∧ frame x x')
    (aborted x) x.
Proof.
  intros Hok. eapply wp_mono; [by apply ProcessEntries_wp| |done].
  intros [] x' [A B C D _ _ _]. by split_and!.
Qed.

(** C14 Replica agreement: two peers whose databases hold the same map and that
    apply the same committed log, cut into any two pieces each, end with the
    same map, although one may lead and answer clients while the other
    follows and rejects its own. *)
Theorem replicas_agree es1 es2 fs1 fs2 x x1 x2 y y1 y2 :
  ctx_ok x → ctx_ok y → contents (cx_db x) = contents (cx_db y) →
  es1 ++ es2 = fs1 ++ fs2 →
  Peer.ProcessEntries es1 x = Ok () x1 → Peer.ProcessEntries es2 x1 = Ok () x2 →
  Peer.ProcessEntries fs1 y = Ok () y1 → Peer.ProcessEntries fs2 y1 = Ok () y2 →
  contents (cx_db x2) = contents (cx_db y2).
Proof.
  intros Hx Hy Hc Hes E1 E2 E3 E4.
  pose proof (wp_Ok _ _ _ _ _ _ _ (ProcessEntries_wp es1 x Hx) E1) as [Hx1 _ _ D1 _ _ _].
  pose proof (wp_Ok _ _ _ _ _ _ _ (ProcessEntries_wp es2 x1 Hx1) E2) as [_ _ _ D2 _ _ _].
  pose proof (wp_Ok _ _ _ _ _ _ _ (ProcessEntries_wp fs1 y Hy) E3) as [Hy1 _ _ D3 _ _ _].
  pose proof (wp_Ok _ _ _ _ _ _ _ (ProcessEntries_wp fs2 y1 Hy1) E4) as [_ _ _ D4 _ _ _].
  rewrite D2, D1, D4, D3, <- !log_apply_app. congruence.
Qed.

(** ** One entry on a leader, exactly *)

(** The context after a proposal was answered. *)
Definition answer (q : list Proposal.t) (p : Proposal.t) (f : KvResp.t → KvResp.t)
    (d : T) x : Peer.Ctx T :=
  let h := alter f (Proposal.resp p) (Mem.resps (Peer.mem x)) in
  Peer.mk_ctx (Peer.set_kv_db d (Peer.set_proposals q (Peer.peer x))) (Peer.clients x)
    (Mem.add_event (EvRun (Proposal.done p) h)
       (Mem.set_resps (alter f (Proposal.resp p)) (Peer.mem x))).

(** With the proposal taken, a normal entry whose command executes. *)
Context `{!KvStoreTotal T}.

Lemma alter_insert_eq (h : gmap Z KvResp.t) k f r :
  h !! k = Some r → <[k := f r]> h = alter f k h.
Proof.
  intros Hk. apply map_eq. intros j. rewrite lookup_alter, lookup_insert.
  case_decide; subst; by rewrite ?Hk.
Qed.

Lemma alter_id_eq (h : gmap Z KvResp.t) k f : (∀ r, f r = r) → alter f k h = h.
Proof. intros Hf. apply alter_id. auto. Qed.

Lemma KvStore_step r d :
  is_open d → executable (contents d) r → answerable r →
  ∃ d', is_open d' ∧ contents d' = kv_apply (contents d) r ∧
    match KvReq.cmd_type r with
    | kGet => store_get (GetReq.key (KvReq.get_req r)) d =
                Ok (default "" (contents d !! GetReq.key (KvReq.get_req r))) d'
    | kPut => store_put (PutReq.key (KvReq.put_req r)) (PutReq.value (KvReq.put_req r)) d
                = Ok () d'
    | kDel => store_del (DelReq.key (KvReq.del_req r)) d = Ok () d'
    | _ => False
    end.
Proof.
  intros Ho He [Ht|[Ht|Ht]]; unfold executable, kv_apply in *; rewrite Ht in *.
  - destruct He as [v Hv]. exists d. split_and!; [done|done|].
    rewrite Hv. by apply store_get_total.
  - destruct (store_put_total (PutReq.key (KvReq.put_req r))
      (PutReq.value (KvReq.put_req r)) d Ho) as [d' Hd]. exists d'.
    pose proof (wp_Ok _ _ _ _ _ _ _ (store_put_wp _ _ d Ho) Hd) as [? ?]. by split_and!.
  - destruct (store_del_total (DelReq.key (KvReq.del_req r)) d Ho) as [d' Hd]. exists d'.
    pose proof (wp_Ok _ _ _ _ _ _ _ (store_del_wp _ d Ho) Hd) as [? ?]. by split_and!.
Qed.

Lemma ProcessNormal_answer e p x :
  ctx_ok x → is_Some (Mem.resps (Peer.mem x) !! Proposal.resp p) →
  (ParseFromString (Entry.data e)).1 = true → executable (contents (cx_db x)) (decode e) →
  answerable (decode e) →
  ∃ d', is_open d' ∧ contents d' = kv_apply (contents (cx_db x)) (decode e) ∧
    Peer.ProcessNormal e (Some p) x =
      Ok () (answer (cx_props x) p (kv_answer (contents (cx_db x)) (decode e)) d' x).
Proof.
  intros Hok [r0 Hr0] Hp He Ha.
  destruct (KvStore_step (decode e) (cx_db x)) as (d' & Ho' & Hc' & Hs);
    [apply Hok|done|done|].
  exists d'. split_and!; [done|done|]. unfold Peer.ProcessNormal, answer, kv_answer.
  unfold decode in *. destruct (ParseFromString (Entry.data e)) as [ok req]. simpl in *.
  subst ok. erewrite bind_Ok by reflexivity.
  destruct (KvReq.cmd_type req) eqn:Ht; try done.
  - erewrite bind_Ok by (unfold Peer.in_db, zoom; fold (cx_db x); rewrite Hs; reflexivity).
    erewrite bind_Ok by (unfold Peer.in_mem, zoom; simpl;
      rewrite (write_resp_Ok _ _ r0) by done; reflexivity).
    unfold Peer.in_mem, zoom, cx_props. simpl. do 2 f_equal.
    unfold Mem.set_resps, Mem.add_event. simpl.
    rewrite (alter_insert_eq (Mem.resps (Peer.mem x)) (Proposal.resp p)
      (KvResp.mutable_get_resp (GetResp.set_value
         (default "" (contents (cx_db x) !! GetReq.key (KvReq.get_req req)))))) by done.
    done.
  - erewrite bind_Ok by (unfold Peer.in_db, zoom; fold (cx_db x); rewrite Hs; reflexivity).
    unfold Peer.run_done, Peer.in_mem, zoom, cx_props. simpl. do 2 f_equal.
    unfold Mem.set_resps, Mem.add_event. simpl. by rewrite alter_id_eq.
  - erewrite bind_Ok by (unfold Peer.in_db, zoom; fold (cx_db x); rewrite Hs; reflexivity).
    unfold Peer.run_done, Peer.in_mem, zoom, cx_props. simpl. do 2 f_equal.
    unfold Mem.set_resps, Mem.add_event. simpl. by rewrite alter_id_eq.
Qed.

(** The entry a proposal was made for, as it comes back from the log. *)
Definition commits m p e : Prop :=
  position p = (Entry.term e, Entry.index e) ∧ Entry.type e = kEntryNormal ∧
  answerable (decode e) ∧ entry_executable m e.

(** The proposals before it are rejected first. *)
Definition rejecting (qs : list Proposal.t) x : Peer.Ctx T :=
  Peer.mk_ctx (Peer.peer x) (Peer.clients x) (foldl rejected_mem (Peer.mem x) qs).

Lemma ProcessEntry_answer_behind e qs p q x :
  ctx_ok x → Peer.IsLeader (Peer.peer x) = true → cx_props x = qs ++ p :: q →
  Forall (λ p', lex_lt (position p') (position p)) qs →
  commits (contents (cx_db x)) p e →
  ∃ d', is_open d' ∧ contents d' = entry_apply (contents (cx_db x)) e ∧
    Peer.ProcessEntry e x =
      Ok () (answer q p (kv_answer (contents (cx_db x)) (decode e)) d' (rejecting qs x)).
Proof.
  intros Hok Hlead Hq Hqs (Hpos & Ht & Ha & He). destruct (He Ht) as [Hparse Hex].
  pose proof (ok_live _ Hok) as Hl. rewrite Hq in Hl.
  apply live_app in Hl as [_ [Hp Hl]%Forall_cons].
  assert (live (foldl rejected_mem (Peer.mem x) qs) (p :: q)) as Hl1
    by (apply live_foldl; by constructor).
  set (x1 := Peer.mk_ctx (Peer.set_proposals q (Peer.peer x)) (Peer.clients x)
               (foldl rejected_mem (Peer.mem x) qs)).
  assert (ctx_ok x1) as Hok1.
  { split; simpl; try apply Hok. by apply Forall_cons in Hl1 as [_ ?]. }
  destruct (ProcessNormal_answer e p x1) as (d' & Ho & Hc & E); try done.
  { simpl. by apply Forall_cons in Hl1 as [? _]. }
  exists d'. split_and!; [done|by unfold entry_apply; rewrite decide_True|].
  unfold Peer.ProcessEntry. erewrite bind_Ok by reflexivity. rewrite Hlead.
  erewrite (bind_Ok _ _ x (Some p) x1).
  - rewrite decide_True by done. exact E.
  - destruct (behind_overtaken _ _ _ q Hqs eq_refl) as [Eo Em].
    unfold Peer.in_queue, zoom. fold (cx_props x). rewrite Hq.
    rewrite GetProposal_eq by (rewrite <- Hq; by apply ok_live).
    rewrite <- Hpos, Eo, Em. done.
Qed.

Lemma ProcessEntry_answer e p q x :
  ctx_ok x → Peer.IsLeader (Peer.peer x) = true → cx_props x = p :: q →
  commits (contents (cx_db x)) p e →
  ∃ d', is_open d' ∧ contents d' = entry_apply (contents (cx_db x)) e ∧
    Peer.ProcessEntry e x =
      Ok () (answer q p (kv_answer (contents (cx_db x)) (decode e)) d' x).
Proof. intros. by apply (ProcessEntry_answer_behind e [] p q x). Qed.

Lemma answer_ok q p f d x :
  ctx_ok x → is_open d → live (Peer.mem x) q → ctx_ok (answer q p f d x).
Proof.
  intros Hok Ho Hl. split; simpl; [|done|apply Hok].
  eapply Forall_impl; [exact Hl|]. intros p' Hp'. simpl.
  rewrite <- elem_of_dom, dom_alter_L, elem_of_dom. exact Hp'.
Qed.

(** The pending proposals [ps] and the entries that commit them, from the map
    [m] on. *)
Fixpoint commits_all (m : kv_map) (ps : list Proposal.t) (es : list Entry.t) : Prop :=
  match ps, es with
  | [], [] => True
  | p :: ps', e :: es' => commits m p e ∧ commits_all (entry_apply m e) ps' es'
  | _, _ => False
  end.

Lemma leader_answers_all ps es rest x :
  ctx_ok x → Peer.IsLeader (Peer.peer x) = true → cx_props x = ps ++ rest →
  NoDup (Proposal.resp <$> ps) → commits_all (contents (cx_db x)) ps es →
  ∃ x', Peer.ProcessEntries es x = Ok () x' ∧ cx_props x' = rest ∧
    cx_runs x' = cx_runs x ++ dones ps ∧
    Mem.trace (Peer.mem x) `prefix_of` Mem.trace (Peer.mem x') ∧
    ∀ k p e r, ps !! k = Some p → es !! k = Some e →
      Mem.resps (Peer.mem x) !! Proposal.resp p = Some r →
      answered (Proposal.done p) (Proposal.resp p)
        (kv_answer (log_apply (contents (cx_db x)) (take k es)) (decode e) r)
        (Mem.trace (Peer.mem x')).
Proof.
  revert es x. induction ps as [|p ps IH]; intros [|e es] x Hok Hlead Hq Hnd Hcm; try done.
  { exists x. simpl. split_and!; [done|done|by rewrite app_nil_r|done|]. by intros [|?]. }
  destruct Hcm as [Hce Hcm]. apply NoDup_cons in Hnd as [Hnot Hnd].
  destruct (ProcessEntry_answer e p (ps ++ rest) x) as (d & Ho & Hc & E); try done.
  set (f := kv_answer (contents (cx_db x)) (decode e)) in *.
  set (x1 := answer (ps ++ rest) p f d x) in *.
  assert (ctx_ok x1) as Hok1.
  { apply answer_ok; [done|done|]. pose proof (ok_live _ Hok) as Hl. rewrite Hq in Hl.
    by apply Forall_cons in Hl as [_ ?]. }
  destruct (IH es x1) as (x' & E' & Hq' & Hr' & Htr & Hans); try done.
  { change (cx_db x1) with d. by rewrite Hc. }
  exists x'. split_and!.
  - unfold Peer.ProcessEntries. simpl. by rewrite (bind_Ok _ _ _ _ _ E).
  - done.
  - rewrite Hr'. unfold x1, cx_runs, answer. simpl. rewrite runs_add_run.
    by rewrite <- app_assoc.
  - etrans; [|exact Htr]. by apply prefix_app_r.
  - intros [|k] p' e' r Hp' He' Hr; simpl in *.
    + simplify_eq. exists (alter f (Proposal.resp p') (Mem.resps (Peer.mem x))).
      split; [|by rewrite lookup_alter_eq, Hr].
      eapply elem_of_prefix; [|exact Htr]. simpl. set_solver.
    + assert (Proposal.resp p ≠ Proposal.resp p') as Hne.
      { intros Heq. apply Hnot. rewrite Heq. apply list_elem_of_fmap_2.
        by eapply list_elem_of_lookup_2. }
      rewrite <- Hc. apply Hans; [done|done|]. simpl. by rewrite lookup_alter_ne.
Qed.

(** C13 A leader answers its clients with the results of the state machine:
    when the next committed entries are those of the first pending proposals
    [ps], in order, each a Get, Put or Del that executes, applying them
    returns, pops exactly [ps], runs their closures once each in log order,
    and at the moment the closure of the k-th one runs its response holds
    the answer computed from the map before the k-th entry (for a Get the
    value of the key, the response not marked rejected unless it was). *)
Theorem leader_answers ps es rest x :
  ctx_ok x → Peer.IsLeader (Peer.peer x) = true → cx_props x = ps ++ rest →
  NoDup (Proposal.resp <$> ps) → commits_all (contents (cx_db x)) ps es →
  ∃ x', Peer.ProcessEntries es x = Ok () x' ∧ cx_props x' = rest ∧
    cx_runs x' = cx_runs x ++ dones ps ∧
    ∀ k p e r, ps !! k = Some p → es !! k = Some e →
      Mem.resps (Peer.mem x) !! Proposal.resp p = Some r →
      answered (Proposal.done p) (Proposal.resp p)
        (kv_answer (log_apply (contents (cx_db x)) (take k es)) (decode e) r)
        (Mem.trace (Peer.mem x')).
Proof.
  intros Hok Hl Hq Hnd Hc.
  destruct (leader_answers_all ps es rest x) as (x' & ? & ? & ? & _ & ?); naive_solver.
Qed.

(** ** Committing what was proposed *)

(** What a leader does with a request: the proposal is queued, then raft gets
    the serialized request. *)
Lemma ProposeKvOp_leader req s resp done_ x :
  Peer.IsLeader (Peer.peer x) = true → SerializeToString req = (true, s) →
  Peer.ProposeKvOp req resp done_ x =
    Ok () (with_raft (Propose s (cx_raft x)).2
             (push_proposal (new_proposal x resp done_) x)).
Proof.
  intros Hl Hs. unfold Peer.ProposeKvOp, Peer.raft_Propose. rewrite Hs. simpl.
  do 2 (erewrite bind_Ok by reflexivity). rewrite Hl. simpl.
  by erewrite bind_Ok by reflexivity.
Qed.

Lemma proposed_ok r p x :
  ctx_ok x → is_Some (Mem.resps (Peer.mem x) !! Proposal.resp p) →
  ctx_ok (with_raft r (push_proposal p x)).
Proof.
  intros Hok Hr. split; [|apply Hok|apply Hok].
  change (live (Peer.mem x) (cx_props x ++ [p])). apply live_app.
  split; [apply Hok|by constructor].
Qed.

(** C6 From request to response.  A leader that takes a request whose
    serialization succeeds queues a proposal for it, behind those it has, and
    changes nothing else but the state of raft.  Take any later context [y],
    whatever its database and its raft state and whatever has happened in
    between, in which the peer leads, that proposal is still queued, those
    before it have smaller positions, and its response is as allocated and
    that of none of them; and the entry that raft made of the proposal if it
    accepted it (the term of the proposal time, the next index, the serialized
    request), which holds a Get, a Put or a Del that the database of [y] can
    execute.  Then applying that entry in [y] returns: the closures of the
    proposals before it run, then that of the request, once, with the answer of
    the map in [y] in its response, the map is what the command makes of it,
    and the proposals behind stay. *)
Theorem propose_then_commit `{!KvCodecLaws} req s resp done_ x :
  Peer.IsLeader (Peer.peer x) = true → SerializeToString req = (true, s) →
  let p := new_proposal x resp done_ in
  let e := Entry.mk kEntryNormal (term (cx_raft x)) (u64 (LastIndex (cx_raft x) + 1)) s in
  ∃ x1, Peer.ProposeKvOp req resp done_ x = Ok () x1 ∧
    cx_props x1 = cx_props x ++ [p] ∧ cx_raft x1 = (Propose s (cx_raft x)).2 ∧
    cx_db x1 = cx_db x ∧ Peer.mem x1 = Peer.mem x ∧
    ∀ y qs q2,
      ctx_ok y → Peer.IsLeader (Peer.peer y) = true → cx_props y = qs ++ p :: q2 →
      Forall (λ p', lex_lt (position p') (position p)) qs →
      Mem.resps (Peer.mem y) !! resp = Some KvResp.default → resp ∉ (Proposal.resp <$> qs) →
      answerable req → executable (contents (cx_db y)) req →
      ∃ y2, Peer.ProcessEntry e y = Ok () y2 ∧ cx_props y2 = q2 ∧
        cx_runs y2 = cx_runs y ++ dones qs ++ [done_] ∧
        contents (cx_db y2) = kv_apply (contents (cx_db y)) req ∧
        answered done_ resp (kv_answer (contents (cx_db y)) req KvResp.default)
          (Mem.trace (Peer.mem y2)).
Proof.
  intros Hlead Hs p e. eexists. split; [by apply ProposeKvOp_leader|]. split_and!; try done.
  intros y qs q2 Hok Hly Hq Hqs Hresp Hapart Ha Hex.
  assert (decode e = req) as Hdec.
  { unfold decode, e. simpl. by rewrite (parse_serialize _ _ Hs). }
  destruct (ProcessEntry_answer_behind e qs p q2 y) as (d & _ & Hc & E); try done.
  { split_and!; [done|done|by rewrite Hdec|]. intros _. rewrite Hdec. split; [|done].
    unfold e. simpl. by rewrite (parse_serialize _ _ Hs). }
  rewrite Hdec in E. eexists. split; [exact E|]. split_and!; [done| | |].
  - unfold cx_runs, answer. simpl. by rewrite runs_add_run, runs_rejects, <- app_assoc.
  - change (contents d = kv_apply (contents (cx_db y)) req). rewrite Hc. unfold entry_apply.
    by rewrite decide_True, Hdec.
  - eexists. split; [simpl; apply elem_of_app; right; by left|]. simpl.
    by rewrite lookup_alter_eq, resps_rejects, Hresp.
Qed.
End apply.
