(* ===== verification/PeerQueue.v ===== *)
(** * PeerQueue: the order of the pending proposals

    A peer queues a proposal at the position (term, next index) of the moment,
    while it leads.  The library's promise that this position does not
    decrease from one leader state to a later one makes the queue sorted at
    all times, which is what GetProposal's early exits rely on.  [peer_inv]
    collects everything the operations of a peer preserve. *)
From S2P Require Import Prelude Wire RpcClient Runtime Storage Members Raft Config Proposals.
From S2P Require Import HostClients Peer KvSpec PeerSafety.

Lemma queue_sorted_suffix q q' : q' `suffix_of` q → queue_sorted q → queue_sorted q'.
Proof.
  intros [l ->]. unfold queue_sorted. induction l as [|p l IH]; simpl; [done|].
  intros Hs. apply IH. by inversion Hs.
Qed.

Lemma queue_sorted_snoc q p :
  queue_sorted q → Forall (λ p', lex_le (position p') (position p)) q →
  queue_sorted (q ++ [p]).
Proof.
  unfold queue_sorted. induction 1 as [|p0 q Hs IH Hf]; simpl; intros Hq.
  { repeat constructor. }
  apply Forall_cons in Hq as [H0 Hq]. constructor; [by apply IH|].
  apply Forall_app. split; [done|]. by constructor.
Qed.

Section queue.
Context `{FatalPolicy} `{KvCodec} `{BoostSplit} `{RpcNet} `{RawNodeLaws}.
Context {T : Type} `{KvStoreLaws T}.
Implicit Types (x : Peer.Ctx T) (q : list Proposal.t) (r : raw_node).

(** [p] was made at some earlier moment at which the node led. *)
Definition proposed_by r (p : Proposal.t) : Prop :=
  ∃ r0, raft_le r0 r ∧ Raft.IsLeader r0 = true ∧
        position p = (term r0, u64 (LastIndex r0 + 1)).

Definition queue_ok x : Prop :=
  queue_sorted (cx_props x) ∧ Forall (proposed_by (cx_raft x)) (cx_props x).

Record peer_inv x : Prop := {
  pi_ctx : ctx_ok x;
  pi_members : knows_members x;
  pi_queue : queue_ok x
}.

Lemma proposed_by_le r r' p : raft_le r r' → proposed_by r p → proposed_by r' p.
Proof. intros Hle (r0 & ? & ? & ?). exists r0. split_and!; [by etrans|done..]. Qed.

(** Later proposals of a leader are not before earlier ones. *)
Lemma proposed_by_next r p :
  proposed_by r p → Raft.IsLeader r = true →
  lex_le (position p) (term r, u64 (LastIndex r + 1)).
Proof.
  intros (r0 & Hle & Hl0 & ->) Hl.
  pose proof (LastIndex_bounds r0). pose proof (LastIndex_bounds r).
  rewrite !u64_small by lia.
  destruct (leader_position _ _ Hle Hl0 Hl) as [[= -> ->]|[Ht|[Ht Hi]]];
    simpl in *; [by left|right; by left|right; right; simpl; lia].
Qed.

Lemma queue_ok_callback x x' :
  queue_ok x → cx_props x' `suffix_of` cx_props x → raft_le (cx_raft x) (cx_raft x') →
  queue_ok x'.
Proof.
  intros [Hs Hf] [l Hl] Hle. rewrite Hl in Hs, Hf. split.
  - eapply queue_sorted_suffix; [|exact Hs]. by exists l.
  - apply Forall_app in Hf as [_ Hf]. eapply Forall_impl; [exact Hf|].
    intros p. by apply proposed_by_le.
Qed.

Lemma queue_ok_push x resp done_ :
  queue_ok x → Peer.IsLeader (Peer.peer x) = true →
  queue_ok (push_proposal (new_proposal x resp done_) x).
Proof.
  intros [Hs Hf] Hl.
  assert (position (new_proposal x resp done_) =
            (term (cx_raft x), u64 (LastIndex (cx_raft x) + 1))) as Hp by done.
  split; change (cx_props (push_proposal (new_proposal x resp done_) x))
    with (cx_props x ++ [new_proposal x resp done_]).
  - apply queue_sorted_snoc; [done|]. eapply Forall_impl; [exact Hf|].
    intros p Hpr. rewrite Hp. by apply proposed_by_next.
  - apply Forall_app. split; [done|]. constructor; [|done].
    exists (cx_raft x). split_and!; [reflexivity|done|done].
Qed.

(** ** The invariant and the operations *)

Lemma raft_op_star_members r r' : rtc raft_op r r' → members r' = members r.
Proof. induction 1 as [|r1 r2 r3 Hop _ IH]; [done|]. by rewrite IH, (raft_op_members _ _ Hop). Qed.

Lemma raft_op_star_le r r' : rtc raft_op r r' → raft_le r r'.
Proof.
  induction 1 as [|r1 r2 r3 Hop _ IH]; [reflexivity|].
  etrans; [by apply raft_op_le|done].
Qed.

Lemma tick_raft_star r r' : tick_raft r r' → rtc raft_op r r'.
Proof.
  intros ->. simpl. eapply rtc_l; [constructor|]. destruct (HasReady _); [|reflexivity].
  apply rtc_once. unfold after_ready. apply op_ready.
  by destruct (GetReady (Raft.Tick r)).
Qed.

Lemma peer_inv_callback rr es x x' :
  peer_inv x → callback rr es x x' → rtc raft_op (cx_raft x) (cx_raft x') → peer_inv x'.
Proof.
  intros [Hc Hm Hq] [A B C D E F] Hop. split; [done| |].
  - intros h Hh. rewrite (fr_peers _ _ B). apply Hm. by rewrite <- (raft_op_star_members _ _ Hop).
  - eapply queue_ok_callback; [done|done|by apply raft_op_star_le].
Qed.

Lemma Tick_inv x :
  peer_inv x →
  wp False Peer.Tick
    (λ _ x', peer_inv x' ∧ callback tick_raft (tick_entries (cx_raft x)) x x') (aborted x) x.
Proof.
  intros Hi. eapply wp_mono; [apply Tick_wp; apply Hi| |done].
  intros [] x' Hcb. split; [|done]. eapply peer_inv_callback; [done|exact Hcb|].
  apply tick_raft_star, Hcb.
Qed.

Lemma Step_inv m x :
  peer_inv x →
  wp False (Peer.Step m)
    (λ e x', e = (Raft.Step m (cx_raft x)).1 ∧ peer_inv x' ∧
             callback (λ r r', r' = (Raft.Step m r).2) [] x x') (λ _, False) x.
Proof.
  intros Hi. eapply wp_mono; [by apply Step_wp, Hi| |done].
  intros e x' [He Hcb]. split_and!; [done| |done].
  eapply peer_inv_callback; [done|exact Hcb|].
  rewrite (cb_raft _ _ _ _ Hcb). apply rtc_once. constructor.
Qed.

Lemma ProposeKvOp_inv req resp done_ x :
  peer_inv x → is_Some (Mem.resps (Peer.mem x) !! resp) →
  wp False (Peer.ProposeKvOp req resp done_)
    (λ _ x', peer_inv x' ∧ Peer.clients x' = Peer.clients x ∧ Peer.mem x' = Peer.mem x ∧
             cx_raft x' = (Propose (SerializeToString req).2 (cx_raft x)).2 ∧
             cx_db x' = cx_db x ∧
             Peer.self_ (Peer.peer x') = Peer.self_ (Peer.peer x) ∧
             Peer.worker_ (Peer.peer x') = Peer.worker_ (Peer.peer x) ∧
             Peer.peers_ (Peer.peer x') = Peer.peers_ (Peer.peer x) ∧
             cx_props x' = cx_props x ++
               (if Peer.IsLeader (Peer.peer x) then [new_proposal x resp done_] else []))
    (λ x', x' = x) x.
Proof.
  intros [[Hl Ho Hc] Hm Hq] Hresp.
  eapply wp_mono; [by apply ProposeKvOp_wp| |done]. intros [] x' ->.
  set (r' := (Propose _ _).2). set (x1 := if Peer.IsLeader _ then _ else _).
  assert (raft_op (cx_raft x) r') as Hop by constructor.
  assert (cx_raft x1 = cx_raft x) as Hr1 by (unfold x1; by destruct (Peer.IsLeader _)).
  assert (queue_ok x1) as Hq1.
  { unfold x1. destruct (Peer.IsLeader _) eqn:El; [by apply queue_ok_push|done]. }
  assert (cx_props x1 = cx_props x ++
    (if Peer.IsLeader (Peer.peer x) then [new_proposal x resp done_] else [])) as Hp1.
  { unfold x1. destruct (Peer.IsLeader _); [done|by rewrite app_nil_r]. }
  assert (live (Peer.mem x) (cx_props x1)) as Hl1.
  { rewrite Hp1. apply live_app. split; [done|].
    destruct (Peer.IsLeader _); [by constructor|by constructor]. }
  split; [|by unfold x1; destruct (Peer.IsLeader _); split_and!].
  split.
  - split; simpl; [|by unfold x1; destruct (Peer.IsLeader _)..].
    unfold x1 in *. by destruct (Peer.IsLeader _).
  - intros h Hh. simpl in *. apply knows_members_op in Hop as Hk; [|done].
    specialize (Hk h Hh). unfold x1. by destruct (Peer.IsLeader _).
  - apply (queue_ok_callback x1); [done|done|]. rewrite Hr1. by apply raft_op_le.
Qed.

(** ** Properties *)

(** C17 One timer tick of a peer, from any state of its invariant: it never has
    undefined behaviour (in particular every message goes to a member whose
    address is known, through a connected client); if it returns, the
    invariant holds again, the raft node went through exactly one tick and,
    if it was ready, one round of Ready (entries stored before the messages
    go out and the round is advanced last), the database contents are the
    fold of the abstract machine over the round's committed entries, and no
    closure was invented or run twice; if it aborts, the last still holds. *)
Theorem Tick_correct x :
  peer_inv x →
  wp False Peer.Tick
    (λ _ x', peer_inv x' ∧ callback tick_raft (tick_entries (cx_raft x)) x x') (aborted x) x.
Proof. apply Tick_inv. Qed.

(** [ProposeKvOp] with a live response: raft gets the serialized request
    whatever the role; exactly when the peer leads, a proposal with the
    current term, the next log index, the response and the closure is
    queued behind the others, and the queue stays ordered by position; no
    closure runs, the database and the memory do not change. *)
Theorem ProposeKvOp_correct req resp done_ x :
  peer_inv x → is_Some (Mem.resps (Peer.mem x) !! resp) →
  wp False (Peer.ProposeKvOp req resp done_)
    (λ _ x', peer_inv x' ∧ Peer.mem x' = Peer.mem x ∧ cx_db x' = cx_db x ∧
             cx_raft x' = (Propose (SerializeToString req).2 (cx_raft x)).2 ∧
             cx_props x' = cx_props x ++
               (if Peer.IsLeader (Peer.peer x)
                then [Proposal.mk (u64 (LastIndex (cx_raft x) + 1)) (term (cx_raft x))
                                  resp done_]
                else []))
    (λ x', x' = x) x.
Proof.
  intros Hi Hr. eapply wp_mono; [by apply ProposeKvOp_inv| |done].
  intros [] x' (? & _ & ? & ? & ? & _ & _ & _ & ?). by split_and!.
Qed.
End queue.
