(* ===== verification/Outbox.v ===== *)
(** * Outbox: the messages a peer sends

    The RPCs a host has issued are the events [EvRaftRpc] of its trace.  This
    file shows which they are: the methods that propose, step and apply issue
    none, and a round of Ready issues one per message of the round, in order,
    each for the member the message is addressed to and on a client connected
    to that member's address.  When the process aborts in the round, the
    messages issued are a prefix of them. *)
From S2P Require Import Prelude Wire RpcClient Runtime Storage Members Raft Config Proposals.
From S2P Require Import HostClients Peer KvSpec PeerSafety PeerQueue.

(** An RPC: the client it is sent on and the request. *)
Abbreviation packet := (RpcClient.t * RaftMsgReq.t)%type.

Definition rpc_of (e : Event) : list packet :=
  match e with EvRun _ _ => [] | EvRaftRpc c req _ => [(c, req)] end.
Definition outbox (m : Mem.t) : list packet := Mem.trace m ≫= rpc_of.

Lemma outbox_run h d m : outbox (Mem.add_event (EvRun d h) m) = outbox m.
Proof. unfold outbox. simpl. rewrite bind_app. simpl. by rewrite app_nil_r. Qed.

Lemma outbox_rpc c req k m : outbox (Mem.add_event (EvRaftRpc c req k) m) = outbox m ++ [(c, req)].
Proof. unfold outbox. simpl. by rewrite bind_app. Qed.

(** A packet of the outbox was issued by some call. *)
Lemma elem_of_outbox c req m : (c, req) ∈ outbox m ↔ ∃ k, EvRaftRpc c req k ∈ Mem.trace m.
Proof.
  unfold outbox. rewrite list_elem_of_bind. split.
  - intros ([d h|c' r k] & Hin & He); simpl in Hin; [set_solver|].
    apply list_elem_of_singleton in Hin as [= <- <-]. eauto.
  - intros [k Hk]. exists (EvRaftRpc c req k). set_solver.
Qed.

(** ** Addresses *)

Definition meta_of (g : GroupMember.t) : PeerMeta.t :=
  PeerMeta.mk (GroupMember.host_id g) (GroupMember.peer_id g).
Definition addr_of (g : GroupMember.t) : SockAddress.t :=
  SockAddress.mk (GroupMember.ip g) (GroupMember.port g).

(** A client connected to the member [g], as [SendMsg2Peer] makes one. *)
Definition client_to (g : GroupMember.t) (c : RpcClient.t) : Prop :=
  ∃ w, c = make_client w (addr_of g) 300 "".

Lemma client_to_addr g c : client_to g c → RpcClient.peer_addr c = addr_of g.
Proof. by intros [w ->]. Qed.

(** The packet carries [msg] from [self] to the member it is addressed to, on a
    client connected to that member. *)
Definition carries (self : GroupMember.t) (peers : peers_map) (msg : Message.t)
    (pk : packet) : Prop :=
  ∃ g, peers !! Message.to msg = Some g ∧
       pk.2 = RaftMsgReq.mk (meta_of self) (meta_of g) msg ∧
       client_to g pk.1.

(** Each cached client is connected to the member it is cached for. *)
Definition clients_routed (peers : peers_map) (cm : ClientMgr.t) : Prop :=
  ∀ h c, ClientMgr.rpc_cli_mgr_ cm !! h = Some c →
    ∃ g, peers !! h = Some g ∧ client_to g c.

Section outbox.
Context `{FatalPolicy} `{KvCodec} `{BoostSplit} `{RpcNet} `{RawNodeLaws}.
Context {T : Type} `{KvStoreLaws T}.
Implicit Types (x : Peer.Ctx T).

Definition self_of_ctx x : GroupMember.t := Peer.self_ (Peer.peer x).
Definition table_of_ctx x : peers_map := Peer.peers_ (Peer.peer x).

(** What sending depends on and changes. *)
Record links : Type := Links {
  l_self : GroupMember.t; l_peers : peers_map; l_clients : ClientMgr.t; l_outbox : list packet
}.
Definition links_of x : links :=
  Links (self_of_ctx x) (table_of_ctx x) (Peer.clients x) (outbox (Peer.mem x)).

(** ** The methods that send nothing *)

Lemma keeps_write_resp p f : keeps outbox (write_resp p f).
Proof. intros m. unfold write_resp. by destruct (_ !! _). Qed.

Lemma keeps_Run d : keeps outbox (Run d).
Proof. apply keeps_modify. intros m. apply outbox_run. Qed.

Lemma keeps_in_mem {A} (m : M Mem.t A) : keeps outbox m → keeps links_of (Peer.in_mem m).
Proof.
  intros Hm. eapply keeps_zoom; [exact Hm|]. intros x t Ht. unfold links_of.
  simpl. by rewrite Ht.
Qed.

Lemma keeps_in_db {A} (m : M T A) : keeps links_of (Peer.in_db m).
Proof. eapply (keeps_zoom _ _ _ (λ _, ())); [by intros s; destruct (m s)|done]. Qed.

Lemma keeps_in_queue {A} (m : M Queue.t A) :
  keeps (λ q, outbox (Queue.mem q)) m → keeps links_of (Peer.in_queue m).
Proof.
  intros Hm. eapply keeps_zoom; [exact Hm|]. intros x t Ht. simpl in Ht.
  unfold links_of. simpl. by rewrite Ht.
Qed.

Lemma keeps_get_peer : keeps links_of (Peer.get_peer (T := T)).
Proof. done. Qed.

Lemma keeps_set_raft r : keeps links_of (Peer.set_raft (T := T) r).
Proof. by apply keeps_modify. Qed.

#[local] Hint Resolve keeps_write_resp keeps_Run keeps_in_mem keeps_in_db keeps_in_queue
  keeps_get_peer keeps_set_raft : keeps.

Lemma keeps_reject p : keeps (λ q, outbox (Queue.mem q)) (reject p).
Proof.
  unfold reject. apply keeps_bind; [|intros _];
    (eapply keeps_zoom; [|by intros q t Ht]); auto with keeps.
Qed.

Lemma keeps_pop_front : keeps (λ q, outbox (Queue.mem q)) pop_front.
Proof. by apply keeps_modify. Qed.

#[local] Hint Resolve keeps_reject keeps_pop_front : keeps.

Lemma keeps_GetProposal_loop fuel i t :
  keeps (λ q, outbox (Queue.mem q)) (GetProposal_loop fuel i t).
Proof.
  induction fuel as [|fuel IH]; [done|]. simpl. apply keeps_bind; [done|]. intros q.
  destruct (Queue.proposals_ q); [auto with keeps|].
  repeat case_match; auto 10 with keeps.
Qed.

Lemma keeps_GetProposal i t : keeps (λ q, outbox (Queue.mem q)) (GetProposal i t).
Proof. apply keeps_bind; [done|]. intros q. apply keeps_GetProposal_loop. Qed.

Lemma keeps_CallbackAll : keeps (λ q, outbox (Queue.mem q)) CallbackAll.
Proof.
  apply keeps_bind; [done|]. intros q. apply keeps_bind; [auto with keeps|].
  intros _. by apply keeps_modify.
Qed.

#[local] Hint Resolve keeps_GetProposal keeps_CallbackAll : keeps.

Lemma keeps_ProcessNormal e p : keeps links_of (Peer.ProcessNormal (T := T) e p).
Proof.
  unfold Peer.ProcessNormal, Peer.run_done. destruct (ParseFromString _) as [ok req].
  apply keeps_bind; [auto with keeps|]. intros _.
  destruct (KvReq.cmd_type req), p; auto 10 with keeps.
Qed.

(** Applying entries sends nothing and connects to no one. *)
Lemma keeps_ProcessEntries es : keeps links_of (Peer.ProcessEntries (T := T) es).
Proof.
  apply keeps_for_each. intros e. unfold Peer.ProcessEntry, Peer.ProcessConfChange.
  apply keeps_bind; [auto with keeps|]. intros self. apply keeps_bind.
  - destruct (Peer.IsLeader self); auto 10 with keeps.
  - intros p. case_decide; [apply keeps_ProcessNormal|auto with keeps].
Qed.

(** Neither do proposing and stepping. *)
Lemma keeps_ProposeKvOp req resp d : keeps links_of (Peer.ProposeKvOp (T := T) req resp d).
Proof.
  unfold Peer.ProposeKvOp, Peer.raft_Propose. destruct (SerializeToString req) as [ok s].
  repeat (apply keeps_bind; [|intros ?]); auto with keeps.
Qed.

Lemma keeps_Step m : keeps links_of (Peer.Step (T := T) m).
Proof.
  unfold Peer.Step. apply keeps_bind; [auto with keeps|]. intros p.
  destruct (Raft.Step m _). apply keeps_bind; auto with keeps.
Qed.

(** ** Sending *)

Lemma GetClient_routed peers h g w create cm :
  clients_routed peers cm → peers !! h = Some g →
  wp True (GetClient h w (addr_of g) 300 "" create)
    (λ c cm', clients_routed peers cm' ∧
              ∀ cl, c = Some cl → client_to g cl)
    (clients_routed peers) cm.
Proof.
  intros Hcm Hg. unfold GetClient. do 2 wp_step.
  destruct (ClientMgr.rpc_cli_mgr_ cm !! h) as [c|] eqn:Ec.
  { wp_step. split; [done|]. intros cl [= <-]. destruct (Hcm _ _ Ec) as (g' & Hg' & ?).
    congruence. }
  destruct create; simpl; [|by wp_step]. wp_step. unfold wp at 1, connect. simpl.
  wp_steps; [done|..].
  all: split; [|intros cl [= <-]; by exists w].
  all: intros h' c'; simpl; rewrite lookup_insert_Some; intros [[<- <-]|[_ Hc]];
    [exists g; split; [done|by exists w]|].
  all: by apply Hcm.
Qed.

(** The context may send: its clients lead where the table says. *)
Definition routed x : Prop := clients_routed (table_of_ctx x) (Peer.clients x).

(** [x'] has issued the packets for [ms] since [x]. *)
Definition sent_since x (ms : list Message.t) x' : Prop :=
  self_of_ctx x' = self_of_ctx x ∧ table_of_ctx x' = table_of_ctx x ∧ routed x' ∧
  ∃ pks, outbox (Peer.mem x') = outbox (Peer.mem x) ++ pks ∧
         Forall2 (carries (self_of_ctx x) (table_of_ctx x)) ms pks.

Lemma sent_since_nil x : routed x → sent_since x [] x.
Proof. intros Hr. split_and!; [done..|]. exists []. by rewrite app_nil_r. Qed.

Lemma sent_since_app x ms1 x1 ms2 x2 :
  sent_since x ms1 x1 → sent_since x1 ms2 x2 → sent_since x (ms1 ++ ms2) x2.
Proof.
  intros (S1 & T1 & _ & pks1 & O1 & F1) (S2 & T2 & R2 & pks2 & O2 & F2).
  split_and!; [congruence..|done|]. exists (pks1 ++ pks2). rewrite O2, O1, <- app_assoc.
  split; [done|]. apply Forall2_app; [done|]. by rewrite S1, T1 in F2.
Qed.

Lemma sent_since_links x ms x1 x2 : sent_since x ms x1 → links_of x2 = links_of x1 →
  sent_since x ms x2.
Proof.
  intros (S1 & T1 & R1 & pks & O1 & F1) [= S2 T2 C2 O2]. unfold sent_since, routed in *.
  rewrite S2, T2, C2, O2. eauto 10.
Qed.

Lemma SendMsg2Peer_sends msg x : routed x →
  wp True (Peer.SendMsg2Peer msg) (λ _ x', sent_since x [msg] x') (sent_since x []) x.
Proof.
  intros Hr. unfold Peer.SendMsg2Peer. do 2 peer_step.
  destruct (Peer.peers_ (Peer.peer x) !! Message.to msg) as [g|] eqn:Hg; [|done].
  do 2 peer_step. eapply wp_mono; [by apply GetClient_routed| |].
  2: { intros cm Hcm. split_and!; [done..|]. exists []. by rewrite app_nil_r. }
  intros [cl|] cm [Hcm Hclient]; simpl; [|done]. do 2 peer_step.
  unfold wp at 1, new_call. simpl. do 2 peer_step.
  split_and!; [done..|]. eexists. split; [unfold outbox; simpl; by rewrite bind_app|].
  constructor; [|constructor]. exists g. split_and!; [done..|]. by apply Hclient.
Qed.

(** When the process aborts in the middle, what was sent is a prefix. *)
Definition sent_prefix x (ms : list Message.t) x' : Prop := ∃ k, sent_since x (take k ms) x'.

Lemma SendMsgs_sends ms x : routed x →
  wp True (Peer.SendMsgs ms) (λ _ x', sent_since x ms x') (sent_prefix x ms) x.
Proof.
  unfold Peer.SendMsgs. revert x. induction ms as [|msg ms IH]; intros x Hr; simpl.
  { apply wp_ret. by apply sent_since_nil. }
  wp_step. eapply wp_mono; [by apply SendMsg2Peer_sends| |].
  2: { intros x' Hx'. by exists 0%nat. }
  intros [] x1 H1'. eapply wp_mono; [by apply IH, H1'| |].
  - intros [] x2 H2'. by apply (sent_since_app x [msg] x1).
  - intros x2 [k H2']. exists (S k). by apply (sent_since_app x [msg] x1).
Qed.

(** ** A round of Ready and a tick *)

(** The messages of the round a node has ready. *)
Definition ready_messages (r : raw_node) : list Message.t :=
  if HasReady r then messages (GetReady r).1 else [].

Lemma HandleRaftReady_sends x :
  ctx_ok x → knows_members x → routed x →
  wp False Peer.HandleRaftReady (λ _ x', sent_since x (ready_messages (cx_raft x)) x')
    (sent_prefix x (ready_messages (cx_raft x))) x.
Proof.
  intros Hok Hkm Hr. unfold ready_messages.
  apply HandleRaftReady_stages; [intros ->; by apply sent_since_nil|]. intros rd r1 -> Erd.
  rewrite Erd. set (r2 := if bool_decide _ then _ else _). simpl.
  eapply wp_mono; [apply wp_and; [apply SendMsgs_wp|by apply SendMsgs_sends]| |].
  - by apply with_raft_ok.
  - intros m Hm. apply Hkm. by eapply ready_to_members.
  - intros [] x2 [(Hok2 & _) Hs].
    eapply wp_mono; [apply (wp_keeps links_of); [by apply ProcessEntries_wp|
      apply keeps_ProcessEntries]| |].
    + intros [] x3 [_ Hl]. eapply sent_since_links; [exact Hs|exact Hl].
    + intros x3 [_ Hl]. exists (length (messages rd)). rewrite firstn_all.
      eapply sent_since_links; [exact Hs|exact Hl].
  - intros x' [_ Hs]. exact Hs.
Qed.

Definition tick_messages (r : raw_node) : list Message.t := ready_messages (Raft.Tick r).

Lemma Tick_sends_wp x :
  ctx_ok x → knows_members x → routed x →
  wp False Peer.Tick (λ _ x', sent_since x (tick_messages (cx_raft x)) x')
    (sent_prefix x (tick_messages (cx_raft x))) x.
Proof.
  intros Hok Hkm Hr. unfold Peer.Tick. do 4 peer_step. fold (cx_raft x).
  fold (with_raft (Raft.Tick (cx_raft x)) x).
  refine (HandleRaftReady_sends (with_raft (Raft.Tick (cx_raft x)) x) _ _ _);
    [by apply with_raft_ok| |exact Hr].
  apply knows_members_op; [done|constructor].
Qed.

(** C18 One timer tick sends exactly the messages of the round of Ready it
    handles, in their order: for each of them one RPC, whose request carries
    the message from this peer to the member it is addressed to, on a client
    connected to that member's address in the member list.  If the process
    aborts in the tick, what was sent is a prefix of it.  Nothing else that is
    done in a tick, in particular applying entries and answering clients,
    sends a message. *)
Theorem Tick_sends x :
  peer_inv x → clients_routed (Peer.peers_ (Peer.peer x)) (Peer.clients x) →
  let sent ms x' := ∃ pks, outbox (Peer.mem x') = outbox (Peer.mem x) ++ pks ∧
    Forall2 (carries (Peer.self_ (Peer.peer x)) (Peer.peers_ (Peer.peer x))) ms pks in
  wp False Peer.Tick
    (λ _ x', sent (tick_messages (cx_raft x)) x')
    (λ x', ∃ k, sent (take k (tick_messages (cx_raft x))) x') x.
Proof.
  intros [Hok Hkm _] Hr. eapply wp_mono; [by apply Tick_sends_wp| |].
  - intros [] x' (_ & _ & _ & Hs). exact Hs.
  - intros x' (k & _ & _ & _ & Hs). by exists k.
Qed.
End outbox.
