(* ===== verification/Answers.v ===== *)
(** * Answers: what the clients of a peer are told

    Every closure a peer runs sends a response that is marked rejected, or that
    holds the answer of the abstract machine to the committed entry at the
    position of the proposal.  [settled] says so of the events an operation
    adds to the trace, also when the process aborts in it; [waiting] is what
    the responses of pending proposals have to satisfy for it: they are
    distinct, from each other and from some others that the peer does not know
    of, and as the RPC server allocated them. *)
From S2P Require Import Prelude Wire RpcClient Runtime Storage Members Raft Config Proposals.
From S2P Require Import HostClients Peer KvSpec PeerSafety PeerQueue.

Definition waiting (m : Mem.t) (rs : list RespPtr) (q : list Proposal.t) : Prop :=
  NoDup ((Proposal.resp <$> q) ++ rs) ∧
  Forall (λ a, Mem.resps m !! a = Some KvResp.default) ((Proposal.resp <$> q) ++ rs).

Section verdict.
Context `{KvCodec}.
Implicit Types (m : kv_map) (es : list Entry.t) (q : list Proposal.t).

(** The response [r] to the proposal at [pos]: rejected, or the answer to the
    Get, Put or Del in the entry of [es] at that position, where [es] is applied
    from the map [m]. *)
Definition verdict m es (pos : Z * Z) (r : KvResp.t) : Prop :=
  KvResp.rejected r = true ∨
  ∃ k e, es !! k = Some e ∧ pos = (Entry.term e, Entry.index e) ∧
         Entry.type e = kEntryNormal ∧ answerable (decode e) ∧
         r = kv_answer (log_apply m (take k es)) (decode e) KvResp.default.

(** An event that, if it is an answer, answers a proposal of [q] so. *)
Definition event_settled m es q (ev : Event) : Prop :=
  match ev with
  | EvRun d h => ∃ p r, p ∈ q ∧ d = Proposal.done p ∧ h !! Proposal.resp p = Some r ∧
                        verdict m es (position p) r
  | EvRaftRpc _ _ _ => True
  end.

Definition settled m es q (tr tr' : list Event) : Prop :=
  ∃ evs, tr' = tr ++ evs ∧ Forall (event_settled m es q) evs.

Lemma verdict_app m es es' pos r : verdict m es pos r → verdict m (es ++ es') pos r.
Proof.
  intros [?|(k & e & Hk & Hpos & Ht & Han & ->)]; [by left|right]. exists k, e.
  rewrite (lookup_app_l_Some _ _ _ _ Hk), take_app_le
    by (apply lookup_lt_Some in Hk; lia). by split_and!.
Qed.

Lemma verdict_after m es1 es pos r :
  verdict (log_apply m es1) es pos r → verdict m (es1 ++ es) pos r.
Proof.
  intros [?|(k & e & Hk & Hpos & Ht & Han & ->)]; [by left|right]. exists (length es1 + k)%nat, e.
  rewrite lookup_app_r, take_app_ge by lia.
  replace (length es1 + k - length es1)%nat with k by lia.
  rewrite log_apply_app. by split_and!.
Qed.

Lemma settled_nil m es q tr : settled m es q tr tr.
Proof. exists []. by rewrite app_nil_r. Qed.

Lemma settled_trans m es1 es2 q1 q2 tr1 tr2 tr3 :
  settled m es1 q1 tr1 tr2 → settled (log_apply m es1) es2 q2 tr2 tr3 → q2 ⊆ q1 →
  settled m (es1 ++ es2) q1 tr1 tr3.
Proof.
  intros (evs1 & -> & F1) (evs2 & -> & F2) Hq. exists (evs1 ++ evs2).
  rewrite <- app_assoc. split; [done|]. apply Forall_app. split.
  - eapply Forall_impl; [exact F1|]. intros [d h|c rq k]; [|done].
    intros (p & r & ? & ? & ? & ?). exists p, r. split_and!; [done..|]. by apply verdict_app.
  - eapply Forall_impl; [exact F2|]. intros [d h|c rq k]; [|done].
    intros (p & r & ? & ? & ? & ?). exists p, r.
    split_and!; [by apply Hq|done..|]. by apply verdict_after.
Qed.

Lemma settled_same m es q1 q2 tr1 tr2 tr3 :
  settled m [] q1 tr1 tr2 → settled m es q2 tr2 tr3 → q2 ⊆ q1 → settled m es q1 tr1 tr3.
Proof. intros H12 H23 Hq. by apply (settled_trans m [] es q1 q2 tr1 tr2 tr3). Qed.
Lemma settled_later m es1 es2 q tr tr' : settled m es1 q tr tr' → settled m (es1 ++ es2) q tr tr'.
Proof.
  intros Hs. eapply settled_trans; [exact Hs|apply settled_nil|done].
Qed.
End verdict.

Section waiting.
Implicit Types (m : Mem.t) (q : list Proposal.t) (rs : list RespPtr).

Lemma waiting_suffix m rs q q' : q' `suffix_of` q → waiting m rs q → waiting m rs q'.
Proof.
  intros [l ->] [Hnd Hf]. rewrite fmap_app, <- app_assoc in Hnd, Hf.
  apply NoDup_app in Hnd as (_ & _ & Hnd). apply Forall_app in Hf as [_ Hf]. by split.
Qed.

Lemma waiting_resps m m' rs q :
  Mem.resps m' = Mem.resps m → waiting m rs q → waiting m' rs q.
Proof. unfold waiting. by intros ->. Qed.

Lemma waiting_head m rs p q :
  waiting m rs (p :: q) → Mem.resps m !! Proposal.resp p = Some KvResp.default.
Proof. by intros [_ [? _]%Forall_cons]. Qed.

(** A write to a response other than those waiting. *)
Lemma waiting_write m m' rs q p :
  (∀ r, r ≠ Proposal.resp p → Mem.resps m' !! r = Mem.resps m !! r) →
  waiting m rs (p :: q) → waiting m' rs q.
Proof.
  intros Hm [Hnd Hf]. apply NoDup_cons in Hnd as [Hnot Hnd].
  apply Forall_cons in Hf as [_ Hf]. split; [done|].
  apply Forall_forall. intros a Hin. rewrite Hm; [by apply (proj1 (Forall_forall _ _) Hf)|].
  by intros ->.
Qed.

Lemma waiting_live m rs q : waiting m rs q → live m q.
Proof.
  intros [_ [Hf _]%Forall_app]. apply Forall_fmap in Hf.
  eapply Forall_impl; [exact Hf|]. simpl. intros p ->. by eexists.
Qed.

Context `{KvCodec}.

(** Rejecting some of them. *)
Lemma rejects_settled kv es qq rs ps q m :
  waiting m rs (ps ++ q) → ps ⊆ qq →
  settled kv es qq (Mem.trace m) (Mem.trace (foldl rejected_mem m ps)) ∧
  waiting (foldl rejected_mem m ps) rs q.
Proof.
  revert m. induction ps as [|p ps IH]; intros m Hw Hqq; simpl; [split; [apply settled_nil|done]|].
  assert (waiting (rejected_mem m p) rs (ps ++ q)) as Hw'.
  { eapply waiting_write; [|exact Hw]. intros r Hr. simpl. by apply lookup_alter_ne. }
  destruct (IH _ Hw') as [(evs & Htr & Hevs) Hwq]; [by intros p' ?; apply Hqq; right|].
  split; [|done].
  rewrite Htr. simpl. eexists. rewrite <- app_assoc. split; [done|]. constructor; [|exact Hevs].
  exists p, (KvResp.set_rejected true KvResp.default). split_and!; [apply Hqq; by left|done| |by left].
  rewrite lookup_alter_eq. by rewrite (waiting_head _ _ _ _ Hw).
Qed.
End waiting.

Section answers.
Context `{FatalPolicy} `{KvCodec} `{BoostSplit} `{RpcNet} `{RawNodeLaws}.
Context {T : Type} `{KvStoreLaws T}.
Implicit Types (x : Peer.Ctx T) (es : list Entry.t) (rs : list RespPtr).

Definition cx_trace x : list Event := Mem.trace (Peer.mem x).
Definition cx_waiting (rs : list RespPtr) x : Prop := waiting (Peer.mem x) rs (cx_props x).

(** ** One entry *)

(** The proposals before an entry are rejected. *)
Lemma take_waiting_wp rs kv i t x :
  ctx_ok x → cx_waiting rs x →
  wp False (if Peer.IsLeader (Peer.peer x) then Peer.in_queue (GetProposal i t)
            else Peer.in_queue CallbackAll ;; mret None)
    (λ p x1, waiting (Peer.mem x1) rs (option_list p ++ cx_props x1) ∧
       option_list p ++ cx_props x1 ⊆ cx_props x ∧
       settled kv [] (cx_props x) (cx_trace x) (cx_trace x1)) (λ _, False) x.
Proof.
  intros Hok Hw. pose proof (ok_live _ Hok) as Hl. destruct (Peer.IsLeader (Peer.peer x)).
  - peer_step. unfold wp. rewrite GetProposal_eq by done. simpl. fold (cx_props x).
    set (pos := (_, _)). pose proof (matched_partition pos (cx_props x)) as Hpart.
    unfold cx_waiting in Hw. rewrite Hpart in Hw.
    assert (overtaken pos (cx_props x) ⊆ cx_props x) as Hsub.
    { intros p Hp. rewrite Hpart. by apply elem_of_app; left. }
    destruct (rejects_settled kv [] (cx_props x) _ _ _ _ Hw Hsub) as [Hset Hwait].
    split_and!; [exact Hwait| |exact Hset].
    intros p Hp. rewrite Hpart. by apply elem_of_app; right.
  - do 2 peer_step. unfold wp at 1. rewrite CallbackAll_eq by done. simpl. apply wp_ret.
    fold (cx_props x).
    destruct (rejects_settled kv [] (cx_props x) rs (cx_props x) [] (Peer.mem x))
      as [Hset Hwait]; [unfold cx_waiting in Hw; by rewrite app_nil_r|done|].
    split_and!; [exact Hwait|apply list_subseteq_nil|exact Hset].
Qed.

(** The proposal taken for an entry; the others before it are rejected. *)
Lemma take_proposal_settled rs kv e x :
  ctx_ok x → cx_waiting rs x →
  wp False (if Peer.IsLeader (Peer.peer x)
            then Peer.in_queue (GetProposal (Entry.index e) (Entry.term e))
            else Peer.in_queue CallbackAll ;; mret None)
    (λ p x1, ctx_ok x1 ∧ waiting (Peer.mem x1) rs (option_list p ++ cx_props x1) ∧
       option_list p ++ cx_props x1 ⊆ cx_props x ∧ cx_db x1 = cx_db x ∧
       (∀ pr, p = Some pr → position pr = (Entry.term e, Entry.index e)) ∧
       settled kv [] (cx_props x) (cx_trace x) (cx_trace x1))
    (λ _, False) x.
Proof.
  intros Hok Hw. eapply wp_mono;
    [apply wp_and; [by apply take_proposal_wp|by apply wp_defined, (take_waiting_wp rs kv)]| |].
  - intros p x1 [(Hok1 & _ & _ & Hdb & _ & Hpos & _) (? & ? & ?)]. split_and!; [done..| |done].
    intros pr Hpr. by apply Hpos.
  - by intros x1 [[] _].
Qed.

(** What an operation that leaves the queue alone does to the trace. *)
Definition answered_by kv e rs x (p : option Proposal.t) x' : Prop :=
  waiting (Peer.mem x') rs (cx_props x') ∧ cx_props x' = cx_props x ∧
  settled kv [e] (option_list p ++ cx_props x) (cx_trace x) (cx_trace x').

Lemma answered_by_idle rs kv e p x x1 :
  waiting (Peer.mem x) rs (option_list p ++ cx_props x) → cx_props x1 = cx_props x →
  Peer.mem x1 = Peer.mem x → answered_by kv e rs x p x1.
Proof.
  intros Hw Hq Hm. unfold answered_by, cx_trace. rewrite Hq, Hm.
  split_and!; [|done|apply settled_nil]. eapply waiting_suffix; [|exact Hw]. by eexists.
Qed.

(** Running the closure of a proposal whose response is [r]. *)
Lemma run_answer rs kv e p x x1 r :
  waiting (Peer.mem x) rs (p :: cx_props x) → cx_props x1 = cx_props x →
  Mem.trace (Peer.mem x1) = Mem.trace (Peer.mem x) →
  (∀ a, a ≠ Proposal.resp p →
        Mem.resps (Peer.mem x1) !! a = Mem.resps (Peer.mem x) !! a) →
  Mem.resps (Peer.mem x1) !! Proposal.resp p = Some r → verdict kv [e] (position p) r →
  wp False (Peer.in_mem (Run (Proposal.done p)))
    (λ _ x', answered_by kv e rs x (Some p) x') (λ _, False) x1.
Proof.
  intros Hw Hq Htr Hrs Hr Hv. apply wp_zoom, wp_Run. split_and!.
  - simpl. change (cx_props (Peer.mk_ctx _ _ _)) with (cx_props x1). rewrite Hq.
    by eapply waiting_write.
  - done.
  - eexists. split; [unfold cx_trace; simpl; by rewrite Htr|]. constructor; [|constructor].
    exists p, r. split_and!; [set_solver|done..].
Qed.

Lemma run_done_answer rs kv e p x x1 :
  waiting (Peer.mem x) rs (option_list p ++ cx_props x) → cx_props x1 = cx_props x →
  Peer.mem x1 = Peer.mem x →
  (∀ pr, p = Some pr → verdict kv [e] (position pr) KvResp.default) →
  wp False (Peer.run_done p) (λ _ x', answered_by kv e rs x p x') (λ _, False) x1.
Proof.
  intros Hw Hq Hm Hv. destruct p as [p|]; simpl in *.
  - eapply run_answer; [done..|by rewrite Hm|by rewrite Hm| |by apply Hv].
    rewrite Hm. by eapply waiting_head.
  - peer_step. by apply answered_by_idle.
Qed.

Lemma verdict_entry kv e pos :
  Entry.type e = kEntryNormal → answerable (decode e) → pos = (Entry.term e, Entry.index e) →
  verdict kv [e] pos (kv_answer kv (decode e) KvResp.default).
Proof. intros Ht Han Hpos. right. exists 0%nat, e. by split_and!. Qed.

(** Executing the entry's command. *)
Lemma ProcessNormal_answers rs e p x :
  ctx_ok x → waiting (Peer.mem x) rs (option_list p ++ cx_props x) →
  Entry.type e = kEntryNormal →
  (∀ pr, p = Some pr → position pr = (Entry.term e, Entry.index e)) →
  wp False (Peer.ProcessNormal e p)
    (λ _ x', answered_by (contents (cx_db x)) e rs x p x')
    (λ x', cx_trace x' = cx_trace x) x.
Proof.
  intros Hok Hw Ht Hpos. pose proof (verdict_entry (contents (cx_db x)) e) as Hv.
  assert (∀ pr, p = Some pr → KvReq.cmd_type (decode e) = kPut ∨ KvReq.cmd_type (decode e) = kDel →
    verdict (contents (cx_db x)) [e] (position pr) KvResp.default) as Hv0.
  { intros pr Hpr Hk. specialize (Hv _ Ht (or_intror Hk) (Hpos _ Hpr)). unfold kv_answer in Hv.
    by destruct Hk as [Hk|Hk]; rewrite Hk in Hv. }
  unfold Peer.ProcessNormal, decode in *. destruct (ParseFromString (Entry.data e)) as [ok req].
  simpl in *. peer_step.
  eapply (wp_mono _ _ (λ _ x', x' = x) _ (λ x', cx_trace x' = cx_trace x));
    [|intros [] ? ->|done].
  { peer_step; [peer_step|]; done. }
  destruct (KvReq.cmd_type req) eqn:Ec; simpl.
  - peer_step. by apply answered_by_idle.
  - do 2 peer_step. eapply wp_mono; [apply store_get_wp, Hok|..|by intros d _].
    intros val d [-> Hval]. destruct p as [p|]; [|peer_step].
    + do 2 peer_step. pose proof (waiting_head _ _ _ _ Hw) as Hr.
      apply wp_write_resp; [by rewrite Hr|]. intros r Hr'. rewrite Hr in Hr'.
      injection Hr' as <-. eapply wp_mono; [eapply (run_answer rs (contents (cx_db x)) e p x)| |].
      * exact Hw.
      * done.
      * done.
      * intros a Ha. simpl. by rewrite lookup_insert_ne.
      * simpl. by rewrite lookup_insert_eq.
      * specialize (Hv _ Ht (or_introl Ec) (Hpos _ eq_refl)). unfold kv_answer in Hv.
        rewrite Ec in Hv.
        fold (cx_db x) in Hval. by rewrite Hval in Hv.
      * done.
      * done.
    + by apply answered_by_idle.
  - do 2 peer_step. eapply wp_mono; [apply store_put_wp, Hok|..|done].
    intros [] d _. eapply wp_mono; [eapply (run_done_answer rs (contents (cx_db x)) e p x)| |]; try done.
    intros pr Hpr. apply Hv0; auto.
  - do 2 peer_step. eapply wp_mono; [apply store_del_wp, Hok|..|done].
    intros [] d _. eapply wp_mono; [eapply (run_done_answer rs (contents (cx_db x)) e p x)| |]; try done.
    intros pr Hpr. apply Hv0; auto.
  - peer_step; [done|]. by apply answered_by_idle.
Qed.

(** The trace when an operation aborts. *)
Definition cx_settled es x x' : Prop :=
  settled (contents (cx_db x)) es (cx_props x) (cx_trace x) (cx_trace x').

Lemma ProcessEntry_answers rs e x :
  ctx_ok x → cx_waiting rs x →
  wp False (Peer.ProcessEntry e) (λ _ x', cx_waiting rs x' ∧ cx_settled [e] x x')
    (cx_settled [e] x) x.
Proof.
  intros Hok Hw. unfold Peer.ProcessEntry. do 3 peer_step.
  eapply wp_mono; [by apply (take_proposal_settled rs (contents (cx_db x)))| |by intros ? []].
  intros p x1 (Hok1 & Hw1 & Hsub & Hdb & Hpos & Hset).
  assert (cx_settled [e] x x1) as Hset1 by by apply (settled_later _ [] [e]).
  case_decide as Ht.
  - eapply wp_mono; [by apply ProcessNormal_answers| |].
    + intros [] x2 (Hw2 & Hq2 & Hset2). rewrite Hdb in Hset2. split; [done|].
      eapply settled_same; [exact Hset|exact Hset2|done].
    + intros x2 Htr. unfold cx_settled. by rewrite Htr.
  - apply wp_ret. split; [|done]. eapply waiting_suffix; [|exact Hw1]. by eexists.
Qed.

Lemma ProcessEntries_answers rs es x :
  ctx_ok x → cx_waiting rs x →
  wp False (Peer.ProcessEntries es) (λ _ x', cx_waiting rs x' ∧ cx_settled es x x')
    (cx_settled es x) x.
Proof.
  unfold Peer.ProcessEntries. revert x. induction es as [|e es IH]; intros x Hok Hw; simpl.
  { apply wp_ret. split; [done|apply settled_nil]. }
  apply wp_bind. eapply wp_mono; [apply wp_and; [by apply ProcessEntry_wp|
    by apply wp_defined, ProcessEntry_answers]| |].
  - intros [] x1 [Hes (Hw1 & Hset1)].
    assert (∀ x2, cx_settled es x1 x2 → cx_settled (e :: es) x x2) as Htr.
    { intros x2 Hset2. eapply (settled_trans _ [e]); [exact Hset1| |].
      - unfold cx_settled in Hset2. by rewrite (es_contents _ _ _ Hes) in Hset2.
      - destruct (es_props _ _ _ Hes) as [l ->]. set_solver. }
    eapply wp_mono; [by apply IH; [apply Hes|]|..|exact Htr].
    intros [] x2 [Hw2 Hset2]. split; [done|by apply Htr].
  - intros x1 [_ Hset1]. by apply (settled_later _ [e] es).
Qed.

(** ** A tick *)

(** Sending changes neither the responses nor the queue, and runs nothing. *)
Definition only_sends x x' : Prop :=
  Peer.peer x' = Peer.peer x ∧ Mem.resps (Peer.mem x') = Mem.resps (Peer.mem x) ∧
  ∀ kv es q, settled kv es q (cx_trace x) (cx_trace x').

#[export] Instance only_sends_preorder : PreOrder only_sends.
Proof.
  split.
  - intros x. split_and!; [done..|]. intros. apply settled_nil.
  - intros x1 x2 x3 (A1 & B1 & C1) (A2 & B2 & C2). split_and!; [congruence..|].
    intros kv es q. by eapply (settled_same _ _ q).
Qed.

Lemma SendMsg2Peer_moves m : moves only_sends (Peer.SendMsg2Peer (T := T) m).
Proof.
  unfold Peer.SendMsg2Peer. apply (moves_bind only_sends); [intros x; simpl; reflexivity|].
  intros self.
  destruct (_ !! _) as [g|]; [|done]. apply (moves_bind only_sends).
  { intros x. unfold Peer.in_clients, zoom. destruct (GetClient _ _ _ _ _ _ _); try done.
    all: split_and!; [done..|]; intros; apply settled_nil. }
  intros [c|]; [|done]. apply (moves_bind only_sends).
  { intros x. split_and!; [done..|]. intros. apply settled_nil. }
  intros k x. split_and!; [done..|]. intros kv es q. eexists. split; [done|]. by repeat constructor.
Qed.

Lemma SendMsgs_moves ms : moves only_sends (Peer.SendMsgs (T := T) ms).
Proof. apply (moves_for_each only_sends), SendMsg2Peer_moves. Qed.

Lemma HandleRaftReady_answers rs x es :
  ctx_ok x → knows_members x → cx_waiting rs x →
  es = (if HasReady (cx_raft x) then committed_entries (GetReady (cx_raft x)).1 else []) →
  wp False Peer.HandleRaftReady (λ _ x', cx_waiting rs x' ∧ cx_settled es x x')
    (cx_settled es x) x.
Proof.
  intros Hok Hkm Hw ->.
  apply HandleRaftReady_stages; [intros ->; split; [done|apply settled_nil]|].
  intros rd r1 -> Erd. rewrite Erd. set (r2 := if bool_decide _ then _ else _). simpl.
  eapply wp_mono; [apply (wp_moves only_sends); [apply SendMsgs_wp|apply SendMsgs_moves]| |].
  - by apply with_raft_ok.
  - intros m Hm. apply Hkm. by eapply ready_to_members.
  - intros [] x2 [(Hok2 & _) (Hp & Hm & Hs)].
    assert (cx_props x2 = cx_props x) as Hq by (unfold cx_props; by rewrite Hp).
    assert (∀ es x3, cx_settled es x2 x3 → cx_settled es x x3) as Htr.
    { intros es x3. unfold cx_settled, cx_db. rewrite Hp, Hq. intros Hset.
      eapply settled_same; [apply Hs|exact Hset|done]. }
    eapply wp_mono; [apply ProcessEntries_answers; [done|]|..].
    + unfold cx_waiting. rewrite Hq. by eapply waiting_resps.
    + intros [] x3 [Hw3 Hset]. split; [done|by apply Htr].
    + intros x3. apply Htr.
  - intros x' [_ (_ & _ & Hs)]. apply Hs.
Qed.

Lemma Tick_answers rs x :
  ctx_ok x → knows_members x → cx_waiting rs x →
  wp False Peer.Tick (λ _ x', cx_waiting rs x' ∧ cx_settled (tick_entries (cx_raft x)) x x')
    (cx_settled (tick_entries (cx_raft x)) x) x.
Proof.
  intros Hok Hkm Hw. unfold Peer.Tick. do 4 peer_step. fold (cx_raft x).
  fold (with_raft (Raft.Tick (cx_raft x)) x).
  refine (HandleRaftReady_answers rs (with_raft (Raft.Tick (cx_raft x)) x) _ _ _ _ eq_refl);
    [by apply with_raft_ok| |exact Hw].
  apply knows_members_op; [done|constructor].
Qed.
End answers.
