(* ===== verification/RaftNet.v ===== *)
(** * RaftNet: a network of raft nodes

    What the raft library is used for, without the servers around it: nodes
    that tick, propose, take messages and go through rounds of Ready, a pool
    of the messages sent so far, from which a message may be delivered any
    number of times or never, and nodes that stop for good.  What raft
    guarantees of its log is a law about this network ([RaftSafety]); the
    cluster of servers (Cluster) is shown to be a run of it. *)
From S2P Require Import Prelude Wire Members Raft Config Peer PeerSafety.

(** What the nodes have done that concerns the others: a message sent, an entry
    that a leader accepted as a proposal, by term and index, and a proposal
    made to a node that does not lead, which may forward it. *)
Inductive news : Type :=
  | Sent (m : Message.t)
  | Proposed (term index : Z) (data : string)
  | Offered (data : string).

Section net.
Context `{RawNode}.
Implicit Types (r : raw_node) (h : list Entry.t) (wire : list news).

(** A node with the committed entries it has handed out so far. *)
Record node : Type := Node { node_raft : raw_node; node_history : list Entry.t }.

(** A leader that accepts a proposal appends it to its log; one that refuses
    it drops it. *)
Definition proposal_news (d : string) r : list news :=
  if IsLeader r
  then if bool_decide ((Propose d r).1 = kOk)
       then [Proposed (term r) (LastIndex r + 1) d] else []
  else [Offered d].

(** A step of the node [i]: its new state and the news. *)
Inductive node_step (i : Z) wire : node → node → list news → Prop :=
  | ns_tick r h : node_step i wire (Node r h) (Node (Tick r) h) []
  | ns_propose d r h :
      node_step i wire (Node r h) (Node (Propose d r).2 h) (proposal_news d r)
  | ns_deliver m r h : Sent m ∈ wire → Message.to m = i →
      node_step i wire (Node r h) (Node (Step m r).2 h) []
  | ns_ready r h rd r1 : HasReady r = true → GetReady r = (rd, r1) →
      node_step i wire (Node r h) (Node (after_ready rd r1) (h ++ committed_entries rd))
        (Sent <$> messages rd).

(** A node stops, possibly in the middle of a round: it has handed out the
    round's entries and sent a part of its messages. *)
Inductive node_stop : node → list Entry.t → list news → Prop :=
  | nt_stop r h : node_stop (Node r h) h []
  | nt_ready r h rd r1 k : HasReady r = true → GetReady r = (rd, r1) →
      node_stop (Node r h) (h ++ committed_entries rd) (Sent <$> take k (messages rd)).

(** The nodes that run, the histories of those that stopped, and the news. *)
Record net : Type := Net {
  nodes : gmap Z node; halted : gmap Z (list Entry.t); wire_of : list news }.

Inductive net_step : net → net → Prop :=
  | net_node i n n' out N : nodes N !! i = Some n → node_step i (wire_of N) n n' out →
      net_step N (Net (<[i := n']> (nodes N)) (halted N) (wire_of N ++ out))
  | net_stop i n h out N : nodes N !! i = Some n → node_stop n h out →
      net_step N (Net (delete i (nodes N)) (<[i := h]> (halted N)) (wire_of N ++ out)).

(** The node of host [i] in a group with the members [hosts], over a fresh
    storage [ms0], as the constructor of a peer builds it. *)
Definition start_node (ms0 : mem_storage) (i : Z) (hosts : list Z) : raw_node :=
  new_RawNode (Validate (PeerInit.config i))
    (write_snapshot (PeerInit.add_all_voters hosts) ms0).

(** Every node is built with the same members, in some order. *)
Definition net_start (ms0 : mem_storage) (hosts : list Z) (N : net) : Prop :=
  wire_of N = [] ∧ halted N = ∅ ∧
  ∀ i n, nodes N !! i = Some n → i ∈ hosts ∧ node_history n = [] ∧
    ∃ hosts', hosts' ≡ₚ hosts ∧ node_raft n = start_node ms0 i hosts'.

Definition net_reachable (ms0 : mem_storage) (hosts : list Z) (N : net) : Prop :=
  ∃ N0, net_start ms0 hosts N0 ∧ rtc net_step N0 N.

(** The entries the node [i] has handed out, whether it still runs or not. *)
Definition has_history (N : net) (i : Z) h : Prop :=
  (∃ r, nodes N !! i = Some (Node r h)) ∨ halted N !! i = Some h.

(** One log was cut at two lengths. *)
Definition comparable {A} (l1 l2 : list A) : Prop := l1 `prefix_of` l2 ∨ l2 `prefix_of` l1.
End net.

(** What raft guarantees of its log (figure 3 of the raft paper).
    - State machine safety: if a node has applied an entry at an index, no
      other node applies a different one there.
    - An entry that a leader appended in its term is the only one of that term
      and index (election safety, leader append-only and log matching).
    - A leader that takes a proposal appends it behind the entries of its term:
      no entry handed out before and no other proposal is at its position, and
      the entries it has handed out itself are before it.
    - A node hands out the entries of its log in the order of their indexes.
    - A normal entry is a proposal, or one without data that a new leader
      begins its term with. *)
Class RaftSafety `{RawNode} (ms0 : mem_storage) : Prop := {
  state_machine_safety hosts N i j h h' :
    NoDup hosts → net_reachable ms0 hosts N →
    has_history N i h → has_history N j h' → comparable h h';
  proposal_unique hosts N t ix d i h e :
    NoDup hosts → net_reachable ms0 hosts N → Proposed t ix d ∈ wire_of N →
    has_history N i h → e ∈ h → Entry.term e = t → Entry.index e = ix →
    Entry.type e = kEntryNormal ∧ Entry.data e = d;
  proposal_fresh hosts N i r hi d j h e :
    NoDup hosts → net_reachable ms0 hosts N → nodes N !! i = Some (Node r hi) →
    IsLeader r = true → (Propose d r).1 = kOk →
    has_history N j h → e ∈ h → entry_pos e ≠ (term r, LastIndex r + 1);
  proposal_distinct hosts N i r hi d t ix d' :
    NoDup hosts → net_reachable ms0 hosts N → nodes N !! i = Some (Node r hi) →
    IsLeader r = true → (Propose d r).1 = kOk →
    Proposed t ix d' ∈ wire_of N → (t, ix) ≠ (term r, LastIndex r + 1);
  proposal_behind hosts N i r hi d e :
    NoDup hosts → net_reachable ms0 hosts N → nodes N !! i = Some (Node r hi) →
    IsLeader r = true → (Propose d r).1 = kOk → e ∈ hi →
    lex_lt (entry_pos e) (term r, LastIndex r + 1);
  history_sorted hosts N i h j k e e' :
    NoDup hosts → net_reachable ms0 hosts N → has_history N i h →
    h !! j = Some e → h !! k = Some e' → (j < k)%nat → Entry.index e < Entry.index e';
  entry_proposed hosts N i h e :
    NoDup hosts → net_reachable ms0 hosts N → has_history N i h → e ∈ h →
    Entry.type e = kEntryNormal → Entry.data e ≠ "" →
    Proposed (Entry.term e) (Entry.index e) (Entry.data e) ∈ wire_of N ∨
    Offered (Entry.data e) ∈ wire_of N
}.

Section comparable.
Context {A : Type}.
Implicit Types (l : list A).

#[export] Instance comparable_refl : Reflexive (@comparable A).
Proof. intros l. left. reflexivity. Qed.
#[export] Instance comparable_sym : Symmetric (@comparable A).
Proof. intros l1 l2 [?|?]; [by right|by left]. Qed.

Lemma comparable_length l1 l2 : comparable l1 l2 → length l1 = length l2 → l1 = l2.
Proof.
  intros [[l ->]|[l ->]] Hlen; rewrite length_app in Hlen;
    (destruct l; [by rewrite app_nil_r|simpl in Hlen; lia]).
Qed.

Lemma prefix_comparable l l1 l2 : l1 `prefix_of` l → l2 `prefix_of` l → comparable l1 l2.
Proof. intros. destruct (prefix_weak_total l1 l2 l) as [?|?]; [done..|by left|by right]. Qed.

(** An entry that is not in a part of the log comes after it. *)
Lemma comparable_before l1 l1' l2 k x :
  l1 `prefix_of` l1' → comparable l1' l2 → l2 !! k = Some x → x ∉ l1 →
  ∃ l, take k l2 = l1 ++ l.
Proof.
  intros Hp Hc Hk Hx.
  assert (comparable l1 l2) as [[l ->]|[l ->]].
  { destruct Hc as [Hc|Hc]; [left; by etrans|by eapply prefix_comparable]. }
  - exists (take (k - length l1) l). apply take_app_ge. apply Nat.le_ngt. intros Hlt.
    apply Hx. rewrite lookup_app_l in Hk by done. by eapply list_elem_of_lookup_2.
  - exfalso. apply Hx, elem_of_app. left. by eapply list_elem_of_lookup_2.
Qed.
End comparable.

(** ** Steps of one node, composed *)

Section node.
Context `{RawNode}.
Implicit Types (n : node) (N : net) (wire : list news).

(** Several steps of the node [i], with all the news. *)
Inductive node_steps (i : Z) : list news → node → node → list news → Prop :=
  | nss_done wire n : node_steps i wire n n []
  | nss_step wire n1 n2 n3 out1 out2 : node_step i wire n1 n2 out1 →
      node_steps i (wire ++ out1) n2 n3 out2 → node_steps i wire n1 n3 (out1 ++ out2).

Lemma node_steps_once i wire n1 n2 out : node_step i wire n1 n2 out → node_steps i wire n1 n2 out.
Proof. intros Hs. rewrite <- (app_nil_r out). eapply nss_step; [exact Hs|constructor]. Qed.

Lemma node_steps_net i n n' out N :
  node_steps i (wire_of N) n n' out → nodes N !! i = Some n →
  rtc net_step N (Net (<[i := n']> (nodes N)) (halted N) (wire_of N ++ out)).
Proof.
  intros Hs. remember (wire_of N) as wire eqn:Es. revert N Es.
  induction Hs as [wire n|wire n1 n2 n3 out1 out2 Hs _ IH]; intros N -> Hn.
  - rewrite insert_id, app_nil_r by done. by destruct N.
  - eapply rtc_l; [by eapply net_node|].
    specialize (IH (Net (<[i := n2]> (nodes N)) (halted N) (wire_of N ++ out1)) eq_refl).
    simpl in IH. rewrite lookup_insert_eq, insert_insert_eq, <- app_assoc in IH. by apply IH.
Qed.

Lemma node_stop_net i n n' out h out' N :
  node_steps i (wire_of N) n n' out → node_stop n' h out' → nodes N !! i = Some n →
  rtc net_step N (Net (delete i (nodes N)) (<[i := h]> (halted N)) (wire_of N ++ out ++ out')).
Proof.
  intros Hs Ht Hn. eapply rtc_r; [by eapply node_steps_net|].
  rewrite app_assoc, <- (delete_insert_eq (nodes N) i n').
  apply (net_stop i n' h out' (Net _ _ _)); [simpl; by rewrite lookup_insert_eq|done].
Qed.
End node.
