(* ===== verification/PeerFaults.v ===== *)
(** * PeerFaults: what the peers do off the usual path

    Proposals of a peer that lost its leadership, log entries that end the
    process, and the cases in which a client is not answered or is answered
    for somebody else's command. *)
From S2P Require Import Prelude Wire RpcClient Runtime Storage Members Raft Config Proposals.
From S2P Require Import HostClients Peer KvSpec PeerSafety PeerApply.

(** A rejection is seen by the closure that it runs. *)
Lemma trace_rejects m ps :
  Mem.trace m `prefix_of` Mem.trace (foldl rejected_mem m ps).
Proof.
  revert m. induction ps as [|p ps IH]; intros m; simpl; [done|].
  etrans; [|apply IH]. unfold rejected_mem. simpl. by apply prefix_app_r.
Qed.

Lemma rejects_answered m ps p :
  live m ps → p ∈ ps →
  ∃ r, answered (Proposal.done p) (Proposal.resp p) r (Mem.trace (foldl rejected_mem m ps)) ∧
       KvResp.rejected r = true.
Proof.
  revert m. induction ps as [|p' ps IH]; intros m Hl Hp; [set_solver|]. simpl.
  apply Forall_cons in Hl as [[r0 Hr0] Hl]. apply elem_of_cons in Hp as [->|Hp].
  - exists (KvResp.set_rejected true r0). split; [|done].
    exists (alter (KvResp.set_rejected true) (Proposal.resp p') (Mem.resps m)).
    split; [|by rewrite lookup_alter_eq, Hr0].
    eapply elem_of_prefix; [|apply trace_rejects]. unfold rejected_mem. simpl. set_solver.
  - by apply IH; [apply live_rejected_mem|].
Qed.

Section faults.
Context `{FatalPolicy} `{KvCodec} `{BoostSplit} `{RpcNet} `{RawNodeLaws}.
Context {T : Type} `{KvStoreLaws T}.
Implicit Types (x : Peer.Ctx T) (e : Entry.t).

(** Case analysis on the outcome that the [wp] fact [Hw] constrains. *)
Ltac case_outcome Hw p x1 :=
  lazymatch type of Hw with
  | match ?o with _ => _ end => destruct o as [p x1| | |]; try done
  end.

Definition rejected_all (ps : list Proposal.t) x x' : Prop :=
  cx_props x' = [] ∧ cx_runs x' = cx_runs x ++ dones ps ∧
  ∀ p, p ∈ ps → ∃ r, answered (Proposal.done p) (Proposal.resp p) r
                       (Mem.trace (Peer.mem x')) ∧ KvResp.rejected r = true.

(** The context of a peer that is not the leader once it took no proposal. *)
Definition cleared x : Peer.Ctx T :=
  Peer.mk_ctx (Peer.set_proposals [] (Peer.peer x)) (Peer.clients x)
    (foldl rejected_mem (Peer.mem x) (cx_props x)).

Lemma follower_entry e x :
  ctx_ok x → Peer.IsLeader (Peer.peer x) = false →
  Peer.ProcessEntry e x =
    (if decide (Entry.type e = kEntryNormal)
     then Peer.ProcessNormal e None else Peer.ProcessConfChange e None) (cleared x).
Proof.
  intros Hok Hl. unfold Peer.ProcessEntry. erewrite bind_Ok by reflexivity. rewrite Hl.
  rewrite (bind_Ok _ _ x None (cleared x)); [done|].
  rewrite (bind_Ok _ _ x () (cleared x)); [done|].
  unfold Peer.in_queue, zoom. fold (cx_props x).
  rewrite CallbackAll_eq by apply Hok. done.
Qed.

Lemma cleared_ok x : ctx_ok x → ctx_ok (cleared x) ∧ rejected_all (cx_props x) x (cleared x).
Proof.
  intros Hok. split.
  - split; simpl; [constructor|apply Hok..].
  - split_and!; [done|apply runs_rejects|]. intros p Hp. simpl.
    apply rejects_answered; [apply Hok|done].
Qed.

(** Applying entries with no pending proposal runs no closure. *)
Lemma no_props_no_runs es x x' :
  ctx_ok x → cx_props x = [] → Peer.ProcessEntries es x = Ok () x' →
  cx_props x' = [] ∧ cx_runs x' = cx_runs x ∧ Mem.trace (Peer.mem x) `prefix_of` Mem.trace (Peer.mem x').
Proof.
  intros Hok Hq E.
  destruct (wp_Ok _ _ _ _ _ _ _ (ProcessEntries_wp es x Hok) E) as [_ Hf _ _ Hs Hd _].
  rewrite Hq in Hs. apply suffix_nil_inv in Hs.
  assert (cx_runs x `prefix_of` cx_runs x') as [l Hl].
  { destruct (mf_trace _ _ (fr_mem _ _ Hf)) as [tr Htr]. unfold cx_runs. rewrite Htr, runs_app.
    by apply prefix_app_r. }
  split_and!; [done| |apply Hf].
  unfold cx_dones in Hd. rewrite Hs, Hq in Hd. simpl in Hd. rewrite !app_nil_r in Hd.
  rewrite Hl in Hd |- *. apply submseteq_length in Hd. rewrite length_app in Hd.
  destruct l; simpl in Hd; [by rewrite app_nil_r|lia].
Qed.

(** C21 A peer that lost its leadership gives every client an answer: when it
    applies committed entries as a follower, each pending proposal's closure
    runs exactly once, in queue order, with its response marked rejected at
    that moment, and no other closure runs. *)
Theorem follower_rejects_all e es x x' :
  ctx_ok x → Peer.IsLeader (Peer.peer x) = false →
  Peer.ProcessEntries (e :: es) x = Ok () x' →
  rejected_all (cx_props x) x x'.
Proof.
  intros Hok Hl E. destruct (cleared_ok x Hok) as [Hok1 (Hq1 & Hr1 & Ha1)].
  assert (Peer.ProcessEntries (e :: es) (cleared x) = Ok () x') as E'.
  { rewrite <- E. unfold Peer.ProcessEntries. simpl. rewrite !bind_eq.
    rewrite (follower_entry e x Hok Hl).
    rewrite (follower_entry e (cleared x) Hok1 Hl). done. }
  destruct (no_props_no_runs _ _ _ Hok1 Hq1 E') as (Hq & Hr & Ht).
  split_and!; [done|by rewrite Hr|]. intros p Hp.
  destruct (Ha1 p Hp) as (r & (h & Hh & Hr') & Hrej). exists r. split; [|done].
  exists h. split; [by eapply elem_of_prefix|done].
Qed.

(** ** Entries that end the process *)

(** What stops the peer at [e]. *)
Definition poisonous (m : kv_map) e : Prop :=
  Entry.type e = kEntryNormal ∧
  ((ParseFromString (Entry.data e)).1 = false ∨
   (KvReq.cmd_type (decode e) = kGet ∧ m !! GetReq.key (KvReq.get_req (decode e)) = None) ∨
   ∃ n, KvReq.cmd_type (decode e) = kCmdUnknown n).

Lemma ProcessNormal_poison e p x :
  fatal_aborts = true → ctx_ok x → poisonous (contents (cx_db x)) e →
  ∃ msg x', Peer.ProcessNormal e p x = Abort msg x'.
Proof.
  intros Hfa Hok (Ht & Hp). unfold Peer.ProcessNormal, decode in *.
  destruct (ParseFromString (Entry.data e)) as [[|] req]; simpl in *.
  - erewrite bind_Ok by reflexivity.
    destruct Hp as [?|[[-> Hk]|[n ->]]]; [done| |rewrite fatal_Abort by done; eauto].
    destruct (store_get_absent _ (cx_db x) (ok_open _ Hok) Hk) as [msg E].
    do 2 eexists. apply bind_Abort. unfold Peer.in_db, zoom. fold (cx_db x). by rewrite E.
  - do 2 eexists. apply bind_Abort. by rewrite fatal_Abort.
Qed.

(** C24 Poisonous entries: a committed Get of a key that is absent when it is
    applied, an entry that does not parse or an unknown command ends the
    process of every peer that applies it, leader or follower, whatever its
    proposals and its clients.  (The first is reachable by any client: a Get
    is replicated like a write, and [DiskStorage::Get] treats NotFound as
    fatal.) *)
Theorem poisonous_entry_aborts e es x :
  fatal_aborts = true → ctx_ok x → poisonous (contents (cx_db x)) e →
  ∃ msg x', Peer.ProcessEntries (e :: es) x = Abort msg x'.
Proof.
  intros Hfa Hok Hp. unfold Peer.ProcessEntries. simpl.
  assert (∃ msg x', Peer.ProcessEntry e x = Abort msg x') as (msg & x' & E).
  2: { do 2 eexists. by apply bind_Abort. }
  unfold Peer.ProcessEntry. erewrite bind_Ok by reflexivity.
  pose proof (take_proposal_wp (Entry.index e) (Entry.term e) x Hok) as Hw. unfold wp in Hw.
  rewrite bind_eq. case_outcome Hw p x1.
  destruct Hw as (Hok1 & _ & _ & Hd & _). destruct Hp as [Ht Hp].
  rewrite decide_True by done.
  apply ProcessNormal_poison; [done|done|]. split; [done|]. by rewrite Hd.
Qed.

(** ** Totality *)

Context `{!KvStoreTotal T}.

(** A replica's database operations on an executable command return. *)
Lemma ProcessNormal_total e p x :
  ctx_ok x → live (Peer.mem x) (option_list p) →
  (ParseFromString (Entry.data e)).1 = true → executable (contents (cx_db x)) (decode e) →
  ∃ x', Peer.ProcessNormal e p x = Ok () x'.
Proof.
  intros Hok Hl Hp He. unfold Peer.ProcessNormal, decode, executable in *.
  destruct (ParseFromString (Entry.data e)) as [ok req]. simpl in *. subst ok.
  erewrite bind_Ok by reflexivity. pose proof (ok_open _ Hok) as Ho.
  destruct (KvReq.cmd_type req); [by eauto|..|done].
  - destruct He as [v Hv].
    erewrite bind_Ok by (unfold Peer.in_db, zoom; fold (cx_db x);
      rewrite (store_get_total _ v) by done; reflexivity).
    destruct p as [p|]; [|by eauto].
    apply Forall_cons in Hl as [[r Hr] _]. simpl.
    erewrite bind_Ok by (unfold Peer.in_mem, zoom; simpl;
      rewrite (write_resp_Ok _ _ r) by done; reflexivity).
    eexists. reflexivity.
  - destruct (store_put_total (PutReq.key (KvReq.put_req req))
      (PutReq.value (KvReq.put_req req)) _ Ho) as [d E].
    erewrite bind_Ok by (unfold Peer.in_db, zoom; fold (cx_db x); rewrite E; reflexivity).
    destruct p; eexists; reflexivity.
  - destruct (store_del_total (DelReq.key (KvReq.del_req req)) _ Ho) as [d E].
    erewrite bind_Ok by (unfold Peer.in_db, zoom; fold (cx_db x); rewrite E; reflexivity).
    destruct p; eexists; reflexivity.
Qed.

Lemma ProcessEntry_total e x :
  ctx_ok x → entry_executable (contents (cx_db x)) e →
  ∃ x', Peer.ProcessEntry e x = Ok () x'.
Proof.
  intros Hok He. unfold Peer.ProcessEntry. erewrite bind_Ok by reflexivity.
  pose proof (take_proposal_wp (Entry.index e) (Entry.term e) x Hok) as Hw. unfold wp in Hw.
  rewrite bind_eq. case_outcome Hw p x1.
  destruct Hw as (Hok1 & _ & _ & Hd & Hl & _).
  case_decide as Ht; [|by eauto]. destruct (He Ht) as [Hp Hx].
  apply ProcessNormal_total; [done..|]. by rewrite Hd.
Qed.

Lemma entries_total es x :
  ctx_ok x → log_executable (contents (cx_db x)) es →
  ∃ x', Peer.ProcessEntries es x = Ok () x' ∧
        contents (cx_db x') = log_apply (contents (cx_db x)) es.
Proof.
  revert x. induction es as [|e es IH]; intros x Hok Hlog; [by eauto|].
  destruct Hlog as [He Hlog]. destruct (ProcessEntry_total e x Hok He) as [x1 E1].
  destruct (wp_Ok _ _ _ _ _ _ _ (ProcessEntry_wp e x Hok) E1) as [Hok1 _ _ Hc _ _ _].
  destruct (IH x1 Hok1) as (x' & E' & Hc'); [by rewrite Hc|].
  exists x'. split; [by unfold Peer.ProcessEntries; simpl; rewrite (bind_Ok _ _ _ _ _ E1)|].
  by rewrite Hc', Hc.
Qed.

(** C23 Progress: a log whose entries all execute in turn (they parse, and every
    Get asks for a key present at its point of the log) is applied to the end
    by every peer: no loop runs out, nothing aborts and nothing is undefined. *)
Theorem ProcessEntries_total es x :
  ctx_ok x → log_executable (contents (cx_db x)) es →
  ∃ x', Peer.ProcessEntries es x = Ok () x' ∧
        contents (cx_db x') = log_apply (contents (cx_db x)) es.
Proof. apply entries_total. Qed.

(** ** Clients left without an answer, or with another's *)

(** The leader took the proposal [p] for the entry. *)
Lemma leader_takes e p q x :
  Peer.IsLeader (Peer.peer x) = true → cx_props x = p :: q → ctx_ok x →
  position p = (Entry.term e, Entry.index e) → Entry.type e = kEntryNormal →
  Peer.ProcessEntry e x =
    Peer.ProcessNormal e (Some p)
      (Peer.mk_ctx (Peer.set_proposals q (Peer.peer x)) (Peer.clients x) (Peer.mem x)).
Proof.
  intros Hl Hq Hok Hpos Ht. unfold Peer.ProcessEntry. erewrite bind_Ok by reflexivity.
  rewrite Hl. pose proof (ok_live _ Hok) as Hlive. rewrite Hq in Hlive.
  erewrite bind_Ok; [by rewrite decide_True by done|]. unfold Peer.in_queue, zoom. fold (cx_props x).
  rewrite Hq, GetProposal_eq by done. rewrite <- Hpos.
  unfold matched. simpl. rewrite !(decide_False (P := lex_lt _ _))
    by apply (irreflexivity lex_lt).
  by rewrite (decide_True (P := position p = position p)) by done.
Qed.

(** C35 A request without a command type is never answered: the leader commits
    it, takes its proposal off the queue and does nothing else, so the
    proposal's closure is neither run nor kept. *)
Theorem invalid_command_unanswered e p q x :
  ctx_ok x → Peer.IsLeader (Peer.peer x) = true → cx_props x = p :: q →
  position p = (Entry.term e, Entry.index e) → Entry.type e = kEntryNormal →
  (ParseFromString (Entry.data e)).1 = true → KvReq.cmd_type (decode e) = kInvalid →
  Peer.ProcessEntry e x =
    Ok () (Peer.mk_ctx (Peer.set_proposals q (Peer.peer x)) (Peer.clients x) (Peer.mem x)).
Proof.
  intros Hok Hl Hq Hpos Ht Hp Hc. rewrite (leader_takes e p q x) by done.
  unfold Peer.ProcessNormal, decode in *.
  destruct (ParseFromString (Entry.data e)) as [ok req]. simpl in *. subst ok.
  erewrite bind_Ok by reflexivity. by rewrite Hc.
Qed.

(** C25 A dropped proposal takes the answer of the next one: ProposeKvOp queues
    the request before it proposes and ignores the result, so when raft
    drops the first of two requests (the log does not grow), both sit at the
    same position, and committing the second one runs the first client's
    closure with the second one's answer, while the second client's stays
    pending. *)
Theorem dropped_proposal_misattributed req1 s1 resp1 done1 req2 s2 resp2 done2 x r1 r' :
  KvCodecLaws →
  ctx_ok x → Peer.IsLeader (Peer.peer x) = true → cx_props x = [] →
  Mem.resps (Peer.mem x) !! resp1 = Some KvResp.default →
  is_Some (Mem.resps (Peer.mem x) !! resp2) →
  SerializeToString req1 = (true, s1) → SerializeToString req2 = (true, s2) →
  Propose s1 (cx_raft x) = (kErrProposalDropped, r1) → Raft.IsLeader r1 = true →
  term r1 = term (cx_raft x) → LastIndex r1 = LastIndex (cx_raft x) →
  answerable req2 → executable (contents (cx_db x)) req2 → Raft.IsLeader r' = true →
  let e := Entry.mk kEntryNormal (term (cx_raft x)) (u64 (LastIndex (cx_raft x) + 1)) s2 in
  ∃ x1 x2 x3,
    Peer.ProposeKvOp req1 resp1 done1 x = Ok () x1 ∧
    Peer.ProposeKvOp req2 resp2 done2 x1 = Ok () x2 ∧
    Peer.ProcessEntry e (with_raft r' x2) = Ok () x3 ∧
    cx_runs x3 = cx_runs x ++ [done1] ∧ dones (cx_props x3) = [done2] ∧
    (position <$> cx_props x3) = [(Entry.term e, Entry.index e)] ∧
    answered done1 resp1 (kv_answer (contents (cx_db x)) req2 KvResp.default)
      (Mem.trace (Peer.mem x3)).
Proof.
  intros HL Hok Hlead Hq Hr1 Hr2 Hs1 Hs2 Hp1 Hl1 Ht Hi Ha Hx Hl' e.
  pose proof (ProposeKvOp_leader _ _ resp1 done1 _ Hlead Hs1) as E1.
  rewrite Hp1 in E1. simpl in E1. set (x1 := with_raft r1 _) in E1.
  assert (ctx_ok x1) as Hok1 by (apply proposed_ok; eauto).
  pose proof (ProposeKvOp_leader _ _ resp2 done2 x1 Hl1 Hs2) as E2.
  set (x2 := with_raft _ _) in E2.
  assert (ctx_ok (with_raft r' x2)) as Hok2 by by apply with_raft_ok, proposed_ok.
  assert (decode e = req2) as Hdec.
  { unfold decode, e. simpl. by rewrite (parse_serialize _ _ Hs2). }
  destruct (ProcessEntry_answer e (new_proposal x resp1 done1)
    [new_proposal x1 resp2 done2] (with_raft r' x2)) as (d & _ & _ & E3); [done|done| | |].
  { change ((cx_props x ++ [new_proposal x resp1 done1]) ++ [new_proposal x1 resp2 done2] =
      [new_proposal x resp1 done1; new_proposal x1 resp2 done2]).
    by rewrite Hq. }
  { split_and!; [done|done|by rewrite Hdec|]. intros _. rewrite Hdec. split; [|done].
    unfold e. simpl. by rewrite (parse_serialize _ _ Hs2). }
  exists x1, x2. eexists. split_and!; [done|done|exact E3| |done| |].
  - unfold cx_runs. simpl. by rewrite runs_add_run.
  - change ([(term r1, u64 (LastIndex r1 + 1))] =
            [(term (cx_raft x), u64 (LastIndex (cx_raft x) + 1))]). by rewrite Ht, Hi.
  - rewrite Hdec. eexists. split; [simpl; apply elem_of_app; right; by left|].
    simpl. by rewrite lookup_alter_eq, Hr1.
Qed.
End faults.
