(* ===== verification/Recovery.v ===== *)
(** * Recovery: a restarted server replays the log

    The storage of raft is in memory and [Peer::Peer] starts with nothing
    applied, while the database opens with what it held: a server that comes
    back gets the whole log again, on top of a database that has already seen
    a part of it.  The commands write values and no differences, so that the
    replay ends in the right database, and no command of the part that was
    applied before ends the process. *)
From S2P Require Import Prelude Wire RpcClient Runtime Storage Members Raft Config Proposals.
From S2P Require Import HostClients Peer KvSpec PeerSafety PeerFaults.

Section log.
Context `{KvCodec}.
Implicit Types (m : kv_map) (e : Entry.t) (es old : list Entry.t) (k : string).

(** A log decides what a key holds, or leaves it alone. *)
Definition decides es k : Prop := ∃ w, ∀ m, log_apply m es !! k = w.
Definition leaves es k : Prop := ∀ m, log_apply m es !! k = m !! k.

Lemma entry_decides e k : decides [e] k ∨ leaves [e] k.
Proof.
  unfold decides, leaves, log_apply, entry_apply, kv_apply. simpl.
  destruct (decide (Entry.type e = kEntryNormal)); [|by right].
  destruct (KvReq.cmd_type (decode e)) as [| | | |n]; try by right.
  - destruct (decide (PutReq.key (KvReq.put_req (decode e)) = k)) as [->|Hne]; [left|right].
    + eexists. intros m. by rewrite lookup_insert_eq.
    + intros m. by rewrite lookup_insert_ne.
  - destruct (decide (DelReq.key (KvReq.del_req (decode e)) = k)) as [->|Hne]; [left|right].
    + eexists. intros m. by rewrite lookup_delete_eq.
    + intros m. by rewrite lookup_delete_ne.
Qed.

Lemma log_decides es k : decides es k ∨ leaves es k.
Proof.
  induction es as [|e es IH] using rev_ind; [by right|].
  destruct (entry_decides e k) as [[w Hw]|Hl].
  - left. exists w. intros m. rewrite log_apply_app. apply Hw.
  - destruct IH as [[w Hw]|Hl']; [left; exists w|right]; intros m;
      rewrite log_apply_app, Hl; [apply Hw|apply Hl'].
Qed.

(** Applying a log twice is applying it once. *)
Lemma log_apply_twice m es : log_apply (log_apply m es) es = log_apply m es.
Proof.
  apply map_eq. intros k. destruct (log_decides es k) as [[w Hw]|Hl]; [by rewrite !Hw|apply Hl].
Qed.

Lemma replay_apply m old es :
  old `prefix_of` es → log_apply (log_apply m old) es = log_apply m es.
Proof. intros [l ->]. by rewrite !log_apply_app, log_apply_twice. Qed.

(** What a log that starts on an empty database has stored, it has stored
    whatever it starts on. *)
Lemma log_apply_present m es k :
  is_Some (log_apply ∅ es !! k) → is_Some (log_apply m es !! k).
Proof.
  destruct (log_decides es k) as [[w Hw]|Hl]; [by rewrite !Hw|].
  rewrite Hl, lookup_empty. by intros ?%is_Some_None.
Qed.

Lemma log_executable_app m es1 es2 :
  log_executable m (es1 ++ es2) ↔ log_executable m es1 ∧ log_executable (log_apply m es1) es2.
Proof.
  revert m. induction es1 as [|e es1 IH]; intros m; simpl; [tauto|]. rewrite IH. tauto.
Qed.

Lemma log_executable_any m es : log_executable ∅ es → log_executable m es.
Proof.
  induction es as [|e es IH] using rev_ind; intros Hx; [done|].
  apply log_executable_app in Hx as [Hx [He _]]. apply log_executable_app.
  split; [by apply IH|]. split; [|done]. intros Hty. destruct (He Hty) as [Hp Hex].
  split; [done|]. unfold executable in *. destruct (KvReq.cmd_type (decode e)); try done.
  by apply log_apply_present.
Qed.
End log.

Section recovery.
Context `{FatalPolicy} `{KvCodec} `{BoostSplit} `{RpcNet} `{RawNodeLaws}.
Context {T : Type} `{KvStoreTotal T}.
Implicit Types (x : Peer.Ctx T).

(** C22 Recovery by replay: a peer whose database holds the result of some part
    [old] of a log that began on an empty database, and that is handed the
    log [es] from its first entry, where [es] has got at least as far as
    [old] and its commands execute in turn, applies all of it without
    aborting, and ends with the result of [es]: as if it had never stopped.
    The database being different in between harms no client, since a request
    that comes in after the restart is behind [old] in the log. *)
Theorem replay_recovers old es x :
  ctx_ok x → contents (cx_db x) = log_apply ∅ old →
  old `prefix_of` es → log_executable ∅ es →
  ∃ x', Peer.ProcessEntries es x = Ok () x' ∧ contents (cx_db x') = log_apply ∅ es.
Proof.
  intros Hok Hdb Hold Hx. destruct (entries_total es x Hok) as (x' & E & Hc).
  - by apply log_executable_any.
  - exists x'. split; [done|]. by rewrite Hc, Hdb, replay_apply.
Qed.
End recovery.
