(* ===== verification/Host.v ===== *)
(** * Host: the process that runs a PeerHost (src/peer/peer_host.{h,cc})

    [Process.t] is the state of one server process: the host, the peer objects
    by address, the file system, the shared memory, the callbacks waiting in
    the event loop and the timers.  The table [local_peers_] maps a peer id to
    the address of its object and is the object's only owner, so overwriting
    an entry destroys the old object.  The clients of PeerHost are in
    HostClients. *)
From S2P Require Import Prelude Wire RpcClient Runtime CString Storage Members Raft Config.
From S2P Require Import Proposals HostClients Peer.

Module PeerHost.
Section PeerHost.
Context `{RawNode}.

Record t : Type := mk {
  host_opt_ : PeerHostOption.t;
  local_peers_ : gmap Z Z;        (* PeerTable: peer id to address *)
  clients_ : ClientMgr.t          (* rpc_cli_mgr_ *)
}.

(** PeerHost::PeerHost *)
Definition ctor (host_opt : PeerHostOption.t) : t := mk host_opt ∅ ClientMgr.empty.

Definition host_id (h : t) : Z := PeerHostOption.host_id (host_opt_ h).
Definition mutable_worker (h : t) : WorkerPtr := PeerHostOption.worker (host_opt_ h).
Definition db_path (h : t) : string := PeerHostOption.db_path (host_opt_ h).
End PeerHost.
#[global] Arguments t {_}.
End PeerHost.

(** The callbacks bound by the services, run by the host's event loop. *)
Inductive Task : Type :=
  | TKvOpCb (req : KvReq.t) (resp : RespPtr) (done : DonePtr)
  | THandleRaftMsgCb (req : RaftMsgReq.t) (done : DonePtr).

Module Process.
Section Process.
Context `{RawNode} `{LevelDB}.

Record t : Type := mk {
  host : PeerHost.t;
  objs : gmap Z (Peer.t DiskStorage.t);  (* the Peer objects alive *)
  next_obj : Z;
  fs : filesystem;
  mem : Mem.t;
  tasks : list Task;
  timers : list (Z * Z)                  (* period in ms, Peer to tick *)
}.

Definition start (h : PeerHost.t) (f : filesystem) : t := mk h ∅ 0 f Mem.empty [] [].

Definition set_host (h : PeerHost.t) (w : t) : t :=
  mk h (objs w) (next_obj w) (fs w) (mem w) (tasks w) (timers w).
Definition set_objs (o : gmap Z (Peer.t DiskStorage.t)) (w : t) : t :=
  mk (host w) o (next_obj w) (fs w) (mem w) (tasks w) (timers w).
Definition set_fs (f : filesystem) (w : t) : t :=
  mk (host w) (objs w) (next_obj w) f (mem w) (tasks w) (timers w).
Definition set_mem (m : Mem.t) (w : t) : t :=
  mk (host w) (objs w) (next_obj w) (fs w) m (tasks w) (timers w).
Definition set_tasks (l : list Task) (w : t) : t :=
  mk (host w) (objs w) (next_obj w) (fs w) (mem w) l (timers w).
Definition set_timers (l : list (Z * Z)) (w : t) : t :=
  mk (host w) (objs w) (next_obj w) (fs w) (mem w) (tasks w) l.

Definition in_fs {A} : M filesystem A → M t A := zoom fs set_fs.
Definition in_mem {A} : M Mem.t A → M t A := zoom mem set_mem.

(** A method call on the Peer at address [a]. *)
Definition context (p : Peer.t DiskStorage.t) (w : t) : Peer.Ctx DiskStorage.t :=
  Peer.mk_ctx p (PeerHost.clients_ (host w)) (mem w).
Definition put_context (a : Z) (x : Peer.Ctx DiskStorage.t) (w : t) : t :=
  mk (PeerHost.mk (PeerHost.host_opt_ (host w)) (PeerHost.local_peers_ (host w))
                  (Peer.clients x))
     (<[a := Peer.peer x]> (objs w)) (next_obj w) (fs w) (Peer.mem x) (tasks w) (timers w).
Definition with_peer {A} (a : Z) (m : M (Peer.Ctx DiskStorage.t) A) : M t A := λ w,
  match objs w !! a with
  | None => Ub "method call on a Peer that is not alive"
  | Some p => zoom (context p) (put_context a) m w
  end.

(** [std::make_shared<Peer>(...)] of a constructed peer. *)
Definition new_peer (p : Peer.t DiskStorage.t) : M t Z := λ w,
  let a := next_obj w in
  Ok a (mk (host w) (<[a := p]> (objs w)) (a + 1) (fs w) (mem w) (tasks w) (timers w)).

(** [local_peers_[peer_id] = ptr]: the object owned by the old entry is
    destroyed. *)
Definition assign_peer (peer_id a : Z) : M t unit := modify (λ w,
  let h := host w in
  let o := match PeerHost.local_peers_ h !! peer_id with
           | Some old => delete old (objs w)
           | None => objs w
           end in
  mk (PeerHost.mk (PeerHost.host_opt_ h) (<[peer_id := a]> (PeerHost.local_peers_ h))
                  (PeerHost.clients_ h))
     o (next_obj w) (fs w) (mem w) (tasks w) (timers w)).
End Process.
#[global] Arguments t {_ _}.
End Process.

Section host.
Context `{FatalPolicy} `{KvCodec} `{BoostSplit} `{RpcNet} `{RawNode} `{LevelDB}
        `{PeerInit.HashOrder}.

Definition CheckPeerOption (peer_opt : PeerOption.t) : M Process.t unit :=
  w ← get_state;
  when (PeerOption.peer_id peer_opt <=? 0) (fatal "peer id should be valid") ;;
  when (negb (PeerOption.host_id peer_opt =? PeerHost.host_id (Process.host w)))
    (fatal "peer's host_id should be the same as local host_id").

Definition AddLocalPeer (peer_opt : PeerOption.t) : M Process.t unit :=
  w ← get_state;
  when (bool_decide (is_Some
          (PeerHost.local_peers_ (Process.host w) !! PeerOption.peer_id peer_opt)))
    (fatal "RaftNode already existed") ;;
  CheckPeerOption peer_opt ;;
  w ← get_state;
  p ← Process.in_fs (PeerInit.ctor peer_opt (PeerHost.db_path (Process.host w)));
  a ← Process.new_peer p;
  Process.assign_peer (PeerOption.peer_id peer_opt) a.

(** The address, None for nullptr. *)
Definition mutable_local_peers (i : Z) : M Process.t (option Z) := λ w,
  Ok (PeerHost.local_peers_ (Process.host w) !! i) w.

(** Peer::StartTimer: worker_->loop()->RunEvery(0.1, Tick). *)
Definition StartTimer (a : Z) : M Process.t unit :=
  worker ← Process.with_peer a (x ← Peer.get_peer; mret (Peer.worker_ x));
  match worker with
  | None => ub "worker_->loop() on nullptr"
  | Some _ => modify (λ w, Process.set_timers (Process.timers w ++ [(100, a)]) w)
  end.
End host.
