(* ===== verification/Services.v ===== *)
(** * Services: the RPC entry points (src/service/)

    [KvServiceImpl] and [RaftMsgServiceImpl] receive a request in some thread
    of the RPC server and hand it, with its response and closure, to the event
    loop of the host's worker ([RunInLoop]), where the [...Cb] half runs. *)
From S2P Require Import Prelude Wire RpcClient Runtime Storage Members Raft Config Proposals.
From S2P Require Import HostClients Peer Host.

Section services.
Context `{FatalPolicy} `{KvCodec} `{BoostSplit} `{RpcNet} `{RawNode} `{LevelDB}.

(** [host_->mutable_worker()->loop()->RunInLoop(task)] *)
Definition RunInLoop (task : Task) : M Process.t unit :=
  w ← get_state;
  match PeerHost.mutable_worker (Process.host w) with
  | None => ub "mutable_worker()->loop() on nullptr"
  | Some _ => modify (λ w, Process.set_tasks (Process.tasks w ++ [task]) w)
  end.

(** ** KvServiceImpl *)

Definition KvOp (req : KvReq.t) (resp : RespPtr) (done : DonePtr) : M Process.t unit :=
  RunInLoop (TKvOpCb req resp done).

Definition KvOpCb (req : KvReq.t) (resp : RespPtr) (done : DonePtr) : M Process.t unit :=
  peer ← mutable_local_peers 1;
  when (bool_decide (peer = None)) (fatal "peer should exist") ;;
  match peer with
  | None => ub "peer->IsLeader() on nullptr"
  | Some a =>
      leader ← Process.with_peer a (x ← Peer.get_peer; mret (Peer.IsLeader x));
      if negb leader then
        let done_guard := ClosureGuard.ctor (Some done) in
        Process.in_mem (write_resp resp (KvResp.set_rejected true)) ;;
        Process.in_mem (ClosureGuard.dtor done_guard)
      else Process.with_peer a (Peer.ProposeKvOp req resp done)
  end.

(** ** RaftMsgServiceImpl *)

Definition HandleRaftMsg (req : RaftMsgReq.t) (done : DonePtr) : M Process.t unit :=
  w ← get_state;
  when (negb (PeerMeta.host_id (RaftMsgReq.to_peer req) =?
              PeerHost.host_id (Process.host w)))
    (fatal "send to wrong host") ;;
  RunInLoop (THandleRaftMsgCb req done).

Definition HandleRaftMsgCb (req : RaftMsgReq.t) (done : DonePtr) : M Process.t unit :=
  let done_guard := ClosureGuard.ctor (Some done) in
  peer ← mutable_local_peers (PeerMeta.peer_id (RaftMsgReq.to_peer req));
  when (bool_decide (peer = None)) (fatal "peer should exist") ;;
  match peer with
  | None => ub "peer->Step() on nullptr"
  | Some a =>
      Process.with_peer a (Peer.Step (RaftMsgReq.msg req)) ;;
      Process.in_mem (ClosureGuard.dtor done_guard)
  end.

Definition run_task (t : Task) : M Process.t unit :=
  match t with
  | TKvOpCb req resp done => KvOpCb req resp done
  | THandleRaftMsgCb req done => HandleRaftMsgCb req done
  end.
End services.
