(* ===== verification/HostLaws.v ===== *)
(** * HostLaws: building the peers of a host

    What the constructor of a peer establishes, and what [AddLocalPeer] does on
    each branch. *)
From S2P Require Import Prelude Wire RpcClient Runtime CString Storage Members Raft Config.
From S2P Require Import Proposals HostClients Peer KvSpec PeerSafety PeerQueue Host.

(** A method call on a peer that is alive. *)
Lemma wp_with_peer `{RawNode} `{LevelDB} {A} U a p (m : M (Peer.Ctx DiskStorage.t) A) Q R w :
  Process.objs w !! a = Some p →
  wp U m (λ r x, Q r (Process.put_context a x w)) (λ x, R (Process.put_context a x w))
     (Process.context p w) →
  wp U (Process.with_peer a m) Q R w.
Proof.
  intros Hp Hm. unfold wp, Process.with_peer. rewrite Hp.
  unfold wp in Hm. unfold zoom. by destruct (m (Process.context p w)).
Qed.

Section host_laws.
Context `{FatalPolicy} `{KvCodec} `{BoostSplit} `{RpcNet} `{RawNodeLaws} `{LevelDBLaws}
        `{PeerInit.HashOrderLaws}.
Context (Hf : fatal_aborts = true).

Lemma voters_add_all hosts s :
  ConfState.voters (Snapshot.conf_state (PeerInit.add_all_voters hosts s)) =
    ConfState.voters (Snapshot.conf_state s) ++ hosts.
Proof.
  revert s. induction hosts as [|h hosts IH]; intros s; simpl; [by rewrite app_nil_r|].
  unfold PeerInit.add_all_voters in *. simpl. rewrite IH. simpl. by rewrite <- app_assoc.
Qed.

(** The identity a peer takes from its options. *)
Definition self_of (opt : PeerOption.t) : GroupMember.t :=
  GroupMember.mk (PeerOption.host_id opt) (PeerOption.peer_id opt)
                 (PeerOption.ip opt) (PeerOption.port opt).

Record fresh_peer (opt : PeerOption.t) (db_path : string) (ms : peers_map)
    (p : Peer.t DiskStorage.t) : Prop := {
  fp_self : Peer.self_ p = self_of opt;
  fp_worker : Peer.worker_ p = PeerOption.worker opt;
  fp_peers : Peer.peers_ p = ms;
  fp_props : Peer.proposals_ p = [];
  fp_open : ds_open (Peer.kv_db_ p);
  fp_path : DiskStorage.db_path_ (Peer.kv_db_ p) =
              PeerInit.db_file db_path (PeerOption.peer_id opt);
  fp_members : ∀ h, h ∈ members (Peer.raw_node_ p) ↔ is_Some (ms !! h);
  fp_raft : ∃ st, PeerOption.storage opt = Some st ∧
    Peer.raw_node_ p = new_RawNode (Validate (PeerInit.config (PeerOption.host_id opt)))
      (write_snapshot (PeerInit.add_all_voters (PeerInit.host_order ms)) st)
}.

Lemma Peer_ctor_wp opt db_path ms st snap fs :
  InitGroupMembers (PeerOption.members opt) ∅ = Ok () ms →
  PeerOption.storage opt = Some st → GetSnapshot st = (kOk, Some snap) →
  (∀ h, h ∈ ConfState.voters (Snapshot.conf_state snap) → is_Some (ms !! h)) →
  wp False (PeerInit.ctor opt db_path) (λ p _, fresh_peer opt db_path ms p) (λ _, True) fs.
Proof.
  intros Hms Hst Hsnap Hv. unfold PeerInit.ctor. wp_step.
  eapply (wp_mono _ _ (λ m fs', m = ms) _ (λ _, True)); [|intros m ? ->|done].
  { unfold wp, with_local. by rewrite Hms. }
  rewrite Hst, Hsnap. do 5 wp_step.
  eapply wp_mono; [by apply DiskStorage_ctor_wp| |done].
  intros db fs' [Hopen Hpath]. wp_step. split; try done; [|by exists st].
  intros h. simpl.
  rewrite (new_members _ _ kOk (PeerInit.add_all_voters (PeerInit.host_order ms) snap))
    by (by apply write_GetSnapshot).
  rewrite voters_add_all, elem_of_app, PeerInit.host_order_perm.
  rewrite list_elem_of_fmap. split.
  - intros [?|([k g] & -> & Hin)]; [by apply Hv|].
    apply elem_of_map_to_list in Hin. simpl. eauto.
  - intros [g Hg]. right. exists (h, g). split; [done|]. by apply elem_of_map_to_list.
Qed.

(** ** AddLocalPeer *)

(** The error branches of [AddLocalPeer], with an aborting FATAL: an id
    already in the table, then an id that is not positive, then an option of
    another host ends the process, in this order of precedence and before
    anything is built. *)
Theorem AddLocalPeer_errors opt w :
  (is_Some (PeerHost.local_peers_ (Process.host w) !! PeerOption.peer_id opt) →
     AddLocalPeer opt w = Abort "RaftNode already existed" w) ∧
  (PeerHost.local_peers_ (Process.host w) !! PeerOption.peer_id opt = None →
     (PeerOption.peer_id opt ≤ 0 → AddLocalPeer opt w = Abort "peer id should be valid" w) ∧
     (0 < PeerOption.peer_id opt →
      PeerOption.host_id opt ≠ PeerHost.host_id (Process.host w) →
      AddLocalPeer opt w =
        Abort "peer's host_id should be the same as local host_id" w)).
Proof.
  unfold AddLocalPeer, CheckPeerOption. split.
  - intros Hd. erewrite bind_Ok by reflexivity. apply bind_Abort.
    rewrite bool_decide_eq_true_2 by done. by apply fatal_Abort.
  - intros Hn. rewrite bind_eq. simpl. rewrite bool_decide_eq_false_2 by (rewrite Hn; by intros [? ?]).
    erewrite bind_Ok by reflexivity. split.
    + intros Hle. apply bind_Abort. erewrite bind_Ok by reflexivity. apply bind_Abort.
      rewrite (proj2 (Z.leb_le _ _)) by done. by apply fatal_Abort.
    + intros Hlt Hne. apply bind_Abort. erewrite bind_Ok by reflexivity.
      rewrite (proj2 (Z.leb_gt _ _)) by done. erewrite bind_Ok by reflexivity.
      rewrite (proj2 (Z.eqb_neq _ _)) by done. by apply fatal_Abort.
Qed.

(** The process after a peer [p] was added with the file system at [fs']. *)
Definition added (opt : PeerOption.t) (p : Peer.t DiskStorage.t) fs' w : Process.t :=
  let h := Process.host w in
  let a := Process.next_obj w in
  Process.mk
    (PeerHost.mk (PeerHost.host_opt_ h)
       (<[PeerOption.peer_id opt := a]> (PeerHost.local_peers_ h)) (PeerHost.clients_ h))
    (<[a := p]> (Process.objs w)) (a + 1) fs' (Process.mem w) (Process.tasks w)
    (Process.timers w).

Lemma AddLocalPeer_wp opt ms st snap w :
  InitGroupMembers (PeerOption.members opt) ∅ = Ok () ms →
  PeerOption.storage opt = Some st → GetSnapshot st = (kOk, Some snap) →
  (∀ h, h ∈ ConfState.voters (Snapshot.conf_state snap) → is_Some (ms !! h)) →
  wp False (AddLocalPeer opt)
    (λ _ w', PeerHost.local_peers_ (Process.host w) !! PeerOption.peer_id opt = None ∧
             0 < PeerOption.peer_id opt ∧
             PeerOption.host_id opt = PeerHost.host_id (Process.host w) ∧
             ∃ p fs', fresh_peer opt (PeerHost.db_path (Process.host w)) ms p ∧
                      w' = added opt p fs' w)
    (λ w', PeerHost.local_peers_ (Process.host w') = PeerHost.local_peers_ (Process.host w) ∧
           Process.objs w' = Process.objs w) w.
Proof.
  intros Hms Hst Hsnap Hv. unfold AddLocalPeer, CheckPeerOption.
  do 4 wp_step; [wp_step; [done|congruence]|].
  apply bool_decide_eq_false, eq_None_not_Some in H9.
  do 5 wp_step; [wp_step; [done|congruence]|].
  wp_step; [wp_step; [done|congruence]|].
  do 3 wp_step. apply wp_zoom.
  eapply wp_mono; [by eapply Peer_ctor_wp| |by split].
  intros p fs' Hp. simpl. wp_step. unfold wp at 1. simpl.
  unfold Process.assign_peer. wp_step. simpl. rewrite H9.
  split_and!; [done|by apply Z.leb_gt|by apply Z.eqb_eq, negb_false_iff|].
  exists p, fs'. by split.
Qed.

(** ** The table of local peers *)

Definition db_dir (p : Peer.t DiskStorage.t) : string :=
  DiskStorage.db_path_ (Peer.kv_db_ p).

(** Every entry is a live peer of that id, with an open database in the
    directory of the host that is named after the id. *)
Definition table_ok w : Prop :=
  ∀ pid a, PeerHost.local_peers_ (Process.host w) !! pid = Some a →
    0 < pid ∧ a < Process.next_obj w ∧
    ∃ p, Process.objs w !! a = Some p ∧ GroupMember.peer_id (Peer.self_ p) = pid ∧
         GroupMember.host_id (Peer.self_ p) = PeerHost.host_id (Process.host w) ∧
         ds_open (Peer.kv_db_ p) ∧
         db_dir p = PeerInit.db_file (PeerHost.db_path (Process.host w)) pid.

Lemma Peer_ctor_path opt db_path fs :
  wp True (PeerInit.ctor opt db_path)
    (λ p _, Peer.self_ p = self_of opt ∧ ds_open (Peer.kv_db_ p) ∧
            db_dir p = PeerInit.db_file db_path (PeerOption.peer_id opt))
    (λ _, True) fs.
Proof.
  unfold PeerInit.ctor. wp_step.
  eapply (wp_mono _ _ (λ _ _, True) _ (λ _, True)); [|intros ms ? _|done].
  { apply wp_with_local. pose proof (InitGroupMembers_wp (PeerOption.members opt) ∅) as Hw.
    eapply wp_mono; [exact Hw|done..]. }
  do 2 wp_step; [wp_step; [done|congruence]|].
  destruct (PeerOption.storage opt) as [st|]; [|done].
  destruct (GetSnapshot st) as [err snap].
  do 2 wp_step; [wp_step; [done|congruence]|].
  destruct snap as [snap|]; [|done]. wp_step.
  eapply wp_mono; [by apply wp_defined, DiskStorage_ctor_wp| |done].
  intros db fs' [Hopen Hpath]. by wp_step.
Qed.

Lemma db_file_inj path n m :
  PeerInit.db_file path n = PeerInit.db_file path m →
  0 ≤ n ≤ UINT64_MAX → 0 ≤ m ≤ UINT64_MAX → n = m.
Proof.
  unfold PeerInit.db_file. intros E Hn Hm.
  apply (inj (String.app path)), (inj (String.app "/")), (inj (String.app "peer_")) in E.
  by apply to_string_inj.
Qed.

Lemma AddLocalPeer_table_ok opt w w' :
  table_ok w → AddLocalPeer opt w = Ok () w' →
  table_ok w' ∧
  dom (PeerHost.local_peers_ (Process.host w')) =
    {[PeerOption.peer_id opt]} ∪ dom (PeerHost.local_peers_ (Process.host w)).
Proof.
  intros Ht E. set (Q := λ (_ : unit) w', table_ok w' ∧
    dom (PeerHost.local_peers_ (Process.host w')) =
      {[PeerOption.peer_id opt]} ∪ dom (PeerHost.local_peers_ (Process.host w))).
  apply (wp_Ok True (AddLocalPeer opt) Q (λ _, True) w () w'); [|exact E]. unfold Q. clear E Q. unfold AddLocalPeer, CheckPeerOption.
  do 4 wp_step; [wp_step; [done|congruence]|].
  apply bool_decide_eq_false, eq_None_not_Some in H9.
  do 5 wp_step; [wp_step; [done|congruence]|].
  wp_step; [wp_step; [done|congruence]|]. do 3 wp_step. apply wp_zoom.
  eapply wp_mono; [apply Peer_ctor_path| |done].
  intros p fs' (Hself & Hopen & Hdir). wp_step. unfold wp at 1. simpl.
  unfold Process.assign_peer. wp_step. simpl. rewrite H9. split; [|apply dom_insert_L].
  intros pid a. simpl. rewrite lookup_insert_Some. intros [[<- <-]|[Hne Hl]].
  - split_and!; [by apply Z.leb_gt|lia|]. exists p. rewrite lookup_insert_eq, Hself.
    split_and!; try done. by apply Z.eqb_eq, negb_false_iff.
  - destruct (Ht _ _ Hl) as (? & ? & q & Hq & ?). split_and!; [done|lia|].
    exists q. rewrite lookup_insert_ne by lia. by split.
Qed.

(** C34 The table of local peers: each successful [AddLocalPeer] keeps every
    entry a live peer of its own id and of this host, adds the new one, and
    two peers of the host never share a database directory. *)
Theorem AddLocalPeer_table opt w w' :
  table_ok w → AddLocalPeer opt w = Ok () w' →
  table_ok w' ∧
  dom (PeerHost.local_peers_ (Process.host w')) =
    {[PeerOption.peer_id opt]} ∪ dom (PeerHost.local_peers_ (Process.host w)) ∧
  ∀ pid1 pid2 a1 a2 p1 p2,
    PeerHost.local_peers_ (Process.host w') !! pid1 = Some a1 →
    PeerHost.local_peers_ (Process.host w') !! pid2 = Some a2 →
    Process.objs w' !! a1 = Some p1 → Process.objs w' !! a2 = Some p2 →
    pid1 ≠ pid2 → 0 ≤ pid1 ≤ UINT64_MAX → 0 ≤ pid2 ≤ UINT64_MAX → db_dir p1 ≠ db_dir p2.
Proof.
  intros Ht E. assert (table_ok w' ∧ dom (PeerHost.local_peers_ (Process.host w')) =
    {[PeerOption.peer_id opt]} ∪ dom (PeerHost.local_peers_ (Process.host w))) as [Ht' Hd].
  { by eapply AddLocalPeer_table_ok. }
  split_and!; [done|done|]. intros pid1 pid2 a1 a2 p1 p2 L1 L2 O1 O2 Hne B1 B2 Hdir.
  apply Ht' in L1 as (_ & _ & q1 & O1' & _ & _ & _ & D1).
  apply Ht' in L2 as (_ & _ & q2 & O2' & _ & _ & _ & D2).
  simplify_eq. rewrite D1, D2 in Hdir. by apply db_file_inj in Hdir.
Qed.
End host_laws.
