(* ===== verification/ServiceLaws.v ===== *)
(** * ServiceLaws: the branches of the RPC services

    What each callback of the services does in every case, as equations. *)
From S2P Require Import Prelude Wire RpcClient Runtime Storage Members Raft Config Proposals.
From S2P Require Import HostClients Peer Host Services.

Section service_laws.
Context `{FatalPolicy} `{KvCodec} `{BoostSplit} `{RpcNet} `{RawNode} `{LevelDB}.
Implicit Types (w : Process.t).

(** A call that only reads the peer. *)
Lemma with_peer_read {A} a p (f : Peer.t DiskStorage.t → A) w :
  Process.objs w !! a = Some p →
  Process.with_peer a (x ← Peer.get_peer; mret (f x)) w = Ok (f p) w.
Proof.
  intros Ha. unfold Process.with_peer, zoom. rewrite Ha. simpl. f_equal.
  unfold Process.put_context, Process.context. simpl. rewrite insert_id by done.
  destruct w as [[]]. done.
Qed.

(** The memory after the request was rejected. *)
Definition reject_request (resp : RespPtr) (r : KvResp.t) (done : DonePtr) (m : Mem.t) : Mem.t :=
  let h := <[resp := KvResp.set_rejected true r]> (Mem.resps m) in
  Mem.mk h (Mem.trace m ++ [EvRun done h]) (Mem.calls m) (Mem.next_call m).

(** C29 [KvOpCb] on every branch, with an aborting FATAL: without a peer 1 the
    process ends; when peer 1 does not lead, the response is marked rejected
    and then its closure runs, exactly once, and nothing else changes; when
    it leads, the request is handed to its [ProposeKvOp] and no closure
    runs here. *)
Theorem KvOpCb_correct req resp done_ w :
  fatal_aborts = true →
  (PeerHost.local_peers_ (Process.host w) !! 1 = None →
     KvOpCb req resp done_ w = Abort "peer should exist" w) ∧
  ∀ a p, PeerHost.local_peers_ (Process.host w) !! 1 = Some a →
         Process.objs w !! a = Some p →
    (Peer.IsLeader p = false → ∀ r, Mem.resps (Process.mem w) !! resp = Some r →
       KvOpCb req resp done_ w =
         Ok () (Process.set_mem (reject_request resp r done_ (Process.mem w)) w)) ∧
    (Peer.IsLeader p = true →
       KvOpCb req resp done_ w = Process.with_peer a (Peer.ProposeKvOp req resp done_) w).
Proof.
  intros Hf. split.
  - intros Hn. unfold KvOpCb. rewrite (bind_Ok _ _ w None w) by (unfold mutable_local_peers; by rewrite Hn).
    apply bind_Abort. by apply fatal_Abort.
  - intros a p Ht Ha.
    assert (∀ b, Peer.IsLeader p = b → KvOpCb req resp done_ w =
      (if negb b then
         Process.in_mem (write_resp resp (KvResp.set_rejected true)) ;;
         Process.in_mem (ClosureGuard.dtor (ClosureGuard.ctor (Some done_)))
       else Process.with_peer a (Peer.ProposeKvOp req resp done_)) w) as Hb.
    { intros b <-. unfold KvOpCb.
      rewrite (bind_Ok _ _ w (Some a) w) by (unfold mutable_local_peers; by rewrite Ht).
      erewrite bind_Ok by reflexivity.
      by rewrite (bind_Ok _ _ _ _ _ (with_peer_read a p Peer.IsLeader w Ha)). }
    split; intros Hl; rewrite (Hb _ Hl); [|done]. intros r Hr. simpl.
    erewrite bind_Ok by (unfold Process.in_mem, zoom; by rewrite (write_resp_Ok _ _ r)).
    done.
Qed.

(** The process after the message was stepped by the peer [p] at [a]. *)
Definition stepped (a : Z) (p : Peer.t DiskStorage.t) (m : Message.t) (done : DonePtr) w :
    Process.t :=
  let p' := Peer.set_raw_node (Raft.Step m (Peer.raw_node_ p)).2 p in
  Process.mk (Process.host w) (<[a := p']> (Process.objs w)) (Process.next_obj w)
    (Process.fs w) (Mem.add_event (EvRun done (Mem.resps (Process.mem w))) (Process.mem w))
    (Process.tasks w) (Process.timers w).

(** C30 The raft message service on every branch, with an aborting FATAL: a
    message for another host ends the process before anything is queued; a
    queued message for a peer the host does not have ends it too; otherwise
    the addressed peer's raft node steps the message, whatever it answers,
    and the closure runs once. *)
Theorem HandleRaftMsg_correct req done_ w wk :
  fatal_aborts = true → PeerHost.mutable_worker (Process.host w) = Some wk →
  let dst := RaftMsgReq.to_peer req in
  (PeerMeta.host_id dst ≠ PeerHost.host_id (Process.host w) →
     HandleRaftMsg req done_ w = Abort "send to wrong host" w) ∧
  (PeerMeta.host_id dst = PeerHost.host_id (Process.host w) →
     HandleRaftMsg req done_ w =
       Ok () (Process.set_tasks (Process.tasks w ++ [THandleRaftMsgCb req done_]) w)) ∧
  (PeerHost.local_peers_ (Process.host w) !! PeerMeta.peer_id dst = None →
     HandleRaftMsgCb req done_ w = Abort "peer should exist" w) ∧
  (∀ a p, PeerHost.local_peers_ (Process.host w) !! PeerMeta.peer_id dst = Some a →
     Process.objs w !! a = Some p →
     HandleRaftMsgCb req done_ w = Ok () (stepped a p (RaftMsgReq.msg req) done_ w)).
Proof.
  intros Hf Hwk dst. split_and!.
  - intros Hne. unfold HandleRaftMsg. erewrite bind_Ok by reflexivity. apply bind_Abort.
    fold dst. rewrite (proj2 (Z.eqb_neq _ _)) by done. by apply fatal_Abort.
  - intros He. unfold HandleRaftMsg. erewrite bind_Ok by reflexivity.
    fold dst. rewrite (proj2 (Z.eqb_eq _ _)) by done. erewrite bind_Ok by reflexivity.
    unfold RunInLoop. erewrite bind_Ok by reflexivity. by rewrite Hwk.
  - intros Hn. unfold HandleRaftMsgCb. fold dst.
    rewrite (bind_Ok _ _ w None w) by (unfold mutable_local_peers; by rewrite Hn).
    apply bind_Abort. by apply fatal_Abort.
  - intros a p Ht Ha. unfold HandleRaftMsgCb. fold dst.
    rewrite (bind_Ok _ _ w (Some a) w) by (unfold mutable_local_peers; by rewrite Ht).
    erewrite bind_Ok by reflexivity. rewrite bind_eq.
    unfold Process.with_peer, zoom, Peer.Step. rewrite Ha. simpl. rewrite bind_eq. simpl.
    destruct (Raft.Step (RaftMsgReq.msg req) (Peer.raw_node_ p)) as [err r] eqn:Es. simpl.
    unfold Process.in_mem, zoom, stepped. simpl. rewrite Es. simpl.
    by destruct w as [[]].
Qed.
End service_laws.
