(* ===== verification/System.v ===== *)
(** * System: a running server process

    The event loop of the host's worker and the RPC server around it, as a
    transition system: a request arrives (with a response object and a closure
    of its own, which is how an RPC server calls a service), a queued callback
    runs, a timer fires, an RPC to another host completes.  Which of them
    happens next is not determined, so the theorems hold for every
    interleaving the event loop and the network produce. *)
From S2P Require Import Prelude Wire RpcClient Runtime Storage Members Raft Config Proposals.
From S2P Require Import HostClients Peer KvSpec PeerSafety PeerQueue Host HostLaws Services.

Module Sys.
Section Sys.
Context `{FatalPolicy} `{KvCodec} `{BoostSplit} `{RpcNet} `{RawNode} `{LevelDB}.

Record t : Type := mk {
  proc : Process.t;
  completed : gset Z;       (* the outgoing RPCs whose callback has run *)
  given : list DonePtr      (* the closures handed to the services so far *)
}.

Inductive label : Type :=
  | LKvRequest (req : KvReq.t) (resp : RespPtr) (done : DonePtr)
  | LRaftRequest (req : RaftMsgReq.t) (done : DonePtr)
  | LTask (i : nat)
  | LTick (i : nat)
  | LRpcDone (a c : Z).

Definition in_proc {A} : M Process.t A → M t A :=
  zoom proc (λ w s, mk w (completed s) (given s)).

Definition give (done : DonePtr) : M t unit :=
  modify (λ s, mk (proc s) (completed s) (given s ++ [done])).

(** The RPC server allocates the response. *)
Definition new_resp (resp : RespPtr) : M Process.t unit :=
  Process.in_mem (modify (Mem.set_resps <[resp := KvResp.default]>)).

Definition enabled (l : label) (s : t) : Prop :=
  let w := proc s in
  match l with
  | LKvRequest _ resp done =>
      Mem.resps (Process.mem w) !! resp = None ∧ done ∉ given s
  | LRaftRequest _ done => done ∉ given s
  | LTask i => is_Some (Process.tasks w !! i)
  | LTick i => is_Some (Process.timers w !! i)
  | LRpcDone a c =>
      is_Some (Process.objs w !! a) ∧
      c ∈ issued (Mem.trace (Process.mem w)) ∖ completed s
  end.

Definition pop_task (i : nat) : M Process.t Task := λ w,
  match Process.tasks w !! i with
  | Some t => Ok t (Process.set_tasks (delete i (Process.tasks w)) w)
  | None => Ub "no such task"
  end.

Definition fire (i : nat) : M Process.t unit :=
  w ← get_state;
  match Process.timers w !! i with
  | Some (_, a) => Process.with_peer a Peer.Tick
  | None => ub "no such timer"
  end.

Definition exec (l : label) : M t unit :=
  match l with
  | LKvRequest req resp done =>
      give done ;; in_proc (new_resp resp ;; KvOp req resp done)
  | LRaftRequest req done => give done ;; in_proc (HandleRaftMsg req done)
  | LTask i => in_proc (t ← pop_task i; run_task t)
  | LTick i => in_proc (fire i)
  | LRpcDone a c =>
      in_proc (Process.with_peer a (Peer.HandleSendMsg2Peer c)) ;;
      modify (λ s, mk (proc s) ({[c]} ∪ completed s) (given s))
  end.

Definition step (s s' : t) : Prop := ∃ l, enabled l s ∧ exec l s = Ok () s'.

Definition init (w : Process.t) : t := mk w ∅ [].
Definition reachable (w : Process.t) (s : t) : Prop := rtc step (init w) s.
End Sys.
#[global] Arguments t {_ _}.
End Sys.

(** ** The invariant *)

Section system.
Context `{FatalPolicy} `{KvCodec} `{BoostSplit} `{RpcNet} `{RawNodeLaws} `{LevelDBLaws}.
Context (Hf : fatal_aborts = true).
#[local] Instance ds_laws : KvStoreLaws DiskStorage.t := DiskStorage_KvStoreLaws Hf.
Implicit Types (w : Process.t) (s : Sys.t) (x : Peer.Ctx DiskStorage.t).

Definition task_dones (t : Task) : list DonePtr :=
  match t with TKvOpCb _ _ d => [d] | THandleRaftMsgCb _ d => [d] end.
Definition task_live (m : Mem.t) (t : Task) : Prop :=
  match t with TKvOpCb _ resp _ => is_Some (Mem.resps m !! resp) | _ => True end.

Definition pending_dones (o : gmap Z (Peer.t DiskStorage.t)) : list DonePtr :=
  map_to_list o ≫= λ ap, dones (Peer.proposals_ ap.2).

(** The closures of the process: run, pending in a peer, or in a task. *)
Definition all_dones w : list DonePtr :=
  runs (Mem.trace (Process.mem w)) ++ pending_dones (Process.objs w) ++
  (Process.tasks w ≫= task_dones).

Record proc_inv (C : gset Z) w : Prop := {
  in_worker : is_Some (PeerHost.mutable_worker (Process.host w));
  in_table pid a : PeerHost.local_peers_ (Process.host w) !! pid = Some a →
    is_Some (Process.objs w !! a);
  in_timers per a : (per, a) ∈ Process.timers w → is_Some (Process.objs w !! a);
  in_peers a p : Process.objs w !! a = Some p → peer_inv (Process.context p w);
  in_tasks t : t ∈ Process.tasks w → task_live (Process.mem w) t;
  in_calls : calls_ok C (Process.mem w)
}.

(** ** Stability of a peer's invariant under the others' work *)

Lemma peer_inv_stable x x' :
  peer_inv x → Peer.peer x' = Peer.peer x →
  (∀ q, live (Peer.mem x) q → live (Peer.mem x') q) →
  connects_counted (Peer.clients x') → peer_inv x'.
Proof.
  intros [[Hl Ho Hc] Hm Hq] Hp Hmem Hc'.
  unfold cx_props, cx_db, cx_raft, knows_members, queue_ok, cx_props, cx_raft in *.
  split; [split| |]; unfold cx_props, cx_db, cx_raft, knows_members, queue_ok, cx_props,
    cx_raft; rewrite ?Hp; auto.
Qed.

Lemma task_live_frame m m' t : mem_frame m m' → task_live m t → task_live m' t.
Proof.
  intros Hf'. destruct t; simpl; [|done].
  rewrite <- !elem_of_dom. by rewrite (mf_dom _ _ Hf').
Qed.

Lemma put_context_inv C a p x' w :
  proc_inv C w → Process.objs w !! a = Some p →
  frame (Process.context p w) x' → peer_inv x' →
  proc_inv C (Process.put_context a x' w).
Proof.
  intros [Hw Ht Hti Hp Htk Hc] Ha Hfr Hi.
  pose proof (fr_mem _ _ Hfr) as Hmem. simpl in Hmem.
  assert (∀ b, is_Some (Process.objs w !! b) →
    is_Some (Process.objs (Process.put_context a x' w) !! b)) as Hobj.
  { intros b Hb. simpl. destruct (decide (a = b)) as [->|];
      [by rewrite lookup_insert_eq|by rewrite lookup_insert_ne]. }
  split.
  - done.
  - intros pid b Hb. by eapply Hobj, Ht.
  - intros per b Hb. by eapply Hobj, Hti.
  - intros b q. simpl. rewrite lookup_insert_Some. intros [[<- <-]|[Hne Hq]].
    + eapply peer_inv_stable; [exact Hi|done|done|apply Hi].
    + eapply peer_inv_stable; [by eapply Hp|done| |apply Hi].
      simpl. intros q'. by apply live_frame.
  - intros t Hin. eapply task_live_frame; [exact Hmem|]. by apply Htk.
  - by eapply mf_calls.
Qed.

(** ** The closures of the process *)

Lemma pending_dones_insert a p o :
  o !! a = None → pending_dones (<[a := p]> o) ≡ₚ dones (Peer.proposals_ p) ++ pending_dones o.
Proof. intros Ha. unfold pending_dones. by rewrite map_to_list_insert. Qed.

Lemma pending_dones_lookup a p o :
  o !! a = Some p →
  pending_dones o ≡ₚ dones (Peer.proposals_ p) ++ pending_dones (delete a o).
Proof.
  intros Ha. rewrite <- (insert_delete_id o a p) at 1 by done.
  apply pending_dones_insert, lookup_delete_eq.
Qed.

Lemma pending_dones_update a p' o :
  pending_dones (<[a := p']> o) ≡ₚ
    dones (Peer.proposals_ p') ++ pending_dones (delete a o).
Proof.
  rewrite <- insert_delete_eq. apply pending_dones_insert, lookup_delete_eq.
Qed.

Lemma put_context_dones a p x' w extra :
  Process.objs w !! a = Some p →
  cx_dones x' ⊆+ extra ++ cx_dones (Process.context p w) →
  all_dones (Process.put_context a x' w) ⊆+ extra ++ all_dones w.
Proof.
  intros Ha Hx. unfold all_dones, cx_dones, cx_runs, cx_props in *. simpl in *.
  rewrite (pending_dones_update a), (pending_dones_lookup a p (Process.objs w)) by done.
  rewrite <- !app_assoc. rewrite !(app_assoc (runs _)), (app_assoc extra).
  by apply submseteq_skips_r.
Qed.
(** ** Operations of the process *)

Lemma put_context_mem a p m w :
  Process.objs w !! a = Some p →
  Process.put_context a (Peer.mk_ctx p (PeerHost.clients_ (Process.host w)) m) w =
    Process.set_mem m w.
Proof.
  intros Ha. unfold Process.put_context, Process.set_mem. simpl.
  rewrite insert_id by done. by destruct (Process.host w).
Qed.

Lemma put_context_id a p w :
  Process.objs w !! a = Some p → Process.put_context a (Process.context p w) w = w.
Proof. intros Ha. unfold Process.context. rewrite put_context_mem by done. by destruct w. Qed.

Lemma set_mem_inv C C' m w :
  proc_inv C w → (∀ r, is_Some (Mem.resps (Process.mem w) !! r) → is_Some (Mem.resps m !! r)) →
  calls_ok C' m → proc_inv C' (Process.set_mem m w).
Proof.
  intros [Hw Ht Hti Hp Htk Hc] Hr Hc'. split; try done.
  - intros a p Ha. eapply peer_inv_stable; [by eapply Hp|done| |].
    + intros q Hq. simpl. eapply Forall_impl; [exact Hq|]. simpl. eauto.
    + apply (Hp _ _ Ha).
  - intros [req resp d|req d] Hin; [|done]. simpl. apply Hr. by apply (Htk _ Hin).
Qed.

Lemma set_mem_frame_inv C m w :
  proc_inv C w → mem_frame (Process.mem w) m → proc_inv C (Process.set_mem m w).
Proof.
  intros Hi Hm. eapply set_mem_inv; [done| |apply Hm, Hi].
  intros r. rewrite <- !elem_of_dom. by rewrite (mf_dom _ _ Hm).
Qed.

Lemma set_tasks_inv C l w :
  proc_inv C w → (∀ t, t ∈ l → task_live (Process.mem w) t) →
  proc_inv C (Process.set_tasks l w).
Proof. intros [Hw Ht Hti Hp Htk Hc] Hl. by split. Qed.

(** A process operation that answers for the closures [extra]. *)
Definition op_spec {A} (extra : list DonePtr) C (m : M Process.t A) w : Prop :=
  wp False m (λ _ w', proc_inv C w' ∧ all_dones w' ⊆+ extra ++ all_dones w)
    (λ w', all_dones w' ⊆+ extra ++ all_dones w) w.

Lemma with_peer_op {A} a p (m : M (Peer.Ctx DiskStorage.t) A) extra C w :
  proc_inv C w → Process.objs w !! a = Some p →
  wp False m
    (λ _ x', frame (Process.context p w) x' ∧ peer_inv x' ∧
             cx_dones x' ⊆+ extra ++ cx_dones (Process.context p w))
    (λ x', cx_dones x' ⊆+ extra ++ cx_dones (Process.context p w)) (Process.context p w) →
  op_spec extra C (Process.with_peer a m) w.
Proof.
  intros Hi Ha Hm. unfold op_spec. eapply wp_with_peer; [exact Ha|].
  eapply wp_mono; [exact Hm| |].
  - intros _ x' (Hfr & Hx & Hd). split; [by eapply put_context_inv|by eapply put_context_dones].
  - intros x' Hd. by eapply put_context_dones.
Qed.

Lemma Tick_op a C w :
  proc_inv C w → is_Some (Process.objs w !! a) →
  op_spec [] C (Process.with_peer a Peer.Tick) w.
Proof.
  intros Hi [p Ha]. eapply with_peer_op; [done|exact Ha|].
  eapply wp_mono; [eapply Tick_inv, in_peers; [exact Hi|done]| |done].
  intros [] x' [Hx Hcb]. split_and!; [apply Hcb|done|apply Hcb].
Qed.

Lemma all_dones_run d w :
  all_dones (Process.set_mem (Mem.add_event (EvRun d (Mem.resps (Process.mem w)))
                                (Process.mem w)) w) ≡ₚ d :: all_dones w.
Proof.
  unfold all_dones. simpl. rewrite runs_add_run, <- app_assoc. simpl.
  by rewrite <- Permutation_middle.
Qed.

(** Running the closure of the request at hand. *)
Lemma Run_op d C w :
  proc_inv C w → op_spec [d] C (Process.in_mem (Run d)) w.
Proof.
  intros Hi. apply wp_zoom, wp_Run. split.
  - apply set_mem_frame_inv; [done|]. apply mem_frame_run.
  - by rewrite all_dones_run.
Qed.

Lemma KvOpCb_op req resp done_ C w :
  proc_inv C w → is_Some (Mem.resps (Process.mem w) !! resp) →
  op_spec [done_] C (KvOpCb req resp done_) w.
Proof.
  intros Hi Hresp. unfold op_spec, KvOpCb. wp_step. unfold wp at 1. simpl.
  destruct (PeerHost.local_peers_ (Process.host w) !! 1) as [a|] eqn:Ha.
  2: { do 2 wp_step; [by apply submseteq_cons|congruence]. }
  do 3 wp_step.
  destruct (in_table _ _ Hi _ _ Ha) as [p Hp].
  eapply wp_with_peer; [exact Hp|]. wp_step. apply wp_get_peer, wp_ret. rewrite put_context_id by done.
  simpl. destruct (Peer.IsLeader p) eqn:El; simpl.
  - eapply (with_peer_op _ _ _ [done_]); [done|exact Hp|].
    eapply wp_mono; [eapply ProposeKvOp_inv; [by eapply in_peers|done]| |].
    + intros [] x' (Hx & Hcl & Hm & _ & _ & Hs & Hwk & Hps & Hq). split_and!; [|done|].
      * split; try done; [by rewrite Hcl|by rewrite Hm].
      * unfold cx_dones, cx_runs. rewrite Hm, Hq.
        simpl. rewrite El. unfold dones. rewrite fmap_app, app_assoc. simpl.
        by rewrite Permutation_app_comm.
    + intros x' ->. by apply submseteq_cons.
  - wp_step. apply wp_zoom, wp_write_resp; [done|]. intros r Hr.
    refine (Run_op done_ C
      (Process.set_mem (Mem.set_resps <[resp := KvResp.set_rejected true r]> (Process.mem w)) w) _).
    apply set_mem_frame_inv; [done|]. by apply mem_frame_write.
Qed.

Lemma HandleRaftMsgCb_op req done_ C w :
  proc_inv C w → op_spec [done_] C (HandleRaftMsgCb req done_) w.
Proof.
  intros Hi. unfold op_spec, HandleRaftMsgCb. wp_step. unfold wp at 1. simpl.
  destruct (PeerHost.local_peers_ _ !! _) as [a|] eqn:Ha.
  2: { do 2 wp_step; [by apply submseteq_cons|congruence]. }
  do 3 wp_step.
  destruct (in_table _ _ Hi _ _ Ha) as [p Hp].
  eapply (wp_mono _ _ (λ _ w', proc_inv C w' ∧ all_dones w' ⊆+ all_dones w) _ (λ _, False));
    [| |done].
  { eapply wp_with_peer; [exact Hp|].
    eapply wp_mono; [eapply Step_inv, in_peers; [exact Hi|done]| |done].
    intros e x' (_ & Hx & Hcb). split.
    - eapply put_context_inv; [done|done|apply Hcb|done].
    - apply (put_context_dones a p x' w []); [done|apply Hcb]. }
  intros _ w' [Hi' Hd]. eapply wp_mono; [by apply Run_op| |].
  - intros [] w'' [Hi'' Hd'']. split; [done|]. etrans; [exact Hd''|]. simpl.
    by apply submseteq_skip.
  - intros w'' Hd''. etrans; [exact Hd''|]. simpl. by apply submseteq_skip.
Qed.
(** ** The steps of the system *)

Definition given_ok s : Prop := all_dones (Sys.proc s) ⊆+ Sys.given s ∧ NoDup (Sys.given s).

Definition sys_inv s : Prop := proc_inv (Sys.completed s) (Sys.proc s) ∧ given_ok s.

(** Running an operation for the closures [extra] of the given ones. *)
Lemma in_proc_op {A} extra (m : M Process.t A) C0 g0 g w :
  op_spec extra C0 m w → extra ++ all_dones w ⊆+ g → NoDup g → g = g0 →
  wp False (Sys.in_proc m) (λ _ s', sys_inv s') given_ok (Sys.mk w C0 g0).
Proof.
  intros Hop Hs Hnd ->. apply wp_zoom. eapply wp_mono; [exact Hop| |].
  - intros _ w' [Hi Hd]. split; [done|]. split; [by etrans|done].
  - intros w' Hd. split; [by etrans; [exact Hd|]|done].
Qed.

Lemma all_dones_tasks l w :
  all_dones (Process.set_tasks l w) =
    runs (Mem.trace (Process.mem w)) ++ pending_dones (Process.objs w) ++ (l ≫= task_dones).
Proof. done. Qed.

Lemma RunInLoop_op t d C w :
  proc_inv C w → task_live (Process.mem w) t → task_dones t = [d] →
  op_spec [d] C (RunInLoop t) w.
Proof.
  intros Hi Ht Hd. unfold op_spec, RunInLoop. do 2 wp_step.
  destruct (in_worker _ _ Hi) as [wk Hwk]. rewrite Hwk. wp_step. split.
  - apply set_tasks_inv; [done|]. intros t' [Hin| ->%list_elem_of_singleton]%elem_of_app;
      [by apply (in_tasks _ _ Hi)|done].
  - rewrite all_dones_tasks, bind_app. simpl. rewrite Hd, app_nil_r.
    unfold all_dones. solve_submseteq.
Qed.

Lemma new_resp_inv resp C w :
  proc_inv C w → Mem.resps (Process.mem w) !! resp = None →
  proc_inv C (Process.set_mem (Mem.set_resps <[resp := KvResp.default]> (Process.mem w)) w).
Proof.
  intros Hi Hn. eapply set_mem_inv; [exact Hi| |apply Hi].
  intros r Hr. simpl. rewrite lookup_insert_ne; [done|].
  intros <-. rewrite Hn in Hr. by apply is_Some_None in Hr.
Qed.

Lemma HandleRaftMsg_op req d C w : proc_inv C w → op_spec [d] C (HandleRaftMsg req d) w.
Proof.
  intros Hi. unfold op_spec, HandleRaftMsg. do 4 wp_step.
  - wp_step; [by apply submseteq_cons|congruence].
  - by apply RunInLoop_op.
Qed.

Lemma KvOp_op req resp d C w :
  proc_inv C w → Mem.resps (Process.mem w) !! resp = None →
  op_spec [d] C (Sys.new_resp resp ;; KvOp req resp d) w.
Proof.
  intros Hi Hn. unfold op_spec. wp_step. apply wp_zoom, wp_modify. simpl.
  refine (RunInLoop_op _ d C (Process.set_mem
    (Mem.set_resps <[resp := KvResp.default]> (Process.mem w)) w) _ _ _); [|simpl|done].
  - by apply new_resp_inv.
  - by rewrite lookup_insert_eq.
Qed.

Lemma task_op i t C w :
  proc_inv C w → Process.tasks w !! i = Some t →
  op_spec [] C (t ← Sys.pop_task i; run_task t) w.
Proof.
  intros Hi Ht. unfold op_spec. wp_step. unfold wp at 1, Sys.pop_task. rewrite Ht.
  set (w1 := Process.set_tasks (delete i (Process.tasks w)) w).
  assert (proc_inv C w1) as Hi1.
  { apply set_tasks_inv; [done|]. intros t' Hin. apply (in_tasks _ _ Hi).
    eapply sublist_subseteq; [apply sublist_delete|done]. }
  assert (all_dones w ≡ₚ task_dones t ++ all_dones w1) as Hd.
  { unfold w1. rewrite all_dones_tasks. unfold all_dones.
    rewrite <- (take_drop_middle _ _ _ Ht) at 1.
    rewrite delete_take_drop, !bind_app. simpl. solve_Permutation. }
  assert (task_live (Process.mem w) t) as Hlive
    by (eapply in_tasks; [exact Hi|by eapply list_elem_of_lookup_2]).
  destruct t as [req resp d|req d]; simpl in *.
  - eapply wp_mono; [by apply (KvOpCb_op req resp d C w1)| |].
    + intros a w'. simpl. by rewrite Hd.
    + intros w'. simpl. by rewrite Hd.
  - eapply wp_mono; [by apply (HandleRaftMsgCb_op req d C w1)| |].
    + intros a w'. simpl. by rewrite Hd.
    + intros w'. simpl. by rewrite Hd.
Qed.
Lemma RpcDone_op a c C w :
  proc_inv C w → is_Some (Process.objs w !! a) →
  c ∈ issued (Mem.trace (Process.mem w)) ∖ C →
  wp False (Process.with_peer a (Peer.HandleSendMsg2Peer c))
    (λ _ w', proc_inv ({[c]} ∪ C) w' ∧ all_dones w' = all_dones w) (λ _, False) w.
Proof.
  intros Hi [p Hp] Hc. eapply wp_with_peer; [exact Hp|].
  destruct (in_calls _ _ Hi) as (HC & Hcalls & Hnext).
  apply wp_zoom. unfold wp, delete_call. simpl.
  rewrite decide_True by (rewrite Hcalls; done). rewrite put_context_mem by done.
  split; [|done]. apply (set_mem_inv C); [done|done|].
  unfold calls_ok. simpl. split_and!; [set_solver| |done]. rewrite Hcalls. set_solver.
Qed.

Lemma fire_op i C w :
  proc_inv C w → is_Some (Process.timers w !! i) → op_spec [] C (Sys.fire i) w.
Proof.
  intros Hi [[per a] Ht]. unfold op_spec, Sys.fire. do 2 wp_step. rewrite Ht.
  apply Tick_op; [done|]. eapply in_timers; [exact Hi|]. by eapply list_elem_of_lookup_2.
Qed.

(** Every enabled step from a state of the invariant is defined and keeps it;
    an abort keeps the accounting of closures. *)
Lemma exec_wp l s :
  sys_inv s → Sys.enabled l s →
  wp False (Sys.exec l) (λ _ s', sys_inv s') given_ok s.
Proof.
  destruct s as [w C g]. intros (Hi & Hs & Hnd) He. simpl in *.
  destruct l as [req resp d|req d|i|i|a c]; simpl in *.
  - destruct He as [Hn Hd]. wp_step. apply wp_modify.
    eapply (in_proc_op [d]); [by apply KvOp_op| | |done].
    + rewrite (Permutation_app_comm g). by apply submseteq_skip.
    + apply NoDup_app. split_and!; [done|set_solver|by apply NoDup_singleton].
  - wp_step. apply wp_modify.
    eapply (in_proc_op [d]); [by apply HandleRaftMsg_op| | |done].
    + rewrite (Permutation_app_comm g). by apply submseteq_skip.
    + apply NoDup_app. split_and!; [done|set_solver|by apply NoDup_singleton].
  - destruct He as [t Ht]. eapply (in_proc_op []); [by eapply task_op|done..].
  - eapply (in_proc_op []); [by apply fire_op|done..].
  - destruct He as [Ha Hc]. wp_step. apply wp_zoom.
    eapply wp_mono; [by eapply RpcDone_op| |done].
    intros [] w' [Hi' Hd]. wp_step. split; [done|]. split; [|done]. simpl. by rewrite Hd.
Qed.

Lemma reachable_inv w s : proc_inv ∅ w → all_dones w = [] → Sys.reachable w s → sys_inv s.
Proof.
  intros Hi Hd Hr. assert (sys_inv (Sys.init w)) as H0'.
  { split; [done|]. split; simpl; [by rewrite Hd|constructor]. }
  revert H0'. induction Hr as [|s1 s2 s3 (l & He & E) _ IH]; intros Hs; [done|].
  apply IH. exact (wp_Ok _ _ _ _ _ _ _ (exec_wp l s1 Hs He) E).
Qed.
End system.
