(* ===== verification/Traces.v ===== *)
(** * Traces: no operation takes back what the process has done

    The trace of a process records the closures that ran, with the responses
    they could read, and the calls it issued.  Every operation of the peer, of
    the services and of the event loop only adds to it, whether it returns or
    aborts; so does a step of the whole process ([adds_exec]). *)
From S2P Require Import Prelude Wire RpcClient Runtime Storage Members Raft Config Proposals.
From S2P Require Import HostClients Peer Host Services System.

(** ** Computations that extend a list of the state *)

Definition extends {S E} (f : S → list E) : relation S := λ s s', f s `prefix_of` f s'.
#[export] Instance extends_preorder {S E} (f : S → list E) : PreOrder (extends f).
Proof. unfold extends. split; [intros s; reflexivity|]. intros s1 s2 s3 H12 H23. by etrans. Qed.

Definition adds {S E A} (f : S → list E) (m : M S A) : Prop := moves (extends f) m.

Section adds_rules.
Context {S E : Type} (f : S → list E).

Lemma adds_keeps {A} (m : M S A) : keeps f m → adds f m.
Proof.
  intros Hm s. specialize (Hm s). unfold extends, same in *.
  by destruct (m s); rewrite ?Hm.
Qed.
Lemma adds_bind {A C} (m : M S A) (k : A → M S C) :
  adds f m → (∀ a, adds f (k a)) → adds f (m ≫= k).
Proof. apply moves_bind, _. Qed.
Lemma adds_when b (m : M S unit) : adds f m → adds f (when b m).
Proof. apply moves_when, _. Qed.
Lemma adds_for_each {A} (g : A → M S unit) l : (∀ x, adds f (g x)) → adds f (for_each g l).
Proof. apply moves_for_each, _. Qed.
Lemma adds_zoom {T A} (get : S → T) put (h : T → list E) (m : M T A) :
  adds h m → (∀ s t, h (get s) `prefix_of` h t → f s `prefix_of` f (put t s)) →
  adds f (zoom get put m).
Proof.
  intros Hm Hput s. unfold zoom. specialize (Hm (get s)). unfold extends in *.
  destruct (m (get s)); auto.
Qed.
End adds_rules.

Create HintDb adds.
#[local] Hint Resolve adds_bind adds_when adds_for_each : adds.
#[local] Hint Extern 5 (adds _ _) => (apply adds_keeps; solve [auto with keeps]) : adds.

(** ** Memory and the queue of proposals *)

Lemma adds_Run d : adds Mem.trace (Run d).
Proof. intros m. by apply prefix_app_r. Qed.

Lemma adds_add_event e : adds Mem.trace (modify (Mem.add_event e)).
Proof. intros m. by apply prefix_app_r. Qed.

Lemma trace_write_resp p f : keeps Mem.trace (write_resp p f).
Proof. intros m. unfold write_resp. by destruct (_ !! _). Qed.

Lemma trace_new_call : keeps Mem.trace new_call.
Proof. done. Qed.

Lemma trace_delete_call c : keeps Mem.trace (delete_call c).
Proof. intros m. unfold delete_call. by case_decide. Qed.

#[local] Hint Resolve adds_Run adds_add_event : adds.
#[local] Hint Resolve trace_write_resp trace_new_call trace_delete_call : keeps.

Lemma adds_guard_dtor g : adds Mem.trace (ClosureGuard.dtor g).
Proof. unfold ClosureGuard.dtor, ClosureGuard.run_if_set. case_match; auto with adds. Qed.

Definition queue_trace (q : Queue.t) : list Event := Mem.trace (Queue.mem q).

Lemma adds_queue_mem {A} (m : M Mem.t A) :
  adds Mem.trace m → adds queue_trace (Proposals.in_mem m).
Proof. intros Hm. eapply adds_zoom; [exact Hm|done]. Qed.

Lemma adds_reject p : adds queue_trace (reject p).
Proof. apply adds_bind; [|intros _]; apply adds_queue_mem; auto with adds. Qed.

Lemma trace_pop_front : keeps queue_trace pop_front.
Proof. by apply keeps_modify. Qed.

#[local] Hint Resolve adds_guard_dtor adds_reject : adds.
#[local] Hint Resolve trace_pop_front : keeps.

Lemma adds_GetProposal_loop fuel i t : adds queue_trace (GetProposal_loop fuel i t).
Proof.
  induction fuel as [|fuel IH]; [done|]. simpl. apply adds_bind; [auto with adds|]. intros q.
  repeat case_match; auto 10 with adds.
Qed.

Lemma adds_GetProposal i t : adds queue_trace (GetProposal i t).
Proof. apply adds_bind; [auto with adds|]. intros q. apply adds_GetProposal_loop. Qed.

Lemma adds_CallbackAll : adds queue_trace CallbackAll.
Proof.
  apply adds_bind; [auto with adds|]. intros q. apply adds_bind; [auto with adds|].
  intros _. apply adds_keeps. by apply keeps_modify.
Qed.

(** ** The peer *)

Section peer.
Context `{FatalPolicy} `{KvCodec} `{BoostSplit} `{RpcNet} `{RawNode}.
Context {T : Type} `{KvStore T}.

Definition ctx_trace (x : Peer.Ctx T) : list Event := Mem.trace (Peer.mem x).

Lemma adds_in_mem {A} (m : M Mem.t A) : adds Mem.trace m → adds ctx_trace (Peer.in_mem m).
Proof. intros Hm. eapply adds_zoom; [exact Hm|done]. Qed.

Lemma adds_in_queue {A} (m : M Queue.t A) : adds queue_trace m → adds ctx_trace (Peer.in_queue m).
Proof. intros Hm. eapply adds_zoom; [exact Hm|done]. Qed.

Lemma trace_in_db {A} (m : M T A) : keeps ctx_trace (Peer.in_db m).
Proof. eapply (keeps_zoom _ _ _ (λ _, ())); [by intros s; destruct (m s)|done]. Qed.

Lemma trace_in_clients {A} (m : M ClientMgr.t A) : keeps ctx_trace (Peer.in_clients m).
Proof. eapply (keeps_zoom _ _ _ (λ _, ())); [by intros s; destruct (m s)|done]. Qed.

Lemma trace_get_peer : keeps ctx_trace Peer.get_peer.
Proof. done. Qed.

Lemma trace_set_raft r : keeps ctx_trace (Peer.set_raft r).
Proof. by apply keeps_modify. Qed.

#[local] Hint Resolve adds_in_mem adds_in_queue adds_GetProposal adds_CallbackAll : adds.
#[local] Hint Resolve trace_in_db trace_in_clients trace_get_peer trace_set_raft : keeps.

Lemma adds_ProcessNormal e p : adds ctx_trace (Peer.ProcessNormal e p).
Proof.
  unfold Peer.ProcessNormal, Peer.run_done. destruct (ParseFromString _) as [ok req].
  apply adds_bind; [auto with adds|]. intros _.
  destruct (KvReq.cmd_type req), p; auto 10 with adds.
Qed.

Lemma adds_ProcessEntries es : adds ctx_trace (Peer.ProcessEntries es).
Proof.
  apply adds_for_each. intros e. unfold Peer.ProcessEntry, Peer.ProcessConfChange.
  apply adds_bind; [auto with adds|]. intros self. apply adds_bind.
  - destruct (Peer.IsLeader self); auto 10 with adds.
  - intros p. case_decide; [apply adds_ProcessNormal|auto with adds].
Qed.

Lemma adds_SendMsg2Peer m : adds ctx_trace (Peer.SendMsg2Peer m).
Proof.
  unfold Peer.SendMsg2Peer. apply adds_bind; [auto with adds|]. intros self.
  destruct (_ !! _); [|auto with adds]. apply adds_bind; [auto with adds|].
  intros [c|]; auto 10 with adds.
Qed.

#[local] Hint Resolve adds_ProcessEntries adds_SendMsg2Peer : adds.

Lemma adds_Tick : adds ctx_trace Peer.Tick.
Proof.
  unfold Peer.Tick, Peer.HandleRaftReady, Peer.SendMsgs.
  do 2 (apply adds_bind; [auto with adds|intros ?]). apply adds_bind; [auto with adds|].
  intros self. case_match; [auto with adds|]. destruct (GetReady _) as [rd r]. auto 20 with adds.
Qed.

Lemma trace_ProposeKvOp req resp d : keeps ctx_trace (Peer.ProposeKvOp req resp d).
Proof.
  unfold Peer.ProposeKvOp, Peer.raft_Propose. destruct (SerializeToString req) as [ok s].
  repeat (apply keeps_bind; [|intros ?]); auto with keeps.
Qed.

Lemma trace_Step m : keeps ctx_trace (Peer.Step m).
Proof.
  unfold Peer.Step. apply keeps_bind; [auto with keeps|]. intros p.
  destruct (Raft.Step m _). apply keeps_bind; auto with keeps.
Qed.
End peer.

(** ** The process *)

Section process.
Context `{FatalPolicy} `{KvCodec} `{BoostSplit} `{RpcNet} `{RawNode} `{LevelDB}.

Definition proc_trace (w : Process.t) : list Event := Mem.trace (Process.mem w).

Lemma adds_proc_mem {A} (m : M Mem.t A) : adds Mem.trace m → adds proc_trace (Process.in_mem m).
Proof. intros Hm. eapply adds_zoom; [exact Hm|done]. Qed.

Lemma adds_with_peer {A} a (m : M (Peer.Ctx DiskStorage.t) A) :
  adds ctx_trace m → adds proc_trace (Process.with_peer a m).
Proof.
  intros Hm w. unfold Process.with_peer. destruct (Process.objs w !! a) as [p|]; [|done].
  by apply (adds_zoom proc_trace (Process.context p) (Process.put_context a) ctx_trace m Hm).
Qed.

Lemma trace_RunInLoop t : keeps proc_trace (RunInLoop t).
Proof. apply keeps_bind; [done|]. intros w. by destruct (PeerHost.mutable_worker _). Qed.

Lemma trace_lookup_peer i : keeps proc_trace (mutable_local_peers i).
Proof. done. Qed.

#[local] Hint Resolve adds_in_mem adds_proc_mem adds_with_peer adds_Tick : adds.
#[local] Hint Resolve trace_RunInLoop trace_lookup_peer trace_ProposeKvOp trace_Step
  trace_get_peer : keeps.

Lemma adds_run_task t : adds proc_trace (run_task t).
Proof.
  destruct t as [req resp d|req d]; simpl; (apply adds_bind; [auto with adds|]); intros [a|];
    (apply adds_bind; [auto with adds|intros _]); [|auto with adds|auto 10 with adds|
      auto with adds].
  apply adds_bind; [auto with adds|]. intros [|]; simpl; auto 10 with adds.
Qed.

Definition sys_trace (s : Sys.t) : list Event := proc_trace (Sys.proc s).

Lemma adds_in_proc {A} (m : M Process.t A) : adds proc_trace m → adds sys_trace (Sys.in_proc m).
Proof. intros Hm. eapply adds_zoom; [exact Hm|done]. Qed.

Lemma trace_give d : keeps sys_trace (Sys.give d).
Proof. by apply keeps_modify. Qed.

Lemma trace_pop_task i : keeps proc_trace (Sys.pop_task i).
Proof. intros w. unfold Sys.pop_task. by destruct (_ !! _). Qed.

Lemma trace_completed c :
  keeps sys_trace (modify (λ s, Sys.mk (Sys.proc s) ({[c]} ∪ Sys.completed s) (Sys.given s))).
Proof. by apply keeps_modify. Qed.

#[local] Hint Resolve trace_give trace_pop_task trace_completed : keeps.

(** A step of the process adds to its trace, however it ends. *)
Lemma adds_exec l : adds sys_trace (Sys.exec l).
Proof.
  destruct l as [req resp d|req d|i|i|a c]; simpl.
  - apply adds_bind; [auto with adds|]. intros _. apply adds_in_proc, adds_bind.
    + apply adds_proc_mem, adds_keeps. by apply keeps_modify.
    + intros _. apply adds_keeps, trace_RunInLoop.
  - apply adds_bind; [auto with adds|]. intros _. apply adds_in_proc.
    apply adds_bind; [auto with adds|]. intros w. auto 10 with adds.
  - apply adds_in_proc, adds_bind; [auto with adds|]. intros t.
    apply adds_run_task.
  - apply adds_in_proc, adds_bind; [auto with adds|]. intros w.
    destruct (_ !! _) as [[per a]|]; auto with adds.
  - apply adds_bind; [|auto with adds]. apply adds_in_proc. unfold Peer.HandleSendMsg2Peer.
    auto 10 with adds.
Qed.
End process.
