(* ===== verification/Hosting.v ===== *)
(** * Hosting: a running server as a raft node

    What a server process does to the raft node of its peer, seen from the
    network: every step of the process is a few steps of the node ([RaftNet]),
    the requests it has sent carry messages of the node, and its database is
    the fold of the committed entries the node handed out.  [hosted] is this
    relation between a process and a node; [exec_hosted] shows that it is a
    simulation. *)
From S2P Require Import Prelude Wire RpcClient Runtime Storage Members Raft Config Proposals.
From S2P Require Import HostClients Peer KvSpec PeerSafety PeerQueue Outbox RaftNet Host.
From S2P Require Import HostLaws Services System.

Section hosting.
Context `{FatalPolicy} `{KvCodec} `{BoostSplit} `{RpcNet} `{RawNodeLaws} `{LevelDBLaws}.
Context (Hf : fatal_aborts = true).
#[local] Hint Extern 0 (KvStoreLaws DiskStorage.t) => exact (ds_laws Hf) : typeclass_instances.
(* the member the server runs, the member list, the initial database *)
Context (self : GroupMember.t) (ms : peers_map) (m0 : kv_map).
Implicit Types (w : Process.t) (s : Sys.t) (x : Peer.Ctx DiskStorage.t) (n : node).
Implicit Types (wire : list news).

#[local] Abbreviation host := (GroupMember.host_id self).

(** Every request issued carries a message the nodes have sent. *)
Definition packets_ok wire (m : Mem.t) : Prop :=
  Forall (λ pk, ∃ msg, Sent msg ∈ wire ∧ carries self ms msg pk) (outbox m).

(** A request that belongs here: a message sent to this host's peer. *)
Definition arrives wire (req : RaftMsgReq.t) : Prop :=
  RaftMsgReq.to_peer req = meta_of self ∧ Sent (RaftMsgReq.msg req) ∈ wire ∧
  Message.to (RaftMsgReq.msg req) = host.

Record peer_hosted n (p : Peer.t DiskStorage.t) : Prop := {
  ph_self : Peer.self_ p = self;
  ph_peers : Peer.peers_ p = ms;
  ph_raft : Peer.raw_node_ p = node_raft n;
  ph_db : contents (Peer.kv_db_ p) = log_apply m0 (node_history n)
}.

Record hosted wire n w : Prop := {
  ho_peer : ∃ p, Process.objs w = {[0 := p]} ∧ peer_hosted n p;
  ho_host : PeerHost.host_id (Process.host w) = host;
  ho_table : PeerHost.local_peers_ (Process.host w) = {[GroupMember.peer_id self := 0]};
  ho_timers per a : (per, a) ∈ Process.timers w → a = 0;
  ho_clients : clients_routed ms (PeerHost.clients_ (Process.host w));
  ho_outbox : packets_ok wire (Process.mem w);
  ho_tasks req d : THandleRaftMsgCb req d ∈ Process.tasks w → arrives wire req
}.

Lemma packets_ok_mono wire wire' m : wire ⊆ wire' → packets_ok wire m → packets_ok wire' m.
Proof. intros Hs Hp. eapply Forall_impl; [exact Hp|]. naive_solver. Qed.

Lemma arrives_mono wire wire' req : wire ⊆ wire' → arrives wire req → arrives wire' req.
Proof. intros Hs (? & ? & ?). split_and!; auto. Qed.

Lemma hosted_mono wire wire' n w : wire ⊆ wire' → hosted wire n w → hosted wire' n w.
Proof.
  intros Hs [A B C D E F G]. split; try done; [by eapply packets_ok_mono|].
  intros req d Hin. eapply arrives_mono; [done|]. by eapply G.
Qed.

Lemma packets_ok_outbox wire m m' : outbox m' = outbox m → packets_ok wire m → packets_ok wire m'.
Proof. unfold packets_ok. by intros ->. Qed.

(** ** Changes of a process *)

Lemma hosted_set_mem wire n m w :
  hosted wire n w → outbox m = outbox (Process.mem w) → hosted wire n (Process.set_mem m w).
Proof. intros [A B C D E F G] Hm. split; try done. by eapply packets_ok_outbox. Qed.

Lemma hosted_set_tasks wire n l w :
  hosted wire n w → (∀ req d, THandleRaftMsgCb req d ∈ l → arrives wire req) →
  hosted wire n (Process.set_tasks l w).
Proof. intros [A B C D E F G] Hl. by split. Qed.

(** What the sender of [pks] adds to the requests issued. *)
Lemma packets_ok_sent wire x l out x' :
  self_of_ctx x = self → table_of_ctx x = ms → packets_ok wire (Peer.mem x) →
  sent_since x l x' → Sent <$> l ⊆ out → packets_ok (wire ++ out) (Peer.mem x').
Proof.
  intros Hs Ht Hp (_ & _ & _ & pks & Ho & Hpks) Hout. unfold packets_ok. rewrite Ho.
  apply Forall_app. split; [by eapply packets_ok_mono, Hp; set_solver|].
  rewrite Hs, Ht in Hpks. apply Forall_forall. intros pk Hin.
  apply list_elem_of_lookup in Hin as [k Hk].
  destruct (Forall2_lookup_r _ _ _ _ _ Hpks Hk) as (msg & Hmsg & Hc).
  exists msg. split; [|done]. apply elem_of_app. right. apply Hout.
  apply list_elem_of_fmap_2. by eapply list_elem_of_lookup_2.
Qed.

Lemma hosted_put wire l out n n' p x' w :
  hosted wire n w → Process.objs w = {[0 := p]} → peer_hosted n' (Peer.peer x') →
  sent_since (Process.context p w) l x' → Sent <$> l ⊆ out →
  Peer.self_ p = self → Peer.peers_ p = ms →
  hosted (wire ++ out) n' (Process.put_context 0 x' w).
Proof.
  intros [A B C D E F G] Hp Hx Hsent Hout Hs Ht. split; try done.
  - exists (Peer.peer x'). simpl. rewrite Hp, insert_singleton_eq. by split.
  - destruct Hsent as (_ & Ht' & Hr & _). unfold routed in Hr. simpl in Hr.
    rewrite Ht' in Hr. unfold table_of_ctx in Hr. simpl in Hr. by rewrite Ht in Hr.
  - by apply (packets_ok_sent wire (Process.context p w) l).
  - intros req d Hin. eapply arrives_mono; [|by eapply G].
    intros nw Hnw. apply elem_of_app. by left.
Qed.

(** ** Operations on the peer *)

(** [m] takes the process from the node [n], by steps of the node that hand out
    the entries [h] with the news [out], to a process of the new node; if it
    aborts, the node has stopped, with no news but messages. *)
Definition node_op {A} wire n (h : list Entry.t) (out : list news) (m : M Process.t A) w : Prop :=
  wp True m
    (λ _ w', ∃ n', node_steps host wire n n' out ∧ hosted (wire ++ out) n' w' ∧
                   node_history n' = node_history n ++ h)
    (λ w', ∃ n' out', node_steps host wire n n' [] ∧
                   node_stop n' (node_history n ++ h) out' ∧
                   packets_ok (wire ++ out') (Process.mem w')) w.

Lemma node_stop_here n : node_stop n (node_history n) [].
Proof. destruct n. constructor. Qed.

Lemma node_op_idle {A} wire n (m : M Process.t A) w :
  wp True m (λ _ w', hosted wire n w') (λ w', packets_ok wire (Process.mem w')) w →
  node_op wire n [] [] m w.
Proof.
  intros Hm. eapply wp_mono; [exact Hm| |].
  - intros a w' Hw. exists n. rewrite !app_nil_r. split_and!; [constructor|done..].
  - intros w' Hw. exists n, []. rewrite !app_nil_r.
    split_and!; [constructor|apply node_stop_here|done].
Qed.

Lemma with_peer_node {A} wire n h out (m : M (Peer.Ctx DiskStorage.t) A) w p :
  hosted wire n w → Process.objs w = {[0 := p]} → peer_hosted n p →
  wp True m
    (λ _ x', ∃ n' l, node_steps host wire n n' out ∧ peer_hosted n' (Peer.peer x') ∧
       sent_since (Process.context p w) l x' ∧ Sent <$> l ⊆ out ∧
       node_history n' = node_history n ++ h)
    (λ x', ∃ n' l, node_steps host wire n n' [] ∧
       node_stop n' (node_history n ++ h) (Sent <$> l) ∧
       sent_since (Process.context p w) l x') (Process.context p w) →
  node_op wire n h out (Process.with_peer 0 m) w.
Proof.
  intros Hw Hp [Hs Ht _ _] Hm. unfold node_op.
  eapply wp_with_peer; [by rewrite Hp, lookup_singleton_eq|]. eapply wp_mono; [exact Hm| |].
  - intros _ x' (n' & l & Hst & Hx & Hsent & Hl & Hh). exists n'.
    split_and!; [done| |done]. by eapply hosted_put.
  - intros x' (n' & l & Hst & Hstop & Hsent). exists n', (Sent <$> l).
    split_and!; [done..|]. apply (packets_ok_sent wire (Process.context p w) l); try done.
    apply Hw.
Qed.

Lemma context_routed wire n w p :
  hosted wire n w → peer_hosted n p → routed (Process.context p w).
Proof.
  intros Hw Hp. unfold routed, table_of_ctx. simpl. rewrite (ph_peers _ _ Hp).
  exact (ho_clients _ _ _ Hw).
Qed.

(** A tick of the node, with its round of Ready. *)
Lemma tick_steps i wire r h r' :
  tick_raft r r' →
  node_steps i wire (Node r h) (Node r' (h ++ tick_entries r)) (Sent <$> tick_messages r).
Proof.
  intros ->. unfold tick_entries, tick_messages, ready_messages. simpl.
  apply (nss_step i wire _ (Node (Raft.Tick r) h) _ []); [apply ns_tick|].
  rewrite app_nil_r.
  destruct (HasReady (Raft.Tick r)) eqn:Ehr; [|rewrite app_nil_r; constructor].
  apply node_steps_once, ns_ready; [done|]. by destruct (GetReady (Raft.Tick r)).
Qed.

Lemma tick_stops i wire r h k :
  node_steps i wire (Node r h) (Node (Raft.Tick r) h) [] ∧
  node_stop (Node (Raft.Tick r) h) (h ++ tick_entries r) (Sent <$> take k (tick_messages r)).
Proof.
  split; [apply node_steps_once, ns_tick|].
  unfold tick_messages, ready_messages, tick_entries.
  destruct (HasReady (Raft.Tick r)) eqn:Ehr.
  - apply (nt_ready _ _ _ (GetReady (Raft.Tick r)).2); [done|].
    by destruct (GetReady (Raft.Tick r)).
  - rewrite firstn_nil, app_nil_r. constructor.
Qed.

Lemma peer_inv_of C w p :
  proc_inv Hf C w → Process.objs w = {[0 := p]} → peer_inv (Process.context p w).
Proof. intros Hi Hp. eapply in_peers; [exact Hi|]. by rewrite Hp, lookup_singleton_eq. Qed.

Lemma Tick_node wire n w p C :
  proc_inv Hf C w → hosted wire n w → Process.objs w = {[0 := p]} → peer_hosted n p →
  node_op wire n (tick_entries (Peer.raw_node_ p)) (Sent <$> tick_messages (Peer.raw_node_ p))
    (Process.with_peer 0 Peer.Tick) w.
Proof.
  intros Hi Hw Hp Hn. eapply with_peer_node; [done..|].
  pose proof (peer_inv_of _ _ _ Hi Hp) as Hpi.
  pose proof (context_routed _ _ _ _ Hw Hn) as Hr. destruct n as [r h].
  pose proof (ph_raft _ _ Hn) as Er. simpl in Er.
  eapply wp_mono; [apply wp_and; [by apply wp_defined, Tick_inv|
    apply wp_defined, Tick_sends_wp; [apply Hpi..|done]]| |].
  - intros [] x' [[_ Hcb] Hsent].
    exists (Node (cx_raft x') (h ++ tick_entries r)), (tick_messages r).
    unfold cx_raft in *. simpl in *. rewrite Er in *. split_and!; [|split|done..].
    + apply tick_steps. pose proof (cb_raft _ _ _ _ Hcb) as Ht. unfold cx_raft in Ht.
      simpl in Ht. by rewrite Er in Ht.
    + rewrite (fr_self _ _ (cb_frame _ _ _ _ Hcb)). apply Hn.
    + rewrite (fr_peers _ _ (cb_frame _ _ _ _ Hcb)). apply Hn.
    + done.
    + simpl. pose proof (cb_contents _ _ _ _ Hcb) as Hc. unfold cx_db in Hc. simpl in Hc.
      rewrite Hc, log_apply_app. f_equal. apply Hn.
  - intros x' [_ [k Hsent]]. exists (Node (Raft.Tick r) h), (take k (tick_messages r)).
    unfold cx_raft in Hsent. simpl in Hsent. rewrite Er in *.
    destruct (tick_stops host wire r h k). by split_and!.
Qed.

Lemma sent_since_same x x' :
  routed x → links_of x' = links_of x → sent_since x [] x'.
Proof. intros Hr Hl. eapply sent_since_links; [by apply sent_since_nil|done]. Qed.

Lemma Step_node wire n w p m C :
  proc_inv Hf C w → hosted wire n w → Process.objs w = {[0 := p]} → peer_hosted n p →
  Sent m ∈ wire → Message.to m = host →
  node_op wire n [] [] (Process.with_peer 0 (Peer.Step m)) w.
Proof.
  intros Hi Hw Hp Hn Hm Hto. eapply with_peer_node; [done..|].
  pose proof (peer_inv_of _ _ _ Hi Hp) as Hpi.
  pose proof (context_routed _ _ _ _ Hw Hn) as Hr. destruct n as [r h], Hn as [Hs Ht Er Hd].
  eapply wp_mono; [apply (wp_keeps links_of); [by apply wp_defined, Step_wp, Hpi|
    apply keeps_Step]|..|by intros x' [[] _]].
  intros e x' [(_ & Hcb) Hl]. exists (Node (Raft.Step m r).2 h), [].
  pose proof (cb_raft _ _ _ _ Hcb) as Hraft. pose proof (cb_contents _ _ _ _ Hcb) as Hc.
  pose proof Hl as [= Hs' Ht' _ _]. unfold cx_raft, cx_db, self_of_ctx, table_of_ctx in *.
  simpl in *. rewrite Er in Hraft. split_and!.
  - by apply node_steps_once, ns_deliver.
  - split; simpl; congruence.
  - by apply sent_since_same.
  - done.
  - by rewrite app_nil_r.
Qed.

Lemma ProposeKvOp_node wire n w p req resp d :
  hosted wire n w → Process.objs w = {[0 := p]} → peer_hosted n p →
  node_op wire n [] (proposal_news (SerializeToString req).2 (Peer.raw_node_ p))
    (Process.with_peer 0 (Peer.ProposeKvOp req resp d)) w.
Proof.
  intros Hw Hp Hn. eapply with_peer_node; [done..|].
  pose proof (context_routed _ _ _ _ Hw Hn) as Hr. destruct n as [r h], Hn as [Hs Ht Er Hd].
  simpl in Er. eapply wp_mono; [apply (wp_keeps links_of); [by apply wp_defined, ProposeKvOp_wp|
    apply keeps_ProposeKvOp]|..].
  - intros [] x' [-> Hl]. exists (Node (Propose (SerializeToString req).2 r).2 h), [].
    rewrite Er. split_and!; [by apply node_steps_once, ns_propose| |by apply sent_since_same|
      apply list_subseteq_nil|by rewrite app_nil_r].
    unfold cx_raft. simpl in *. rewrite Er. by destruct (Peer.IsLeader p).
  - intros x' [-> _]. exists (Node r h), []. split_and!; [constructor| |by apply sent_since_nil].
    rewrite app_nil_r. constructor.
Qed.

(** ** The callbacks *)

Lemma table_self wire n w : hosted wire n w →
  PeerHost.local_peers_ (Process.host w) !! GroupMember.peer_id self = Some 0.
Proof. intros Hw. by rewrite (ho_table _ _ _ Hw), lookup_singleton_eq. Qed.

Lemma table_zero wire n w pid a : hosted wire n w →
  PeerHost.local_peers_ (Process.host w) !! pid = Some a → a = 0.
Proof. intros Hw. by rewrite (ho_table _ _ _ Hw), lookup_singleton_Some; intros [_ <-]. Qed.

(** The peer that client requests go to. *)
Definition kv_peer w : option (Peer.t DiskStorage.t) :=
  a ← PeerHost.local_peers_ (Process.host w) !! 1; Process.objs w !! a.

(** What a callback of the event loop tells the other nodes. *)
Definition task_news (t : Task) w : list news :=
  match t, kv_peer w with
  | TKvOpCb req _ _, Some p =>
      if Peer.IsLeader p then proposal_news (SerializeToString req).2 (Peer.raw_node_ p) else []
  | _, _ => []
  end.

Lemma KvOpCb_node wire n w req resp d :
  hosted wire n w → node_op wire n [] (task_news (TKvOpCb req resp d) w) (KvOpCb req resp d) w.
Proof.
  intros Hw. unfold KvOpCb, node_op, task_news, kv_peer. wp_step. unfold wp at 1. simpl.
  pose proof Hw as Hw'. destruct Hw' as [(p & Hp & Hn) _ _ _ _ Ho _].
  destruct (PeerHost.local_peers_ (Process.host w) !! 1) as [a|] eqn:Ha; simpl.
  2: { apply node_op_idle. do 2 wp_step; [done|congruence]. }
  apply (table_zero _ _ _ _ _ Hw) in Ha as ->. do 3 wp_step.
  assert (Process.objs w !! 0 = Some p) as Hp0 by by rewrite Hp, lookup_singleton_eq.
  eapply wp_with_peer; [exact Hp0|]. wp_step. apply wp_get_peer, wp_ret.
  rewrite put_context_id by done. rewrite Hp0. simpl. destruct (Peer.IsLeader p) eqn:El; simpl.
  { eapply ProposeKvOp_node; [exact Hw|exact Hp|exact Hn]. }
  apply node_op_idle. wp_step. apply wp_zoom. unfold wp at 1, write_resp.
  destruct (Mem.resps (Process.mem w) !! resp); [|done]. apply wp_zoom, wp_Run.
  apply hosted_set_mem; [by apply hosted_set_mem|]. by rewrite outbox_run.
Qed.

(** A request that belongs here is stepped: the peer it names exists. *)
Lemma HandleRaftMsgCb_node wire n w req d C :
  proc_inv Hf C w → hosted wire n w → arrives wire req →
  node_op wire n [] [] (HandleRaftMsgCb req d) w ∧
  ∀ msg w', HandleRaftMsgCb req d w ≠ Abort msg w'.
Proof.
  intros Hi Hw (Hto & Hm & Hmto). pose proof Hw as Hw'.
  destruct Hw' as [(p & Hp & Hn) _ _ _ _ _ _].
  assert (wp False (Process.with_peer 0 (Peer.Step (RaftMsgReq.msg req))) (λ _ _, True)
            (λ _, False) w) as Hna.
  { eapply wp_with_peer; [by rewrite Hp, lookup_singleton_eq|].
    eapply wp_mono; [by eapply Step_inv, peer_inv_of|done..]. }
  pose proof (Step_node _ _ _ _ _ _ Hi Hw Hp Hn Hm Hmto) as Hstep.
  unfold HandleRaftMsgCb, node_op in *. rewrite Hto. split.
  - wp_step. unfold wp at 1. simpl. rewrite (table_self _ _ _ Hw). do 3 wp_step.
    eapply wp_mono; [exact Hstep| |done].
    intros _ w' (n' & Hst & Hw' & Hh). apply wp_zoom, wp_Run. exists n'.
    split_and!; [done| |done]. apply hosted_set_mem; [done|]. by rewrite outbox_run.
  - intros msg w'. rewrite bind_eq. simpl. rewrite (table_self _ _ _ Hw). simpl.
    rewrite bind_eq. simpl. rewrite bind_eq. unfold wp in Hna.
    by destruct (Process.with_peer _ _ _).
Qed.

(** ** The steps of the process *)

(** Only requests that belong here come in from the other hosts. *)
Definition label_ok wire (l : Sys.label) : Prop :=
  match l with Sys.LRaftRequest req _ => arrives wire req | _ => True end.

(** A step that handles a raft message. *)
Definition handles_raft (l : Sys.label) s : Prop :=
  match l with
  | Sys.LRaftRequest _ _ => True
  | Sys.LTask i => ∃ req d, Process.tasks (Sys.proc s) !! i = Some (THandleRaftMsgCb req d)
  | _ => False
  end.

(** The raft node that a timer ticks. *)
Definition ticked_node (i : nat) w : option raw_node :=
  t ← Process.timers w !! i; p ← Process.objs w !! t.2; Some (Peer.raw_node_ p).

(** The committed entries raft hands out in a step: those of a tick's Ready. *)
Definition handed_out (l : Sys.label) s : list Entry.t :=
  match l with
  | Sys.LTick i => from_option tick_entries [] (ticked_node i (Sys.proc s))
  | _ => []
  end.

(** What a step tells the other nodes. *)
Definition news_of (l : Sys.label) s : list news :=
  match l with
  | Sys.LTick i =>
      from_option (λ r, Sent <$> tick_messages r) [] (ticked_node i (Sys.proc s))
  | Sys.LTask i =>
      match Process.tasks (Sys.proc s) !! i with
      | Some t => task_news t (Sys.proc s)
      | None => []
      end
  | _ => []
  end.

Definition sys_op wire n h out (m : M Sys.t unit) s : Prop :=
  wp True m
    (λ _ s', ∃ n', node_steps host wire n n' out ∧ hosted (wire ++ out) n' (Sys.proc s') ∧
                   node_history n' = node_history n ++ h)
    (λ s', ∃ n' out', node_steps host wire n n' [] ∧
                   node_stop n' (node_history n ++ h) out' ∧
                   packets_ok (wire ++ out') (Process.mem (Sys.proc s'))) s.

Lemma in_proc_sys wire n h out (m : M Process.t unit) s :
  node_op wire n h out m (Sys.proc s) → sys_op wire n h out (Sys.in_proc m) s.
Proof. intros Hm. by apply wp_zoom. Qed.

Lemma RunInLoop_hosted wire n t w :
  hosted wire n w → (∀ req d, t = THandleRaftMsgCb req d → arrives wire req) →
  node_op wire n [] [] (RunInLoop t) w.
Proof.
  intros Hw Ht. apply node_op_idle. unfold RunInLoop. do 2 wp_step.
  destruct (PeerHost.mutable_worker _); [|done]. wp_step. apply hosted_set_tasks; [done|].
  intros req d [Hin|Hin%list_elem_of_singleton]%elem_of_app; [by eapply ho_tasks|by eapply Ht].
Qed.

Lemma arrives_host wire n req w :
  hosted wire n w → arrives wire req →
  (PeerMeta.host_id (RaftMsgReq.to_peer req) =? PeerHost.host_id (Process.host w)) = true.
Proof. intros Hw (-> & _). rewrite (ho_host _ _ _ Hw). apply Z.eqb_refl. Qed.

Lemma HandleRaftMsg_hosted wire n req d w :
  hosted wire n w → arrives wire req → node_op wire n [] [] (HandleRaftMsg req d) w.
Proof.
  intros Hw Ha. unfold node_op, HandleRaftMsg. do 3 wp_step.
  rewrite (arrives_host _ _ _ _ Hw Ha). simpl. wp_step.
  apply RunInLoop_hosted; [done|]. by intros req' d' [= -> ->].
Qed.

Lemma pop_task_hosted wire n i t w :
  hosted wire n w → Process.tasks w !! i = Some t →
  hosted wire n (Process.set_tasks (delete i (Process.tasks w)) w) ∧
  ∀ req d, t = THandleRaftMsgCb req d → arrives wire req.
Proof.
  intros Hw Ht. split.
  - apply hosted_set_tasks; [done|]. intros req d Hin. eapply ho_tasks; [done|].
    eapply sublist_subseteq; [apply sublist_delete|exact Hin].
  - intros req d ->. eapply ho_tasks; [done|]. by eapply list_elem_of_lookup_2.
Qed.

Lemma pop_task_inv C i w :
  proc_inv Hf C w → proc_inv Hf C (Process.set_tasks (delete i (Process.tasks w)) w).
Proof.
  intros Hi. apply set_tasks_inv; [done|]. intros t Hin. apply (in_tasks _ _ _ Hi).
  eapply sublist_subseteq; [apply sublist_delete|done].
Qed.

Lemma task_hosted wire n i t C w :
  proc_inv Hf C w → hosted wire n w → Process.tasks w !! i = Some t →
  node_op wire n [] (task_news t w) (t ← Sys.pop_task i; run_task t) w.
Proof.
  intros Hi Hw Ht. destruct (pop_task_hosted _ _ _ _ _ Hw Ht) as [Hw1 Ha].
  apply (pop_task_inv _ i) in Hi. unfold node_op. wp_step. unfold wp at 1, Sys.pop_task.
  rewrite Ht. destruct t as [req resp d|req d]; [exact (KvOpCb_node _ _ _ req resp d Hw1)|].
  eapply HandleRaftMsgCb_node; [exact Hi|done|]. by eapply Ha.
Qed.

Lemma fire_hosted wire n i C w :
  proc_inv Hf C w → hosted wire n w → is_Some (Process.timers w !! i) →
  node_op wire n (from_option tick_entries [] (ticked_node i w))
    (from_option (λ r, Sent <$> tick_messages r) [] (ticked_node i w)) (Sys.fire i) w.
Proof.
  intros Hi Hw [[per a] Ht]. destruct (ho_peer _ _ _ Hw) as (p & Hp & Hn).
  assert (a = 0) as -> by (eapply ho_timers; [exact Hw|by eapply list_elem_of_lookup_2]).
  unfold ticked_node. rewrite Ht. simpl. rewrite Hp, lookup_singleton_eq. simpl.
  unfold node_op, Sys.fire. do 2 wp_step. rewrite Ht. by eapply Tick_node.
Qed.

Lemma exec_sys_op wire n l s :
  sys_inv Hf s → hosted wire n (Sys.proc s) → Sys.enabled l s → label_ok wire l →
  sys_op wire n (handed_out l s) (news_of l s) (Sys.exec l) s.
Proof.
  destruct s as [w C g]. intros [Hi _] Hw He Hl. simpl in *.
  destruct l as [req resp d|req d|i|i|a c]; simpl in *.
  - unfold sys_op. wp_step. apply wp_modify.
    apply (in_proc_sys wire n [] [] _ (Sys.mk w C (g ++ [d]))).
    unfold node_op. wp_step. apply wp_zoom, wp_modify. simpl.
    apply RunInLoop_hosted; [by apply hosted_set_mem|done].
  - unfold sys_op. wp_step. apply wp_modify.
    apply (in_proc_sys wire n [] [] _ (Sys.mk w C (g ++ [d]))).
    by apply HandleRaftMsg_hosted.
  - destruct He as [t Ht]. rewrite Ht. apply in_proc_sys. by eapply task_hosted.
  - apply in_proc_sys. by eapply fire_hosted.
  - destruct He as [[p Hp] _]. unfold sys_op. wp_step. apply wp_zoom.
    eapply wp_with_peer; [exact Hp|]. apply wp_zoom. unfold wp at 1, delete_call. simpl.
    case_decide; [|done]. wp_step. rewrite put_context_mem by done. exists n.
    rewrite !app_nil_r. split_and!; [constructor|by apply hosted_set_mem|done].
Qed.

(** Simulation: an enabled step of the process, in which only requests that
    belong here come in, is some steps of its node. *)
Lemma exec_hosted wire n l s :
  sys_inv Hf s → hosted wire n (Sys.proc s) → Sys.enabled l s → label_ok wire l →
  wp False (Sys.exec l)
    (λ _ s', ∃ n', node_steps host wire n n' (news_of l s) ∧ sys_inv Hf s' ∧
       hosted (wire ++ news_of l s) n' (Sys.proc s') ∧
       node_history n' = node_history n ++ handed_out l s)
    (λ s', ∃ n' out', node_steps host wire n n' [] ∧
       node_stop n' (node_history n ++ handed_out l s) out' ∧
       packets_ok (wire ++ out') (Process.mem (Sys.proc s'))) s.
Proof.
  intros Hi Hw He Hl.
  eapply wp_mono; [apply wp_and; [by apply exec_wp|by apply (exec_sys_op wire n)]| |].
  - intros [] s' [Hi' (n' & ? & ? & ?)]. by exists n'.
  - intros s' [_ (n' & out' & ?)]. by exists n', out'.
Qed.

(** A raft message that belongs here is handled: the process does not end. *)
Lemma exec_raft_returns wire n l s :
  sys_inv Hf s → hosted wire n (Sys.proc s) → Sys.enabled l s → label_ok wire l →
  handles_raft l s → ∃ s', Sys.exec l s = Ok () s'.
Proof.
  intros Hi Hw He Hl Hraft. pose proof (exec_wp Hf l s Hi He) as Hd. unfold wp in Hd.
  destruct (Sys.exec l s) as [[] s'|msg s'| |] eqn:E; [by exists s'| |done..]. exfalso.
  destruct s as [w C g], l as [req resp d|req d|i|i|a c]; simpl in *; try done.
  - revert E. rewrite bind_eq. simpl. unfold Sys.in_proc, zoom, HandleRaftMsg. simpl.
    rewrite bind_eq. simpl. rewrite (arrives_host _ _ _ _ Hw Hl), bind_eq. simpl.
    unfold RunInLoop. rewrite bind_eq. simpl. by destruct (PeerHost.mutable_worker _).
  - destruct Hraft as (req & d & Ht), Hi as [Hi _]. simpl in *.
    destruct (pop_task_hosted _ _ _ _ _ Hw Ht) as [Hw1 Ha].
    destruct (HandleRaftMsgCb_node _ _ _ req d _ (pop_task_inv _ i _ Hi) Hw1
      (Ha _ _ eq_refl)) as [_ Hno].
    revert E. unfold Sys.in_proc, zoom. simpl. rewrite bind_eq. unfold Sys.pop_task.
    rewrite Ht. simpl. destruct (HandleRaftMsgCb req d _); try done. by edestruct Hno.
Qed.
End hosting.
