(* ===== verification/Truth.v ===== *)
(** * Truth: what the clients of a server are told

    A server answers each client request it took with a rejection or with the
    answer of the abstract machine at some entry of the log its raft node
    handed it; if raft accepted the proposal of the request, that entry is at
    the term and index of the proposal.  [truth] is the invariant that shows
    it, over the queue of the peer, the callbacks of the event loop and the
    shared memory; [exec_truth] shows that every step of the process keeps it,
    and that the answers are right also when the process aborts.

    [asked] and [accepted] are ghost state: the requests that came in, and the
    closures of those whose proposal raft accepted, with the term and index the
    proposal got. *)
From S2P Require Import Prelude Wire RpcClient Runtime Storage Members Raft Config Proposals.
From S2P Require Import HostClients Peer KvSpec PeerSafety PeerQueue Answers Outbox RaftNet Host.
From S2P Require Import HostLaws Services System Hosting.

Record ghost : Type := Ghost {
  asked : list (KvReq.t * RespPtr * DonePtr);
  accepted : list (DonePtr * (Z * Z))
}.
Definition asked_dones (G : ghost) : list DonePtr := snd <$> asked G.
Definition ask (l : list (KvReq.t * RespPtr * DonePtr)) (G : ghost) : ghost :=
  Ghost (asked G ++ l) (accepted G).
Definition accept (l : list (DonePtr * (Z * Z))) (G : ghost) : ghost :=
  Ghost (asked G) (accepted G ++ l).

Lemma asked_unique G req resp req' resp' d :
  NoDup (asked_dones G) → (req, resp, d) ∈ asked G → (req', resp', d) ∈ asked G →
  req = req' ∧ resp = resp'.
Proof.
  unfold asked_dones. intros Hnd H1 H2.
  apply list_elem_of_lookup in H1 as [i Hi]. apply list_elem_of_lookup in H2 as [j Hj].
  assert (i = j) as ->.
  { eapply NoDup_lookup; [exact Hnd|by rewrite list_lookup_fmap, Hi|
      by rewrite list_lookup_fmap, Hj]. }
  naive_solver.
Qed.

Section truth.
Context `{KvCodec}.
Context (m0 : kv_map).
Implicit Types (G : ghost) (log : list Entry.t) (wire : list news) (q : list Proposal.t).
Implicit Types (m : Mem.t) (ts : list Task) (g : list DonePtr).

(** The request was proposed at the position. *)
Definition own wire (req : KvReq.t) (pos : Z * Z) : Prop :=
  ∃ s, SerializeToString req = (true, s) ∧ Proposed pos.1 pos.2 s ∈ wire.

(** What the run of the closure [d] tells the client, if it is one's. *)
Definition tells G log wire (d : DonePtr) (h : gmap Z KvResp.t) : Prop :=
  ∀ req resp, (req, resp, d) ∈ asked G →
    ∃ r, h !! resp = Some r ∧
      (KvResp.rejected r = true ∨
       ∃ k e, log !! k = Some e ∧ Entry.type e = kEntryNormal ∧ answerable (decode e) ∧
         r = kv_answer (log_apply m0 (take k log)) (decode e) KvResp.default ∧
         ∀ pos, (d, pos) ∈ accepted G → entry_pos e = pos ∧ own wire req pos).

Definition told G log wire (tr : list Event) : Prop :=
  ∀ d h, EvRun d h ∈ tr → tells G log wire d h.

Definition task_resp (t : Task) : list RespPtr :=
  match t with TKvOpCb _ resp _ => [resp] | THandleRaftMsgCb _ _ => [] end.

(** A pending proposal is that of a request. *)
Definition proposal_of G wire (p : Proposal.t) : Prop :=
  ∃ req, (req, Proposal.resp p, Proposal.done p) ∈ asked G ∧
    ∀ pos, (Proposal.done p, pos) ∈ accepted G → position p = pos ∧ own wire req pos.

Definition task_ok G (t : Task) : Prop :=
  match t with
  | TKvOpCb req resp d => (req, resp, d) ∈ asked G ∧ d ∉ (accepted G).*1
  | THandleRaftMsgCb _ d => d ∉ asked_dones G
  end.

(** The ghosts: closures are given once, and what raft accepted is the
    proposal of a request, once for each. *)
Record ghost_ok G wire : Prop := {
  go_nodup : NoDup (asked_dones G);
  go_once : NoDup (accepted G).*1;
  go_own d pos : (d, pos) ∈ accepted G → ∃ req resp, (req, resp, d) ∈ asked G ∧ own wire req pos
}.

Lemma go_asked G wire : ghost_ok G wire → (accepted G).*1 ⊆ asked_dones G.
Proof.
  intros Hg d ([? pos] & -> & Hin)%list_elem_of_fmap.
  destruct (go_own _ _ Hg _ _ Hin) as (req & resp & Ha & _).
  by apply (list_elem_of_fmap_2 snd _ (req, resp, _)).
Qed.

Lemma ghost_ok_nil wire : ghost_ok (Ghost [] []) wire.
Proof. split; [constructor..|]. by intros d pos ?%not_elem_of_nil. Qed.

Record truth G log wire g q ts m : Prop := {
  tr_given : asked_dones G ⊆ g;
  tr_ghost : ghost_ok G wire;
  tr_waiting : waiting m (ts ≫= task_resp) q;
  tr_queue : Forall (proposal_of G wire) q;
  tr_tasks : Forall (task_ok G) ts;
  tr_runs : told G log wire (Mem.trace m)
}.

(** ** Monotonicity *)

Lemma tells_mono G G' log log' wire wire' d h :
  tells G log wire d h →
  (∀ req resp, (req, resp, d) ∈ asked G' → (req, resp, d) ∈ asked G) →
  (∀ pos, (d, pos) ∈ accepted G' → (d, pos) ∈ accepted G) → log `prefix_of` log' → wire ⊆ wire' →
  tells G' log' wire' d h.
Proof.
  intros Ht Ha Hacc [l ->] Hw req resp Hin.
  destruct (Ht req resp (Ha _ _ Hin)) as (r & Hr & Hv). exists r. split; [done|].
  destruct Hv as [?|(k & e & Hk & Hty & Han & -> & Ho)]; [by left|right].
  exists k, e. rewrite (lookup_app_l_Some _ _ _ _ Hk), take_app_le
    by (apply lookup_lt_Some in Hk; lia). split_and!; [done..|].
  intros pos Hd. destruct (Ho pos (Hacc pos Hd)) as (He & s & Hs & Hp).
  split; [done|]. exists s. split; [done|by apply Hw].
Qed.

Lemma told_more G log log' wire wire' tr :
  told G log wire tr → log `prefix_of` log' → wire ⊆ wire' → told G log' wire' tr.
Proof. intros Ht Hl Hw d h Hin. eapply tells_mono; eauto. Qed.

Lemma proposal_of_more G wire wire' p :
  wire ⊆ wire' → proposal_of G wire p → proposal_of G wire' p.
Proof.
  intros Hw (req & Ha & Ho). exists req. split; [done|]. intros pos Hd.
  destruct (Ho pos Hd) as (Hp & s & ? & ?). split; [done|]. exists s. auto.
Qed.

Lemma own_more wire wire' req pos : wire ⊆ wire' → own wire req pos → own wire' req pos.
Proof. intros Hw (s & Hs & Hp). exists s. auto. Qed.

Lemma ghost_ok_more G wire wire' : wire ⊆ wire' → ghost_ok G wire → ghost_ok G wire'.
Proof.
  intros Hw [A B C]. split; [done..|]. intros d pos (req & resp & Ha & Ho)%C.
  exists req, resp. split; [done|]. by eapply own_more.
Qed.

Lemma truth_more G log wire wire' g q ts m :
  wire ⊆ wire' → truth G log wire g q ts m → truth G log wire' g q ts m.
Proof.
  intros Hw [A B D E F R]. split; try done; [by eapply ghost_ok_more|..].
  - eapply Forall_impl; [exact E|]. intros p. by apply proposal_of_more.
  - eapply told_more; [exact R|done|done].
Qed.

(** Memory with the same responses and more events that are no answers. *)
Lemma truth_mem G log wire g q ts m m' :
  Mem.resps m' = Mem.resps m → Mem.trace m' = Mem.trace m →
  truth G log wire g q ts m → truth G log wire g q ts m'.
Proof.
  intros Hr Ht [A B D E F R]. split; try done; [by eapply waiting_resps|by rewrite Ht].
Qed.

(** ** Requests come in *)

Lemma task_ok_ask G l t :
  task_ok G t → (∀ d, d ∈ task_dones t → d ∉ l.*2) → task_ok (ask l G) t.
Proof.
  destruct t as [req resp d|req d]; simpl.
  - intros [? ?] _. split; [|done]. apply elem_of_app. by left.
  - intros Hd Hl. unfold asked_dones. simpl. rewrite fmap_app, not_elem_of_app.
    split; [done|]. apply Hl. by left.
Qed.

Lemma truth_kv_request G log wire g q ts m req resp d :
  truth G log wire g q ts m → Mem.resps m !! resp = None → d ∉ g →
  runs (Mem.trace m) ++ (ts ≫= task_dones) ⊆ g →
  truth (ask [(req, resp, d)] G) log wire (g ++ [d]) q (ts ++ [TKvOpCb req resp d])
    (Mem.set_resps <[resp := KvResp.default]> m).
Proof.
  intros [A B [D1 D2] E F R] Hn Hd Hruns. pose proof (go_asked _ _ B) as Hacc.
  assert (resp ∉ (Proposal.resp <$> q) ++ (ts ≫= task_resp)) as Hfresh.
  { intros Hin. eapply Forall_forall in D2; [|exact Hin]. simpl in D2. congruence. }
  split.
  - unfold asked_dones. simpl. rewrite fmap_app. simpl. set_solver.
  - destruct B as [B1 B2 B3]. split; [|done|].
    + unfold asked_dones. simpl. rewrite fmap_app. simpl. apply NoDup_app.
      split_and!; [done| |by apply NoDup_singleton]. set_solver.
    + intros d' pos (req' & resp' & Ha & Ho)%B3. exists req', resp'. split; [|done].
      apply elem_of_app. by left.
  - unfold waiting. rewrite bind_app. simpl. rewrite app_assoc. split.
    + apply NoDup_app. split_and!; [done| |by apply NoDup_singleton]. set_solver.
    + apply Forall_app. split.
      * apply Forall_forall. intros a Ha. simpl. rewrite lookup_insert_ne by (by intros ->).
        by apply (proj1 (Forall_forall _ _) D2).
      * constructor; [|constructor]. simpl. by rewrite lookup_insert_eq.
  - eapply Forall_impl; [exact E|]. intros p (req' & Ha & Ho). exists req'.
    split; [|done]. simpl. set_solver.
  - apply Forall_app. split.
    + apply Forall_forall. intros t Ht. apply task_ok_ask; [by apply (proj1 (Forall_forall _ _) F)|].
      intros d' Hd' ->%list_elem_of_singleton. apply Hd, Hruns, elem_of_app. right.
      apply list_elem_of_bind. by exists t.
    + constructor; [|constructor]. split; [simpl; set_solver|]. simpl.
      intros Hin. by apply Hd, A, Hacc.
  - intros d' h Hin. simpl in Hin. eapply tells_mono; [by apply R| |done..].
    intros req' resp' [Ha|Ha%list_elem_of_singleton]%elem_of_app; [done|]. simplify_eq.
    exfalso. apply Hd, Hruns, elem_of_app. left. apply elem_of_runs. by exists h.
Qed.

Lemma truth_raft_request G log wire g q ts m req d :
  truth G log wire g q ts m → d ∉ g →
  truth G log wire (g ++ [d]) q (ts ++ [THandleRaftMsgCb req d]) m.
Proof.
  intros [A B D E F R] Hd. split; try done; [set_solver| |].
  - rewrite bind_app. simpl. by rewrite app_nil_r.
  - apply Forall_app. split; [done|]. constructor; [|constructor]. simpl. set_solver.
Qed.

(** ** Callbacks run *)

Lemma tasks_pop {A} (f : Task → list A) ts i t :
  ts !! i = Some t → ts ≫= f ≡ₚ f t ++ (delete i ts ≫= f).
Proof.
  intros Ht. rewrite <- (take_drop_middle _ _ _ Ht) at 1.
  rewrite delete_take_drop, !bind_app. simpl. solve_Permutation.
Qed.

Lemma waiting_perm m rs rs' q : rs ≡ₚ rs' → waiting m rs q → waiting m rs' q.
Proof. unfold waiting. by intros ->. Qed.

(** The callback leaves the list; its response stays apart. *)
Lemma truth_pop G log wire g q ts m i t :
  truth G log wire g q ts m → ts !! i = Some t →
  truth G log wire g q (delete i ts) m ∧ task_ok G t ∧
  waiting m (task_resp t ++ (delete i ts ≫= task_resp)) q.
Proof.
  intros [A B D E F R] Ht. pose proof (tasks_pop task_resp _ _ _ Ht) as Hp.
  pose proof (waiting_perm _ _ _ _ Hp D) as [D1 D2]. rewrite <- Hp in D1, D2.
  split_and!; [|by eapply Forall_lookup_1|by eapply waiting_perm].
  split; try done.
  - split.
    + rewrite Hp in D1. rewrite (Permutation_app_comm (task_resp t)), app_assoc in D1.
      by apply NoDup_app in D1 as [? _].
    + rewrite Hp in D2. apply Forall_app in D2 as [D3 [_ D4]%Forall_app].
      by apply Forall_app.
  - by apply Forall_delete.
Qed.

Lemma told_run G log wire tr d h :
  told G log wire tr → tells G log wire d h → told G log wire (tr ++ [EvRun d h]).
Proof.
  intros Ht Hd d' h' [Hin|Hin%list_elem_of_singleton]%elem_of_app; [by apply Ht|].
  by injection Hin as -> ->.
Qed.

(** A raft request is acknowledged: its closure is no client's. *)
Lemma truth_acknowledge G log wire g q ts m d :
  truth G log wire g q ts m → d ∉ asked_dones G →
  truth G log wire g q ts (Mem.add_event (EvRun d (Mem.resps m)) m).
Proof.
  intros [A B D E F R] Hd. split; try done. simpl. apply told_run; [done|].
  intros req resp Ha. exfalso. apply Hd. unfold asked_dones.
  by apply (list_elem_of_fmap_2 snd) in Ha.
Qed.

(** A peer that does not lead rejects the request. *)
Lemma truth_reject G log wire g q ts m i req resp d r :
  truth G log wire g q ts m → ts !! i = Some (TKvOpCb req resp d) →
  let m' := Mem.set_resps <[resp := KvResp.set_rejected true r]> m in
  truth G log wire g q (delete i ts) (Mem.add_event (EvRun d (Mem.resps m')) m').
Proof.
  intros Ht Hi m'. destruct (truth_pop _ _ _ _ _ _ _ _ _ Ht Hi)
    as ([A B [D1 D2] E F R] & [Ha _] & [W1 W2]). simpl in W1, W2.
  split; try done.
  - split; [done|]. apply Forall_forall. intros a Hin. simpl.
    rewrite lookup_insert_ne; [by apply (proj1 (Forall_forall _ _) D2)|].
    intros <-. apply NoDup_app in W1 as (_ & W3 & W1).
    apply NoDup_cons in W1 as [Hnot _].
    apply elem_of_app in Hin as [Hin|Hin]; [|done]. apply (W3 _ Hin). by left.
  - simpl. apply told_run; [done|]. intros req' resp' Ha'.
    destruct (asked_unique _ _ _ _ _ _ (go_nodup _ _ B) Ha Ha') as [<- <-].
    exists (KvResp.set_rejected true r). rewrite lookup_insert_eq. split; [done|by left].
Qed.

(** A leader queues a proposal for the request. *)
Lemma truth_propose G log wire g q ts m i req resp d t ix acc out :
  truth G log wire g q ts m → ts !! i = Some (TKvOpCb req resp d) →
  d ∉ dones q → d ∉ delete i ts ≫= task_dones → d ∉ runs (Mem.trace m) → d ∈ g →
  (acc = true → own (wire ++ out) req (t, ix)) →
  truth (accept (if acc then [(d, (t, ix))] else []) G) log (wire ++ out) g
    (q ++ [Proposal.mk ix t resp d]) (delete i ts) m.
Proof.
  intros Ht Hi Hq Hts Hr Hg Hacc. destruct (truth_pop _ _ _ _ _ _ _ _ _ Ht Hi)
    as ([A B D E F R] & [Ha Hna] & W). simpl in W.
  assert (wire ⊆ wire ++ out) as Hwire by set_solver.
  assert (∀ d' pos, d' ≠ d → (d', pos) ∈ accepted (accept (if acc then [(d, (t, ix))] else []) G) →
    (d', pos) ∈ accepted G) as Hold.
  { intros d' pos Hne [?|Hin]%elem_of_app; [done|].
    destruct acc; [|by apply not_elem_of_nil in Hin].
    apply list_elem_of_singleton in Hin. congruence. }
  split; try done.
  - apply (ghost_ok_more _ _ _ Hwire) in B. destruct acc;
      [|unfold accept; rewrite app_nil_r; by destruct G].
    destruct B as [B1 B2 B3]. split; [done| |]; simpl.
    + rewrite fmap_app. apply NoDup_app. split_and!; [done| |by apply NoDup_singleton].
      by intros d' Hd' ->%list_elem_of_singleton.
    + intros d' pos [Hin|[= -> ->]%list_elem_of_singleton]%elem_of_app; [by eapply B3|].
      exists req, resp. auto.
  - unfold waiting in *. rewrite fmap_app, <- app_assoc. exact W.
  - apply Forall_app. split.
    + apply Forall_forall. intros p Hp. pose proof (proj1 (Forall_forall _ _) E p Hp) as Hpo.
      destruct (proposal_of_more _ _ _ _ Hwire Hpo) as (req' & Ha' & Ho). exists req'.
      split; [done|]. intros pos Hin. apply Ho, Hold; [|done]. intros Heq. apply Hq. rewrite <- Heq.
      by apply list_elem_of_fmap_2.
    + constructor; [|constructor]. exists req. split; [done|]. simpl. intros pos Hin.
      assert (acc = true ∧ pos = (t, ix)) as [Hb ->]; [|by auto].
      apply elem_of_app in Hin as [Hin|Hin]; [by apply (list_elem_of_fmap_2 fst) in Hin|].
      destruct acc; [|by apply not_elem_of_nil in Hin].
      apply list_elem_of_singleton in Hin. naive_solver.
  - apply Forall_forall. intros t' Ht'. pose proof (proj1 (Forall_forall _ _) F t' Ht') as Hok.
    destruct t' as [req' resp' d'|req' d']; [|done]. destruct Hok as [? Hd']. split; [done|].
    intros ([? pos] & Heq & Hin)%list_elem_of_fmap. simpl in Heq. subst.
    apply Hd'. apply (list_elem_of_fmap_2 fst _ (_, pos)). eapply Hold; [|exact Hin].
    intros ->. apply Hts, list_elem_of_bind.
    exists (TKvOpCb req' resp' d). split; [by left|done].
  - intros d' h Hin. eapply tells_mono; [by apply R|done| |done|done].
    intros pos. apply Hold. intros ->. apply Hr, elem_of_runs. by exists h.
Qed.

(** ** A tick *)

(** Answers that are right for the entries of a round are right in the log. *)
Lemma settled_told G log es wire q tr tr' :
  ghost_ok G wire → Forall (proposal_of G wire) q → told G log wire tr →
  settled (log_apply m0 log) es q tr tr' → told G (log ++ es) wire tr'.
Proof.
  intros [Hnd _ _] Hq Ht (evs & -> & Hevs) d h [Hin|Hin]%elem_of_app.
  { eapply tells_mono; [by apply Ht|done|done|by apply prefix_app_r|done]. }
  eapply Forall_forall in Hevs; [|exact Hin]. simpl in Hevs.
  destruct Hevs as (p & r & Hp & -> & Hr & Hv).
  destruct (proj1 (Forall_forall _ _) Hq p Hp) as (req & Ha & Ho). intros req' resp' Ha'.
  destruct (asked_unique _ _ _ _ _ _ Hnd Ha Ha') as [<- <-]. exists r. split; [done|].
  apply verdict_after in Hv as [?|(k & e & Hk & Hpos & Hty & Han & ->)]; [by left|right].
  exists k, e. split_and!; [done..|]. intros pos Hacc. destruct (Ho pos Hacc) as [Hp' Ho'].
  unfold entry_pos. by rewrite <- Hpos, Hp'.
Qed.

Lemma truth_tick G log es wire out g q q' ts m m' :
  truth G log wire g q ts m → q' `suffix_of` q → waiting m' (ts ≫= task_resp) q' →
  settled (log_apply m0 log) es q (Mem.trace m) (Mem.trace m') →
  truth G (log ++ es) (wire ++ out) g q' ts m'.
Proof.
  intros Ht Hsuf Hw Hset. apply (truth_more _ _ _ (wire ++ out)) in Ht; [|set_solver].
  destruct Ht as [A B D E F R]. split; try done.
  - destruct Hsuf as [l ->]. by apply Forall_app in E as [_ ?].
  - by eapply settled_told.
Qed.
End truth.

(** ** The steps of the process *)

Section exec.
Context `{FatalPolicy} `{KvCodec} `{BoostSplit} `{RpcNet} `{RawNodeLaws} `{LevelDBLaws}.
Context (Hf : fatal_aborts = true).
#[local] Hint Extern 0 (KvStoreLaws DiskStorage.t) => exact (ds_laws Hf) : typeclass_instances.
Context (self : GroupMember.t) (ms : peers_map) (m0 : kv_map).
Implicit Types (w : Process.t) (s : Sys.t) (x : Peer.Ctx DiskStorage.t).
Implicit Types (G : ghost) (log : list Entry.t) (wire : list news).

(** The request a step takes, and the closure whose proposal raft accepts, with
    the position it gets. *)
Definition asked_by (l : Sys.label) : list (KvReq.t * RespPtr * DonePtr) :=
  match l with Sys.LKvRequest req resp d => [(req, resp, d)] | _ => [] end.

Definition accepts (p : Peer.t DiskStorage.t) (req : KvReq.t) : bool :=
  Peer.IsLeader p &&
  bool_decide ((Propose (SerializeToString req).2 (Peer.raw_node_ p)).1 = kOk).

Definition accepted_by (l : Sys.label) s : list (DonePtr * (Z * Z)) :=
  match l with
  | Sys.LTask i =>
      match Process.tasks (Sys.proc s) !! i, kv_peer (Sys.proc s) with
      | Some (TKvOpCb req _ d), Some p =>
          if accepts p req
          then [(d, (Raft.term (Peer.raw_node_ p), LastIndex (Peer.raw_node_ p) + 1))] else []
      | _, _ => []
      end
  | _ => []
  end.

(** What a step tells the other nodes is messages, and what raft accepts. *)
Lemma news_accepted l s nw :
  nw ∈ news_of l s →
  (∃ m, nw = Sent m) ∨ ∃ d t ix str, nw = Proposed t ix str ∧ (d, (t, ix)) ∈ accepted_by l s.
Proof.
  destruct l as [| |i|i|]; simpl; try by intros ?%not_elem_of_nil.
  - destruct (Process.tasks _ !! i) as [t|]; [|by intros ?%not_elem_of_nil].
    destruct t as [req resp d|req d]; unfold task_news; [|by intros ?%not_elem_of_nil].
    destruct (kv_peer _) as [p|]; [|by intros ?%not_elem_of_nil]. unfold accepts, proposal_news.
    destruct (Peer.IsLeader p) eqn:El; [|by intros ?%not_elem_of_nil].
    unfold Peer.IsLeader in El. rewrite El. simpl.
    case_bool_decide; [|by intros ?%not_elem_of_nil].
    intros ->%list_elem_of_singleton. right. eexists d, _, _, _. split; [done|by left].
  - destruct (ticked_node _ _) as [rn|]; simpl; [|by intros ?%not_elem_of_nil].
    intros (m & -> & _)%list_elem_of_fmap. left. by exists m.
Qed.

Definition proc_truth G log wire g w : Prop :=
  ∃ p, Process.objs w = {[0 := p]} ∧
       truth m0 G log wire g (Peer.proposals_ p) (Process.tasks w) (Process.mem w).

Lemma closures_nodup s p :
  given_ok s → Process.objs (Sys.proc s) = {[0 := p]} →
  let w := Sys.proc s in
  NoDup (runs (Mem.trace (Process.mem w)) ++ dones (Peer.proposals_ p) ++
         (Process.tasks w ≫= task_dones)) ∧
  runs (Mem.trace (Process.mem w)) ++ (Process.tasks w ≫= task_dones) ⊆ Sys.given s.
Proof.
  intros [Hs Hnd] Hp w.
  assert (all_dones w = runs (Mem.trace (Process.mem w)) ++ dones (Peer.proposals_ p) ++
    (Process.tasks w ≫= task_dones)) as E.
  { unfold all_dones. do 2 f_equal. unfold w. rewrite Hp. unfold pending_dones.
    by rewrite map_to_list_singleton; simpl; rewrite app_nil_r. }
  split; [rewrite <- E; by eapply NoDup_submseteq|].
  intros d Hd. eapply elem_of_submseteq; [|exact Hs]. fold w. rewrite E.
  rewrite !elem_of_app in *. tauto.
Qed.

(** ** On the peer *)

Lemma proc_truth_put G log wire g x' w p :
  Process.objs w = {[0 := p]} →
  truth m0 G log wire g (cx_props x') (Process.tasks w) (Peer.mem x') →
  proc_truth G log wire g (Process.put_context 0 x' w).
Proof.
  intros Hp Ht. exists (Peer.peer x'). split; [|exact Ht].
  simpl. by rewrite Hp, insert_singleton_eq.
Qed.

Lemma Tick_truth G log wire out g w p C :
  proc_inv Hf C w → Process.objs w = {[0 := p]} →
  contents (Peer.kv_db_ p) = log_apply m0 log →
  truth m0 G log wire g (Peer.proposals_ p) (Process.tasks w) (Process.mem w) →
  wp True (Process.with_peer 0 Peer.Tick)
    (λ _ w', proc_truth G (log ++ tick_entries (Peer.raw_node_ p)) (wire ++ out) g w')
    (λ w', told m0 G (log ++ tick_entries (Peer.raw_node_ p)) wire (Mem.trace (Process.mem w'))) w.
Proof.
  intros Hi Hp Hdb Ht. pose proof (peer_inv_of _ _ _ _ Hi Hp) as Hpi.
  eapply wp_with_peer; [by rewrite Hp, lookup_singleton_eq|].
  eapply wp_mono; [apply wp_and; [by apply wp_defined, Tick_inv|apply wp_defined;
    eapply Tick_answers; [apply Hpi..|exact (tr_waiting _ _ _ _ _ _ _ _ Ht)]]| |].
  - intros [] x' [[_ Hcb] [Hw Hset]]. eapply proc_truth_put; [exact Hp|].
    eapply truth_tick; [exact Ht|apply Hcb|exact Hw|]. rewrite <- Hdb. exact Hset.
  - intros x' [_ Hset].
    eapply settled_told; [apply Ht|apply Ht|apply Ht|rewrite <- Hdb; exact Hset].
Qed.

Lemma ProposeKvOp_serialized req resp d x :
  wp True (Peer.ProposeKvOp req resp d)
    (λ _ _, SerializeToString req = (true, (SerializeToString req).2)) (λ _, True) x.
Proof.
  destruct (SerializeToString req) as [[|] s] eqn:Es.
  - eapply wp_mono; [apply wp_defined, ProposeKvOp_wp|done..].
  - unfold wp, Peer.ProposeKvOp. rewrite Es. simpl.
    by rewrite (bind_Abort _ _ _ _ _ (fatal_Abort _ x Hf)).
Qed.

Lemma LastIndex_next (p : Peer.t DiskStorage.t) :
  Peer.NextProposalIndex p = LastIndex (Peer.raw_node_ p) + 1.
Proof.
  unfold Peer.NextProposalIndex. pose proof (LastIndex_bounds (Peer.raw_node_ p)).
  apply u64_small. lia.
Qed.

Lemma KvOpCb_truth G log wire s i req resp d w p :
  w = Sys.proc s → given_ok s → Process.objs w = {[0 := p]} →
  PeerHost.local_peers_ (Process.host w) = {[GroupMember.peer_id self := 0]} →
  Process.tasks w !! i = Some (TKvOpCb req resp d) →
  truth m0 G log wire (Sys.given s) (Peer.proposals_ p) (Process.tasks w) (Process.mem w) →
  wp True (KvOpCb req resp d)
    (λ _ w', proc_truth (accept (accepted_by (Sys.LTask i) s) G) log
               (wire ++ news_of (Sys.LTask i) s) (Sys.given s) w')
    (λ w', told m0 G log wire (Mem.trace (Process.mem w')))
    (Process.set_tasks (delete i (Process.tasks w)) w).
Proof.
  intros -> Hg Hp Hn Hi Ht. simpl. rewrite Hi. unfold task_news, kv_peer, KvOpCb.
  wp_step. unfold wp at 1. simpl. rewrite Hn.
  pose proof (tr_runs _ _ _ _ _ _ _ _ Ht) as Htold.
  destruct ({[_ := 0]} !! 1) as [a|] eqn:Ha; simpl; [|do 2 wp_step; done || congruence].
  apply lookup_singleton_Some in Ha as [_ <-]. rewrite Hp, lookup_singleton_eq. do 3 wp_step.
  set (w1 := Process.set_tasks _ _).
  assert (Process.objs w1 !! 0 = Some p) as Hp0 by (simpl; by rewrite Hp, lookup_singleton_eq).
  eapply wp_with_peer; [exact Hp0|]. wp_step. apply wp_get_peer, wp_ret.
  rewrite put_context_id by done. simpl. unfold accepts.
  destruct (Peer.IsLeader p) eqn:El; simpl.
  - eapply wp_with_peer; [exact Hp0|].
    eapply wp_mono; [apply wp_and; [by apply wp_defined, ProposeKvOp_wp|
      apply ProposeKvOp_serialized]| |by intros x' [-> _]].
    intros [] x' [-> Hs]. simpl. rewrite El. eapply proc_truth_put; [exact Hp|].
    change (cx_props _) with (Peer.proposals_ p ++ [Proposal.mk (Peer.NextProposalIndex p)
      (Raft.term (Peer.raw_node_ p)) resp d]). rewrite LastIndex_next.
    destruct (closures_nodup s p Hg Hp) as [Hnd Hsub].
    rewrite (tasks_pop task_dones _ _ _ Hi) in Hnd. simpl in Hnd.
    eapply truth_propose; [exact Ht|exact Hi|..].
    + apply NoDup_app in Hnd as (_ & _ & Hnd). apply NoDup_app in Hnd as (_ & Hnd & _).
      intros Hin. apply (Hnd _ Hin). by left.
    + apply NoDup_app in Hnd as (_ & _ & Hnd). apply NoDup_app in Hnd as (_ & _ & Hnd).
      by apply NoDup_cons in Hnd as [? _].
    + apply NoDup_app in Hnd as (_ & Hnd & _). intros Hin. apply (Hnd _ Hin).
      apply elem_of_app. right. by left.
    + apply Hsub, elem_of_app. right. apply list_elem_of_bind.
      exists (TKvOpCb req resp d). split; [by left|by eapply list_elem_of_lookup_2].
    + intros Hacc. exists (SerializeToString req).2. split; [done|].
      apply elem_of_app. right. unfold proposal_news. unfold Peer.IsLeader in El.
      rewrite El, Hacc. simpl. by left.
  - unfold accept. rewrite !app_nil_r. destruct G as [G1 G2]. simpl.
    wp_step. apply wp_zoom. unfold wp at 1, write_resp. simpl.
    destruct (Mem.resps (Process.mem (Sys.proc s)) !! resp) as [r|]; [|done].
    apply wp_zoom, wp_Run. exists p. split; [done|]. by eapply truth_reject.
Qed.

Lemma HandleRaftMsgCb_truth G log wire g i req d w p :
  Process.objs w = {[0 := p]} →
  PeerHost.local_peers_ (Process.host w) = {[GroupMember.peer_id self := 0]} →
  Process.tasks w !! i = Some (THandleRaftMsgCb req d) →
  truth m0 G log wire g (Peer.proposals_ p) (Process.tasks w) (Process.mem w) →
  wp True (HandleRaftMsgCb req d) (λ _ w', proc_truth G log wire g w')
    (λ w', told m0 G log wire (Mem.trace (Process.mem w')))
    (Process.set_tasks (delete i (Process.tasks w)) w).
Proof.
  intros Hp Hn Hi Ht. destruct (truth_pop _ _ _ _ _ _ _ _ _ _ Ht Hi) as (Ht1 & Hd & _).
  simpl in Hd. pose proof (tr_runs _ _ _ _ _ _ _ _ Ht) as Htold.
  unfold HandleRaftMsgCb. wp_step. unfold wp at 1. simpl. rewrite Hn.
  destruct ({[_ := 0]} !! _) as [a|] eqn:Ha; simpl; [|do 2 wp_step; done || congruence].
  apply lookup_singleton_Some in Ha as [_ <-]. do 3 wp_step.
  eapply wp_with_peer; [simpl; by rewrite Hp, lookup_singleton_eq|].
  unfold Peer.Step. do 2 peer_step. destruct (Raft.Step _ _) as [e r]. do 3 peer_step.
  apply wp_zoom, wp_Run. eexists. split; [simpl; by rewrite Hp, insert_singleton_eq|].
  by apply truth_acknowledge.
Qed.

(** Every step of a hosted server keeps the invariant, and when the process
    aborts in the step, what its clients were told is right all the same. *)
Lemma exec_truth G log wire n l s :
  sys_inv Hf s → hosted Hf self ms m0 wire n (Sys.proc s) → node_history n = log →
  Sys.enabled l s → proc_truth G log wire (Sys.given s) (Sys.proc s) →
  wp True (Sys.exec l)
    (λ _ s', proc_truth (accept (accepted_by l s) (ask (asked_by l) G))
               (log ++ handed_out l s) (wire ++ news_of l s) (Sys.given s') (Sys.proc s'))
    (λ s', told m0 G (log ++ handed_out l s) wire (Mem.trace (Process.mem (Sys.proc s')))) s.
Proof.
  intros [Hi Hg] Hw Hlog He (p & Hp & Ht).
  pose proof (ho_table _ _ _ _ _ _ _ Hw) as Htab.
  assert (contents (Peer.kv_db_ p) = log_apply m0 log) as Hdb.
  { destruct (ho_peer _ _ _ _ _ _ _ Hw) as (p' & Hp' & Hn). rewrite Hp in Hp'.
    apply (inj (singletonM 0)) in Hp' as <-. rewrite <- Hlog. apply Hn. }
  assert (told m0 G log wire (Mem.trace (Process.mem (Sys.proc s)))) as Htold by apply Ht.
  destruct (closures_nodup s p Hg Hp) as [_ Hsub].
  destruct s as [w C g]. simpl in *. destruct l as [req resp d|req d|i|i|a c];
    simpl in *; rewrite ?app_nil_r.
  - destruct He as [Hr Hd]. wp_step. apply wp_modify, wp_zoom. simpl.
    wp_step. apply wp_zoom, wp_modify. unfold KvOp, RunInLoop. do 2 wp_step. simpl.
    destruct (PeerHost.mutable_worker _); [|done]. wp_step. exists p. split; [done|].
    unfold accept. simpl. rewrite app_nil_r. by apply truth_kv_request.
  - wp_step. apply wp_modify, wp_zoom. simpl. unfold HandleRaftMsg, RunInLoop. do 3 wp_step.
    eapply (wp_mono _ _ (λ _ w', w' = w) _ (λ w', w' = w)); [by wp_steps| |by intros w' ->].
    intros [] w' ->. do 2 wp_step. destruct (PeerHost.mutable_worker _); [|done]. wp_step.
    exists p. split; [done|]. destruct G as [G1 G2]. unfold accept, ask. simpl.
    rewrite !app_nil_r. by apply truth_raft_request.
  - destruct He as [t Hti]. apply wp_zoom. simpl. wp_step. unfold wp at 1, Sys.pop_task.
    rewrite Hti. destruct G as [G1 G2]. unfold ask. simpl. rewrite app_nil_r.
    destruct t as [req resp d|req d]; simpl.
    + pose proof (KvOpCb_truth (Ghost G1 G2) log wire (Sys.mk w C g) i req resp d w p
        eq_refl Hg Hp Htab Hti Ht) as Hop. simpl in Hop. by rewrite Hti in Hop.
    + unfold accept, task_news. simpl. rewrite !app_nil_r. by eapply HandleRaftMsgCb_truth.
  - destruct He as [[per a] Hti]. apply wp_zoom. simpl. unfold Sys.fire. do 2 wp_step.
    rewrite Hti. assert (a = 0) as ->
      by (eapply (ho_timers _ _ _ _ _ _ _ Hw); by eapply list_elem_of_lookup_2).
    unfold ticked_node. rewrite Hti. simpl. rewrite Hp, lookup_singleton_eq. simpl.
    destruct G as [G1 G2]. unfold accept, ask. simpl. rewrite !app_nil_r. by eapply Tick_truth.
  - destruct He as [[q Hq] _]. wp_step. apply wp_zoom. eapply wp_with_peer; [exact Hq|].
    apply wp_zoom. unfold wp at 1, delete_call. simpl. case_decide; [|done]. wp_step.
    rewrite put_context_mem by done. exists p. split; [done|].
    destruct G as [G1 G2]. unfold accept, ask. simpl. rewrite !app_nil_r.
    by eapply truth_mem; [..|exact Ht].
Qed.
End exec.
