(* ===== verification/EchoServer.v ===== *)
(** * EchoServer: the server program (example/echo/server)

    The command-line flags, their checks and the wiring of [main]: one worker,
    one host, one peer with its timer, the two services.  The theorems about a
    running server process are here, for every state reachable from the one
    [main] sets up. *)
From S2P Require Import Prelude Wire RpcClient Runtime CString Storage Members Raft Config.
From S2P Require Import Proposals HostClients Peer KvSpec PeerSafety PeerQueue Host HostLaws Services.
From S2P Require Import System.

Module ServerFlags.
Record t : Type := mk {
  host_id : Z; peer_id : Z; ip : string; port : Z; members : string;
  heartbeat_interval : Z; election_interval : Z;
  log_level : string; host_path : string
}.
Definition default : t := mk 0 0 "127.0.0.1" 0 "" 0 0 "info" "./host".
End ServerFlags.

Module EchoServer.
Section EchoServer.
Context `{FatalPolicy} `{KvCodec} `{BoostSplit} `{RpcNet} `{RawNode} `{LevelDB}
        `{PeerInit.HashOrder}.
Import ServerFlags.

Definition CheckFlags {S} (fl : ServerFlags.t) : M S unit :=
  when (host_id fl =? 0) (fatal "should input host id") ;;
  when (peer_id fl =? 0) (fatal "should input peer id") ;;
  when (bool_decide (ip fl = "")) (fatal "should input ip") ;;
  when ((port fl <? 1024) || (65535 <? port fl)) (fatal "should input correct port") ;;
  when (bool_decide (members fl = "")) (fatal "should input members") ;;
  when (bool_decide (log_level fl = "")) (fatal "should input log level") ;;
  when (bool_decide (host_path fl = "")) (fatal "should input host path").

(** [std::make_shared<jraft::MemoryStorage>()] and [event_wc->GetWorker()]. *)
Context (new_MemoryStorage : mem_storage) (GetWorker : WorkerPtr).

Definition host_option (fl : ServerFlags.t) : PeerHostOption.t :=
  PeerHostOption.mk (host_id fl) GetWorker
    (host_path fl +:+ "_" +:+ to_string (host_id fl)) (Some new_MemoryStorage).

(** The options main leaves alone keep the defaults of config.h. *)
Definition peer_option (fl : ServerFlags.t) (host_opt : PeerHostOption.t) : PeerOption.t :=
  let d := PeerOption.default in
  PeerOption.mk (host_id fl) (peer_id fl) (ip fl) (u16 (port fl))
    (PeerHostOption.worker host_opt) (members fl)
    (PeerOption.election_tick d) (PeerOption.heartbeat_tick d)
    (PeerHostOption.storage host_opt)
    (PeerOption.max_size_per_msg d) (PeerOption.max_committed d)
    (PeerOption.max_uncommitted_entries_size d) (PeerOption.max_inflight_msgs d)
    (PeerOption.max_inflight_bytes d) (PeerOption.check_quorum d) (PeerOption.pre_vote d)
    (PeerOption.read_only_option d) (PeerOption.disable_proposal_forwarding d).

(** The part of main that works on the host. *)
Definition construct_peer (fl : ServerFlags.t) : M Process.t unit :=
  AddLocalPeer (peer_option fl (host_option fl)) ;;
  peer ← mutable_local_peers (peer_id fl);
  match peer with
  | None => ub "StartTimer() on nullptr"
  | Some a => StartTimer a
  end.

(** From the file system to the process. *)
Definition construct_process (fl : ServerFlags.t) : M filesystem Process.t := λ f,
  match construct_peer fl (Process.start (PeerHost.ctor (host_option fl)) f) with
  | Ok _ w => Ok w (Process.fs w)
  | Abort msg w => Abort msg (Process.fs w)
  | Ub what => Ub what
  | Stuck => Stuck
  end.

(** main, up to the event loop: the process it starts to serve with. *)
Definition main (fl : ServerFlags.t) : M filesystem Process.t :=
  CheckFlags fl ;; construct_process fl.
End EchoServer.
End EchoServer.

Section server.
Context `{FatalPolicy} `{KvCodec} `{BoostSplit} `{RpcNet} `{RawNodeLaws} `{LevelDBLaws}
        `{PeerInit.HashOrderLaws}.
Context (Hf : fatal_aborts = true).
#[local] Existing Instance ds_laws.
Context (new_MemoryStorage : mem_storage) (GetWorker : WorkerPtr).
Implicit Types (fl : ServerFlags.t).

(** The flags the server starts with. *)
Definition valid_flags fl : Prop :=
  ServerFlags.host_id fl ≠ 0 ∧ ServerFlags.peer_id fl ≠ 0 ∧ ServerFlags.ip fl ≠ "" ∧
  1024 ≤ ServerFlags.port fl ≤ 65535 ∧ ServerFlags.members fl ≠ "" ∧
  ServerFlags.log_level fl ≠ "" ∧ ServerFlags.host_path fl ≠ "".
#[export] Instance valid_flags_dec fl : Decision (valid_flags fl).
Proof. unfold valid_flags. apply _. Defined.

Lemma CheckFlags_wp {S} fl (s : S) :
  wp False (EchoServer.CheckFlags fl) (λ _ s', valid_flags fl ∧ s' = s)
    (λ s', ¬ valid_flags fl ∧ s' = s) s.
Proof.
  unfold EchoServer.CheckFlags, valid_flags. wp_steps; try congruence.
  all: repeat match goal with
    | H : bool_decide _ = true |- _ => apply bool_decide_eq_true in H
    | H : bool_decide _ = false |- _ => apply bool_decide_eq_false in H
    end.
  all: split; [|done]; naive_solver lia.
Qed.

(** ** What main sets up *)

Definition server_peer fl : PeerOption.t :=
  EchoServer.peer_option fl (EchoServer.host_option new_MemoryStorage GetWorker fl).

(** A host with one peer, its timer running, and nothing else. *)
Record serving fl (ms : peers_map) (w : Process.t) : Prop := {
  sv_opt : PeerHost.host_opt_ (Process.host w) =
             EchoServer.host_option new_MemoryStorage GetWorker fl;
  sv_table : PeerHost.local_peers_ (Process.host w) = {[ServerFlags.peer_id fl := 0]};
  sv_clients : PeerHost.clients_ (Process.host w) = ClientMgr.empty;
  sv_objs : ∃ p, Process.objs w = {[0 := p]} ∧
    fresh_peer (server_peer fl) (PeerHostOption.db_path (PeerHost.host_opt_ (Process.host w)))
      ms p;
  sv_mem : Process.mem w = Mem.empty;
  sv_tasks : Process.tasks w = [];
  sv_timers : Process.timers w = [(100, 0)]
}.

Context (snap0 : Snapshot.t).
Context (Hsnap : GetSnapshot new_MemoryStorage = (kOk, Some snap0)).
Context (Hvoters : ConfState.voters (Snapshot.conf_state snap0) = []).
Context (Hworker : is_Some GetWorker).

#[local] Abbreviation main := (EchoServer.main new_MemoryStorage GetWorker).

Lemma construct_peer_wp fl ms f :
  InitGroupMembers (ServerFlags.members fl) ∅ = Ok () ms →
  wp False (EchoServer.construct_peer new_MemoryStorage GetWorker fl)
    (λ _ w, serving fl ms w) (λ _, True)
    (Process.start (PeerHost.ctor (EchoServer.host_option new_MemoryStorage GetWorker fl)) f).
Proof.
  intros Hms. unfold EchoServer.construct_peer. wp_step.
  eapply wp_mono; [eapply (AddLocalPeer_wp Hf _ ms new_MemoryStorage snap0)| |done];
    [done|done|done|by rewrite Hvoters; intros h ?%not_elem_of_nil|].
  intros [] w (_ & Hpid & _ & p & f' & Hp & ->). simpl in *. wp_step.
  unfold wp at 1. simpl. rewrite lookup_insert_eq. unfold StartTimer. wp_step.
  eapply wp_with_peer; [simpl; by rewrite lookup_insert_eq|]. wp_step.
  apply wp_get_peer, wp_ret. simpl. rewrite (fp_worker _ _ _ _ Hp). simpl.
  destruct Hworker as [wk Hwk]. rewrite Hwk. wp_step. rewrite <- !Hwk.
  split; try done. exists p. split; [|done]. simpl. by rewrite insert_insert_eq.
Qed.

Lemma main_wp fl ms f :
  InitGroupMembers (ServerFlags.members fl) ∅ = Ok () ms →
  wp False (main fl) (λ w _, valid_flags fl ∧ serving fl ms w) (λ _, True) f.
Proof.
  intros Hms. unfold EchoServer.main. wp_step.
  eapply wp_mono; [apply CheckFlags_wp| |done]. intros [] f' [Hv ->].
  pose proof (construct_peer_wp fl ms f Hms) as Hw. unfold wp in *.
  unfold EchoServer.construct_process. by destruct (EchoServer.construct_peer _ _ _ _).
Qed.

(** The set-up process satisfies the invariant. *)
Lemma serving_inv fl ms w :
  serving fl ms w → proc_inv Hf ∅ w ∧ all_dones w = [].
Proof.
  intros [Ho Ht Hcl (p & Hp & Hfr) Hm Htk Hti]. split.
  - split.
    + unfold PeerHost.mutable_worker. rewrite Ho. exact Hworker.
    + intros pid a. rewrite Ht, Hp, lookup_singleton_Some. intros [<- <-].
      by rewrite lookup_singleton_eq.
    + intros per a. rewrite Hti, Hp. intros [= -> ->]%list_elem_of_singleton.
      by rewrite lookup_singleton_eq.
    + intros a q. rewrite Hp, lookup_singleton_Some. intros [<- <-]. split.
      * split; unfold cx_props, cx_db; simpl.
        -- rewrite (fp_props _ _ _ _ Hfr). constructor.
        -- apply Hfr.
        -- rewrite Hcl. done.
      * intros h Hh. simpl. rewrite (fp_peers _ _ _ _ Hfr).
        by apply (fp_members _ _ _ _ Hfr).
      * unfold queue_ok, cx_props. simpl. rewrite (fp_props _ _ _ _ Hfr). repeat constructor.
    + rewrite Htk. intros t Hin. by apply not_elem_of_nil in Hin.
    + rewrite Hm. split_and!; [done|done|]. intros c Hc. by apply not_elem_of_empty in Hc.
  - unfold all_dones. rewrite Hm, Htk, Hp. unfold pending_dones.
    rewrite map_to_list_singleton. simpl. by rewrite (fp_props _ _ _ _ Hfr).
Qed.

(** The states of a server started with the flags [fl]. *)
Definition running fl (s : Sys.t) : Prop :=
  ∃ ms f w f', InitGroupMembers (ServerFlags.members fl) ∅ = Ok () ms ∧
               main fl f = Ok w f' ∧ Sys.reachable w s.

Lemma running_start fl s :
  running fl s → ∃ ms w, valid_flags fl ∧ serving fl ms w ∧ Sys.reachable w s.
Proof.
  intros (ms & f & w & f' & Hms & E & Hr). exists ms, w.
  destruct (wp_Ok _ _ _ _ _ _ _ (main_wp fl ms f Hms) E) as [Hv Hs]. by split_and!.
Qed.

Lemma running_inv fl s : running fl s → sys_inv Hf s.
Proof.
  intros (ms & w & _ & Hs & Hr)%running_start. apply serving_inv in Hs as [Hi Hd].
  by eapply reachable_inv.
Qed.

(** ** Properties of a running server *)

(** The checks of the server's flags, with an aborting FATAL: they pass
    exactly on non-zero ids, a port from 1024 to 65535 and non-empty strings,
    and change nothing; on any other flags the process ends. *)
Theorem CheckFlags_correct {S} fl (s : S) :
  EchoServer.CheckFlags fl s = Ok () s ∧ valid_flags fl ∨
  (∃ msg, EchoServer.CheckFlags fl s = Abort msg s) ∧ ¬ valid_flags fl.
Proof.
  pose proof (CheckFlags_wp fl s) as Hw. unfold wp in Hw.
  destruct (EchoServer.CheckFlags fl s) as [[] s'|msg s'| |]; try done.
  - destruct Hw as [Hv ->]. by left.
  - destruct Hw as [Hv ->]. right. split; [by exists msg|done].
Qed.

(** C33 Start-up: with a member list that parses, main never has undefined
    behaviour; if it does not abort, the flags were valid and the process
    has exactly the peer of the flags in its table, built with the parsed
    members as raft voters, an open database in its own directory, no
    proposal, and one timer of 100 ms that ticks it. *)
Theorem main_correct fl ms f :
  InitGroupMembers (ServerFlags.members fl) ∅ = Ok () ms →
  wp False (main fl) (λ w _, valid_flags fl ∧ serving fl ms w) (λ _, True) f.
Proof. apply main_wp. Qed.

(** C7 Safety of the running server: in every state reachable by any
    interleaving of requests, callbacks, ticks and RPC completions, every
    enabled step either returns, in a state of the running server again, or
    aborts the process through a FATAL record: no null or dangling pointer, no
    end iterator, no double delete, no endless loop. *)
Theorem server_never_undefined fl s l :
  running fl s → Sys.enabled l s →
  (∃ s', Sys.exec l s = Ok () s' ∧ running fl s') ∨
  (∃ msg s', Sys.exec l s = Abort msg s').
Proof.
  intros Hrun He. pose proof (exec_wp Hf l s (running_inv _ _ Hrun) He) as Hw.
  unfold wp in Hw. destruct (Sys.exec l s) as [[] s'|msg s'| |] eqn:E; try done; [|by eauto].
  left. exists s'. split; [done|]. destruct Hrun as (ms & f & w & f' & Hms & Hm & Hr).
  exists ms, f, w, f'. split_and!; [done..|]. eapply rtc_r; [exact Hr|]. by exists l.
Qed.

(** C9 At most one answer per request: in every reachable state, and also in
    the state in which the process aborts, the closures that ran, those of
    the pending proposals and those of the waiting callbacks are pairwise
    distinct and were all handed out with a request, so no closure runs
    twice and none that was run is still pending. *)
Theorem closures_run_once fl s :
  running fl s →
  (NoDup (all_dones (Sys.proc s)) ∧ all_dones (Sys.proc s) ⊆+ Sys.given s) ∧
  ∀ l msg s', Sys.enabled l s → Sys.exec l s = Abort msg s' →
    NoDup (all_dones (Sys.proc s')) ∧ all_dones (Sys.proc s') ⊆+ Sys.given s'.
Proof.
  intros Hrun. assert (∀ s, given_ok s →
    NoDup (all_dones (Sys.proc s)) ∧ all_dones (Sys.proc s) ⊆+ Sys.given s) as Hg.
  { intros s0 [Hs Hnd]. split; [by eapply NoDup_submseteq|done]. }
  pose proof (running_inv _ _ Hrun) as Hi. split; [apply Hg, Hi|].
  intros l msg s' He E. apply Hg.
  pose proof (exec_wp Hf l s Hi He) as Hw. unfold wp in Hw. by rewrite E in Hw.
Qed.

(** C19 The pending proposals of every peer of a running server are ordered by
    (term, index), each was made at a moment its peer led, and their
    responses are alive: the conditions under which [GetProposal] sorts the
    whole queue out. *)
Theorem running_queue_sorted fl s a p :
  running fl s → Process.objs (Sys.proc s) !! a = Some p →
  queue_sorted (Peer.proposals_ p) ∧
  Forall (proposed_by (Peer.raw_node_ p)) (Peer.proposals_ p) ∧
  live (Process.mem (Sys.proc s)) (Peer.proposals_ p).
Proof.
  intros Hrun Ha. destruct (in_peers _ _ _ (proj1 (running_inv _ _ Hrun)) _ _ Ha)
    as [Hok _ [Hs Hp]]. split_and!; [done|done|apply Hok].
Qed.

(** The call objects of outgoing RPCs: the live ones are exactly those of
    the calls issued whose callback has not run, so every pair is deleted by
    its callback once, and none leaks after it. *)
Theorem running_rpc_calls fl s :
  running fl s →
  Mem.calls (Process.mem (Sys.proc s)) =
    issued (Mem.trace (Process.mem (Sys.proc s))) ∖ Sys.completed s.
Proof. intros Hrun. by destruct (in_calls _ _ _ (proj1 (running_inv _ _ Hrun))) as (_ & ? & _). Qed.

(** ** What does not change while serving: the peers, their table and the timers *)

Definition fixtures (w : Process.t) : gmap Z Z * gset Z * list (Z * Z) :=
  (PeerHost.local_peers_ (Process.host w), dom (Process.objs w), Process.timers w).

Lemma keeps_with_peer_fixtures {A} a (m : M (Peer.Ctx DiskStorage.t) A) :
  keeps fixtures (Process.with_peer a m).
Proof.
  intros w. unfold Process.with_peer, zoom.
  destruct (Process.objs w !! a) eqn:Ha; [|done].
  assert (∀ x, fixtures (Process.put_context a x w) = fixtures w) as Hput.
  { intros x. unfold fixtures. simpl. by rewrite dom_insert_lookup_L by (by eexists). }
  destruct (m _); try done; apply Hput.
Qed.

Lemma keeps_in_mem_fixtures {A} (m : M Mem.t A) : keeps fixtures (Process.in_mem m).
Proof. eapply (keeps_zoom _ _ _ (λ _, ())); [by intros s; destruct (m s)|done]. Qed.

Lemma keeps_lookup_peer i : keeps fixtures (mutable_local_peers i).
Proof. done. Qed.

Lemma keeps_RunInLoop_fixtures t : keeps fixtures (RunInLoop t).
Proof.
  apply keeps_bind; [done|]. intros w. by destruct (PeerHost.mutable_worker _).
Qed.

#[local] Hint Resolve keeps_with_peer_fixtures keeps_in_mem_fixtures keeps_lookup_peer
  keeps_RunInLoop_fixtures : keeps.

Lemma keeps_run_task_fixtures t : keeps fixtures (run_task t).
Proof.
  destruct t as [req resp d|req d]; simpl; (apply keeps_bind; [auto with keeps|]); intros [a|];
    (apply keeps_bind; [auto with keeps|intros _]); [|done| |done].
  - apply keeps_bind; [auto with keeps|]. intros [|]; simpl; [auto with keeps|].
    apply keeps_bind; [auto with keeps|intros _]. apply keeps_in_mem_fixtures.
  - apply keeps_bind; [auto with keeps|intros _]. apply keeps_in_mem_fixtures.
Qed.

Lemma keeps_exec_fixtures l : keeps (λ s, fixtures (Sys.proc s)) (Sys.exec l).
Proof.
  assert (∀ A (m : M Process.t A), keeps fixtures m →
    keeps (λ s, fixtures (Sys.proc s)) (Sys.in_proc m)) as Hin.
  { intros A m Hm. eapply keeps_zoom; [exact Hm|]. by intros s w. }
  destruct l as [req resp d|req d|i|i|a c]; simpl;
    [| |apply Hin|apply Hin|apply keeps_bind; [apply Hin; auto with keeps|done]].
  - apply keeps_bind; [done|intros _].
    apply Hin, keeps_bind; [apply keeps_in_mem_fixtures|intros _; apply keeps_RunInLoop_fixtures].
  - apply keeps_bind; [done|intros _]. apply Hin, keeps_bind; [done|]. intros w.
    apply keeps_bind; [auto with keeps|intros _; apply keeps_RunInLoop_fixtures].
  - apply keeps_bind; [|apply keeps_run_task_fixtures]. intros w. unfold Sys.pop_task.
    by destruct (_ !! _).
  - apply keeps_bind; [done|]. intros w. destruct (_ !! _) as [[per a]|]; auto with keeps.
Qed.

Lemma running_fixtures fl s :
  running fl s → fixtures (Sys.proc s) = ({[ServerFlags.peer_id fl := 0]}, {[0]}, [(100, 0)]).
Proof.
  intros (ms & w & _ & Hs & Hr)%running_start.
  assert (fixtures w = ({[ServerFlags.peer_id fl := 0]}, {[0]}, [(100, 0)])) as Hw.
  { destruct Hs as [_ Ht _ (p & Hp & _) _ _ Hti]. unfold fixtures.
    by rewrite Ht, Hp, Hti, dom_singleton_L. }
  clear Hs. change w with (Sys.proc (Sys.init w)) in Hw. unfold Sys.reachable in Hr.
  revert Hw. induction Hr as [|s1 s2 s3 (l & _ & E) _ IH]; intros Hw; [done|].
  apply IH. rewrite <- Hw. exact (keeps_Ok _ _ _ _ _ (keeps_exec_fixtures l) E).
Qed.

Lemma running_table fl s :
  running fl s →
  PeerHost.local_peers_ (Process.host (Sys.proc s)) = {[ServerFlags.peer_id fl := 0]}.
Proof. intros Hr. apply running_fixtures in Hr. unfold fixtures in Hr. congruence. Qed.

(** C26 Only peer 1 serves: on a server started with any other peer id, the
    first client request that reaches the event loop ends the process,
    because [KvOpCb] looks up peer 1 whatever the flags say. *)
Theorem kv_request_needs_peer_one fl s i req resp d :
  running fl s → ServerFlags.peer_id fl ≠ 1 →
  Process.tasks (Sys.proc s) !! i = Some (TKvOpCb req resp d) →
  ∃ s', Sys.exec (Sys.LTask i) s = Abort "peer should exist" s'.
Proof.
  intros Hrun Hne Ht. apply running_table in Hrun. eexists. simpl.
  unfold Sys.in_proc, zoom. rewrite bind_eq. unfold Sys.pop_task. rewrite Ht. simpl.
  unfold KvOpCb. rewrite bind_eq. simpl. rewrite Hrun, lookup_singleton_ne by done.
  erewrite bind_Abort by (by apply fatal_Abort). done.
Qed.
End server.
