(* ===== verification/Shutdown.v ===== *)
(** * Shutdown: how the server program ends

    When [AppRunUntilAskedToQuit] returns, [main] (example/echo/server) returns
    and its locals are destroyed in the reverse order of their declaration: the
    services, the host with its peers, the RpcServer and, last, the
    EventWorkerColony.  Until then its worker may run what waits in its loop:
    a timer that is bound to the peer, callbacks that are bound to the
    services.  Whether the library has stopped the loop before it returns
    from [AppRunUntilAskedToQuit] is not to be seen in the repository; the
    theorem says what happens if it has not. *)
From S2P Require Import Prelude Wire RpcClient Runtime Storage Members Raft Config Proposals.
From S2P Require Import HostClients Peer KvSpec PeerSafety PeerQueue Host HostLaws Services.
From S2P Require Import System EchoServer.

(** The locals of main that the loop reaches, by the type of the object. *)
Inductive local : Type :=
  | KvServiceImpl | RaftMsgServiceImpl | HostOfMain | RpcServer | EventWorkerColony.
#[export] Instance local_eq_dec : EqDecision local.
Proof. solve_decision. Defined.

(** The first one is destroyed first. *)
Definition main_locals : list local :=
  [KvServiceImpl; RaftMsgServiceImpl; HostOfMain; RpcServer; EventWorkerColony].

Module Shutdown.
Section Shutdown.
Context `{FatalPolicy} `{KvCodec} `{BoostSplit} `{RpcNet} `{RawNode} `{LevelDB}.

(** The process, the locals alive, the peers there were when main returned,
    and what their destructors have deleted. *)
Record t : Type := mk {
  sys : Sys.t; locals : list local; peers : gset Z; deleted : list (raw_node * list ldb)
}.

Definition start (s : Sys.t) : t := mk s main_locals (dom (Process.objs (Sys.proc s))) [].

(** [PeerHost::~PeerHost]: the table of peers owns them, [rpc_cli_mgr_] the
    clients. *)
Definition destroy_host : M Process.t (list (raw_node * list ldb)) := λ w,
  let owned := (map_to_list (PeerHost.local_peers_ (Process.host w))).*2 in
  Ok (omap (λ a, PeerInit.dtor <$> Process.objs w !! a) owned)
     (Process.set_objs (filter (λ ap, ap.1 ∉ owned) (Process.objs w))
        (Process.set_host
           (PeerHost.mk (PeerHost.host_opt_ (Process.host w)) ∅ ClientMgr.empty) w)).

(** The destructor of the next local. *)
Definition leave : M t unit := λ s,
  match locals s with
  | [] => Ok () s
  | x :: l =>
      if decide (x = HostOfMain) then
        match Sys.in_proc destroy_host (sys s) with
        | Ok d s' => Ok () (mk s' l (peers s) (deleted s ++ d))
        | Abort msg s' => Abort msg (mk s' l (peers s) (deleted s))
        | Ub what => Ub what
        | Stuck => Stuck
        end
      else Ok () (mk (sys s) l (peers s) (deleted s))
  end.

Fixpoint leave_n (k : nat) : M t unit :=
  match k with O => mret () | S k' => leave ;; leave_n k' end.

(** The service a request or a waiting callback is bound to is alive; timers
    and completed calls are bound to peers. *)
Definition callee_alive (l : Sys.label) (s : t) : bool :=
  match l with
  | Sys.LKvRequest _ _ _ => bool_decide (KvServiceImpl ∈ locals s)
  | Sys.LRaftRequest _ _ => bool_decide (RaftMsgServiceImpl ∈ locals s)
  | Sys.LTask i =>
      match Process.tasks (Sys.proc (sys s)) !! i with
      | Some (TKvOpCb _ _ _) => bool_decide (KvServiceImpl ∈ locals s)
      | Some (THandleRaftMsgCb _ _) => bool_decide (RaftMsgServiceImpl ∈ locals s)
      | None => true
      end
  | Sys.LTick _ | Sys.LRpcDone _ _ => true
  end.

(** What the loop may run: its worker is there, and for requests the
    RpcServer. *)
Definition pending (l : Sys.label) (s : t) : Prop :=
  EventWorkerColony ∈ locals s ∧
  match l with
  | Sys.LKvRequest _ _ _ | Sys.LRaftRequest _ _ => RpcServer ∈ locals s ∧ Sys.enabled l (sys s)
  | Sys.LRpcDone a c =>
      a ∈ peers s ∧
      c ∈ issued (Mem.trace (Process.mem (Sys.proc (sys s)))) ∖ Sys.completed (sys s)
  | _ => Sys.enabled l (sys s)
  end.

Definition event (l : Sys.label) : M t unit := λ s,
  if callee_alive l s
  then zoom sys (λ s' st, mk s' (locals st) (peers st) (deleted st)) (Sys.exec l) s
  else Ub "call on a destroyed service".
End Shutdown.
#[global] Arguments t {_ _}.
End Shutdown.

(** ** Leaving main *)

Section shutdown.
Context `{FatalPolicy} `{KvCodec} `{BoostSplit} `{RpcNet} `{RawNodeLaws} `{LevelDBLaws}
        `{PeerInit.HashOrderLaws}.
Context (Hf : fatal_aborts = true).
Context (new_MemoryStorage : mem_storage) (GetWorker : WorkerPtr).
Context (snap0 : Snapshot.t).
Context (Hsnap : GetSnapshot new_MemoryStorage = (kOk, Some snap0)).
Context (Hvoters : ConfState.voters (Snapshot.conf_state snap0) = []).
Context (Hworker : is_Some GetWorker).
Implicit Types (s : Sys.t) (k : nat) (p : Peer.t DiskStorage.t).

#[local] Abbreviation running := (running new_MemoryStorage GetWorker).

(** A running server has one peer, at address 0, with an open database. *)
Lemma running_peer fl s :
  running fl s →
  ∃ p db, Process.objs (Sys.proc s) = {[0 := p]} ∧ DiskStorage.db_ (Peer.kv_db_ p) = Some db.
Proof.
  intros Hrun. pose proof (running_fixtures Hf _ _ snap0 Hsnap Hvoters Hworker _ _ Hrun) as Hfix.
  unfold fixtures in Hfix. injection Hfix as _ Hdom _.
  apply dom_singleton_inv_L in Hdom as [p Hp].
  pose proof (running_inv Hf _ _ snap0 Hsnap Hvoters Hworker _ _ Hrun) as [Hi _].
  assert (is_Some (DiskStorage.db_ (Peer.kv_db_ p))) as [db Hdb].
  { apply (in_peers Hf _ _ Hi 0 p). by rewrite Hp, lookup_singleton_eq. }
  by exists p, db.
Qed.

(** The process without its host. *)
Definition hostless s : Sys.t :=
  let w := Sys.proc s in
  Sys.mk (Process.set_objs ∅ (Process.set_host
            (PeerHost.mk (PeerHost.host_opt_ (Process.host w)) ∅ ClientMgr.empty) w))
         (Sys.completed s) (Sys.given s).

(** The state after [k] destructors. *)
Definition left_main s p k : Shutdown.t :=
  Shutdown.mk (if (k <=? 2)%nat then s else hostless s) (drop k main_locals) {[0]}
    (if (k <=? 2)%nat then [] else [PeerInit.dtor p]).

Lemma destroy_host_running fl s p :
  running fl s → Process.objs (Sys.proc s) = {[0 := p]} →
  Sys.in_proc Shutdown.destroy_host s = Ok [PeerInit.dtor p] (hostless s).
Proof.
  intros Hrun Hp. pose proof (running_table Hf _ _ snap0 Hsnap Hvoters Hworker _ _ Hrun) as Ht.
  unfold Sys.in_proc, zoom, Shutdown.destroy_host, hostless.
  rewrite Ht, map_to_list_singleton, Hp. simpl. rewrite lookup_singleton_eq. simpl.
  reflexivity.
Qed.

Lemma leave_left fl s p k :
  running fl s → Process.objs (Sys.proc s) = {[0 := p]} → (k < 5)%nat →
  Shutdown.leave (left_main s p k) = Ok () (left_main s p (S k)).
Proof.
  intros Hrun Hp Hk. pose proof (destroy_host_running _ _ _ Hrun Hp) as Hd.
  unfold Shutdown.leave, left_main. destruct k as [|[|[|[|[|k]]]]]; try done; [|lia].
  cbn -[Sys.in_proc]. by rewrite Hd.
Qed.

Lemma leave_n_left fl s p k :
  running fl s → Process.objs (Sys.proc s) = {[0 := p]} → (k ≤ 5)%nat →
  Shutdown.leave_n k (Shutdown.start s) = Ok () (left_main s p k).
Proof.
  intros Hrun Hp Hk.
  assert (∀ i j, (i + j ≤ 5)%nat →
    Shutdown.leave_n j (left_main s p i) = Ok () (left_main s p (i + j))) as Hsteps.
  { intros i j. revert i. induction j as [|j IH]; intros i Hij; [by rewrite Nat.add_0_r|].
    simpl. rewrite bind_eq, (leave_left fl) by (done || lia). rewrite IH by lia.
    by rewrite Nat.add_succ_r. }
  assert (Shutdown.start s = left_main s p 0) as ->; [|by apply (Hsteps 0%nat)].
  unfold Shutdown.start, left_main. by rewrite Hp, dom_singleton_L.
Qed.

(** While the host is there, its process runs on. *)
Lemma event_served fl s p k l :
  running fl s → (k <= 2)%nat → Shutdown.pending l (left_main s p k) →
  Process.objs (Sys.proc s) = {[0 := p]} →
  Shutdown.callee_alive l (left_main s p k) = true →
  (∃ t, Shutdown.event l (left_main s p k) = Ok () t) ∨
  (∃ msg t, Shutdown.event l (left_main s p k) = Abort msg t).
Proof.
  intros Hrun Hk [_ Hl] Hp Hal. unfold Shutdown.event. rewrite Hal.
  unfold left_main in *. rewrite (proj2 (Nat.leb_le k 2) Hk) in *. simpl in *.
  assert (Sys.enabled l s) as He.
  { destruct l; try apply Hl. destruct Hl as [->%elem_of_singleton ?]. simpl.
    by rewrite Hp, lookup_singleton_eq. }
  pose proof (exec_wp Hf l s (running_inv Hf _ _ _ Hsnap Hvoters Hworker _ _ Hrun) He) as Hw.
  unfold wp in Hw. unfold zoom. simpl. destruct (Sys.exec l s) as [[] s'|msg s'| |]; [left|right|done|done]; eauto.
Qed.

Lemma hostless_left s p k :
  (3 ≤ k)%nat → Shutdown.sys (left_main s p k) = hostless s.
Proof. intros Hk. unfold left_main. by rewrite (proj2 (Nat.leb_gt k 2)) by lia. Qed.

(** Without it, whatever the loop runs next is a call on a destroyed object. *)
Lemma event_dangles fl s p k l :
  running fl s → (3 ≤ k)%nat → Shutdown.pending l (left_main s p k) →
  ∃ what, Shutdown.event l (left_main s p k) = Ub what.
Proof.
  intros Hrun Hk [_ Hl]. unfold Shutdown.event.
  pose proof (running_fixtures Hf _ _ snap0 Hsnap Hvoters Hworker _ _ Hrun) as Hfix.
  assert (Shutdown.locals (left_main s p k) ⊆ [RpcServer; EventWorkerColony]) as Hloc.
  { unfold left_main. simpl. destruct k as [|[|[|k]]]; try lia. simpl.
    apply subseteq_drop. }
  assert (KvServiceImpl ∉ Shutdown.locals (left_main s p k)) as Hkv by set_solver.
  assert (RaftMsgServiceImpl ∉ Shutdown.locals (left_main s p k)) as Hraft by set_solver.
  destruct l as [req resp d|req d|i|i|a c]; cbn [Shutdown.callee_alive].
  - rewrite bool_decide_false by done. by eexists.
  - rewrite bool_decide_false by done. by eexists.
  - destruct Hl as [t Ht]. rewrite Ht.
    destruct t; rewrite bool_decide_false by done; by eexists.
  - unfold zoom at 1. rewrite (hostless_left s p k) by done.
    simpl. unfold Sys.fire, Sys.in_proc, zoom. rewrite bind_eq. simpl.
    destruct (Process.timers _ !! i) as [[per a]|]; by eexists.
  - unfold zoom at 1. rewrite (hostless_left s p k) by done. by eexists.
Qed.

(** The tick is there as long as the worker is. *)
Lemma tick_pending fl s p k :
  running fl s → (k ≤ 4)%nat → Shutdown.pending (Sys.LTick 0) (left_main s p k).
Proof.
  intros Hrun Hk. pose proof (running_fixtures Hf _ _ snap0 Hsnap Hvoters Hworker _ _ Hrun) as Hfix.
  unfold fixtures in Hfix. injection Hfix as _ _ Hti. split.
  - unfold left_main. simpl. destruct k as [|[|[|[|[|k]]]]]; simpl; set_solver by lia.
  - assert (Process.timers (Sys.proc (Shutdown.sys (left_main s p k))) = [(100, 0)]) as Ht
      by (unfold left_main; simpl; by destruct (k <=? 2)%nat).
    simpl in *. rewrite Ht. by eexists.
Qed.

(** C32 The end of the program.  When main returns from a running server, its
    locals are destroyed without undefined behaviour, the peer's raft node and
    database once each.  But the host is destroyed before the worker whose
    loop still has the peer's timer: after each number [k] of destructors,
    an event the loop still has pending is defined exactly if it is bound to
    an object that is still there; from the destructor of the host to that of
    the EventWorkerColony a tick is always pending, and it, as every other
    event, calls a destroyed object.  The program is right only if the library
    stopped the loop before. *)
Theorem leaving_main fl s k :
  running fl s → (k ≤ 5)%nat →
  ∃ p db st, Process.objs (Sys.proc s) = {[0 := p]} ∧ DiskStorage.db_ (Peer.kv_db_ p) = Some db ∧
    Shutdown.leave_n k (Shutdown.start s) = Ok () st ∧
    Shutdown.deleted st = (if (k <=? 2)%nat then [] else [(Peer.raw_node_ p, [db])]) ∧
    (∀ l, Shutdown.pending l st →
       if (k <=? 2)%nat && Shutdown.callee_alive l st
       then (∃ t, Shutdown.event l st = Ok () t) ∨ (∃ msg t, Shutdown.event l st = Abort msg t)
       else ∃ what, Shutdown.event l st = Ub what) ∧
    ((k ≤ 4)%nat → Shutdown.pending (Sys.LTick 0) st).
Proof.
  intros Hrun Hk. destruct (running_peer _ _ Hrun) as (p & db & Hp & Hdb).
  exists p, db, (left_main s p k). split_and!; [done|done|by eapply leave_n_left| | |].
  - unfold left_main, PeerInit.dtor, DiskStorage.dtor. simpl. by rewrite Hdb.
  - intros l Hl. destruct (Nat.leb_spec k 2); [|by eapply event_dangles]. simpl.
    destruct (Shutdown.callee_alive l _) eqn:Hal; [by eapply event_served|].
    unfold Shutdown.event. rewrite Hal. by eexists.
  - by eapply tick_pending.
Qed.
End shutdown.
