(* ===== verification/Progress.v ===== *)
(** * Progress: a committed entry settles the proposals before it

    A pending proposal waits for the entry at its position.  When raft hands
    out an entry behind that position, whatever it is, the proposal cannot be
    committed any more, and the peer takes it off its queue in the same tick;
    it answers it, unless the entry at its position carries no command that is
    answered. *)
From S2P Require Import Prelude Wire RpcClient Runtime CString Storage Members Raft Config.
From S2P Require Import Proposals HostClients Peer KvSpec PeerSafety PeerQueue Host HostLaws.
From S2P Require Import Services System EchoServer.

(** No proposal of [q] is before the entry. *)
Definition none_before (e : Entry.t) (q : list Proposal.t) : Prop :=
  Forall (λ p, ¬ lex_lt (position p) (entry_pos e)) q.

Lemma remaining_none_before pos q :
  queue_sorted q → Forall (λ p, ¬ lex_lt (position p) pos) (remaining pos q).
Proof.
  intros Hs. rewrite remaining_filter by done. apply Forall_app.
  split; apply Forall_forall; intros p [Hp _]%list_elem_of_filter Hlt.
  - rewrite Hp in Hlt. by apply (irreflexivity lex_lt) in Hlt.
  - apply (irreflexivity lex_lt pos). by etrans.
Qed.

Lemma matched_suffix pos q : (matched pos q).2 `suffix_of` remaining pos q.
Proof.
  unfold matched. destruct (remaining pos q) as [|p q']; [by apply suffix_nil|].
  case_decide; simpl; [by apply suffix_cons_r|done].
Qed.

Lemma none_before_suffix e q q' : q' `suffix_of` q → none_before e q → none_before e q'.
Proof. intros [l ->]. by intros [_ ?]%Forall_app. Qed.

Section progress.
Context `{FatalPolicy} `{KvCodec} `{BoostSplit} `{RpcNet} `{RawNodeLaws}.
Context {T : Type} `{KvStoreLaws T}.
Implicit Types (x : Peer.Ctx T) (e : Entry.t).

Lemma take_none_before e x :
  ctx_ok x → queue_sorted (cx_props x) →
  wp False (if Peer.IsLeader (Peer.peer x)
            then Peer.in_queue (GetProposal (Entry.index e) (Entry.term e))
            else Peer.in_queue CallbackAll ;; mret None)
    (λ _ x1, none_before e (cx_props x1)) (λ _, False) x.
Proof.
  intros Hok Hs. pose proof (ok_live _ Hok) as Hl. destruct (Peer.IsLeader (Peer.peer x)).
  - peer_step. unfold wp. rewrite GetProposal_eq by done. simpl. fold (cx_props x).
    eapply none_before_suffix; [apply matched_suffix|]. by apply remaining_none_before.
  - do 2 peer_step. unfold wp at 1. rewrite CallbackAll_eq by done. simpl. apply wp_ret. constructor.
Qed.

Lemma ProcessEntry_none_before e x :
  ctx_ok x → queue_sorted (cx_props x) →
  wp True (Peer.ProcessEntry e) (λ _ x', none_before e (cx_props x')) (λ _, True) x.
Proof.
  intros Hok Hs. unfold Peer.ProcessEntry. do 3 peer_step.
  eapply wp_mono; [apply wp_defined, wp_and; [by apply take_proposal_wp|
    by apply wp_defined, take_none_before]|..|done].
  intros p x1 [(Hok1 & _ & _ & _ & Hl & _) Hn]. case_decide; [|by apply wp_ret].
  eapply wp_mono; [by apply wp_defined, ProcessNormal_wp|..|done].
  intros [] x2 (ps & _ & _ & _ & _ & _ & _ & Hq & _). by rewrite Hq.
Qed.

(** Applying [es] leaves no proposal before any of them. *)
Lemma ProcessEntries_none_before es x :
  ctx_ok x → queue_sorted (cx_props x) →
  wp False (Peer.ProcessEntries es)
    (λ _ x', Forall (λ e, none_before e (cx_props x')) es) (λ _, True) x.
Proof.
  unfold Peer.ProcessEntries. revert x. induction es as [|e es IH]; intros x Hok Hs; simpl.
  { apply wp_ret. constructor. }
  apply wp_bind. eapply wp_mono; [apply wp_and; [by apply ProcessEntry_wp|
    by apply ProcessEntry_none_before]|..|done].
  intros [] x1 [Hes Hn]. pose proof (es_ok _ _ _ Hes) as Hok1.
  assert (queue_sorted (cx_props x1)) as Hs1 by (eapply queue_sorted_suffix; [apply Hes|done]).
  eapply wp_mono; [apply wp_and; [by apply (ProcessEntries_wp es)|
    by apply wp_defined, IH]|..|done].
  intros [] x2 [Hes2 Hn2]. constructor; [|done].
  eapply none_before_suffix; [|exact Hn]. apply Hes2.
Qed.

(** What a round that hands out [es] settles. *)
Definition settles es x x' : Prop :=
  Forall (λ e, none_before e (cx_props x')) es ∧ cx_props x' `suffix_of` cx_props x ∧
  (∀ d, d ∈ cx_dones x → d ∈ cx_dones x' ∨ lost es x d).

Lemma HandleRaftReady_settles x es :
  ctx_ok x → knows_members x → queue_sorted (cx_props x) →
  es = (if HasReady (cx_raft x) then committed_entries (GetReady (cx_raft x)).1 else []) →
  wp False Peer.HandleRaftReady (λ _ x', settles es x x') (λ _, True) x.
Proof.
  intros Hok Hkm Hs ->.
  apply HandleRaftReady_stages; [by intros ->; split_and!; [done..|by left]|].
  intros rd r1 -> Erd. rewrite Erd. set (r2 := if bool_decide _ then _ else _). simpl.
  eapply wp_mono; [apply SendMsgs_wp; [by apply with_raft_ok|]|..|done].
  { intros m Hm. apply Hkm. by eapply ready_to_members. }
  intros [] x2 (Hok2 & _ & Hp & Hd). assert (cx_props x2 = cx_props x) as Hq
    by (unfold cx_props; by rewrite Hp).
  eapply wp_mono; [apply wp_and; [by apply ProcessEntries_wp|apply wp_defined;
    apply ProcessEntries_none_before; [done|by rewrite Hq]]|..|done].
  intros [] x3 [Hes Hn]. split_and!; [exact Hn|rewrite <- Hq; apply Hes|].
  intros d Hin. assert (d ∈ cx_dones x2) as Hin2 by (rewrite Hd; exact Hin).
  apply (es_lost _ _ _ Hes) in Hin2 as [?|Hl]; [by left|right].
  unfold lost in *. by rewrite Hq in Hl.
Qed.

Lemma Tick_settles x :
  ctx_ok x → knows_members x → queue_sorted (cx_props x) →
  wp False Peer.Tick (λ _ x', settles (tick_entries (cx_raft x)) x x') (λ _, True) x.
Proof.
  intros Hok Hkm Hs. unfold Peer.Tick. do 4 peer_step. fold (cx_raft x).
  fold (with_raft (Raft.Tick (cx_raft x)) x).
  refine (HandleRaftReady_settles (with_raft (Raft.Tick (cx_raft x)) x) _ _ _ _ eq_refl);
    [by apply with_raft_ok| |exact Hs].
  apply knows_members_op; [done|constructor].
Qed.

(** The entries at the position, if any, carry commands that are answered. *)
Definition answerable_at (pos : Z * Z) (es : list Entry.t) : Prop :=
  ∀ e, e ∈ es → entry_pos e = pos → Entry.type e = kEntryNormal ∧ answerable (decode e).

Lemma props_done_inj x p p' :
  NoDup (cx_dones x) → p ∈ cx_props x → p' ∈ cx_props x → Proposal.done p' = Proposal.done p → p' = p.
Proof.
  unfold cx_dones. intros (_ & _ & Hnd)%NoDup_app [i Hi]%list_elem_of_lookup [j Hj]%list_elem_of_lookup Hd.
  assert (j = i) as ->; [|congruence]. eapply NoDup_lookup; [exact Hnd|..];
    unfold dones; rewrite list_lookup_fmap; [by rewrite Hj|by rewrite Hi, Hd].
Qed.

(** A proposal that goes through a round stays pending or is answered, unless
    its entry carries no command that is answered. *)
Lemma round_proposal es x x' p :
  settles es x x' → p ∈ cx_props x → NoDup (cx_dones x) → answerable_at (position p) es →
  p ∈ cx_props x' ∨ Proposal.done p ∈ cx_runs x'.
Proof.
  intros (_ & [l Hl] & Hd) Hp Hnd Ha.
  assert (Proposal.done p ∈ cx_dones x) as Hin
    by (apply elem_of_app; right; by apply list_elem_of_fmap_2).
  apply Hd in Hin as [Hin|(q & e & Hq & Hqd & He & Hpos & Hna)].
  - apply elem_of_app in Hin as [?|(q & Hq & Hin)%list_elem_of_fmap]; [by right|left].
    rewrite <- (props_done_inj x p q); [done..| |done]. rewrite Hl. by apply elem_of_app; right.
  - rewrite (props_done_inj x p q) in Hpos by done. by destruct Hna; apply Ha.
Qed.

(** A proposal before an entry of the round is settled. *)
Lemma settled_proposal es x x' e p :
  settles es x x' → e ∈ es → p ∈ cx_props x → lex_lt (position p) (entry_pos e) →
  NoDup (cx_dones x) →
  (p ∉ cx_props x') ∧ (answerable_at (position p) es → Proposal.done p ∈ cx_runs x').
Proof.
  intros Hset He Hp Hlt Hnd.
  assert (p ∉ cx_props x') as Hout.
  { intros Hin. pose proof (proj1 (Forall_forall _ _) (proj1 Hset) e He) as Hb.
    exact (proj1 (Forall_forall _ _) Hb p Hin Hlt). }
  split; [done|]. intros Ha. by edestruct round_proposal.
Qed.
End progress.

Section server.
Context `{FatalPolicy} `{KvCodec} `{BoostSplit} `{RpcNet} `{RawNodeLaws} `{LevelDBLaws}
        `{PeerInit.HashOrderLaws}.
Context (Hf : fatal_aborts = true).
#[local] Hint Extern 0 (KvStoreLaws DiskStorage.t) => exact (ds_laws Hf) : typeclass_instances.
Context (new_MemoryStorage : mem_storage) (GetWorker : WorkerPtr) (snap0 : Snapshot.t).
Context (Hsnap : GetSnapshot new_MemoryStorage = (kOk, Some snap0)).
Context (Hvoters : ConfState.voters (Snapshot.conf_state snap0) = []).
Context (Hworker : is_Some GetWorker).

Lemma peer_dones_nodup s a p :
  sys_inv Hf s → Process.objs (Sys.proc s) !! a = Some p →
  NoDup (cx_dones (Process.context p (Sys.proc s))).
Proof.
  intros [_ [Hs Hnd]] Ha. pose proof (NoDup_submseteq _ _ Hs Hnd) as Hall.
  unfold all_dones in Hall. rewrite (pending_dones_lookup a p) in Hall by done.
  rewrite <- !app_assoc, app_assoc in Hall. apply NoDup_app in Hall as [Hall _]. exact Hall.
Qed.

(** What a step that is a tick does to the process. *)
Lemma exec_tick s i s' per a p :
  Process.timers (Sys.proc s) !! i = Some (per, a) → Process.objs (Sys.proc s) !! a = Some p →
  Sys.exec (Sys.LTick i) s = Ok () s' →
  ∃ x', Peer.Tick (Process.context p (Sys.proc s)) = Ok () x' ∧
    s' = Sys.mk (Process.put_context a x' (Sys.proc s)) (Sys.completed s) (Sys.given s).
Proof.
  intros Hi Ha. simpl. unfold Sys.in_proc, zoom, Sys.fire, Process.with_peer.
  rewrite bind_eq. simpl. rewrite Hi, Ha. unfold zoom.
  destruct (Peer.Tick _) as [[] x'| | |]; try done. intros [= <-]. by exists x'.
Qed.

(** A tick that returns settles what its round hands out. *)
Lemma ticked_settles s a p x' :
  sys_inv Hf s → Process.objs (Sys.proc s) !! a = Some p →
  Peer.Tick (Process.context p (Sys.proc s)) = Ok () x' →
  settles (tick_entries (Peer.raw_node_ p)) (Process.context p (Sys.proc s)) x'.
Proof.
  intros Hinv Ha E. destruct (in_peers _ _ _ (proj1 Hinv) _ _ Ha) as [Hok Hkm [Hs _]].
  exact (wp_Ok _ _ _ _ _ _ _ (Tick_settles _ Hok Hkm Hs) E).
Qed.

Lemma tick_settles s i s' per a p p' :
  sys_inv Hf s → Process.timers (Sys.proc s) !! i = Some (per, a) →
  Process.objs (Sys.proc s) !! a = Some p → Sys.exec (Sys.LTick i) s = Ok () s' →
  Process.objs (Sys.proc s') !! a = Some p' →
  settles (tick_entries (Peer.raw_node_ p)) (Process.context p (Sys.proc s))
    (Process.context p' (Sys.proc s')).
Proof.
  intros Hinv Hi Ha E Ha'. destruct (exec_tick _ _ _ _ _ _ Hi Ha E) as (x' & Et & ->).
  simpl in Ha'. rewrite lookup_insert_eq in Ha'. injection Ha' as <-.
  pose proof (ticked_settles _ _ _ _ Hinv Ha Et) as Hset. by destruct x'.
Qed.

(** No request waits behind the log: when a tick of a running server returns,
    and raft handed out in it an entry behind the position of a pending
    proposal, that proposal is not pending any more, whether or not the peer
    still leads; and its closure has run, so its client has been answered, if
    the entry at its position, should the round have one, carries a Get, a
    Put or a Del. *)
Theorem committed_entry_settles fl s i s' per a p p' pr e :
  running new_MemoryStorage GetWorker fl s →
  Process.timers (Sys.proc s) !! i = Some (per, a) → Process.objs (Sys.proc s) !! a = Some p →
  Sys.exec (Sys.LTick i) s = Ok () s' → Process.objs (Sys.proc s') !! a = Some p' →
  pr ∈ Peer.proposals_ p → e ∈ tick_entries (Peer.raw_node_ p) →
  lex_lt (position pr) (entry_pos e) →
  (pr ∉ Peer.proposals_ p') ∧
  (answerable_at (position pr) (tick_entries (Peer.raw_node_ p)) →
   Proposal.done pr ∈ runs (Mem.trace (Process.mem (Sys.proc s')))).
Proof.
  intros Hrun Hi Ha E Ha' Hp He Hlt.
  pose proof (running_inv Hf _ _ _ Hsnap Hvoters Hworker _ _ Hrun) as Hinv.
  pose proof (tick_settles _ _ _ _ _ _ _ Hinv Hi Ha E Ha') as Ht.
  destruct (settled_proposal _ _ _ _ _ Ht He Hp Hlt) as [Hout Hran]; [|by split].
  by eapply peer_dones_nodup.
Qed.
End server.
