(* ===== verification/Cluster.v ===== *)
(** * Cluster: several servers that exchange messages

    The servers of a raft group, each started by [EchoServer.main] with its
    own flags, run side by side.  What a server sends, the [EvRaftRpc] events
    of its trace, reaches the server that listens at the address of the
    client it was sent on, any number of times and in any order, or never;
    a server may stop at any moment.  The theorems are about every state the
    cluster can reach.  Each run is a run of the raft network of RaftNet, so
    that state machine safety of raft carries over to the databases. *)
From S2P Require Import Prelude Wire RpcClient Runtime CString Storage Members Raft Config.
From S2P Require Import Proposals HostClients Peer KvSpec PeerSafety PeerQueue Outbox RaftNet Host.
From S2P Require Import HostLaws Services System Hosting Truth EchoServer.

Section cluster.
Context `{FatalPolicy} `{KvCodec} `{BoostSplit} `{RpcNet} `{RawNodeLaws} `{LevelDBLaws}
        `{PeerInit.HashOrderLaws}.
Context (Hf : fatal_aborts = true).
#[local] Hint Extern 0 (KvStoreLaws DiskStorage.t) => exact (ds_laws Hf) : typeclass_instances.
Context (new_MemoryStorage : mem_storage) (GetWorker : WorkerPtr).
(* the flags of the server on each host, and the database all start with *)
Context (flags : gmap Z ServerFlags.t) (m0 : kv_map).

(** ** The transition system *)

(** A server, whether it runs, and two ghosts: the committed entries its raft
    node has handed to it, and the requests of its clients. *)
Record server : Type := Server {
  cs_sys : Sys.t; cs_up : bool; cs_log : list Entry.t; cs_ghost : ghost }.
Implicit Types (C : gmap Z server) (sv : server) (fl : ServerFlags.t) (N : net).

(** The RpcServer of main listens at the address of the flags. *)
Definition listens fl : SockAddress.t :=
  SockAddress.mk (ServerFlags.ip fl) (u16 (ServerFlags.port fl)).

Definition server_outbox sv : list packet := outbox (Process.mem (Sys.proc (cs_sys sv))).

(** Some server has sent the request to the address [fl] listens at. *)
Definition on_wire C fl (req : RaftMsgReq.t) : Prop :=
  ∃ j sv c, C !! j = Some sv ∧ (c, req) ∈ server_outbox sv ∧
            RpcClient.peer_addr c = listens fl.

Definition can_take C fl (l : Sys.label) (s : Sys.t) : Prop :=
  Sys.enabled l s ∧ match l with Sys.LRaftRequest req _ => on_wire C fl req | _ => True end.

Definition ghost_step (l : Sys.label) (s : Sys.t) (G : ghost) : ghost :=
  accept (accepted_by l s) (ask (asked_by l) G).

Inductive cluster_step C : gmap Z server → Prop :=
  | cl_return i fl s log G l s' :
      flags !! i = Some fl → C !! i = Some (Server s true log G) → can_take C fl l s →
      Sys.exec l s = Ok () s' →
      cluster_step C
        (<[i := Server s' true (log ++ handed_out l s) (ghost_step l s G)]> C)
  | cl_abort i fl s log G l msg s' :
      flags !! i = Some fl → C !! i = Some (Server s true log G) → can_take C fl l s →
      Sys.exec l s = Abort msg s' →
      cluster_step C (<[i := Server s' false (log ++ handed_out l s) G]> C)
  | cl_kill i s log G :
      C !! i = Some (Server s true log G) →
      cluster_step C (<[i := Server s false log G]> C).

(** Each server is as [main] leaves it, over the same database. *)
Definition cluster_start C : Prop := ∀ i sv, C !! i = Some sv →
  ∃ fl f w f', flags !! i = Some fl ∧
    EchoServer.main new_MemoryStorage GetWorker fl f = Ok w f' ∧
    sv = Server (Sys.init w) true [] (Ghost [] []) ∧
    ∀ a p, Process.objs w !! a = Some p → contents (Peer.kv_db_ p) = m0.

Definition cluster_reachable C : Prop := ∃ C0, cluster_start C0 ∧ rtc cluster_step C0 C.

(** The member a server runs. *)
Definition self_member fl : GroupMember.t :=
  GroupMember.mk (ServerFlags.host_id fl) (ServerFlags.peer_id fl) (ServerFlags.ip fl)
                 (u16 (ServerFlags.port fl)).

(** The flags describe one group: every server is given the same member list,
    it is the member of its host there, and no two members share an address. *)
Record configured (ms : peers_map) : Prop := {
  cf_members i fl : flags !! i = Some fl → InitGroupMembers (ServerFlags.members fl) ∅ = Ok () ms;
  cf_host i fl : flags !! i = Some fl → ServerFlags.host_id fl = i;
  cf_self i fl : flags !! i = Some fl → ms !! i = Some (self_member fl);
  cf_addrs i j g g' : ms !! i = Some g → ms !! j = Some g' → addr_of g = addr_of g' → i = j
}.

Context (ms : peers_map) (Hcf : configured ms).
Context (snap0 : Snapshot.t).
Context (Hsnap : GetSnapshot new_MemoryStorage = (kOk, Some snap0)).
Context (Hvoters : ConfState.voters (Snapshot.conf_state snap0) = []).
Context (Hworker : is_Some GetWorker).

(** ** A server that has just started *)

Lemma serving_hosted fl w :
  serving new_MemoryStorage GetWorker fl ms w →
  (∀ a p, Process.objs w !! a = Some p → contents (Peer.kv_db_ p) = m0) →
  ∃ n, node_history n = [] ∧ hosted Hf (self_member fl) ms m0 [] n w ∧
    node_raft n = start_node new_MemoryStorage (ServerFlags.host_id fl) (PeerInit.host_order ms).
Proof.
  intros [Ho Ht Hcl (p & Hp & Hfr) Hm Htk Hti] Hdb.
  exists (Node (Peer.raw_node_ p) []). split_and!; [done| |].
  - split.
    + exists p. split; [done|]. split; simpl; [by rewrite (fp_self _ _ _ _ Hfr)| |done|].
      * by rewrite (fp_peers _ _ _ _ Hfr).
      * apply (Hdb 0). by rewrite Hp, lookup_singleton_eq.
    + unfold PeerHost.host_id. by rewrite Ho.
    + by rewrite Ht.
    + intros per a. rewrite Hti. by intros [= _ ->]%list_elem_of_singleton.
    + rewrite Hcl. intros h c Hc. simpl in Hc. by rewrite lookup_empty in Hc.
    + rewrite Hm. constructor.
    + intros req d. rewrite Htk. by intros ?%not_elem_of_nil.
  - destruct (fp_raft _ _ _ _ Hfr) as (st & Hst & ->). simpl in Hst. by injection Hst as <-.
Qed.

(** ** Simulation by the raft network *)

#[local] Abbreviation hosts_of := (map_to_list ms).*1.

(** What is known of every server, also once it has stopped. *)
Record recorded N i sv : Prop := {
  rc_packets fl : flags !! i = Some fl →
    packets_ok (self_member fl) ms (wire_of N) (Process.mem (Sys.proc (cs_sys sv)));
  rc_history : has_history N i (cs_log sv);
  rc_told : told m0 (cs_ghost sv) (cs_log sv) (wire_of N)
              (Mem.trace (Process.mem (Sys.proc (cs_sys sv))));
  rc_ghost : ghost_ok (cs_ghost sv) (wire_of N)
}.

(** What is known of a server that runs. *)
Record runs_node N i fl (s : Sys.t) (log : list Entry.t) (G : ghost) n : Prop := {
  rn_node : nodes N !! i = Some n;
  rn_history : node_history n = log;
  rn_inv : sys_inv Hf s;
  rn_hosted : hosted Hf (self_member fl) ms m0 (wire_of N) n (Sys.proc s);
  rn_truth : proc_truth m0 G log (wire_of N) (Sys.given s) (Sys.proc s)
}.

(** A proposal in the news is one that a server has taken from a client. *)
Definition news_owned C (nw : news) : Prop :=
  match nw with
  | Sent _ => True
  | Proposed t ix _ => ∃ i sv d, C !! i = Some sv ∧ (d, (t, ix)) ∈ accepted (cs_ghost sv)
  | Offered _ => False
  end.

Record related C N : Prop := {
  rl_flags i sv : C !! i = Some sv → is_Some (flags !! i);
  rl_recorded i sv : C !! i = Some sv → recorded N i sv;
  rl_news nw : nw ∈ wire_of N → news_owned C nw;
  rl_up i fl s log G : C !! i = Some (Server s true log G) → flags !! i = Some fl →
    ∃ n, runs_node N i fl s log G n
}.

(** What reaches a server is a message of the group to its own peer. *)
Lemma on_wire_arrives C N i fl req :
  related C N → flags !! i = Some fl → on_wire C fl req →
  arrives (self_member fl) (wire_of N) req.
Proof.
  intros Hr Hfl (j & sv & c & Hj & Hin & Haddr).
  destruct (rl_flags _ _ Hr _ _ Hj) as [flj Hflj].
  pose proof (rc_packets _ _ _ (rl_recorded _ _ Hr _ _ Hj) _ Hflj) as Hp.
  eapply Forall_forall in Hp as (msg & Hmsg & g & Hg & Hreq & Hc); [|exact Hin].
  simpl in Hreq, Hc. rewrite (client_to_addr _ _ Hc) in Haddr.
  assert (Message.to msg = i) as Hto
    by exact (cf_addrs _ Hcf _ _ _ _ Hg (cf_self _ Hcf _ _ Hfl) Haddr).
  rewrite Hto, (cf_self _ Hcf _ _ Hfl) in Hg. injection Hg as <-.
  unfold arrives. rewrite Hreq. simpl. split_and!; [done..|].
  by rewrite (cf_host _ Hcf _ _ Hfl).
Qed.

Lemma can_take_ok C N i fl l s :
  related C N → flags !! i = Some fl → can_take C fl l s →
  label_ok (self_member fl) (wire_of N) l.
Proof. intros Hr Hfl [_ Hw]. destruct l; try done. by eapply on_wire_arrives. Qed.

(** A step of the network does not lose what is known of the other servers. *)
Lemma recorded_other N N' j sv :
  recorded N j sv → wire_of N ⊆ wire_of N' →
  (∀ h, has_history N j h → has_history N' j h) → recorded N' j sv.
Proof.
  intros [A B D E] Hw Hh. split; [|by apply Hh|by eapply told_more|by eapply ghost_ok_more].
  intros fl Hfl. eapply packets_ok_mono; [done|by apply A].
Qed.

Lemma runs_node_other N N' j fl s log G n :
  runs_node N j fl s log G n → wire_of N ⊆ wire_of N' → nodes N' !! j = nodes N !! j →
  runs_node N' j fl s log G n.
Proof.
  intros [A B D E (p & Hp & F)] Hw Hn. split; [by rewrite Hn|done|done|by eapply hosted_mono|].
  exists p. split; [done|]. by eapply truth_more.
Qed.

Lemma news_owned_insert C i sv sv' nw :
  C !! i = Some sv → accepted (cs_ghost sv) ⊆ accepted (cs_ghost sv') →
  news_owned C nw → news_owned (<[i := sv']> C) nw.
Proof.
  intros Hi Hacc. destruct nw as [m|t ix d|d]; simpl; try done.
  intros (j & svj & d' & Hj & Hin). destruct (decide (j = i)) as [->|Hne].
  - exists i, sv', d'. rewrite lookup_insert_eq. simplify_eq. auto.
  - exists j, svj, d'. by rewrite lookup_insert_ne.
Qed.

(** The server [i] moves, and its node with it. *)
Lemma related_update C N N' i fl sv0 sv :
  related C N → flags !! i = Some fl → C !! i = Some sv0 →
  accepted (cs_ghost sv0) ⊆ accepted (cs_ghost sv) → wire_of N ⊆ wire_of N' →
  (∀ nw, nw ∈ wire_of N' → nw ∈ wire_of N ∨ news_owned (<[i := sv]> C) nw) →
  (∀ j, j ≠ i → nodes N' !! j = nodes N !! j ∧ halted N' !! j = halted N !! j) →
  recorded N' i sv →
  (∀ s log G, sv = Server s true log G → ∃ n, runs_node N' i fl s log G n) →
  related (<[i := sv]> C) N'.
Proof.
  intros [Hfls Hrec Hnews Hup] Hfl Hsv0 Hacc Hw Hnew Hother Hi Hrun. split.
  - intros j sv'. rewrite lookup_insert_Some. intros [[<- _]|[_ Hj]]; [by exists fl|by eapply Hfls].
  - intros j sv'. rewrite lookup_insert_Some. intros [[<- <-]|[Hne Hj]]; [done|].
    destruct (Hother j) as [Hn Hh]; [done|]. eapply recorded_other; [by apply Hrec|done|].
    intros h [[r Hr]|Hd]; [left; exists r; congruence|right; congruence].
  - intros nw [Hin|?]%Hnew; [|done]. eapply news_owned_insert; [done..|by apply Hnews].
  - intros j flj s log G. rewrite lookup_insert_Some. intros [[<- ->]|[Hne Hj]] Hflj.
    + assert (flj = fl) as -> by congruence. by apply Hrun.
    + destruct (Hup _ _ _ _ _ Hj Hflj) as [n Hn]. exists n. destruct (Hother j); [done|].
      by eapply runs_node_other.
Qed.

Lemma related_return C N i fl s log G l s' :
  related C N → flags !! i = Some fl → C !! i = Some (Server s true log G) →
  can_take C fl l s → Sys.exec l s = Ok () s' →
  ∃ N', rtc net_step N N' ∧
        related (<[i := Server s' true (log ++ handed_out l s) (ghost_step l s G)]> C) N'.
Proof.
  intros Hr Hfl Hi Hl E. destruct (rl_up _ _ Hr _ _ _ _ _ Hi Hfl) as [n [Hn Hh Hinv Hw Ht]].
  pose proof (exec_hosted _ _ _ _ _ _ _ _ Hinv Hw (proj1 Hl)
    (can_take_ok _ _ _ _ _ _ Hr Hfl Hl)) as Hex.
  pose proof (exec_truth _ _ _ _ _ _ _ _ _ _ Hinv Hw Hh (proj1 Hl) Ht) as Htr.
  unfold wp in Hex, Htr. rewrite E in Hex, Htr. destruct Hex as (n' & Hst & Hi' & Hw' & Hh').
  simpl in Hst. rewrite (cf_host _ Hcf _ _ Hfl) in Hst. eexists. split; [by eapply node_steps_net|].
  eapply related_update; [exact Hr|exact Hfl|exact Hi|simpl; set_solver|simpl; set_solver| | | |].
  - intros nw [?|Hin]%elem_of_app; [by left|right].
    apply news_accepted in Hin as [[m ->]|(d & t & ix & str & -> & Hin)]; [done|].
    exists i, (Server s' true (log ++ handed_out l s) (ghost_step l s G)), d.
    rewrite lookup_insert_eq. split; [done|]. apply elem_of_app. by right.
  - intros j Hne. split; [by apply lookup_insert_ne|done].
  - split.
    + intros fl' Hfl'. assert (fl' = fl) as -> by congruence. apply Hw'.
    + left. simpl. rewrite lookup_insert_eq. exists (node_raft n').
      rewrite <- Hh, <- Hh'. by destruct n'.
    + destruct Htr as (p & _ & Htr). apply Htr.
    + destruct Htr as (p & _ & Htr). apply Htr.
  - intros s0 log0 G0 [= <- <- <-]. exists n'.
    split; [by apply lookup_insert_eq|by rewrite Hh', Hh|done..].
Qed.

Lemma related_step C C' N :
  related C N → cluster_step C C' → ∃ N', rtc net_step N N' ∧ related C' N'.
Proof.
  intros Hr Hstep. destruct Hstep as
    [i fl s log G l s' Hfl Hi Hl E|i fl s log G l msg s' Hfl Hi Hl E|i s log G Hi].
  - by eapply related_return.
  - destruct (rl_up _ _ Hr _ _ _ _ _ Hi Hfl) as [n [Hn Hh Hinv Hw Ht]].
    pose proof (exec_hosted _ _ _ _ _ _ _ _ Hinv Hw (proj1 Hl)
      (can_take_ok _ _ _ _ _ _ Hr Hfl Hl)) as Hex.
    pose proof (exec_truth _ _ _ _ _ _ _ _ _ _ Hinv Hw Hh (proj1 Hl) Ht) as Htr.
    unfold wp in Hex, Htr. rewrite E in Hex, Htr.
    destruct Hex as (n' & out' & Hst & Hstop & Hp). rewrite Hh in Hstop.
    simpl in Hst. rewrite (cf_host _ Hcf _ _ Hfl) in Hst.
    eexists. split; [by eapply node_stop_net|].
    eapply related_update; [exact Hr|exact Hfl|exact Hi|done|simpl; set_solver| | | |done].
    + intros nw [?|Hin]%elem_of_app; [by left|right]. simpl in Hin.
      destruct Hstop as [|r h rd r1 k _ _]; [by apply not_elem_of_nil in Hin|].
      by apply list_elem_of_fmap in Hin as (m & -> & _).
    + intros j Hne. split; [by apply lookup_delete_ne|by apply lookup_insert_ne].
    + split; simpl.
      * intros fl' Hfl'. assert (fl' = fl) as -> by congruence. exact Hp.
      * right. by apply lookup_insert_eq.
      * eapply told_more; [exact Htr|done|set_solver].
      * destruct Ht as (p & _ & Ht). eapply ghost_ok_more; [|apply Ht]. set_solver.
  - destruct (rl_flags _ _ Hr _ _ Hi) as [fl Hfl].
    destruct (rl_up _ _ Hr _ _ _ _ _ Hi Hfl) as [n [Hn Hh Hinv Hw Ht]].
    destruct (rl_recorded _ _ Hr _ _ Hi) as [Hp _ Htold Hg]. simpl in Hp, Htold, Hg.
    eexists. split; [apply rtc_once; eapply net_stop; [done|apply node_stop_here]|].
    rewrite app_nil_r. eapply related_update; [exact Hr|exact Hfl|exact Hi|done|done| | | |done].
    + by left.
    + intros j Hne. split; [by apply lookup_delete_ne|by apply lookup_insert_ne].
    + split; [done| |done..]. right. simpl. rewrite Hh. by apply lookup_insert_eq.
Qed.

(** The network of the nodes the servers start with. *)
Definition start_net C : net :=
  Net (omap (λ sv, p ← Process.objs (Sys.proc (cs_sys sv)) !! 0;
                   Some (Node (Peer.raw_node_ p) [])) C) ∅ [].

Lemma serving_runs_node C i fl w :
  serving new_MemoryStorage GetWorker fl ms w →
  (∀ a p, Process.objs w !! a = Some p → contents (Peer.kv_db_ p) = m0) →
  C !! i = Some (Server (Sys.init w) true [] (Ghost [] [])) →
  ServerFlags.host_id fl = i →
  ∃ n, runs_node (start_net C) i fl (Sys.init w) [] (Ghost [] []) n ∧
    node_raft n = start_node new_MemoryStorage i (PeerInit.host_order ms).
Proof.
  intros Hsv Hdb Hi <-. destruct (serving_hosted fl w Hsv Hdb) as (n & Hh & Hw & Hraft).
  exists n. split; [|done]. destruct (ho_peer _ _ _ _ _ _ _ Hw) as (p & Hp & Hn).
  pose proof Hsv as [_ _ _ (p' & Hp' & Hfr) Hm Htk _].
  rewrite Hp in Hp'. apply (inj (singletonM 0)) in Hp' as <-. split; [|done| |exact Hw|].
  - simpl. rewrite lookup_omap, Hi. simpl. rewrite Hp, lookup_singleton_eq. simpl.
    f_equal. destruct n as [r h], Hn as [_ _ Hr _]. simpl in *. congruence.
  - eapply serving_inv in Hsv as [Hi' Hd]; [|done..].
    apply (reachable_inv Hf w); [done|done|apply rtc_refl].
  - exists p. split; [done|]. simpl. rewrite (fp_props _ _ _ _ Hfr), Htk, Hm.
    split; try done; [apply ghost_ok_nil|repeat constructor..|].
    by intros d h ?%not_elem_of_nil.
Qed.

Lemma related_start C : cluster_start C →
  net_start new_MemoryStorage hosts_of (start_net C) ∧ related C (start_net C).
Proof.
  intros Hc.
  assert (∀ i sv, C !! i = Some sv → ∃ fl n w, flags !! i = Some fl ∧
    sv = Server (Sys.init w) true [] (Ghost [] []) ∧
    runs_node (start_net C) i fl (Sys.init w) [] (Ghost [] []) n ∧
    node_raft n = start_node new_MemoryStorage i (PeerInit.host_order ms)) as Hs.
  { intros i sv Hi. destruct (Hc i sv Hi) as (fl & f & w & f' & Hfl & E & -> & Hdb).
    pose proof (wp_Ok _ _ _ _ _ _ _ (main_wp Hf new_MemoryStorage GetWorker snap0 Hsnap Hvoters
      Hworker fl ms f (cf_members _ Hcf _ _ Hfl)) E) as [_ Hsv].
    destruct (serving_runs_node C i fl w) as (n & Hn & Hraft); [done..|by eapply cf_host|].
    by exists fl, n, w. }
  split.
  - split_and!; [done..|]. intros i n Hn. simpl in Hn. apply lookup_omap_Some in Hn as (sv & Hp & Hi).
    destruct (Hs _ _ Hi) as (fl & n' & w & Hfl & -> & [Hn' Hh _ _ _] & Hraft).
    assert (n' = n) as ->.
    { simpl in Hn'. rewrite lookup_omap, Hi in Hn'. simpl in *. congruence. }
    split_and!; [|done|].
    + pose proof (cf_self _ Hcf _ _ Hfl) as Hself. apply list_elem_of_fmap.
      exists (i, self_member fl). split; [done|]. by apply elem_of_map_to_list.
    + exists (PeerInit.host_order ms). split; [apply PeerInit.host_order_perm|done].
  - split.
    + intros i sv Hi. destruct (Hs _ _ Hi) as (fl & n & w & Hfl & _). by exists fl.
    + intros i sv Hi. destruct (Hs _ _ Hi) as (fl & n & w & Hfl & -> & Hn & _). split.
      * intros fl' Hfl'. assert (fl' = fl) as -> by congruence. apply (rn_hosted _ _ _ _ _ _ _ Hn).
      * left. exists (node_raft n). rewrite (rn_node _ _ _ _ _ _ _ Hn). simpl.
        rewrite <- (rn_history _ _ _ _ _ _ _ Hn). by destruct n.
      * destruct (rn_truth _ _ _ _ _ _ _ Hn) as (p & _ & Ht). apply Ht.
      * apply ghost_ok_nil.
    + by intros nw ?%not_elem_of_nil.
    + intros i fl s log G Hi Hfl. destruct (Hs _ _ Hi) as (fl' & n & w & Hfl' & [= -> -> ->] & Hn & _).
      assert (fl' = fl) as -> by congruence. by exists n.
Qed.

Lemma cluster_simulation C : cluster_reachable C →
  ∃ N, net_reachable new_MemoryStorage hosts_of N ∧ related C N.
Proof.
  intros (C0 & Hstart & Hsteps). destruct (related_start C0 Hstart) as [Hn Hr].
  assert (∃ N, rtc net_step (start_net C0) N ∧ related C N) as (N & ? & ?);
    [|exists N; split; [by exists (start_net C0)|done]].
  clear Hn Hstart. revert Hr. generalize (start_net C0).
  induction Hsteps as [C1|C1 C2 C3 Hst _ IH]; intros N1 Hr; [by exists N1|].
  destruct (related_step _ _ _ Hr Hst) as (N2 & H12 & Hr2).
  destruct (IH N2 Hr2) as (N & H23 & ?). exists N. split; [by etrans|done].
Qed.

Lemma hosts_nodup : NoDup hosts_of.
Proof. apply NoDup_fst_map_to_list. Qed.

(** ** What a cluster does *)

Lemma related_answers `{!RaftSafety new_MemoryStorage} `{!KvCodecLaws} C N i sv req resp d h :
  net_reachable new_MemoryStorage hosts_of N → related C N →
  C !! i = Some sv → (req, resp, d) ∈ asked (cs_ghost sv) →
  EvRun d h ∈ Mem.trace (Process.mem (Sys.proc (cs_sys sv))) →
  ∃ r, h !! resp = Some r ∧
    (KvResp.rejected r = true ∨
     ∃ k e, cs_log sv !! k = Some e ∧
       r = kv_answer (log_apply m0 (take k (cs_log sv))) (decode e) KvResp.default ∧
       Entry.type e = kEntryNormal ∧ answerable (decode e) ∧
       ∀ pos, (d, pos) ∈ accepted (cs_ghost sv) → entry_pos e = pos ∧ decode e = req).
Proof.
  intros Hnet Hr Hi Ha Hrun. destruct (rl_recorded _ _ Hr _ _ Hi) as [_ Hh Htold _].
  destruct (Htold d h Hrun req resp Ha) as (r & Hresp & Hv). exists r. split; [done|].
  destruct Hv as [?|(k & e & Hk & Hty & Han & -> & Ho)]; [by left|right]. exists k, e.
  split_and!; [done..|]. intros pos Hacc. destruct (Ho pos Hacc) as (<- & s & Hs & Hp).
  split; [done|]. assert (Entry.data e = s) as Hdata.
  { eapply (proposal_unique hosts_of N); [apply hosts_nodup|exact Hnet|exact Hp|exact Hh| |done..].
    by eapply list_elem_of_lookup_2. }
  unfold decode. rewrite Hdata. by rewrite (parse_serialize _ _ Hs).
Qed.

Lemma related_comparable `{!RaftSafety new_MemoryStorage} C N i j sv sv' :
  net_reachable new_MemoryStorage hosts_of N → related C N →
  C !! i = Some sv → C !! j = Some sv' → comparable (cs_log sv) (cs_log sv').
Proof.
  intros Hnet Hr Hi Hj. eapply (state_machine_safety hosts_of N); [apply hosts_nodup|done|..].
  - apply (rc_history _ _ _ (rl_recorded _ _ Hr _ _ Hi)).
  - apply (rc_history _ _ _ (rl_recorded _ _ Hr _ _ Hj)).
Qed.

(** C4 Consistency of the cluster: in every state that any number of servers,
    started over the same database, can reach by any interleaving of client
    requests, messages (in any order, repeated or lost), ticks, aborts and
    kills, the database of each running server holds the fold of the abstract
    map over the committed entries handed to it, and the entries handed to
    any two servers, stopped ones included, are the same log cut at two
    lengths; so running servers that got equally far hold the same map. *)
Theorem cluster_agreement `{!RaftSafety new_MemoryStorage} C :
  cluster_reachable C →
  (∀ i s log G a p, C !! i = Some (Server s true log G) →
     Process.objs (Sys.proc s) !! a = Some p → contents (Peer.kv_db_ p) = log_apply m0 log) ∧
  (∀ i j sv sv', C !! i = Some sv → C !! j = Some sv' → comparable (cs_log sv) (cs_log sv')) ∧
  (∀ i j s s' log log' G G' a b p p',
     C !! i = Some (Server s true log G) → C !! j = Some (Server s' true log' G') →
     Process.objs (Sys.proc s) !! a = Some p → Process.objs (Sys.proc s') !! b = Some p' →
     length log = length log' → contents (Peer.kv_db_ p) = contents (Peer.kv_db_ p')).
Proof.
  intros (N & Hnet & Hr)%cluster_simulation.
  assert (∀ i s log G a p, C !! i = Some (Server s true log G) →
     Process.objs (Sys.proc s) !! a = Some p → contents (Peer.kv_db_ p) = log_apply m0 log) as Hdb.
  { intros i s log G a p Hi Ha. destruct (rl_flags _ _ Hr _ _ Hi) as [fl Hfl].
    destruct (rl_up _ _ Hr _ _ _ _ _ Hi Hfl) as [n [_ <- _ Hw _]].
    destruct (ho_peer _ _ _ _ _ _ _ Hw) as (q & Hq & Hn). rewrite Hq in Ha.
    apply lookup_singleton_Some in Ha as [_ <-]. apply Hn. }
  assert (∀ i j sv sv', C !! i = Some sv → C !! j = Some sv' →
    comparable (cs_log sv) (cs_log sv')) as Hcmp by (intros; by eapply related_comparable).
  split_and!; [done..|]. intros i j s s' log log' G G' a b p p' Hi Hj Ha Hb Hlen.
  rewrite (Hdb _ _ _ _ _ _ Hi Ha), (Hdb _ _ _ _ _ _ Hj Hb). f_equal.
  apply comparable_length; [|done]. by apply (Hcmp _ _ _ _ Hi Hj).
Qed.

(** C3 Every client of the cluster is told the truth: when the closure of a
    request that a server took has run, the response it sent is marked
    rejected, or it is the answer of the abstract map at some entry of the
    one log of the cluster, computed from all entries before it; and if raft
    accepted the proposal made for the request, that entry holds this very
    request.  This includes servers that aborted right after they answered. *)
Theorem cluster_answers `{!RaftSafety new_MemoryStorage} `{!KvCodecLaws} C i sv req resp d h :
  cluster_reachable C → C !! i = Some sv → (req, resp, d) ∈ asked (cs_ghost sv) →
  EvRun d h ∈ Mem.trace (Process.mem (Sys.proc (cs_sys sv))) →
  ∃ r, h !! resp = Some r ∧
    (KvResp.rejected r = true ∨
     ∃ k e, cs_log sv !! k = Some e ∧
       r = kv_answer (log_apply m0 (take k (cs_log sv))) (decode e) KvResp.default ∧
       ∀ pos, (d, pos) ∈ accepted (cs_ghost sv) → entry_pos e = pos ∧ decode e = req).
Proof.
  intros (N & Hnet & Hr)%cluster_simulation Hi Ha Hrun.
  edestruct related_answers as (r & Hresp & Hv); [exact Hnet|exact Hr|exact Hi|exact Ha|exact Hrun|].
  exists r. split; [done|]. destruct Hv as [?|(k & e & Hk & -> & _ & _ & Ho)]; [by left|right].
  by exists k, e.
Qed.

(** C11 No message goes astray: what reaches a server from the others is for the
    peer it runs, so that the checks "send to wrong host" and "peer should
    exist" of the raft message service never end a server of the cluster, and
    every message stepped is addressed to the node that takes it. *)
Theorem cluster_messages_handled C i fl s log G l :
  cluster_reachable C → C !! i = Some (Server s true log G) → flags !! i = Some fl →
  can_take C fl l s → handles_raft l s →
  (∃ s', Sys.exec l s = Ok () s') ∧
  ∀ req d, THandleRaftMsgCb req d ∈ Process.tasks (Sys.proc s) →
    RaftMsgReq.to_peer req = meta_of (self_member fl) ∧
    Message.to (RaftMsgReq.msg req) = ServerFlags.host_id fl.
Proof.
  intros (N & _ & Hr)%cluster_simulation Hi Hfl Hl Hraft.
  destruct (rl_up _ _ Hr _ _ _ _ _ Hi Hfl) as [n [_ _ Hinv Hw _]]. split.
  - eapply exec_raft_returns; [exact Hinv|exact Hw|apply Hl|by eapply can_take_ok|done].
  - intros req d Hin. destruct (ho_tasks _ _ _ _ _ _ _ Hw req d Hin) as (? & _ & ?). by split.
Qed.
End cluster.
