(* ===== verification/RealTime.v ===== *)
(** * RealTime: a request is answered from all that was applied before it came in

    The answers of a cluster (Cluster) respect real time.  A request that comes
    in when some server has been handed a log gets, if raft accepts its
    proposal and it is answered, an answer computed from an extension of that
    log: a Get sees every Put that was answered before the Get was sent,
    whichever servers took the two.  The position of the proposal is in the
    ghost state of the server that took it; it is the position of no entry
    handed out before, so the entry of the request is behind all of them. *)
From S2P Require Import Prelude Wire RpcClient Runtime CString Storage Members Raft Config.
From S2P Require Import Proposals HostClients Peer KvSpec PeerSafety PeerQueue Outbox RaftNet Host.
From S2P Require Import HostLaws Services System Traces Hosting Truth EchoServer Cluster.

Section real_time.
Context `{FatalPolicy} `{KvCodec} `{BoostSplit} `{RpcNet} `{RawNodeLaws} `{LevelDBLaws}
        `{PeerInit.HashOrderLaws}.
Context (Hf : fatal_aborts = true).
Context (new_MemoryStorage : mem_storage) (GetWorker : WorkerPtr).
Context (flags : gmap Z ServerFlags.t) (m0 : kv_map).
Context (ms : peers_map) (Hcf : configured flags ms).
Context (snap0 : Snapshot.t).
Context (Hsnap : GetSnapshot new_MemoryStorage = (kOk, Some snap0)).
Context (Hvoters : ConfState.voters (Snapshot.conf_state snap0) = []).
Context (Hworker : is_Some GetWorker).
Context `{!RaftSafety new_MemoryStorage}.
Implicit Types (C : gmap Z server) (sv : server) (pos : Z * Z).

#[local] Abbreviation cluster_step := (cluster_step flags).
#[local] Abbreviation cluster_reachable :=
  (cluster_reachable Hf new_MemoryStorage GetWorker flags m0).
#[local] Abbreviation related := (related Hf flags m0 ms).
#[local] Abbreviation net_reachable := (net_reachable new_MemoryStorage (map_to_list ms).*1).

(** ** Servers only add to what is recorded of them *)

Definition server_trace sv : list Event := sys_trace (cs_sys sv).

Record later sv sv' : Prop := {
  lt_log : cs_log sv `prefix_of` cs_log sv';
  lt_asked : asked (cs_ghost sv) ⊆ asked (cs_ghost sv');
  lt_accepted : accepted (cs_ghost sv) ⊆ accepted (cs_ghost sv');
  lt_trace : server_trace sv `prefix_of` server_trace sv'
}.

#[export] Instance later_preorder : PreOrder later.
Proof. split; [by split|]. intros sv1 sv2 sv3 [] []. split; by etrans. Qed.

Definition grows C C' : Prop :=
  ∀ i sv, C !! i = Some sv → ∃ sv', C' !! i = Some sv' ∧ later sv sv'.

#[export] Instance grows_preorder : PreOrder grows.
Proof.
  split.
  - intros C i sv Hi. by exists sv.
  - intros C1 C2 C3 H12 H23 i sv (sv2 & Hi2 & Hp)%H12. destruct (H23 _ _ Hi2) as (sv3 & Hi3 & Hq).
    exists sv3. split; [done|by etrans].
Qed.

Lemma grows_insert C i sv sv' : C !! i = Some sv → later sv sv' → grows C (<[i := sv']> C).
Proof.
  intros Hi Hp j svj Hj. destruct (decide (j = i)) as [->|Hne].
  - exists sv'. rewrite lookup_insert_eq. split; [done|]. by simplify_eq.
  - exists svj. by rewrite lookup_insert_ne.
Qed.

Lemma step_grows C C' : cluster_step C C' → grows C C'.
Proof.
  intros [i fl s log G l s' _ Hi _ E|i fl s log G l msg s' _ Hi _ E|i s log G Hi];
    (eapply grows_insert; [exact Hi|]); [| |by split].
  all: pose proof (adds_exec l s) as Htr; rewrite E in Htr.
  all: split; simpl; try done; try by apply prefix_app_r.
  all: intros x Hx; apply elem_of_app; by left.
Qed.

Lemma steps_grow C C' : rtc cluster_step C C' → grows C C'.
Proof.
  induction 1 as [|C1 C2 C3 Hst _ IH]; [done|]. etrans; [by apply step_grows|done].
Qed.

Lemma reachable_steps C C' : cluster_reachable C → rtc cluster_step C C' → cluster_reachable C'.
Proof. intros (C0 & ? & ?) Hst. exists C0. split; [done|by etrans]. Qed.

(** ** Proposals get new positions *)

Definition accepted_in C (i : Z) (d : DonePtr) pos : Prop :=
  ∃ sv, C !! i = Some sv ∧ (d, pos) ∈ accepted (cs_ghost sv).

(** No server has been handed an entry at the position. *)
Definition unused pos C : Prop :=
  ∀ j sv e, C !! j = Some sv → e ∈ cs_log sv → entry_pos e ≠ pos.

Lemma unused_before C C' pos : grows C C' → unused pos C' → unused pos C.
Proof.
  intros Hg Hu j sv e (sv' & Hj & Hp)%Hg He. eapply Hu; [exact Hj|].
  eapply elem_of_prefix; [exact He|by apply Hp].
Qed.

(** What raft accepts in a step is a proposal to the node of the server, at the
    next position of its log. *)
Lemma accepted_proposal C N i fl s log G l d pos :
  related C N → C !! i = Some (Server s true log G) →
  flags !! i = Some fl → (d, pos) ∈ accepted_by l s →
  ∃ r hi str, nodes N !! i = Some (Node r hi) ∧ IsLeader r = true ∧
    (Propose str r).1 = kOk ∧ pos = (term r, LastIndex r + 1).
Proof.
  intros Hr Hi Hfl Hacc.
  destruct (rl_up _ _ _ _ _ _ Hr _ _ _ _ _ Hi Hfl) as [[r hi] [Hn _ _ Hw _]].
  destruct (ho_peer _ _ _ _ _ _ _ Hw) as (p & Hp & Hpn).
  pose proof (ph_raft _ _ _ _ _ _ Hpn) as Er. simpl in Er.
  destruct l as [| |k| |]; simpl in Hacc; try by apply not_elem_of_nil in Hacc.
  destruct (Process.tasks _ !! k) as [[req resp d'|]|]; try by apply not_elem_of_nil in Hacc.
  unfold kv_peer in Hacc. destruct (PeerHost.local_peers_ _ !! 1) as [a|] eqn:Ha; simpl in Hacc;
    [|by apply not_elem_of_nil in Hacc].
  apply (table_zero _ _ _ _ _ _ _ _ _ Hw) in Ha as ->.
  rewrite Hp, lookup_singleton_eq, Er in Hacc. simpl in Hacc.
  unfold accepts, Peer.IsLeader in Hacc. rewrite Er in Hacc.
  destruct (IsLeader r) eqn:El; simpl in Hacc; [|by apply not_elem_of_nil in Hacc].
  case_bool_decide as Hok; [|by apply not_elem_of_nil in Hacc].
  apply list_elem_of_singleton in Hacc as [= _ ->]. by eexists r, hi, _.
Qed.

Lemma accepted_unused C N i fl s log G l d pos :
  net_reachable N → related C N → C !! i = Some (Server s true log G) →
  flags !! i = Some fl → (d, pos) ∈ accepted_by l s → unused pos C.
Proof.
  intros Hnet Hr Hi Hfl Hacc j sv e Hj He.
  destruct (accepted_proposal _ _ _ _ _ _ _ _ _ _ Hr Hi Hfl Hacc)
    as (r & hi & str & Hn & El & Hok & ->).
  eapply (proposal_fresh _ N); [apply hosts_nodup|exact Hnet|exact Hn|exact El|exact Hok| |exact He].
  apply (rc_history _ _ _ _ _ _ (rl_recorded _ _ _ _ _ _ Hr _ _ Hj)).
Qed.

(** A step accepts at most one proposal. *)
Lemma accepted_by_cases l s : accepted_by l s = [] ∨ ∃ d pos, accepted_by l s = [(d, pos)].
Proof.
  destruct l as [| |k| |]; try by left. simpl.
  destruct (Process.tasks _ !! k) as [[req resp d|]|]; try by left.
  destruct (kv_peer _) as [p|]; [|by left]. destruct (accepts _ _); [right; eauto|by left].
Qed.

Lemma step_accepted C C' :
  cluster_step C C' →
  (∀ i d pos, accepted_in C' i d pos → accepted_in C i d pos) ∨
  ∃ i fl s log G l d0 pos0, C !! i = Some (Server s true log G) ∧ flags !! i = Some fl ∧
    (d0, pos0) ∈ accepted_by l s ∧
    ∀ j d pos, accepted_in C' j d pos → accepted_in C j d pos ∨ (j = i ∧ d = d0 ∧ pos = pos0).
Proof.
  assert (∀ i sv sv' j d pos, C !! i = Some sv → accepted_in (<[i := sv']> C) j d pos →
    accepted_in C j d pos ∨ (j = i ∧ (d, pos) ∈ accepted (cs_ghost sv'))) as Hins.
  { intros i sv sv' j d pos Hi (svj & Hj & Hin).
    apply lookup_insert_Some in Hj as [[-> ->]|[_ Hj]]; [by right|left; by exists svj]. }
  intros [i fl s log G l s' Hfl Hi _ _|i fl s log G l msg s' _ Hi _ _|i s log G Hi].
  - destruct (accepted_by_cases l s) as [E|(d0 & pos0 & E)].
    + left. intros j d pos Hin. eapply Hins in Hin as [?|[-> Hin]]; [done| |exact Hi].
      simpl in Hin. rewrite E, app_nil_r in Hin. by exists (Server s true log G).
    + right. exists i, fl, s, log, G, l, d0, pos0. rewrite E. split_and!; [done..|by left|].
      intros j d pos Hin. eapply Hins in Hin as [?|[-> Hin]]; [by left| |exact Hi].
      simpl in Hin. rewrite E in Hin. apply elem_of_app in Hin as [Hin|Hin].
      * left. by exists (Server s true log G).
      * right. by apply list_elem_of_singleton in Hin as [= -> ->].
  - left. intros j d pos Hin. eapply Hins in Hin as [?|[-> Hin]]; [done| |exact Hi].
    by exists (Server s true log G).
  - left. intros j d pos Hin. eapply Hins in Hin as [?|[-> Hin]]; [done| |exact Hi].
    by exists (Server s true log G).
Qed.

Lemma step_accepts C C' N i d pos :
  net_reachable N → related C N → cluster_step C C' →
  accepted_in C' i d pos → accepted_in C i d pos ∨ unused pos C.
Proof.
  intros Hnet Hr [Hold|(j & fl & s & log & G & l & d0 & pos0 & Hj & Hfl & Hin & Hnew)]%step_accepted
    Hacc; [by left; apply Hold|].
  destruct (Hnew _ _ _ Hacc) as [?|(-> & -> & ->)]; [by left|right]. by eapply accepted_unused.
Qed.

Lemma steps_accept C C' i d pos :
  cluster_reachable C → rtc cluster_step C C' →
  accepted_in C' i d pos → accepted_in C i d pos ∨ unused pos C.
Proof.
  intros Hreach Hst. revert Hreach. induction Hst as [C|C1 C2 C3 Hst _ IH]; [by left|].
  intros Hreach Hacc.
  destruct (IH (reachable_steps _ _ Hreach (rtc_once _ _ Hst)) Hacc) as [Hin|Hu].
  - eapply cluster_simulation in Hreach as (N & Hnet & Hr); [|done..].
    by eapply step_accepts.
  - right. eapply unused_before; [by apply step_grows|done].
Qed.

(** A request that comes in later is proposed at an unused position. *)
Lemma later_unused C C' i d pos :
  cluster_reachable C → rtc cluster_step C C' → accepted_in C' i d pos →
  (∀ sv, C !! i = Some sv → d ∉ asked_dones (cs_ghost sv)) → unused pos C.
Proof.
  intros Hreach Hst Hacc Hnew.
  destruct (steps_accept C C' i d pos) as [(sv & Hi & Hin)|?]; [done..| |done].
  eapply cluster_simulation in Hreach as (N & _ & Hr); [|done..]. exfalso.
  apply (Hnew _ Hi), (go_asked _ _ (rc_ghost _ _ _ _ _ _ (rl_recorded _ _ _ _ _ _ Hr _ _ Hi))).
  by apply (list_elem_of_fmap_2 fst _ (d, pos)).
Qed.

(** ** A proposal is made before its closure runs *)

Lemma accepted_by_task l s d pos :
  (d, pos) ∈ accepted_by l s → d ∈ (Process.tasks (Sys.proc s) ≫= task_dones).
Proof.
  intros Hacc. destruct l as [| |k| |]; simpl in Hacc; try by apply not_elem_of_nil in Hacc.
  destruct (Process.tasks _ !! k) as [[req resp d'|]|] eqn:Hk; try by apply not_elem_of_nil in Hacc.
  destruct (kv_peer _) as [p|]; [|by apply not_elem_of_nil in Hacc].
  destruct (accepts _ _); [|by apply not_elem_of_nil in Hacc].
  apply list_elem_of_singleton in Hacc as [= <- _]. apply list_elem_of_bind.
  eexists. split; [|by eapply list_elem_of_lookup_2]. by left.
Qed.

Lemma ran_not_accepted C N i fl s log G l d pos h :
  related C N → C !! i = Some (Server s true log G) → flags !! i = Some fl →
  EvRun d h ∈ sys_trace s → (d, pos) ∉ accepted_by l s.
Proof.
  intros Hr Hi Hfl Hrun Htask%accepted_by_task.
  destruct (rl_up _ _ _ _ _ _ Hr _ _ _ _ _ Hi Hfl) as [n [_ _ [_ Hgiven] Hw _]].
  destruct (ho_peer _ _ _ _ _ _ _ Hw) as (p & Hp & _).
  destruct (closures_nodup s p Hgiven Hp) as [Hnd _].
  apply NoDup_app in Hnd as (_ & Hdisj & _). apply (Hdisj d).
  - apply elem_of_runs. by exists h.
  - apply elem_of_app. by right.
Qed.

(** If the closure of a request has run, raft accepted its proposal before
    that or never does. *)
Lemma ran_accepted C C' i sv d h pos :
  cluster_reachable C → rtc cluster_step C C' → C !! i = Some sv →
  EvRun d h ∈ server_trace sv → accepted_in C' i d pos → accepted_in C i d pos.
Proof.
  intros Hreach Hst. revert sv Hreach. induction Hst as [C|C1 C2 C3 Hst _ IH]; [done|].
  intros sv Hreach Hi Hrun Hacc.
  destruct (step_grows _ _ Hst _ _ Hi) as (sv2 & Hi2 & Hl).
  assert (accepted_in C2 i d pos) as Hacc2.
  { eapply IH; [by eapply reachable_steps; [|apply rtc_once]|exact Hi2| |done].
    eapply elem_of_prefix; [exact Hrun|apply Hl]. }
  eapply cluster_simulation in Hreach as (N & _ & Hr); [|done..].
  apply step_accepted in Hst as [Hold|(k & fl & s & log & G & l & d0 & pos0 & Hk & Hfl & Hin & Hnew)];
    [by apply Hold|].
  destruct (Hnew _ _ _ Hacc2) as [?|(-> & -> & ->)]; [done|].
  rewrite Hi in Hk. injection Hk as ->.
  by destruct (ran_not_accepted _ _ _ _ _ _ _ _ _ _ _ Hr Hi Hfl Hrun Hin).
Qed.

(** Answers respect real time.  Take two states of a cluster, the second one
    reached from the first, and a request that a server took between them.
    If raft accepted its proposal and its closure has run, then for every log
    that any server had been handed in the first state, the response is
    marked rejected, or it is the answer to this very request from a log that
    extends that one.  So a Get that is sent after a Put was answered, to
    whatever server, sees it or something later. *)
Theorem cluster_real_time `{!KvCodecLaws} C C' j svj i sv req resp d pos h :
  cluster_reachable C → rtc cluster_step C C' →
  C !! j = Some svj → C' !! i = Some sv →
  (req, resp, d) ∈ asked (cs_ghost sv) → (d, pos) ∈ accepted (cs_ghost sv) →
  (∀ sv0, C !! i = Some sv0 → d ∉ asked_dones (cs_ghost sv0)) →
  EvRun d h ∈ Mem.trace (Process.mem (Sys.proc (cs_sys sv))) →
  ∃ r, h !! resp = Some r ∧
    (KvResp.rejected r = true ∨
     ∃ es, cs_log svj ++ es `prefix_of` cs_log sv ∧
       r = kv_answer (log_apply m0 (cs_log svj ++ es)) req KvResp.default).
Proof.
  intros Hreach Hst Hj Hi Ha Hacc Hnew Hrun.
  assert (unused pos C) as Hu by (eapply later_unused; [done..|by exists sv|done]).
  pose proof (reachable_steps _ _ Hreach Hst) as Hreach'.
  destruct (steps_grow _ _ Hst _ _ Hj) as (svj' & Hj' & [Hgrow _ _]).
  eapply cluster_simulation in Hreach' as (N & Hnet & Hr); [|done..].
  edestruct related_answers as (r & Hresp & Hv); [done|done|exact Hnet|exact Hr|
    exact Hi|exact Ha|exact Hrun|]. exists r. split; [done|].
  destruct Hv as [?|(k & e & Hk & -> & _ & _ & Ho)]; [by left|right].
  destruct (Ho pos Hacc) as [Hpos ->].
  destruct (comparable_before (cs_log svj) (cs_log svj') (cs_log sv) k e) as [es Hes];
    [done|by eapply related_comparable|done|intros Hin; by eapply Hu|].
  exists es. rewrite <- Hes. split; [apply prefix_take|done].
Qed.
End real_time.
