(* ===== verification/Final.v ===== *)
(** * Final: what was sent is not written any more

    The response of a request belongs to the RPC layer, which frees it when the
    closure of the request has run.  The model keeps it in the store;
    [answers_final] shows that it could go: once its closure has run, no
    proposal and no callback of the event loop holds the response, it does not
    change again, and the next step of the server is defined also in a store
    from which all such responses have been freed ([freed]).  [sent_final] is
    the invariant: the responses the server still holds are distinct, and what
    a closure that ran has read is still there and is held no more. *)
From S2P Require Import Prelude Wire RpcClient Runtime CString Storage Members Raft Config.
From S2P Require Import Proposals HostClients Peer KvSpec PeerSafety PeerQueue Answers Outbox RaftNet.
From S2P Require Import Host HostLaws Services System Traces Hosting Truth EchoServer Cluster.
From S2P Require Import RealTime.

(** ** The responses a server holds *)

Definition prop_pair (p : Proposal.t) : RespPtr * DonePtr := (Proposal.resp p, Proposal.done p).
Definition task_pair (t : Task) : list (RespPtr * DonePtr) :=
  match t with TKvOpCb _ resp d => [(resp, d)] | THandleRaftMsgCb _ _ => [] end.

(** The responses and closures that came in, with the requests or without. *)
Definition pairs_of (G : ghost) : list (RespPtr * DonePtr) := (λ a, (a.1.2, a.2)) <$> asked G.

Lemma elem_of_pairs G resp d : (resp, d) ∈ pairs_of G ↔ ∃ req, (req, resp, d) ∈ asked G.
Proof.
  unfold pairs_of. rewrite list_elem_of_fmap. split.
  - intros ([[req resp'] d'] & [= -> ->] & Hin). by exists req.
  - intros [req Hin]. by exists ((req, resp), d).
Qed.

(** [A] is what came in, [held] what is held of it. *)
Record sent_final (A : list (RespPtr * DonePtr)) (m : Mem.t)
    (held : list (RespPtr * DonePtr)) : Prop := {
  sf_held : held ⊆ A;
  sf_apart : NoDup held.*1;
  sf_once resp resp' d : (resp, d) ∈ A → (resp', d) ∈ A → resp = resp';
  sf_live resp d : (resp, d) ∈ A → is_Some (Mem.resps m !! resp);
  sf_ran d h resp : EvRun d h ∈ Mem.trace m → (resp, d) ∈ A →
    (resp ∉ held.*1) ∧ Mem.resps m !! resp = h !! resp
}.

Section sent_final.
Implicit Types (A held : list (RespPtr * DonePtr)) (m : Mem.t) (q : list Proposal.t).

Lemma sent_final_nil m : Mem.trace m = [] → sent_final [] m [].
Proof.
  intros Ht. split; [done|constructor|..].
  - by intros resp resp' d ?%not_elem_of_nil.
  - by intros resp d ?%not_elem_of_nil.
  - intros d h resp. rewrite Ht. by intros ?%not_elem_of_nil.
Qed.

(** What is held no more. *)
Lemma sent_final_drop A m held held' :
  held' ⊆+ held → sent_final A m held → sent_final A m held'.
Proof.
  intros Hs [B D E L R]. split; [|by eapply NoDup_submseteq, D; apply fmap_submseteq|done|done|].
  - intros x Hx. apply B. by eapply elem_of_submseteq.
  - intros d h resp Hrun Ha. destruct (R d h resp Hrun Ha) as [Hn Hr]. split; [|done].
    intros Hin. apply Hn. eapply elem_of_submseteq; [exact Hin|by apply fmap_submseteq].
Qed.

(** Memory with the same responses, and no more answers. *)
Lemma sent_final_mem A m m' held :
  Mem.resps m' = Mem.resps m →
  (∀ d h, EvRun d h ∈ Mem.trace m' → EvRun d h ∈ Mem.trace m) →
  sent_final A m held → sent_final A m' held.
Proof.
  intros Hr Ht [B D E L R]. split; try done.
  - intros resp d. rewrite Hr. apply L.
  - intros d h resp Hrun%Ht. rewrite Hr. intros Ha. exact (R _ _ _ Hrun Ha).
Qed.

(** A response that is held is written, and its closure runs. *)
Lemma sent_final_run A m m' r d held :
  sent_final A m ((r, d) :: held) → Mem.trace m' = Mem.trace m →
  (∀ a, a ≠ r → Mem.resps m' !! a = Mem.resps m !! a) → is_Some (Mem.resps m' !! r) →
  sent_final A (Mem.add_event (EvRun d (Mem.resps m')) m') held.
Proof.
  intros [B D E L R] Ht Hm Hr. simpl in D. apply NoDup_cons in D as [Hnot D].
  assert ((r, d) ∈ A) as Hrd by (apply B; by left). split; [|done|done|..].
  - intros x Hx. apply B. by right.
  - intros a d' Ha. simpl. destruct (decide (a = r)) as [->|Hne]; [done|].
    rewrite Hm by done. by eapply L.
  - intros d' h a [Hin|[= -> ->]%list_elem_of_singleton]%elem_of_app Ha; simpl.
    + rewrite Ht in Hin. destruct (R d' h a Hin Ha) as [Hn Hh].
      apply not_elem_of_cons in Hn as [Hne Hn]. split; [done|]. by rewrite Hm.
    + by rewrite (E _ _ _ Ha Hrd).
Qed.

(** A closure that answers no request runs. *)
Lemma sent_final_other A m d held :
  d ∉ A.*2 → sent_final A m held →
  sent_final A (Mem.add_event (EvRun d (Mem.resps m)) m) held.
Proof.
  intros Hd [B D E L R]. split; try done.
  intros d' h a [Hin|[= -> ->]%list_elem_of_singleton]%elem_of_app Ha; [exact (R _ _ _ Hin Ha)|].
  destruct Hd. by apply (list_elem_of_fmap_2 snd) in Ha.
Qed.

(** A request comes in with a new response and a new closure. *)
Lemma sent_final_ask A m r d held :
  Mem.resps m !! r = None → d ∉ A.*2 → (∀ h, EvRun d h ∉ Mem.trace m) →
  sent_final A m held →
  sent_final (A ++ [(r, d)]) (Mem.set_resps <[r := KvResp.default]> m) (held ++ [(r, d)]).
Proof.
  intros Hr Hd Hran [B D E L R].
  assert (∀ a d', (a, d') ∈ A → a ≠ r ∧ d' ≠ d) as Hne.
  { intros a d' Ha. split; intros ->; [|by apply Hd; apply (list_elem_of_fmap_2 snd) in Ha].
    apply L in Ha as [? Ha]. congruence. }
  assert (r ∉ held.*1) as Hfresh.
  { intros ([a d'] & -> & Hin)%list_elem_of_fmap. simpl in Hr, Hne. by apply B, Hne in Hin as [? _]. }
  split.
  - intros x [Hx|Hx]%elem_of_app; apply elem_of_app; [left; by apply B|by right].
  - rewrite fmap_app. apply NoDup_app. split_and!; [done| |by apply NoDup_singleton].
    by intros a Ha ->%list_elem_of_singleton.
  - intros a a' d' [Ha|Ha%list_elem_of_singleton]%elem_of_app
      [Ha'|Ha'%list_elem_of_singleton]%elem_of_app; simplify_eq; [by eapply E|..|done].
    + by apply Hne in Ha as [_ ?].
    + by apply Hne in Ha' as [_ ?].
  - intros a d' [Ha|[= -> ->]%list_elem_of_singleton]%elem_of_app; simpl.
    + rewrite lookup_insert_ne by (symmetry; by apply (Hne _ _ Ha)). by eapply L.
    + by rewrite lookup_insert_eq.
  - intros d' h a Hrun [Ha|[= -> ->]%list_elem_of_singleton]%elem_of_app; [|by destruct (Hran h)].
    destruct (R d' h a Hrun Ha) as [Hn Hh]. destruct (Hne _ _ Ha) as [Har _]. split.
    + rewrite fmap_app, not_elem_of_app. split; [done|]. by intros ?%list_elem_of_singleton.
    + simpl. by rewrite lookup_insert_ne.
Qed.

(** Some proposals are rejected. *)
Lemma sent_final_rejects A ps m held :
  sent_final A m ((prop_pair <$> ps) ++ held) → sent_final A (foldl rejected_mem m ps) held.
Proof.
  revert m. induction ps as [|p ps IH]; intros m Hs; simpl; [done|]. apply IH.
  eapply sent_final_run; [exact Hs|done|..].
  - intros a Ha. simpl. by rewrite lookup_alter_ne.
  - simpl. rewrite lookup_alter_eq, fmap_is_Some.
    apply (sf_live _ _ _ Hs _ (Proposal.done p)), (sf_held _ _ _ Hs). by left.
Qed.
End sent_final.

(** ** A tick *)

Section peer.
Context `{FatalPolicy} `{KvCodec} `{BoostSplit} `{RpcNet} `{RawNodeLaws}.
Context {T : Type} `{KvStoreLaws T}.
Context (A rs : list (RespPtr * DonePtr)).
Implicit Types (x : Peer.Ctx T) (e : Entry.t) (p : option Proposal.t).

(** The queue is held, a proposal that was taken from it, and [rs]. *)
Definition cx_final p x : Prop :=
  sent_final A (Peer.mem x) ((prop_pair <$> option_list p ++ cx_props x) ++ rs).
Definition cx_sent x : Prop := sent_final A (Peer.mem x) [].

Lemma cx_final_sent p x : cx_final p x → cx_sent x.
Proof. apply sent_final_drop, submseteq_nil_l. Qed.

Lemma cx_final_untake p x : cx_final p x → cx_final None x.
Proof.
  apply sent_final_drop, submseteq_skips_r, fmap_submseteq, submseteq_inserts_l. done.
Qed.

(** A context with the same queue and the same memory. *)
Lemma cx_final_same p x x1 :
  Peer.mem x1 = Peer.mem x → cx_props x1 = cx_props x → cx_final p x → cx_final p x1.
Proof. unfold cx_final. by intros -> ->. Qed.

Lemma take_proposal_final i t x :
  ctx_ok x → cx_final None x →
  wp False (if Peer.IsLeader (Peer.peer x) then Peer.in_queue (GetProposal i t)
            else Peer.in_queue CallbackAll ;; mret None)
    (λ p x1, cx_final p x1) (λ _, False) x.
Proof.
  intros Hok Hs. pose proof (ok_live _ Hok) as Hl. unfold cx_final in Hs. simpl in Hs.
  destruct (Peer.IsLeader (Peer.peer x)).
  - peer_step. unfold wp. rewrite GetProposal_eq by done. fold (cx_props x).
    rewrite (matched_partition (t, i) (cx_props x)), fmap_app, <- app_assoc in Hs.
    exact (sent_final_rejects _ _ _ _ Hs).
  - do 2 peer_step. unfold wp at 1. rewrite CallbackAll_eq by done. simpl. apply wp_ret.
    exact (sent_final_rejects _ _ _ _ Hs).
Qed.

(** The closure of the proposal that was taken runs. *)
Lemma run_final (p : Proposal.t) x x1 :
  cx_final (Some p) x → cx_props x1 = cx_props x →
  Mem.trace (Peer.mem x1) = Mem.trace (Peer.mem x) →
  (∀ a, a ≠ Proposal.resp p → Mem.resps (Peer.mem x1) !! a = Mem.resps (Peer.mem x) !! a) →
  is_Some (Mem.resps (Peer.mem x1) !! Proposal.resp p) →
  wp False (Peer.in_mem (Run (Proposal.done p))) (λ _ x', cx_final None x') (λ _, False) x1.
Proof.
  intros Hs Hq Ht Hm Hr. apply wp_zoom, wp_Run. unfold cx_final. simpl.
  change (cx_props (Peer.mk_ctx _ _ _)) with (cx_props x1). rewrite Hq.
  exact (sent_final_run A _ _ _ _ _ Hs Ht Hm Hr).
Qed.

Lemma taken_live (p : Proposal.t) x : cx_final (Some p) x → is_Some (Mem.resps (Peer.mem x) !! Proposal.resp p).
Proof.
  intros Hs. apply (sf_live _ _ _ Hs _ (Proposal.done p)), (sf_held _ _ _ Hs). by left.
Qed.

Lemma run_done_final p x x1 :
  cx_final p x → cx_props x1 = cx_props x → Peer.mem x1 = Peer.mem x →
  wp False (Peer.run_done p) (λ _ x', cx_final None x') (λ _, False) x1.
Proof.
  intros Hs Hq Hm. destruct p as [p|]; simpl.
  - eapply run_final; [exact Hs|done|by rewrite Hm|by rewrite Hm|]. rewrite Hm. by apply taken_live.
  - peer_step. by eapply cx_final_same.
Qed.

Lemma ProcessNormal_final e p x :
  ctx_ok x → cx_final p x →
  wp False (Peer.ProcessNormal e p) (λ _ x', cx_final None x') cx_sent x.
Proof.
  intros Hok Hs. pose proof (cx_final_untake _ _ Hs) as Hun.
  pose proof (cx_final_sent _ _ Hs) as Hsent.
  unfold Peer.ProcessNormal. destruct (ParseFromString (Entry.data e)) as [ok req]. peer_step.
  eapply (wp_mono _ _ (λ _ x', x' = x) _ cx_sent); [|intros [] ? ->|done].
  { peer_step; [peer_step|]; done. }
  destruct (KvReq.cmd_type req); simpl.
  - by peer_step.
  - do 2 peer_step. eapply wp_mono; [apply store_get_wp, Hok|..|by intros d _].
    intros val d _. destruct p as [p|]; [|by peer_step]. do 2 peer_step.
    apply wp_write_resp; [simpl; by apply taken_live|]. intros r Hr.
    eapply wp_mono; [eapply (run_final p x)| |done]; try done.
    + intros a Ha. simpl. by rewrite lookup_insert_ne.
    + simpl. by rewrite lookup_insert_eq.
  - do 2 peer_step. eapply wp_mono; [apply store_put_wp, Hok|..|done].
    intros [] d _. by eapply wp_mono; [eapply (run_done_final p x)| |done].
  - do 2 peer_step. eapply wp_mono; [apply store_del_wp, Hok|..|done].
    intros [] d _. by eapply wp_mono; [eapply (run_done_final p x)| |done].
  - peer_step; [done|]. exact Hun.
Qed.

Lemma ProcessEntry_final e x :
  ctx_ok x → cx_final None x →
  wp False (Peer.ProcessEntry e) (λ _ x', cx_final None x') cx_sent x.
Proof.
  intros Hok Hs. unfold Peer.ProcessEntry. do 3 peer_step.
  eapply wp_mono; [apply wp_and; [by apply take_proposal_wp|
    by apply wp_defined, take_proposal_final]| |by intros ? []].
  intros p x1 [(Hok1 & _) Hs1]. case_decide.
  - by apply ProcessNormal_final.
  - apply wp_ret. by eapply cx_final_untake.
Qed.

Lemma ProcessEntries_final es x :
  ctx_ok x → cx_final None x →
  wp False (Peer.ProcessEntries es) (λ _ x', cx_final None x') cx_sent x.
Proof.
  unfold Peer.ProcessEntries. revert x. induction es as [|e es IH]; intros x Hok Hs; simpl.
  { by apply wp_ret. }
  apply wp_bind. eapply wp_mono; [apply wp_and; [by apply ProcessEntry_wp|
    by apply wp_defined, ProcessEntry_final]| |by intros x1 [_ ?]].
  intros [] x1 [Hes Hs1]. apply IH; [apply Hes|done].
Qed.

(** Sending runs no closure and writes no response. *)
Lemma only_sends_final x x1 : only_sends x x1 → cx_final None x → cx_final None x1.
Proof.
  intros (Hp & Hr & Ht). unfold cx_final, cx_props. rewrite Hp. apply sent_final_mem; [done|].
  destruct (Ht ∅ [] []) as (evs & Etr & Hevs). unfold cx_trace in Etr. rewrite Etr.
  intros d h [?|Hin]%elem_of_app; [done|]. eapply Forall_forall in Hin; [|exact Hevs].
  by destruct Hin as (pr & r & ?%not_elem_of_nil & _).
Qed.

Lemma HandleRaftReady_final x :
  ctx_ok x → knows_members x → cx_final None x →
  wp False Peer.HandleRaftReady (λ _ x', cx_final None x') cx_sent x.
Proof.
  intros Hok Hkm Hs. apply HandleRaftReady_stages; [done|].
  intros rd r1 _ Erd. set (r2 := if bool_decide _ then _ else _).
  eapply wp_mono; [apply (wp_moves only_sends); [apply SendMsgs_wp|apply SendMsgs_moves]| |].
  - by apply with_raft_ok.
  - intros m Hm. apply Hkm. by eapply ready_to_members.
  - intros [] x2 [(Hok2 & _) Hsend]. eapply wp_mono; [apply ProcessEntries_final; [done|]|..|done].
    + by eapply only_sends_final.
    + intros [] x3 Hs3. exact Hs3.
  - intros x' [_ Hsend]. eapply cx_final_sent, only_sends_final; [exact Hsend|exact Hs].
Qed.

Lemma Tick_final x :
  ctx_ok x → knows_members x → cx_final None x →
  wp False Peer.Tick (λ _ x', cx_final None x') cx_sent x.
Proof.
  intros Hok Hkm Hs. unfold Peer.Tick. do 4 peer_step. fold (cx_raft x).
  apply (HandleRaftReady_final (with_raft (Raft.Tick (cx_raft x)) x)); [by apply with_raft_ok| |exact Hs].
  apply knows_members_op; [done|constructor].
Qed.
End peer.

(** ** The steps of a server *)

Section exec.
Context `{FatalPolicy} `{KvCodec} `{BoostSplit} `{RpcNet} `{RawNodeLaws} `{LevelDBLaws}.
Context (Hf : fatal_aborts = true).
#[local] Hint Extern 0 (KvStoreLaws DiskStorage.t) => exact (ds_laws Hf) : typeclass_instances.
Context (self : GroupMember.t) (ms : peers_map) (m0 : kv_map).
Implicit Types (w : Process.t) (s : Sys.t) (x : Peer.Ctx DiskStorage.t).
Implicit Types (G : ghost) (log : list Entry.t) (wire : list news).

Definition held_by w (p : Peer.t DiskStorage.t) : list (RespPtr * DonePtr) :=
  (prop_pair <$> Peer.proposals_ p) ++ (Process.tasks w ≫= task_pair).

Definition proc_final (A : list (RespPtr * DonePtr)) w : Prop :=
  ∃ p, Process.objs w = {[0 := p]} ∧ sent_final A (Process.mem w) (held_by w p).
Definition proc_sent (A : list (RespPtr * DonePtr)) w : Prop := sent_final A (Process.mem w) [].

Lemma proc_final_sent A w : proc_final A w → proc_sent A w.
Proof. intros (p & _ & Hs). eapply sent_final_drop; [apply submseteq_nil_l|exact Hs]. Qed.

Lemma proc_final_put A x' w p :
  Process.objs w = {[0 := p]} → cx_final A (Process.tasks w ≫= task_pair) None x' →
  proc_final A (Process.put_context 0 x' w).
Proof.
  intros Hp Hs. exists (Peer.peer x'). split; [|exact Hs]. simpl. by rewrite Hp, insert_singleton_eq.
Qed.

(** The callback leaves the list; its response is held all the same. *)
Lemma held_pop w p i t :
  Process.tasks w !! i = Some t →
  held_by w p ≡ₚ task_pair t ++ held_by (Process.set_tasks (delete i (Process.tasks w)) w) p.
Proof.
  intros Ht. unfold held_by. simpl. rewrite (tasks_pop task_pair _ _ _ Ht). solve_Permutation.
Qed.

Lemma KvOpCb_final A i req resp d w p :
  Process.objs w = {[0 := p]} →
  PeerHost.local_peers_ (Process.host w) = {[GroupMember.peer_id self := 0]} →
  Process.tasks w !! i = Some (TKvOpCb req resp d) → sent_final A (Process.mem w) (held_by w p) →
  wp True (KvOpCb req resp d) (λ _ w', proc_final A w') (proc_sent A)
    (Process.set_tasks (delete i (Process.tasks w)) w).
Proof.
  intros Hp Hn Hi Hs. assert (sent_final A (Process.mem w) []) as Hsent
    by (eapply sent_final_drop; [apply submseteq_nil_l|exact Hs]).
  assert (sent_final A (Process.mem w)
    ((resp, d) :: held_by (Process.set_tasks (delete i (Process.tasks w)) w) p)) as Hpop.
  { eapply sent_final_drop; [|exact Hs]. by rewrite (held_pop _ _ _ _ Hi). }
  unfold KvOpCb. wp_step. unfold wp at 1. simpl. rewrite Hn.
  destruct ({[_ := 0]} !! 1) as [a|] eqn:Ha; simpl; [|do 2 wp_step; done || congruence].
  apply lookup_singleton_Some in Ha as [_ <-]. do 3 wp_step.
  set (w1 := Process.set_tasks _ _) in *.
  assert (Process.objs w1 !! 0 = Some p) as Hp0 by (simpl; by rewrite Hp, lookup_singleton_eq).
  eapply wp_with_peer; [exact Hp0|]. wp_step. apply wp_get_peer, wp_ret.
  rewrite put_context_id by done. simpl. destruct (Peer.IsLeader p) eqn:El; simpl.
  - eapply wp_with_peer; [exact Hp0|].
    eapply wp_mono; [apply wp_defined, ProposeKvOp_wp| |by intros x' ->].
    intros [] x' ->. simpl. rewrite El. apply (proc_final_put _ _ _ p); [done|].
    unfold cx_final. simpl. eapply sent_final_drop; [|exact Hpop].
    change (cx_props _) with (Peer.proposals_ p ++ [Proposal.mk (Peer.NextProposalIndex p)
      (Raft.term (Peer.raw_node_ p)) resp d]).
    rewrite fmap_app. simpl. unfold held_by. simpl. by rewrite <- app_assoc, Permutation_middle.
  - wp_step. apply wp_zoom. unfold wp at 1, write_resp. simpl.
    destruct (Mem.resps (Process.mem w) !! resp) as [r|]; [|done].
    apply wp_zoom, wp_Run. exists p. split; [done|].
    refine (sent_final_run A (Process.mem w) (Mem.set_resps <[resp := KvResp.set_rejected true r]>
      (Process.mem w)) resp d (held_by w1 p) Hpop eq_refl _ _); simpl.
    + intros a Ha. by rewrite lookup_insert_ne.
    + by rewrite lookup_insert_eq.
Qed.

Lemma HandleRaftMsgCb_final A i req d w p :
  Process.objs w = {[0 := p]} →
  PeerHost.local_peers_ (Process.host w) = {[GroupMember.peer_id self := 0]} →
  Process.tasks w !! i = Some (THandleRaftMsgCb req d) → d ∉ A.*2 →
  sent_final A (Process.mem w) (held_by w p) →
  wp True (HandleRaftMsgCb req d) (λ _ w', proc_final A w') (proc_sent A)
    (Process.set_tasks (delete i (Process.tasks w)) w).
Proof.
  intros Hp Hn Hi Hd Hs. assert (sent_final A (Process.mem w) []) as Hsent
    by (eapply sent_final_drop; [apply submseteq_nil_l|exact Hs]).
  assert (sent_final A (Process.mem w)
    (held_by (Process.set_tasks (delete i (Process.tasks w)) w) p)) as Hpop.
  { eapply sent_final_drop; [|exact Hs]. by rewrite (held_pop _ _ _ _ Hi). }
  unfold HandleRaftMsgCb. wp_step. unfold wp at 1. simpl. rewrite Hn.
  destruct ({[_ := 0]} !! _) as [a|] eqn:Ha; simpl; [|do 2 wp_step; done || congruence].
  apply lookup_singleton_Some in Ha as [_ <-]. do 3 wp_step.
  eapply wp_with_peer; [simpl; by rewrite Hp, lookup_singleton_eq|].
  unfold Peer.Step. do 2 peer_step. destruct (Raft.Step _ _) as [e r]. do 3 peer_step.
  apply wp_zoom, wp_Run. eexists. split; [simpl; by rewrite Hp, insert_singleton_eq|].
  by apply (sent_final_other _ (Process.mem w)).
Qed.

Lemma pairs_dones G : (pairs_of G).*2 = asked_dones G.
Proof. unfold pairs_of, asked_dones. by rewrite <- list_fmap_compose. Qed.

Lemma exec_final G log wire n l s :
  sys_inv Hf s → hosted Hf self ms m0 wire n (Sys.proc s) → Sys.enabled l s →
  proc_truth m0 G log wire (Sys.given s) (Sys.proc s) → proc_final (pairs_of G) (Sys.proc s) →
  wp True (Sys.exec l)
    (λ _ s', proc_final (pairs_of (ask (asked_by l) G)) (Sys.proc s'))
    (λ s', proc_sent (pairs_of G) (Sys.proc s')) s.
Proof.
  intros [Hi Hg] Hw He (p & Hp & Ht) Hs. pose proof (proc_final_sent _ _ Hs) as Hsent.
  destruct Hs as (p' & Hp' & Hs). assert (p' = p) as -> by (rewrite Hp in Hp';
    by apply (inj (singletonM 0)) in Hp' as <-). clear Hp'.
  pose proof (ho_table _ _ _ _ _ _ _ Hw) as Htab.
  destruct (closures_nodup s p Hg Hp) as [_ Hsub].
  destruct s as [w C g]. simpl in *. destruct l as [req resp d|req d|i|i|a c];
    simpl in *; unfold ask; rewrite ?app_nil_r.
  - destruct He as [Hr Hd]. wp_step. apply wp_modify, wp_zoom. simpl.
    wp_step. apply wp_zoom, wp_modify. unfold KvOp, RunInLoop. do 2 wp_step. simpl.
    destruct (PeerHost.mutable_worker _); [|done]. wp_step. exists p. split; [done|].
    unfold pairs_of, held_by in *. simpl. rewrite bind_app, fmap_app, app_assoc. simpl.
    apply sent_final_ask; [done| | |done].
    + change ((λ a, (a.1.2, a.2)) <$> asked G) with (pairs_of G). rewrite pairs_dones.
      intros Hin. by apply Hd, (tr_given _ _ _ _ _ _ _ _ Ht).
    + intros h Hin. apply Hd, Hsub, elem_of_app. left. apply elem_of_runs. by exists h.
  - destruct G as [G1 G2]. wp_step. apply wp_modify, wp_zoom. simpl.
    unfold HandleRaftMsg, RunInLoop. do 3 wp_step.
    eapply (wp_mono _ _ (λ _ w', w' = w) _ (λ w', w' = w)); [by wp_steps| |by intros w' ->].
    intros [] w' ->. do 2 wp_step. destruct (PeerHost.mutable_worker _); [|done]. wp_step.
    exists p. split; [done|]. unfold held_by in *. simpl. by rewrite bind_app, app_nil_r.
  - destruct G as [G1 G2]. destruct He as [t Hti]. apply wp_zoom. simpl. wp_step.
    unfold wp at 1, Sys.pop_task. rewrite Hti.
    destruct t as [req resp d|req d]; simpl; [by eapply KvOpCb_final|].
    eapply HandleRaftMsgCb_final; [done..| |done]. rewrite pairs_dones.
    exact (proj1 (Forall_forall _ _) (tr_tasks _ _ _ _ _ _ _ _ Ht) _ (list_elem_of_lookup_2 _ _ _ Hti)).
  - destruct G as [G1 G2]. destruct He as [[per a] Hti]. apply wp_zoom. simpl. unfold Sys.fire.
    do 2 wp_step. rewrite Hti. assert (a = 0) as ->
      by (eapply (ho_timers _ _ _ _ _ _ _ Hw); by eapply list_elem_of_lookup_2).
    eapply wp_with_peer; [by rewrite Hp, lookup_singleton_eq|].
    pose proof (peer_inv_of _ _ _ _ Hi Hp) as Hpi.
    eapply wp_mono; [apply wp_defined, (Tick_final (pairs_of (Ghost G1 G2))
      (Process.tasks w ≫= task_pair)); [apply Hpi..|exact Hs]| |].
    + intros [] x' Hs'. by eapply proc_final_put.
    + intros x' Hs'. exact Hs'.
  - destruct G as [G1 G2]. destruct He as [[q Hq] _]. wp_step. apply wp_zoom.
    eapply wp_with_peer; [exact Hq|]. apply wp_zoom. unfold wp at 1, delete_call. simpl.
    case_decide; [|done]. wp_step. rewrite put_context_mem by done. exists p. split; [done|].
    by eapply sent_final_mem; [..|exact Hs].
Qed.
End exec.

(** ** In a cluster *)

Section cluster.
Context `{FatalPolicy} `{KvCodec} `{BoostSplit} `{RpcNet} `{RawNodeLaws} `{LevelDBLaws}
        `{PeerInit.HashOrderLaws}.
Context (Hf : fatal_aborts = true).
#[local] Hint Extern 0 (KvStoreLaws DiskStorage.t) => exact (ds_laws Hf) : typeclass_instances.
Context (new_MemoryStorage : mem_storage) (GetWorker : WorkerPtr).
Context (flags : gmap Z ServerFlags.t) (m0 : kv_map).
Context (ms : peers_map) (Hcf : configured flags ms).
Context (snap0 : Snapshot.t).
Context (Hsnap : GetSnapshot new_MemoryStorage = (kOk, Some snap0)).
Context (Hvoters : ConfState.voters (Snapshot.conf_state snap0) = []).
Context (Hworker : is_Some GetWorker).
Implicit Types (C : gmap Z server) (sv : server).

#[local] Abbreviation cluster_step := (cluster_step flags).
#[local] Abbreviation cluster_start := (cluster_start Hf new_MemoryStorage GetWorker flags m0).
#[local] Abbreviation cluster_reachable :=
  (cluster_reachable Hf new_MemoryStorage GetWorker flags m0).

(** A server that has stopped holds nothing any more. *)
Definition server_final sv : Prop :=
  let A := pairs_of (cs_ghost sv) in let w := Sys.proc (cs_sys sv) in
  proc_sent A w ∧ (cs_up sv = true → proc_final A w).
Definition all_final C : Prop := map_Forall (λ _, server_final) C.

Lemma start_final C : cluster_start C → all_final C.
Proof.
  intros Hc i sv Hi. destruct (Hc _ _ Hi) as (fl & f & w & f' & Hfl & E & -> & _).
  pose proof (wp_Ok _ _ _ _ _ _ _ (main_wp Hf new_MemoryStorage GetWorker snap0 Hsnap Hvoters
    Hworker fl ms f (cf_members _ _ Hcf _ _ Hfl)) E) as [_ [_ _ _ (p & Hp & Hfr) Hm Htk _]].
  assert (proc_final [] w) as Hw.
  { exists p. split; [done|]. unfold held_by. rewrite (fp_props _ _ _ _ Hfr), Htk, Hm.
    by apply sent_final_nil. }
  split; [by apply proc_final_sent|done].
Qed.

Lemma step_final C N C' :
  related Hf flags m0 ms C N → cluster_step C C' → all_final C → all_final C'.
Proof.
  intros Hr Hst Hall.
  destruct Hst as [i fl s log G l s' Hfl Hi [He _] E|i fl s log G l msg s' Hfl Hi [He _] E|i s log G Hi];
    (apply map_Forall_insert_2; [|done]); destruct (Hall _ _ Hi) as [Hsent Hup]; [| |by split].
  all: destruct (rl_up _ _ _ _ _ _ Hr _ _ _ _ _ Hi Hfl) as [n [_ _ Hinv Hw Ht]].
  all: pose proof (exec_final _ _ _ _ _ _ _ _ _ _ Hinv Hw He Ht (Hup eq_refl)) as Hwp.
  all: unfold wp in Hwp; rewrite E in Hwp.
  - split; [by apply proc_final_sent|done].
  - by split.
Qed.

Context `{!RaftSafety new_MemoryStorage}.

Lemma reachable_final C : cluster_reachable C → all_final C.
Proof.
  intros (C0 & Hs & Hst). assert (cluster_reachable C0) as Hr0 by (exists C0; split; [done|apply rtc_refl]).
  apply start_final in Hs. revert Hr0 Hs. induction Hst as [C|C1 C2 C3 Hst _ IH]; [done|].
  intros Hr1 Hall. apply IH; [by eapply reachable_steps; [|apply rtc_once]|].
  eapply cluster_simulation in Hr1 as (N & _ & Hr); [|done..]. by eapply step_final.
Qed.

(** ** Freeing what was sent *)

(** The responses whose closures have run, and the server without them. *)
Definition sent_resps sv : list RespPtr :=
  a ← asked (cs_ghost sv); if decide (a.2 ∈ runs (server_trace sv)) then [a.1.2] else [].
Definition freed sv : Sys.t :=
  let s := cs_sys sv in
  Sys.mk (Process.set_mem (Mem.set_resps (λ h, foldr delete h (sent_resps sv))
            (Process.mem (Sys.proc s))) (Sys.proc s)) (Sys.completed s) (Sys.given s).

Lemma held_kept sv held r :
  sent_final (pairs_of (cs_ghost sv)) (Process.mem (Sys.proc (cs_sys sv))) held → r ∈ held.*1 →
  is_Some (foldr delete (Mem.resps (Process.mem (Sys.proc (cs_sys sv)))) (sent_resps sv) !! r).
Proof.
  intros Hs Hr. rewrite lookup_foldr_delete_not_elem_of.
  - apply list_elem_of_fmap in Hr as ([r' d] & -> & Hin). apply (sf_live _ _ _ Hs r' d).
    by apply (sf_held _ _ _ Hs).
  - intros ([[req r'] d] & Hin & Ha)%list_elem_of_bind. simpl in Hin. case_decide as Hrun;
      [|by apply not_elem_of_nil in Hin]. apply list_elem_of_singleton in Hin as <-.
    apply elem_of_runs in Hrun as [h Hrun]. eapply (sf_ran _ _ _ Hs d h r); [done| |done].
    apply elem_of_pairs. by exists req.
Qed.

Lemma freed_inv sv :
  sys_inv Hf (cs_sys sv) → proc_final (pairs_of (cs_ghost sv)) (Sys.proc (cs_sys sv)) →
  sys_inv Hf (freed sv).
Proof.
  intros [[Hw Htab Hti Hps Htk Hcalls] Hg] (p & Hp & Hs). split; [|exact Hg].
  pose proof (λ r, held_kept sv _ r Hs) as Hkept. unfold held_by in Hkept.
  split; try done.
  - intros a q Ha. assert (a = 0 ∧ q = p) as [-> ->].
    { simpl in Ha. rewrite Hp in Ha. by apply lookup_singleton_Some in Ha as [-> ->]. }
    destruct (Hps 0 p) as [[_ Ho Hc] Hm Hq]; [by rewrite Hp, lookup_singleton_eq|].
    split; [split|done|done]; try done. apply Forall_forall. intros pr Hpr. apply Hkept.
    rewrite fmap_app. apply elem_of_app. left. apply list_elem_of_fmap. exists (prop_pair pr).
    split; [done|]. by apply list_elem_of_fmap_2.
  - intros [req resp d|]; [|done]. intros Hin. apply Hkept. rewrite fmap_app. apply elem_of_app.
    right. apply list_elem_of_fmap. exists (resp, d). split; [done|]. apply list_elem_of_bind.
    eexists. split; [|exact Hin]. by left.
Qed.

(** C20 What was sent is final, and could be freed: in every state a cluster can
    reach, also at a server that has aborted or been killed, the response of a
    client's request whose closure has run still holds what the closure read;
    and at a server that runs, no pending proposal and no callback that waits
    in the event loop points to it, and every step that is enabled when all
    those responses have been freed, and their addresses may be given out
    again, returns or aborts through a FATAL record: none of them uses a
    response that was sent. *)
Theorem answers_final C i sv req resp d h :
  cluster_reachable C → C !! i = Some sv →
  (req, resp, d) ∈ asked (cs_ghost sv) → EvRun d h ∈ server_trace sv →
  Mem.resps (Process.mem (Sys.proc (cs_sys sv))) !! resp = h !! resp ∧
  (cs_up sv = true →
    (∀ a p pr, Process.objs (Sys.proc (cs_sys sv)) !! a = Some p → pr ∈ Peer.proposals_ p →
       Proposal.resp pr ≠ resp) ∧
    (∀ req' d', TKvOpCb req' resp d' ∉ Process.tasks (Sys.proc (cs_sys sv))) ∧
    ∀ l, Sys.enabled l (freed sv) →
      (∃ s', Sys.exec l (freed sv) = Ok () s') ∨ ∃ msg s', Sys.exec l (freed sv) = Abort msg s').
Proof.
  intros Hreach Hi Ha Hrun. destruct (reachable_final _ Hreach _ _ Hi) as [Hsent Hup].
  assert ((resp, d) ∈ pairs_of (cs_ghost sv)) as Hin by (apply elem_of_pairs; by exists req).
  split; [by apply (sf_ran _ _ _ Hsent d h resp)|]. intros Hu.
  pose proof (Hup Hu) as Hfin. pose proof Hfin as (p & Hp & Hs).
  destruct (sf_ran _ _ _ Hs d h resp Hrun Hin) as [Hnot _].
  unfold held_by in Hnot. rewrite fmap_app, not_elem_of_app in Hnot. destruct Hnot as [Hq Ht].
  split; [|split].
  - intros a p' pr Ha'. rewrite Hp in Ha'. apply lookup_singleton_Some in Ha' as [_ <-].
    intros Hpr <-. apply Hq. apply list_elem_of_fmap. exists (prop_pair pr). split; [done|].
    by apply list_elem_of_fmap_2.
  - intros req' d' Htask. apply Ht. apply list_elem_of_fmap. exists (resp, d'). split; [done|].
    apply list_elem_of_bind. exists (TKvOpCb req' resp d'). split; [by left|done].
  - intros l Hl. eapply cluster_simulation in Hreach as (N & _ & Hr); [|done..].
    destruct sv as [s up log G]. simpl in Hu. subst up.
    destruct (rl_flags _ _ _ _ _ _ Hr _ _ Hi) as [fl Hfl].
    destruct (rl_up _ _ _ _ _ _ Hr _ _ _ _ _ Hi Hfl) as [n [_ _ Hinv _ _]].
    pose proof (exec_wp Hf l _ (freed_inv (Server s true log G) Hinv Hfin) Hl) as Hw.
    unfold wp in Hw. destruct (Sys.exec l _) as [[] s'|msg s'| |]; try done; [left|right]; eauto.
Qed.
End cluster.
