(* ===== verification/Linear.v ===== *)
(** * Linear: the cluster is a linearizable map

    The operations of the clients, whichever servers take them, can be put in
    one sequence that explains every answer that is not a rejection
    ([linearizes]): it is the one the abstract map gives to an operation of the
    sequence when the operations before that one have been applied; and what
    came in after the answer was given is behind that operation.  If raft ever
    accepts the proposal of the client that is answered, the operation is the
    client's own: this is linearizability, with the responses "rejected" read
    as no response.  A proposal that raft drops is not in the sequence: its
    client is told the answer to another operation (PeerFaults shows how), and
    the theorem says of which.  The operations in the sequence are those whose
    proposals raft accepted and handed out, in the order of the log; an
    operation whose client was rejected or not answered may be among them. *)
From S2P Require Import Prelude Wire RpcClient Runtime CString Storage Members Raft Config.
From S2P Require Import Proposals HostClients Peer KvSpec PeerSafety PeerQueue Outbox RaftNet Host.
From S2P Require Import HostLaws Services System Traces Hosting Truth EchoServer Cluster RealTime.

(** ** Operations *)

(** A request of a client, with the server that took it and the closure that
    answers it. *)
Record op : Type := Op { op_server : Z; op_done : DonePtr; op_req : KvReq.t }.

Definition op_answer (m : kv_map) (o : op) : KvResp.t := kv_answer m (op_req o) KvResp.default.
Definition ops_apply (m : kv_map) (ops : list op) : kv_map := foldl kv_apply m (op_req <$> ops).

Section ops.
Context `{RawNode} `{LevelDB}.
Implicit Types (C : gmap Z server) (o : op) (pos : Z * Z).

Definition invoked C o : Prop :=
  ∃ sv, C !! op_server o = Some sv ∧ op_done o ∈ asked_dones (cs_ghost sv).

(** Raft accepted the proposal of the operation at [pos]. *)
Definition op_at C pos o : Prop :=
  ∃ sv resp, C !! op_server o = Some sv ∧ (op_req o, resp, op_done o) ∈ asked (cs_ghost sv) ∧
             (op_done o, pos) ∈ accepted (cs_ghost sv).

(** Raft has accepted the proposal of the operation. *)
Definition accepted_op C o : Prop := ∃ pos, op_at C pos o.

(** The server of the operation has run its closure on the response [r]. *)
Definition replied C o (r : KvResp.t) : Prop :=
  ∃ sv resp h, C !! op_server o = Some sv ∧ (op_req o, resp, op_done o) ∈ asked (cs_ghost sv) ∧
    EvRun (op_done o) h ∈ server_trace sv ∧ h !! resp = Some r.

(** The client of the operation has been sent an answer. *)
Definition answered_with C o (r : KvResp.t) : Prop :=
  replied C o r ∧ KvResp.rejected r = false.

(** The operations of the servers, with their positions. *)
Definition server_ops (i : Z) (sv : server) : list ((Z * Z) * op) :=
  acc ← accepted (cs_ghost sv);
  rq ← asked (cs_ghost sv);
  if decide (rq.2 = acc.1) then [(acc.2, Op i acc.1 rq.1.1)] else [].
Definition cluster_ops C : list ((Z * Z) * op) :=
  map_to_list C ≫= λ x, server_ops x.1 x.2.
Definition find_op C pos : option op :=
  snd <$> head (filter (λ x, x.1 = pos) (cluster_ops C)).

Lemma elem_of_server_ops i sv pos o :
  (pos, o) ∈ server_ops i sv ↔
  op_server o = i ∧ (op_done o, pos) ∈ accepted (cs_ghost sv) ∧
  ∃ resp, (op_req o, resp, op_done o) ∈ asked (cs_ghost sv).
Proof.
  unfold server_ops. rewrite list_elem_of_bind. setoid_rewrite list_elem_of_bind. split.
  - intros ([d pos'] & ([[req resp] d'] & Hin & Ha) & Hacc). simpl in *. case_decide; [|set_solver].
    apply list_elem_of_singleton in Hin as [= -> ->]. subst. eauto.
  - intros (<- & Hacc & resp & Ha). eexists. split; [|exact Hacc]. eexists. split; [|exact Ha].
    simpl. rewrite decide_True by done. destruct o. by left.
Qed.

Lemma elem_of_cluster_ops C pos o : (pos, o) ∈ cluster_ops C ↔ op_at C pos o.
Proof.
  unfold cluster_ops, op_at. rewrite list_elem_of_bind. split.
  - intros ([i sv] & Hin & Hi%elem_of_map_to_list). simpl in Hin.
    apply elem_of_server_ops in Hin as (<- & Hacc & resp & Ha). by exists sv, resp.
  - intros (sv & resp & Hi & Ha & Hacc). exists (op_server o, sv).
    split; [|by apply elem_of_map_to_list]. simpl. apply elem_of_server_ops. eauto.
Qed.

Lemma find_op_Some C pos o : find_op C pos = Some o → op_at C pos o.
Proof.
  unfold find_op. intros ([pos' o'] & Hin & ->)%fmap_Some.
  apply head_Some_elem_of, list_elem_of_filter in Hin as [<- Hin]. by apply elem_of_cluster_ops.
Qed.

Lemma find_op_None C pos o : find_op C pos = None → ¬ op_at C pos o.
Proof.
  unfold find_op. rewrite fmap_None. intros Hn Hin%elem_of_cluster_ops.
  assert ((pos, o) ∈ filter (λ x, x.1 = pos) (cluster_ops C)) as Hf
    by (by apply list_elem_of_filter).
  destruct (filter _ _); [by apply not_elem_of_nil in Hf|done].
Qed.
End ops.

(** ** Sequences *)

Lemma omap_split {A B} (f : A → option B) l k x y :
  l !! k = Some x → f x = Some y →
  omap f l = omap f (take k l) ++ y :: omap f (drop (S k) l).
Proof.
  intros Hk Hf. rewrite <- (take_drop_middle _ _ _ Hk) at 1. rewrite omap_app. simpl. by rewrite Hf.
Qed.

Lemma NoDup_omap_lookup {A B} (f : A → option B) l :
  (∀ j k x x' y, (j < k)%nat → l !! j = Some x → l !! k = Some x' →
     f x = Some y → f x' = Some y → False) →
  NoDup (omap f l).
Proof.
  induction l as [|x l IH]; intros Hl; simpl; [constructor|].
  assert (NoDup (omap f l)) as Hnd.
  { apply IH. intros j k z z' y Hlt Hj Hk. by apply (Hl (S j) (S k) z z' y); [lia|..]. }
  destruct (f x) as [y|] eqn:E; [|done]. apply NoDup_cons. split; [|done].
  intros (x' & [k Hk]%list_elem_of_lookup & E')%list_elem_of_omap.
  by apply (Hl 0%nat (S k) x x' y); [lia|..].
Qed.

(** One of several cuts of a log is the longest. *)
Lemma longest_log {K A B} `{Countable K} (f : A → list B) (m : gmap K A) :
  (∀ i j x y, m !! i = Some x → m !! j = Some y → comparable (f x) (f y)) →
  ∃ L, (L = [] ∨ ∃ i x, m !! i = Some x ∧ L = f x) ∧
       ∀ i x, m !! i = Some x → f x `prefix_of` L.
Proof.
  induction m as [|i x m Hi IH] using map_ind; intros Hc.
  { exists []. split; [by left|]. intros i x. by rewrite lookup_empty. }
  destruct IH as (L & HL & Hp).
  { intros j k y z Hj Hk. apply (Hc j k); rewrite lookup_insert_ne; naive_solver. }
  assert (comparable (f x) L) as [Hx|Hx].
  { destruct HL as [->|(j & y & Hj & ->)]; [right; apply prefix_nil|].
    apply (Hc i j); [apply lookup_insert_eq|rewrite lookup_insert_ne; naive_solver]. }
  - exists L. split.
    + destruct HL as [?|(j & y & Hj & ?)]; [by left|right; exists j, y].
      rewrite lookup_insert_ne; naive_solver.
    + intros j y [[_ <-]|[_ Hj]]%lookup_insert_Some; [done|by eapply Hp].
  - exists (f x). split; [right; exists i, x; by rewrite lookup_insert_eq|].
    intros j y [[_ <-]|[_ Hj]]%lookup_insert_Some; [done|etrans; [by eapply Hp|done]].
Qed.

(** ** The linearization *)

Section linear.
Context `{FatalPolicy} `{KvCodec} `{BoostSplit} `{RpcNet} `{RawNodeLaws} `{LevelDBLaws}
        `{PeerInit.HashOrderLaws}.
Context (Hf : fatal_aborts = true).
#[local] Hint Extern 0 (KvStoreLaws DiskStorage.t) => exact (ds_laws Hf) : typeclass_instances.
Context (new_MemoryStorage : mem_storage) (GetWorker : WorkerPtr).
Context (flags : gmap Z ServerFlags.t) (m0 : kv_map).
Context (ms : peers_map) (Hcf : configured flags ms).
Context (snap0 : Snapshot.t).
Context (Hsnap : GetSnapshot new_MemoryStorage = (kOk, Some snap0)).
Context (Hvoters : ConfState.voters (Snapshot.conf_state snap0) = []).
Context (Hworker : is_Some GetWorker).
Context `{!RaftSafety new_MemoryStorage} `{!KvCodecLaws}.
Implicit Types (C : gmap Z server) (sv : server) (o : op) (pos : Z * Z).

#[local] Abbreviation cluster_step := (cluster_step flags).
#[local] Abbreviation cluster_reachable :=
  (cluster_reachable Hf new_MemoryStorage GetWorker flags m0).
#[local] Abbreviation related := (related Hf flags m0 ms).
#[local] Abbreviation net_reachable := (net_reachable new_MemoryStorage (map_to_list ms).*1).

(** The answer [r] that the client of [o] had got by the state [C0], on the way
    to [C]: what the map answers to some operation of the sequence, to [o]
    itself if raft has accepted its proposal, at its place; and what came in
    after [C0] is behind that. *)
Definition answer_explained C0 C (lin : list op) o (r : KvResp.t) : Prop :=
  ∃ l1 o' l2, lin = l1 ++ o' :: l2 ∧ r = op_answer (ops_apply m0 l1) o' ∧
    (accepted_op C o → o' = o) ∧ ∀ o2, o2 ∈ lin → ¬ invoked C0 o2 → o2 ∈ l2.

Record linearizes C (lin : list op) : Prop := {
  ln_nodup : NoDup lin;
  ln_invoked o : o ∈ lin → accepted_op C o;
  ln_answers C0 o r : cluster_reachable C0 → rtc cluster_step C0 C → answered_with C0 o r →
    answer_explained C0 C lin o r;
  ln_databases i s log G a p :
    C !! i = Some (Server s true log G) → Process.objs (Sys.proc s) !! a = Some p →
    ∃ l, l `prefix_of` lin ∧ contents (Peer.kv_db_ p) = ops_apply m0 l
}.

(** ** Operations and positions *)

Lemma op_at_grows C C' pos o : grows C C' → op_at C pos o → op_at C' pos o.
Proof.
  intros Hg (sv & resp & (sv' & Hi & Hl)%Hg & Ha & Hacc). exists sv', resp.
  split_and!; [done|by apply (lt_asked _ _ Hl)|by apply (lt_accepted _ _ Hl)].
Qed.

Lemma op_at_own C N pos o :
  related C N → op_at C pos o → own (wire_of N) (op_req o) pos.
Proof.
  intros Hr (sv & resp & Hi & Ha & Hacc).
  pose proof (rc_ghost _ _ _ _ _ _ (rl_recorded _ _ _ _ _ _ Hr _ _ Hi)) as Hg.
  destruct (go_own _ _ Hg _ _ Hacc) as (req & resp' & Ha' & Ho).
  by destruct (asked_unique _ _ _ _ _ _ (go_nodup _ _ Hg) Ha Ha') as [-> _].
Qed.

(** An operation has one position. *)
Lemma op_at_unique C N pos pos' o :
  related C N → op_at C pos o → op_at C pos' o → pos = pos'.
Proof.
  intros Hr (sv & resp & Hi & Ha & Hacc) (sv' & resp' & Hi' & Ha' & Hacc').
  rewrite Hi in Hi'. injection Hi' as <-.
  pose proof (go_once _ _ (rc_ghost _ _ _ _ _ _ (rl_recorded _ _ _ _ _ _ Hr _ _ Hi))) as Hnd.
  apply list_elem_of_lookup in Hacc as [j Hj]. apply list_elem_of_lookup in Hacc' as [k Hk].
  assert (j = k) as ->; [|congruence].
  eapply NoDup_lookup; [exact Hnd|by rewrite list_lookup_fmap, Hj|by rewrite list_lookup_fmap, Hk].
Qed.

(** ** Positions have one operation *)

Lemma accepted_own C N i d pos :
  related C N → accepted_in C i d pos →
  ∃ str, Proposed pos.1 pos.2 str ∈ wire_of N.
Proof.
  intros Hr (sv & Hi & Hacc).
  pose proof (rc_ghost _ _ _ _ _ _ (rl_recorded _ _ _ _ _ _ Hr _ _ Hi)) as Hg.
  destruct (go_own _ _ Hg _ _ Hacc) as (req & resp & _ & str & _ & Hp). by exists str.
Qed.

(** What a leader accepts is at the position of no other proposal. *)
Lemma accepted_new C N i fl s log G l d pos j d' :
  net_reachable N → related C N → C !! i = Some (Server s true log G) →
  flags !! i = Some fl → (d, pos) ∈ accepted_by l s → ¬ accepted_in C j d' pos.
Proof.
  intros Hnet Hr Hi Hfl Hacc Hold.
  destruct (accepted_proposal Hf flags m0 ms _ _ _ _ _ _ _ _ _ _ Hr Hi Hfl Hacc)
    as (r & hi & str & Hn & El & Hok & ->).
  destruct (accepted_own _ _ _ _ _ Hr Hold) as [str' Hp].
  eapply (proposal_distinct _ N); [apply hosts_nodup|exact Hnet|exact Hn|exact El|exact Hok|
    exact Hp|done].
Qed.

Definition positions_distinct C : Prop :=
  ∀ i j d d' pos, accepted_in C i d pos → accepted_in C j d' pos → i = j ∧ d = d'.

Lemma reachable_distinct C : cluster_reachable C → positions_distinct C.
Proof.
  intros (C0 & Hs & Hst). assert (positions_distinct C0) as Hd.
  { intros i j d d' pos (sv & Hi & Hin) _. destruct (Hs _ _ Hi) as (fl & f & w & f' & _ & _ & -> & _).
    by apply not_elem_of_nil in Hin. }
  assert (cluster_reachable C0) as Hr0 by (exists C0; split; [done|apply rtc_refl]).
  clear Hs. revert Hr0 Hd. induction Hst as [C|C1 C2 C3 Hst _ IH]; intros Hr1 Hd; [done|].
  apply IH; [by eapply reachable_steps; [|apply rtc_once]|].
  eapply cluster_simulation in Hr1 as (N & Hnet & Hr); [|done..].
  apply step_accepted in Hst as [Hold|(k & fl & s & log & G & l & d0 & pos0 & Hk & Hfl & Hin & Hnew)].
  - intros i j d d' pos Hi Hj. by eapply Hd; apply Hold.
  - intros i j d d' pos [Hi|(-> & -> & ->)]%Hnew [Hj|(-> & -> & Heq)]%Hnew.
    + by eapply Hd.
    + subst. exfalso. by eapply accepted_new.
    + exfalso. by eapply accepted_new.
    + done.
Qed.

Lemma op_unique C pos o o' :
  cluster_reachable C → op_at C pos o → op_at C pos o' → o = o'.
Proof.
  intros Hreach (sv & resp & Hi & Ha & Hacc) (sv' & resp' & Hi' & Ha' & Hacc').
  pose proof (reachable_distinct _ Hreach) as Hd.
  destruct (Hd (op_server o) (op_server o') (op_done o) (op_done o') pos) as [Es Ed];
    [by exists sv|by exists sv'|].
  destruct o as [i d req], o' as [i' d' req']. simpl in *. subst i' d'. simplify_eq.
  eapply cluster_simulation in Hreach as (N & _ & Hr); [|done..].
  pose proof (rc_ghost _ _ _ _ _ _ (rl_recorded _ _ _ _ _ _ Hr _ _ Hi)) as Hg.
  by destruct (asked_unique _ _ _ _ _ _ (go_nodup _ _ Hg) Ha Ha') as [-> _].
Qed.

Lemma find_op_at C pos o : cluster_reachable C → op_at C pos o → find_op C pos = Some o.
Proof.
  intros Hreach Ho. destruct (find_op C pos) as [o'|] eqn:E; [|by destruct (find_op_None _ _ _ E Ho)].
  f_equal. apply find_op_Some in E. by eapply op_unique.
Qed.

(** ** The log as a sequence of operations *)

Definition entry_op C (e : Entry.t) : option op := find_op C (entry_pos e).

(** An operation is at an entry with its request. *)
Lemma entry_op_req C N i sv e o :
  net_reachable N → related C N → C !! i = Some sv → e ∈ cs_log sv → entry_op C e = Some o →
  Entry.type e = kEntryNormal ∧ decode e = op_req o.
Proof.
  intros Hnet Hr Hi He Eo%find_op_Some.
  pose proof (rc_history _ _ _ _ _ _ (rl_recorded _ _ _ _ _ _ Hr _ _ Hi)) as Hh.
  destruct (op_at_own _ _ _ _ Hr Eo) as (str & Hs & Hp).
  destruct (proposal_unique _ N _ _ str _ _ e (hosts_nodup ms) Hnet Hp Hh He) as [Hty Hdata];
    [done..|].
  split; [done|]. unfold decode. by rewrite Hdata, (parse_serialize _ _ Hs).
Qed.

(** Every command in a log is an operation. *)
Lemma entry_op_some C N i sv e :
  net_reachable N → related C N → C !! i = Some sv → e ∈ cs_log sv →
  Entry.type e = kEntryNormal → Entry.data e ≠ "" → is_Some (entry_op C e).
Proof.
  intros Hnet Hr Hi He Hty Hne.
  pose proof (rc_history _ _ _ _ _ _ (rl_recorded _ _ _ _ _ _ Hr _ _ Hi)) as Hh.
  unfold entry_op. destruct (find_op C (entry_pos e)) as [o|] eqn:Eo; [by eexists|]. exfalso.
  destruct (entry_proposed _ N _ _ e (hosts_nodup ms) Hnet Hh He Hty Hne) as [Hp|Hp];
    apply (rl_news _ _ _ _ _ _ Hr) in Hp; [|done].
  destruct Hp as (j & svj & d & Hj & Hacc).
  pose proof (rc_ghost _ _ _ _ _ _ (rl_recorded _ _ _ _ _ _ Hr _ _ Hj)) as Hg.
  destruct (go_own _ _ Hg _ _ Hacc) as (req & resp & Ha & _).
  apply (find_op_None _ _ (Op j d req) Eo). by exists svj, resp.
Qed.

Lemma answerable_data e : answerable (decode e) → Entry.data e ≠ "".
Proof.
  unfold decode, answerable. intros Han Hd. rewrite Hd, parse_empty in Han.
  by destruct Han as [?|[?|?]].
Qed.

(** What an entry does to the map is what its operation does, or nothing. *)
Lemma entry_op_apply C N i sv e m :
  net_reachable N → related C N → C !! i = Some sv → e ∈ cs_log sv →
  entry_apply m e = match entry_op C e with Some o => kv_apply m (op_req o) | None => m end.
Proof.
  intros Hnet Hr Hi He. unfold entry_apply. destruct (entry_op C e) as [o|] eqn:Eo.
  - destruct (entry_op_req _ _ _ _ _ _ Hnet Hr Hi He Eo) as [Hty ->]. by rewrite decide_True.
  - case_decide as Hty; [|done]. destruct (decide (Entry.data e = "")) as [Hd|Hd].
    + unfold kv_apply, decode. by rewrite Hd, parse_empty.
    + destruct (entry_op_some _ _ _ _ _ Hnet Hr Hi He Hty Hd) as [o Ho]. congruence.
Qed.

Lemma log_ops_apply C N i sv l m :
  net_reachable N → related C N → C !! i = Some sv → l `prefix_of` cs_log sv →
  log_apply m l = ops_apply m (omap (entry_op C) l).
Proof.
  intros Hnet Hr Hi. induction l as [|e l IH] using rev_ind; intros Hl; [done|].
  rewrite log_apply_app, omap_app, IH by (etrans; [by apply prefix_app_r|exact Hl]).
  unfold log_apply. simpl. rewrite (entry_op_apply C N i sv);
    [|done..|eapply elem_of_prefix; [|exact Hl]; set_solver].
  unfold ops_apply. rewrite fmap_app, foldl_app. by destruct (entry_op C e).
Qed.

(** Different entries of a log are of different operations. *)
Lemma entry_op_inj C N i sv :
  net_reachable N → related C N → C !! i = Some sv → NoDup (omap (entry_op C) (cs_log sv)).
Proof.
  intros Hnet Hr Hi. apply NoDup_omap_lookup. intros j k e e' o Hlt Hj Hk Ho Ho'.
  apply find_op_Some in Ho, Ho'.
  pose proof (op_at_unique _ _ _ _ _ Hr Ho Ho') as [= _ Heq].
  pose proof (history_sorted _ N _ _ _ _ _ _ (hosts_nodup ms) Hnet
    (rc_history _ _ _ _ _ _ (rl_recorded _ _ _ _ _ _ Hr _ _ Hi)) Hj Hk Hlt). lia.
Qed.

(** Every answer comes from an entry, which is that of an operation. *)
Lemma answered_entry C N o r :
  net_reachable N → related C N → cluster_reachable C → answered_with C o r →
  ∃ sv k e o', C !! op_server o = Some sv ∧ cs_log sv !! k = Some e ∧
    op_at C (entry_pos e) o' ∧ r = op_answer (log_apply m0 (take k (cs_log sv))) o' ∧
    (accepted_op C o → o' = o).
Proof.
  intros Hnet Hr Hreach [(sv & resp & h & Hi & Ha & Hrun & Hh) Hrej].
  edestruct related_answers as (r' & Hresp & Hv); [done|done|exact Hnet|exact Hr|
    exact Hi|exact Ha|exact Hrun|].
  rewrite Hh in Hresp. injection Hresp as <-.
  destruct Hv as [Hv|(k & e & Hk & -> & Hty & Han & Ho)]; [congruence|].
  pose proof (list_elem_of_lookup_2 _ _ _ Hk) as He.
  destruct (entry_op_some _ _ _ _ _ Hnet Hr Hi He Hty (answerable_data _ Han)) as [o' Eo].
  destruct (entry_op_req _ _ _ _ _ _ Hnet Hr Hi He Eo) as [_ Hreq].
  apply find_op_Some in Eo. exists sv, k, e, o'. unfold op_answer. rewrite <- Hreq.
  split_and!; [done..|]. intros (pos & Hat). eapply op_unique; [done|exact Eo|].
  destruct Hat as (sv2 & resp2 & Hi2 & Ha2 & Hacc). rewrite Hi in Hi2. injection Hi2 as <-.
  destruct (Ho pos Hacc) as [-> _]. by exists sv, resp2.
Qed.

(** What raft has accepted of the answered operations it had accepted then. *)
Lemma answered_accepted C0 C o r :
  cluster_reachable C0 → rtc cluster_step C0 C → replied C0 o r →
  accepted_op C o → accepted_op C0 o.
Proof.
  intros Hreach Hst (sv & resp & h & Hi & Ha & Hrun & Hr) (pos & sv' & resp' & Hi' & _ & Hacc).
  destruct (ran_accepted Hf new_MemoryStorage GetWorker flags m0 ms Hcf snap0 Hsnap Hvoters
    Hworker C0 C (op_server o) sv (op_done o) h pos) as (sv2 & Hi2 & Hacc2); [done..|by exists sv'|].
  rewrite Hi in Hi2. injection Hi2 as <-. by exists pos, sv, resp.
Qed.

(** ** The theorem *)

Section state.
Context C N (L : list Entry.t) (Hreach : cluster_reachable C) (Hnet : net_reachable N) (Hr : related C N).
Context (HL : L = [] ∨ ∃ i sv, C !! i = Some sv ∧ L = cs_log sv).
Context (Hlong : ∀ i sv, C !! i = Some sv → cs_log sv `prefix_of` L).

#[local] Abbreviation lin := (omap (entry_op C) L).

Lemma lin_prefix l : l `prefix_of` L → log_apply m0 l = ops_apply m0 (omap (entry_op C) l).
Proof.
  destruct HL as [->|(i & sv & Hi & ->)].
  - by intros ->%prefix_nil_inv.
  - by eapply log_ops_apply.
Qed.

Lemma lin_nodup : NoDup lin.
Proof. destruct HL as [->|(i & sv & Hi & ->)]; [constructor|by eapply entry_op_inj]. Qed.

(** The operations that come in after a state are behind what it handed out. *)
Lemma lin_later C0 i sv0 k2 e2 o2 :
  cluster_reachable C0 → rtc cluster_step C0 C → C0 !! i = Some sv0 →
  L !! k2 = Some e2 → entry_op C e2 = Some o2 → ¬ invoked C0 o2 → (length (cs_log sv0) ≤ k2)%nat.
Proof.
  intros Hr0 Hst Hi0 Hk2 Ho2 Hni.
  destruct (steps_grow flags C0 C Hst _ _ Hi0) as (sv & Hi & [Hlog _ _]).
  assert (cs_log sv0 `prefix_of` L) as Hp by (etrans; [exact Hlog|by eapply Hlong]).
  assert (unused (entry_pos e2) C0) as Hu.
  { apply find_op_Some in Ho2 as (sv2 & resp & Hi2 & _ & Hacc2).
    eapply later_unused; [exact Hcf|done..|by exists sv2|].
    intros sv' Hi' Hin. apply Hni. by exists sv'. }
  destruct (decide (k2 < length (cs_log sv0))%nat) as [Hlt|?]; [|lia].
  exfalso. destruct Hp as [l ->]. rewrite lookup_app_l in Hk2 by done.
  apply (Hu _ _ e2 Hi0); [by eapply list_elem_of_lookup_2|done].
Qed.

Lemma lin_answers C0 o r :
  cluster_reachable C0 → rtc cluster_step C0 C → answered_with C0 o r →
  answer_explained C0 C lin o r.
Proof.
  intros Hr0 Hst Ha. eapply cluster_simulation in Hr0 as Hsim; [|done..].
  destruct Hsim as (N0 & Hnet0 & Hrel0).
  destruct (answered_entry _ _ _ _ Hnet0 Hrel0 Hr0 Ha)
    as (sv0 & k & e & o' & Hi0 & Hk & Ho & -> & Hown).
  destruct (steps_grow flags C0 C Hst _ _ Hi0) as (sv & Hi & [Hlog _ _]).
  assert (cs_log sv0 `prefix_of` L) as Hp by (etrans; [exact Hlog|by eapply Hlong]).
  pose proof (prefix_lookup_Some _ _ _ _ Hk Hp) as HkL. pose proof (lookup_lt_Some _ _ _ Hk) as Hlt.
  assert (take k (cs_log sv0) = take k L) as Ht.
  { destruct Hp as [l Hl]. rewrite Hl, take_app_le; [done|lia]. }
  assert (entry_op C e = Some o') as Hop.
  { apply find_op_at; [done|]. eapply op_at_grows; [by eapply steps_grow|done]. }
  pose proof (omap_split _ _ _ _ _ HkL Hop) as Hsplit.
  eexists _, o', _. split_and!; [exact Hsplit| | |].
  - by rewrite Ht, lin_prefix by apply prefix_take.
  - intros Hacc. apply Hown. by eapply answered_accepted; [..|apply Ha|].
  - intros o2 (e2 & [k2 Hk2]%list_elem_of_lookup & Ho2)%list_elem_of_omap Hni.
    pose proof (lin_later _ _ _ _ _ _ Hr0 Hst Hi0 Hk2 Ho2 Hni) as Hle.
    apply list_elem_of_omap. exists e2. split; [|done].
    apply list_elem_of_lookup. exists (k2 - S k)%nat. rewrite lookup_drop.
    by replace (S k + (k2 - S k))%nat with k2 by lia.
Qed.

Lemma lin_databases i s log G a p :
  C !! i = Some (Server s true log G) → Process.objs (Sys.proc s) !! a = Some p →
  ∃ l, l `prefix_of` lin ∧ contents (Peer.kv_db_ p) = ops_apply m0 l.
Proof.
  intros Hi Ha. destruct (rl_flags _ _ _ _ _ _ Hr _ _ Hi) as [fl Hfl].
  destruct (rl_up _ _ _ _ _ _ Hr _ _ _ _ _ Hi Hfl) as [n [_ <- _ Hw _]].
  destruct (ho_peer _ _ _ _ _ _ _ Hw) as (q & Hq & Hn). rewrite Hq in Ha.
  apply lookup_singleton_Some in Ha as [_ <-]. pose proof (Hlong _ _ Hi) as Hp. simpl in Hp.
  exists (omap (entry_op C) (node_history n)). split.
  - destruct Hp as [l ->]. rewrite omap_app. by apply prefix_app_r.
  - rewrite (ph_db _ _ _ _ _ _ Hn). by apply lin_prefix.
Qed.
End state.

Lemma linearization C :
  cluster_reachable C →
  ∃ L, (∀ i sv, C !! i = Some sv → cs_log sv `prefix_of` L) ∧
       linearizes C (omap (entry_op C) L).
Proof.
  intros Hreach. eapply cluster_simulation in Hreach as Hsim; [|done..].
  destruct Hsim as (N & Hnet & Hr).
  destruct (longest_log cs_log C) as (L & HL & Hlong).
  { intros i j sv sv' Hi Hj. by eapply related_comparable. }
  exists L. split; [done|]. split.
  - by eapply lin_nodup.
  - intros o (e & _ & Ho%find_op_Some)%list_elem_of_omap. by exists (entry_pos e).
  - intros C0 o r Hr0 Hst Ha. by eapply lin_answers.
  - intros i s log G a p Hi Ha. by eapply lin_databases.
Qed.

(** C1 Linearizability: in every state a cluster can reach, by any interleaving
    of client requests, messages lost, repeated or reordered, ticks, aborts
    and kills, one sequence of operations explains every answer that is not a
    rejection.  The operations in it are requests of clients that raft
    accepted, each at most once.  Whenever on the way there a client had been
    answered, its answer is what the abstract map gives to an operation of the
    sequence after the operations before it, and the operations of the
    sequence that had not come in by then, at whichever servers, are behind
    it.  That operation is the client's own if raft accepted its proposal; a
    client whose proposal raft dropped is told the answer to another one.  And
    the database of every running server is what some prefix of the sequence
    makes. *)
Theorem cluster_linearizable C : cluster_reachable C → ∃ lin, linearizes C lin.
Proof. intros (L & _ & HL)%linearization. by eexists. Qed.
End linear.
