(* ===== verification/Owed.v ===== *)
(** * Owed: no request is lost

    First for one server: no step but a tick lets go of a closure
    ([exec_retains]), and a tick drops one only for an entry at the position of
    its proposal that carries no command that is answered
    ([closures_accounted]).

    Then the liveness side of what the clients of a cluster are told.  A server
    that runs has answered a request that raft accepted, or the proposal made
    for it is still in the queue of the peer and the server has been handed no
    entry behind it: an answer is owed only as long as raft has not gone past
    the position of the proposal.  A tick answers what its round goes past
    (Progress), since the entry at the position of the proposal, if the round
    has one, is the request itself. *)
From S2P Require Import Prelude Wire RpcClient Runtime CString Storage Members Raft Config.
From S2P Require Import Proposals HostClients Peer KvSpec PeerSafety PeerQueue Outbox RaftNet Host.
From S2P Require Import HostLaws Services System Traces Hosting Truth EchoServer Progress Cluster.
From S2P Require Import RealTime.

(** ** Closures are kept *)

Definition is_tick (l : Sys.label) : bool := match l with Sys.LTick _ => true | _ => false end.

Section retains.
Context `{FatalPolicy} `{KvCodec} `{BoostSplit} `{RpcNet} `{RawNodeLaws} `{LevelDBLaws}.
Implicit Types (w : Process.t) (s : Sys.t).

(** Running [m] keeps the closures and accounts for the [extra] ones. *)
Definition retains {A} (extra : list DonePtr) (m : M Process.t A) w : Prop :=
  wp True m (λ _ w', extra ++ all_dones w ⊆ all_dones w') (λ _, True) w.

Lemma put_context_retains a p x' extra w :
  Process.objs w !! a = Some p → extra ++ cx_dones (Process.context p w) ⊆ cx_dones x' →
  extra ++ all_dones w ⊆ all_dones (Process.put_context a x' w).
Proof.
  intros Ha Hx d. unfold all_dones, cx_dones, cx_runs, cx_props in *. simpl in *.
  rewrite (pending_dones_update a), (pending_dones_lookup a p (Process.objs w)) by done.
  specialize (Hx d). rewrite !elem_of_app in *. tauto.
Qed.

Lemma retains_with_peer_at {A} a p (m : M (Peer.Ctx DiskStorage.t) A) extra w :
  Process.objs w !! a = Some p →
  wp True m (λ _ x', extra ++ cx_dones (Process.context p w) ⊆ cx_dones x') (λ _, True)
    (Process.context p w) →
  retains extra (Process.with_peer a m) w.
Proof.
  intros Ha Hm. eapply wp_with_peer; [exact Ha|].
  eapply wp_mono; [exact Hm| |done]. intros b x' Hx. by eapply put_context_retains.
Qed.

Lemma retains_with_peer {A} a (m : M (Peer.Ctx DiskStorage.t) A) w :
  (∀ x, wp True m (λ _ x', cx_dones x ⊆ cx_dones x') (λ _, True) x) →
  retains [] (Process.with_peer a m) w.
Proof.
  intros Hm. destruct (Process.objs w !! a) as [p|] eqn:Ha; [eapply retains_with_peer_at; [exact Ha|apply Hm]|].
  unfold retains, wp, Process.with_peer. by rewrite Ha.
Qed.

Lemma retains_Run d w : retains [d] (Process.in_mem (Run d)) w.
Proof. apply wp_zoom, wp_Run. by rewrite all_dones_run. Qed.

Lemma retains_RunInLoop t w : retains (task_dones t) (RunInLoop t) w.
Proof.
  unfold retains, RunInLoop. do 2 wp_step.
  destruct (PeerHost.mutable_worker _); [wp_step|done].
  rewrite all_dones_tasks, bind_app. simpl. unfold all_dones. set_solver.
Qed.

Lemma dones_trans (extra l1 l2 l3 : list DonePtr) :
  l1 ⊆ l2 → extra ++ l2 ⊆ l3 → extra ++ l1 ⊆ l3.
Proof. intros H12 H23 d [?|?]%elem_of_app; apply H23, elem_of_app; auto. Qed.

(** What runs before the closures are accounted for. *)
Lemma retains_after {A B} (m : M Process.t A) (k : A → M Process.t B) extra w :
  retains [] m w → (∀ a w', all_dones w ⊆ all_dones w' → retains extra (k a) w') →
  retains extra (m ≫= k) w.
Proof.
  intros Hm Hk. unfold retains in *. apply wp_bind. eapply wp_mono; [exact Hm| |done].
  intros a w' Hw. eapply wp_mono; [by apply Hk| |done]. intros b w''. by apply dones_trans.
Qed.

Lemma retains_skip {A} (m : M Process.t A) w :
  wp True m (λ _ w', all_dones w' = all_dones w) (λ _, True) w → retains [] m w.
Proof. intros Hm. eapply wp_mono; [exact Hm| |done]. by intros a w' ->. Qed.

Lemma retains_skip_resp p f w : retains [] (Process.in_mem (write_resp p f)) w.
Proof. apply retains_skip, wp_zoom. unfold wp, write_resp. by destruct (_ !! _). Qed.

Lemma retains_KvOpCb req resp d w : retains [d] (KvOpCb req resp d) w.
Proof.
  unfold retains, KvOpCb. wp_step. unfold wp at 1. simpl.
  destruct (PeerHost.local_peers_ (Process.host w) !! 1) as [a|]; [|by do 2 wp_step].
  do 3 wp_step. destruct (Process.objs w !! a) as [p|] eqn:Hp; cycle 1.
  { unfold wp at 1, Process.with_peer. by rewrite Hp. }
  eapply wp_with_peer; [exact Hp|]. wp_step. apply wp_get_peer, wp_ret.
  rewrite put_context_id by done. simpl. destruct (Peer.IsLeader p) eqn:El; simpl.
  - apply (retains_with_peer_at a p _ [d]); [done|].
    eapply wp_mono; [apply wp_defined, ProposeKvOp_wp| |done]. intros [] x' ->.
    unfold cx_dones, cx_runs. simpl. rewrite El. unfold dones, cx_props. simpl.
    rewrite fmap_app. set_solver.
  - wp_step. eapply wp_mono; [by apply retains_skip_resp| |done]. intros [] w' Hw.
    eapply wp_mono; [apply retains_Run| |done]. intros [] w''. by apply (dones_trans [d]).
Qed.

Lemma retains_HandleRaftMsgCb req d w : retains [d] (HandleRaftMsgCb req d) w.
Proof.
  unfold HandleRaftMsgCb. apply retains_after; [by apply retains_skip; wp_steps|]. intros o w1 _.
  apply retains_after; [apply retains_skip; by wp_steps|]. intros _ w2 _.
  destruct o as [a|]; [|done]. apply retains_after; [|intros e w3 _; apply retains_Run].
  apply retains_with_peer. intros x. unfold Peer.Step. do 2 peer_step.
  destruct (Raft.Step _ _) as [e r]. by do 3 peer_step.
Qed.

Lemma retains_run_task t w : retains (task_dones t) (run_task t) w.
Proof. destruct t; [apply retains_KvOpCb|apply retains_HandleRaftMsgCb]. Qed.

Lemma given_retained d (g l l' : list DonePtr) :
  [d] ++ l ⊆ l' → l ⊆ l' ∧ ∀ d', d' ∈ g ++ [d] → d' ∈ g ∨ d' ∈ l'.
Proof.
  intros Hd. split; [intros d' ?; apply Hd, elem_of_app; by right|].
  intros d' [?|Hin]%elem_of_app; [by left|right]. apply Hd, elem_of_app. by left.
Qed.

(** A step that is no tick lets go of no closure, also of those it is given. *)
Lemma exec_retains l s :
  is_tick l = false →
  wp True (Sys.exec l)
    (λ _ s', all_dones (Sys.proc s) ⊆ all_dones (Sys.proc s') ∧
             ∀ d, d ∈ Sys.given s' → d ∈ Sys.given s ∨ d ∈ all_dones (Sys.proc s'))
    (λ _, True) s.
Proof.
  destruct s as [w C g]. destruct l as [req resp d|req d|i| |a c]; simpl; intros Hl; [| | |done|].
  - wp_step. apply wp_modify, wp_zoom. wp_step. apply wp_zoom, wp_modify.
    eapply wp_mono; [apply retains_RunInLoop| |done]. intros [] w'. by apply given_retained.
  - wp_step. apply wp_modify, wp_zoom. unfold HandleRaftMsg. do 2 wp_step.
    wp_step. eapply (wp_mono _ _ (λ _ w', w' = w) _ (λ _, True)); [by wp_steps| |done].
    intros [] w' ->. eapply wp_mono; [apply retains_RunInLoop| |done].
    intros [] w'. by apply given_retained.
  - apply wp_zoom. wp_step. unfold wp at 1, Sys.pop_task.
    destruct (Process.tasks w !! i) as [t|] eqn:Ht; [|done].
    assert (∀ d, d ∈ all_dones w →
      d ∈ task_dones t ++ all_dones (Process.set_tasks (delete i (Process.tasks w)) w)) as Hpop.
    { intros d. rewrite all_dones_tasks. unfold all_dones. rewrite !elem_of_app.
      rewrite (tasks_pop task_dones _ _ _ Ht), elem_of_app. tauto. }
    eapply wp_mono; [apply (λ t, retains_run_task t (Process.set_tasks _ w))| |done].
    intros [] w' Hd. split; [|by left]. intros d Hin. by apply Hd, Hpop.
  - wp_step. apply wp_zoom.
    eapply wp_mono; [apply (retains_with_peer a (Peer.HandleSendMsg2Peer c))| |done].
    + intros x. apply wp_zoom. unfold wp, delete_call. simpl. by case_decide.
    + intros [] w' Hd. wp_step. split; [done|by left].
Qed.
End retains.

(** ** What a running server has been given *)

(** The closure of a pending proposal goes down in the step: the tick hands out
    an entry at its position that carries no command that is answered. *)
Definition dropped_by `{KvCodec} `{RawNode} `{LevelDB} (l : Sys.label) (s : Sys.t)
    (d : DonePtr) : Prop :=
  ∃ i per a p, l = Sys.LTick i ∧ Process.timers (Sys.proc s) !! i = Some (per, a) ∧
    Process.objs (Sys.proc s) !! a = Some p ∧
    lost (tick_entries (Peer.raw_node_ p)) (Process.context p (Sys.proc s)) d.

Section accounted.
Context `{FatalPolicy} `{KvCodec} `{BoostSplit} `{RpcNet} `{RawNodeLaws} `{LevelDBLaws}
        `{PeerInit.HashOrderLaws}.
Context (Hf : fatal_aborts = true).
#[local] Hint Extern 0 (KvStoreLaws DiskStorage.t) => exact (ds_laws Hf) : typeclass_instances.
Context (new_MemoryStorage : mem_storage) (GetWorker : WorkerPtr) (snap0 : Snapshot.t).
Context (Hsnap : GetSnapshot new_MemoryStorage = (kOk, Some snap0)).
Context (Hvoters : ConfState.voters (Snapshot.conf_state snap0) = []).
Context (Hworker : is_Some GetWorker).
Implicit Types (l : Sys.label) (s : Sys.t).

Lemma tick_retains s i s' d :
  sys_inv Hf s → is_Some (Process.timers (Sys.proc s) !! i) →
  Sys.exec (Sys.LTick i) s = Ok () s' →
  Sys.given s' = Sys.given s ∧
  (d ∈ all_dones (Sys.proc s) →
   d ∈ all_dones (Sys.proc s') ∨ dropped_by (Sys.LTick i) s d).
Proof.
  intros Hinv [[per a] Hi] E.
  assert (is_Some (Process.objs (Sys.proc s) !! a)) as [p Ha].
  { eapply in_timers; [apply Hinv|]. by eapply list_elem_of_lookup_2. }
  destruct (exec_tick _ _ _ _ _ _ Hi Ha E) as (x' & Et & ->).
  destruct (ticked_settles Hf _ _ _ _ Hinv Ha Et) as (_ & _ & Hset).
  split; [done|]. intros Hd. destruct (decide (d ∈ cx_dones (Process.context p (Sys.proc s)))) as [Hc|Hc].
  - destruct (Hset d Hc) as [Hc'|Hl]; [left|right; by exists i, per, a, p]. simpl.
    unfold all_dones, cx_dones, cx_runs, cx_props in *. simpl in *.
    rewrite (pending_dones_update a). rewrite !elem_of_app in *. tauto.
  - left. simpl. unfold all_dones, cx_dones, cx_runs, cx_props in *. simpl in *.
    rewrite (pending_dones_lookup a p) in Hd by done. rewrite (pending_dones_update a).
    rewrite !elem_of_app in *. tauto.
Qed.

Lemma step_accounts l s s' d :
  sys_inv Hf s → Sys.enabled l s → Sys.exec l s = Ok () s' → d ∈ Sys.given s' →
  (d ∈ Sys.given s → d ∈ all_dones (Sys.proc s)) →
  d ∈ all_dones (Sys.proc s') ∨ dropped_by l s d.
Proof.
  intros Hinv He E Hd Hold. destruct (is_tick l) eqn:Hl.
  - destruct l as [| | |i|]; try done. destruct (tick_retains s i s' d) as [Hg Ht]; [done..|].
    apply Ht, Hold. by rewrite <- Hg.
  - destruct (wp_Ok _ _ _ _ _ _ _ (exec_retains l s Hl) E) as [Hret Hnew].
    destruct (Hnew d Hd) as [?|?]; [left|by left]. by apply Hret, Hold.
Qed.

#[local] Abbreviation running := (running new_MemoryStorage GetWorker).

(** C10 At least one account of every request: each closure that was handed to a
    running server has run, is that of a pending proposal or waits in the event
    loop, unless an earlier tick dropped it: a tick in which raft handed out, at
    the term and index of the closure's proposal, an entry that carries no
    command that is answered.  No other step, and no other entry, loses one. *)
Theorem closures_accounted fl s d :
  running fl s → d ∈ Sys.given s →
  d ∈ all_dones (Sys.proc s) ∨
  ∃ s0 l s1, running fl s0 ∧ Sys.enabled l s0 ∧ Sys.exec l s0 = Ok () s1 ∧
    rtc Sys.step s1 s ∧ dropped_by l s0 d.
Proof.
  intros (ms & f & w & f' & Hms & E & Hr). revert s Hr.
  refine (rtc_ind_r (λ s, d ∈ Sys.given s → d ∈ all_dones (Sys.proc s) ∨
    ∃ s0 l s1, running fl s0 ∧ Sys.enabled l s0 ∧ Sys.exec l s0 = Ok () s1 ∧
      rtc Sys.step s1 s ∧ dropped_by l s0 d) _ _ _); [by intros ?%not_elem_of_nil|].
  intros s s' Hr (l & He & El) IH Hd.
  assert (running fl s) as Hrun by by exists ms, f, w, f'.
  pose proof (running_inv Hf _ _ _ Hsnap Hvoters Hworker _ _ Hrun) as Hinv.
  assert ((d ∈ Sys.given s → d ∈ all_dones (Sys.proc s)) ∨
    ∃ s0 l s1, running fl s0 ∧ Sys.enabled l s0 ∧ Sys.exec l s0 = Ok () s1 ∧
      rtc Sys.step s1 s ∧ dropped_by l s0 d)
    as [Hold|(s0 & l0 & s1 & ? & ? & ? & ? & ?)].
  { destruct (decide (d ∈ Sys.given s)) as [Hg|Hg]; [|by left].
    destruct (IH Hg) as [?|?]; [by left|by right]. }
  - destruct (step_accounts l s s' d) as [?|?]; [done..|by left|right].
    exists s, l, s'. split_and!; [done..|apply rtc_refl|done].
  - right. exists s0, l0, s1. split_and!; [done..| |done]. eapply rtc_r; [done|]. by exists l.
Qed.
End accounted.

(** ** What a server owes *)

(** Every request that raft accepted and the peer answers is answered, or its
    proposal is pending and no entry of [log] is behind it. *)
Definition kept `{KvCodec} (G : ghost) (log : list Entry.t) (q : list Proposal.t)
    (tr : list Event) : Prop :=
  ∀ req resp d pos, (req, resp, d) ∈ asked G → (d, pos) ∈ accepted G → answerable req →
    d ∈ runs tr ∨
    ∃ pr, pr ∈ q ∧ Proposal.done pr = d ∧ position pr = pos ∧
          Forall (λ e, ¬ lex_lt pos (entry_pos e)) log.

Section owed.
Context `{FatalPolicy} `{KvCodec} `{BoostSplit} `{RpcNet} `{RawNodeLaws} `{LevelDBLaws}
        `{PeerInit.HashOrderLaws}.
Context (Hf : fatal_aborts = true).
#[local] Hint Extern 0 (KvStoreLaws DiskStorage.t) => exact (ds_laws Hf) : typeclass_instances.
Context (new_MemoryStorage : mem_storage) (GetWorker : WorkerPtr).
Context (flags : gmap Z ServerFlags.t) (m0 : kv_map).
Context (ms : peers_map) (Hcf : configured flags ms).
Context (snap0 : Snapshot.t).
Context (Hsnap : GetSnapshot new_MemoryStorage = (kOk, Some snap0)).
Context (Hvoters : ConfState.voters (Snapshot.conf_state snap0) = []).
Context (Hworker : is_Some GetWorker).
Context `{!RaftSafety new_MemoryStorage} `{!KvCodecLaws}.
Implicit Types (C : gmap Z server) (sv : server) (pos : Z * Z) (l : Sys.label) (s : Sys.t).
Implicit Types (log : list Entry.t) (G : ghost).

#[local] Abbreviation cluster_step := (cluster_step flags).
#[local] Abbreviation cluster_reachable :=
  (cluster_reachable Hf new_MemoryStorage GetWorker flags m0).
#[local] Abbreviation related := (related Hf flags m0 ms).
#[local] Abbreviation runs_node := (runs_node Hf m0 ms).
#[local] Abbreviation net_reachable := (net_reachable new_MemoryStorage (map_to_list ms).*1).

(** A closure whose proposal is accepted is not waiting in the event loop. *)
Lemma accepted_held N i fl s log G n p d pos :
  runs_node N i fl s log G n → Process.objs (Sys.proc s) = {[0 := p]} →
  (d, pos) ∈ accepted G → d ∈ all_dones (Sys.proc s) →
  d ∈ runs (sys_trace s) ∨
  ∃ pr, pr ∈ Peer.proposals_ p ∧ Proposal.done pr = d ∧ position pr = pos.
Proof.
  intros [_ _ _ _ (p' & Hp' & Ht)] Hp Hacc Hin. rewrite Hp' in Hp.
  apply (inj (singletonM 0)) in Hp as ->. unfold all_dones in Hin.
  apply elem_of_app in Hin as [?|[Hin|Hin]%elem_of_app]; [by left|right|exfalso].
  - rewrite Hp' in Hin. unfold pending_dones in Hin. rewrite map_to_list_singleton in Hin.
    simpl in Hin. rewrite app_nil_r in Hin. apply list_elem_of_fmap in Hin as (pr & -> & Hpr).
    exists pr. split_and!; [done..|].
    destruct (proj1 (Forall_forall _ _) (tr_queue _ _ _ _ _ _ _ _ Ht) pr Hpr) as (req & _ & Ho).
    by apply Ho.
  - apply list_elem_of_bind in Hin as (t & Hd & Ht').
    pose proof (proj1 (Forall_forall _ _) (tr_tasks _ _ _ _ _ _ _ _ Ht) t Ht') as Hok.
    apply (list_elem_of_fmap_2 fst) in Hacc. simpl in Hacc.
    destruct t as [req resp d'|req d']; apply list_elem_of_singleton in Hd as <-.
    + by apply Hok.
    + apply Hok. by eapply go_asked; [apply Ht|].
Qed.

(** A request of which raft accepted the proposal is not asked anew. *)
Lemma accepted_asked G wire l s req resp d pos wire' :
  ghost_ok G wire → ghost_ok (ghost_step l s G) wire' → (d, pos) ∈ accepted G →
  (req, resp, d) ∈ asked (ghost_step l s G) → (req, resp, d) ∈ asked G.
Proof.
  intros Hg Hg' Hacc Ha. destruct (go_own _ _ Hg _ _ Hacc) as (req0 & resp0 & Ha0 & _).
  destruct (asked_unique _ req0 resp0 req resp d (go_nodup _ _ Hg')) as [<- <-]; [|done..].
  simpl. apply elem_of_app. by left.
Qed.

Lemma step_traces l s s' d :
  Sys.exec l s = Ok () s' → d ∈ runs (sys_trace s) → d ∈ runs (sys_trace s').
Proof.
  intros E (h & Hh)%elem_of_runs. apply elem_of_runs. exists h.
  pose proof (adds_exec l s) as Htr. rewrite E in Htr. by eapply elem_of_prefix.
Qed.

(** What a server owes after a step that is no tick. *)
Lemma kept_other C N N' i fl s log G l s' n n' p p' :
  net_reachable N → related C N → C !! i = Some (Server s true log G) → flags !! i = Some fl →
  runs_node N i fl s log G n → runs_node N' i fl s' log (ghost_step l s G) n' →
  Process.objs (Sys.proc s) = {[0 := p]} → Process.objs (Sys.proc s') = {[0 := p']} →
  is_tick l = false → Sys.exec l s = Ok () s' →
  kept G log (Peer.proposals_ p) (sys_trace s) →
  kept (ghost_step l s G) log (Peer.proposals_ p') (sys_trace s').
Proof.
  intros Hnet Hr Hi Hfl Hn Hn' Hp Hp' Hl E Hk req resp d pos Ha Hacc Han.
  pose proof (wp_Ok _ _ _ _ _ _ _ (exec_retains l s Hl) E) as [Hret _].
  destruct (rn_truth _ _ _ _ _ _ _ _ _ _ Hn) as (q & Hq & Ht).
  destruct (rn_truth _ _ _ _ _ _ _ _ _ _ Hn') as (q' & _ & Ht').
  pose proof Hacc as [Hold|Hnew]%elem_of_app.
  - destruct (Hk req resp d pos) as [Hran|(pr & Hpr & Hd & _ & Hb)]; [|done..| |].
    + eapply accepted_asked; [apply Ht|apply Ht'|exact Hold|exact Ha].
    + left. by eapply step_traces.
    + destruct (accepted_held _ _ _ _ _ _ _ _ d pos Hn' Hp') as [?|(pr' & ? & ? & ?)];
        [done| |by left|right; by exists pr'].
      apply Hret. unfold all_dones. rewrite Hp. unfold pending_dones.
      rewrite map_to_list_singleton. simpl. rewrite app_nil_r, !elem_of_app. right. left.
      rewrite <- Hd. by apply list_elem_of_fmap_2.
  - destruct (accepted_held _ _ _ _ _ _ _ _ d pos Hn' Hp') as [?|(pr' & ? & ? & ?)];
      [done| |by left|right; exists pr'; split_and!; [done..|]].
    { apply Hret. unfold all_dones. rewrite !elem_of_app. right. right.
      by eapply accepted_by_task. }
    edestruct accepted_proposal as (r & hi & str & Hnode & El & Hok & ->);
      [exact Hr|exact Hi|exact Hfl|exact Hnew|].
    assert (hi = log) as ->.
    { rewrite (rn_node _ _ _ _ _ _ _ _ _ _ Hn) in Hnode. injection Hnode as ->. apply Hn. }
    apply Forall_forall. intros e He Hlt. apply (irreflexivity lex_lt (entry_pos e)).
    etrans; [|exact Hlt].
    eapply (proposal_behind _ N); [apply hosts_nodup|exact Hnet|exact Hnode|done..].
Qed.

(** The entry at the position of an accepted proposal is the request. *)
Lemma own_answerable N i sv d pos req resp :
  net_reachable N → recorded flags m0 ms N i sv → (req, resp, d) ∈ asked (cs_ghost sv) →
  (d, pos) ∈ accepted (cs_ghost sv) → answerable req → answerable_at pos (cs_log sv).
Proof.
  intros Hnet Hrec Ha Hacc Han e He Hpos. pose proof (rc_ghost _ _ _ _ _ _ Hrec) as Hg.
  destruct (go_own _ _ Hg _ _ Hacc) as (req' & resp' & Ha' & str & Hs & Hw).
  destruct (asked_unique _ _ _ _ _ _ (go_nodup _ _ Hg) Ha Ha') as [<- <-]. subst pos.
  edestruct (proposal_unique (map_to_list ms).*1 N) as [Hty Hdata];
    [apply hosts_nodup|exact Hnet|exact Hw|exact (rc_history _ _ _ _ _ _ Hrec)|exact He|done..|].
  split; [done|]. unfold decode. rewrite Hdata. by rewrite (parse_serialize _ _ Hs).
Qed.

(** What a server owes after a tick. *)
Lemma kept_tick C N N' i fl s log G k s' n p p' :
  net_reachable N' → related C N' →
  C !! i = Some (Server s' true (log ++ handed_out (Sys.LTick k) s) G) →
  runs_node N i fl s log G n → is_Some (Process.timers (Sys.proc s) !! k) →
  Process.objs (Sys.proc s) = {[0 := p]} → Process.objs (Sys.proc s') = {[0 := p']} →
  Sys.exec (Sys.LTick k) s = Ok () s' →
  kept G log (Peer.proposals_ p) (sys_trace s) →
  kept G (log ++ handed_out (Sys.LTick k) s) (Peer.proposals_ p') (sys_trace s').
Proof.
  intros Hnet Hr Hi Hn [[per a] Hk] Hp Hp' E Hold req resp d pos Ha Hacc Han.
  destruct (Hold req resp d pos) as [?|(pr & Hpr & <- & <- & Hb)]; [done..|
    left; by eapply step_traces|].
  assert (a = 0) as ->.
  { eapply (ho_timers _ _ _ _ _ _ _ (rn_hosted _ _ _ _ _ _ _ _ _ _ Hn)).
    by eapply list_elem_of_lookup_2. }
  assert (Process.objs (Sys.proc s) !! 0 = Some p) as Hp0 by by rewrite Hp, lookup_singleton_eq.
  assert (Process.objs (Sys.proc s') !! 0 = Some p') as Hp0' by by rewrite Hp', lookup_singleton_eq.
  pose proof (rn_inv _ _ _ _ _ _ _ _ _ _ Hn) as Hinv.
  pose proof (tick_settles Hf _ _ _ _ _ _ _ Hinv Hk Hp0 E Hp0') as Hset.
  assert (handed_out (Sys.LTick k) s = tick_entries (Peer.raw_node_ p)) as Hes.
  { simpl. unfold ticked_node. rewrite Hk. simpl. by rewrite Hp0. }
  pose proof (own_answerable _ _ _ _ _ _ _ Hnet (rl_recorded _ _ _ _ _ _ Hr _ _ Hi)
    Ha Hacc Han) as Hans. cbn [cs_log] in Hans. rewrite Hes in *.
  destruct (round_proposal _ _ _ pr Hset) as [Hpr'|Hran]; [exact Hpr| | |right|by left].
  - by eapply peer_dones_nodup.
  - intros e He. apply Hans, elem_of_app. by right.
  - exists pr. split_and!; [done..|]. apply Forall_app. split; [done|].
    eapply Forall_impl; [exact (proj1 Hset)|]. intros e Hnb.
    exact (proj1 (Forall_forall _ _) Hnb pr Hpr').
Qed.

Definition all_kept C : Prop := ∀ i s log G p, C !! i = Some (Server s true log G) →
  Process.objs (Sys.proc s) = {[0 := p]} → kept G log (Peer.proposals_ p) (sys_trace s).

Lemma step_kept C C' N N' :
  net_reachable N → related C N → net_reachable N' → related C' N' →
  cluster_step C C' → all_kept C → all_kept C'.
Proof.
  intros Hnet Hr Hnet' Hr' Hst Hk.
  destruct Hst as [i fl s log G l s' Hfl Hi Hl E|i fl s log G l msg s' Hfl Hi Hl E|i s log G Hi];
    intros j sj logj Gj pj Hj Hpj; apply lookup_insert_Some in Hj as Hj';
    destruct Hj' as [[<- Hsv]|[_ Hj']]; try done; try by eapply Hk.
  injection Hsv as <- <- <-.
  destruct (rl_up _ _ _ _ _ _ Hr _ _ _ _ _ Hi Hfl) as [n Hn].
  destruct (rl_up _ _ _ _ _ _ Hr' _ _ _ _ _ Hj Hfl) as [n' Hn'].
  destruct (rn_truth _ _ _ _ _ _ _ _ _ _ Hn) as (p & Hp & _). pose proof (Hk _ _ _ _ _ Hi Hp) as Hold.
  destruct (is_tick l) eqn:Hl'.
  - destruct l as [| | |k|]; try done. unfold ghost_step, accept, ask in *. simpl accepted_by in *.
    simpl asked_by in *. rewrite !app_nil_r in *. destruct G as [G1 G2]. simpl in Hj |- *.
    eapply kept_tick; [exact Hnet'|exact Hr'|exact Hj|exact Hn|apply Hl|done..].
  - assert (handed_out l s = []) as Hes by by destruct l. rewrite Hes, app_nil_r in *.
    eapply kept_other; [exact Hnet|exact Hr|exact Hi|exact Hfl|exact Hn|exact Hn'|exact Hp|
      exact Hpj|exact Hl'|exact E|exact Hold].
Qed.

Lemma start_kept C :
  cluster_start Hf new_MemoryStorage GetWorker flags m0 C → all_kept C.
Proof.
  intros Hc i s log G p Hi Hp. destruct (Hc _ _ Hi) as (fl & f & w & f' & _ & _ & [= -> -> ->] & _).
  by intros req resp d pos ?%not_elem_of_nil.
Qed.

Lemma reachable_kept C : cluster_reachable C → all_kept C.
Proof.
  intros (C0 & Hstart & Hsteps).
  eapply related_start in Hstart as Hn; [|done..]. destruct Hn as [Hn Hr].
  apply start_kept in Hstart as Hk. clear Hstart.
  assert (net_reachable (start_net C0)) as Hnet by (exists (start_net C0); split; [done|apply rtc_refl]).
  clear Hn. revert Hnet Hr Hk. generalize (start_net C0).
  induction Hsteps as [C1|C1 C2 C3 Hst _ IH]; intros N Hnet Hr Hk; [done|].
  eapply related_step in Hst as Hst'; [|done..]. destruct Hst' as (N' & HNN & Hr').
  assert (net_reachable N') as Hnet'.
  { destruct Hnet as (N0 & ? & ?). exists N0. split; [done|by etrans]. }
  eapply IH; [exact Hnet'|exact Hr'|].
  eapply step_kept; [exact Hnet|exact Hr|exact Hnet'|exact Hr'|exact Hst|exact Hk].
Qed.

Lemma one_peer C i s log G :
  cluster_reachable C → C !! i = Some (Server s true log G) →
  ∃ p, Process.objs (Sys.proc s) = {[0 := p]}.
Proof.
  intros Hreach Hi. eapply cluster_simulation in Hreach as (N & _ & Hr); [|done..].
  destruct (rl_flags _ _ _ _ _ _ Hr _ _ Hi) as [fl Hfl].
  destruct (rl_up _ _ _ _ _ _ Hr _ _ _ _ _ Hi Hfl) as [n Hn].
  destruct (rn_truth _ _ _ _ _ _ _ _ _ _ Hn) as (p & Hp & _). by exists p.
Qed.

(** What raft has gone past is answered. *)
Lemma owed_answer C i s log G req resp d pos e :
  cluster_reachable C → C !! i = Some (Server s true log G) →
  (req, resp, d) ∈ asked G → (d, pos) ∈ accepted G → answerable req →
  e ∈ log → lex_lt pos (entry_pos e) → ∃ h, EvRun d h ∈ sys_trace s.
Proof.
  intros Hreach Hi Ha Hacc Han He Hlt. destruct (one_peer _ _ _ _ _ Hreach Hi) as [p Hp].
  destruct (reachable_kept _ Hreach _ _ _ _ _ Hi Hp _ _ _ _ Ha Hacc Han)
    as [Hran|(pr & _ & _ & _ & Hb)]; [by apply elem_of_runs|].
  by destruct (proj1 (Forall_forall _ _) Hb e He).
Qed.

(** C5 No request that raft accepted is lost: in every state a cluster can
    reach, a Get, a Put or a Del that a running server took and whose proposal
    raft accepted at some term and index is either answered, its closure has
    run, or its proposal waits in the queue of the peer under that term and
    index, and the server has been handed no entry behind it.  So the client
    of a running server has its answer as soon as raft hands out one entry
    behind its request, whichever messages were lost or repeated, whether the
    server still leads, and whatever other requests failed. *)
Theorem no_answer_owed C i s log G a p req resp d pos :
  cluster_reachable C → C !! i = Some (Server s true log G) →
  Process.objs (Sys.proc s) !! a = Some p →
  (req, resp, d) ∈ asked G → (d, pos) ∈ accepted G → answerable req →
  (∃ h, EvRun d h ∈ Mem.trace (Process.mem (Sys.proc s))) ∨
  (∃ pr, pr ∈ Peer.proposals_ p ∧ Proposal.done pr = d ∧ position pr = pos ∧
         ∀ e, e ∈ log → ¬ lex_lt pos (entry_pos e)).
Proof.
  intros Hreach Hi Ha Hask Hacc Han. destruct (one_peer _ _ _ _ _ Hreach Hi) as [q Hq].
  rewrite Hq in Ha. apply lookup_singleton_Some in Ha as [_ <-].
  destruct (reachable_kept _ Hreach _ _ _ _ _ Hi Hq _ _ _ _ Hask Hacc Han)
    as [?|(pr & ? & ? & ? & Hb)]; [left; by apply elem_of_runs|right].
  exists pr. by rewrite Forall_forall in Hb.
Qed.
End owed.
