(* ===== verification/EchoClient.v ===== *)
(** * EchoClient: the client program (example/echo/client)

    One command per run: the flags are checked, a [KvClient] connects in the
    client thread, sends one request, and its callback ends the process.  The
    state is what the program does to the outside: the connections and the
    requests, with the call objects (controller and response) alive. *)
From S2P Require Import Prelude Wire RpcClient KvSpec.

Module ClientFlags.
Record t : Type := mk {
  ip : string; port : Z; op_type : string; key : string; val : string; log_level : string
}.
Definition default : t := mk "127.0.0.1" 0 "" "" "" "debug".
End ClientFlags.

Module KvClient.
(** The member function a request's closure is bound to. *)
Inductive callback : Type := GetCb_ | PutCb_ | DelCb_.

Record request : Type := mk_request {
  to : RpcClient.t; req : KvReq.t; cb : callback; call : Z
}.

Record t : Type := mk {
  connects : list RpcClient.t;
  sent : list request;
  calls : gset Z;
  next_call : Z
}.
Definition start : t := mk [] [] ∅ 0.
End KvClient.

(** How the process ended through [::exit]. *)
Inductive exit_status : Type := Exited (code : Z).

Section client.
Context `{FatalPolicy} `{RpcNet}.
Import KvClient.

(** KvClient::KvClient: the client connection it keeps. *)
Definition KvClient_ctor (ip : string) (port : Z) (worker : WorkerPtr) :
    M KvClient.t RpcClient.t :=
  let addr := SockAddress.mk ip port in
  let client := RpcClient.set_rpc_depth 10000
    (RpcClient.set_timeout_ms 300 (RpcClient.ctor kTcp worker addr "")) in
  s ← get_state;
  put_state (mk (connects s ++ [client]) (sent s) (calls s) (next_call s)) ;;
  when (negb (Connect (connects s) client =? 0)) (fatal "failed to connect") ;;
  mret client.

(** [new RpcController], [new KvResp], [stub.KvOp(cntl, &req, resp, done)] *)
Definition call_KvOp (client : RpcClient.t) (r : KvReq.t) (c : callback) :
    M KvClient.t unit :=
  modify (λ s, mk (connects s) (sent s ++ [mk_request client r c (next_call s)])
                  ({[next_call s]} ∪ calls s) (next_call s + 1)).

Definition Get (client : RpcClient.t) (key : string) : M KvClient.t unit :=
  call_KvOp client (KvReq.of_get key) GetCb_.
Definition Put (client : RpcClient.t) (key val : string) : M KvClient.t unit :=
  call_KvOp client (KvReq.of_put key val) PutCb_.
Definition Del (client : RpcClient.t) (key : string) : M KvClient.t unit :=
  call_KvOp client (KvReq.of_del key) DelCb_.

(** The outcome of an RPC: [cntl->Failed()] with [cntl->ErrorText()], and the
    response.  The guards delete the call objects when the function returns;
    [::exit] does not return, so they are never deleted. *)
Definition GetCb (failed : option string) (resp : KvResp.t) : M KvClient.t exit_status :=
  match failed with
  | Some text => fatal ("get kv rpc failed, error text: " +:+ text)
  | None => when (KvResp.rejected resp) (fatal "server rejected get request")
  end ;; mret (Exited 0).

Definition PutCb (failed : option string) (resp : KvResp.t) : M KvClient.t exit_status :=
  match failed with
  | Some text => fatal ("put kv rpc failed, error text: " +:+ text)
  | None => when (KvResp.rejected resp) (fatal "server rejected put request")
  end ;; mret (Exited 0).

Definition DelCb (failed : option string) (resp : KvResp.t) : M KvClient.t exit_status :=
  match failed with
  | Some text => fatal ("del kv rpc failed, error text: " +:+ text)
  | None => when (KvResp.rejected resp) (fatal "server rejected del request")
  end ;; mret (Exited 0).

Definition run_callback (c : callback) : option string → KvResp.t → M KvClient.t exit_status :=
  match c with GetCb_ => GetCb | PutCb_ => PutCb | DelCb_ => DelCb end.

Definition CheckFlags (fl : ClientFlags.t) : M KvClient.t unit :=
  when ((ClientFlags.port fl <? 1024) || (65535 <? ClientFlags.port fl))
    (fatal "should input correct port") ;;
  when (bool_decide (ClientFlags.op_type fl = "")) (fatal "should input op type") ;;
  when (bool_decide (ClientFlags.key fl = "")) (fatal "should input key").

(** The callback main queues on the client thread. *)
Definition run_command (fl : ClientFlags.t) (worker : WorkerPtr) : M KvClient.t unit :=
  client ← KvClient_ctor (ClientFlags.ip fl) (u16 (ClientFlags.port fl)) worker;
  let type := ClientFlags.op_type fl in
  if decide (type = "get") then Get client (ClientFlags.key fl)
  else if decide (type = "put") then Put client (ClientFlags.key fl) (ClientFlags.val fl)
  else if decide (type = "del") then Del client (ClientFlags.key fl)
  else fatal "invalid type".

Definition main (fl : ClientFlags.t) (worker : WorkerPtr) : M KvClient.t unit :=
  CheckFlags fl ;; run_command fl worker.

(** ** Properties *)

(** The command the flags ask for. *)
Definition command (fl : ClientFlags.t) : option (KvReq.t * callback) :=
  if decide (ClientFlags.op_type fl = "get")
  then Some (KvReq.of_get (ClientFlags.key fl), GetCb_)
  else if decide (ClientFlags.op_type fl = "put")
  then Some (KvReq.of_put (ClientFlags.key fl) (ClientFlags.val fl), PutCb_)
  else if decide (ClientFlags.op_type fl = "del")
  then Some (KvReq.of_del (ClientFlags.key fl), DelCb_)
  else None.

Definition valid_client_flags (fl : ClientFlags.t) : Prop :=
  1024 ≤ ClientFlags.port fl ≤ 65535 ∧ ClientFlags.op_type fl ≠ "" ∧ ClientFlags.key fl ≠ "".

Lemma client_CheckFlags_wp fl s :
  fatal_aborts = true →
  wp False (CheckFlags fl) (λ _ s', valid_client_flags fl ∧ s' = s)
    (λ s', ¬ valid_client_flags fl ∧ s' = s) s.
Proof.
  intros Hf. unfold CheckFlags, valid_client_flags. wp_steps; try congruence.
  all: repeat match goal with
    | H : bool_decide _ = true |- _ => apply bool_decide_eq_true in H
    | H : bool_decide _ = false |- _ => apply bool_decide_eq_false in H
    end.
  all: split; [|done]; naive_solver lia.
Qed.

(** What a run of the client leaves: the connection and the one request, or no
    request. *)
Definition sent_command fl (s : KvClient.t) : Prop :=
  valid_client_flags fl ∧
  ∃ conn r c, connects s = [conn] ∧ Connect [] conn = 0 ∧
    RpcClient.peer_addr conn = SockAddress.mk (ClientFlags.ip fl) (ClientFlags.port fl) ∧
    command fl = Some (r, c) ∧ answerable r ∧
    sent s = [mk_request conn r c 0] ∧ calls s = {[0]}.

(** A run of the client, with an aborting FATAL: if main does not abort, the
    flags were valid, the connection to the address of the flags succeeded,
    and exactly one request went out, the one the flags ask for, which is a
    command the servers answer; otherwise the process ended with no request
    sent. *)
Theorem client_main_correct fl worker :
  fatal_aborts = true →
  wp False (main fl worker) (λ _ s', sent_command fl s') (λ s', sent s' = []) KvClient.start.
Proof.
  intros Hf. unfold main, sent_command. wp_step. eapply wp_mono; [by apply client_CheckFlags_wp| |].
  2: { by intros s [_ ->]. }
  intros [] s [Hv ->]. unfold run_command, KvClient_ctor. do 5 wp_step.
  assert (u16 (ClientFlags.port fl) = ClientFlags.port fl) as ->
    by (apply u16_small; destruct Hv; unfold UINT16_MAX; lia).
  do 2 wp_step; [wp_step; [done|congruence]|]. wp_step.
  apply negb_false_iff, Z.eqb_eq in H1.
  unfold command, answerable.
  destruct (decide (ClientFlags.op_type fl = "get")); [|destruct (decide _); [|destruct (decide _)]].
  4: { wp_step; [done|congruence]. }
  all: apply wp_modify; split; [done|]; do 3 eexists; split_and!; try done; simpl; auto.
  all: set_solver.
Qed.

(** The client's callbacks, with an aborting FATAL: the process exits with
    status 0 exactly when the RPC succeeded and the server did not reject the
    request; in every other case it ends in a FATAL record. *)
Theorem run_callback_correct c failed resp s :
  fatal_aborts = true →
  (failed = None ∧ KvResp.rejected resp = false ∧
     run_callback c failed resp s = Ok (Exited 0) s) ∨
  ((is_Some failed ∨ KvResp.rejected resp = true) ∧
     ∃ msg, run_callback c failed resp s = Abort msg s).
Proof.
  intros Hf. destruct failed as [text|].
  - right. split; [by left; exists text|].
    destruct c; eexists; by apply bind_Abort, fatal_Abort.
  - destruct (KvResp.rejected resp) eqn:Hr.
    + right. split; [by right|].
      destruct c; eexists; simpl; unfold GetCb, PutCb, DelCb; rewrite Hr;
        by apply bind_Abort, fatal_Abort.
    + left. split_and!; [done|done|].
      destruct c; simpl; unfold GetCb, PutCb, DelCb; by rewrite Hr.
Qed.
End client.
