(* ===== verification/Clients.v ===== *)
(** * Clients: client programs and the cluster together

    Any number of runs of the client program (EchoClient) beside the servers
    of a cluster.  A request a client has sent may reach the server that
    listens at the address of its connection at any time, once, several times
    or never, also after the client has ended; when the closure of the request
    runs at the server, the response may come back to the client that waits
    for it; a call may fail at any time; servers and clients stop at any
    moment.  [clients_linearizable] is what the people who run the client
    programs see; [waiting_run_ends] is that no run waits for a request raft has
    gone past. *)
From S2P Require Import Prelude Wire RpcClient Runtime CString Storage Members Raft Config.
From S2P Require Import Proposals HostClients Peer KvSpec PeerSafety PeerQueue Outbox RaftNet Host.
From S2P Require Import HostLaws Services System Traces Hosting Truth EchoServer Cluster RealTime.
From S2P Require Import Linear Owed EchoClient.

(** ** The transition system *)

(** How a run of the client ends: [Exit code got], where [got] is the response
    its callback was called with, if the call succeeded, and the operation it
    answers; [Dead]: a FATAL record or a kill. *)
Inductive ending : Type :=
  | Waiting
  | Exit (code : Z) (got : option (op * KvResp.t))
  | Dead.

(** A run of the client, and the operations its request has become. *)
Record client : Type := Client {
  cp_flags : ClientFlags.t; cp_state : KvClient.t;
  cp_ops : list (KvClient.request * op); cp_end : ending
}.

Section world.
Context `{RawNode} `{LevelDB}.
Record world : Type := World { wd_cluster : gmap Z server; wd_clients : gmap Z client }.
End world.

Section clients.
Context `{FatalPolicy} `{KvCodec} `{BoostSplit} `{RpcNet} `{RawNodeLaws} `{LevelDBLaws}
        `{PeerInit.HashOrderLaws}.
Context (Hf : fatal_aborts = true).
#[local] Hint Extern 0 (KvStoreLaws DiskStorage.t) => exact (ds_laws Hf) : typeclass_instances.
Context (new_MemoryStorage : mem_storage) (GetWorker : WorkerPtr).
Context (flags : gmap Z ServerFlags.t) (m0 : kv_map).
Implicit Types (C : gmap Z server) (sv : server) (o : op) (W : world) (c : client).

#[local] Abbreviation cluster_step := (cluster_step flags).
#[local] Abbreviation cluster_start := (cluster_start Hf new_MemoryStorage GetWorker flags m0).
#[local] Abbreviation cluster_reachable :=
  (cluster_reachable Hf new_MemoryStorage GetWorker flags m0).

(** A run of [main], if it has an outcome. *)
Definition launch (fl : ClientFlags.t) (worker : WorkerPtr) : option client :=
  match EchoClient.main fl worker KvClient.start with
  | Ok _ s => Some (Client fl s [] Waiting)
  | Abort _ s => Some (Client fl s [] Dead)
  | _ => None
  end.

(** What the callback of a request makes of a run that waits for it. *)
Definition called_back c (rq : KvClient.request) (failed : option string) (r : KvResp.t)
    (got : option (op * KvResp.t)) : client :=
  Client (cp_flags c) (cp_state c) (cp_ops c)
    match run_callback (KvClient.cb rq) failed r (cp_state c) with
    | Ok (Exited code) _ => Exit code got
    | _ => Dead
    end.

(** A request reaches the server [i], which hands it to its service. *)
Definition arrives_at C i (rq : KvClient.request) o C' : Prop :=
  ∃ fl s log G resp s', flags !! i = Some fl ∧ C !! i = Some (Server s true log G) ∧
    RpcClient.peer_addr (KvClient.to rq) = listens fl ∧
    o = Op i (op_done o) (KvClient.req rq) ∧
    let l := Sys.LKvRequest (KvClient.req rq) resp (op_done o) in
    Sys.enabled l s ∧ Sys.exec l s = Ok () s' ∧
    C' = <[i := Server s' true (log ++ handed_out l s) (ghost_step l s G)]> C.

Inductive world_step : world → world → Prop :=
  | wd_servers C C' K : cluster_step C C' → world_step (World C K) (World C' K)
  | wd_launch C K k fl worker c :
      K !! k = None → launch fl worker = Some c → world_step (World C K) (World C (<[k := c]> K))
  | wd_request C C' K k c rq i o :
      K !! k = Some c → rq ∈ KvClient.sent (cp_state c) → arrives_at C i rq o C' →
      world_step (World C K) (World C'
        (<[k := Client (cp_flags c) (cp_state c) (cp_ops c ++ [(rq, o)]) (cp_end c)]> K))
  | wd_response C K k c rq o r :
      K !! k = Some c → cp_end c = Waiting → (rq, o) ∈ cp_ops c → replied C o r →
      world_step (World C K) (World C (<[k := called_back c rq None r (Some (o, r))]> K))
  | wd_failure C K k c rq text r :
      K !! k = Some c → cp_end c = Waiting → rq ∈ KvClient.sent (cp_state c) →
      world_step (World C K) (World C (<[k := called_back c rq (Some text) r None]> K))
  | wd_kill C K k c :
      K !! k = Some c →
      world_step (World C K)
        (World C (<[k := Client (cp_flags c) (cp_state c) (cp_ops c) Dead]> K)).

Definition world_reachable W : Prop :=
  ∃ C0, cluster_start C0 ∧ rtc world_step (World C0 ∅) W.

(** ** Operations of clients *)

Lemma replied_grows C C' o r : grows C C' → replied C o r → replied C' o r.
Proof.
  intros Hg (sv & resp & h & (sv' & Hi & Hl)%Hg & Ha & Hrun & Hr). exists sv', resp, h.
  split_and!; [done|by apply (lt_asked _ _ Hl)| |done].
  eapply elem_of_prefix; [exact Hrun|apply Hl].
Qed.

Lemma invoked_grows C C' o : grows C C' → invoked C o → invoked C' o.
Proof.
  intros Hg (sv & (sv' & Hi & Hl)%Hg & ([[req resp] d] & Hd & Hin)%list_elem_of_fmap).
  exists sv'. split; [done|]. apply list_elem_of_fmap. exists (req, resp, d).
  split; [done|by apply (lt_asked _ _ Hl)].
Qed.

Lemma replied_invoked C o r : replied C o r → invoked C o.
Proof.
  intros (sv & resp & h & Hi & Ha & _). exists sv. split; [done|].
  by apply (list_elem_of_fmap_2 snd _ (op_req o, resp, op_done o)).
Qed.

Lemma arrives_step C i rq o C' : arrives_at C i rq o C' → cluster_step C C'.
Proof.
  intros (fl & s & log & G & resp & s' & Hfl & Hi & _ & _ & He & E & ->).
  eapply cl_return; [exact Hfl|exact Hi|by split|exact E].
Qed.

Lemma arrives_invoked C i rq o C' : arrives_at C i rq o C' → invoked C' o.
Proof.
  intros (fl & s & log & G & resp & s' & Hfl & Hi & _ & -> & _ & _ & ->).
  eexists. simpl. split; [apply lookup_insert_eq|]. simpl. unfold asked_dones. simpl.
  rewrite fmap_app. set_solver.
Qed.

Lemma arrives_op C i rq o C' :
  arrives_at C i rq o C' →
  ∃ fl, flags !! op_server o = Some fl ∧ RpcClient.peer_addr (KvClient.to rq) = listens fl ∧
        op_req o = KvClient.req rq.
Proof.
  intros (fl & s & log & G & resp & s' & Hfl & _ & Hto & Ho & _). exists fl. by rewrite Ho.
Qed.

Lemma step_servers W W' : world_step W W' → rtc cluster_step (wd_cluster W) (wd_cluster W').
Proof. destruct 1; simpl; try done; apply rtc_once; [done|by eapply arrives_step]. Qed.

Lemma steps_servers W W' : rtc world_step W W' → rtc cluster_step (wd_cluster W) (wd_cluster W').
Proof.
  induction 1 as [|W1 W2 W3 Hst _ IH]; [done|]. etrans; [by apply step_servers|done].
Qed.
(** ** What is known of a client *)

Context (ms : peers_map) (Hcf : configured flags ms).
Context (snap0 : Snapshot.t).
Context (Hsnap : GetSnapshot new_MemoryStorage = (kOk, Some snap0)).
Context (Hvoters : ConfState.voters (Snapshot.conf_state snap0) = []).
Context (Hworker : is_Some GetWorker).

(** The address of the flags is that of a server's RpcServer. *)
Definition served_by c (i : Z) : Prop :=
  ∃ fl, flags !! i = Some fl ∧
    listens fl = SockAddress.mk (ClientFlags.ip (cp_flags c)) (ClientFlags.port (cp_flags c)).

Record client_ok C c : Prop := {
  co_sent rq : rq ∈ KvClient.sent (cp_state c) →
    valid_client_flags (cp_flags c) ∧
    RpcClient.peer_addr (KvClient.to rq) =
      SockAddress.mk (ClientFlags.ip (cp_flags c)) (ClientFlags.port (cp_flags c)) ∧
    command (cp_flags c) = Some (KvClient.req rq, KvClient.cb rq);
  co_ops rq o : (rq, o) ∈ cp_ops c →
    rq ∈ KvClient.sent (cp_state c) ∧ op_req o = KvClient.req rq ∧ served_by c (op_server o) ∧
    invoked C o;
  co_end code got : cp_end c = Exit code got →
    code = 0 ∧ ∃ rq o r, got = Some (o, r) ∧ (rq, o) ∈ cp_ops c ∧ replied C o r ∧
      KvResp.rejected r = false
}.

Lemma launch_ok C fl worker c : launch fl worker = Some c → client_ok C c.
Proof.
  unfold launch. pose proof (client_main_correct fl worker Hf) as Hm. unfold wp in Hm.
  destruct (EchoClient.main _ _ _) as [[] s|msg s| |]; [| |done..]; intros [= <-].
  - destruct Hm as (Hv & conn & r & cb & _ & _ & Haddr & Hc & _ & Hs & _). split; simpl.
    + rewrite Hs. intros rq ->%list_elem_of_singleton. by split_and!.
    + by intros rq o ?%not_elem_of_nil.
    + done.
  - split; simpl; [rewrite Hm; by intros rq ?%not_elem_of_nil|by intros rq o ?%not_elem_of_nil|done].
Qed.

Lemma client_ok_grows C C' c : grows C C' → client_ok C c → client_ok C' c.
Proof.
  intros Hg [A B D]. split; [done| |].
  - intros rq o (? & ? & ? & ?)%B. split_and!; [done..|by eapply invoked_grows].
  - intros code got (-> & rq & o & r & ? & ? & ? & ?)%D. split; [done|]. exists rq, o, r.
    split_and!; [done..|by eapply replied_grows|done].
Qed.

(** A callback ends the run with status 0 if the call succeeded and the server
    did not reject the request, and in a FATAL record otherwise. *)
Lemma called_back_ok C c rq failed r got :
  client_ok C c →
  (failed = None → ∃ o, got = Some (o, r) ∧ (rq, o) ∈ cp_ops c ∧ replied C o r) →
  client_ok C (called_back c rq failed r got).
Proof.
  intros [A B D] Hgot. unfold called_back. split; simpl; [exact A|exact B|]. intros code got'.
  destruct (run_callback_correct (KvClient.cb rq) failed r (cp_state c) Hf)
    as [(-> & Hrej & E)|(_ & msg & E)]; rewrite E; [|done].
  intros [= <- <-]. destruct (Hgot eq_refl) as (o & -> & ? & ?). split; [done|].
  by exists rq, o, r.
Qed.

(** A request that arrives is a new operation. *)
Lemma arrives_fresh C i rq o C' :
  cluster_reachable C → arrives_at C i rq o C' → ¬ invoked C o.
Proof.
  intros Hreach (fl & s & log & G & resp & s' & Hfl & Hi & _ & -> & [_ Hd] & _ & _) (sv & Hsv & Hin).
  simpl in *. rewrite Hi in Hsv. injection Hsv as <-.
  eapply cluster_simulation in Hreach as (N & _ & Hr); [|done..].
  destruct (rl_up _ _ _ _ _ _ Hr _ _ _ _ _ Hi Hfl) as [n [_ _ _ _ (p & _ & Ht)]].
  by apply Hd, (tr_given _ _ _ _ _ _ _ _ Ht).
Qed.

(** Clients have different operations. *)
Definition ops_apart (K : gmap Z client) : Prop :=
  ∀ k k' c c' rq rq' o, K !! k = Some c → K !! k' = Some c' →
    (rq, o) ∈ cp_ops c → (rq', o) ∈ cp_ops c' → k = k'.

Record world_ok W : Prop := {
  wo_reach : cluster_reachable (wd_cluster W);
  wo_clients k c : wd_clients W !! k = Some c → client_ok (wd_cluster W) c;
  wo_apart : ops_apart (wd_clients W)
}.

(** A client of the map is replaced by one with the same operations. *)
Lemma world_ok_update C K k c :
  world_ok (World C K) → client_ok C c →
  (∀ rq o, (rq, o) ∈ cp_ops c → ∃ c0, K !! k = Some c0 ∧ (rq, o) ∈ cp_ops c0) →
  world_ok (World C (<[k := c]> K)).
Proof.
  intros [A B D] Hc Hops. simpl in *. split; simpl; [done| |].
  - intros k' c'. rewrite lookup_insert_Some. intros [[_ <-]|[_ ?]]; [done|by eapply B].
  - assert (∀ k' c' rq o, <[k:=c]> K !! k' = Some c' → (rq, o) ∈ cp_ops c' →
      ∃ c0, K !! k' = Some c0 ∧ (rq, o) ∈ cp_ops c0) as Hold.
    { intros k' c' rq o. rewrite lookup_insert_Some. intros [[<- <-]|[_ ?]]; [by apply Hops|eauto]. }
    intros k1 k2 c1 c2 rq1 rq2 o Hk1 Hk2 (? & ? & ?)%(Hold _ _ _ _ Hk1)
      (? & ? & ?)%(Hold _ _ _ _ Hk2).
    by eapply D.
Qed.

Lemma world_ok_request C C' K k c rq i o :
  world_ok (World C K) → K !! k = Some c → rq ∈ KvClient.sent (cp_state c) →
  arrives_at C i rq o C' →
  world_ok (World C'
    (<[k := Client (cp_flags c) (cp_state c) (cp_ops c ++ [(rq, o)]) (cp_end c)]> K)).
Proof.
  intros [A B D] Hk Hrq Har. simpl in *. pose proof (arrives_step _ _ _ _ _ Har) as Hst.
  pose proof (step_grows flags _ _ Hst) as Hg. pose proof (arrives_fresh _ _ _ _ _ A Har) as Hnew.
  pose proof (arrives_invoked _ _ _ _ _ Har) as Hinv.
  assert (∀ j cj rq', K !! j = Some cj → (rq', o) ∉ cp_ops cj) as Hapart.
  { intros j cj rq' Hj Hin. by apply Hnew, (co_ops _ _ (B _ _ Hj) _ _ Hin). }
  split; simpl.
  - by eapply reachable_steps; [|apply rtc_once].
  - intros k' c'. rewrite lookup_insert_Some.
    intros [[_ <-]|[_ Hk']]; [|by eapply client_ok_grows, B].
    destruct (client_ok_grows _ _ _ Hg (B _ _ Hk)) as [A' B' D']. split; simpl; [done| |].
    + intros rq' o' [Hin|[= -> ->]%list_elem_of_singleton]%elem_of_app; [by apply (B' _ _ Hin)|].
      destruct (co_sent _ _ (B _ _ Hk) _ Hrq) as (_ & Haddr & _).
      destruct (arrives_op _ _ _ _ _ Har) as (fl & Hfl & Hto & Hreq).
      split_and!; [done..| |done]. exists fl. simpl. by rewrite <- Hto, Haddr.
    + intros code got (-> & rq' & o' & r & ? & ? & ? & ?)%D'. split; [done|].
      exists rq', o', r. split_and!; [done|by apply elem_of_app; left|done..].
  - assert (∀ j cj rq' o', <[k := Client (cp_flags c) (cp_state c) (cp_ops c ++ [(rq, o)])
      (cp_end c)]> K !! j = Some cj → (rq', o') ∈ cp_ops cj →
      (∃ c0, K !! j = Some c0 ∧ (rq', o') ∈ cp_ops c0) ∨ (j = k ∧ o' = o)) as Hold.
    { intros j cj rq' o'. rewrite lookup_insert_Some. intros [[<- <-]|[_ ?]]; [|eauto].
      simpl. intros [?|[= _ ->]%list_elem_of_singleton]%elem_of_app; eauto. }
    intros k1 k2 c1 c2 rq1 rq2 o' Hk1 Hk2 Hin1 Hin2.
    destruct (Hold _ _ _ _ Hk1 Hin1) as [(? & Hk1' & Hin1')|[-> ->]];
      destruct (Hold _ _ _ _ Hk2 Hin2) as [(? & Hk2' & Hin2')|[-> Ho]]; subst; [by eapply D| | |done].
    + by destruct (Hapart _ _ _ Hk1' Hin1').
    + by destruct (Hapart _ _ _ Hk2' Hin2').
Qed.

Lemma world_ok_step W W' : world_ok W → world_step W W' → world_ok W'.
Proof.
  intros Hw Hst. destruct Hst as [C C' K Hst|C K k fl worker c Hk Hl|C C' K k c rq i o Hk Hrq Har
    |C K k c rq o r Hk Hwait Hin Hr|C K k c rq text r Hk Hwait Hin|C K k c Hk].
  - destruct Hw as [A B D]. simpl in *. split; simpl; [|intros k c Hk|done].
    + by eapply reachable_steps; [|apply rtc_once].
    + eapply client_ok_grows; [by eapply step_grows|by eapply B].
  - apply world_ok_update; [done|by eapply launch_ok|]. intros rq o. unfold launch in Hl.
    repeat case_match; simplify_eq; by intros ?%not_elem_of_nil.
  - by eapply world_ok_request.
  - pose proof (wo_clients _ Hw _ _ Hk) as Hc. apply world_ok_update; [done| |eauto].
    apply called_back_ok; [done|]. intros _. by exists o.
  - pose proof (wo_clients _ Hw _ _ Hk) as Hc. apply world_ok_update; [done| |eauto].
    by apply called_back_ok.
  - pose proof (wo_clients _ Hw _ _ Hk) as Hc. apply world_ok_update; [done| |eauto].
    destruct Hc as [A B D]. by split.
Qed.

Lemma world_ok_steps W W' : world_ok W → rtc world_step W W' → world_ok W'.
Proof. intros Hw. induction 1; [done|]. eauto using world_ok_step. Qed.

Lemma reachable_ok W : world_reachable W → world_ok W.
Proof.
  intros (C0 & Hs & Hst). eapply world_ok_steps; [|exact Hst]. split; simpl.
  - exists C0. split; [done|apply rtc_refl].
  - intros k c. by rewrite lookup_empty.
  - intros k k' c c' rq rq' o. by rewrite lookup_empty.
Qed.

(** The operations of a client that starts later come in later. *)
Lemma later_ops W W' k c rq o :
  world_ok W → rtc world_step W W' → wd_clients W !! k = None →
  wd_clients W' !! k = Some c → (rq, o) ∈ cp_ops c → ¬ invoked (wd_cluster W) o.
Proof.
  intros Hw Hst Hnone. revert W' Hst c rq o.
  refine (rtc_ind_r (λ W', ∀ c rq o, wd_clients W' !! k = Some c → (rq, o) ∈ cp_ops c →
    ¬ invoked (wd_cluster W) o) W _ _); [congruence|].
  intros W1 W2 Hst12 Hst IH c rq o Hc Hin.
  pose proof (world_ok_steps _ _ Hw Hst12) as Hw1.
  destruct Hst as [C C' K Hst|C K k' fl worker c' Hk Hl|C C' K k' c' rq' i o' Hk Hrq Har
    |C K k' c' rq' o' r Hk _ _ _|C K k' c' rq' text r Hk _ _|C K k' c' Hk]; simpl in *.
  - by eapply IH.
  - apply lookup_insert_Some in Hc as [[<- <-]|[_ Hc]]; [|by eapply IH].
    unfold launch in Hl. repeat case_match; simplify_eq; by apply not_elem_of_nil in Hin.
  - apply lookup_insert_Some in Hc as [[<- <-]|[_ Hc]]; [|by eapply IH]. simpl in Hin.
    apply elem_of_app in Hin as [Hin|[= -> ->]%list_elem_of_singleton]; [by eapply IH|].
    intros Hinv. eapply arrives_fresh; [apply (wo_reach _ Hw1)|exact Har|].
    eapply invoked_grows; [|exact Hinv]. by apply (steps_grow flags), (steps_servers _ _ Hst12).
  - apply lookup_insert_Some in Hc as [[<- <-]|[_ Hc]]; by eapply IH.
  - apply lookup_insert_Some in Hc as [[<- <-]|[_ Hc]]; by eapply IH.
  - apply lookup_insert_Some in Hc as [[<- <-]|[_ Hc]]; by eapply IH.
Qed.

(** ** What the clients see *)

Context `{!RaftSafety new_MemoryStorage} `{!KvCodecLaws}.

(** A run that exits did so because it was answered, at [W0] say, on the way to
    [W]: the server at the address of its flags took the operation [o] of their
    command, and told it what the map answers to some operation of the
    sequence at its place, to [o] itself if raft has accepted its proposal.
    The operations of the runs that were started after that are behind. *)
Definition exit_explained W0 W (lin : list op) c (code : Z) (got : option (op * KvResp.t)) : Prop :=
  code = 0 ∧ ∃ o r cb l1 o' l2, got = Some (o, r) ∧ KvResp.rejected r = false ∧
    command (cp_flags c) = Some (op_req o, cb) ∧ served_by c (op_server o) ∧
    lin = l1 ++ o' :: l2 ∧ r = op_answer (ops_apply m0 l1) o' ∧
    (accepted_op (wd_cluster W) o → o' = o) ∧
    ∀ k c' rq o2, wd_clients W0 !! k = None → wd_clients W !! k = Some c' →
      (rq, o2) ∈ cp_ops c' → o2 ∈ lin → o2 ∈ l2.

(** The sequence explains what the clients see. *)
Record explains W (lin : list op) : Prop := {
  ex_servers : linearizes Hf new_MemoryStorage GetWorker flags m0 (wd_cluster W) lin;
  ex_exit W0 k c code got : world_reachable W0 → rtc world_step W0 W →
    wd_clients W0 !! k = Some c → cp_end c = Exit code got → exit_explained W0 W lin c code got;
  ex_apart : ops_apart (wd_clients W)
}.

Lemma explains_exit W0 W lin k c code got :
  linearizes Hf new_MemoryStorage GetWorker flags m0 (wd_cluster W) lin →
  world_reachable W0 → rtc world_step W0 W →
  wd_clients W0 !! k = Some c → cp_end c = Exit code got → exit_explained W0 W lin c code got.
Proof.
  intros Hlin Hw%reachable_ok Hst Hk Hend. pose proof (wo_clients _ Hw _ _ Hk) as Hc.
  destruct (co_end _ _ Hc _ _ Hend) as (-> & rq & o & r & -> & Hin & Hr & Hrej).
  destruct (co_ops _ _ Hc _ _ Hin) as (Hrq & Hreq & Hsrv & _).
  destruct (co_sent _ _ Hc _ Hrq) as (_ & _ & Hcmd). split; [done|].
  destruct (ln_answers _ _ _ _ _ _ _ Hlin (wd_cluster W0) o r)
    as (l1 & o' & l2 & Hl & Ha & Hown & Hlater); [apply Hw|by apply steps_servers|done|].
  exists o, r, (KvClient.cb rq), l1, o', l2. rewrite Hreq. split_and!; [done..|].
  intros k' c' rq' o2 Hnone Hk' Hin' Ho2. apply Hlater; [done|]. by eapply later_ops.
Qed.

(** C2 Linearizability as the users of the client program see it: in every
    state that any number of client runs and the servers of a cluster can
    reach, whichever requests arrive late, repeatedly or never and whichever
    calls fail, one sequence of operations that raft accepted explains what
    the clients saw.  A run of the client that exits does so with status 0,
    because the server at its address answered the command of its flags
    without rejecting it, and the answer is what the abstract map gives to an
    operation of the sequence after the operations before it; the operations
    of the runs that were started after it had exited are behind that one.
    The operation is the run's own if raft accepted its proposal; a run whose
    proposal raft dropped is told the answer to another one.  Different runs
    have different operations. *)
Theorem clients_linearizable W : world_reachable W → ∃ lin, explains W lin.
Proof.
  intros Hw%reachable_ok.
  destruct (linearization Hf new_MemoryStorage GetWorker flags m0 ms Hcf snap0 Hsnap Hvoters
    Hworker _ (wo_reach _ Hw)) as (L & _ & Hlin).
  eexists. split; [exact Hlin| |apply Hw]. intros W0 k c code got. by eapply explains_exit.
Qed.

(** ** Runs that wait end *)

Lemma command_answerable fl r cb : command fl = Some (r, cb) → answerable r.
Proof. unfold command, answerable. intros E. repeat case_decide; simplify_eq; simpl; auto. Qed.

(** Raft has gone past the proposal of the operation at its server. *)
Definition gone_past C o : Prop :=
  ∃ pos s log G e, op_at C pos o ∧ C !! op_server o = Some (Server s true log G) ∧
    e ∈ log ∧ lex_lt pos (entry_pos e).

Lemma gone_past_replied C o :
  cluster_reachable C → gone_past C o → answerable (op_req o) → ∃ r, replied C o r.
Proof.
  intros Hreach (pos & s & log & G & e & (sv & resp & Hsv & Ha & Hacc) & Hi & He & Hlt) Han.
  rewrite Hi in Hsv. injection Hsv as <-. simpl in Ha, Hacc.
  eapply owed_answer in Hreach as Hran; [|done..]. destruct Hran as [h Hran].
  eapply cluster_simulation in Hreach as (N & Hnet & Hr); [|done..].
  edestruct related_answers as (r & Hresp & _); [done|done|exact Hnet|exact Hr|exact Hi|exact Ha|
    exact Hran|].
  exists r, (Server s true log G), resp, h. by split_and!.
Qed.

(** C12 No run of the client is left waiting behind the log: in every state that
    client runs and the servers of a cluster can reach, when a run of the
    client waits for its answer, raft has accepted the proposal of one of its
    operations, and the server that took it runs and has been handed an entry
    behind that proposal, then the server has answered, and the world can step
    so that the response reaches the client, whose run ends: with status 0 and
    the answer, or in a FATAL record if the server rejected the request. *)
Theorem waiting_run_ends W k c rq o :
  world_reachable W → wd_clients W !! k = Some c → cp_end c = Waiting →
  (rq, o) ∈ cp_ops c → gone_past (wd_cluster W) o →
  ∃ r c', replied (wd_cluster W) o r ∧
    world_step W (World (wd_cluster W) (<[k := c']> (wd_clients W))) ∧
    cp_end c' = if KvResp.rejected r then Dead else Exit 0 (Some (o, r)).
Proof.
  intros Hw%reachable_ok Hk Hwait Hin Hpast. pose proof (wo_clients _ Hw _ _ Hk) as Hc.
  destruct (co_ops _ _ Hc _ _ Hin) as (Hrq & Hreq & _).
  destruct (co_sent _ _ Hc _ Hrq) as (_ & _ & Hcmd). apply command_answerable in Hcmd.
  rewrite <- Hreq in Hcmd.
  destruct (gone_past_replied _ _ (wo_reach _ Hw) Hpast Hcmd) as [r Hr].
  exists r. eexists. destruct W as [C K]. split; [done|]. split; [by eapply wd_response|].
  unfold called_back. simpl.
  destruct (run_callback_correct (KvClient.cb rq) None r (cp_state c) Hf)
    as [(_ & -> & ->)|([[? [=]]| ->] & msg & ->)]; done.
Qed.
End clients.
