(* ===== verification/Instances.v ===== *)
(** * Instances: concrete libraries

    Executable implementations of the parameters (the libraries the program
    calls) that satisfy their laws: a one-byte-length codec, string splitting,
    an in-memory leveldb, a network on which every connection succeeds, and a
    raft node that commits what its leader proposes.  They show that the laws
    can hold and let the theorems be evaluated on concrete runs. *)
From S2P Require Import Prelude Wire RpcClient Runtime CString Storage Members Raft Config.
From S2P Require Import Proposals HostClients Peer.

(** ** Evaluation *)

(** Evaluate a decidable proposition. *)
Ltac decide_now := apply (bool_decide_unpack _); vm_compute; exact I.

(** The state after a run that returns. *)
Definition after_run {S A} (o : outcome S A) (d : S) : S :=
  match o with Ok _ s => s | _ => d end.
Definition is_Ok {S A} (o : outcome S A) : bool := match o with Ok _ _ => true | _ => false end.
Lemma ran {S} (o : outcome S unit) d : is_Ok o = true → o = Ok () (after_run o d).
Proof. by destruct o as [[]| | |]. Defined.

Definition result {S A} (o : outcome S A) (d : A) : A := match o with Ok a _ => a | _ => d end.
Lemma ran_value {S A} (o : outcome S A) d d' : is_Ok o = true → o = Ok (result o d) (after_run o d').
Proof. by destruct o. Defined.

(** An option that holds a value. *)
Lemma default_Some {A} (o : option A) (a : A) :
  bool_decide (is_Some o) = true → o = Some (default a o).
Proof. intros [b ->]%bool_decide_eq_true. done. Defined.

(** ** The network and FATAL *)

(** FATAL records abort. *)
#[export] Instance aborting : FatalPolicy := true.

(** Every Connect succeeds. *)
#[export] Instance good_net : RpcNet := λ _ _, 0.

(** ** Splitting *)

Fixpoint split_at (s : string) (c : ascii) : list string :=
  match s with
  | EmptyString => [""]
  | String x s' =>
      if decide (x = c) then "" :: split_at s' c
      else match split_at s' c with
           | h :: t => String x h :: t
           | [] => [String x ""]
           end
  end.

#[export] Instance simple_split : BoostSplit := split_at.

#[export] Instance simple_split_laws : BoostSplitLaws.
Proof.
  assert (∀ s c, split_at s c ≠ []) as Hne.
  { intros [|x s] c; simpl; [done|]. case_decide; [done|]. by destruct (split_at s c). }
  split; unfold split, simple_split; [| |exact Hne].
  - intros s c. induction s as [|x s IH]; [done|]. simpl. case_decide as Hx.
    + subst. rewrite join_cons by done. by rewrite IH.
    + destruct (split_at s c) as [|h [|h' t]] eqn:E; [by apply Hne in E|..];
        rewrite <- IH; done.
  - intros s c. induction s as [|x s IH]; [repeat constructor; apply not_elem_of_nil|].
    simpl. case_decide as Hx; [constructor; [apply not_elem_of_nil|done]|].
    destruct (split_at s c) as [|h t] eqn:E; [by apply Hne in E|].
    apply Forall_cons in IH as [Hh Ht]. constructor; [|done].
    apply no_char_cons. split; [|done]. by intros ->.
Qed.

(** ** The codec: a letter for the command, then its fields *)

Definition raw_encode (r : KvReq.t) : string :=
  match KvReq.cmd_type r with
  | kGet => String "G" (GetReq.key (KvReq.get_req r))
  | kPut => String "P" (String (ascii_of_nat (String.length (PutReq.key (KvReq.put_req r))))
              (PutReq.key (KvReq.put_req r) +:+ PutReq.value (KvReq.put_req r)))
  | kDel => String "D" (DelReq.key (KvReq.del_req r))
  | _ => ""
  end.

Definition raw_decode (s : string) : bool * KvReq.t :=
  match s with
  | EmptyString => (true, KvReq.default)
  | String c s' =>
      if decide (c = "G"%char) then (true, KvReq.of_get s')
      else if decide (c = "D"%char) then (true, KvReq.of_del s')
      else match s' with
           | String l s'' =>
               if decide (c = "P"%char)
               then (true, KvReq.of_put (String.substring 0 (nat_of_ascii l) s'')
                      (String.substring (nat_of_ascii l) (String.length s'' - nat_of_ascii l) s''))
               else (false, KvReq.default)
           | EmptyString => (false, KvReq.default)
           end
  end.

#[export] Instance KvReq_eq_dec : EqDecision KvReq.t.
Proof.
  intros [c1 g1 p1 d1] [c2 g2 p2 d2].
  assert (EqDecision GetReq.t) by solve_decision.
  assert (EqDecision PutReq.t) by solve_decision.
  assert (EqDecision DelReq.t) by solve_decision.
  solve_decision.
Defined.

(** A message that does not fit the format fails to serialize. *)
#[export] Instance simple_codec : KvCodec := {|
  SerializeToString r :=
    let s := raw_encode r in
    if decide (raw_decode s = (true, r)) then (true, s) else (false, "");
  ParseFromString := raw_decode
|}.

#[export] Instance simple_codec_laws : KvCodecLaws.
Proof. split; [|done]. intros r s. simpl. case_decide; naive_solver. Qed.

(** ** leveldb in memory, a directory per path *)

#[export] Instance mem_leveldb : LevelDB := {|
  ldb := gmap string string;
  filesystem := gset string;
  fs_exists fs p := bool_decide (p ∈ fs);
  fs_create_directories p fs := {[p]} ∪ fs;
  DB_Open _ p fs :=
    if decide (p ∈ fs) then (Status.mk true "", Some ∅, fs)
    else (Status.mk false "no such directory", None, fs);
  DB_Get d k := match d !! k with
                | Some v => (Status.mk true "", v)
                | None => (Status.mk false "NotFound", "")
                end;
  DB_Put d k v := (Status.mk true "", <[k := v]> d);
  DB_Delete d k := (Status.mk true "", delete k d)
|}.

#[export] Instance mem_leveldb_laws : LevelDBLaws.
Proof.
  refine {| db_contents := (λ d, d) : ldb → gmap string string |}; simpl.
  - intros c p fs st db fs'. case_decide; naive_solver.
  - intros d k st v. destruct (d !! k); naive_solver.
  - naive_solver.
  - naive_solver.
Defined.

#[export] Instance mem_leveldb_reliable : LevelDBReliable.
Proof. split; simpl; [|done..]. intros d k v Hk. simpl in Hk. by rewrite Hk. Qed.

(** ** A raft node that commits its leader's log *)

Module ToyRaft.
Record t : Type := mk {
  self : Z; voters : list Z; lead : bool; term_ : Z;
  log : list Entry.t; applied : nat; beat : bool }.
Record rd : Type := mk_rd {
  rd_entries : list Entry.t; rd_messages : list Message.t; rd_committed : list Entry.t }.

Definition last (r : t) : Z := Z.min (Z.of_nat (length (log r))) (2 ^ 60).
Definition heartbeat (r : t) (v : Z) : Message.t :=
  Message.mk kMsgHeartbeat v (self r) (term_ r) 0 0 [] 0 None false 0 "".
Definition others (r : t) : list Z := filter (λ v, v ≠ self r) (voters r).
(* a leader drops data that is too large, a follower every proposal *)
Definition propose (d : string) (r : t) : ErrNum * t :=
  if lead r && (String.length d <=? 16)%nat
  then (kOk, mk (self r) (voters r) (lead r) (term_ r)
                (log r ++ [Entry.mk kEntryNormal (term_ r) (u64 (last r + 1)) d])
                (applied r) (beat r))
  else (kErrProposalDropped, r).
End ToyRaft.

#[export] Instance toy_raft : RawNode := {|
  mem_storage := Snapshot.t;
  GetSnapshot s := (kOk, Some s);
  write_snapshot f s := f s;
  Validate c := c;
  raw_node := ToyRaft.t;
  ready := ToyRaft.rd;
  new_RawNode c s :=
    ToyRaft.mk (RaftConfig.id c) (ConfState.voters (Snapshot.conf_state s)) true 1 [] 0 false;
  IsLeader := ToyRaft.lead;
  term := ToyRaft.term_;
  LastIndex := ToyRaft.last;
  Tick r := ToyRaft.mk (ToyRaft.self r) (ToyRaft.voters r) (ToyRaft.lead r) (ToyRaft.term_ r)
              (ToyRaft.log r) (ToyRaft.applied r) true;
  Step m r := (kOk, r);
  Propose := ToyRaft.propose;
  HasReady r := ToyRaft.beat r;
  GetReady r :=
    (ToyRaft.mk_rd (drop (ToyRaft.applied r) (ToyRaft.log r))
       (ToyRaft.heartbeat r <$> ToyRaft.others r)
       (drop (ToyRaft.applied r) (ToyRaft.log r)), r);
  entries := ToyRaft.rd_entries;
  messages := ToyRaft.rd_messages;
  committed_entries := ToyRaft.rd_committed;
  Append _ r := r;
  Advance _ r := ToyRaft.mk (ToyRaft.self r) (ToyRaft.voters r) (ToyRaft.lead r)
                   (ToyRaft.term_ r) (ToyRaft.log r) (length (ToyRaft.log r)) false
|}.

Definition toy_le (r r' : ToyRaft.t) : Prop :=
  ToyRaft.term_ r' = ToyRaft.term_ r ∧ (length (ToyRaft.log r) ≤ length (ToyRaft.log r'))%nat.

#[export] Instance toy_le_preorder : PreOrder toy_le.
Proof.
  unfold toy_le. split; [done|]. intros r1 r2 r3 [? ?] [? ?]. split; [congruence|lia].
Qed.

Lemma toy_propose_cases d r :
  (ToyRaft.propose d r).2 = r ∨
  ∃ e, (ToyRaft.propose d r).2 = ToyRaft.mk (ToyRaft.self r) (ToyRaft.voters r) (ToyRaft.lead r)
         (ToyRaft.term_ r) (ToyRaft.log r ++ [e]) (ToyRaft.applied r) (ToyRaft.beat r).
Proof. unfold ToyRaft.propose. destruct (_ && _); [right; eauto|by left]. Qed.

Lemma toy_op_le r r' : raft_op r r' → toy_le r r'.
Proof.
  intros [r0|m r0|d r0|r0 rd r1 [= <- <-]]; unfold toy_le; simpl; try done.
  - destruct (toy_propose_cases d r0) as [E|[e E]]; rewrite E; simpl; [done|].
    rewrite length_app. split; [done|lia].
  - by case_bool_decide.
Qed.

Lemma toy_op_members r r' : raft_op r r' → ToyRaft.voters r' = ToyRaft.voters r.
Proof.
  intros [r0|m r0|d r0|r0 rd r1 [= <- <-]]; simpl; try done.
  - by destruct (toy_propose_cases d r0) as [E|[e E]]; rewrite E.
  - by case_bool_decide.
Qed.

#[export] Instance toy_raft_laws : RawNodeLaws.
Proof.
  refine {| raft_le := toy_le; members := ToyRaft.voters;
            raft_op_le := toy_op_le; raft_op_members := toy_op_members |}; simpl.
  - intros r r' [Ht Hl] _ _. unfold lex_le, lex_lt, ToyRaft.last. simpl. rewrite Ht.
    destruct (decide (Z.min (Z.of_nat (length (ToyRaft.log r))) (2 ^ 60) =
      Z.min (Z.of_nat (length (ToyRaft.log r'))) (2 ^ 60))) as [->|]; [by left|right; right; lia].
  - intros r. unfold ToyRaft.last, UINT64_MAX. lia.
  - intros c ms e snap [= <- <-]. done.
  - intros f ms e snap [= <- <-]. done.
  - intros r rd r' m [= <- <-] (v & -> & Hv)%list_elem_of_fmap. simpl.
    by apply list_elem_of_filter in Hv as [_ ?].
Defined.

#[export] Instance key_order : PeerInit.HashOrder := λ m, (map_to_list m).*1.
#[export] Instance key_order_laws : PeerInit.HashOrderLaws.
Proof. intros m. reflexivity. Qed.

#[export] Instance ds_laws_aborting : KvStoreLaws DiskStorage.t :=
  DiskStorage_KvStoreLaws eq_refl.
#[export] Instance ds_total_aborting : KvStoreTotal DiskStorage.t :=
  DiskStorage_KvStoreTotal eq_refl mem_leveldb_reliable.
