(* ===== verification/ReplRaft.v ===== *)
(** * ReplRaft: a raft node that replicates the log of a fixed leader

    A concrete [RawNode] for runs of several servers: the voter with the
    smallest id leads from the start, its rounds of Ready send its whole log to
    the others, and a follower takes a log longer than its own.  Every node
    hands out the log it has.  It satisfies the laws of a node and, because
    there is one leader and a log only grows, those of the network. *)
From S2P Require Import Prelude Wire RpcClient Runtime CString Storage Members Raft Config.
From S2P Require Import Proposals HostClients Peer PeerSafety RaftNet HostLaws Instances.

#[export] Instance Entry_eq_dec : EqDecision Entry.t.
Proof. solve_decision. Defined.

Module ReplRaft.
Record t : Type := mk {
  self : Z; voters : list Z; log : list Entry.t; applied : nat; beat : bool }.

Definition lead (r : t) : bool := forallb (λ v, self r <=? v) (voters r).
Definition len (r : t) : Z := Z.of_nat (length (log r)).
Definition entry (r : t) (d : string) : Entry.t := Entry.mk kEntryNormal 1 (len r + 1) d.
Definition set_log (l : list Entry.t) (r : t) : t :=
  mk (self r) (voters r) l (applied r) (beat r).

Definition propose (d : string) (r : t) : ErrNum * t :=
  if lead r && (len r <? 2 ^ 60) then (kOk, set_log (log r ++ [entry r d]) r)
  else (kErrProposalDropped, r).

Definition is_app (m : Message.t) : bool :=
  match Message.type m with kMsgApp => true | _ => false end.
Definition step (m : Message.t) (r : t) : t :=
  if is_app m && negb (lead r) &&
     bool_decide (log r `prefix_of` Message.entries m)
  then set_log (Message.entries m) r else r.

Definition app_msg (r : t) (v : Z) : Message.t :=
  Message.mk kMsgApp v (self r) 1 0 0 (log r) 0 None false 0 "".
Definition msgs (r : t) : list Message.t :=
  if lead r then app_msg r <$> filter (λ v, v ≠ self r) (voters r) else [].
End ReplRaft.

#[export] Instance repl_raft : RawNode := {|
  mem_storage := Snapshot.t;
  GetSnapshot s := (kOk, Some s);
  write_snapshot f s := f s;
  Validate c := c;
  raw_node := ReplRaft.t;
  ready := ToyRaft.rd;
  new_RawNode c s :=
    ReplRaft.mk (RaftConfig.id c) (ConfState.voters (Snapshot.conf_state s)) [] 0 false;
  IsLeader := ReplRaft.lead;
  term _ := 1;
  LastIndex r := Z.min (ReplRaft.len r) (2 ^ 60);
  Tick r := ReplRaft.mk (ReplRaft.self r) (ReplRaft.voters r) (ReplRaft.log r)
              (ReplRaft.applied r) true;
  Step m r := (kOk, ReplRaft.step m r);
  Propose := ReplRaft.propose;
  HasReady := ReplRaft.beat;
  GetReady r :=
    (ToyRaft.mk_rd [] (ReplRaft.msgs r) (drop (ReplRaft.applied r) (ReplRaft.log r)), r);
  entries := ToyRaft.rd_entries;
  messages := ToyRaft.rd_messages;
  committed_entries := ToyRaft.rd_committed;
  Append _ r := r;
  Advance _ r := ReplRaft.mk (ReplRaft.self r) (ReplRaft.voters r) (ReplRaft.log r)
                   (length (ReplRaft.log r)) false
|}.

(** ** The laws of a node *)

Definition repl_le (r r' : ReplRaft.t) : Prop :=
  (length (ReplRaft.log r) ≤ length (ReplRaft.log r'))%nat.
#[export] Instance repl_le_preorder : PreOrder repl_le.
Proof.
  unfold repl_le. split; [by intros r|]. intros r1 r2 r3 H12 H23. lia.
Qed.

Lemma repl_propose_cases d r :
  (ReplRaft.propose d r = (kErrProposalDropped, r)) ∨
  (ReplRaft.lead r = true ∧ ReplRaft.len r < 2 ^ 60 ∧
   ReplRaft.propose d r =
     (kOk, ReplRaft.set_log (ReplRaft.log r ++ [ReplRaft.entry r d]) r)).
Proof.
  unfold ReplRaft.propose. destruct (ReplRaft.lead r); simpl; [|by left].
  destruct (Z.ltb_spec (ReplRaft.len r) (2 ^ 60)); [by right|by left].
Qed.

Lemma repl_step_cases m r :
  ReplRaft.step m r = r ∨
  (ReplRaft.lead r = false ∧ ReplRaft.log r `prefix_of` Message.entries m ∧
   ReplRaft.step m r = ReplRaft.set_log (Message.entries m) r).
Proof.
  unfold ReplRaft.step. destruct (ReplRaft.is_app m), (ReplRaft.lead r); simpl; auto.
  case_bool_decide; auto.
Qed.

Lemma repl_op_le r r' : raft_op r r' → repl_le r r'.
Proof.
  intros [r0|m r0|d r0|r0 rd r1 [= <- <-]]; unfold repl_le; simpl; try done.
  - destruct (repl_step_cases m r0) as [->|(_ & Hp & ->)]; simpl; [done|by apply prefix_length].
  - destruct (repl_propose_cases d r0) as [->|(_ & _ & ->)]; simpl; [done|].
    rewrite length_app. lia.
Qed.

Lemma repl_op_members r r' : raft_op r r' → ReplRaft.voters r' = ReplRaft.voters r.
Proof.
  intros [r0|m r0|d r0|r0 rd r1 [= <- <-]]; simpl; try done.
  - by destruct (repl_step_cases m r0) as [->|(_ & _ & ->)].
  - by destruct (repl_propose_cases d r0) as [->|(_ & _ & ->)].
Qed.

#[export] Instance repl_raft_laws : RawNodeLaws.
Proof.
  refine {| raft_le := repl_le; members := ReplRaft.voters;
            raft_op_le := repl_op_le; raft_op_members := repl_op_members |}; simpl.
  - intros r r' Hl _ _. unfold lex_le, lex_lt, ReplRaft.len, repl_le in *. simpl.
    destruct (decide (Z.min (Z.of_nat (length (ReplRaft.log r))) (2 ^ 60) =
      Z.min (Z.of_nat (length (ReplRaft.log r'))) (2 ^ 60))) as [->|]; [by left|right; right; lia].
  - intros r. unfold ReplRaft.len, UINT64_MAX. lia.
  - intros c ms e snap [= <- <-]. done.
  - intros f ms e snap [= <- <-]. done.
  - intros r rd r' m [= <- <-]. simpl. unfold ReplRaft.msgs.
    destruct (ReplRaft.lead r); [|by intros ?%not_elem_of_nil].
    intros (v & -> & Hv)%list_elem_of_fmap. simpl. by apply list_elem_of_filter in Hv as [_ ?].
Defined.

(** ** The laws of the network *)

(** The log of the leader holds the entries 1, 2, ... in order. *)
Definition numbered (L : list Entry.t) : Prop :=
  ∀ k e, L !! k = Some e →
    Entry.index e = Z.of_nat k + 1 ∧ Entry.type e = kEntryNormal ∧ Entry.term e = 1.

(** Each of them was proposed. *)
Definition proposed_news (e : Entry.t) : news :=
  Proposed (Entry.term e) (Entry.index e) (Entry.data e).

Record node_inv (hosts : list Z) (L : list Entry.t) (i : Z) (n : node) : Prop := {
  nv_host : i ∈ hosts;
  nv_self : ReplRaft.self (node_raft n) = i;
  nv_voters : ReplRaft.voters (node_raft n) ≡ₚ hosts;
  nv_log : ReplRaft.log (node_raft n) `prefix_of` L;
  nv_lead : ReplRaft.lead (node_raft n) = true → ReplRaft.log (node_raft n) = L;
  nv_applied : (ReplRaft.applied (node_raft n) ≤ length (ReplRaft.log (node_raft n)))%nat;
  nv_history : node_history n = take (ReplRaft.applied (node_raft n)) (ReplRaft.log (node_raft n))
}.

Definition news_inv (L : list Entry.t) (nw : news) : Prop :=
  match nw with
  | Sent m => Message.entries m `prefix_of` L
  | Proposed t ix d => ∃ k e, ix = Z.of_nat k + 1 ∧ L !! k = Some e ∧ Entry.data e = d
  | Offered _ => True
  end.

Record net_inv (hosts : list Z) (L : list Entry.t) (N : net) : Prop := {
  ni_numbered : numbered L;
  ni_nodes i n : nodes N !! i = Some n → node_inv hosts L i n;
  ni_halted i h : halted N !! i = Some h → h `prefix_of` L;
  ni_news : Forall (news_inv L) (wire_of N);
  ni_proposed : proposed_news <$> L ⊆ wire_of N
}.

Lemma lead_min r v : ReplRaft.lead r = true → v ∈ ReplRaft.voters r → ReplRaft.self r ≤ v.
Proof.
  unfold ReplRaft.lead. rewrite forallb_forall. intros Hl Hv.
  apply Z.leb_le, Hl. by apply list_elem_of_In.
Qed.

Lemma lead_unique hosts L i j n n' :
  node_inv hosts L i n → node_inv hosts L j n' →
  ReplRaft.lead (node_raft n) = true → ReplRaft.lead (node_raft n') = true → i = j.
Proof.
  intros [A1 B1 C1 _ _ _ _] [A2 B2 C2 _ _ _ _] H1 H2. apply Z.le_antisymm.
  - rewrite <- B1. apply lead_min; [done|]. by rewrite C1.
  - rewrite <- B2. apply lead_min; [done|]. by rewrite C2.
Qed.

Lemma lead_log hosts L i n : node_inv hosts L i n → node_history n `prefix_of` L.
Proof.
  intros Hn. rewrite (nv_history _ _ _ _ Hn). etrans; [|apply Hn].
  apply prefix_take.
Qed.

(** The leader's log grows by one entry. *)
Lemma news_inv_grow L L' nw : L `prefix_of` L' → news_inv L nw → news_inv L' nw.
Proof.
  destruct nw as [m|t ix d|d]; simpl; [by intros ? ?; etrans| |done].
  intros [l ->] (k & e & ? & Hk & ?). exists k, e. split_and!; [done| |done].
  by apply lookup_app_l_Some.
Qed.

Lemma node_inv_grow hosts L L' i n :
  L `prefix_of` L' → node_inv hosts L i n → ReplRaft.lead (node_raft n) = false →
  node_inv hosts L' i n.
Proof. intros Hp [A B C D E F G] Hl. split; try done; [by etrans|congruence]. Qed.

(** A step of a node that leaves the leader's log as it is. *)
Lemma net_inv_same hosts L N i n' out :
  net_inv hosts L N → node_inv hosts L i n' → Forall (news_inv L) out →
  net_inv hosts L (Net (<[i := n']> (nodes N)) (halted N) (wire_of N ++ out)).
Proof.
  intros [A B C D E] Hn Ho. split; simpl; try done; [|by apply Forall_app|set_solver].
  intros j n. rewrite lookup_insert_Some. intros [[<- <-]|[_ Hj]]; [done|by apply B].
Qed.

Lemma msgs_news hosts L i n k :
  node_inv hosts L i n → Forall (news_inv L) (Sent <$> take k (ReplRaft.msgs (node_raft n))).
Proof.
  intros Hn. apply Forall_fmap, Forall_take. unfold ReplRaft.msgs.
  destruct (ReplRaft.lead _); [|constructor]. apply Forall_fmap, Forall_forall. intros v _.
  simpl. apply Hn.
Qed.

(** A node takes a log of which its own is a prefix. *)
Lemma node_inv_log hosts L i r h l :
  node_inv hosts L i (Node r h) → ReplRaft.log r `prefix_of` l → l `prefix_of` L →
  (ReplRaft.lead r = true → l = L) → node_inv hosts L i (Node (ReplRaft.set_log l r) h).
Proof.
  intros [A B C D E F G] [l' ->] Hl HL. simpl in *. split; simpl; try done.
  - rewrite length_app. lia.
  - by rewrite take_app_le by lia.
Qed.

Lemma net_inv_propose hosts L N i r h d :
  net_inv hosts L N → nodes N !! i = Some (Node r h) →
  ReplRaft.lead r = true →
  net_inv hosts (L ++ [ReplRaft.entry r d])
    (Net (<[i := Node (ReplRaft.set_log (ReplRaft.log r ++ [ReplRaft.entry r d]) r) h]> (nodes N))
       (halted N) (wire_of N ++ [Proposed 1 (ReplRaft.len r + 1) d])).
Proof.
  intros HN Hi El. destruct HN as [A B C D F]. pose proof (B _ _ Hi) as Hn.
  pose proof (nv_lead _ _ _ _ Hn El) as HL. simpl in HL. set (e := ReplRaft.entry r d).
  assert (L `prefix_of` L ++ [e]) as Hgrow by by apply prefix_app_r.
  split; simpl.
  - intros k e'. rewrite lookup_app_Some. intros [Hk|[Hk He]]; [by apply A|].
    apply list_lookup_singleton_Some in He as [Hz <-].
    assert (k = length L) as -> by lia. simpl. split; [|done]. unfold ReplRaft.len. by rewrite HL.
  - intros j n. rewrite lookup_insert_Some. intros [[<- <-]|[Hne Hj]].
    + destruct Hn as [A1 B1 C1 D1 E1 F1 G1]. simpl in *. split; simpl; try done.
      * by rewrite HL.
      * intros _. by rewrite HL.
      * rewrite length_app. lia.
      * by rewrite take_app_le by lia.
    + pose proof (B _ _ Hj) as Hnj. eapply node_inv_grow; [done|done|].
      destruct (ReplRaft.lead (node_raft n)) eqn:Elj; [|done]. exfalso. apply Hne.
      by eapply (lead_unique hosts L i j (Node r h) n).
  - intros j h' Hj. etrans; [by eapply C|done].
  - apply Forall_app. split.
    + eapply Forall_impl; [exact D|]. intros nw. by apply news_inv_grow.
    + constructor; [|constructor]. exists (length L), e.
      split_and!; [by unfold ReplRaft.len; rewrite HL| |done].
      by rewrite lookup_app_r, Nat.sub_diag.
  - rewrite fmap_app. simpl. set_solver.
Qed.

Lemma news_repl d r :
  (ReplRaft.propose d r = (kErrProposalDropped, r) ∧
   proposal_news d r = if ReplRaft.lead r then [] else [Offered d]) ∨
  (ReplRaft.lead r = true ∧
   ReplRaft.propose d r =
     (kOk, ReplRaft.set_log (ReplRaft.log r ++ [ReplRaft.entry r d]) r) ∧
   proposal_news d r = [Proposed 1 (ReplRaft.len r + 1) d]).
Proof.
  unfold proposal_news. simpl.
  destruct (repl_propose_cases d r) as [E|(El & Hlen & E)]; rewrite E; simpl; [by left|right].
  - rewrite El. split_and!; [done..|]. simpl. by rewrite Z.min_l by lia.
Qed.

Lemma net_inv_node hosts L N i n n' out :
  net_inv hosts L N → nodes N !! i = Some n → node_step i (wire_of N) n n' out →
  ∃ L', net_inv hosts L' (Net (<[i := n']> (nodes N)) (halted N) (wire_of N ++ out)).
Proof.
  intros HN Hi Hs. pose proof (ni_nodes _ _ _ HN _ _ Hi) as Hn.
  destruct Hs as [r h|d r h|m r h Hm Hto|r h rd r1 Hr [= <- <-]].
  - exists L. apply net_inv_same; [done| |constructor]. by destruct Hn.
  - simpl. destruct (news_repl d r) as [[E ->]|(El & E & ->)]; rewrite E; simpl.
    + exists L. apply net_inv_same; [done..|]. destruct (ReplRaft.lead r); by repeat constructor.
    + eexists. by apply net_inv_propose.
  - exists L. simpl. apply net_inv_same; [done| |constructor].
    destruct (repl_step_cases m r) as [->|(El & Hp & ->)]; [done|].
    apply node_inv_log; [done..| |congruence].
    exact (proj1 (Forall_forall _ _) (ni_news _ _ _ HN) _ Hm).
  - exists L. apply net_inv_same; [done| |].
    + unfold after_ready. simpl. destruct Hn as [A B C D E F G]. simpl in *.
      split; simpl; try done. by rewrite G, take_drop, firstn_all.
    + simpl. rewrite <- (firstn_all (ReplRaft.msgs r)). by eapply (msgs_news hosts L i (Node r h)).
Qed.

Lemma net_inv_stop hosts L N i n h out :
  net_inv hosts L N → nodes N !! i = Some n → node_stop n h out →
  net_inv hosts L (Net (delete i (nodes N)) (<[i := h]> (halted N)) (wire_of N ++ out)).
Proof.
  intros HN Hi Hs. pose proof (ni_nodes _ _ _ HN _ _ Hi) as Hn.
  assert (h `prefix_of` L ∧ Forall (news_inv L) out) as [Hh Hout].
  { destruct Hs as [r h|r h rd r1 k Hr [= <- <-]].
    - split; [|constructor]. exact (lead_log _ _ _ _ Hn).
    - split; [|by eapply (msgs_news hosts L i (Node r h))]. simpl.
      destruct Hn as [A B C D E F G]. simpl in *. by rewrite G, take_drop. }
  destruct HN as [A B C D E]. split; simpl; [done| | |by apply Forall_app|set_solver].
  - intros j n'. rewrite lookup_delete_Some. intros [_ Hj]. by apply B.
  - intros j h'. rewrite lookup_insert_Some. intros [[<- <-]|[_ Hj]]; [done|by eapply C].
Qed.

Lemma net_inv_reachable hosts N :
  net_reachable (Snapshot.default : mem_storage) hosts N → ∃ L, net_inv hosts L N.
Proof.
  intros (N0 & (Hw & Hh & Hn) & Hsteps).
  assert (∃ L, net_inv hosts L N0) as HN.
  { exists []. split; [by intros k e| | |by rewrite Hw|apply list_subseteq_nil].
    - intros i n Hi. destruct (Hn _ _ Hi) as (Hin & Hhist & hosts' & Hp & Hr).
      destruct n as [r h]. simpl in *. subst. split; simpl; try done.
      by rewrite voters_add_all.
    - intros i h Hi. by rewrite Hh in Hi. }
  clear Hw Hh Hn. induction Hsteps as [N1|N1 N2 N3 Hs _ IH]; [done|]. apply IH. destruct HN as [L HN].
  destruct Hs as [i n n' out N1 Hi Hs|i n h out N1 Hi Hs].
  - by eapply net_inv_node.
  - exists L. by eapply net_inv_stop.
Qed.

Lemma history_prefix hosts L N i h : net_inv hosts L N → has_history N i h → h `prefix_of` L.
Proof.
  intros HN [[r Hr]|Hh]; [|by eapply ni_halted].
  exact (lead_log _ _ _ _ (ni_nodes _ _ _ HN _ _ Hr)).
Qed.

#[export] Instance repl_safety : RaftSafety (Snapshot.default : mem_storage).
Proof.
  split.
  - intros hosts N i j h h' _ [L HN]%net_inv_reachable Hi Hj.
    eapply prefix_comparable; by eapply history_prefix.
  - intros hosts N t ix d i h e _ [L HN]%net_inv_reachable Hp Hh He <- <-.
    destruct (proj1 (Forall_forall _ _) (ni_news _ _ _ HN) _ Hp) as (k & e' & Hix & Hk & <-).
    apply list_elem_of_lookup in He as [k' Hk'].
    pose proof (prefix_lookup_Some _ _ _ _ Hk' (history_prefix _ _ _ _ _ HN Hh)) as HL.
    destruct (ni_numbered _ _ _ HN _ _ HL) as (Hix' & Hty & _).
    rewrite Hix' in Hix. assert (k' = k) as -> by lia. split; congruence.
  - intros hosts N i r hi d j h e _ [L HN]%net_inv_reachable Hi El Hok Hh He. simpl in *.
    destruct (repl_propose_cases d r) as [E|(_ & Hlen & _)]; [by rewrite E in Hok|].
    apply list_elem_of_lookup in He as [k Hk]. unfold entry_pos. intros [= _ Hix].
    pose proof (prefix_lookup_Some _ _ _ _ Hk (history_prefix _ _ _ _ _ HN Hh)) as HL.
    rewrite (proj1 (ni_numbered _ _ _ HN _ _ HL)), Z.min_l in Hix by lia.
    apply lookup_lt_Some in HL. unfold ReplRaft.len in Hix.
    pose proof (nv_lead _ _ _ _ (ni_nodes _ _ _ HN _ _ Hi) El) as HL'. simpl in HL'.
    rewrite HL' in Hix. lia.
  - intros hosts N i r hi d t ix d' _ [L HN]%net_inv_reachable Hi El Hok Hp. simpl in *.
    destruct (repl_propose_cases d r) as [E|(_ & Hlen & _)]; [by rewrite E in Hok|].
    destruct (proj1 (Forall_forall _ _) (ni_news _ _ _ HN) _ Hp) as (k & e & -> & Hk & _).
    intros [= _ Hix]. rewrite Z.min_l in Hix by lia. apply lookup_lt_Some in Hk.
    pose proof (nv_lead _ _ _ _ (ni_nodes _ _ _ HN _ _ Hi) El) as HL'. simpl in HL'.
    unfold ReplRaft.len in Hix. rewrite HL' in Hix. lia.
  - intros hosts N i r hi d e _ [L HN]%net_inv_reachable Hi El Hok He. simpl in *.
    destruct (repl_propose_cases d r) as [E|(_ & Hlen & _)]; [by rewrite E in Hok|].
    pose proof (ni_nodes _ _ _ HN _ _ Hi) as Hn. apply list_elem_of_lookup in He as [k Hk].
    pose proof (prefix_lookup_Some _ _ _ _ Hk (lead_log _ _ _ _ Hn)) as HL.
    destruct (ni_numbered _ _ _ HN _ _ HL) as (Hix & _ & Ht).
    pose proof (nv_lead _ _ _ _ Hn El) as HL'. simpl in HL'. apply lookup_lt_Some in HL.
    unfold lex_lt, entry_pos, ReplRaft.len in *. simpl. rewrite Hix, Ht, HL' in *. lia.
  - intros hosts N i h j k e e' _ [L HN]%net_inv_reachable Hh Hj Hk Hlt.
    pose proof (history_prefix _ _ _ _ _ HN Hh) as Hp.
    rewrite (proj1 (ni_numbered _ _ _ HN _ _ (prefix_lookup_Some _ _ _ _ Hj Hp))).
    rewrite (proj1 (ni_numbered _ _ _ HN _ _ (prefix_lookup_Some _ _ _ _ Hk Hp))). lia.
  - intros hosts N i h e _ [L HN]%net_inv_reachable Hh He _ _. left.
    apply (ni_proposed _ _ _ HN), (list_elem_of_fmap_2 proposed_news).
    eapply elem_of_prefix; [exact He|by eapply history_prefix].
Qed.
