(* ===== verification/Witnesses.v ===== *)
(** * Witnesses: the theorems at concrete inputs

    Each theorem with hypotheses is applied to a small concrete state or run,
    with the libraries of Instances, where its hypotheses hold. *)
From S2P Require Import Prelude Wire RpcClient Runtime CString Storage Members Raft Config.
From S2P Require Import Proposals HostClients Peer KvSpec PeerSafety PeerApply PeerQueue PeerFaults Recovery.
From S2P Require Import Host Outbox Services HostLaws ServiceLaws System EchoServer Progress EchoClient.
From S2P Require Import Shutdown Owed Instances.

(** ** Sample states *)

Definition resps0 : gmap Z KvResp.t :=
  {[1 := KvResp.default; 2 := KvResp.default; 3 := KvResp.default]}.
Definition mem0 : Mem.t := Mem.mk resps0 [] ∅ 0.

Definition prop1 : Proposal.t := Proposal.mk 1 1 1 11.
Definition prop2 : Proposal.t := Proposal.mk 2 1 2 12.
Definition prop3 : Proposal.t := Proposal.mk 3 2 3 13.

Definition members0 : list GroupMember.t :=
  [GroupMember.mk 1 1 "10.0.0.1" 5001; GroupMember.mk 2 1 "10.0.0.2" 5002].
Definition member_string : string := "1,1,10.0.0.1,5001|2,1,10.0.0.2,5002".

Definition raft0 (lead : bool) : raw_node := ToyRaft.mk 1 [1; 2] lead 1 [] 0 false.
Definition db0 : DiskStorage.t := DiskStorage.mk "/db" (Some ({["a" := "1"]} : gmap string string)).
Definition peer0 (lead : bool) (ps : list Proposal.t) : Peer.t DiskStorage.t :=
  Peer.mk (GroupMember.mk 1 1 "10.0.0.1" 5001) (Some 0) (member_table members0) (raft0 lead)
    db0 ps.
Definition ctx0 (lead : bool) (ps : list Proposal.t) : Peer.Ctx DiskStorage.t :=
  Peer.mk_ctx (peer0 lead ps) ClientMgr.empty mem0.

Definition put_entry (i : Z) : Entry.t :=
  Entry.mk kEntryNormal 1 i (raw_encode (KvReq.of_put "b" "2")).
Definition get_entry (i : Z) (k : string) : Entry.t :=
  Entry.mk kEntryNormal 1 i (raw_encode (KvReq.of_get k)).

Lemma live_nil m : live m [].
Proof. constructor. Defined.

Lemma ctx0_ok lead ps : live mem0 ps → ctx_ok (ctx0 lead ps).
Proof. intros Hl. split; [exact Hl|by eexists|done]. Defined.

Lemma live12 : live mem0 [prop1; prop2].
Proof. unfold live. decide_now. Defined.

Lemma ctx0_inv lead : peer_inv (ctx0 lead []).
Proof.
  split; [apply ctx0_ok, live_nil| |].
  - intros h [->|[->|[]%not_elem_of_nil]%elem_of_cons]%elem_of_cons; by eexists.
  - split; repeat constructor.
Defined.

(** ** The queue of proposals *)

Lemma GetProposal_correct_witness :
  GetProposal 2 1 (Queue.mk [prop1; prop2; prop3] mem0) =
    Ok (Some prop2) (Queue.mk [prop3] (rejected_mem mem0 prop1)).
Proof. apply (GetProposal_correct 2 1 [prop1; prop2; prop3] mem0). unfold live. decide_now. Defined.

Lemma GetProposal_sorted_witness :
  GetProposal 2 1 (Queue.mk [prop1; prop2; prop3] mem0) =
    Ok (Some prop2) (Queue.mk [prop3] (rejected_mem mem0 prop1)).
Proof.
  apply (GetProposal_sorted 2 1 [prop1; prop2; prop3] mem0); [unfold live; decide_now|].
  repeat constructor; right; vm_compute; auto.
Defined.

Lemma GetProposal_accounting_witness :
  runs (Mem.trace (rejected_mem mem0 prop1)) ++ [12] ++ [13] = [11; 12; 13].
Proof.
  apply (GetProposal_accounting 2 1 [prop1; prop2; prop3] mem0 (Some prop2)
    (Queue.mk [prop3] (rejected_mem mem0 prop1))); [unfold live; decide_now|by vm_compute].
Defined.

Lemma CallbackAll_correct_witness :
  CallbackAll (Queue.mk [prop1; prop2] mem0) =
    Ok () (Queue.mk [] (rejected_mem (rejected_mem mem0 prop1) prop2)).
Proof. apply (CallbackAll_correct [prop1; prop2] mem0 live12). Defined.

(** ** Member strings *)

Lemma InitGroupMembers_correct_witness :
  ∃ ms, mapM parse_member (split member_string "|") = Some ms ∧
        NoDup (GroupMember.host_id <$> ms) ∧ member_table members0 = member_table ms.
Proof.
  apply (InitGroupMembers_correct member_string (member_table members0) eq_refl).
  by vm_compute.
Defined.

Lemma InitGroupMembers_roundtrip_witness :
  InitGroupMembers (print_members members0) ∅ = Ok () (member_table members0).
Proof.
  apply (InitGroupMembers_roundtrip members0); [done|decide_now|decide_now].
Defined.

Lemma InitGroupMembers_errors_witness :
  InitGroupMembers "1,1,10.0.0.1,5001|1,2,10.0.0.2,5002" ∅ =
    Abort "same host in one cluster" (member_table (take 1 members0)).
Proof.
  refine (proj2 (InitGroupMembers_errors "1,1,10.0.0.1,5001|1,2,10.0.0.2,5002"
    ["1,1,10.0.0.1,5001"] "1,2,10.0.0.2,5002" [] (member_table (take 1 members0))
    eq_refl _ _) (GroupMember.mk 1 2 "10.0.0.2" 5002) _ _).
  - reflexivity.
  - by vm_compute.
  - by vm_compute.
  - by eexists.
Defined.

Lemma InitGroupMembers_bounds_witness :
  wp True (InitGroupMembers member_string) (λ _ m', map_Forall member_ok m')
    (map_Forall member_ok) ∅.
Proof. apply (InitGroupMembers_bounds member_string ∅). apply map_Forall_empty. Defined.

(** ** Storage and clients *)

Lemma DiskStorage_correct_witness :
  wp False (DiskStorage.Get "a") (λ v s', s' = db0 ∧ ds_contents db0 !! "a" = Some v)
    (λ s', s' = db0) db0.
Proof. apply (proj1 (DiskStorage_correct db0 eq_refl ltac:(by eexists))). Defined.

Definition addr2 : SockAddress.t := SockAddress.mk "10.0.0.2" 5002.

Lemma GetClient_cached_witness :
  let c := make_client (Some 0) addr2 300 "" in
  let s := ClientMgr.mk {[2 := c]} [c] in
  GetClient 2 None addr2 7 "x" false s = Ok (Some c) s.
Proof.
  apply (GetClient_cached 2 (Some 0) addr2 300 "" true ClientMgr.empty). by vm_compute.
Defined.

Lemma GetClient_correct_witness :
  wp False (GetClient 2 (Some 0) addr2 300 "" true)
    (λ c s', connects_counted s' ∧ mgr_le ClientMgr.empty s' ∧
             c = ClientMgr.rpc_cli_mgr_ s' !! 2 ∧ (true = true → is_Some c))
    (λ s', ClientMgr.rpc_cli_mgr_ s' = ∅) ClientMgr.empty.
Proof. apply (GetClient_correct 2 (Some 0) addr2 300 "" true ClientMgr.empty). done. Defined.

(** ** Peers applying entries *)

Lemma ProcessEntries_refines_witness :
  let x := ctx0 true [prop1; prop2] in
  wp False (Peer.ProcessEntries [put_entry 1; get_entry 2 "b"])
    (λ _ x', contents (cx_db x') =
               log_apply (contents (cx_db x)) [put_entry 1; get_entry 2 "b"] ∧
             cx_raft x' = cx_raft x ∧ ctx_ok x' ∧ frame x x')
    (aborted x) x.
Proof.
  apply (ProcessEntries_refines [put_entry 1; get_entry 2 "b"] (ctx0 true [prop1; prop2])).
  apply ctx0_ok, live12.
Defined.

Definition apply_to (es : list Entry.t) (x : Peer.Ctx DiskStorage.t) : Peer.Ctx DiskStorage.t :=
  after_run (Peer.ProcessEntries es x) x.

Lemma replicas_agree_witness :
  let x := ctx0 true [prop1; prop2] in let y := ctx0 false [] in
  contents (cx_db (apply_to [get_entry 2 "b"] (apply_to [put_entry 1] x))) =
  contents (cx_db (apply_to [] (apply_to [put_entry 1; get_entry 2 "b"] y))).
Proof.
  apply (replicas_agree [put_entry 1] [get_entry 2 "b"] [put_entry 1; get_entry 2 "b"] []
    (ctx0 true [prop1; prop2]) (apply_to [put_entry 1] (ctx0 true [prop1; prop2]))
    (apply_to [get_entry 2 "b"] (apply_to [put_entry 1] (ctx0 true [prop1; prop2])))
    (ctx0 false []) (apply_to [put_entry 1; get_entry 2 "b"] (ctx0 false []))
    (apply_to [] (apply_to [put_entry 1; get_entry 2 "b"] (ctx0 false [])))).
  - apply ctx0_ok, live12.
  - apply ctx0_ok, live_nil.
  - reflexivity.
  - reflexivity.
  - apply ran. vm_compute. reflexivity.
  - apply ran. vm_compute. reflexivity.
  - apply ran. vm_compute. reflexivity.
  - apply ran. vm_compute. reflexivity.
Defined.

Lemma commits_put_get :
  commits_all (contents (cx_db (ctx0 true [prop1; prop2]))) [prop1; prop2]
    [put_entry 1; get_entry 2 "b"].
Proof.
  split; [|split; [|exact I]]; (split_and!; [reflexivity|reflexivity| |intros _; split; [reflexivity|]]).
  - vm_compute. auto.
  - exact I.
  - vm_compute. auto.
  - vm_compute. by eexists.
Defined.

Lemma leader_answers_witness :
  let x := ctx0 true [prop1; prop2] in
  ∃ x', Peer.ProcessEntries [put_entry 1; get_entry 2 "b"] x = Ok () x' ∧
    cx_props x' = [] ∧ cx_runs x' = cx_runs x ++ dones [prop1; prop2] ∧
    ∀ k p e r, [prop1; prop2] !! k = Some p → [put_entry 1; get_entry 2 "b"] !! k = Some e →
      Mem.resps (Peer.mem x) !! Proposal.resp p = Some r →
      answered (Proposal.done p) (Proposal.resp p)
        (kv_answer (log_apply (contents (cx_db x)) (take k [put_entry 1; get_entry 2 "b"]))
           (decode e) r)
        (Mem.trace (Peer.mem x')).
Proof.
  apply (leader_answers [prop1; prop2] [put_entry 1; get_entry 2 "b"] [] (ctx0 true [prop1; prop2])).
  - apply ctx0_ok, live12.
  - reflexivity.
  - reflexivity.
  - decide_now.
  - apply commits_put_get.
Defined.

(** A proposal of an earlier index waits before the Get, and one behind it. *)
Lemma propose_then_commit_witness :
  let prop0 := Proposal.mk 0 1 2 12 in
  let x := ctx0 true [prop0] in
  let y := ctx0 true [prop0; prop1; prop3] in
  (∃ x1, Peer.ProposeKvOp (KvReq.of_get "a") 1 11 x = Ok () x1 ∧ cx_props x1 = [prop0; prop1]) ∧
  ∃ y2, Peer.ProcessEntry (get_entry 1 "a") y = Ok () y2 ∧ cx_props y2 = [prop3] ∧
    cx_runs y2 = cx_runs y ++ [12] ++ [11] ∧
    contents (cx_db y2) = kv_apply (contents (cx_db y)) (KvReq.of_get "a") ∧
    answered 11 1 (kv_answer (contents (cx_db y)) (KvReq.of_get "a") KvResp.default)
      (Mem.trace (Peer.mem y2)).
Proof.
  intros prop0 x y.
  destruct (propose_then_commit (KvReq.of_get "a") (raw_encode (KvReq.of_get "a")) 1 11 x)
    as (x1 & E1 & Hq1 & _ & _ & _ & Hcommit); [reflexivity|reflexivity|].
  split; [by exists x1|]. apply (Hcommit y [prop0] [prop3]).
  - apply ctx0_ok. unfold live. decide_now.
  - reflexivity.
  - reflexivity.
  - decide_now.
  - reflexivity.
  - decide_now.
  - by left.
  - by eexists.
Defined.

Lemma Tick_correct_witness :
  wp False Peer.Tick
    (λ _ x', peer_inv x' ∧ callback tick_raft (tick_entries (raft0 true)) (ctx0 true []) x')
    (aborted (ctx0 true [])) (ctx0 true []).
Proof. apply (Tick_correct (ctx0 true [])), ctx0_inv. Defined.

Lemma Tick_sends_witness :
  let x := ctx0 true [] in
  let sent ms x' := ∃ pks, outbox (Peer.mem x') = outbox (Peer.mem x) ++ pks ∧
    Forall2 (carries (Peer.self_ (Peer.peer x)) (Peer.peers_ (Peer.peer x))) ms pks in
  wp False Peer.Tick
    (λ _ x', sent (tick_messages (cx_raft x)) x')
    (λ x', ∃ k, sent (take k (tick_messages (cx_raft x))) x') x.
Proof.
  apply (Tick_sends (ctx0 true [])); [apply ctx0_inv|].
  intros h c Hc. simpl in Hc. by rewrite lookup_empty in Hc.
Defined.

Lemma ProposeKvOp_correct_witness :
  let x := ctx0 true [] in
  wp False (Peer.ProposeKvOp (KvReq.of_get "a") 1 11)
    (λ _ x', peer_inv x' ∧ Peer.mem x' = Peer.mem x ∧ cx_db x' = cx_db x ∧
             cx_raft x' = (Propose (SerializeToString (KvReq.of_get "a")).2 (cx_raft x)).2 ∧
             cx_props x' = cx_props x ++
               (if Peer.IsLeader (Peer.peer x)
                then [Proposal.mk (u64 (LastIndex (cx_raft x) + 1)) (term (cx_raft x)) 1 11]
                else []))
    (λ x', x' = x) x.
Proof.
  apply (ProposeKvOp_correct (KvReq.of_get "a") 1 11 (ctx0 true [])); [apply ctx0_inv|].
  by eexists.
Defined.

(** ** Off the usual path *)

Lemma follower_rejects_all_witness :
  rejected_all [prop1; prop2] (ctx0 false [prop1; prop2])
    (apply_to [put_entry 1] (ctx0 false [prop1; prop2])).
Proof.
  apply (follower_rejects_all (put_entry 1) [] (ctx0 false [prop1; prop2])).
  - apply ctx0_ok, live12.
  - reflexivity.
  - apply ran. vm_compute. reflexivity.
Defined.

Lemma poisonous_entry_aborts_witness :
  ∃ msg x', Peer.ProcessEntries [get_entry 1 "absent"] (ctx0 false []) = Abort msg x'.
Proof.
  apply (poisonous_entry_aborts (get_entry 1 "absent") [] (ctx0 false [])).
  - reflexivity.
  - apply ctx0_ok, live_nil.
  - split; [reflexivity|]. right. left. split; [reflexivity|]. by vm_compute.
Defined.

Lemma ProcessEntries_total_witness :
  let x := ctx0 false [] in
  ∃ x', Peer.ProcessEntries [put_entry 1; get_entry 2 "b"] x = Ok () x' ∧
        contents (cx_db x') = log_apply (contents (cx_db x)) [put_entry 1; get_entry 2 "b"].
Proof.
  apply (ProcessEntries_total [put_entry 1; get_entry 2 "b"] (ctx0 false [])).
  - apply ctx0_ok, live_nil.
  - split; [|split; [|exact I]]; intros _; split; [reflexivity|exact I|reflexivity|].
    vm_compute. by eexists.
Defined.

(** The database of [ctx0] holds what the first two entries of the log made. *)
Definition old_log : list Entry.t :=
  [Entry.mk kEntryNormal 1 1 (raw_encode (KvReq.of_put "a" "1")); get_entry 2 "a"].

Lemma replay_recovers_witness :
  ∃ x', Peer.ProcessEntries (old_log ++ [put_entry 3; get_entry 4 "b"]) (ctx0 false []) = Ok () x' ∧
        contents (cx_db x') = log_apply ∅ (old_log ++ [put_entry 3; get_entry 4 "b"]).
Proof.
  apply (replay_recovers old_log _ (ctx0 false [])).
  - apply ctx0_ok, live_nil.
  - by vm_compute.
  - by apply prefix_app_r.
  - repeat (split; [intros _; split; [reflexivity|vm_compute; by try eexists]|]). exact I.
Defined.

Definition noop_entry : Entry.t := Entry.mk kEntryNormal 1 1 "".

Lemma invalid_command_unanswered_witness :
  Peer.ProcessEntry noop_entry (ctx0 true [prop1]) = Ok () (ctx0 true []).
Proof.
  apply (invalid_command_unanswered noop_entry prop1 [] (ctx0 true [prop1])); try reflexivity.
  apply ctx0_ok. unfold live. decide_now.
Defined.

(** Its encoding is longer than the raft node accepts. *)
Definition large_put : KvReq.t := KvReq.of_put "k" "a value of many bytes".

Lemma dropped_proposal_misattributed_witness :
  let x := ctx0 true [] in
  ∃ x1 x2 x3,
    Peer.ProposeKvOp large_put 1 11 x = Ok () x1 ∧
    Peer.ProposeKvOp (KvReq.of_get "a") 2 12 x1 = Ok () x2 ∧
    Peer.ProcessEntry (get_entry 1 "a") (with_raft (raft0 true) x2) = Ok () x3 ∧
    cx_runs x3 = cx_runs x ++ [11] ∧ dones (cx_props x3) = [12] ∧
    (position <$> cx_props x3) = [(1, 1)] ∧
    answered 11 1 (kv_answer (contents (cx_db x)) (KvReq.of_get "a") KvResp.default)
      (Mem.trace (Peer.mem x3)).
Proof.
  apply (dropped_proposal_misattributed large_put (raw_encode large_put) 1 11
    (KvReq.of_get "a") (raw_encode (KvReq.of_get "a")) 2 12 (ctx0 true [])
    (raft0 true) (raft0 true)); try reflexivity.
  - apply simple_codec_laws.
  - apply ctx0_ok, live_nil.
  - by eexists.
  - by left.
  - by eexists.
Defined.

(** ** The host and its services *)

Definition flags0 (peer_id : Z) : ServerFlags.t :=
  ServerFlags.mk 1 peer_id "10.0.0.1" 5001 member_string 0 0 "info" "./host".
Definition storage0 : mem_storage := Snapshot.default.
Definition start_server (peer_id : Z) : outcome filesystem Process.t :=
  EchoServer.main storage0 (Some 0) (flags0 peer_id) ∅.
Definition server0 (peer_id : Z) : Process.t :=
  result (start_server peer_id)
    (Process.start (PeerHost.ctor (EchoServer.host_option storage0 None (flags0 0))) ∅).
Definition sys0 (peer_id : Z) : Sys.t := Sys.init (server0 peer_id).

(** A step of the system that returns. *)
Lemma sys_step_ran l s : Sys.enabled l s → is_Ok (Sys.exec l s) = true →
  Sys.step s (after_run (Sys.exec l s) s).
Proof. intros He Hr. exists l. split; [done|]. by apply ran. Defined.

Lemma running0 peer_id :
  is_Ok (start_server peer_id) = true → running storage0 (Some 0) (flags0 peer_id) (sys0 peer_id).
Proof.
  intros Hr. exists (member_table members0), ∅. exists (server0 peer_id), (after_run (start_server peer_id) ∅).
  split_and!; [by vm_compute|by apply ran_value|apply rtc_refl].
Defined.

Lemma running_step peer_id s l :
  running storage0 (Some 0) (flags0 peer_id) s → Sys.enabled l s →
  is_Ok (Sys.exec l s) = true →
  running storage0 (Some 0) (flags0 peer_id) (after_run (Sys.exec l s) s).
Proof.
  intros (ms & f & w & f' & Hms & E & Hreach) He Hr. exists ms, f, w, f'.
  split_and!; [done..|]. eapply rtc_r; [exact Hreach|]. by apply sys_step_ran.
Defined.

Lemma CheckFlags_correct_witness :
  EchoServer.CheckFlags (flags0 1) tt = Ok () tt ∧ valid_flags (flags0 1) ∨
  (∃ msg, EchoServer.CheckFlags (flags0 1) tt = Abort msg tt) ∧ ¬ valid_flags (flags0 1).
Proof. apply (CheckFlags_correct eq_refl (flags0 1) tt). Defined.

Lemma main_correct_witness :
  wp False (EchoServer.main storage0 (Some 0) (flags0 1))
    (λ w _, valid_flags (flags0 1) ∧
            serving storage0 (Some 0) (flags0 1) (member_table members0) w) (λ _, True) ∅.
Proof.
  apply (main_correct eq_refl storage0 (Some 0) storage0); try done; by vm_compute.
Defined.

(** A client request to the running server. *)
Definition request0 : Sys.label := Sys.LKvRequest (KvReq.of_get "a") 1 11.


Lemma running1 : running storage0 (Some 0) (flags0 1) (sys0 1).
Proof. apply running0. by vm_compute. Defined.

(** After the request of a client reached the event loop. *)
Definition sys1 (peer_id : Z) : Sys.t :=
  after_run (Sys.exec request0 (sys0 peer_id)) (sys0 peer_id).

Lemma running2 : running storage0 (Some 0) (flags0 2) (sys1 2).
Proof.
  apply running_step; [apply running0; by vm_compute| |by vm_compute].
  split; [by vm_compute|apply not_elem_of_nil].
Defined.

Lemma server_never_undefined_witness :
  (∃ s', Sys.exec request0 (sys0 1) = Ok () s' ∧ running storage0 (Some 0) (flags0 1) s') ∨
  (∃ msg s', Sys.exec request0 (sys0 1) = Abort msg s').
Proof.
  apply (server_never_undefined eq_refl storage0 (Some 0) storage0 eq_refl eq_refl
    ltac:(by eexists) (flags0 1) (sys0 1) request0 running1).
  split; [by vm_compute|apply not_elem_of_nil].
Defined.

(** When the host is gone a tick is pending, and it calls a destroyed peer. *)
Lemma leaving_main_witness :
  ∃ st what, Shutdown.leave_n 3 (Shutdown.start (sys0 1)) = Ok () st ∧
    Shutdown.event (Sys.LTick 0) st = Ub what.
Proof.
  destruct (leaving_main eq_refl storage0 (Some 0) storage0 eq_refl eq_refl
    ltac:(by eexists) (flags0 1) (sys0 1) 3 running1 ltac:(lia))
    as (p & db & st & _ & _ & Hst & _ & Hev & Htick).
  destruct (Hev (Sys.LTick 0) (Htick ltac:(lia))) as [what Hw]. by exists st, what.
Defined.

Lemma closures_run_once_witness :
  (NoDup (all_dones (Sys.proc (sys1 2))) ∧
   all_dones (Sys.proc (sys1 2)) ⊆+ Sys.given (sys1 2)) ∧
  ∀ l msg s', Sys.enabled l (sys1 2) → Sys.exec l (sys1 2) = Abort msg s' →
    NoDup (all_dones (Sys.proc s')) ∧ all_dones (Sys.proc s') ⊆+ Sys.given s'.
Proof.
  apply (closures_run_once eq_refl storage0 (Some 0) storage0 eq_refl eq_refl
    ltac:(by eexists) (flags0 2) (sys1 2) running2).
Defined.

Lemma running_rpc_calls_witness :
  Mem.calls (Process.mem (Sys.proc (sys1 2))) =
    issued (Mem.trace (Process.mem (Sys.proc (sys1 2)))) ∖ Sys.completed (sys1 2).
Proof.
  apply (running_rpc_calls eq_refl storage0 (Some 0) storage0 eq_refl eq_refl
    ltac:(by eexists) (flags0 2) (sys1 2) running2).
Defined.

Lemma kv_request_needs_peer_one_witness :
  ∃ s', Sys.exec (Sys.LTask 0) (sys1 2) = Abort "peer should exist" s'.
Proof.
  apply (kv_request_needs_peer_one eq_refl storage0 (Some 0) storage0 eq_refl eq_refl
    ltac:(by eexists) (flags0 2) (sys1 2) 0 (KvReq.of_get "a") 1 11 running2); [done|].
  by vm_compute.
Defined.

(** The peer of the server once it took a request as the leader. *)
Definition sys2 : Sys.t := after_run (Sys.exec (Sys.LTask 0) (sys1 1)) (sys1 1).

Lemma running_sys2 : running storage0 (Some 0) (flags0 1) sys2.
Proof.
  apply running_step; [apply running_step; [exact running1| |by vm_compute]| |by vm_compute].
  - split; [by vm_compute|apply not_elem_of_nil].
  - vm_compute. by eexists.
Defined.

Definition peer2 : Peer.t DiskStorage.t := default (peer0 true []) (Process.objs (Sys.proc sys2) !! 0).

Lemma running_queue_sorted_witness :
  queue_sorted (Peer.proposals_ peer2) ∧
  Forall (proposed_by (Peer.raw_node_ peer2)) (Peer.proposals_ peer2) ∧
  live (Process.mem (Sys.proc sys2)) (Peer.proposals_ peer2).
Proof.
  apply (running_queue_sorted eq_refl storage0 (Some 0) storage0 eq_refl eq_refl
    ltac:(by eexists) (flags0 1) sys2 0 peer2 running_sys2).
  unfold peer2. destruct (Process.objs (Sys.proc sys2) !! 0) eqn:E; [done|].
  exfalso. assert (bool_decide (is_Some (Process.objs (Sys.proc sys2) !! 0)) = true) as Hb
    by by vm_compute.
  apply bool_decide_eq_true in Hb. rewrite E in Hb. by apply is_Some_None in Hb.
Defined.

(** Its queue is not empty. *)
Example peer2_proposal : Peer.proposals_ peer2 = [prop1].
Proof. by vm_compute. Qed.

(** Two requests are pending; the tick hands out both entries. *)
Definition next (l : Sys.label) (s : Sys.t) : Sys.t := after_run (Sys.exec l s) s.
Definition put_label (k : string) (resp d : Z) : Sys.label :=
  Sys.LKvRequest (KvReq.of_put k "1") resp d.
Definition sys3 : Sys.t :=
  next (Sys.LTask 0) (next (put_label "b" 2 12) (next (Sys.LTask 0) (next (put_label "a" 1 11) (sys0 1)))).
Definition sys4 : Sys.t := next (Sys.LTick 0) sys3.

Lemma running_sys3 : running storage0 (Some 0) (flags0 1) sys3.
Proof.
  apply running_step; [apply running_step; [apply running_step; [apply running_step;
    [exact running1| |by vm_compute]| |by vm_compute]| |by vm_compute]| |by vm_compute].
  - split; decide_now.
  - vm_compute. by eexists.
  - split; decide_now.
  - vm_compute. by eexists.
Defined.

Definition peer_of (s : Sys.t) : Peer.t DiskStorage.t :=
  default (peer0 true []) (Process.objs (Sys.proc s) !! 0).

Lemma committed_entry_settles_witness :
  (prop1 ∉ Peer.proposals_ (peer_of sys4)) ∧
  (answerable_at (position prop1) (tick_entries (Peer.raw_node_ (peer_of sys3))) →
   11 ∈ runs (Mem.trace (Process.mem (Sys.proc sys4)))).
Proof.
  assert (Peer.proposals_ (peer_of sys3) = [prop1; Proposal.mk 2 1 2 12]) as Hq by by vm_compute.
  assert (∃ e0, tick_entries (Peer.raw_node_ (peer_of sys3)) =
    [e0; Entry.mk kEntryNormal 1 2 (raw_encode (KvReq.of_put "b" "1"))]) as [e0 He]
    by (vm_compute; by eexists).
  eapply (committed_entry_settles eq_refl storage0 (Some 0) storage0 eq_refl eq_refl
    ltac:(by eexists) (flags0 1) sys3 0 sys4 100 0 (peer_of sys3) (peer_of sys4) prop1
    (Entry.mk kEntryNormal 1 2 (raw_encode (KvReq.of_put "b" "1"))) running_sys3).
  - by vm_compute.
  - apply default_Some. by vm_compute.
  - apply ran. by vm_compute.
  - apply default_Some. by vm_compute.
  - rewrite Hq. by left.
  - rewrite He. right. by left.
  - right. split; by vm_compute.
Defined.

Lemma closures_accounted_witness :
  12 ∈ all_dones (Sys.proc sys3) ∨
  ∃ s0 l s1, running storage0 (Some 0) (flags0 1) s0 ∧ Sys.enabled l s0 ∧
    Sys.exec l s0 = Ok () s1 ∧ rtc Sys.step s1 sys3 ∧ dropped_by l s0 12.
Proof.
  apply (closures_accounted eq_refl storage0 (Some 0) storage0 eq_refl eq_refl
    ltac:(by eexists) (flags0 1) sys3 12 running_sys3).
  decide_now.
Defined.

Definition dup_peer : PeerOption.t :=
  EchoServer.peer_option (flags0 1) (EchoServer.host_option storage0 (Some 0) (flags0 1)).

Lemma AddLocalPeer_errors_witness :
  AddLocalPeer dup_peer (server0 1) = Abort "RaftNode already existed" (server0 1).
Proof.
  apply (proj1 (AddLocalPeer_errors eq_refl dup_peer (server0 1))).
  vm_compute. by eexists.
Defined.

Lemma AddLocalPeer_table_witness :
  let h := PeerHost.ctor (EchoServer.host_option storage0 (Some 0) (flags0 1)) in
  let w := Process.start h ∅ in
  let w' := after_run (AddLocalPeer dup_peer w) w in
  table_ok w' ∧
  dom (PeerHost.local_peers_ (Process.host w')) = {[PeerOption.peer_id dup_peer]} ∪ ∅.
Proof.
  intros h w w'.
  assert (AddLocalPeer dup_peer w = Ok () w') as E by (apply ran; by vm_compute).
  destruct (AddLocalPeer_table eq_refl dup_peer w w') as (Ht & Hd & _); [|exact E|].
  - intros pid a Hl. simpl in Hl. by rewrite lookup_empty in Hl.
  - split; [exact Ht|exact Hd].
Defined.

Lemma KvOpCb_correct_witness :
  KvOpCb (KvReq.of_get "a") 1 11 (server0 2) = Abort "peer should exist" (server0 2).
Proof.
  apply (proj1 (KvOpCb_correct (KvReq.of_get "a") 1 11 (server0 2) eq_refl)). by vm_compute.
Defined.

Definition raft_msg0 : RaftMsgReq.t :=
  RaftMsgReq.mk (PeerMeta.mk 2 1) (PeerMeta.mk 7 1)
    (Message.mk kMsgHeartbeat 1 2 1 0 0 [] 0 None false 0 "").

Lemma HandleRaftMsg_correct_witness :
  HandleRaftMsg raft_msg0 11 (server0 1) = Abort "send to wrong host" (server0 1).
Proof.
  apply (proj1 (HandleRaftMsg_correct raft_msg0 11 (server0 1) 0 eq_refl ltac:(by vm_compute))).
  by vm_compute.
Defined.

(** ** The client *)

Lemma client_main_correct_witness :
  wp False (EchoClient.main (ClientFlags.mk "10.0.0.1" 5001 "put" "a" "1" "info") (Some 0))
    (λ _ s', sent_command (ClientFlags.mk "10.0.0.1" 5001 "put" "a" "1" "info") s')
    (λ s', KvClient.sent s' = []) KvClient.start.
Proof.
  apply (client_main_correct (ClientFlags.mk "10.0.0.1" 5001 "put" "a" "1" "info") (Some 0)).
  reflexivity.
Defined.

Lemma run_callback_correct_witness :
  (@None string = None ∧ KvResp.rejected KvResp.default = false ∧
     run_callback KvClient.GetCb_ None KvResp.default KvClient.start =
       Ok (Exited 0) KvClient.start) ∨
  ((is_Some (@None string) ∨ KvResp.rejected KvResp.default = true) ∧
     ∃ msg, run_callback KvClient.GetCb_ None KvResp.default KvClient.start =
              Abort msg KvClient.start).
Proof.
  apply (run_callback_correct KvClient.GetCb_ None KvResp.default KvClient.start eq_refl).
Defined.
