(* ===== verification/ClusterWitness.v ===== *)
(** * ClusterWitness: a run of two servers

    Two servers with the raft node of ReplRaft.  The first leads: it takes a
    Put and a Get of a client, and its messages bring the second up to date.
    The theorems about clusters are applied to the state they reach. *)
From S2P Require Import Prelude Wire RpcClient Runtime CString Storage Members Raft Config.
From S2P Require Import Proposals HostClients Peer KvSpec PeerSafety PeerQueue Outbox RaftNet Host.
From S2P Require Import HostLaws Services System Hosting Truth EchoServer Cluster RealTime Linear.
From S2P Require Import Final Owed Instances ReplRaft.

(** ** Running a cluster *)

Section run.
Context (flags : gmap Z ServerFlags.t).
Implicit Types (C : gmap Z server).

(** Executable tests of what may happen. *)
Definition enabledb (l : Sys.label) (s : Sys.t) : bool :=
  let w := Sys.proc s in
  match l with
  | Sys.LKvRequest _ resp d =>
      bool_decide (Mem.resps (Process.mem w) !! resp = None) && bool_decide (d ∉ Sys.given s)
  | Sys.LRaftRequest _ d => bool_decide (d ∉ Sys.given s)
  | Sys.LTask i => bool_decide (is_Some (Process.tasks w !! i))
  | Sys.LTick i => bool_decide (is_Some (Process.timers w !! i))
  | Sys.LRpcDone _ _ => false
  end.

Lemma enabledb_ok l s : enabledb l s = true → Sys.enabled l s.
Proof.
  destruct l; simpl; rewrite ?andb_true_iff, ?bool_decide_eq_true; done.
Qed.

(** A step of server [i] that is no message, or the delivery to it of the
    [k]-th request server [j] has sent. *)
Inductive action : Type := Act (i : Z) (l : Sys.label) | Deliver (j : Z) (k : nat) (i d : Z).

Definition move C (i : Z) (l : Sys.label) : option (gmap Z server) :=
  match flags !! i, C !! i with
  | Some fl, Some (Server s true log G) =>
      match enabledb l s, Sys.exec l s with
      | true, Ok _ s' =>
          Some (<[i := Server s' true (log ++ handed_out l s) (ghost_step l s G)]> C)
      | _, _ => None
      end
  | _, _ => None
  end.

Definition perform C (a : action) : option (gmap Z server) :=
  match a with
  | Act i l => match l with Sys.LRaftRequest _ _ => None | _ => move C i l end
  | Deliver j k i d =>
      sv ← C !! j; pk ← server_outbox sv !! k; fl ← flags !! i;
      if decide (RpcClient.peer_addr pk.1 = listens fl)
      then move C i (Sys.LRaftRequest pk.2 d) else None
  end.

Lemma move_step C i l C' :
  move C i l = Some C' →
  match l with
  | Sys.LRaftRequest req _ => ∀ fl, flags !! i = Some fl → on_wire C fl req
  | _ => True
  end → cluster_step flags C C'.
Proof.
  unfold move. destruct (flags !! i) as [fl|] eqn:Hfl; [|done].
  destruct (C !! i) as [[s [|] log G]|] eqn:Hi; [|done..].
  destruct (enabledb l s) eqn:He; [|done]. destruct (Sys.exec l s) as [[] s'| | |] eqn:E; try done.
  intros [= <-] Hw. eapply cl_return; [exact Hfl|exact Hi| |exact E].
  split; [by apply enabledb_ok|]. destruct l; auto.
Qed.

Lemma perform_step C a C' : perform C a = Some C' → cluster_step flags C C'.
Proof.
  destruct a as [i l|j k i d]; simpl.
  - intros Hm. destruct l; try done; by eapply move_step.
  - destruct (C !! j) as [sv|] eqn:Hj; [|done]. simpl.
    destruct (server_outbox sv !! k) as [[c req]|] eqn:Hk; [|done]. simpl.
    destruct (flags !! i) as [fl|] eqn:Hfl; [|done]. simpl. case_decide as Ha; [|done].
    intros Hm. eapply move_step; [exact Hm|]. intros fl' Hfl'. assert (fl' = fl) as -> by congruence.
    exists j, sv, c. split_and!; [done| |done]. by eapply list_elem_of_lookup_2.
Qed.

Fixpoint perform_all C (l : list action) : option (gmap Z server) :=
  match l with
  | [] => Some C
  | a :: l' => C' ← perform C a; perform_all C' l'
  end.

Lemma perform_all_steps C l C' : perform_all C l = Some C' → rtc (cluster_step flags) C C'.
Proof.
  revert C. induction l as [|a l IH]; intros C; simpl; [by intros [= ->]|].
  destruct (perform C a) as [C1|] eqn:E; [|done]. simpl. intros Hl.
  eapply rtc_l; [by eapply perform_step|by apply IH].
Qed.
End run.

(** ** The cluster *)

Definition group : list GroupMember.t :=
  [GroupMember.mk 1 1 "10.0.0.1" 5001; GroupMember.mk 2 1 "10.0.0.2" 5002].
Definition group_string : string := "1,1,10.0.0.1,5001|2,1,10.0.0.2,5002".
Definition flags_of (i : Z) (ip : string) (port : Z) : ServerFlags.t :=
  ServerFlags.mk i 1 ip port group_string 0 0 "info" "./host".
Definition group_flags : gmap Z ServerFlags.t :=
  {[1 := flags_of 1 "10.0.0.1" 5001; 2 := flags_of 2 "10.0.0.2" 5002]}.
Definition empty_storage : mem_storage := Snapshot.default.

Definition boot (fl : ServerFlags.t) : outcome filesystem Process.t :=
  EchoServer.main empty_storage (Some 0) fl ∅.
Definition booted (fl : ServerFlags.t) : server :=
  Server (Sys.init (result (boot fl)
    (Process.start (PeerHost.ctor (EchoServer.host_option empty_storage None fl)) ∅)))
    true [] (Ghost [] []).
Definition cluster0 : gmap Z server := booted <$> group_flags.

(** A Put at the first server, the message to the second, a Get at the first. *)
Definition script : list action :=
  [Act 1 (Sys.LKvRequest (KvReq.of_put "a" "1") 1 11); Act 1 (Sys.LTask 0);
   Act 1 (Sys.LTick 0); Deliver 1 0 2 21].
Definition script' : list action :=
  [Act 2 (Sys.LTask 0); Act 2 (Sys.LTick 0);
   Act 1 (Sys.LKvRequest (KvReq.of_get "a") 2 12); Act 1 (Sys.LTask 0); Act 1 (Sys.LTick 0)].

Definition cluster1 : gmap Z server := default ∅ (perform_all group_flags cluster0 script).
Definition cluster2 : gmap Z server := default ∅ (perform_all group_flags cluster1 script').

(** The hypotheses of the theorems. *)

Lemma group_members : InitGroupMembers group_string ∅ = Ok () (member_table group).
Proof. by vm_compute. Defined.

Lemma group_flags_cases i fl :
  group_flags !! i = Some fl →
  (i = 1 ∧ fl = flags_of 1 "10.0.0.1" 5001) ∨ (i = 2 ∧ fl = flags_of 2 "10.0.0.2" 5002).
Proof.
  unfold group_flags. rewrite lookup_insert_Some, lookup_singleton_Some. naive_solver.
Defined.

Lemma group_configured : configured group_flags (member_table group).
Proof.
  split.
  - intros i fl [[-> ->]|[-> ->]]%group_flags_cases; exact group_members.
  - by intros i fl [[-> ->]|[-> ->]]%group_flags_cases.
  - by intros i fl [[-> ->]|[-> ->]]%group_flags_cases; vm_compute.
  - assert (map_Forall (λ i g, map_Forall (λ j g', addr_of g = addr_of g' → i = j)
      (member_table group)) (member_table group)) as Ha by decide_now.
    intros i j g g' Hi Hj. exact (Ha i g Hi j g' Hj).
Defined.

Lemma boots i fl : group_flags !! i = Some fl → is_Ok (boot fl) = true.
Proof. by intros [[_ ->]|[_ ->]]%group_flags_cases; vm_compute. Defined.

(** The databases of a server hold nothing. *)
Definition dbs_empty (sv : server) : bool :=
  bool_decide (map_Forall (λ _ p, ds_contents (Peer.kv_db_ p) = (∅ : kv_map))
    (Process.objs (Sys.proc (cs_sys sv)))).

Lemma cluster0_start :
  cluster_start eq_refl empty_storage (Some 0) group_flags ∅ cluster0.
Proof.
  intros i sv. unfold cluster0. rewrite lookup_fmap_Some. intros (fl & <- & Hfl).
  exists fl, ∅, (Sys.proc (cs_sys (booted fl))), (after_run (boot fl) ∅).
  pose proof (boots _ _ Hfl) as Hb. split_and!; [done|by apply ran_value|done|].
  assert (dbs_empty (booted fl) = true) as Hdb.
  { by destruct (group_flags_cases _ _ Hfl) as [[_ ->]|[_ ->]]; vm_compute. }
  apply bool_decide_eq_true in Hdb. intros a p Ha. exact (Hdb a p Ha).
Defined.

Lemma cluster1_steps : rtc (cluster_step group_flags) cluster0 cluster1.
Proof. apply (perform_all_steps _ _ script), default_Some. by vm_compute. Defined.
Lemma cluster2_steps : rtc (cluster_step group_flags) cluster1 cluster2.
Proof. apply (perform_all_steps _ _ script'), default_Some. by vm_compute. Defined.

#[local] Abbreviation reachable := (cluster_reachable eq_refl empty_storage (Some 0) group_flags ∅).

Lemma cluster1_reachable : reachable cluster1.
Proof. exists cluster0. split; [exact cluster0_start|exact cluster1_steps]. Defined.
Lemma cluster2_reachable : reachable cluster2.
Proof.
  exists cluster0. split; [exact cluster0_start|]. etrans; [exact cluster1_steps|exact cluster2_steps].
Defined.

(** The server of a host, in the shape the theorems have it. *)
Definition no_server : server := booted (flags_of 1 "" 0).
Definition server_at (C : gmap Z server) (i : Z) : server := default no_server (C !! i).

Lemma server_at_lookup C i : bool_decide (is_Some (C !! i)) = true → C !! i = Some (server_at C i).
Proof. intros [sv Hsv]%bool_decide_eq_true. unfold server_at. by rewrite Hsv. Defined.

Lemma lookup_server_at C i sv : C !! i = Some sv → sv = server_at C i.
Proof. intros Hsv. unfold server_at. by rewrite Hsv. Defined.

Lemma server_at_up C i :
  bool_decide (is_Some (C !! i)) && cs_up (server_at C i) = true →
  C !! i = Some (Server (cs_sys (server_at C i)) true (cs_log (server_at C i))
                   (cs_ghost (server_at C i))).
Proof.
  intros [H1 H2]%andb_true_iff. rewrite (server_at_lookup _ _ H1). f_equal. revert H2.
  generalize (server_at C i). by intros [s [|] log G].
Defined.

(** ** The theorems at this run *)

Lemma cluster_agreement_witness :
  comparable (cs_log (server_at cluster2 1)) (cs_log (server_at cluster2 2)).
Proof.
  eapply (cluster_agreement eq_refl empty_storage (Some 0) group_flags ∅ (member_table group)
    group_configured Snapshot.default eq_refl eq_refl ltac:(by eexists) cluster2
    cluster2_reachable); apply server_at_lookup; by vm_compute.
Defined.

(** The second server has the Put, the first one also the Get. *)
Example cluster2_logs :
  length (cs_log (server_at cluster2 1)) = 2%nat ∧ length (cs_log (server_at cluster2 2)) = 1%nat.
Proof. split; by vm_compute. Qed.

(** The closure of the Get ran with this store. *)
Definition trace_at (C : gmap Z server) (i : Z) : list Event :=
  Mem.trace (Process.mem (Sys.proc (cs_sys (server_at C i)))).
Definition run_with (tr : list Event) (d : DonePtr) : option (gmap Z KvResp.t) :=
  head (tr ≫= λ ev, match ev with EvRun d' h => if decide (d' = d) then [h] else []
                                | EvRaftRpc _ _ _ => [] end).

Lemma run_with_elem tr d :
  bool_decide (is_Some (run_with tr d)) = true → EvRun d (default ∅ (run_with tr d)) ∈ tr.
Proof.
  intros [h Hh]%bool_decide_eq_true. rewrite Hh. simpl. unfold run_with in Hh.
  apply head_Some_elem_of, list_elem_of_bind in Hh as ([d' h'|c rq k] & Hin & Hev); [|set_solver].
  case_decide; [|set_solver]. apply list_elem_of_singleton in Hin as ->. by subst.
Defined.

Lemma cluster_answers_witness :
  let sv := server_at cluster2 1 in
  ∃ r, default ∅ (run_with (trace_at cluster2 1) 12) !! 2 = Some r ∧
    (KvResp.rejected r = true ∨
     ∃ k e, cs_log sv !! k = Some e ∧
       r = kv_answer (log_apply ∅ (take k (cs_log sv))) (decode e) KvResp.default ∧
       ∀ pos, (12, pos) ∈ accepted (cs_ghost sv) →
         entry_pos e = pos ∧ decode e = KvReq.of_get "a").
Proof.
  eapply (cluster_answers eq_refl empty_storage (Some 0) group_flags ∅ (member_table group)
    group_configured Snapshot.default eq_refl eq_refl ltac:(by eexists) cluster2 1
    (server_at cluster2 1) (KvReq.of_get "a") 2 12 _ cluster2_reachable).
  - apply server_at_lookup. by vm_compute.
  - decide_now.
  - apply run_with_elem. by vm_compute.
Defined.

(** The Get comes in after the Put was answered, and sees it. *)
Lemma cluster_real_time_witness :
  ∃ r, default ∅ (run_with (trace_at cluster2 1) 12) !! 2 = Some r ∧
    (KvResp.rejected r = true ∨
     ∃ es, cs_log (server_at cluster1 1) ++ es `prefix_of` cs_log (server_at cluster2 1) ∧
       r = kv_answer (log_apply ∅ (cs_log (server_at cluster1 1) ++ es)) (KvReq.of_get "a")
             KvResp.default).
Proof.
  eapply (cluster_real_time eq_refl empty_storage (Some 0) group_flags ∅ (member_table group)
    group_configured Snapshot.default eq_refl eq_refl ltac:(by eexists) cluster1 cluster2 1
    (server_at cluster1 1) 1 (server_at cluster2 1) (KvReq.of_get "a") 2 12 (1, 2) _
    cluster1_reachable cluster2_steps).
  - apply server_at_lookup. by vm_compute.
  - apply server_at_lookup. by vm_compute.
  - decide_now.
  - decide_now.
  - intros sv ->%lookup_server_at. decide_now.
  - apply run_with_elem. by vm_compute.
Defined.

Example cluster2_answer :
  (r ← default ∅ (run_with (trace_at cluster2 1) 12) !! 2;
   Some (KvResp.rejected r, GetResp.value <$> KvResp.f_get_resp r)) = Some (false, Some "1"%string).
Proof. by vm_compute. Qed.

(** The two requests of the script are the operations of the cluster. *)
Definition put_op : op := Op 1 11 (KvReq.of_put "a" "1").
Definition get_op : op := Op 1 12 (KvReq.of_get "a").

Lemma cluster_linearizable_witness :
  ∃ lin, linearizes eq_refl empty_storage (Some 0) group_flags ∅ cluster2 lin.
Proof.
  apply (cluster_linearizable eq_refl empty_storage (Some 0) group_flags ∅ (member_table group)
    group_configured Snapshot.default eq_refl eq_refl ltac:(by eexists) cluster2
    cluster2_reachable).
Defined.

Example cluster2_linearization :
  omap (entry_op cluster2) (cs_log (server_at cluster2 1)) = [put_op; get_op].
Proof. by vm_compute. Qed.

Lemma cluster_messages_handled_witness :
  ∃ s', Sys.exec (Sys.LTask 0) (cs_sys (server_at cluster1 2)) = Ok () s'.
Proof.
  eapply (cluster_messages_handled eq_refl empty_storage (Some 0) group_flags ∅ (member_table group)
    group_configured Snapshot.default eq_refl eq_refl ltac:(by eexists) cluster1 2
    (flags_of 2 "10.0.0.2" 5002) (cs_sys (server_at cluster1 2))
    (cs_log (server_at cluster1 2)) (cs_ghost (server_at cluster1 2)) (Sys.LTask 0)
    cluster1_reachable).
  - apply server_at_up. by vm_compute.
  - by vm_compute.
  - split; [|done]. apply enabledb_ok. by vm_compute.
  - vm_compute. by eexists _, _.
Defined.

Definition peer_at (C : gmap Z server) (i : Z) : option (Peer.t DiskStorage.t) :=
  Process.objs (Sys.proc (cs_sys (server_at C i))) !! 0.

(** The response of the Put, after the Get has been answered too. *)
Lemma answers_final_witness :
  let sv := server_at cluster2 1 in
  Mem.resps (Process.mem (Sys.proc (cs_sys sv))) !! 1 =
    default ∅ (run_with (trace_at cluster2 1) 11) !! 1 ∧
  (∀ req' d', TKvOpCb req' 1 d' ∉ Process.tasks (Sys.proc (cs_sys sv))) ∧
  ∃ s', Sys.exec (Sys.LTick 0) (freed sv) = Ok () s'.
Proof.
  intros sv. destruct (answers_final eq_refl empty_storage (Some 0) group_flags ∅ (member_table group)
    group_configured Snapshot.default eq_refl eq_refl ltac:(by eexists) cluster2 1 sv
    (KvReq.of_put "a" "1") 1 11 (default ∅ (run_with (trace_at cluster2 1) 11))
    cluster2_reachable) as [Hr Hup].
  - apply server_at_lookup. by vm_compute.
  - decide_now.
  - apply run_with_elem. by vm_compute.
  - destruct Hup as (_ & Ht & Hf); [by vm_compute|]. split; [exact Hr|]. split; [exact Ht|].
    destruct (Hf (Sys.LTick 0)) as [Hok|(msg & s' & Hbad)]; [|exact Hok|exfalso].
    + apply (bool_decide_unpack _). vm_compute. exact I.
    + apply (f_equal is_Ok) in Hbad. vm_compute in Hbad. discriminate Hbad.
Defined.

(** The Get is behind the Put in the log of the first server: it is answered. *)
Lemma no_answer_owed_witness : ∃ h, EvRun 11 h ∈ trace_at cluster2 1.
Proof.
  destruct (peer_at cluster2 1) as [p|] eqn:Hp.
  - destruct (no_answer_owed eq_refl empty_storage (Some 0) group_flags ∅ (member_table group)
      group_configured Snapshot.default eq_refl eq_refl ltac:(by eexists) cluster2 1
      (cs_sys (server_at cluster2 1)) (cs_log (server_at cluster2 1))
      (cs_ghost (server_at cluster2 1)) 0 p (KvReq.of_put "a" "1") 1 11 (1, 1) cluster2_reachable)
      as [Hran|(pr & _ & _ & _ & Hb)];
      [apply server_at_up; by vm_compute|exact Hp|decide_now|decide_now|decide_now|exact Hran|].
    exfalso. assert (Forall (λ e, ¬ lex_lt (1, 1) (entry_pos e)) (cs_log (server_at cluster2 1)))
      as Hall by (apply Forall_forall; exact Hb).
    assert (bool_decide (Forall (λ e, ¬ lex_lt (1, 1) (entry_pos e))
      (cs_log (server_at cluster2 1))) = false) as Hn by by vm_compute.
    exact (bool_decide_eq_false_1 _ Hn Hall).
  - assert (bool_decide (is_Some (peer_at cluster2 1)) = true) as Hs by by vm_compute.
    rewrite Hp in Hs. discriminate Hs.
Defined.
