(* ===== verification/ClientsWitness.v ===== *)
(** * ClientsWitness: two runs of the client beside two servers

    The first run puts a value; after it has exited a second run gets the key
    and receives that value; in a second session the response to the Put is
    still on its way when the Get is answered.  The servers are those of
    ClusterWitness. *)
From S2P Require Import Prelude Wire RpcClient Runtime CString Storage Members Raft Config.
From S2P Require Import Proposals HostClients Peer KvSpec PeerSafety PeerQueue Outbox RaftNet Host.
From S2P Require Import HostLaws Services System Traces Hosting Truth EchoServer Cluster RealTime.
From S2P Require Import Linear EchoClient Clients Instances ReplRaft ClusterWitness.

(** ** Running clients and servers *)

Section run.
Context (flags : gmap Z ServerFlags.t).
Implicit Types (W : world).

(** Steps of the servers; a run of the client; the arrival of its [n]-th
    request at a server, with the response and the closure it is given; the
    response to its [n]-th operation. *)
Inductive world_action : Type :=
  | Servers (l : list action)
  | Launch (k : Z) (fl : ClientFlags.t)
  | Request (k : Z) (n : nat) (i : Z) (resp : RespPtr) (d : DonePtr)
  | Response (k : Z) (n : nat).

(** The response the closure of the operation ran on. *)
Definition reply_to (C : gmap Z server) (o : op) : option KvResp.t :=
  sv ← C !! op_server o;
  rq ← head (filter (λ a, a.2 = op_done o ∧ a.1.1 = op_req o) (asked (cs_ghost sv)));
  h ← run_with (server_trace sv) (op_done o);
  h !! rq.1.2.

Definition world_perform W (a : world_action) : option world :=
  let C := wd_cluster W in
  let K := wd_clients W in
  match a with
  | Servers l => C' ← perform_all flags C l; Some (World C' K)
  | Launch k fl =>
      match K !! k with
      | None => c ← launch fl (Some 0); Some (World C (<[k := c]> K))
      | Some _ => None
      end
  | Request k n i resp d =>
      c ← K !! k; rq ← KvClient.sent (cp_state c) !! n; fl ← flags !! i;
      if decide (RpcClient.peer_addr (KvClient.to rq) = listens fl) then
        C' ← move flags C i (Sys.LKvRequest (KvClient.req rq) resp d);
        Some (World C' (<[k := Client (cp_flags c) (cp_state c)
          (cp_ops c ++ [(rq, Op i d (KvClient.req rq))]) (cp_end c)]> K))
      else None
  | Response k n =>
      c ← K !! k; ro ← cp_ops c !! n; r ← reply_to C ro.2;
      match cp_end c with
      | Waiting => Some (World C (<[k := called_back c ro.1 None r (Some (ro.2, r))]> K))
      | _ => None
      end
  end.

Lemma reply_to_replied C o r : reply_to C o = Some r → replied C o r.
Proof.
  unfold reply_to. destruct (C !! op_server o) as [sv|] eqn:Hi; [|done]. simpl.
  destruct (head (filter _ _)) as [[[req resp] d]|] eqn:Ha; [|done]. simpl.
  apply head_Some_elem_of, list_elem_of_filter in Ha as [[Hd Hreq] Ha]. simpl in Hd, Hreq. subst.
  destruct (run_with _ _) as [h|] eqn:Hrun; [|done]. simpl. intros Hr.
  exists sv, resp, h. split_and!; [done|done| |done].
  replace h with (default ∅ (run_with (server_trace sv) (op_done o))) by by rewrite Hrun.
  apply run_with_elem. apply bool_decide_eq_true. by exists h.
Qed.

Lemma move_arrives C i rq fl resp d C' :
  flags !! i = Some fl → RpcClient.peer_addr (KvClient.to rq) = listens fl →
  move flags C i (Sys.LKvRequest (KvClient.req rq) resp d) = Some C' →
  arrives_at flags C i rq (Op i d (KvClient.req rq)) C'.
Proof.
  intros Hfl Haddr. unfold move. rewrite Hfl.
  destruct (C !! i) as [[s [|] log G]|] eqn:Hi; [|done..].
  destruct (enabledb _ s) eqn:He; [|done].
  destruct (Sys.exec _ s) as [[] s'| | |] eqn:E; try done.
  intros [= <-]. exists fl, s, log, G, resp, s'. do 4 (split; [done|]).
  split; [exact (enabledb_ok _ _ He)|]. done.
Qed.

Lemma servers_steps C C' K :
  rtc (cluster_step flags) C C' → rtc (world_step flags) (World C K) (World C' K).
Proof. induction 1; [done|]. eapply rtc_l; [by apply wd_servers|done]. Qed.

Lemma world_perform_step W a W' :
  world_perform W a = Some W' → rtc (world_step flags) W W'.
Proof.
  destruct W as [C K], a as [l|k fl|k n i resp d|k n]; simpl.
  - destruct (perform_all _ _ _) as [C'|] eqn:E; [|done]. intros [= <-].
    by eapply servers_steps, perform_all_steps.
  - destruct (K !! k) eqn:Hk; [done|]. destruct (launch _ _) eqn:E; [|done]. intros [= <-].
    apply rtc_once. by eapply wd_launch.
  - destruct (K !! k) as [c|] eqn:Hk; [|done]. simpl.
    destruct (KvClient.sent _ !! n) as [rq|] eqn:Hrq; [|done]. simpl.
    destruct (flags !! i) as [fl|] eqn:Hfl; [|done]. simpl. case_decide as Ha; [|done].
    destruct (move _ _ _ _) as [C'|] eqn:E; [|done]. intros [= <-]. apply rtc_once.
    eapply wd_request; [done|by eapply list_elem_of_lookup_2|by eapply move_arrives].
  - destruct (K !! k) as [c|] eqn:Hk; [|done]. simpl.
    destruct (cp_ops c !! n) as [[rq o]|] eqn:Ho; [|done]. simpl.
    destruct (reply_to C o) as [r|] eqn:Hr; [|done]. simpl.
    destruct (cp_end c) eqn:He; [|done..]. intros [= <-]. apply rtc_once.
    eapply wd_response; [done..|by eapply list_elem_of_lookup_2|by apply reply_to_replied].
Qed.

Fixpoint world_perform_all W (l : list world_action) : option world :=
  match l with
  | [] => Some W
  | a :: l' => W' ← world_perform W a; world_perform_all W' l'
  end.

Lemma world_perform_all_steps W l W' :
  world_perform_all W l = Some W' → rtc (world_step flags) W W'.
Proof.
  revert W. induction l as [|a l IH]; intros W; simpl; [by intros [= ->]|].
  destruct (world_perform W a) as [W1|] eqn:E; [|done]. simpl. intros Hl.
  etrans; [by eapply world_perform_step|by apply IH].
Qed.
End run.

(** ** A Put and then a Get *)

Definition put_flags : ClientFlags.t := ClientFlags.mk "10.0.0.1" 5001 "put" "a" "1" "info".
Definition get_flags : ClientFlags.t := ClientFlags.mk "10.0.0.1" 5001 "get" "a" "" "info".

Definition world0 : world := World cluster0 ∅.
Definition session : list world_action :=
  [Launch 1 put_flags; Request 1 0 1 1 11; Servers (tail script); Response 1 0;
   Launch 2 get_flags; Servers (take 2 script'); Request 2 0 1 2 12; Servers (drop 3 script');
   Response 2 0].
Definition world1 : world := default world0 (world_perform_all group_flags world0 session).

Definition exit_of (W : world) (k : Z) : option (Z * op * option string) :=
  c ← wd_clients W !! k;
  match cp_end c with
  | Exit code (Some (o, r)) => Some (code, o, GetResp.value <$> KvResp.f_get_resp r)
  | _ => None
  end.

Example session_exits :
  exit_of world1 1 = Some (0, put_op, None) ∧ exit_of world1 2 = Some (0, get_op, Some "1"%string).
Proof. split; by vm_compute. Qed.

Lemma world1_reachable :
  world_reachable eq_refl empty_storage (Some 0) group_flags ∅ world1.
Proof.
  exists cluster0. split; [exact cluster0_start|].
  apply (world_perform_all_steps _ _ session), default_Some. by vm_compute.
Defined.

Lemma clients_linearizable_witness :
  ∃ lin, explains eq_refl empty_storage (Some 0) group_flags ∅ world1 lin.
Proof.
  apply (clients_linearizable eq_refl empty_storage (Some 0) group_flags ∅ (member_table group)
    group_configured Snapshot.default eq_refl eq_refl ltac:(by eexists) world1 world1_reachable).
Defined.

(** ** The first run has not got its response yet *)

Definition slow_session : list world_action :=
  [Launch 1 put_flags; Request 1 0 1 1 11; Servers (tail script);
   Launch 2 get_flags; Servers (take 2 script'); Request 2 0 1 2 12; Servers (drop 3 script');
   Response 2 0].
Definition world2 : world := default world0 (world_perform_all group_flags world0 slow_session).

Lemma world2_reachable :
  world_reachable eq_refl empty_storage (Some 0) group_flags ∅ world2.
Proof.
  exists cluster0. split; [exact cluster0_start|].
  apply (world_perform_all_steps _ _ slow_session), default_Some. by vm_compute.
Defined.

Definition client_at (W : world) (k : Z) : client :=
  default (Client put_flags KvClient.start [] Dead) (wd_clients W !! k).

#[local] Instance op_eq_dec : EqDecision op.
Proof. solve_decision. Defined.

Lemma has_op (c : client) (o : op) :
  bool_decide (o ∈ (cp_ops c).*2) = true → ∃ rq, (rq, o) ∈ cp_ops c.
Proof.
  intros Hin%bool_decide_eq_true. apply list_elem_of_fmap in Hin as ([rq ?] & -> & ?). by exists rq.
Defined.

Lemma put_gone_past : gone_past (wd_cluster world2) put_op.
Proof.
  set (sv := server_at (wd_cluster world2) 1).
  assert (wd_cluster world2 !! 1 = Some sv) as Hsv by (apply server_at_lookup; by vm_compute).
  assert (wd_cluster world2 !! 1 = Some (Server (cs_sys sv) true (cs_log sv) (cs_ghost sv))) as Hup
    by (apply server_at_up; by vm_compute).
  assert (Exists (λ e, lex_lt (1, 1) (entry_pos e)) (cs_log sv)) as (e & He & Hlt)%Exists_exists
    by decide_now.
  exists (1, 1), (cs_sys sv), (cs_log sv), (cs_ghost sv), e. split_and!; [|exact Hup|exact He|exact Hlt].
  exists sv, 1. split; [exact Hsv|]. split; decide_now.
Defined.

Lemma waiting_run_ends_witness :
  ∃ r c', replied (wd_cluster world2) put_op r ∧
    world_step group_flags world2 (World (wd_cluster world2) (<[1 := c']> (wd_clients world2))) ∧
    cp_end c' = if KvResp.rejected r then Dead else Exit 0 (Some (put_op, r)).
Proof.
  destruct (has_op (client_at world2 1) put_op) as [rq Hop]; [by vm_compute|].
  apply (waiting_run_ends eq_refl empty_storage (Some 0) group_flags ∅ (member_table group)
    group_configured Snapshot.default eq_refl eq_refl ltac:(by eexists) world2 1
    (client_at world2 1) rq put_op world2_reachable).
  - apply default_Some. by vm_compute.
  - by vm_compute.
  - exact Hop.
  - exact put_gone_past.
Defined.
