(* ===== verification/ObjPool.v ===== *)
(** * ObjPool: the object pool of jrpc (base/obj_pool.h)

    A pool hands out the slots of one block of memory.  A slot is identified by
    its address.  The two [...CheckAndSet] functions are called inside
    [assert], so they run, and keep the books, only in builds with assertions:
    the flag [assertions] is a parameter of the build. *)
From S2P Require Import Prelude.

(** NDEBUG is not defined. *)
Class Build : Type := assertions : bool.

(** [assert(e)] *)
Definition assert_ `{Build} {S} (e : M S bool) : M S unit :=
  if assertions then b ← e; if (b : bool) then mret () else λ s, Abort "assertion failed" s
  else mret ().

Module ObjPool.
Record t : Type := mk {
  free_list_ : option (list Z);   (* None: never assigned *)
  free_list_size_ : nat;
  mem_ptr_ : option Z;
  obj_cnt_ : nat;
  real_size_ : Z;
  malloc_succeed_cnt_ : Z;
  malloc_failed_cnt_ : Z;
  free_cnt_ : Z;
  lowest_free_cnt_ : Z;
  bitmap_ : list bool;
  account_malloc_cnt_ : list Z;
  account_free_cnt_ : list Z;
  obj_size_ : Z
}.

Section ObjPool.
Context `{FatalPolicy} `{Build}.

(** The constructor; [mem] is what posix_memalign returns, None when it fails. *)
Definition ctor (obj_cnt : nat) (obj_size alignment : Z) (mem : option Z) : t :=
  let real_size := u64 ((u64 (obj_size * Z.of_nat obj_cnt - 1) / alignment + 1) * alignment) in
  let zeros := replicate obj_cnt 0 in
  match mem with
  | None =>
      mk None 0 None obj_cnt real_size 0 0 0 (2 ^ 31 - 1) (replicate obj_cnt false)
         zeros zeros obj_size
  | Some m =>
      mk (Some ((λ i, m + Z.of_nat i * obj_size) <$> seq 0 obj_cnt)) obj_cnt (Some m) obj_cnt
         real_size 0 0 0 (2 ^ 31 - 1) (replicate obj_cnt false) zeros zeros obj_size
  end.

(** The destructor frees its arrays and the block. *)
Definition dtor : M t (list (option Z)) := λ s,
  match free_list_ s with
  | None => Ub "free of an uninitialized pointer"
  | Some _ => Ok [mem_ptr_ s] s
  end.

Definition GetIndex (p : Z) (s : t) : Z :=
  let ptr_start := default 0 (mem_ptr_ s) in
  let offset := u64 (p - ptr_start) in
  if u64 (obj_size_ s * Z.of_nat (obj_cnt_ s)) <=? offset then -1
  else if negb (offset mod obj_size_ s =? 0) then -2
  else offset / obj_size_ s.

Definition count_malloc (s : t) : t :=
  mk (free_list_ s) (free_list_size_ s) (mem_ptr_ s) (obj_cnt_ s) (real_size_ s)
     (u64 (malloc_succeed_cnt_ s + 1)) (malloc_failed_cnt_ s) (free_cnt_ s)
     (if Z.of_nat (free_list_size_ s) <? lowest_free_cnt_ s
      then Z.of_nat (free_list_size_ s) else lowest_free_cnt_ s)
     (bitmap_ s) (account_malloc_cnt_ s) (account_free_cnt_ s) (obj_size_ s).

Definition count_malloc_failed (s : t) : t :=
  mk (free_list_ s) (free_list_size_ s) (mem_ptr_ s) (obj_cnt_ s) (real_size_ s)
     (malloc_succeed_cnt_ s) (u64 (malloc_failed_cnt_ s + 1)) (free_cnt_ s)
     (lowest_free_cnt_ s) (bitmap_ s) (account_malloc_cnt_ s) (account_free_cnt_ s)
     (obj_size_ s).

Definition count_free (s : t) : t :=
  mk (free_list_ s) (free_list_size_ s) (mem_ptr_ s) (obj_cnt_ s) (real_size_ s)
     (malloc_succeed_cnt_ s) (malloc_failed_cnt_ s) (u64 (free_cnt_ s + 1))
     (lowest_free_cnt_ s) (bitmap_ s) (account_malloc_cnt_ s) (account_free_cnt_ s)
     (obj_size_ s).

Definition set_bit (i : nat) (b : bool) (s : t) : t :=
  mk (free_list_ s) (free_list_size_ s) (mem_ptr_ s) (obj_cnt_ s) (real_size_ s)
     (malloc_succeed_cnt_ s) (malloc_failed_cnt_ s) (free_cnt_ s) (lowest_free_cnt_ s)
     (<[i := b]> (bitmap_ s))
     (if b then alter (λ n, u64 (n + 1)) i (account_malloc_cnt_ s) else account_malloc_cnt_ s)
     (if b then account_free_cnt_ s else alter (λ n, u64 (n + 1)) i (account_free_cnt_ s))
     (obj_size_ s).

Definition set_free (l : list Z) (n : nat) (s : t) : t :=
  mk (Some l) n (mem_ptr_ s) (obj_cnt_ s) (real_size_ s)
     (malloc_succeed_cnt_ s) (malloc_failed_cnt_ s) (free_cnt_ s) (lowest_free_cnt_ s)
     (bitmap_ s) (account_malloc_cnt_ s) (account_free_cnt_ s) (obj_size_ s).

(* bitmap_[idx]; the index comes from GetIndex *)
Definition bit (i : nat) : M t bool := λ s,
  match bitmap_ s !! i with Some b => Ok b s | None => Ub "bitmap_ out of range" end.

Definition MallocCheckAndSet (p : Z) : M t bool :=
  modify count_malloc ;;
  s ← get_state;
  let idx := GetIndex p s in
  if idx <? 0 then fatal "get idx error" ;; mret false
  else
    b ← bit (Z.to_nat idx);
    if (b : bool) then fatal "double malloc" ;; mret false
    else modify (set_bit (Z.to_nat idx) true) ;; mret true.

Definition FreeCheckAndSet (p : Z) : M t bool :=
  modify count_free ;;
  s ← get_state;
  let idx := GetIndex p s in
  if idx <? 0 then fatal "get idx error" ;; mret false
  else
    b ← bit (Z.to_nat idx);
    if negb b then fatal "double free" ;; mret false
    else modify (set_bit (Z.to_nat idx) false) ;; mret true.

(** The address of the slot, None for nullptr. *)
Definition Malloc : M t (option Z) :=
  s ← get_state;
  match free_list_size_ s with
  | O => modify count_malloc_failed ;; mret None
  | S n =>
      match free_list_ s with
      | None => ub "free_list_ is not initialized"
      | Some l =>
          match l !! n with
          | None => ub "free_list_ out of range"
          | Some ele =>
              put_state (set_free l n s) ;;
              assert_ (MallocCheckAndSet ele) ;;
              mret (Some ele)
          end
      end
  end.

Definition Free (p : Z) : M t unit :=
  assert_ (FreeCheckAndSet p) ;;
  s ← get_state;
  match free_list_ s with
  | None => ub "free_list_ is not initialized"
  | Some l =>
      if decide (free_list_size_ s < length l)%nat
      then put_state (set_free (<[free_list_size_ s := p]> l) (S (free_list_size_ s)) s)
      else ub "write past the end of free_list_"
  end.

Definition left_cnt (s : t) : nat := free_list_size_ s.
End ObjPool.
End ObjPool.

(** ** Specification: a set of allocated slots *)

Import ObjPool.

(** The [i]-th slot of the block at [m]. *)
Definition slot (m size : Z) (i : nat) : Z := m + Z.of_nat i * size.

(** The slots whose bit is [b]. *)
Definition marked (m size : Z) (b : bool) (bits : list bool) (p : Z) : Prop :=
  ∃ i, p = slot m size i ∧ bits !! i = Some b.

Record pool_ok (m size : Z) (s : ObjPool.t) : Prop := {
  po_mem : mem_ptr_ s = Some m;
  po_size : obj_size_ s = size;
  po_pos : 0 < size;
  po_range : 0 ≤ m ∧ m + Z.of_nat (obj_cnt_ s) * size ≤ UINT64_MAX;
  po_list : ∃ l, free_list_ s = Some l ∧ length l = obj_cnt_ s ∧
    (free_list_size_ s ≤ obj_cnt_ s)%nat ∧ NoDup (take (free_list_size_ s) l) ∧
    ∀ p, p ∈ take (free_list_size_ s) l ↔ marked m size false (bitmap_ s) p;
  po_bitmap : length (bitmap_ s) = obj_cnt_ s
}.

Lemma slot_inj m size i j : 0 < size → slot m size i = slot m size j → i = j.
Proof. unfold slot. intros. nia. Qed.

(** What a bit set to [b], or cleared of it, does to the slots with the bit [b]. *)
Lemma marked_insert m size b i bits q :
  (i < length bits)%nat →
  marked m size b (<[i := b]> bits) q ↔ q = slot m size i ∨ marked m size b bits q.
Proof.
  intros Hi. unfold marked. setoid_rewrite list_lookup_insert_Some. split; [naive_solver|].
  intros [->|(j & -> & Hj)]; [naive_solver|]. exists j. split; [done|].
  destruct (decide (i = j)); naive_solver.
Qed.

Lemma marked_clear m size b b' i bits q :
  0 < size → (i < length bits)%nat → b' ≠ b →
  marked m size b (<[i := b']> bits) q ↔ q ≠ slot m size i ∧ marked m size b bits q.
Proof.
  intros Hs Hi Hb. unfold marked. setoid_rewrite list_lookup_insert_Some. split.
  - intros (j & -> & [(_ & Heq & _)|[Hne Hj]]); [done|]. split; [|by eauto].
    intros Heq%slot_inj; [|done]. by apply Hne.
  - intros [Hne (j & -> & Hj)]. exists j. split; [done|]. right. split; [|done]. by intros ->.
Qed.

(** The slots handed out. *)
Definition allocated (m size : Z) (s : ObjPool.t) : Z → Prop :=
  marked m size true (bitmap_ s).

Lemma GetIndex_slot m size s i :
  pool_ok m size s → (i < obj_cnt_ s)%nat → GetIndex (slot m size i) s = Z.of_nat i.
Proof.
  intros [Hm Hs Hp Hr _ _] Hi. unfold GetIndex, slot. rewrite Hm, Hs. simpl.
  replace (m + Z.of_nat i * size - m) with (Z.of_nat i * size) by lia.
  assert (0 ≤ Z.of_nat i * size < Z.of_nat (obj_cnt_ s) * size) as Hb by nia.
  rewrite !u64_small by nia.
  rewrite (proj2 (Z.leb_gt _ _)) by nia.
  rewrite Z_mod_mult, Z.div_mul by lia. done.
Qed.

(** A pointer that is not a slot is recognized. *)
Lemma GetIndex_other m size s p :
  pool_ok m size s → 0 ≤ p ≤ UINT64_MAX → 0 ≤ GetIndex p s →
  ∃ i, (i < obj_cnt_ s)%nat ∧ p = slot m size i ∧ GetIndex p s = Z.of_nat i.
Proof.
  intros [Hm Hs Hp Hr _ _] Hb. unfold GetIndex, slot. rewrite Hm, Hs. simpl.
  rewrite (u64_small (size * _)) by nia.
  destruct (Z.leb_spec (size * Z.of_nat (obj_cnt_ s)) (u64 (p - m))) as [?|Hlt]; [lia|].
  destruct (Z.eqb_spec (u64 (p - m) mod size) 0) as [Hz|]; simpl; [|lia]. intros _.
  pose proof (u64_bounds (p - m)) as Hu.
  assert (u64 (p - m) = p - m) as Heq.
  { destruct (decide (m ≤ p)); [apply u64_small; lia|].
    unfold u64 in *. unfold UINT64_MAX in *.
    rewrite <- (Z_mod_plus_full _ 1), Z.mod_small in Hlt by lia. nia. }
  rewrite Heq in *. exists (Z.to_nat ((p - m) / size)).
  pose proof (Z.div_pos (p - m) size). pose proof (Z_div_exact_full_2 (p - m) size).
  assert ((p - m) / size < Z.of_nat (obj_cnt_ s)) by (apply Z.div_lt_upper_bound; lia).
  split_and!; lia.
Qed.

(** The counters are outside the invariant. *)
Lemma count_malloc_ok m size s : pool_ok m size s → pool_ok m size (count_malloc s).
Proof. intros [? ? ? ? ? ?]. by split. Qed.
Lemma count_malloc_failed_ok m size s :
  pool_ok m size s → pool_ok m size (count_malloc_failed s).
Proof. intros [? ? ? ? ? ?]. by split. Qed.
Lemma count_free_ok m size s : pool_ok m size s → pool_ok m size (count_free s).
Proof. intros [? ? ? ? ? ?]. by split. Qed.

(** What changes the books: bit [i] set to [b], the free stack to [l], [n]. *)
Lemma update_ok m size s i b l n s' :
  pool_ok m size s → (i < obj_cnt_ s)%nat →
  mem_ptr_ s' = mem_ptr_ s → obj_size_ s' = obj_size_ s → obj_cnt_ s' = obj_cnt_ s →
  bitmap_ s' = <[i := b]> (bitmap_ s) → free_list_ s' = Some l → free_list_size_ s' = n →
  length l = obj_cnt_ s → (n ≤ obj_cnt_ s)%nat → NoDup (take n l) →
  (∀ p, p ∈ take n l ↔ marked m size false (<[i := b]> (bitmap_ s)) p) →
  pool_ok m size s'.
Proof.
  intros [Hm Hs Hp Hr Hl Hb] Hi Em Es Ec Eb El En Hlen Hn Hnd Hiff.
  split; rewrite ?Em, ?Es, ?Ec; try done.
  - exists l. by rewrite Eb, En.
  - by rewrite Eb, length_insert.
Qed.

Lemma bitmap_lookup m size s i :
  pool_ok m size s → (i < obj_cnt_ s)%nat → is_Some (bitmap_ s !! i).
Proof. intros Hok Hi. apply lookup_lt_is_Some. by rewrite (po_bitmap _ _ _ Hok). Qed.

Section pool_laws.
Context `{FatalPolicy} `{Build}.
Context (Ha : assertions = true).

(** The check before a slot is handed out: only the bits and the block matter. *)
Lemma MallocCheckAndSet_clear p i s :
  GetIndex p s = Z.of_nat i → bitmap_ s !! i = Some false →
  MallocCheckAndSet p s = Ok true (set_bit i true (count_malloc s)).
Proof.
  intros Hi Hb. unfold MallocCheckAndSet. do 2 (erewrite bind_Ok by reflexivity).
  change (GetIndex p (count_malloc s)) with (GetIndex p s). rewrite Hi.
  rewrite (proj2 (Z.ltb_ge _ _)) by lia.
  rewrite Nat2Z.id. erewrite bind_Ok by (unfold bit; simpl; by rewrite Hb). done.
Qed.

Lemma FreeCheckAndSet_slot m size s i :
  pool_ok m size s → bitmap_ s !! i = Some true →
  FreeCheckAndSet (slot m size i) s = Ok true (set_bit i false (count_free s)).
Proof.
  intros Hok Hb. apply count_free_ok in Hok as Hok'.
  assert (i < obj_cnt_ s)%nat as Hi.
  { rewrite <- (po_bitmap _ _ _ Hok). by apply lookup_lt_Some in Hb. }
  unfold FreeCheckAndSet. do 2 (erewrite bind_Ok by reflexivity).
  rewrite (GetIndex_slot m size) by done. rewrite (proj2 (Z.ltb_ge _ _)) by lia.
  rewrite Nat2Z.id. erewrite bind_Ok by (unfold bit; simpl; by rewrite Hb). done.
Qed.

Lemma assert_true {S} (e : M S bool) s s' : e s = Ok true s' → assert_ e s = Ok () s'.
Proof. intros E. unfold assert_. rewrite Ha. by rewrite (bind_Ok _ _ _ _ _ E). Qed.

(** Popping the free stack yields a slot whose bit is clear. *)
Lemma free_top m size s n l :
  pool_ok m size s → free_list_ s = Some l → free_list_size_ s = S n →
  ∃ i, l !! n = Some (slot m size i) ∧ bitmap_ s !! i = Some false ∧ (n < length l)%nat ∧
       take (S n) l = take n l ++ [slot m size i].
Proof.
  intros Hok Hl Hn. destruct (po_list _ _ _ Hok) as (l' & Hl' & Hlen & Hle & Hnd & Hiff).
  simplify_eq. rewrite Hn in *.
  destruct (lookup_lt_is_Some_2 l n) as [p Hp]; [lia|].
  assert (p ∈ take (S n) l) as (i & -> & Hi)%Hiff.
  { rewrite (take_S_r _ _ p) by done. set_solver. }
  exists i. split_and!; [done|done|lia|by apply take_S_r].
Qed.

Lemma Malloc_refines m size s :
  pool_ok m size s →
  wp False Malloc
    (λ r s', obj_cnt_ s' = obj_cnt_ s ∧ pool_ok m size s' ∧
       match r with
       | None => (∀ p, allocated m size s' p ↔ allocated m size s p) ∧
                 (∀ i, (i < obj_cnt_ s)%nat → allocated m size s (slot m size i))
       | Some p => ¬ allocated m size s p ∧
                   (∃ i, p = slot m size i ∧ (i < obj_cnt_ s)%nat) ∧
                   (∀ q, allocated m size s' q ↔ q = p ∨ allocated m size s q)
       end) (λ _, False) s.
Proof.
  intros Hok. destruct (po_list _ _ _ Hok) as (l & Hl & Hlen & Hle & Hnd & Hiff).
  unfold Malloc. do 2 wp_step. destruct (free_list_size_ s) as [|n] eqn:Hn.
  { do 3 wp_step. split; [done|]. split; [by apply count_malloc_failed_ok|]. split; [done|].
    intros i Hi. destruct (bitmap_lookup m size s i Hok Hi) as [[|] Hb]; [by exists i|].
    assert (slot m size i ∈ take 0 l) as Hin by (apply Hiff; by exists i).
    by apply not_elem_of_nil in Hin. }
  destruct (free_top _ _ _ _ _ Hok Hl Hn) as (i & Hi & Hb & Hlt & Htk).
  rewrite Hl, Hi. do 2 wp_step. set (s1 := set_free l n s).
  pose proof (po_bitmap _ _ _ Hok) as Hbl. pose proof (po_pos _ _ _ Hok) as Hpos.
  assert (i < obj_cnt_ s)%nat as Hic by (rewrite <- Hbl; by apply lookup_lt_Some in Hb).
  wp_step. unfold wp at 1. rewrite (assert_true _ _ _ (MallocCheckAndSet_clear _ i s1
    (GetIndex_slot m size s i Hok Hic) Hb)). wp_step.
  assert (Hnd' := Hnd). rewrite Htk in Hnd'. apply NoDup_app in Hnd' as (Hnd1 & Hdisj & _).
  split; [done|]. split; [|split_and!].
  - eapply (update_ok m size s i true l n); try done; [lia|]. intros p.
    rewrite marked_clear, <- Hiff, Htk, elem_of_app, list_elem_of_singleton by (done || lia).
    specialize (Hdisj p). set_solver.
  - intros (j & Heq%slot_inj & Hj); [|done]. subst. congruence.
  - by exists i.
  - intros q. apply (marked_insert m size true i (bitmap_ s)). lia.
Qed.

Lemma Malloc_total m size s :
  pool_ok m size s →
  ∃ r s', Malloc s = Ok r s' ∧ obj_cnt_ s' = obj_cnt_ s ∧ pool_ok m size s' ∧
    match r with
    | None => (∀ p, allocated m size s' p ↔ allocated m size s p) ∧
              (∀ i, (i < obj_cnt_ s)%nat → allocated m size s (slot m size i))
    | Some p => ¬ allocated m size s p ∧
                (∃ i, p = slot m size i ∧ (i < obj_cnt_ s)%nat) ∧
                (∀ q, allocated m size s' q ↔ q = p ∨ allocated m size s q)
    end.
Proof.
  intros Hok. pose proof (Malloc_refines m size s Hok) as H1. unfold wp in H1.
  destruct (Malloc s) as [r s'| | |]; [|done..]. eauto.
Qed.

(** While a slot is handed out, the free stack has room for it. *)
Lemma free_room m size s i l :
  pool_ok m size s → bitmap_ s !! i = Some true → free_list_ s = Some l →
  (free_list_size_ s < length l)%nat.
Proof.
  intros Hok Hb Hl. destruct (po_list _ _ _ Hok) as (l' & Hl' & Hlen & Hle & Hnd & Hiff).
  simplify_eq. pose proof (po_bitmap _ _ _ Hok) as Hbl.
  assert (i < obj_cnt_ s)%nat as Hic by (rewrite <- Hbl; by apply lookup_lt_Some in Hb).
  apply Nat.nle_gt. intros Hge. rewrite take_ge in * by lia.
  set (others := filter (λ j, j ≠ i) (seq 0 (obj_cnt_ s))).
  assert (length l ≤ length (slot m size <$> others))%nat as Hlen2.
  { apply submseteq_length, list.NoDup_submseteq; [done|]. intros k (j & -> & Hj)%Hiff.
    apply list_elem_of_fmap_2, list_elem_of_filter. split; [by intros ->; congruence|].
    apply elem_of_seq. apply lookup_lt_Some in Hj. lia. }
  assert (length others < length (seq 0 (obj_cnt_ s)))%nat as Hfl
    by (apply (length_filter_lt _ _ i); [apply elem_of_seq; lia|naive_solver]).
  rewrite length_fmap in Hlen2. rewrite length_seq in Hfl. lia.
Qed.

Lemma Free_refines m size s p :
  pool_ok m size s → allocated m size s p →
  ∃ s', Free p s = Ok () s' ∧ pool_ok m size s' ∧ obj_cnt_ s' = obj_cnt_ s ∧
        ∀ q, allocated m size s' q ↔ q ≠ p ∧ allocated m size s q.
Proof.
  intros Hok (i & -> & Hb). pose proof (FreeCheckAndSet_slot _ _ _ _ Hok Hb) as E.
  destruct (po_list _ _ _ Hok) as (l & Hl & Hlen & Hle & Hnd & Hiff).
  pose proof (free_room _ _ _ _ _ Hok Hb Hl) as Hlt.
  pose proof (po_pos _ _ _ Hok) as Hpos. pose proof (po_bitmap _ _ _ Hok) as Hbl.
  assert (i < obj_cnt_ s)%nat as Hic by (rewrite <- Hbl; by apply lookup_lt_Some in Hb).
  unfold Free. erewrite bind_Ok by (by apply assert_true). erewrite bind_Ok by reflexivity.
  simpl. rewrite Hl, decide_True by done. eexists. split; [reflexivity|].
  assert (take (S (free_list_size_ s)) (<[free_list_size_ s := slot m size i]> l) =
          take (free_list_size_ s) l ++ [slot m size i]) as Htk.
  { rewrite (take_S_r _ _ (slot m size i)) by (by apply list_lookup_insert_eq).
    by rewrite take_insert_ge. }
  split; [|split; [done|]].
  - eapply (update_ok m size s i false _ _ _ Hok Hic); try reflexivity; simpl.
    + by rewrite length_insert.
    + lia.
    + rewrite Htk. apply NoDup_app. split_and!; [done| |by apply NoDup_singleton].
      intros j (k & -> & Hk)%Hiff Heq%list_elem_of_singleton%slot_inj; [|done]. congruence.
    + intros p. rewrite marked_insert, <- Hiff, Htk, elem_of_app, list_elem_of_singleton by lia.
      tauto.
  - intros q. apply (marked_clear m size true false i (bitmap_ s)); [done|lia|done].
Qed.

(** A pointer that is not handed out is recognized by the assertion: the program ends
    (in the FATAL record or in the assertion after it). *)
Lemma Free_detects m size s p :
  pool_ok m size s → 0 ≤ p ≤ UINT64_MAX → ¬ allocated m size s p →
  ∃ msg s', Free p s = Abort msg s'.
Proof.
  intros Hok Hp Hna. apply count_free_ok in Hok as Hok'.
  assert (∃ s', (∃ msg, FreeCheckAndSet p s = Abort msg s') ∨ FreeCheckAndSet p s = Ok false s')
    as (s' & Hs').
  { unfold FreeCheckAndSet. do 2 (erewrite bind_Ok by reflexivity).
    destruct (Z.ltb_spec (GetIndex p (count_free s)) 0) as [|Hge].
    - unfold fatal. destruct fatal_aborts eqn:E.
      + exists (count_free s). left. eexists. rewrite bind_eq. done.
      + exists (count_free s). right. by rewrite bind_eq.
    - destruct (GetIndex_other m size _ p Hok' Hp Hge) as (i & Hi & -> & ->).
      rewrite Nat2Z.id. destruct (bitmap_lookup m size _ i Hok' Hi) as [b Hb].
      assert (b = false) as ->. { destruct b; [|done]. exfalso. apply Hna. by exists i. }
      erewrite bind_Ok by (unfold bit; by rewrite Hb). simpl. unfold fatal.
      exists (count_free s). destruct fatal_aborts; rewrite bind_eq; eauto. }
  assert (∃ msg, assert_ (FreeCheckAndSet p) s = Abort msg s') as (msg & E).
  { unfold assert_. rewrite Ha.
    destruct Hs' as [[msg E]|E]; eexists; (etransitivity; [apply bind_eq|by rewrite E]). }
  exists msg, s'. unfold Free. by rewrite bind_eq, E.
Qed.
End pool_laws.

(** The constructor makes a pool whose slots are all free. *)
Lemma pool_ctor_ok n size al m :
  0 < size → 0 ≤ m → m + Z.of_nat n * size ≤ UINT64_MAX →
  pool_ok m size (ctor n size al (Some m)).
Proof.
  intros Hs Hm Hr. split; simpl; try done.
  - eexists. split; [done|]. rewrite length_fmap, length_seq.
    split; [done|]. split; [done|]. split.
    + rewrite take_ge by (by rewrite length_fmap, length_seq).
      apply NoDup_fmap_2_strong; [|apply NoDup_seq].
      intros i j _ _ Heq. by apply (slot_inj m size).
    + intros p. rewrite take_ge by (by rewrite length_fmap, length_seq).
      rewrite list_elem_of_fmap. split.
      * intros (i & -> & Hi%elem_of_seq). exists i. split; [done|].
        apply lookup_replicate_2. lia.
      * intros (i & -> & [_ Hi]%lookup_replicate). exists i. split; [done|].
        apply elem_of_seq. lia.
  - by rewrite length_replicate.
Qed.

(** *** The abstract pool: the set of live slots *)

(** [s] implements a pool of the block at [m] whose live slots are [L]. *)
Definition implements (m size : Z) (s : ObjPool.t) (L : gset Z) : Prop :=
  pool_ok m size s ∧ ∀ p, p ∈ L ↔ allocated m size s p.

(** One call of the pool. *)
Inductive op : Type := OMalloc | OFree (p : Z).

Definition exec `{FatalPolicy} `{Build} (o : op) : M ObjPool.t (option Z) :=
  match o with OMalloc => Malloc | OFree p => Free p ;; mret None end.

(** What a pool of [n] slots promises: it hands out a slot that is not live, nullptr exactly
    when every slot is, and takes back live slots only. *)
Inductive spec (m size : Z) (n : nat) (L : gset Z) : op → option Z → gset Z → Prop :=
| spec_malloc i :
    (i < n)%nat → slot m size i ∉ L →
    spec m size n L OMalloc (Some (slot m size i)) ({[ slot m size i ]} ∪ L)
| spec_exhausted :
    (∀ i, (i < n)%nat → slot m size i ∈ L) → spec m size n L OMalloc None L
| spec_free p : p ∈ L → spec m size n L (OFree p) None (L ∖ {[ p ]}).

(** C38. With assertions, the pool made by the constructor implements the abstract pool with no
    live slot; every call keeps it an implementation, with the result the specification allows;
    and a Free of anything that is not live ends the program. *)
Theorem pool_refines `{FatalPolicy} `{Build} (m size al : Z) (n : nat) :
  assertions = true → 0 < size → 0 ≤ m → m + Z.of_nat n * size ≤ UINT64_MAX →
  implements m size (ctor n size al (Some m)) ∅ ∧
  ∀ s L, implements m size s L → obj_cnt_ s = n →
    (∃ r s' L', exec OMalloc s = Ok r s' ∧ obj_cnt_ s' = n ∧
                implements m size s' L' ∧ spec m size n L OMalloc r L') ∧
    ∀ p, 0 ≤ p ≤ UINT64_MAX →
      if decide (p ∈ L)
      then ∃ s', exec (OFree p) s = Ok None s' ∧ obj_cnt_ s' = n ∧
                 implements m size s' (L ∖ {[ p ]}) ∧ spec m size n L (OFree p) None (L ∖ {[ p ]})
      else ∃ msg s', exec (OFree p) s = Abort msg s'.
Proof.
  intros Ha Hs Hm Hr. split.
  { split; [by apply pool_ctor_ok|]. intros p. split; [set_solver|].
    intros (i & _ & [? _]%lookup_replicate). done. }
  intros s L [Hok HL] Hn. split.
  - destruct (Malloc_total Ha m size s) as (r & s' & E & Hc & Hok' & Hr'); [done..|].
    exists r, s'. destruct r as [p|].
    + destruct Hr' as (Hp & (i & -> & Hi) & Hq). exists ({[ slot m size i ]} ∪ L).
      split_and!; [done|congruence| |constructor; [lia|by rewrite HL]].
      split; [done|]. intros q. rewrite Hq, elem_of_union, HL. set_solver.
    + destruct Hr' as (Hq & Hall). exists L. split_and!; [done|congruence| |].
      * split; [done|]. intros q. by rewrite Hq.
      * constructor. intros i Hi. apply HL, Hall. lia.
  - intros p Hp. case_decide as Hin.
    + destruct (Free_refines Ha m size s p) as (s' & E & Hok' & Hc & Hq); [done|by apply HL|].
      exists s'. unfold exec. rewrite (bind_Ok _ _ _ _ _ E).
      split_and!; [done|congruence| |by constructor].
      split; [done|]. intros q. rewrite Hq, <- HL. set_solver.
    + destruct (Free_detects Ha m size s p) as (msg & s' & E); [done|done|by rewrite <- HL|].
      exists msg, s'. unfold exec. by rewrite bind_eq, E.
Qed.

(** Without assertions nothing keeps the books: a second Free of a slot is accepted, and the
    slot is then handed out twice. *)
Lemma double_free_unnoticed `{FatalPolicy} (b : Build) :
  assertions = false →
  ∃ s, (Malloc ;; Malloc ;; Free 1000 ;; Free 1000 ;; p ← Malloc; q ← Malloc; mret (p, q))
         (ctor 2 8 8 (Some 1000)) = Ok (Some 1000, Some 1000) s.
Proof.
  unfold assertions. intros ->. eexists. vm_compute. reflexivity.
Qed.

Lemma pool_refines_witness :
  let _ : FatalPolicy := true in let _ : Build := true in
  implements 1000 8 (ctor 4 8 8 (Some 1000)) ∅ ∧
  ∀ s L, implements 1000 8 s L → obj_cnt_ s = 4%nat →
    ∃ r s' L', exec OMalloc s = Ok r s' ∧ obj_cnt_ s' = 4%nat ∧
               implements 1000 8 s' L' ∧ spec 1000 8 4 L OMalloc r L'.
Proof.
  intros fp bd.
  destruct (pool_refines 1000 8 8 4) as [H1 H2]; [reflexivity|lia|lia|by vm_compute|].
  split; [exact H1|]. intros s L Hi Hc. exact (proj1 (H2 s L Hi Hc)).
Defined.
