(* ===== verification/Threads.v ===== *)
(** * Threads: mutexes and condition variables (base/thread/mutex.h, condition.h)

    A machine of threads that share one mutex, one condition variable and the
    data they guard.  The code of a thread is the list of the atomic
    instructions it has left, so that a C++ function is the concatenation of
    the functions it calls.  The step relation interleaves the threads in any
    order; a call of the pthread library behaves as POSIX documents it, with
    spurious wake-ups. *)
From S2P Require Import Prelude.

Section machine.
Context {D E : Type}.

(** [Act f] is a piece of code that the mutex guards, on the data; [None] is a failed assertion
    or undefined behaviour.  [Blocked] and [Relock] are the two later stages of [CondWait]. *)
Inductive instr : Type :=
| Lock | Unlock
| SetHolder (self : bool)
| Act (f : D → option (D * option E))
| While (b : D → bool) (body : list instr)
| CondWait | Blocked | Relock
| Signal | Broadcast.

Record machine : Type := Machine {
  owner : option nat;            (* pthread_mutex_t: the thread that holds it *)
  holder_ : Z;                   (* MutexLock::holder_ *)
  data : D;
  threads : list (list instr);
  trace : list E
}.

(** [CurrentThread::tid()] of the [i]-th thread; 0 is nobody. *)
Definition tid (i : nat) : Z := Z.of_nat i + 1.

Definition set_code (i : nat) (c : list instr) (m : machine) : machine :=
  Machine (owner m) (holder_ m) (data m) (<[i := c]> (threads m)) (trace m).
Definition set_owner (o : option nat) (m : machine) : machine :=
  Machine o (holder_ m) (data m) (threads m) (trace m).

(** One step of thread [i], which is at [ins] and has [c] to run after it. *)
Inductive exec (i : nat) (c : list instr) (m : machine) : instr → machine → Prop :=
| exec_lock :
    owner m = None → exec i c m Lock (set_owner (Some i) (set_code i c m))
| exec_relock :
    owner m = None → exec i c m Relock (set_owner (Some i) (set_code i c m))
| exec_unlock :
    owner m = Some i → exec i c m Unlock (set_owner None (set_code i c m))
| exec_set_holder self :
    exec i c m (SetHolder self)
      (Machine (owner m) (if (self : bool) then tid i else 0) (data m)
               (<[i := c]> (threads m)) (trace m))
| exec_act f d e :
    f (data m) = Some (d, e) →
    exec i c m (Act f)
      (Machine (owner m) (holder_ m) d (<[i := c]> (threads m)) (trace m ++ option_list e))
| exec_while_true b body :
    b (data m) = true → exec i c m (While b body) (set_code i (body ++ While b body :: c) m)
| exec_while_false b body :
    b (data m) = false → exec i c m (While b body) (set_code i c m)
| exec_wait :
    owner m = Some i → exec i c m CondWait (set_owner None (set_code i (Blocked :: c) m))
| exec_signal j cj :
    i ≠ j → threads m !! j = Some (Blocked :: cj) →
    exec i c m Signal (set_code j (Relock :: cj) (set_code i c m))
| exec_signal_none :
    (∀ j cj, threads m !! j ≠ Some (Blocked :: cj)) → exec i c m Signal (set_code i c m)
| exec_broadcast :
    exec i c m Broadcast
      (Machine (owner m) (holder_ m) (data m)
         ((λ cj, match cj with Blocked :: cj' => Relock :: cj' | _ => cj end) <$>
            <[i := c]> (threads m)) (trace m)).

(** A step without a spurious wake-up. *)
Definition run_step (m m' : machine) : Prop :=
  ∃ i ins c, threads m !! i = Some (ins :: c) ∧ exec i c m ins m'.

(** [calls] are the codes an idle thread may start. *)
Inductive step (calls : list instr → Prop) (m : machine) : machine → Prop :=
| step_run m' : run_step m m' → step calls m m'
| step_spurious i c :
    threads m !! i = Some (Blocked :: c) → step calls m (set_code i (Relock :: c) m)
| step_call i c :
    threads m !! i = Some [] → calls c → step calls m (set_code i c m).

Definition reachable (calls : list instr → Prop) : machine → machine → Prop := rtc (step calls).

Lemma reachable_ind calls (I : machine → Prop) m0 m :
  I m0 → (∀ m m', I m → step calls m m' → I m') → reachable calls m0 m → I m.
Proof. intros H0 Hs Hr. revert H0. induction Hr; eauto. Qed.

(** ** The classes of mutex.h and condition.h *)

Definition assignHolder : list instr := [SetHolder true].
Definition unassignHolder : list instr := [SetHolder false].
Definition MutexLock_lock : list instr := Lock :: assignHolder.
Definition MutexLock_unlock : list instr := unassignHolder ++ [Unlock].

Definition isLockedByThisThread (i : nat) (m : machine) : bool := holder_ m =? tid i.

(** [UnassignGuard ug(mutex_)] around a block. *)
Definition UnassignGuard (block : list instr) : list instr :=
  unassignHolder ++ block ++ assignHolder.

(** [MutexLockGuard lock(mutex_)] around a block. *)
Definition MutexLockGuard (block : list instr) : list instr :=
  MutexLock_lock ++ block ++ MutexLock_unlock.

Definition Condition_wait : list instr := UnassignGuard [CondWait].
Definition Condition_notify : list instr := [Signal].
Definition Condition_notifyAll : list instr := [Broadcast].
End machine.

Arguments instr : clear implicits.
Arguments machine : clear implicits.

(** Lets thread [i] make the step of [rule] in a concrete run. *)
Ltac run_thread i rule :=
  eapply rtc_l;
  [apply step_run; exists i; do 2 eexists; split; [reflexivity|eapply rule; reflexivity]|simpl].

(** ** Counting threads *)

(** The number of threads whose code satisfies [f]. *)
Definition count {A} (f : A → bool) (l : list A) : nat := length (filter (λ x, f x = true) l).

Lemma count_nil {A} (f : A → bool) : count f [] = 0%nat.
Proof. done. Qed.

Lemma count_cons {A} (f : A → bool) x l : count f (x :: l) = (Nat.b2n (f x) + count f l)%nat.
Proof. unfold count. rewrite filter_cons. by destruct (f x). Qed.

Lemma count_insert {A} (f : A → bool) l i x y :
  l !! i = Some x → (count f (<[i := y]> l) + Nat.b2n (f x) = count f l + Nat.b2n (f y))%nat.
Proof.
  revert i. induction l as [|z l IH]; intros [|i] Hl; simplify_eq/=; rewrite !count_cons.
  - lia.
  - specialize (IH i Hl). lia.
Qed.

Lemma count_pos {A} (f : A → bool) l :
  (0 < count f l)%nat → ∃ i x, l !! i = Some x ∧ f x = true.
Proof.
  induction l as [|z l IH]; [rewrite count_nil; lia|]. rewrite count_cons.
  destruct (f z) eqn:Ez; [by exists 0%nat, z|].
  intros (i & x & ? & ?)%IH. by exists (S i), x.
Qed.

Lemma count_lookup {A} (f : A → bool) l i x :
  l !! i = Some x → f x = true → (0 < count f l)%nat.
Proof.
  revert i. induction l as [|z l IH]; intros [|i] Hl Hf; simplify_eq/=; rewrite count_cons.
  - rewrite Hf. simpl. lia.
  - specialize (IH i Hl Hf). lia.
Qed.

(** ** The lock invariant

    A program counter [p] stands for the code of a thread; [crit p] says that the thread owns
    the mutex there and [self p] that it is also its holder. *)
Section lock_ok.
Context {P : Type} (crit self : P → bool).

Definition lock_ok (o : option nat) (h : Z) (ps : list P) : Prop :=
  match o with
  | None => h = 0 ∧ ∀ j q, ps !! j = Some q → crit q = false
  | Some i => (∃ p, ps !! i = Some p ∧ crit p = true ∧ h = if self p then tid i else 0) ∧
              ∀ j q, ps !! j = Some q → j ≠ i → crit q = false
  end.

Lemma lock_ok_owner o h ps i p :
  lock_ok o h ps → ps !! i = Some p → crit p = true →
  o = Some i ∧ h = if self p then tid i else 0.
Proof.
  intros Hl Hi Hc. destruct o as [j|]; simpl in Hl.
  - destruct Hl as [(q & Hq & _ & Hh) Ho]. destruct (decide (i = j)) as [->|Hne].
    + by simplify_eq.
    + by rewrite (Ho i p Hi Hne) in Hc.
  - destruct Hl as [_ Ho]. by rewrite (Ho i p Hi) in Hc.
Qed.

Lemma lock_ok_inside o h h' ps i p p' :
  lock_ok o h ps → ps !! i = Some p → crit p = true → crit p' = true →
  h' = (if self p' then tid i else 0) → lock_ok o h' (<[i := p']> ps).
Proof.
  intros Hl Hi Hc Hc' Hh. destruct (lock_ok_owner _ _ _ _ _ Hl Hi Hc) as [-> _].
  destruct Hl as [_ Ho]. split.
  - exists p'. rewrite list_lookup_insert_eq by (eapply lookup_lt_Some; exact Hi). by split_and!.
  - intros j q Hq Hne. rewrite list_lookup_insert_ne in Hq by done. eauto.
Qed.

Lemma lock_ok_outside o h ps i p p' :
  lock_ok o h ps → ps !! i = Some p → crit p = false → crit p' = false →
  lock_ok o h (<[i := p']> ps).
Proof.
  intros Hl Hi Hc Hc'. destruct o as [k|]; simpl in *.
  - destruct Hl as [(q & Hq & Hcq & Hh) Ho]. split.
    + exists q. rewrite list_lookup_insert_ne; [by split_and!|]. intros ->. congruence.
    + intros j q' [(-> & -> & _)|[_ ?]]%list_lookup_insert_Some ?; eauto; congruence.
  - destruct Hl as [-> Ho]. split; [done|].
    intros j q' [(-> & -> & _)|[_ ?]]%list_lookup_insert_Some; eauto.
Qed.

Lemma lock_ok_acquire h ps i p p' :
  lock_ok None h ps → ps !! i = Some p → crit p' = true → self p' = false →
  lock_ok (Some i) h (<[i := p']> ps).
Proof.
  intros [-> Ho] Hi Hc Hs. split.
  - exists p'. rewrite list_lookup_insert_eq by (eapply lookup_lt_Some; exact Hi). rewrite Hs. by split_and!.
  - intros j q Hq Hne. rewrite list_lookup_insert_ne in Hq by done. eauto.
Qed.

Lemma lock_ok_release h ps i p p' :
  lock_ok (Some i) h ps → ps !! i = Some p → crit p = true → self p = false →
  crit p' = false → lock_ok None h (<[i := p']> ps).
Proof.
  intros Hl Hi Hc Hs Hc'. destruct (lock_ok_owner _ _ _ _ _ Hl Hi Hc) as [_ ->].
  rewrite Hs in *. destruct Hl as [_ Ho]. split; [done|].
  intros j q [(-> & -> & _)|[? ?]]%list_lookup_insert_Some; eauto.
Qed.
End lock_ok.
