(* ===== verification/BlockingQueue.v ===== *)
(** * BlockingQueue: the queue between threads (base/blocking_queue.h)

    Any number of threads call [put], [take] and [size], whose codes are programs of the machine
    of Threads.  The invariant names the place of every thread in its code. *)
From S2P Require Import Prelude Threads.

Section queue.
Context `{EqDecision T}.

(** What the calls have done, in the order in which it took effect. *)
Inductive event : Type :=
| EPut (x : T)
| ETake (x : T)
| ESize (n : nat).

#[local] Abbreviation instr := (Threads.instr (list T) event).
#[local] Abbreviation machine := (Threads.machine (list T) event).

Definition empty (q : list T) : bool := match q with [] => true | _ => false end.

Definition push_back (x : T) : instr := Act (λ q, Some (q ++ [x], Some (EPut x))).

(** assert(!queue_.empty()); front; pop_front *)
Definition pop_front : instr :=
  Act (λ q, match q with [] => None | x :: q' => Some (q', Some (ETake x)) end).

Definition read_size : instr := Act (λ q, Some (q, Some (ESize (length q)))).

Definition put (x : T) : list instr := MutexLockGuard (push_back x :: Condition_notify).

Definition take : list instr := MutexLockGuard [While empty Condition_wait; pop_front].

Definition size : list instr := MutexLockGuard [read_size].

(** A call of the queue. *)
Inductive call : Type := CPut (x : T) | CTake | CSize.

Definition call_code (k : call) : list instr :=
  match k with CPut x => put x | CTake => take | CSize => size end.

Definition calls (c : list instr) : Prop := ∃ k, c = call_code k.

(** [n] idle threads around a new queue. *)
Definition ctor (n : nat) : machine := Machine None 0 [] (replicate n []) [].

(** *** The abstract queue: one call at a time *)

Definition apply_event (e : event) (q : list T) : option (list T) :=
  match e, q with
  | EPut x, _ => Some (q ++ [x])
  | ETake x, y :: q' => if decide (x = y) then Some q' else None
  | ETake _, [] => None
  | ESize n, _ => if decide (n = length q) then Some q else None
  end.

(** The queue after the calls of a trace; [None] when a call has a result it cannot have. *)
Definition replay (l : list event) : option (list T) :=
  foldl (λ o e, o ≫= apply_event e) (Some []) l.

(** *** Where a thread can be *)

Inductive pc : Type :=
| PIdle | PLock (k : call) | PAssign (k : call)
| PPush (x : T) | PSignal
| PWhile | PUnassignW | PWait | PBlocked | PRelock | PReassign | PPop
| PSize | PRelease | PUnlock.

Definition body (k : call) : list instr :=
  match k with
  | CPut x => push_back x :: Condition_notify ++ MutexLock_unlock
  | CTake => While empty Condition_wait :: pop_front :: MutexLock_unlock
  | CSize => read_size :: MutexLock_unlock
  end.

Definition code (p : pc) : list instr :=
  match p with
  | PIdle => []
  | PLock k => call_code k
  | PAssign k => assignHolder ++ body k
  | PPush x => body (CPut x)
  | PSignal => Condition_notify ++ MutexLock_unlock
  | PWhile => body CTake
  | PUnassignW => Condition_wait ++ body CTake
  | PWait => CondWait :: assignHolder ++ body CTake
  | PBlocked => Blocked :: assignHolder ++ body CTake
  | PRelock => Relock :: assignHolder ++ body CTake
  | PReassign => assignHolder ++ body CTake
  | PPop => pop_front :: MutexLock_unlock
  | PSize => body CSize
  | PRelease => MutexLock_unlock
  | PUnlock => [Unlock]
  end.

(** The thread holds the mutex. *)
Definition crit (p : pc) : bool :=
  match p with PIdle | PLock _ | PBlocked | PRelock => false | _ => true end.

(** It is also the holder that [holder_] names. *)
Definition self (p : pc) : bool :=
  match p with PAssign _ | PWait | PReassign | PUnlock => false | _ => crit p end.

Definition blocked (p : pc) : bool := match p with PBlocked => true | _ => false end.

(** The thread waits for the mutex. *)
Definition wants (p : pc) : bool := match p with PLock _ | PRelock => true | _ => false end.

(** The thread will wake a taker or look at the queue before it leaves. *)
Definition token (p : pc) : bool :=
  match p with PSignal | PWhile | PRelock | PReassign | PPop => true | _ => false end.

(** What a thread knows about the queue. *)
Definition knows (q : list T) (p : pc) : Prop :=
  match p with PPop => q ≠ [] | PUnassignW | PWait => q = [] | _ => True end.

Record inv (m : machine) (ps : list pc) : Prop := {
  inv_code : threads m = code <$> ps;
  inv_lock : lock_ok crit self (owner m) (holder_ m) ps;
  inv_knows : ∀ i p, ps !! i = Some p → crit p = true → knows (data m) p;
  inv_wake : (0 < count blocked ps → length (data m) ≤ count token ps)%nat;
  inv_replay : replay (trace m) = Some (data m)
}.

Lemma inv_init n : inv (ctor n) (replicate n PIdle).
Proof.
  split; simpl; try done.
  - by rewrite fmap_replicate.
  - split; [done|]. by intros j q [-> _]%lookup_replicate.
  - intros i p [-> _]%lookup_replicate. done.
  - lia.
Qed.

(** What a step of one thread has to keep, next to the number of wake-ups in flight. *)
Lemma inv_thread m m' ps i p p' :
  inv m ps → ps !! i = Some p →
  threads m' = <[i := code p']> (threads m) →
  lock_ok crit self (owner m') (holder_ m') (<[i := p']> ps) →
  knows (data m') p' → (data m' = data m ∨ crit p = true) →
  (0 < count blocked (<[i := p']> ps) → length (data m') ≤ count token (<[i := p']> ps))%nat →
  replay (trace m') = Some (data m') →
  inv m' (<[i := p']> ps).
Proof.
  intros [Hc Hl Hk Hw Hf] Hi Ht Hl' Hk' Hd Hw' Hf'. split; [|done| |done|done].
  - by rewrite Ht, Hc, list_fmap_insert.
  - intros j q [(-> & -> & _)|[Hne Hj]]%list_lookup_insert_Some Hcq; [done|].
    destruct Hd as [->|Hcp]; [by eapply Hk|].
    destruct (lock_ok_owner _ _ _ _ _ _ _ Hl Hi Hcp) as [Ho _].
    destruct (lock_ok_owner _ _ _ _ _ _ _ Hl Hj Hcq) as [Ho' _]. congruence.
Qed.

(** A step that keeps enough wake-ups in flight for the queue it leaves. *)
Lemma inv_advance m m' ps i p p' :
  inv m ps → ps !! i = Some p →
  threads m' = <[i := code p']> (threads m) →
  lock_ok crit self (owner m') (holder_ m') (<[i := p']> ps) →
  knows (data m') p' → (data m' = data m ∨ crit p = true) →
  (blocked p' = true → blocked p = true ∨ data m' = []) →
  (data m' = [] ∨
   length (data m') + Nat.b2n (token p) ≤ length (data m) + Nat.b2n (token p'))%nat →
  replay (trace m') = Some (data m') →
  inv m' (<[i := p']> ps).
Proof.
  intros Hinv Hi Ht Hl' Hk' Hd Hb Hw Hf. eapply inv_thread; try done.
  destruct Hw as [->|Hw]; [simpl; lia|]. intros Hpos.
  pose proof (inv_wake _ _ Hinv) as Hw0.
  pose proof (count_insert token ps i p p' Hi). pose proof (count_insert blocked ps i p p' Hi).
  destruct (blocked p') eqn:Eb; simpl in *; [destruct (Hb eq_refl) as [Hb'|Hb']|].
  - rewrite Hb' in *. simpl in *. lia.
  - rewrite Hb'. simpl. lia.
  - lia.
Qed.

(** A step inside, into or out of the critical section that leaves the queue alone. *)
Lemma inv_move p' m m' ps i p :
  inv m ps → ps !! i = Some p →
  threads m' = <[i := code p']> (threads m) → data m' = data m → trace m' = trace m →
  lock_ok crit self (owner m') (holder_ m') (<[i := p']> ps) →
  knows (data m) p' → (blocked p' = true → blocked p = true ∨ data m = []) →
  (token p = true → token p' = true ∨ data m = []) →
  ∃ ps', inv m' ps'.
Proof.
  intros Hinv Hi Et Ed Ee Hl Hk Hb Ht. exists (<[i := p']> ps).
  eapply inv_advance; try done; rewrite ?Ed, ?Ee; simpl; auto.
  - destruct (token p), (token p'); simpl; try (right; lia).
    destruct Ht as [| ->]; [done|done|by left].
  - apply Hinv.
Qed.

Lemma replay_snoc l e : replay (l ++ [e]) = replay l ≫= apply_event e.
Proof. unfold replay. by rewrite foldl_app. Qed.

(** notify() wakes a taker, or there is none to wake. *)
Lemma inv_signal m ps i j cj :
  inv m ps → ps !! i = Some PSignal → i ≠ j → threads m !! j = Some (Blocked :: cj) →
  ∃ ps', inv (set_code j (Relock :: cj) (set_code i MutexLock_unlock m)) ps'.
Proof.
  intros Hinv Hi Hne Hj. pose proof (inv_lock _ _ Hinv) as Hl.
  rewrite (inv_code _ _ Hinv), list_lookup_fmap in Hj.
  destruct (ps !! j) as [q|] eqn:Hq; simpl in Hj; [|done].
  assert (q = PBlocked ∧ Relock :: cj = code PRelock) as [-> ->].
  { destruct q as [|[]|[]| | | | | | | | | | | | ]; try discriminate Hj.
    split; [done|]. by injection Hj as <-. }
  assert (<[i := PRelease]> ps !! j = Some PBlocked) as Hq' by (by rewrite list_lookup_insert_ne).
  pose proof (count_insert token ps i _ PRelease Hi).
  pose proof (count_insert token _ j _ PRelock Hq').
  pose proof (count_insert blocked ps i _ PRelease Hi).
  pose proof (count_insert blocked _ j _ PRelock Hq'). simpl in *.
  pose proof (inv_wake _ _ Hinv) as Hw.
  destruct (lock_ok_owner _ _ _ _ _ _ _ Hl Hi eq_refl) as [Ho Hh].
  exists (<[j := PRelock]> (<[i := PRelease]> ps)). split; simpl.
  - by rewrite (inv_code _ _ Hinv), !list_fmap_insert.
  - eapply lock_ok_outside; [|exact Hq'|done|done]. by eapply lock_ok_inside.
  - intros k r [(-> & <- & _)|[_ Hr]]%list_lookup_insert_Some Hcr; [done|].
    apply list_lookup_insert_Some in Hr as [(-> & <- & _)|[_ Hr]]; [done|].
    by apply (inv_knows _ _ Hinv k r).
  - lia.
  - apply Hinv.
Qed.

Lemma inv_signal_none m ps i :
  inv m ps → ps !! i = Some PSignal →
  (∀ j cj, threads m !! j ≠ Some (Blocked :: cj)) →
  ∃ ps', inv (set_code i MutexLock_unlock m) ps'.
Proof.
  intros Hinv Hi Hno. pose proof (inv_lock _ _ Hinv) as Hl.
  destruct (lock_ok_owner _ _ _ _ _ _ _ Hl Hi eq_refl) as [Ho Hh].
  exists (<[i := PRelease]> ps). eapply inv_thread; try done; simpl; auto.
  - by eapply lock_ok_inside.
  - intros Hpos. pose proof (count_insert blocked ps i _ PRelease Hi). simpl in *.
    destruct (count_pos blocked ps) as (j & q & Hq & Hb); [lia|].
    destruct q; try discriminate Hb. exfalso.
    eapply (Hno j). by rewrite (inv_code _ _ Hinv), list_lookup_fmap, Hq.
  - apply Hinv.
Qed.

(** A step inside the critical section that leaves the queue alone. *)
Lemma inv_inside p' m m' ps i p :
  inv m ps → ps !! i = Some p → crit p = true → crit p' = true →
  threads m' = <[i := code p']> (threads m) → data m' = data m → trace m' = trace m →
  owner m' = owner m → holder_ m' = (if self p' then tid i else 0) →
  knows (data m) p' → (token p = true → token p' = true ∨ data m = []) →
  ∃ ps', inv m' ps'.
Proof.
  intros Hinv Hi Hc Hc' Et Ed Ee Eo Eh Hk Ht. eapply (inv_move p'); try done.
  - rewrite Eo. eapply lock_ok_inside; [apply Hinv|exact Hi|done..].
  - by destruct p'.
Qed.

(** A step that changes or reads the queue and records it. *)
Lemma inv_event p' e m m' ps i p :
  inv m ps → ps !! i = Some p → crit p = true → self p = true →
  crit p' = true → self p' = true → threads m' = <[i := code p']> (threads m) →
  trace m' = trace m ++ [e] → apply_event e (data m) = Some (data m') →
  owner m' = owner m → holder_ m' = holder_ m → knows (data m') p' →
  (length (data m') + Nat.b2n (token p) ≤ length (data m) + Nat.b2n (token p'))%nat →
  ∃ ps', inv m' ps'.
Proof.
  intros Hinv Hi Hc Hs Hc' Hs' Et Ee Ha Eo Eh Hk Hw. exists (<[i := p']> ps).
  destruct (lock_ok_owner _ _ _ _ _ _ _ (inv_lock _ _ Hinv) Hi Hc) as [_ Hh].
  eapply inv_advance; try done; auto.
  - rewrite Eo. eapply lock_ok_inside; [apply Hinv|exact Hi|done|done|].
    by rewrite Eh, Hh, Hs, Hs'.
  - by destruct p'.
  - by rewrite Ee, replay_snoc, (inv_replay _ _ Hinv).
Qed.

(** Entering and leaving the critical section. *)
Lemma inv_acquire p' m ps i p :
  inv m ps → ps !! i = Some p → owner m = None → crit p' = true → self p' = false →
  knows (data m) p' → (token p = true → token p' = true) →
  ∃ ps', inv (set_owner (Some i) (set_code i (code p') m)) ps'.
Proof.
  intros Hinv Hi Ho Hc Hs Hk Ht. pose proof (inv_lock _ _ Hinv) as Hl. rewrite Ho in Hl.
  eapply (inv_move p'); try done; [by eapply lock_ok_acquire|by destruct p'|by left; auto].
Qed.

Lemma inv_release p' m ps i p :
  inv m ps → ps !! i = Some p → owner m = Some i → crit p = true → self p = false →
  crit p' = false → knows (data m) p' → (blocked p' = true → data m = []) →
  (token p = true → token p' = true ∨ data m = []) →
  ∃ ps', inv (set_owner None (set_code i (code p') m)) ps'.
Proof.
  intros Hinv Hi Ho Hc Hs Hc' Hk Hb Ht. pose proof (inv_lock _ _ Hinv) as Hl. rewrite Ho in Hl.
  eapply (inv_move p'); try done; [by eapply lock_ok_release|by right; auto].
Qed.

(** The instruction at which a thread is when it holds the mutex and names itself. *)
Lemma holds m ps i p :
  inv m ps → ps !! i = Some p → crit p = true → self p = true → holder_ m = tid i.
Proof.
  intros Hinv Hi Hc Hs. destruct (lock_ok_owner _ _ _ _ _ _ _ (inv_lock _ _ Hinv) Hi Hc) as [_ ->].
  by rewrite Hs.
Qed.

(** The steps that touch the queue. *)
Lemma inv_exec_act m m' ps i p f c :
  inv m ps → ps !! i = Some p → code p = Act f :: c → exec i c m (Act f) m' → ∃ ps', inv m' ps'.
Proof.
  intros Hinv Hi Hc Hx. pose proof (inv_knows _ _ Hinv i p Hi) as Hk.
  inversion Hx as [| | | |f' d e Hf| | | | | |]; subst.
  destruct p as [| k | k | x | | | | | | | | | | | ]; simpl in Hc; try done;
    try (by destruct k); injection Hc as <- <-.
  - injection Hf as <- <-. eapply (inv_event PSignal); try done. simpl. rewrite length_app. simpl. lia.
  - pose proof (Hk eq_refl) as Hd. simpl in Hd. destruct (data m) as [|x q] eqn:Eq; [done|].
    injection Hf as <- <-. eapply (inv_event PRelease); try done; simpl; rewrite Eq; simpl; [|lia].
    by rewrite decide_True.
  - injection Hf as <- <-. eapply (inv_event PRelease); try done. simpl. by rewrite decide_True.
Qed.

Lemma inv_exec m m' ps i p ins c :
  inv m ps → ps !! i = Some p → code p = ins :: c → exec i c m ins m' → ∃ ps', inv m' ps'.
Proof.
  intros Hinv Hi Hc Hx. pose proof (inv_knows _ _ Hinv i p Hi) as Hk.
  destruct p as [| k | k | x | | | | | | | | | | | ] eqn:Ep; simpl in Hc; [done|..].
  - (* PLock *) assert (ins = Lock ∧ c = code (PAssign k)) as [-> ->]
      by (destruct k; by injection Hc as <- <-).
    inversion Hx; subst. by eapply inv_acquire.
  - (* PAssign *) injection Hc as <- <-. inversion Hx; subst.
    set (p' := match k with CPut x => PPush x | CTake => PWhile | CSize => PSize end).
    assert (body k = code p') as -> by (by destruct k).
    by eapply (inv_inside p'); try done; destruct k.
  - (* PPush *) injection Hc as <- <-. by eapply inv_exec_act.
  - (* PSignal *) injection Hc as <- <-. inversion Hx; subst;
      [by eapply inv_signal|by eapply inv_signal_none].
  - (* PWhile *) injection Hc as <- <-. pose proof (holds _ _ _ _ Hinv Hi eq_refl eq_refl) as Hh.
    inversion Hx as [| | | | |b bd Hb|b bd Hb| | | |]; subst.
    + assert (data m = []) as Hd by (by destruct (data m)).
      eapply (inv_inside PUnassignW); try done. by right.
    + eapply (inv_inside PPop); try done; [|by left]. intros Hd. by rewrite Hd in Hb.
  - (* PUnassignW *) injection Hc as <- <-. inversion Hx; subst.
    by eapply (inv_inside PWait); try done; apply Hk.
  - (* PWait *) injection Hc as <- <-. inversion Hx; subst.
    by eapply (inv_release PBlocked); try done; intros _; apply Hk.
  - (* PBlocked *) injection Hc as <- <-. inversion Hx.
  - (* PRelock *) injection Hc as <- <-. inversion Hx; subst. by eapply (inv_acquire PReassign).
  - (* PReassign *) injection Hc as <- <-. inversion Hx; subst.
    eapply (inv_inside PWhile); try done. by left.
  - (* PPop *) injection Hc as <- <-. by eapply inv_exec_act.
  - (* PSize *) injection Hc as <- <-. by eapply inv_exec_act.
  - (* PRelease *) injection Hc as <- <-. inversion Hx; subst. by eapply (inv_inside PUnlock).
  - (* PUnlock *) injection Hc as <- <-. inversion Hx; subst. by eapply (inv_release PIdle).
Qed.

Lemma inv_step m m' ps : inv m ps → step calls m m' → ∃ ps', inv m' ps'.
Proof.
  intros Hinv Hst. pose proof (inv_lock _ _ Hinv) as Hl. pose proof (inv_code _ _ Hinv) as Hc.
  assert (∀ i c, threads m !! i = Some c → ∃ p, ps !! i = Some p ∧ code p = c) as Hat.
  { intros i c. rewrite Hc, list_lookup_fmap.
    destruct (ps !! i) as [p|]; simpl; [|done]. intros [= <-]. eauto. }
  destruct Hst as [m' (i & ins & c & Hi & Hx)|i c Hi|i c Hi [k ->]];
    apply Hat in Hi as (p & Hi & Hp).
  - by eapply inv_exec.
  - assert (p = PBlocked ∧ Relock :: c = code PRelock) as [-> ->].
    { destruct p as [|[]|[]| | | | | | | | | | | | ]; try discriminate Hp.
      split; [done|]. by injection Hp as <-. }
    eapply (inv_move PRelock); try done; simpl. by eapply lock_ok_outside.
  - assert (p = PIdle) as -> by (by destruct p as [|[]|[]| | | | | | | | | | | | ]).
    eapply (inv_move (PLock k)); try done; simpl. by eapply lock_ok_outside.
Qed.

Lemma queue_inv n m : reachable calls (ctor n) m → ∃ ps, inv m ps.
Proof.
  apply (reachable_ind calls (λ m, ∃ ps, inv m ps)).
  - eexists. apply inv_init.
  - intros m1 m2 [ps Hinv] Hst. by eapply inv_step.
Qed.

(** A thread inside the critical section can always go on. *)
Lemma inside_can_step m ps i p :
  inv m ps → ps !! i = Some p → crit p = true →
  ∃ ins c m', code p = ins :: c ∧ exec i c m ins m'.
Proof.
  intros Hinv Hi Hcr.
  destruct (lock_ok_owner _ _ _ _ _ _ _ (inv_lock _ _ Hinv) Hi Hcr) as [Ho _].
  pose proof (inv_knows _ _ Hinv i p Hi Hcr) as Hk.
  assert (∃ m', exec i (tail (code p)) m (default Lock (head (code p))) m') as [m' Hx].
  { destruct p as [| k | k | x | | | | | | | | | | | ]; try discriminate Hcr; simpl in *;
      try (eexists; econstructor; done).
    - destruct (decide (0 < count blocked ps)%nat) as [Hpos|Hz].
      + apply count_pos in Hpos as (j & q & Hq & Hb). destruct q; try discriminate Hb.
        assert (i ≠ j) by (intros ->; congruence).
        eexists. apply (exec_signal _ _ _ j (tail (code PBlocked))); [done|].
        by rewrite (inv_code _ _ Hinv), list_lookup_fmap, Hq.
      + eexists. apply exec_signal_none. intros j cj.
        rewrite (inv_code _ _ Hinv), list_lookup_fmap.
        destruct (ps !! j) as [q|] eqn:Hq; simpl; [|done].
        destruct (blocked q) eqn:Hb; [by apply (count_lookup _ _ _ _ Hq) in Hb|].
        by destruct q as [|[]|[]| | | | | | | | | | | | ].
    - destruct (data m) eqn:Hd; eexists; [apply exec_while_true|apply exec_while_false];
        by rewrite Hd.
    - destruct (data m) as [|x q] eqn:Hd; [done|]. eexists. econstructor. by rewrite Hd. }
  destruct (code p) as [|ins c] eqn:Hcp; [by destruct p as [|[]|[]| | | | | | | | | | | | ]|].
  by exists ins, c, m'.
Qed.

Lemma threads_pc m ps i c :
  inv m ps → threads m !! i = Some c → ∃ p, ps !! i = Some p ∧ code p = c.
Proof.
  intros Hinv. rewrite (inv_code _ _ Hinv), list_lookup_fmap.
  destruct (ps !! i) as [p|]; simpl; [|done]. intros [= <-]. eauto.
Qed.

(** A thread can run, or waits in [notEmpty_.wait()] or for the mutex. *)
Lemma thread_progress m ps i ins c :
  inv m ps → threads m !! i = Some (ins :: c) →
  (∃ m', exec i c m ins m') ∨ ins = Blocked ∨
  ((ins = Lock ∨ ins = Relock) ∧ ∃ j, j ≠ i ∧ owner m = Some j).
Proof.
  intros Hinv Hth. destruct (threads_pc _ _ _ _ Hinv Hth) as (p & Hi & Hp).
  pose proof (inv_lock _ _ Hinv) as Hl. destruct (crit p) eqn:Hcr.
  - destruct (inside_can_step _ _ _ _ Hinv Hi Hcr) as (ins' & c' & m' & Hc' & Hx).
    left. exists m'. congruence.
  - assert (ins = Blocked ∨ ins = Lock ∨ ins = Relock) as [->|Hins]; [|by auto|].
    { destruct p as [|[]|[]| | | | | | | | | | | | ]; try discriminate Hcr;
        try discriminate Hp; injection Hp as <- <-; auto. }
    destruct (owner m) as [j|] eqn:Ho.
    + right; right. split; [done|]. exists j. split; [|done]. intros ->.
      destruct Hl as [(q & Hq & Hcq & _) _]. congruence.
    + left. destruct Hins as [->| ->]; eexists; by constructor.
Qed.

(** If no thread can run, the threads are idle or wait on an empty queue. *)
Lemma no_lost_wakeup m ps :
  inv m ps →
  (∃ m', run_step m m') ∨
  ∀ i c, threads m !! i = Some c → c = [] ∨ ∃ c', c = Blocked :: c' ∧ data m = [].
Proof.
  intros Hinv. pose proof (inv_lock _ _ Hinv) as Hl.
  destruct (owner m) as [j|] eqn:Ho.
  { left. destruct Hl as [(q & Hq & Hcq & _) _].
    destruct (inside_can_step _ _ _ _ Hinv Hq Hcq) as (ins & c & m' & Hc & Hx).
    exists m', j, ins, c. split; [|done].
    by rewrite (inv_code _ _ Hinv), list_lookup_fmap, Hq, <- Hc. }
  destruct (decide (0 < count wants ps)%nat) as [Hpos|Hz].
  { left. apply count_pos in Hpos as (j & q & Hq & Hw).
    exists (set_owner (Some j) (set_code j (tail (code q)) m)), j, (default Lock (head (code q))).
    exists (tail (code q)). split; [rewrite (inv_code _ _ Hinv), list_lookup_fmap, Hq|];
      destruct q as [|[]|[]| | | | | | | | | | | | ]; try discriminate Hw; try done;
      by constructor. }
  assert (∀ j q, ps !! j = Some q → q = PIdle ∨ q = PBlocked) as Hidle.
  { intros j q Hq. pose proof (proj2 Hl j q Hq) as Hcr.
    destruct (wants q) eqn:Hw; [by apply (count_lookup _ _ _ _ Hq) in Hw|].
    destruct q as [|[]|[]| | | | | | | | | | | | ]; try discriminate; auto. }
  right. intros i c (p & Hi & Hp)%(threads_pc _ _ _ _ Hinv).
  destruct (Hidle i p Hi) as [->| ->]; [by left|]. right. exists (tail c). subst c. split; [done|].
  pose proof (inv_wake _ _ Hinv (count_lookup blocked _ _ _ Hi eq_refl)) as Hlen.
  destruct (data m) as [|x q]; [done|]. simpl in Hlen.
  destruct (count_pos token ps) as (j & r & Hr & Ht); [lia|].
  by destruct (Hidle j r Hr) as [->| ->].
Qed.

(** C36. A queue that any number of threads use, in any interleaving with spurious wake-ups: the
    calls take effect one at a time, with the results and the contents of the abstract queue
    (so what is taken is what was put, in order, once); the queue is accessed by the thread that
    holds the mutex and that [holder_] names; no call fails, and a thread waits only for the
    mutex or in [notEmpty_.wait()]; and no wake-up is lost: if no thread can run, the ones that
    are in a call are takers, and the queue is empty. *)
Theorem blocking_queue_correct n m :
  reachable calls (ctor n) m →
  replay (trace m) = Some (data m) ∧
  (∀ i f c, threads m !! i = Some (Act f :: c) →
     owner m = Some i ∧ isLockedByThisThread i m = true) ∧
  (∀ i ins c, threads m !! i = Some (ins :: c) →
     (∃ m', exec i c m ins m') ∨ ins = Blocked ∨
     ((ins = Lock ∨ ins = Relock) ∧ ∃ j, j ≠ i ∧ owner m = Some j)) ∧
  ((∃ m', run_step m m') ∨
   ∀ i c, threads m !! i = Some c → c = [] ∨ ∃ c', c = Blocked :: c' ∧ data m = []).
Proof.
  intros (ps & Hinv)%queue_inv. split; [apply Hinv|].
  split; [|split; [intros i ins c; by apply thread_progress with ps|by apply no_lost_wakeup with ps]].
  intros i f c (p & Hi & Hp)%(threads_pc _ _ _ _ Hinv).
  assert (crit p = true ∧ self p = true) as [Hc Hs]
    by (by destruct p as [|[]|[]| | | | | | | | | | | | ]).
  destruct (lock_ok_owner _ _ _ _ _ _ _ (inv_lock _ _ Hinv) Hi Hc) as [Ho Hh].
  split; [done|]. unfold isLockedByThisThread. rewrite Hh, Hs. apply Z.eqb_refl.
Qed.
End queue.

(** Thread 1 puts 7 and thread 0 takes it. *)
Lemma blocking_queue_correct_witness :
  ∃ m : machine (list nat) event,
    reachable calls (ctor 2) m ∧ trace m = [EPut 7%nat; ETake 7%nat] ∧
    replay (trace m) = Some (data m).
Proof.
  assert (∃ m : machine (list nat) event,
    reachable calls (ctor 2) m ∧ trace m = [EPut 7%nat; ETake 7%nat]) as (m & Hr & Ht).
  { eexists. split.
    - eapply rtc_l; [apply (step_call _ _ 1 (put 7%nat)); [done|by exists (CPut 7%nat)]|]. simpl.
      run_thread 1%nat @exec_lock. run_thread 1%nat @exec_set_holder. run_thread 1%nat @exec_act.
      eapply rtc_l.
      { apply step_run. exists 1%nat. do 2 eexists. split; [reflexivity|].
        apply exec_signal_none. by intros [|[|[|j]]] cj. }
      run_thread 1%nat @exec_set_holder. run_thread 1%nat @exec_unlock.
      eapply rtc_l; [apply (step_call _ _ 0 take); [done|by exists CTake]|]. simpl.
      run_thread 0%nat @exec_lock. run_thread 0%nat @exec_set_holder. run_thread 0%nat @exec_while_false.
      run_thread 0%nat @exec_act. apply rtc_refl.
    - reflexivity. }
  exists m. split; [exact Hr|]. split; [exact Ht|].
  exact (proj1 (blocking_queue_correct 2 m Hr)).
Defined.
