(* ===== verification/LoopTask.v ===== *)
(** * LoopTask: a task handed to an event loop (net/event/loop_task.h)

    The thread that makes a [LoopTaskSync] waits until the event loop has run
    it, and then deletes it.  The two threads share the task. *)
From S2P Require Import Prelude Threads.

(** What the two threads share; [alive] is the memory of the task. *)
Record task : Type := Task { alive : bool; done_ : bool }.

(** A call of the callback [cb_]. *)
Inductive task_event : Type := ERun.

#[local] Abbreviation instr := (Threads.instr task task_event).
#[local] Abbreviation machine := (Threads.machine task task_event).

(** [cb_()] of a task that is still there *)
Definition DoTask : list instr :=
  [Act (λ t, if alive t then Some (t, Some ERun) else None)].

Definition delete_this : instr :=
  Act (λ t, if alive t then Some (Task false (done_ t), None) else None).

Module LoopTaskAsync.
Definition DestroySelf : list instr := [delete_this].
End LoopTaskAsync.

Module LoopTaskSync.
(** [std::lock_guard] around a block *)
Definition lock_guard (block : list instr) : list instr := Lock :: block ++ [Unlock].

Definition set_done : instr :=
  Act (λ t, if alive t then Some (Task true true, None) else None).

Definition DestroySelf : list instr := lock_guard [Broadcast; set_done].

Definition not_done (t : task) : bool := negb (done_ t).

Definition Wait : list instr := lock_guard [While not_done [CondWait]] ++ [delete_this].

(** A new task, that thread 0 waits for and thread 1, the event loop, runs. *)
Definition ctor : machine :=
  Machine None 0 (Task true false) [Wait; DoTask ++ DestroySelf] [].

(** *** Where the threads can be *)

Inductive wpc : Type := WLock | WWhile | WCond | WBlocked | WRelock | WUnlock | WDelete | WEnd.

Definition wcode (w : wpc) : list instr :=
  match w with
  | WLock => Wait
  | WWhile => [While not_done [CondWait]; Unlock; delete_this]
  | WCond => [CondWait; While not_done [CondWait]; Unlock; delete_this]
  | WBlocked => [Blocked; While not_done [CondWait]; Unlock; delete_this]
  | WRelock => [Relock; While not_done [CondWait]; Unlock; delete_this]
  | WUnlock => [Unlock; delete_this]
  | WDelete => [delete_this]
  | WEnd => []
  end.

Inductive lpc : Type := LRun | LLock | LBroadcast | LDone | LUnlock | LEnd.

Definition lcode (l : lpc) : list instr :=
  match l with
  | LRun => DoTask ++ DestroySelf
  | LLock => DestroySelf
  | LBroadcast => [Broadcast; set_done; Unlock]
  | LDone => [set_done; Unlock]
  | LUnlock => [Unlock]
  | LEnd => []
  end.

Definition wcrit (w : wpc) : bool :=
  match w with WWhile | WCond | WUnlock => true | _ => false end.
Definition lcrit (l : lpc) : bool :=
  match l with LBroadcast | LDone | LUnlock => true | _ => false end.
Definition ldone (l : lpc) : bool := match l with LUnlock | LEnd => true | _ => false end.

(** What the waiter knows of the loop. *)
Definition agrees (w : wpc) (l : lpc) : bool :=
  match w, l with
  | WCond, (LRun | LLock) => true
  | WCond, _ => false
  | WBlocked, (LRun | LLock | LBroadcast) => true
  | WBlocked, _ => false
  | (WUnlock | WDelete | WEnd), LEnd => true
  | (WUnlock | WDelete | WEnd), _ => false
  | _, _ => true
  end.

Definition mowner (w : wpc) (l : lpc) : option nat :=
  if wcrit w then Some 0%nat else if lcrit l then Some 1%nat else None.

Definition state (w : wpc) (l : lpc) (h : Z) : machine :=
  Machine (mowner w l) h
    (Task (match w with WEnd => false | _ => true end) (ldone l))
    [wcode w; lcode l] (match l with LRun => [] | _ => [ERun] end).

Definition inv (m : machine) : Prop :=
  ∃ w l h, m = state w l h ∧ wcrit w && lcrit l = false ∧ agrees w l = true.

(** The steps left before the threads end or wait; a broadcast may send the waiter back. *)
Definition left_ (w : wpc) (l : lpc) : nat :=
  (match l with LRun => 50 | LLock => 40 | LBroadcast => 30 | LDone => 20 | LUnlock => 10 | LEnd => 0 end +
   match w with WLock | WRelock => 6 | WWhile => 5 | WCond => 4 | WBlocked => 3
              | WUnlock => 2 | WDelete => 1 | WEnd => 0 end)%nat.

(** Finds the state that a step leads to. *)
Ltac found_at w l :=
  solve [exists w, l; eexists; split; [reflexivity|repeat split; unfold left_; lia]].
Ltac found_w w :=
  first [found_at w LRun|found_at w LLock|found_at w LBroadcast|found_at w LDone
        |found_at w LUnlock|found_at w LEnd].
Ltac found :=
  first [found_w WLock|found_w WWhile|found_w WCond|found_w WBlocked|found_w WRelock
        |found_w WUnlock|found_w WDelete|found_w WEnd].

Lemma run_cases w l h m' :
  wcrit w && lcrit l = false → agrees w l = true → run_step (state w l h) m' →
  ∃ w' l' h', m' = state w' l' h' ∧ wcrit w' && lcrit l' = false ∧ agrees w' l' = true ∧
              (left_ w' l' < left_ w l)%nat.
Proof.
  intros Hc Ha (i & ins & c & Hi & Hx).
  destruct i as [|[|i]]; [| |done]; simpl in Hi.
  - destruct w; try discriminate Hi; injection Hi as <- <-;
      destruct l; try discriminate Hc; try discriminate Ha; inversion Hx; simplify_eq/=; found.
  - destruct l; try discriminate Hi; injection Hi as <- <-;
      destruct w; try discriminate Hc; try discriminate Ha; inversion Hx; simplify_eq/=; found.
Qed.

Lemma spurious_cases w l h i c :
  agrees w l = true → threads (state w l h) !! i = Some (Blocked :: c) →
  set_code i (Relock :: c) (state w l h) = state WRelock l h ∧ w = WBlocked.
Proof.
  intros Ha Hi. destruct i as [|[|i]]; [| |done]; simpl in Hi.
  - destruct w; try discriminate Hi. injection Hi as <-. done.
  - by destruct l.
Qed.

Lemma task_inv m : reachable (λ _, False) ctor m → inv m.
Proof.
  apply (reachable_ind _ inv).
  - by exists WLock, LRun, 0.
  - intros m1 m2 (w & l & h & -> & Hc & Ha) Hst. destruct Hst as [m' Hr|i c Hi|i c Hi []].
    + destruct (run_cases _ _ _ _ Hc Ha Hr) as (w' & l' & h' & ? & ? & ? & _).
      by exists w', l', h'.
    + destruct (spurious_cases _ _ _ _ _ Ha Hi) as [-> ->]. exists WRelock, l, h.
      split_and!; [done|done|by destruct l].
Qed.

Ltac runs i rule :=
  left; eexists; exists i; do 2 eexists; split; [reflexivity|eapply rule; reflexivity].
Ltac runs_any i :=
  first [runs i @exec_lock|runs i @exec_relock|runs i @exec_unlock|runs i @exec_act
        |runs i @exec_while_true|runs i @exec_while_false|runs i @exec_wait
        |left; eexists; exists i; do 2 eexists; split; [reflexivity|apply exec_broadcast]].

(** Unless both threads have ended, one of them can run. *)
Lemma progress w l h :
  wcrit w && lcrit l = false → agrees w l = true →
  (∃ m', run_step (state w l h) m') ∨ (w = WEnd ∧ l = LEnd).
Proof.
  intros Hc Ha. destruct w, l; try discriminate Ha; try discriminate Hc;
    first [by right|runs_any 0%nat|runs_any 1%nat].
Qed.

Lemma run_bound k w l h m' :
  wcrit w && lcrit l = false → agrees w l = true →
  nsteps run_step k (state w l h) m' → (k ≤ left_ w l)%nat.
Proof.
  revert w l h. induction k as [|k IH]; intros w l h Hc Ha Hn; [lia|].
  inversion Hn as [|? ? m1 ? Hr Hn']; subst.
  destruct (run_cases _ _ _ _ Hc Ha Hr) as (w' & l' & h' & -> & Hc' & Ha' & Hlt).
  specialize (IH _ _ _ Hc' Ha' Hn'). lia.
Qed.

(** C39. A synchronous task, in any interleaving of its two threads with spurious wake-ups: no
    code runs on the task after it is deleted; [Wait] returns only after the callback ran,
    once, and the loop is done with the task, which is deleted then and not before; and the two
    threads end: one of them can run until both have ended, and at most 56 steps are left that
    are not spurious wake-ups. *)
Theorem sync_task_correct m :
  reachable (λ _, False) ctor m →
  (∀ i f c, threads m !! i = Some (Act f :: c) → f (data m) ≠ None) ∧
  (threads m !! 0%nat = Some [] → threads m = [[]; []] ∧ trace m = [ERun]) ∧
  (alive (data m) = false ↔ threads m !! 0%nat = Some []) ∧
  ((∃ m', run_step m m') ∨ threads m = [[]; []]) ∧
  (∀ k m', nsteps run_step k m m' → (k ≤ 56)%nat).
Proof.
  intros (w & l & h & -> & Hc & Ha)%task_inv. split; [|split; [|split; [|split]]].
  - intros [|[|i]] f c Hi; [| |done]; simpl in Hi.
    + destruct w; try discriminate Hi; injection Hi as <- <-; done.
    + destruct l; try discriminate Hi; injection Hi as <- <-; by destruct w.
  - intros Hi. destruct w; try discriminate Hi. by destruct l.
  - by destruct w.
  - destruct (progress w l h Hc Ha) as [?|[-> ->]]; [by left|by right].
  - intros k m' Hn%run_bound; [|done..]. destruct w, l; unfold left_ in Hn; lia.
Qed.

(** The loop runs the task before the other thread waits. *)
Lemma sync_task_correct_witness :
  ∃ m, reachable (λ _, False) ctor m ∧ threads m !! 0%nat = Some [] ∧ trace m = [ERun] ∧
       alive (data m) = false.
Proof.
  assert (∃ m, reachable (λ _, False) ctor m ∧ threads m !! 0%nat = Some []) as (m & Hr & H0).
  { eexists. split.
    - run_thread 1%nat @exec_act. run_thread 1%nat @exec_lock.
      run_thread 1%nat @exec_broadcast. run_thread 1%nat @exec_act.
      run_thread 1%nat @exec_unlock. run_thread 0%nat @exec_lock.
      run_thread 0%nat @exec_while_false. run_thread 0%nat @exec_unlock.
      run_thread 0%nat @exec_act. apply rtc_refl.
    - reflexivity. }
  destruct (sync_task_correct m Hr) as (_ & H1 & H2 & _).
  exists m. split; [exact Hr|]. split; [exact H0|]. split; [exact (proj2 (H1 H0))|].
  exact (proj2 H2 H0).
Defined.
End LoopTaskSync.
