(* ===== verification/FixedFunction.v ===== *)
(** * FixedFunction: a function object without heap memory (base/fixed_size_function.h)

    A [fixed_size_function] holds a functor in a buffer inside itself.  The
    model keeps the function objects by address, because assignments alias,
    and the functors that have been constructed and not yet destroyed: a
    functor destroyed twice is undefined behaviour, a functor overwritten in
    its buffer stays alive for ever. *)
From S2P Require Import Prelude.

(** enum class construct_type *)
Inductive construct_type : Type := none | copy | move | copy_and_move.

#[export] Instance construct_type_eq_dec : EqDecision construct_type.
Proof. solve_decision. Defined.

Section fixed_function.
(** The functors, what a call of one does, and what a move leaves of one; the strategy is the
    template argument. *)
Context {F A R : Type} (run : F → A → R) (moved : F → F) (strategy : construct_type).

Definition is_copyable : bool := bool_decide (strategy = copy ∨ strategy = copy_and_move).
Definition is_movable : bool := bool_decide (strategy = move ∨ strategy = copy_and_move).

(** The pointers that are set; a strategy without copies has no field [copy], which here stays
    null, as for moves. *)
Record vtable : Type := Vtable {
  vt_call : bool; vt_destroy : bool; vt_copy : bool; vt_move : bool
}.
Definition vtable0 : vtable := Vtable false false false false.

(** [storage_] is the functor constructed in the buffer. *)
Record fixed_size_function : Type := Fsf { vtable_ : vtable; storage_ : option nat }.

Record world : Type := World {
  fns : gmap nat fixed_size_function;    (* the function objects, by address *)
  live : gmap nat F;                     (* the functors that exist *)
  next : nat
}.

Definition get_fn (a : nat) : M world fixed_size_function := λ w,
  match fns w !! a with Some x => Ok x w | None => Ub "no function object" end.
Definition set_fn (a : nat) (x : fixed_size_function) : M world unit :=
  modify (λ w, World (<[a := x]> (fns w)) (live w) (next w)).

(** [*static_cast<Functor *>(&storage_)] *)
Definition stored (x : fixed_size_function) : M world (nat * F) := λ w,
  match storage_ x with
  | None => Ub "no functor in the buffer"
  | Some id => match live w !! id with
               | Some f => Ok (id, f) w
               | None => Ub "the functor was destroyed" end
  end.

(** Placement new of [f] in the buffer of [a]. *)
Definition place (a : nat) (f : F) : M world unit :=
  x ← get_fn a;
  modify (λ w, World (<[a := Fsf (vtable_ x) (Some (next w))]> (fns w))
                     (<[next w := f]> (live w)) (S (next w))).

(** [destroy(&storage_)] *)
Definition destroy_impl (a : nat) : M world unit :=
  x ← get_fn a;
  o ← stored x;
  modify (λ w, World (<[a := Fsf (vtable_ x) None]> (fns w)) (delete o.1 (live w)) (next w)).

Definition set_vtable (a : nat) (v : vtable) : M world unit :=
  x ← get_fn a; set_fn a (Fsf v (storage_ x)).

Definition copy_impl (src dest : nat) : M world unit :=
  x ← get_fn src; o ← stored x; place dest o.2.

Definition move_impl (src dest : nat) : M world unit :=
  x ← get_fn src; o ← stored x;
  modify (λ w, World (fns w) (<[o.1 := moved o.2]> (live w)) (next w)) ;;
  place dest o.2.

(** ** The members *)

Definition reset (this : nat) : M world unit :=
  x ← get_fn this;
  when (vt_destroy (vtable_ x)) (set_vtable this vtable0 ;; destroy_impl this).

Definition init_copy (v : vtable) : vtable :=
  if is_copyable then Vtable (vt_call v) (vt_destroy v) true (vt_move v) else v.
Definition init_move (v : vtable) : vtable :=
  if is_movable then Vtable (vt_call v) (vt_destroy v) (vt_copy v) true else v.

Definition create (this : nat) (f : F) : M world unit :=
  place this f ;;
  x ← get_fn this;
  let v := vtable_ x in
  set_vtable this (init_move (init_copy (Vtable true true (vt_copy v) (vt_move v)))).

Definition copy_ (this src : nat) : M world unit :=
  s ← get_fn src;
  when (vt_copy (vtable_ s)) (copy_impl src this ;; set_vtable this (vtable_ s)).

Definition move_ (this src : nat) : M world unit :=
  if is_movable then
    s ← get_fn src;
    when (vt_move (vtable_ s))
      (move_impl src this ;; set_vtable this (vtable_ s) ;; reset src)
  else copy_ this src.

Definition ctor (this : nat) : M world unit := set_fn this (Fsf vtable0 None).
Definition dtor (this : nat) : M world unit :=
  reset this ;; modify (λ w, World (delete this (fns w)) (live w) (next w)).
Definition ctor_copy (this src : nat) : M world unit := ctor this ;; copy_ this src.
Definition ctor_move (this src : nat) : M world unit := ctor this ;; move_ this src.
Definition ctor_functor (this : nat) (f : F) : M world unit := ctor this ;; create this f.

Definition assign_copy (this src : nat) : M world unit := reset this ;; copy_ this src.
Definition assign_move (this src : nat) : M world unit := reset this ;; move_ this src.
Definition assign_functor (this : nat) (f : F) : M world unit := reset this ;; create this f.

Definition operator_bool (this : nat) : M world bool :=
  x ← get_fn this; mret (vt_call (vtable_ x)).

(** None is [throw std::bad_function_call()] *)
Definition operator_call (this : nat) (arg : A) : M world (option R) :=
  x ← get_fn this;
  if vt_call (vtable_ x) then o ← stored x; mret (Some (run o.2 arg)) else mret None.

(** [tmp] is the local variable. *)
Definition swap (this other : nat) : M world unit :=
  w ← get_state;
  let tmp := fresh (dom (fns w)) in
  ctor_move tmp other ;; assign_move other this ;; assign_move this tmp ;; dtor tmp.

(** ** Ownership *)

Definition vtable1 : vtable := Vtable true true is_copyable is_movable.
Definition empty_fn : fixed_size_function := Fsf vtable0 None.

(** Every functor that exists is in the buffer of exactly one function object, and a function
    object is empty or has its functor and all of its pointers. *)
Record ok (w : world) : Prop := {
  ok_fn a x : fns w !! a = Some x →
    x = empty_fn ∨ ∃ id f, x = Fsf vtable1 (Some id) ∧ live w !! id = Some f;
  ok_inj a b x y id : fns w !! a = Some x → fns w !! b = Some y →
    storage_ x = Some id → storage_ y = Some id → a = b;
  ok_owned id f : live w !! id = Some f → ∃ a x, fns w !! a = Some x ∧ storage_ x = Some id;
  ok_fresh id f : live w !! id = Some f → (id < next w)%nat
}.

(** The functor each function object holds, None for an empty one. *)
Definition contents (w : world) : gmap nat (option F) :=
  (λ x, storage_ x ≫= λ id, live w !! id) <$> fns w.

Lemma contents_lookup w a : contents w !! a = (λ x, storage_ x ≫= λ id, live w !! id) <$> fns w !! a.
Proof. unfold contents. by rewrite lookup_fmap. Qed.

(** A function object by its contents. *)
Lemma contents_Some w a o :
  ok w → contents w !! a = Some o →
  match o with
  | None => fns w !! a = Some empty_fn
  | Some f => ∃ id, fns w !! a = Some (Fsf vtable1 (Some id)) ∧ live w !! id = Some f
  end.
Proof.
  intros Hok. rewrite contents_lookup. destruct (fns w !! a) as [x|] eqn:Ha; simpl; [|done].
  destruct (ok_fn _ Hok a x Ha) as [->|(id & f & -> & Hf)]; simpl.
  - by intros [= <-].
  - rewrite Hf. intros [= <-]. eauto.
Qed.

Lemma contents_None w a : contents w !! a = None → fns w !! a = None.
Proof. rewrite contents_lookup. by destruct (fns w !! a). Qed.

(** Constructing a functor in an empty function object. *)
Definition filled (a : nat) (f : F) (w : world) : world :=
  World (<[a := Fsf vtable1 (Some (next w))]> (fns w)) (<[next w := f]> (live w)) (S (next w)).

Lemma fresh_id w : ok w → live w !! next w = None.
Proof.
  intros Hok. destruct (live w !! next w) as [f|] eqn:E; [|done].
  apply (ok_fresh _ Hok) in E. lia.
Qed.

Lemma filled_ok a f w :
  ok w → fns w !! a = Some empty_fn →
  ok (filled a f w) ∧ contents (filled a f w) = <[a := Some f]> (contents w).
Proof.
  intros Hok Ha. pose proof (fresh_id w Hok) as Hfr. split; [split; simpl|].
  - intros b x [[<- <-]|[Hne Hb]]%lookup_insert_Some.
    + right. exists (next w), f. by rewrite lookup_insert_eq.
    + destruct (ok_fn _ Hok b x Hb) as [->|(id & g & -> & Hg)]; [by left|]. right.
      exists id, g. rewrite lookup_insert_ne; [done|]. intros <-. congruence.
  - assert (∀ b x, fns w !! b = Some x → storage_ x ≠ Some (next w)) as Hno.
    { intros b x Hb Hs. destruct (ok_fn _ Hok b x Hb) as [->|(id & g & -> & Hg)]; [done|].
      simpl in Hs. congruence. }
    intros b c x y id [[<- <-]|[? Hb]]%lookup_insert_Some [[<- <-]|[? Hc]]%lookup_insert_Some;
      simpl; intros Hx Hy; simplify_eq/=; try done.
    + by destruct (Hno c y).
    + by destruct (Hno b x).
    + by eapply (ok_inj _ Hok b c).
  - intros id g [[<- <-]|[Hne Hg]]%lookup_insert_Some.
    + exists a, (Fsf vtable1 (Some (next w))). by rewrite lookup_insert_eq.
    + destruct (ok_owned _ Hok id g Hg) as (b & x & Hb & Hs). exists b, x. split; [|done].
      rewrite lookup_insert_ne; [done|]. intros <-. simplify_eq.
  - intros id g [[<- _]|[_ Hg]]%lookup_insert_Some; [lia|]. apply (ok_fresh _ Hok) in Hg. lia.
  - apply map_eq. intros b. rewrite contents_lookup. simpl.
    destruct (decide (a = b)) as [<-|Hne].
    + rewrite !lookup_insert_eq. simpl. by rewrite lookup_insert_eq.
    + rewrite !lookup_insert_ne by done. rewrite contents_lookup.
      destruct (fns w !! b) as [x|] eqn:Hb; simpl; [|done]. f_equal.
      destruct (ok_fn _ Hok b x Hb) as [->|(id & g & -> & Hg)]; simpl; [done|].
      rewrite lookup_insert_ne; [done|]. intros <-. congruence.
Qed.

(** Destroying the functor of a function object. *)
Definition emptied (a id : nat) (w : world) : world :=
  World (<[a := empty_fn]> (fns w)) (delete id (live w)) (next w).

Lemma emptied_ok a id x w :
  ok w → fns w !! a = Some x → storage_ x = Some id →
  ok (emptied a id w) ∧ contents (emptied a id w) = <[a := None]> (contents w).
Proof.
  intros Hok Ha Hx. split; [split; simpl|].
  - intros b y [[<- <-]|[Hne Hb]]%lookup_insert_Some; [by left|].
    destruct (ok_fn _ Hok b y Hb) as [->|(id' & g & -> & Hg)]; [by left|]. right.
    exists id', g. rewrite lookup_delete_ne; [done|]. intros <-.
    by apply Hne, (ok_inj _ Hok a b x _ id Ha Hb Hx).
  - intros b c y z id' [[<- <-]|[? Hb]]%lookup_insert_Some [[<- <-]|[? Hc]]%lookup_insert_Some;
      simpl; try done. by apply (ok_inj _ Hok b c).
  - intros id' g [Hne Hg]%lookup_delete_Some.
    destruct (ok_owned _ Hok id' g Hg) as (b & y & Hb & Hs). exists b, y. split; [|done].
    rewrite lookup_insert_ne; [done|]. intros <-. congruence.
  - intros id' g [_ Hg]%lookup_delete_Some. by eapply (ok_fresh _ Hok).
  - apply map_eq. intros b. rewrite contents_lookup. simpl.
    destruct (decide (a = b)) as [<-|Hne].
    + by rewrite !lookup_insert_eq.
    + rewrite !lookup_insert_ne by done. rewrite contents_lookup.
      destruct (fns w !! b) as [y|] eqn:Hb; simpl; [|done]. f_equal.
      destruct (storage_ y) as [id'|] eqn:Hs; simpl; [|done].
      rewrite lookup_delete_ne; [done|]. intros <-. by apply Hne, (ok_inj _ Hok a b x y id).
Qed.

(** A functor that changes in its buffer. *)
Lemma changed_ok a id x g w :
  ok w → fns w !! a = Some x → storage_ x = Some id → is_Some (live w !! id) →
  let w' := World (fns w) (<[id := g]> (live w)) (next w) in
  ok w' ∧ contents w' = <[a := Some g]> (contents w).
Proof.
  intros Hok Ha Hx [f Hf]. split; [split; simpl|].
  - intros b y Hb. destruct (ok_fn _ Hok b y Hb) as [->|(id' & h & -> & Hh)]; [by left|]. right.
    destruct (decide (id = id')) as [<-|Hne]; [exists id, g; by rewrite lookup_insert_eq|].
    exists id', h. by rewrite lookup_insert_ne.
  - apply Hok.
  - intros id' h [[<- _]|[_ Hh]]%lookup_insert_Some; by eapply (ok_owned _ Hok).
  - intros id' h [[<- _]|[_ Hh]]%lookup_insert_Some; by eapply (ok_fresh _ Hok).
  - apply map_eq. intros b. rewrite contents_lookup. simpl.
    destruct (decide (a = b)) as [<-|Hne].
    + by rewrite Ha, lookup_insert_eq; simpl; rewrite Hx; simpl; rewrite lookup_insert_eq.
    + rewrite lookup_insert_ne, contents_lookup by done.
      destruct (fns w !! b) as [y|] eqn:Hb; simpl; [|done]. f_equal.
      destruct (storage_ y) as [id'|] eqn:Hs; simpl; [|done].
      rewrite lookup_insert_ne; [done|]. intros <-. by apply Hne, (ok_inj _ Hok a b x y id).
Qed.

(** A new function object, and the end of an empty one. *)
Lemma new_ok a w :
  ok w → fns w !! a = None →
  ∃ w', ctor a w = Ok () w' ∧ ok w' ∧ contents w' = <[a := None]> (contents w).
Proof.
  intros Hok Ha. eexists. split; [reflexivity|]. split; [split; simpl|].
  - intros b x [[<- <-]|[_ Hb]]%lookup_insert_Some; [by left|]. by apply (ok_fn _ Hok b).
  - intros b c x y id [[<- <-]|[? Hb]]%lookup_insert_Some [[<- <-]|[? Hc]]%lookup_insert_Some;
      simpl; try done. by apply (ok_inj _ Hok b c).
  - intros id f (b & x & Hb & Hs)%(ok_owned _ Hok). exists b, x. split; [|done].
    rewrite lookup_insert_ne; [done|]. intros <-. congruence.
  - apply Hok.
  - unfold contents. simpl. by rewrite fmap_insert.
Qed.

Lemma erased_ok a w :
  ok w → fns w !! a = Some empty_fn →
  let w' := World (delete a (fns w)) (live w) (next w) in
  ok w' ∧ contents w' = delete a (contents w).
Proof.
  intros Hok Ha. split; [split; simpl|].
  - intros b x [_ Hb]%lookup_delete_Some. by apply (ok_fn _ Hok b).
  - intros b c x y id [_ Hb]%lookup_delete_Some [_ Hc]%lookup_delete_Some.
    by apply (ok_inj _ Hok b c).
  - intros id f (b & x & Hb & Hs)%(ok_owned _ Hok). exists b, x. split; [|done].
    rewrite lookup_delete_ne; [done|]. intros <-. by rewrite Ha in Hb; simplify_eq/=.
  - apply Hok.
  - unfold contents. simpl. by rewrite fmap_delete.
Qed.

(** ** The members, on the contents *)

Lemma get_fn_eq a x w : fns w !! a = Some x → get_fn a w = Ok x w.
Proof. unfold get_fn. by intros ->. Qed.

Lemma stored_eq x id f w :
  storage_ x = Some id → live w !! id = Some f → stored x w = Ok (id, f) w.
Proof. unfold stored. by intros -> ->. Qed.

Lemma set_vtable_eq a v x w :
  fns w !! a = Some x →
  set_vtable a v w = Ok () (World (<[a := Fsf v (storage_ x)]> (fns w)) (live w) (next w)).
Proof. intros Hx. unfold set_vtable. by rewrite (bind_Ok _ _ _ _ _ (get_fn_eq _ _ _ Hx)). Qed.

Lemma place_eq a f x w :
  fns w !! a = Some x →
  place a f w = Ok () (World (<[a := Fsf (vtable_ x) (Some (next w))]> (fns w))
                             (<[next w := f]> (live w)) (S (next w))).
Proof. intros Hx. unfold place. by rewrite (bind_Ok _ _ _ _ _ (get_fn_eq _ _ _ Hx)). Qed.

Lemma destroy_impl_eq a x id f w :
  fns w !! a = Some x → storage_ x = Some id → live w !! id = Some f →
  destroy_impl a w =
    Ok () (World (<[a := Fsf (vtable_ x) None]> (fns w)) (delete id (live w)) (next w)).
Proof.
  intros Hx Hs Hf. unfold destroy_impl. rewrite (bind_Ok _ _ _ _ _ (get_fn_eq _ _ _ Hx)).
  by rewrite (bind_Ok _ _ _ _ _ (stored_eq _ _ _ _ Hs Hf)).
Qed.

Lemma reset_ok a o w :
  ok w → contents w !! a = Some o →
  ∃ w', reset a w = Ok () w' ∧ ok w' ∧ contents w' = <[a := None]> (contents w).
Proof.
  intros Hok Ha. pose proof (contents_Some _ _ _ Hok Ha) as Hx. destruct o as [f|].
  - destruct Hx as (id & Hx & Hf). exists (emptied a id w).
    destruct (emptied_ok a id _ w Hok Hx eq_refl) as [Hok' Hc']. split; [|done].
    unfold reset. rewrite (bind_Ok _ _ _ _ _ (get_fn_eq _ _ _ Hx)). simpl.
    rewrite (bind_Ok _ _ _ _ _ (set_vtable_eq _ vtable0 _ _ Hx)).
    erewrite destroy_impl_eq; [|apply lookup_insert_eq|reflexivity|exact Hf].
    simpl. by rewrite insert_insert_eq.
  - exists w. split; [unfold reset; by rewrite (bind_Ok _ _ _ _ _ (get_fn_eq _ _ _ Hx))|].
    split; [done|]. by rewrite insert_id.
Qed.

(** Placing a functor in an empty function object and setting its pointers. *)
Lemma place_set a f w :
  fns w !! a = Some empty_fn →
  ((place a f ;; set_vtable a vtable1) : M world unit) w = Ok () (filled a f w).
Proof.
  intros Hx. rewrite (bind_Ok _ _ _ _ _ (place_eq _ f _ _ Hx)).
  rewrite (set_vtable_eq _ _ _ _ (lookup_insert_eq _ _ _)). simpl. by rewrite insert_insert_eq.
Qed.

Lemma create_ok a f w :
  ok w → contents w !! a = Some None →
  ∃ w', create a f w = Ok () w' ∧ ok w' ∧ contents w' = <[a := Some f]> (contents w).
Proof.
  intros Hok Ha%contents_Some; [|done]. exists (filled a f w). split; [|by apply filled_ok].
  rewrite <- (place_set a f w Ha). unfold create. 
  rewrite !(bind_Ok _ _ _ _ _ (place_eq _ f _ _ Ha)).
  erewrite bind_Ok by (apply get_fn_eq, lookup_insert_eq). simpl.
  f_equal. unfold init_copy, init_move, vtable1. by destruct is_copyable, is_movable.
Qed.

Lemma copy_ok this src o w :
  is_copyable = true → ok w → contents w !! this = Some None → contents w !! src = Some o →
  ∃ w', copy_ this src w = Ok () w' ∧ ok w' ∧ contents w' = <[this := o]> (contents w).
Proof.
  intros Hcp Hok Ht%contents_Some Hs; [|done]. pose proof (contents_Some _ _ _ Hok Hs) as Hx.
  unfold copy_. destruct o as [f|].
  - destruct Hx as (id & Hx & Hf). exists (filled this f w). split; [|by apply filled_ok].
    rewrite (bind_Ok _ _ _ _ _ (get_fn_eq _ _ _ Hx)). simpl. rewrite Hcp. simpl.
    rewrite <- (place_set this f w Ht). unfold copy_impl.
    rewrite bind_eq, (bind_Ok _ _ _ _ _ (get_fn_eq _ _ _ Hx)).
    rewrite (bind_Ok _ _ _ _ _ (stored_eq (Fsf vtable1 (Some id)) id f w eq_refl Hf)). done.
  - exists w. rewrite (bind_Ok _ _ _ _ _ (get_fn_eq _ _ _ Hx)). simpl. split; [done|].
    split; [done|]. rewrite insert_id; [done|]. by rewrite contents_lookup, Ht.
Qed.

(** What a move leaves in the source. *)
Definition moved_out (src : nat) (m : gmap nat (option F)) : gmap nat (option F) :=
  if is_movable then <[src := None]> m else m.

Lemma move_ok this src o w :
  is_movable || is_copyable = true → ok w →
  contents w !! this = Some None → contents w !! src = Some o →
  ∃ w', move_ this src w = Ok () w' ∧ ok w' ∧
        contents w' = moved_out src (<[this := o]> (contents w)).
Proof.
  intros Hm Hok Ht0 Hs. unfold move_, moved_out.
  destruct is_movable eqn:Em; [|by apply copy_ok].
  pose proof (contents_Some _ _ _ Hok Ht0) as Ht. pose proof (contents_Some _ _ _ Hok Hs) as Hx.
  destruct o as [f|].
  - destruct Hx as (id & Hx & Hf). rewrite (bind_Ok _ _ _ _ _ (get_fn_eq _ _ _ Hx)). simpl.
    rewrite Em. simpl.
    set (w1 := World (fns w) (<[id := moved f]> (live w)) (next w)).
    destruct (changed_ok src id _ (moved f) w Hok Hx eq_refl) as [Hok1 Hc1]; [by eexists|].
    fold w1 in Hok1, Hc1.
    destruct (filled_ok this f w1 Hok1 Ht) as [Hok2 Hc2].
    assert (this ≠ src) as Hne by congruence.
    destruct (reset_ok src (Some (moved f)) (filled this f w1)) as (w3 & E3 & Hok3 & Hc3);
      [done|by rewrite Hc2, lookup_insert_ne, Hc1, lookup_insert_eq|].
    exists w3. split; [|split; [done|]].
    + assert (((move_impl src this ;; set_vtable this vtable1) : M world unit) w =
              Ok () (filled this f w1)) as E2.
      { rewrite <- (place_set this f w1 Ht). unfold move_impl.
        rewrite bind_eq, (bind_Ok _ _ _ _ _ (get_fn_eq _ _ _ Hx)).
        rewrite (bind_Ok _ _ _ _ _ (stored_eq (Fsf vtable1 (Some id)) id f w eq_refl Hf)). done. }
      rewrite bind_eq in E2 |- *. destruct (move_impl src this w) as [[] wa| | |]; try done.
      by rewrite (bind_Ok _ _ _ _ _ E2).
    + rewrite Hc3, Hc2, Hc1. apply map_eq. intros b.
      destruct (decide (b = src)) as [->|]; [by rewrite !lookup_insert_eq|].
      rewrite !(lookup_insert_ne _ src) by done. destruct (decide (b = this)) as [->|].
      * by rewrite !lookup_insert_eq.
      * by rewrite !lookup_insert_ne.
  - exists w. rewrite (bind_Ok _ _ _ _ _ (get_fn_eq _ _ _ Hx)). simpl. split; [done|].
    split; [done|]. rewrite (insert_id _ this) by done. by rewrite insert_id.
Qed.

(** ** The abstract functions: what each object holds *)

#[local] Abbreviation contents_map := (gmap nat (option F)).

Inductive op : Type :=
| OCtor (a : nat) | OFunctor (a : nat) (f : F) | OCopy (a src : nat) | OMove (a src : nat)
| OAssign (a src : nat) | OAssignMove (a src : nat) | OAssignFunctor (a : nat) (f : F)
| OReset (a : nat) | OSwap (a b : nat) | ODtor (a : nat).

Definition exec (o : op) : M world unit :=
  match o with
  | OCtor a => ctor a
  | OFunctor a f => ctor_functor a f
  | OCopy a src => ctor_copy a src
  | OMove a src => ctor_move a src
  | OAssign a src => assign_copy a src
  | OAssignMove a src => assign_move a src
  | OAssignFunctor a f => assign_functor a f
  | OReset a => reset a
  | OSwap a b => swap a b
  | ODtor a => dtor a
  end.

(** Constructors need a free place, the other members an object; and the strategy has to offer
    the copy or the move, otherwise the code does not compile. *)
Definition valid (o : op) (m : contents_map) : Prop :=
  match o with
  | OCtor a | OFunctor a _ => m !! a = None
  | OCopy a src => m !! a = None ∧ is_Some (m !! src) ∧ is_copyable = true
  | OMove a src => m !! a = None ∧ is_Some (m !! src) ∧ is_movable || is_copyable = true
  | OAssign a src => is_Some (m !! a) ∧ is_Some (m !! src) ∧ is_copyable = true
  | OAssignMove a src | OSwap a src =>
      is_Some (m !! a) ∧ is_Some (m !! src) ∧ is_movable || is_copyable = true
  | OAssignFunctor a _ | OReset a | ODtor a => is_Some (m !! a)
  end.

(** The contents after a member: an assignment from the object itself empties it. *)
Definition effect (o : op) (m : contents_map) : contents_map :=
  let get a := default None (m !! a) in
  match o with
  | OCtor a | OReset a => <[a := None]> m
  | OFunctor a f | OAssignFunctor a f => <[a := Some f]> m
  | OCopy a src => <[a := get src]> m
  | OMove a src => moved_out src (<[a := get src]> m)
  | OAssign a src => <[a := if decide (a = src) then None else get src]> m
  | OAssignMove a src =>
      if decide (a = src) then <[a := None]> m else moved_out src (<[a := get src]> m)
  | OSwap a b => <[a := get b]> (<[b := get a]> m)
  | ODtor a => delete a m
  end.

Definition refines (o : op) (w : world) : Prop :=
  ∃ w', exec o w = Ok () w' ∧ ok w' ∧ contents w' = effect o (contents w).

Lemma assign_move_ok a src w :
  ok w → valid (OAssignMove a src) (contents w) → refines (OAssignMove a src) w.
Proof.
  intros Hok ([o Ha] & [o' Hs] & Hm). unfold refines. simpl.
  destruct (reset_ok a o w Hok Ha) as (w1 & E1 & Hok1 & Hc1).
  unfold assign_move. rewrite (bind_Ok _ _ _ _ _ E1).
  destruct (move_ok a src (if decide (a = src) then None else o') w1) as (w2 & E2 & Hok2 & Hc2);
    [done|done|by rewrite Hc1, lookup_insert_eq| |].
  { rewrite Hc1. case_decide as E; [subst; by rewrite lookup_insert_eq|].
    by rewrite lookup_insert_ne. }
  exists w2. split; [done|]. split; [done|]. rewrite Hc2, Hc1, insert_insert_eq.
  case_decide as E.
  - subst. unfold moved_out. destruct is_movable; [by rewrite insert_insert_eq|done].
  - by rewrite Hs.
Qed.

Lemma dtor_ok a w : ok w → valid (ODtor a) (contents w) → refines (ODtor a) w.
Proof.
  intros Hok [o Ha]. unfold refines. simpl.
  destruct (reset_ok a o w Hok Ha) as (w1 & E1 & Hok1 & Hc1).
  unfold dtor. rewrite (bind_Ok _ _ _ _ _ E1). eexists. split; [reflexivity|].
  assert (fns w1 !! a = Some empty_fn) as Hx.
  { apply (contents_Some w1 a None Hok1). by rewrite Hc1, lookup_insert_eq. }
  destruct (erased_ok a w1 Hok1 Hx) as [Hok2 Hc2]. split; [done|].
  rewrite Hc2, Hc1. apply delete_insert_eq.
Qed.

Lemma ctor_move_ok a src w :
  ok w → valid (OMove a src) (contents w) → refines (OMove a src) w.
Proof.
  intros Hok (Ha & [o Hs] & Hm). unfold refines. simpl.
  destruct (new_ok a w Hok (contents_None _ _ Ha)) as (w1 & E1 & Hok1 & Hc1).
  assert (a ≠ src) by congruence. unfold ctor_move. rewrite (bind_Ok _ _ _ _ _ E1).
  destruct (move_ok a src o w1) as (w2 & E2 & Hok2 & Hc2);
    [done|done|by rewrite Hc1, lookup_insert_eq|by rewrite Hc1, lookup_insert_ne|].
  exists w2. split; [done|]. split; [done|]. by rewrite Hc2, Hc1, insert_insert_eq, Hs.
Qed.

Lemma moved_out_lookup src m b :
  moved_out src m !! b =
    if decide (b = src) then (if is_movable then Some None else m !! b) else m !! b.
Proof.
  unfold moved_out. destruct is_movable; case_decide; subst;
    rewrite ?lookup_insert_eq, ?lookup_insert_ne by done; done.
Qed.

(** The four moves of a swap on the contents. *)
Lemma swap_effect a b tmp (m : contents_map) oa ob :
  m !! a = Some oa → m !! b = Some ob → m !! tmp = None →
  effect (ODtor tmp) (effect (OAssignMove a tmp) (effect (OAssignMove b a) (effect (OMove tmp b) m)))
  = effect (OSwap a b) m.
Proof.
  intros Ha Hb Ht. assert (tmp ≠ a) by congruence. assert (tmp ≠ b) by congruence.
  simpl. rewrite (decide_False (P := a = tmp)) by done. rewrite Ha, Hb. simpl.
  apply map_eq. intros k.
  destruct (decide (k = tmp)) as [->|Hkt].
  { rewrite lookup_delete_eq, !lookup_insert_ne by done. done. }
  rewrite lookup_delete_ne, moved_out_lookup, decide_False by done.
  destruct (decide (b = a)) as [->|Hba].
  - simplify_eq. destruct (decide (k = a)) as [->|Hka].
    + rewrite !lookup_insert_eq. f_equal.
      rewrite (lookup_insert_ne _ a), moved_out_lookup, decide_False, lookup_insert_eq by done.
      done.
    + rewrite !(lookup_insert_ne _ a) by done. rewrite moved_out_lookup, decide_False by done.
      by rewrite lookup_insert_ne.
  - destruct (decide (k = a)) as [->|Hka].
    + rewrite !lookup_insert_eq. f_equal.
      rewrite moved_out_lookup, decide_False, (lookup_insert_ne _ b) by done.
      rewrite moved_out_lookup, decide_False, lookup_insert_eq by done. done.
    + rewrite !(lookup_insert_ne _ a) by done.
      rewrite moved_out_lookup, decide_False by done.
      destruct (decide (k = b)) as [->|Hkb].
      * rewrite !lookup_insert_eq. f_equal.
        rewrite moved_out_lookup, decide_False, (lookup_insert_ne _ tmp) by done. by rewrite Ha.
      * rewrite !(lookup_insert_ne _ b) by done.
        rewrite moved_out_lookup, decide_False by done. by rewrite lookup_insert_ne.
Qed.

Lemma is_Some_moved_out src (m : contents_map) b : is_Some (m !! b) → is_Some (moved_out src m !! b).
Proof. intros. rewrite moved_out_lookup. repeat case_match; eauto. Qed.

Lemma is_Some_insert (m : contents_map) a o b : is_Some (m !! b) → is_Some (<[a := o]> m !! b).
Proof. intros. destruct (decide (a = b)) as [->|]; by rewrite ?lookup_insert_eq, ?lookup_insert_ne. Qed.

Lemma swap_ok a b w : ok w → valid (OSwap a b) (contents w) → refines (OSwap a b) w.
Proof.
  intros Hok ([oa Ha] & [ob Hb] & Hm). set (tmp := fresh (dom (fns w))).
  assert (contents w !! tmp = None) as Ht.
  { rewrite contents_lookup. pose proof (is_fresh (dom (fns w))) as Hf.
    apply not_elem_of_dom in Hf. fold tmp in Hf. by rewrite Hf. }
  assert (tmp ≠ a ∧ tmp ≠ b) as [Hta Htb] by (split; congruence).
  destruct (ctor_move_ok tmp b w Hok) as (w1 & E1 & Hok1 & Hc1).
  { split; [done|]. split; [by eexists|done]. }
  destruct (assign_move_ok b a w1 Hok1) as (w2 & E2 & Hok2 & Hc2).
  { rewrite Hc1. split_and!; [| |done]; apply is_Some_moved_out, is_Some_insert; by eexists. }
  assert (is_Some (contents w2 !! a)) as Ha2.
  { rewrite Hc2, Hc1. simpl. case_decide; subst;
      [by rewrite lookup_insert_eq|repeat apply is_Some_moved_out, is_Some_insert; by eexists]. }
  assert (is_Some (contents w2 !! tmp)) as Ht2.
  { rewrite Hc2, Hc1. simpl. case_decide;
      [apply is_Some_insert|apply is_Some_moved_out, is_Some_insert];
      apply is_Some_moved_out; by rewrite lookup_insert_eq. }
  destruct (assign_move_ok a tmp w2 Hok2) as (w3 & E3 & Hok3 & Hc3); [done|].
  destruct (dtor_ok tmp w3 Hok3) as (w4 & E4 & Hok4 & Hc4).
  { rewrite Hc3. simpl. case_decide; [congruence|].
    apply is_Some_moved_out, is_Some_insert. done. }
  exists w4. split; [|split; [done|]].
  - change (exec (OSwap a b) w) with (swap a b w). unfold swap.
    erewrite bind_Ok by reflexivity. fold tmp.
    rewrite (bind_Ok _ _ _ _ _ E1), (bind_Ok _ _ _ _ _ E2), (bind_Ok _ _ _ _ _ E3). exact E4.
  - rewrite Hc4, Hc3, Hc2, Hc1. by eapply swap_effect.
Qed.

Lemma exec_ok o w : ok w → valid o (contents w) → refines o w.
Proof.
  intros Hok Hv. destruct o as [a|a f|a src|a src|a src|a src|a f|a|a b|a].
  - by apply new_ok, contents_None.
  - destruct (new_ok a w Hok (contents_None _ _ Hv)) as (w1 & E1 & Hok1 & Hc1).
    destruct (create_ok a f w1 Hok1) as (w2 & E2 & Hok2 & Hc2); [by rewrite Hc1, lookup_insert_eq|].
    exists w2. split; [simpl; unfold ctor_functor; by rewrite (bind_Ok _ _ _ _ _ E1)|].
    split; [done|]. by rewrite Hc2, Hc1, insert_insert_eq.
  - destruct Hv as (Ha & [o Hs] & Hc).
    destruct (new_ok a w Hok (contents_None _ _ Ha)) as (w1 & E1 & Hok1 & Hc1).
    assert (a ≠ src) by congruence.
    destruct (copy_ok a src o w1) as (w2 & E2 & Hok2 & Hc2);
      [done|done|by rewrite Hc1, lookup_insert_eq|by rewrite Hc1, lookup_insert_ne|].
    exists w2. split; [simpl; unfold ctor_copy; by rewrite (bind_Ok _ _ _ _ _ E1)|].
    split; [done|]. simpl. by rewrite Hc2, Hc1, insert_insert_eq, Hs.
  - by apply ctor_move_ok.
  - destruct Hv as ([o Ha] & [o' Hs] & Hc).
    destruct (reset_ok a o w Hok Ha) as (w1 & E1 & Hok1 & Hc1).
    destruct (copy_ok a src (if decide (a = src) then None else o') w1) as (w2 & E2 & Hok2 & Hc2);
      [done|done|by rewrite Hc1, lookup_insert_eq| |].
    { rewrite Hc1. case_decide; [subst; by rewrite lookup_insert_eq|by rewrite lookup_insert_ne]. }
    exists w2. split; [simpl; unfold assign_copy; by rewrite (bind_Ok _ _ _ _ _ E1)|].
    split; [done|]. simpl. by rewrite Hc2, Hc1, insert_insert_eq, Hs.
  - by apply assign_move_ok.
  - destruct Hv as [o Ha]. destruct (reset_ok a o w Hok Ha) as (w1 & E1 & Hok1 & Hc1).
    destruct (create_ok a f w1 Hok1) as (w2 & E2 & Hok2 & Hc2); [by rewrite Hc1, lookup_insert_eq|].
    exists w2. split; [simpl; unfold assign_functor; by rewrite (bind_Ok _ _ _ _ _ E1)|].
    split; [done|]. by rewrite Hc2, Hc1, insert_insert_eq.
  - destruct Hv as [o Ha]. by eapply reset_ok.
  - by apply swap_ok.
  - by apply dtor_ok.
Qed.

(** The contents after a sequence of valid members, None when one of them is not valid. *)
#[global] Instance valid_dec o m : Decision (valid o m).
Proof. destruct o; simpl; apply _. Defined.

Fixpoint effects (l : list op) (m : contents_map) : option contents_map :=
  match l with
  | [] => Some m
  | o :: l' => if decide (valid o m) then effects l' (effect o m) else None
  end.

Lemma exec_all_ok l w m :
  ok w → effects l (contents w) = Some m →
  ∃ w', for_each exec l w = Ok () w' ∧ ok w' ∧ contents w' = m.
Proof.
  revert w. induction l as [|o l IH]; simpl; intros w Hok Hm; [simplify_eq; eauto|].
  case_decide as Hv; [|done].
  destruct (exec_ok o w Hok Hv) as (w1 & E1 & Hok1 & Hc1).
  rewrite <- Hc1 in Hm. rewrite (bind_Ok _ _ _ _ _ E1). by apply IH.
Qed.

Definition world0 : world := World ∅ ∅ 0.

Lemma world0_ok : ok world0.
Proof. split; simpl; intros *; rewrite ?lookup_empty; done. Qed.

(** C37. Any sequence of the members, with any aliasing of their arguments, runs without undefined
    behaviour and leaves in each function object what it should hold: assignment and swap
    exchange functors, a moved-from object is empty, and an assignment of an object to itself
    empties it. A call runs the functor held, or throws when there is none. Every functor that
    was constructed and not destroyed is held by exactly one object, so none is left when the
    objects are gone. *)
Theorem fixed_function_correct l m :
  effects l ∅ = Some m →
  ∃ w, for_each exec l world0 = Ok () w ∧ contents w = m ∧
    (∀ a o arg, m !! a = Some o →
       operator_call a arg w = Ok ((λ f, run f arg) <$> o) w ∧
       operator_bool a w = Ok (bool_decide (is_Some o)) w) ∧
    (∀ id f, live w !! id = Some f →
       ∃ a, m !! a = Some (Some f) ∧
            ∀ b x, fns w !! b = Some x → storage_ x = Some id → b = a) ∧
    (m = ∅ → live w = ∅).
Proof.
  intros Hm. destruct (exec_all_ok l world0 m world0_ok) as (w & E & Hok & Hc).
  { unfold contents. simpl. by rewrite fmap_empty. }
  exists w. split; [done|]. split; [done|]. subst m.
  assert (∀ id f, live w !! id = Some f →
    ∃ a, contents w !! a = Some (Some f) ∧
         ∀ b x, fns w !! b = Some x → storage_ x = Some id → b = a) as Hlive.
  { intros id f Hf. destruct (ok_owned _ Hok id f Hf) as (a & x & Ha & Hs). exists a. split.
    - rewrite contents_lookup, Ha. simpl. rewrite Hs. simpl. by rewrite Hf.
    - intros b y Hb Hy. by apply (ok_inj _ Hok b a y x id). }
  split; [|split; [done|]].
  - intros a o arg Ha%contents_Some; [|done]. unfold operator_call, operator_bool.
    destruct o as [f|]; [destruct Ha as (id & Ha & Hf)|];
      rewrite !(bind_Ok _ _ _ _ _ (get_fn_eq _ _ _ Ha)); simpl; [|done].
    rewrite (bind_Ok _ _ _ _ _ (stored_eq (Fsf vtable1 (Some id)) id f w eq_refl Hf)). done.
  - intros He. apply map_eq. intros id. rewrite lookup_empty.
    destruct (live w !! id) as [f|] eqn:Hf; [|done].
    destruct (Hlive id f Hf) as (a & Ha & _). by rewrite He in Ha.
Qed.
End fixed_function.

(** Functors that add a number: two objects are swapped, one is copied and all are destroyed. *)
Lemma fixed_function_correct_witness :
  ∃ w, for_each (exec (λ _ : Z, 0) copy_and_move)
         [OFunctor 1 5; OCtor 2; OSwap 1 2; OCopy 3 2; OAssign 2 2] world0 = Ok () w ∧
       contents w = {[ 1%nat := None; 2%nat := None; 3%nat := Some 5 ]} ∧
       operator_call Z.add 3 10 w = Ok (Some 15) w.
Proof.
  destruct (fixed_function_correct Z.add (λ _ : Z, 0) copy_and_move
    [OFunctor 1 5; OCtor 2; OSwap 1 2; OCopy 3 2; OAssign 2 2]
    {[ 1%nat := None; 2%nat := None; 3%nat := Some 5 ]}) as (w & E & Hc & Hcall & _).
  { vm_compute. reflexivity. }
  exists w. split; [exact E|]. split; [exact Hc|].
  exact (proj1 (Hcall 3%nat (Some 5) 10 eq_refl)).
Defined.
