(* ===== verification/LogStream.v ===== *)
(** * LogStream: string views and the log buffer (base/logging/string_piece.h, log_stream.h)

    A pointer to characters is an array and an offset in it, so that reading
    or writing out of the array is visible. *)
From S2P Require Import Prelude CString.

(** ** Memory *)

(** A [const char *] that is not null. *)
Record ptr : Type := Ptr { arr : list ascii; off : Z }.

Definition NUL : ascii := ascii_of_nat 0.

(** [c_str()] *)
Definition c_str (s : list ascii) : ptr := Ptr (s ++ [NUL]) 0.

Definition ptr_add (p : option ptr) (n : Z) : option ptr :=
  (λ q, Ptr (arr q) (off q + n)) <$> p.

(** The [n] bytes at a pointer; no byte is read when [n] is 0, whatever the pointer. *)
Definition read_bytes (p : option ptr) (n : Z) : option (list ascii) :=
  if n =? 0 then Some []
  else match p with
       | None => None
       | Some q =>
           if (0 <=? n) && (0 <=? off q) && (off q + n <=? Z.of_nat (length (arr q)))
           then Some (take (Z.to_nat n) (drop (Z.to_nat (off q)) (arr q))) else None
       end.

Fixpoint to_nul (l : list ascii) : option nat :=
  match l with
  | [] => None
  | c :: l' => if decide (c = NUL) then Some 0%nat else S <$> to_nul l'
  end.

(** None: the array has no terminator. *)
Definition strlen (p : ptr) : option Z :=
  if 0 <=? off p then Z.of_nat <$> to_nul (drop (Z.to_nat (off p)) (arr p)) else None.

Definition byte_of (c : ascii) : Z := Z.of_nat (nat_of_ascii c).

(** Bytes compare as unsigned char. *)
Fixpoint lex (l k : list ascii) : comparison :=
  match l, k with
  | [], [] => Eq
  | [], _ => Lt
  | _, [] => Gt
  | c :: l', d :: k' =>
      match byte_of c ?= byte_of d with Eq => lex l' k' | r => r end
  end.

(** An [int] with the sign of a comparison. *)
Definition sign (c : comparison) : Z := match c with Lt => -1 | Eq => 0 | Gt => 1 end.

(** [memcmp]; None when it reads out of an array. *)
Definition memcmp (p q : option ptr) (n : Z) : option Z :=
  l ← read_bytes p (u64 n); k ← read_bytes q (u64 n); Some (sign (lex l k)).

Module StringPiece.
Record t : Type := mk { ptr_ : option ptr; length_ : Z }.

Definition ctor : t := mk None 0.
Definition ctor_cstr (str : ptr) : option t :=
  n ← strlen str; Some (mk (Some str) (i32 n)).
(** from a [std::string] *)
Definition ctor_string (str : list ascii) : t :=
  mk (Some (c_str str)) (i32 (Z.of_nat (length str))).
Definition ctor_len (offset : option ptr) (len : Z) : t := mk offset len.

Definition data (x : t) : option ptr := ptr_ x.
Definition size (x : t) : Z := length_ x.
Definition empty (x : t) : bool := length_ x =? 0.
Definition begin_ (x : t) : option ptr := ptr_ x.
Definition end_ (x : t) : option ptr := ptr_add (ptr_ x) (length_ x).

Definition clear (_ : t) : t := mk None 0.
Definition set (buffer : option ptr) (len : Z) (_ : t) : t := mk buffer len.
Definition set_cstr (str : ptr) (_ : t) : option t := n ← strlen str; Some (mk (Some str) (i32 n)).

Definition operator_at (i : Z) (x : t) : option ascii := read_bytes (ptr_add (ptr_ x) i) 1 ≫= head.

Definition remove_prefix (n : Z) (x : t) : t := mk (ptr_add (ptr_ x) n) (i32 (length_ x - n)).
Definition remove_suffix (n : Z) (x : t) : t := mk (ptr_ x) (i32 (length_ x - n)).

Definition operator_eq (this x : t) : option bool :=
  if length_ this =? length_ x
  then r ← memcmp (ptr_ this) (ptr_ x) (length_ this); Some (r =? 0) else Some false.
Definition operator_ne (this x : t) : option bool := negb <$> operator_eq this x.

(** STRINGPIECE_BINARY_PREDICATE(cmp, auxcmp) *)
Definition predicate (cmp auxcmp : Z → Z → bool) (this x : t) : option bool :=
  r ← memcmp (ptr_ this) (ptr_ x)
             (if length_ this <? length_ x then length_ this else length_ x);
  Some (auxcmp r 0 || ((r =? 0) && cmp (length_ this) (length_ x))).
Definition operator_lt : t → t → option bool := predicate Z.ltb Z.ltb.
Definition operator_le : t → t → option bool := predicate Z.leb Z.ltb.
Definition operator_ge : t → t → option bool := predicate Z.geb Z.gtb.
Definition operator_gt : t → t → option bool := predicate Z.gtb Z.gtb.

Definition compare (this x : t) : option Z :=
  r ← memcmp (ptr_ this) (ptr_ x)
             (if length_ this <? length_ x then length_ this else length_ x);
  Some (if r =? 0
        then (if length_ this <? length_ x then -1 else if length_ this >? length_ x then 1 else r)
        else r).

Definition as_string (x : t) : option (list ascii) := read_bytes (data x) (u64 (size x)).
Definition CopyToStdString (x : t) : option (list ascii) := read_bytes (ptr_ x) (u64 (length_ x)).

Definition starts_with (this x : t) : option bool :=
  if length_ this >=? length_ x
  then r ← memcmp (ptr_ this) (ptr_ x) (length_ x); Some (r =? 0) else Some false.
End StringPiece.

(** ** The views *)

Import StringPiece.

(** [x] is a view of the bytes [b]. *)
Definition views (x : StringPiece.t) (b : list ascii) : Prop :=
  read_bytes (ptr_ x) (length_ x) = Some b ∧ 0 ≤ length_ x ≤ INT_MAX.

Lemma byte_of_inj c d : byte_of c = byte_of d → c = d.
Proof.
  unfold byte_of. intros H%Nat2Z.inj. by rewrite <- (ascii_nat_embedding c), H, ascii_nat_embedding.
Qed.

Lemma lex_refl l : lex l l = Eq.
Proof. induction l as [|c l IH]; simpl; [done|]. by rewrite Z.compare_refl. Qed.

Lemma lex_Eq l k : lex l k = Eq ↔ l = k.
Proof.
  split; [|intros ->; apply lex_refl].
  revert k. induction l as [|c l IH]; intros [|d k]; simpl; try done.
  destruct (Z.compare_spec (byte_of c) (byte_of d)) as [H| |]; [|done..].
  intros ->%IH. by apply byte_of_inj in H as ->.
Qed.

Lemma read_bytes_length p n b : read_bytes p n = Some b → Z.of_nat (length b) = n.
Proof.
  unfold read_bytes. destruct (Z.eqb_spec n 0) as [->|Hn]; [by intros [= <-]|].
  destruct p as [q|]; [|done]. case_match eqn:E; [|done]. intros [= <-].
  apply andb_true_iff in E as [[H1 H2]%andb_true_iff H3].
  rewrite length_take, length_drop. lia.
Qed.

(** Reading less reads a prefix. *)
Lemma read_bytes_prefix p n m b :
  read_bytes p n = Some b → 0 ≤ m ≤ n → read_bytes p m = Some (take (Z.to_nat m) b).
Proof.
  unfold read_bytes. intros Hr Hm.
  destruct (Z.eqb_spec m 0) as [->|Hm0]; [done|].
  destruct (Z.eqb_spec n 0) as [->|Hn0]; [lia|].
  destruct p as [q|]; [|done]. case_match eqn:E; [|done]. injection Hr as <-.
  apply andb_true_iff in E as [[H1 H2]%andb_true_iff H3].
  rewrite (proj2 (Z.leb_le 0 m)), H2, (proj2 (Z.leb_le _ _)) by lia. simpl.
  f_equal. rewrite take_take. f_equal. lia.
Qed.

(** Comparing the common length first, and then the lengths, is the lexicographic order. *)
Lemma lex_take l k :
  lex l k = match lex (take (min (length l) (length k)) l) (take (min (length l) (length k)) k) with
            | Eq => Z.of_nat (length l) ?= Z.of_nat (length k)
            | r => r
            end.
Proof.
  revert k. induction l as [|c l IH]; intros [|d k]; try done.
  cbn [lex length min take]. rewrite IH. destruct (byte_of c ?= byte_of d); try done.
  rewrite !Nat2Z.inj_succ. case_match; try done.
  destruct (Z.compare_spec (Z.of_nat (length l)) (Z.of_nat (length k)));
    symmetry; [apply Z.compare_eq_iff|apply Z.compare_lt_iff|apply Z.compare_gt_iff]; lia.
Qed.

Lemma memcmp_views x y bx b_y :
  views x bx → views y b_y →
  memcmp (ptr_ x) (ptr_ y) (if length_ x <? length_ y then length_ x else length_ y) =
    Some (sign (lex (take (min (length bx) (length b_y)) bx)
                    (take (min (length bx) (length b_y)) b_y))).
Proof.
  intros [Hx Hlx] [Hy Hly]. pose proof (read_bytes_length _ _ _ Hx).
  pose proof (read_bytes_length _ _ _ Hy). unfold memcmp, INT_MAX in *.
  rewrite u64_small by (unfold UINT64_MAX; destruct (length_ x <? length_ y); lia).
  destruct (Z.ltb_spec (length_ x) (length_ y));
    rewrite (read_bytes_prefix _ _ _ _ Hx), (read_bytes_prefix _ _ _ _ Hy) by lia; simpl;
    do 3 f_equal; f_equal; lia.
Qed.

(** The order of a view is the lexicographic order of its bytes. *)
Lemma compare_views x y bx b_y :
  views x bx → views y b_y → compare x y = Some (sign (lex bx b_y)).
Proof.
  intros Hx Hy. unfold compare. rewrite (memcmp_views x y bx b_y) by done. simpl.
  rewrite (lex_take bx b_y). destruct Hx as [Hx _], Hy as [Hy _].
  rewrite (read_bytes_length _ _ _ Hx), (read_bytes_length _ _ _ Hy).
  destruct (lex _ _); simpl; [|done..]. f_equal.
  destruct (Z.compare_spec (length_ x) (length_ y)) as [Hc|Hc|Hc]; simpl.
  - rewrite Hc, Z.ltb_irrefl, Z.gtb_ltb, Z.ltb_irrefl. done.
  - by rewrite (proj2 (Z.ltb_lt _ _)).
  - rewrite (proj2 (Z.ltb_ge _ _)) by lia. rewrite Z.gtb_ltb. by rewrite (proj2 (Z.ltb_lt _ _)).
Qed.

Lemma predicate_views cmp auxcmp x y bx b_y :
  views x bx → views y b_y →
  auxcmp 0 0 = false →
  predicate cmp auxcmp x y =
    Some (match lex (take (min (length bx) (length b_y)) bx)
                    (take (min (length bx) (length b_y)) b_y) with
          | Eq => cmp (length_ x) (length_ y)
          | r => auxcmp (sign r) 0
          end).
Proof.
  intros Hx Hy Ha. unfold predicate. rewrite (memcmp_views x y bx b_y) by done. simpl.
  f_equal. destruct (lex _ _); simpl; rewrite ?Ha, ?orb_false_r; done.
Qed.

Lemma operator_eq_views x y bx b_y :
  views x bx → views y b_y → operator_eq x y = Some (bool_decide (bx = b_y)).
Proof.
  intros Hx Hy. assert (Hx' := Hx). assert (Hy' := Hy).
  destruct Hx as [Hx Hlx], Hy as [Hy Hly].
  pose proof (read_bytes_length _ _ _ Hx). pose proof (read_bytes_length _ _ _ Hy).
  unfold operator_eq. destruct (Z.eqb_spec (length_ x) (length_ y)) as [E|E].
  - unfold memcmp, INT_MAX in *. rewrite u64_small by (unfold UINT64_MAX; lia).
    rewrite E in Hx. rewrite E, Hx, Hy. simpl. f_equal.
    destruct (decide (bx = b_y)) as [->|Hne].
    + by rewrite lex_refl, bool_decide_eq_true_2.
    + rewrite bool_decide_eq_false_2 by done.
      destruct (lex bx b_y) eqn:El; [by apply lex_Eq in El|done..].
  - rewrite bool_decide_eq_false_2; [done|]. intros ->. congruence.
Qed.

(** The four relations agree with [compare]. *)
Lemma relations_views x y bx b_y :
  views x bx → views y b_y →
  operator_lt x y = Some (bool_decide (lex bx b_y = Lt)) ∧
  operator_le x y = Some (bool_decide (lex bx b_y ≠ Gt)) ∧
  operator_ge x y = Some (bool_decide (lex bx b_y ≠ Lt)) ∧
  operator_gt x y = Some (bool_decide (lex bx b_y = Gt)).
Proof.
  intros Hx Hy. unfold operator_lt, operator_le, operator_ge, operator_gt.
  rewrite !(predicate_views _ _ x y bx b_y) by done. rewrite (lex_take bx b_y).
  destruct Hx as [Hx _], Hy as [Hy _].
  rewrite (read_bytes_length _ _ _ Hx), (read_bytes_length _ _ _ Hy).
  destruct (lex _ _); simpl; [|done..]. rewrite Z.geb_leb, Z.gtb_ltb.
  unfold Z.ltb, Z.leb. rewrite (Z.compare_antisym (length_ y)).
  by destruct (length_ y ?= length_ x).
Qed.

Lemma starts_with_views x y bx b_y :
  views x bx → views y b_y → starts_with x y = Some (bool_decide (b_y `prefix_of` bx)).
Proof.
  intros [Hx Hlx] [Hy Hly].
  pose proof (read_bytes_length _ _ _ Hx) as Lx. pose proof (read_bytes_length _ _ _ Hy) as Ly.
  unfold starts_with. rewrite Z.geb_leb. destruct (Z.leb_spec (length_ y) (length_ x)) as [E|E].
  - unfold memcmp, INT_MAX in *. rewrite u64_small by (unfold UINT64_MAX; lia).
    rewrite (read_bytes_prefix _ _ _ _ Hx), Hy by lia. simpl. f_equal.
    replace (Z.to_nat (length_ y)) with (length b_y) by lia.
    destruct (decide (take (length b_y) bx = b_y)) as [Ht|Ht].
    + rewrite Ht, lex_refl, bool_decide_eq_true_2; [done|].
      rewrite <- Ht at 1. apply prefix_take.
    + rewrite bool_decide_eq_false_2 by (intros [z ->]; by rewrite take_app_length in Ht).
      destruct (lex _ _) eqn:El; [by apply lex_Eq in El|done..].
  - rewrite bool_decide_eq_false_2; [done|]. intros Hp%prefix_length. lia.
Qed.

Lemma as_string_views x b : views x b → as_string x = Some b ∧ CopyToStdString x = Some b.
Proof.
  intros [Hx Hl]. unfold as_string, CopyToStdString, data, size, INT_MAX in *.
  by rewrite u64_small by (unfold UINT64_MAX; lia).
Qed.

Lemma remove_suffix_views x b n :
  views x b → 0 ≤ n ≤ length_ x →
  views (remove_suffix n x) (take (length b - Z.to_nat n) b).
Proof.
  intros [Hx Hl] Hn. pose proof (read_bytes_length _ _ _ Hx) as L.
  unfold views, remove_suffix, INT_MAX in *. simpl.
  rewrite i32_small by (unfold INT_MAX; lia). split; [|lia].
  rewrite (read_bytes_prefix _ _ _ _ Hx) by lia. do 2 f_equal. lia.
Qed.

Lemma remove_prefix_views x b n :
  views x b → 0 ≤ n ≤ length_ x → views (remove_prefix n x) (drop (Z.to_nat n) b).
Proof.
  intros [Hx Hl] Hn. pose proof (read_bytes_length _ _ _ Hx) as L.
  unfold views, remove_prefix, INT_MAX in *. simpl.
  rewrite i32_small by (unfold INT_MAX; lia). split; [|lia].
  unfold read_bytes in *. destruct (Z.eqb_spec (length_ x) 0) as [E0|E0].
  - injection Hx as <-. rewrite (proj2 (Z.eqb_eq _ _)) by lia. by rewrite drop_nil.
  - destruct (ptr_ x) as [q|]; [|done]. simpl. case_match eqn:E; [|done]. injection Hx as <-.
    apply andb_true_iff in E as [[H1 H2]%andb_true_iff H3].
    destruct (Z.eqb_spec (length_ x - n) 0) as [E1|E1].
    + rewrite drop_ge; [done|]. lia.
    + rewrite !(proj2 (Z.leb_le _ _)) by lia. simpl. f_equal.
      rewrite skipn_firstn_comm, drop_drop. f_equal; [lia|]. f_equal. lia.
Qed.

(** What the constructors view. *)
Lemma to_nul_app s : NUL ∉ s → to_nul (s ++ [NUL]) = Some (length s).
Proof.
  induction s as [|c s IH]; simpl; intros Hn; [done|].
  apply not_elem_of_cons in Hn as [Hc Hn]. rewrite decide_False by congruence. by rewrite IH.
Qed.

Lemma read_c_str s : read_bytes (Some (c_str s)) (Z.of_nat (length s)) = Some s.
Proof.
  unfold read_bytes. destruct (Z.eqb_spec (Z.of_nat (length s)) 0) as [E|E].
  - destruct s; [done|simpl in E; lia].
  - simpl. rewrite length_app. simpl. rewrite !(proj2 (Z.leb_le _ _)) by lia. simpl.
    f_equal. rewrite Nat2Z.id, drop_0. by rewrite take_app_length.
Qed.

Lemma strlen_c_str s : NUL ∉ s → strlen (c_str s) = Some (Z.of_nat (length s)).
Proof. intros Hn. unfold strlen, c_str. simpl. change (Z.to_nat 0) with 0%nat. by rewrite drop_0, to_nul_app. Qed.

Lemma ctor_string_views s : Z.of_nat (length s) ≤ INT_MAX → views (ctor_string s) s.
Proof.
  intros Hl. unfold views, ctor_string. simpl. rewrite i32_small by lia.
  split; [apply read_c_str|lia].
Qed.

Lemma ctor_cstr_views s :
  NUL ∉ s → Z.of_nat (length s) ≤ INT_MAX →
  ∃ x, ctor_cstr (c_str s) = Some x ∧ views x s.
Proof.
  intros Hn Hl. unfold ctor_cstr. rewrite strlen_c_str by done. simpl. eexists. split; [done|].
  by apply ctor_string_views.
Qed.

(** Two views compare as the byte strings they view, in the lexicographic order of unsigned
    bytes, whatever arrays they point into: [==], [!=], the four order relations and [compare]
    agree with it, [starts_with] is the prefix relation, and the strings made of a view are its
    bytes; no comparison reads outside of the arrays. *)
Theorem string_piece_order x y bx b_y :
  views x bx → views y b_y →
  compare x y = Some (sign (lex bx b_y)) ∧
  operator_eq x y = Some (bool_decide (bx = b_y)) ∧
  operator_ne x y = Some (bool_decide (bx ≠ b_y)) ∧
  operator_lt x y = Some (bool_decide (lex bx b_y = Lt)) ∧
  operator_le x y = Some (bool_decide (lex bx b_y ≠ Gt)) ∧
  operator_ge x y = Some (bool_decide (lex bx b_y ≠ Lt)) ∧
  operator_gt x y = Some (bool_decide (lex bx b_y = Gt)) ∧
  starts_with x y = Some (bool_decide (b_y `prefix_of` bx)) ∧
  as_string x = Some bx ∧ CopyToStdString x = Some bx ∧
  (∀ n, 0 ≤ n ≤ size x →
     views (remove_prefix n x) (drop (Z.to_nat n) bx) ∧
     views (remove_suffix n x) (take (length bx - Z.to_nat n) bx)).
Proof.
  intros Hx Hy. destruct (relations_views x y bx b_y Hx Hy) as (H1 & H2 & H3 & H4).
  destruct (as_string_views x bx Hx) as [H5 H6].
  split_and!; try done.
  - by apply compare_views.
  - by apply operator_eq_views.
  - unfold operator_ne. rewrite (operator_eq_views x y bx b_y) by done. simpl.
    by rewrite bool_decide_not.
  - by apply starts_with_views.
  - intros n Hn. split; [by apply remove_prefix_views|by apply remove_suffix_views].
Qed.

Lemma string_piece_order_witness :
  let x := ctor_string (chars "jkv") in let y := ctor_len (Some (c_str (chars "xjk"))) 3 in
  views x (chars "jkv") ∧ views y (chars "xjk") ∧
  compare x y = Some (-1) ∧ operator_lt x y = Some true.
Proof.
  intros x y. assert (views x (chars "jkv")) as Hx by (split; [reflexivity|vm_compute; split; discriminate]).
  assert (views y (chars "xjk")) as Hy by (split; [reflexivity|vm_compute; split; discriminate]).
  destruct (string_piece_order x y _ _ Hx Hy) as (H1 & _ & _ & H2 & _).
  split; [exact Hx|]. split; [exact Hy|]. split; [exact H1|exact H2].
Defined.

(** ** The buffer *)

Module FixedBuffer.
Inductive cookie : Type := cookieStart | cookieEnd.

(** [data_] has the size the template argument gives; [cur_] is an offset in it. *)
Record t : Type := mk { cookie_ : cookie; data_ : list ascii; cur_ : Z }.

Definition SIZE (s : t) : Z := Z.of_nat (length (data_ s)).

(** [garbage] is what the memory holds. *)
Definition ctor (garbage : list ascii) : t := mk cookieStart garbage 0.
Definition setCookie (c : cookie) (s : t) : t := mk c (data_ s) (cur_ s).
Definition dtor : t → t := setCookie cookieEnd.

Definition end_ (s : t) : Z := SIZE s.
Definition avail (s : t) : Z := i32 (end_ s - cur_ s).
Definition length_ (s : t) : Z := i32 (cur_ s).
Definition data (s : t) : option ptr := Some (Ptr (data_ s) 0).
Definition current (s : t) : option ptr := Some (Ptr (data_ s) (cur_ s)).

(** [memcpy(cur_, buf, n)] *)
Definition memcpy (buf : option ptr) (n : Z) : M t unit := λ s,
  match read_bytes buf n with
  | None => Ub "memcpy reads out of bounds"
  | Some b =>
      if (0 <=? cur_ s) && (cur_ s + n <=? SIZE s)
      then Ok () (mk (cookie_ s)
                     (take (Z.to_nat (cur_ s)) (data_ s) ++ b ++
                      drop (Z.to_nat (cur_ s + n)) (data_ s)) (cur_ s))
      else Ub "memcpy writes out of bounds"
  end.

Definition add (len : Z) : M t unit := modify (λ s, mk (cookie_ s) (data_ s) (cur_ s + len)).

Definition append (buf : option ptr) (len : Z) : M t unit :=
  s ← get_state;
  if u64 (avail s) >? len then memcpy buf len ;; add len
  else memcpy buf (u64 (avail s)) ;; add (avail s).

Definition reset : M t unit := modify (λ s, mk (cookie_ s) (data_ s) 0).
Definition bzero : M t unit :=
  modify (λ s, mk (cookie_ s) (replicate (length (data_ s)) NUL) (cur_ s)).

Definition toString (s : t) : option (list ascii) := read_bytes (data s) (u64 (length_ s)).
Definition toStringPiece (s : t) : StringPiece.t := StringPiece.ctor_len (data s) (length_ s).

(** [b] has been written. *)
Record holds (n : nat) (b : list ascii) (s : t) : Prop := {
  holds_size : length (data_ s) = n;
  holds_cur : cur_ s = Z.of_nat (length b);
  holds_data : take (length b) (data_ s) = b;
  holds_range : Z.of_nat n ≤ INT_MAX
}.

Lemma holds_le n b s : holds n b s → (length b ≤ n)%nat.
Proof. intros [Hs _ Hd _]. rewrite <- Hd, <- Hs. rewrite length_take. lia. Qed.

Lemma avail_eq n b s : holds n b s → avail s = Z.of_nat (n - length b).
Proof.
  intros Hh. pose proof (holds_le _ _ _ Hh). destruct Hh as [Hs Hc _ Hr]. unfold INT_MAX in *.
  unfold avail, end_, SIZE. rewrite Hs, Hc, i32_small by (unfold INT_MAX; lia). lia.
Qed.

Lemma memcpy_add n b s buf c :
  holds n b s → read_bytes buf (Z.of_nat (length c)) = Some c → (length b + length c ≤ n)%nat →
  ∃ s', ((memcpy buf (Z.of_nat (length c)) ;; add (Z.of_nat (length c))) : M t unit) s = Ok () s' ∧
        holds n (b ++ c) s'.
Proof.
  intros [Hs Hc Hd Hr] Hb Hle. unfold memcpy, SIZE.
  rewrite bind_eq, Hb, Hc, Hs, !(proj2 (Z.leb_le _ _)) by lia. simpl.
  eexists. split; [reflexivity|]. split; simpl; [| | |done].
  - rewrite !length_app, length_take, length_drop. lia.
  - rewrite length_app. lia.
  - rewrite Nat2Z.id, Hd, app_assoc, take_app_length. done.
Qed.

(** Appending writes what fits. *)
Lemma append_holds n b s buf len c :
  holds n b s → 0 ≤ len ≤ UINT64_MAX → read_bytes buf len = Some c →
  ∃ s', append buf len s = Ok () s' ∧ holds n (take n (b ++ c)) s'.
Proof.
  intros Hh Hl Hb. pose proof (holds_le _ _ _ Hh) as Hle. pose proof (avail_eq _ _ _ Hh) as Ha.
  pose proof (read_bytes_length _ _ _ Hb) as Hlen. pose proof (holds_range _ _ _ Hh) as Hr.
  unfold append, INT_MAX in *. erewrite bind_Ok by reflexivity.
  rewrite Ha, u64_small by (unfold UINT64_MAX; lia). rewrite Z.gtb_ltb.
  destruct (Z.ltb_spec len (Z.of_nat (n - length b))) as [Hlt|Hge].
  - rewrite <- Hlen in *. rewrite take_ge by (rewrite length_app; lia).
    apply memcpy_add; [done|done|lia].
  - set (c' := take (n - length b) c).
    assert (length c' = n - length b)%nat as Hc' by (unfold c'; rewrite length_take; lia).
    rewrite take_app_ge by lia. fold c'. rewrite <- Hc'.
    apply memcpy_add; [done| |lia].
    rewrite (read_bytes_prefix _ _ _ _ Hb) by lia. by rewrite Nat2Z.id, Hc'.
Qed.

Lemma toString_holds n b s : holds n b s → toString s = Some b ∧ views (toStringPiece s) b.
Proof.
  intros Hh. pose proof (holds_le _ _ _ Hh) as Hle. destruct Hh as [Hs Hc Hd Hr].
  unfold INT_MAX in *.
  assert (read_bytes (data s) (Z.of_nat (length b)) = Some b) as Hb.
  { unfold read_bytes, data. destruct (Z.eqb_spec (Z.of_nat (length b)) 0) as [E|E].
    - destruct b; [done|simpl in E; lia].
    - simpl. rewrite (proj2 (Z.leb_le 0 (Z.of_nat _))), (proj2 (Z.leb_le (0 + _) _)) by lia.
      simpl. by rewrite Nat2Z.id, drop_0, Hd. }
  unfold toString, length_, views, toStringPiece, ctor_len, length_. simpl.
  rewrite Hc, i32_small, u64_small by (unfold INT_MAX, UINT64_MAX; lia).
  split; [done|]. split; [done|]. unfold INT_MAX. lia.
Qed.

Lemma reset_holds n b s : holds n b s → ∃ s', reset s = Ok () s' ∧ holds n [] s'.
Proof. intros [? ? ? ?]. eexists. split; [reflexivity|]. by split. Qed.
End FixedBuffer.

(** ** The stream *)

Module LogStream.
Definition kSmallBuffer : nat := 4000.

(** [Fmt] holds a number printed by snprintf in the library. *)
Record Fmt : Type := mkFmt { buf_ : list ascii; fmt_length_ : Z }.
Definition Fmt_data (f : Fmt) : option ptr := Some (Ptr (buf_ f) 0).

(** The state is the member [buffer_]. *)
Notation stream := FixedBuffer.t.

Definition insert_bool (v : bool) : M stream unit :=
  FixedBuffer.append (Some (c_str (if v then chars "1" else chars "0"))) 1.
Definition insert_char (v : ascii) : M stream unit :=
  FixedBuffer.append (Some (Ptr [v] 0)) 1.
Definition insert_cstr (str : option ptr) : M stream unit :=
  match str with
  | Some p => match strlen p with
              | Some n => FixedBuffer.append (Some p) n
              | None => ub "strlen reads out of bounds"
              end
  | None => FixedBuffer.append (Some (c_str (chars "(null)"))) 6
  end.
(** [reinterpret_cast<const char *>] *)
Definition insert_ucstr : option ptr → M stream unit := insert_cstr.
Definition insert_string (v : list ascii) : M stream unit :=
  FixedBuffer.append (Some (c_str v)) (Z.of_nat (length v)).
Definition insert_piece (v : StringPiece.t) : M stream unit :=
  FixedBuffer.append (StringPiece.data v) (u64 (StringPiece.size v)).
Definition insert_buffer (v : FixedBuffer.t) : M stream unit :=
  insert_piece (FixedBuffer.toStringPiece v).
Definition append (data : option ptr) (len : Z) : M stream unit :=
  FixedBuffer.append data (u64 len).
Definition resetBuffer : M stream unit := FixedBuffer.reset.
Definition insert_fmt (f : Fmt) : M stream unit := append (Fmt_data f) (fmt_length_ f).

(** What is inserted. *)
Inductive item : Type :=
| IBool (v : bool) | IChar (v : ascii) | ICStr (str : option (list ascii))
| IString (v : list ascii) | IPiece (v : StringPiece.t) | IBuffer (v : FixedBuffer.t)
| IFmt (f : Fmt).

Definition insert (i : item) : M stream unit :=
  match i with
  | IBool v => insert_bool v
  | IChar v => insert_char v
  | ICStr str => insert_cstr (c_str <$> str)
  | IString v => insert_string v
  | IPiece v => insert_piece v
  | IBuffer v => insert_buffer v
  | IFmt f => insert_fmt f
  end.

(** [t] is the text of an item that is well formed. *)
Inductive text : item → list ascii → Prop :=
| text_bool v : text (IBool v) (if v then chars "1" else chars "0")
| text_char v : text (IChar v) [v]
| text_null : text (ICStr None) (chars "(null)")
| text_cstr s : NUL ∉ s → Z.of_nat (length s) ≤ INT_MAX → text (ICStr (Some s)) s
| text_string s : Z.of_nat (length s) ≤ INT_MAX → text (IString s) s
| text_piece v b : views v b → text (IPiece v) b
| text_buffer n b v : FixedBuffer.holds n b v → text (IBuffer v) b
| text_fmt f : 0 ≤ fmt_length_ f ≤ Z.of_nat (length (buf_ f)) → length (buf_ f) = 32%nat →
    text (IFmt f) (take (Z.to_nat (fmt_length_ f)) (buf_ f)).

Lemma insert_holds n b s i t :
  text i t → FixedBuffer.holds n b s →
  ∃ s', insert i s = Ok () s' ∧ FixedBuffer.holds n (take n (b ++ t)) s'.
Proof.
  intros Ht Hh. unfold INT_MAX in *.
  assert (∀ v c, views v c → ∃ s', insert_piece v s = Ok () s' ∧
            FixedBuffer.holds n (take n (b ++ c)) s') as Hpiece.
  { intros v c [Hv Hl]. unfold INT_MAX in Hl. unfold insert_piece, StringPiece.size.
    rewrite u64_small by (unfold UINT64_MAX; lia).
    apply FixedBuffer.append_holds; [done|unfold UINT64_MAX; lia|done]. }
  destruct Ht as [v|v| |str Hn Hl|str Hl|v c Hv|k c v Hv|f Hf Hb]; simpl.
  - apply FixedBuffer.append_holds; [done|unfold UINT64_MAX; lia|by destruct v].
  - apply FixedBuffer.append_holds; [done|unfold UINT64_MAX; lia|done].
  - apply FixedBuffer.append_holds; [done|unfold UINT64_MAX; lia|done].
  - rewrite strlen_c_str by done.
    apply FixedBuffer.append_holds; [done|unfold INT_MAX, UINT64_MAX in *; lia|apply read_c_str].
  - apply FixedBuffer.append_holds; [done|unfold INT_MAX, UINT64_MAX in *; lia|apply read_c_str].
  - by apply Hpiece.
  - apply Hpiece. by apply (FixedBuffer.toString_holds k).
  - unfold insert_fmt, append. rewrite u64_small by (unfold UINT64_MAX; lia).
    apply FixedBuffer.append_holds; [done|unfold UINT64_MAX; lia|].
    apply (read_bytes_prefix _ (Z.of_nat (length (buf_ f)))); [|done].
    unfold read_bytes, Fmt_data. rewrite Hb. simpl. rewrite Hb. simpl. f_equal. 
    change (drop _ _) with (buf_ f). by rewrite take_ge by (rewrite Hb; done).
Qed.

Lemma take_app_take {A} n (l k : list A) : take n (take n l ++ k) = take n (l ++ k).
Proof.
  rewrite !take_app, take_take, Nat.min_id, length_take. f_equal. f_equal. lia.
Qed.

(** C40. A log record: any sequence of insertions into a stream whose buffer has [n] bytes runs
    within the bounds of the buffer and of what is inserted, and the buffer holds the first [n]
    bytes of the concatenation of the texts; nothing is dropped before the buffer is full. *)
Theorem log_stream_contents n garbage items ts :
  length garbage = n → Z.of_nat n ≤ INT_MAX → Forall2 text items ts →
  ∃ s, for_each insert items (FixedBuffer.ctor garbage) = Ok () s ∧
       FixedBuffer.toString s = Some (take n (concat ts)) ∧
       views (FixedBuffer.toStringPiece s) (take n (concat ts)) ∧
       ∃ s', resetBuffer s = Ok () s' ∧ FixedBuffer.toString s' = Some [].
Proof.
  intros Hg Hn Hts.
  assert (∀ b s, FixedBuffer.holds n b s →
    ∃ s', for_each insert items s = Ok () s' ∧ FixedBuffer.holds n (take n (b ++ concat ts)) s') as H.
  { induction Hts as [|i t items ts Ht _ IH]; simpl; intros b s Hh.
    - exists s. split; [done|]. rewrite app_nil_r, take_ge; [done|].
      by eapply FixedBuffer.holds_le.
    - destruct (insert_holds n b s i t Ht Hh) as (s1 & E1 & Hh1).
      destruct (IH _ _ Hh1) as (s2 & E2 & Hh2). exists s2.
      rewrite (bind_Ok _ _ _ _ _ E1). split; [done|].
      by rewrite take_app_take, <- app_assoc in Hh2. }
  destruct (H [] (FixedBuffer.ctor garbage)) as (s & E & Hh).
  { by split. }
  exists s. split; [done|]. destruct (FixedBuffer.toString_holds _ _ _ Hh) as [H1 H2].
  split; [done|]. split; [done|].
  destruct (FixedBuffer.reset_holds _ _ _ Hh) as (s' & E' & Hh'). exists s'. split; [done|].
  by apply (FixedBuffer.toString_holds n).
Qed.

(** A buffer of 8 bytes cuts the record. *)
Lemma log_stream_contents_witness :
  ∃ s, for_each insert [IString (chars "term="); IBool true; ICStr None]
         (FixedBuffer.ctor (replicate 8 NUL)) = Ok () s ∧
       FixedBuffer.toString s = Some (chars "term=1(n").
Proof.
  destruct (log_stream_contents 8 (replicate 8 NUL)
    [IString (chars "term="); IBool true; ICStr None] [chars "term="; chars "1"; chars "(null)"])
    as (s & E & H1 & _); [reflexivity|vm_compute; discriminate| |].
  { repeat constructor. vm_compute. discriminate. }
  exists s. split; [exact E|exact H1].
Defined.
End LogStream.
