(* ===== verification/Clock.v ===== *)
(** * Clock: clocks, time stamps and timers (base/time/timecycle.h, timestamp.h, date.h,
    net/event/timer.h)

    The rates of the clock are static members set by the library, and so are
    parameters; so is what a [double] number of seconds is in cycles. *)
From S2P Require Import Prelude.

Definition INT64_MAX : Z := 2 ^ 63 - 1.
Definition INT64_MIN : Z := - 2 ^ 63.

(** Conversion to [int64_t] *)
Definition i64 (z : Z) : Z := (z + 2 ^ 63) mod 2 ^ 64 - 2 ^ 63.
#[global] Arguments i64 : simpl never.

Lemma i64_small z : INT64_MIN ≤ z ≤ INT64_MAX → i64 z = z.
Proof. unfold i64, INT64_MIN, INT64_MAX. intros. rewrite Z.mod_small; lia. Qed.

Lemma u64_neg z : - 2 ^ 64 ≤ z < 0 → u64 z = 2 ^ 64 + z.
Proof. unfold u64. intros. rewrite <- (Z_mod_plus_full _ 1), Z.mod_small; lia. Qed.

(** A signed [int64_t] operation overflows into undefined behaviour. *)
Definition checked (z : Z) : option Z :=
  if (INT64_MIN <=? z) && (z <=? INT64_MAX) then Some z else None.

Lemma checked_Some z : INT64_MIN ≤ z ≤ INT64_MAX → checked z = Some z.
Proof. intros. unfold checked. rewrite !(proj2 (Z.leb_le _ _)) by lia. done. Qed.

Module TimeCycle.
Record t : Type := mk { tsc_since_epoch_ : Z }.

Section rates.
Context (tsc_rate_ tsc_rate_mhz_ : Z).

Definition ctor0 : t := mk 0.
Definition ctor (tsc : Z) : t := mk tsc.
(** The two objects after [a.Swap(b)] *)
Definition Swap (a b : t) : t * t := (mk (tsc_since_epoch_ b), mk (tsc_since_epoch_ a)).
Definition Valid (x : t) : bool := 0 <? tsc_since_epoch_ x.
Definition tsc_since_epoch (x : t) : Z := tsc_since_epoch_ x.
Definition MicroSecSinceEpoch (x : t) : Z := tsc_since_epoch_ x / tsc_rate_mhz_.
Definition SecondSinceEpoch (x : t) : Z := tsc_since_epoch_ x / tsc_rate_.
(** [cycles] is what get_cycles() returns. *)
Definition Now (cycles : Z) : t := ctor cycles.
Definition MicroSecNow (cycles : Z) : Z := cycles / tsc_rate_mhz_.
Definition SecondNow (cycles : Z) : Z := cycles / tsc_rate_.
Definition ToMicroSec (cycle : Z) : Z := cycle / tsc_rate_mhz_.
Definition ToNanoSec (cycle : Z) : Z := u64 (cycle * 1000) / tsc_rate_mhz_.
Definition ToCycles (micro_seconds : Z) : Z := u64 (micro_seconds * tsc_rate_mhz_).
Definition Invalid : t := ctor0.
(** The division of an [int64_t] by a [uint64_t] is a [uint64_t] one. *)
Definition TimeDifferenceMicroSec (high low : t) : Z :=
  let diff := i64 (u64 (tsc_since_epoch high - tsc_since_epoch low)) in
  i64 (u64 diff / tsc_rate_mhz_).
End rates.

(** [delta] is [static_cast<uint64_t>(seconds * tsc_rate_)]. *)
Definition AddTime (time_cycle : t) (delta : Z) : t :=
  ctor (u64 (tsc_since_epoch time_cycle + delta)).

Definition operator_lt (lhs rhs : t) : bool := tsc_since_epoch lhs <? tsc_since_epoch rhs.
Definition operator_eq (lhs rhs : t) : bool := tsc_since_epoch lhs =? tsc_since_epoch rhs.
End TimeCycle.

Module Timestamp.
Record t : Type := mk { microSecondsSinceEpoch_ : Z }.

Definition kMicroSecondsPerSecond : Z := 1000 * 1000.

Definition ctor0 : t := mk 0.
Definition ctor (us : Z) : t := mk us.
Definition swap (a b : t) : t * t :=
  (mk (microSecondsSinceEpoch_ b), mk (microSecondsSinceEpoch_ a)).
Definition valid (x : t) : bool := 0 <? microSecondsSinceEpoch_ x.
Definition microSecondsSinceEpoch (x : t) : Z := microSecondsSinceEpoch_ x.
Definition secondsSinceEpoch (x : t) : Z := Z.quot (microSecondsSinceEpoch_ x) kMicroSecondsPerSecond.
Definition invalid : t := ctor0.
Definition fromUnixTime (tm microseconds : Z) : option t :=
  us ← checked (tm * kMicroSecondsPerSecond);
  us' ← checked (us + microseconds); Some (ctor us').
Definition fromUnixTime0 (tm : Z) : option t := fromUnixTime tm 0.
Definition timeDifferenceUs (high low : t) : option Z :=
  checked (microSecondsSinceEpoch high - microSecondsSinceEpoch low).
(** [delta] is [static_cast<int64_t>(seconds * kMicroSecondsPerSecond)]. *)
Definition addTime (timestamp : t) (delta : Z) : option t :=
  us ← checked (microSecondsSinceEpoch timestamp + delta); Some (ctor us).
Definition operator_lt (lhs rhs : t) : bool :=
  microSecondsSinceEpoch lhs <? microSecondsSinceEpoch rhs.
Definition operator_eq (lhs rhs : t) : bool :=
  microSecondsSinceEpoch lhs =? microSecondsSinceEpoch rhs.
End Timestamp.

(** ** Clock arithmetic *)

(** Seconds and microseconds of a time stamp. *)
Lemma fromUnixTime_seconds tm us x :
  0 ≤ tm → 0 ≤ us < Timestamp.kMicroSecondsPerSecond → Timestamp.fromUnixTime tm us = Some x →
  Timestamp.secondsSinceEpoch x = tm.
Proof.
  unfold Timestamp.fromUnixTime, checked, Timestamp.secondsSinceEpoch,
    Timestamp.kMicroSecondsPerSecond.
  intros Ht Hu Hx. repeat (case_match; simplify_eq/=).
  rewrite Z.quot_div_nonneg by lia. rewrite Z.add_comm, Z.div_add, Z.div_small; lia.
Qed.

Section clock.
Context (mhz : Z) (Hmhz : 0 < mhz).
Import TimeCycle.

Lemma ToMicroSec_ToCycles us : 0 ≤ us → us * mhz ≤ UINT64_MAX → ToMicroSec mhz (ToCycles mhz us) = us.
Proof.
  intros. unfold ToMicroSec, ToCycles. rewrite u64_small by nia. by apply Z.div_mul; lia.
Qed.

Lemma difference_forward high low :
  0 ≤ low ≤ high → high - low ≤ INT64_MAX →
  TimeDifferenceMicroSec mhz (ctor high) (ctor low) = (high - low) / mhz.
Proof.
  intros Hl Hd. unfold TimeDifferenceMicroSec, tsc_since_epoch. simpl.
  unfold INT64_MAX in *.
  rewrite (u64_small (high - low)) by (unfold UINT64_MAX; lia).
  rewrite (i64_small (high - low)) by (unfold INT64_MIN, INT64_MAX; lia).
  rewrite u64_small by (unfold UINT64_MAX; lia). apply i64_small.
  pose proof (Z.div_pos (high - low) mhz). pose proof (Z.div_le_upper_bound (high - low) mhz (high - low)).
  unfold INT64_MIN, INT64_MAX. nia.
Qed.

(** Backwards the difference becomes a huge positive number. *)
Lemma difference_backward high low :
  0 ≤ high < low → low - high ≤ 2 ^ 63 → 2 ≤ mhz →
  TimeDifferenceMicroSec mhz (ctor high) (ctor low) = (2 ^ 64 - (low - high)) / mhz.
Proof.
  intros Hl Hd Hm. unfold TimeDifferenceMicroSec, tsc_since_epoch. simpl.
  rewrite (u64_neg (high - low)) by lia.
  assert (i64 (2 ^ 64 + (high - low)) = high - low) as ->.
  { unfold i64. replace (2 ^ 64 + (high - low) + 2 ^ 63) with (high - low + 2 ^ 63 + 1 * 2 ^ 64) by lia.
    rewrite Z_mod_plus_full, Z.mod_small; lia. }
  rewrite u64_neg by lia. replace (2 ^ 64 + (high - low)) with (2 ^ 64 - (low - high)) by lia.
  apply i64_small. unfold INT64_MIN, INT64_MAX.
  pose proof (Z.div_pos (2 ^ 64 - (low - high)) mhz).
  pose proof (Z.div_lt_upper_bound (2 ^ 64 - (low - high)) mhz (2 ^ 63)). nia.
Qed.

(** The conversions between cycles and microseconds are inverse as long as the cycles fit 64
    bits, nanoseconds are exact up to 2^64 / 1000 cycles, and adding time moves the clock
    forward unless it wraps. The difference of two times is right when the first is the later
    one; when it is the earlier one, the unsigned division returns a large positive number. The
    seconds of a time stamp made from a Unix time are that time. *)
Theorem clock_correct :
  (∀ us, 0 ≤ us → us * mhz ≤ UINT64_MAX → ToMicroSec mhz (ToCycles mhz us) = us) ∧
  (∀ c, 0 ≤ c ≤ UINT64_MAX / 1000 → ToNanoSec mhz c = c * 1000 / mhz) ∧
  (∀ now delta, 0 ≤ now → 0 < delta → now + delta ≤ UINT64_MAX →
     operator_lt (ctor now) (AddTime (ctor now) delta) = true ∧
     (delta ≤ INT64_MAX →
      TimeDifferenceMicroSec mhz (AddTime (ctor now) delta) (ctor now) = delta / mhz)) ∧
  (∀ high low, 0 ≤ high < low → low - high ≤ 2 ^ 63 → 2 ≤ mhz → mhz ≤ 2 ^ 63 →
     0 < TimeDifferenceMicroSec mhz (ctor high) (ctor low)) ∧
  (∀ tm us x, 0 ≤ tm → 0 ≤ us < Timestamp.kMicroSecondsPerSecond →
     Timestamp.fromUnixTime tm us = Some x → Timestamp.secondsSinceEpoch x = tm).
Proof.
  split; [exact ToMicroSec_ToCycles|]. split; [|split; [|split; [|exact fromUnixTime_seconds]]].
  - intros c Hc. unfold ToNanoSec. rewrite u64_small; [done|]. unfold UINT64_MAX in *.
    pose proof (Z.mul_div_le (2 ^ 64 - 1) 1000). lia.
  - intros now delta Hn Hd Hm.
    assert (AddTime (ctor now) delta = ctor (now + delta)) as ->
      by (unfold AddTime, tsc_since_epoch; simpl; by rewrite u64_small by lia).
    split; [unfold operator_lt, tsc_since_epoch; simpl; lia|]. intros Hi.
    rewrite difference_forward by lia. f_equal. lia.
  - intros high low Hl Hd H2 Hm. rewrite difference_backward by done.
    apply Z.div_str_pos. lia.
Qed.
End clock.

(** A clock of 2400 cycles in a microsecond. *)
Lemma clock_correct_witness :
  0 < 2400 ∧ TimeCycle.ToMicroSec 2400 (TimeCycle.ToCycles 2400 1000000) = 1000000 ∧
  0 < TimeCycle.TimeDifferenceMicroSec 2400 (TimeCycle.ctor 1) (TimeCycle.ctor 2401).
Proof.
  split; [lia|].
  destruct (clock_correct 2400 ltac:(lia)) as (H1 & _ & _ & H2 & _). split.
  - apply H1; [lia|by vm_compute].
  - apply H2; lia.
Defined.

(** ** Timers *)

Module Timer.
Section timer.
(** [D] stands for [double]; [positive d] is [d > 0.0], [cycles d] the [uint64_t] that
    [d * tsc_rate_] is. *)
Context {D Cb : Type} (positive : D → bool) (cycles : D → Z).

Record t : Type := mk {
  cb_ : Cb; expiration_ : TimeCycle.t; interval_ : D; repeat_ : bool; sequence_ : Z
}.

(** The state is [created_num_], an atomic whose increment wraps. *)
Definition ctor (cb : Cb) (when : TimeCycle.t) (interval : D) : M Z t := λ created_num_,
  Ok (mk cb when interval (positive interval) created_num_) (i64 (created_num_ + 1)).

Definition Run (x : t) : Cb := cb_ x.

Definition Restart (now : TimeCycle.t) (x : t) : t :=
  mk (cb_ x)
     (if repeat_ x then TimeCycle.AddTime now (cycles (interval_ x)) else TimeCycle.Invalid)
     (interval_ x) (repeat_ x) (sequence_ x).

Definition GetCreatedNum : M Z Z := get_state.
Definition expiration (x : t) : TimeCycle.t := expiration_ x.
Definition repeat (x : t) : bool := repeat_ x.
Definition sequence (x : t) : Z := sequence_ x.
End timer.
Arguments t : clear implicits.
End Timer.

Module TimerId.
(** [timer] is the address of the timer, None for nullptr. *)
Record t : Type := mk { timer : option Z; seq : Z }.
Definition ctor0 : t := mk None 0.
Definition ctor (tm : option Z) (s : Z) : t := mk tm s.
Definition operator_eq (a b : t) : bool :=
  bool_decide (timer a = timer b) && (seq a =? seq b).
Definition operator_ne (a b : t) : bool := negb (operator_eq a b).
End TimerId.

Section timers.
Context {D Cb : Type} (positive : D → bool) (cycles : D → Z).

(** Timers made one after the other. *)
Fixpoint make (l : list (Cb * TimeCycle.t * D)) : M Z (list (Timer.t D Cb)) :=
  match l with
  | [] => mret []
  | (cb, when, interval) :: l' =>
      x ← Timer.ctor positive cb when interval; xs ← make l'; mret (x :: xs)
  end.

Lemma make_sequences l n :
  INT64_MIN ≤ n → n + Z.of_nat (length l) ≤ INT64_MAX →
  ∃ xs, make l n = Ok xs (n + Z.of_nat (length l)) ∧
        Timer.sequence <$> xs = (λ i, n + Z.of_nat i) <$> seq 0 (length l) ∧
        Forall2 (λ '(cb, when, interval) x,
          Timer.Run x = cb ∧ Timer.expiration x = when ∧ Timer.interval_ x = interval ∧
          Timer.repeat x = positive interval) l xs.
Proof.
  revert n. induction l as [|[[cb when] d] l IH]; intros n Hn Hm.
  - exists []. simpl. by rewrite Z.add_0_r.
  - cbn [length] in *. rewrite Nat2Z.inj_succ in *.
    destruct (IH (n + 1)) as (xs & E & Hs & Hf); [lia|lia|].
    exists (Timer.mk cb when d (positive d) n :: xs). simpl make.
    erewrite bind_Ok by reflexivity. rewrite i64_small by lia.
    rewrite (bind_Ok _ _ _ _ _ E). split; [unfold mret, M_ret; f_equal; lia|].
    split; [|by constructor]. rewrite fmap_cons, Hs. cbn [seq]. rewrite fmap_cons, Z.add_0_r. f_equal.
    rewrite <- fmap_S_seq, <- list_fmap_compose. apply list_fmap_ext. intros _ i _. simpl. lia.
Qed.

(** Timers made one after the other have distinct sequence numbers, so that the identifiers of
    two timers differ even when the second has the address of the first; a restarted timer
    keeps its callback, interval and number, and expires an interval after [now] if it repeats,
    never again if not. *)
Theorem timers_correct l n :
  INT64_MIN ≤ n → n + Z.of_nat (length l) ≤ INT64_MAX →
  ∃ xs, make l n = Ok xs (n + Z.of_nat (length l)) ∧
    (∀ i j x y a b, xs !! i = Some x → xs !! j = Some y →
       TimerId.operator_eq (TimerId.ctor a (Timer.sequence x)) (TimerId.ctor b (Timer.sequence y)) = true →
       i = j) ∧
    Forall2 (λ '(cb, when, interval) x,
      Timer.Run x = cb ∧ Timer.expiration x = when ∧
      ∀ now, let x' := Timer.Restart cycles now x in
        Timer.Run x' = cb ∧ Timer.sequence x' = Timer.sequence x ∧
        Timer.expiration x' =
          (if positive interval then TimeCycle.AddTime now (cycles interval) else TimeCycle.Invalid) ∧
        (positive interval = false → TimeCycle.Valid (Timer.expiration x') = false)) l xs.
Proof.
  intros Hn Hm. destruct (make_sequences l n Hn Hm) as (xs & E & Hs & Hf).
  exists xs. split; [done|]. split.
  - intros i j x y a b Hi Hj [_ He%Z.eqb_eq]%andb_true_iff. simpl in He.
    assert (∀ k z, xs !! k = Some z → Timer.sequence z = n + Z.of_nat k) as Hseq.
    { intros k z Hk. assert ((Timer.sequence <$> xs) !! k = Some (Timer.sequence z)) as Hk'
        by (by rewrite list_lookup_fmap, Hk).
      rewrite Hs, list_lookup_fmap in Hk'.
      destruct (seq 0 (length l) !! k) as [k'|] eqn:Ek; [|done].
      apply lookup_seq in Ek as [-> _]. simpl in Hk'. by injection Hk'. }
    rewrite (Hseq i x Hi), (Hseq j y Hj) in He. lia.
  - eapply Forall2_impl; [exact Hf|]. intros [[cb when] d] x (H1 & H2 & H3 & H4).
    split; [done|]. split; [done|]. intros now. unfold Timer.Restart, Timer.expiration. simpl.
    unfold Timer.repeat in H4. rewrite H4, H3. split_and!; [done|done|done|]. by intros ->.
Qed.
End timers.

Lemma timers_correct_witness :
  ∃ xs, make (λ d : Z, 0 <? d) [(true, TimeCycle.ctor 5, 3); (false, TimeCycle.ctor 9, 0)] 0 = Ok xs 2.
Proof.
  destruct (timers_correct (λ d : Z, 0 <? d) (λ d : Z, d)
    [(true, TimeCycle.ctor 5, 3); (false, TimeCycle.ctor 9, 0)] 0) as (xs & E & _);
    [by vm_compute|by vm_compute|].
  exists xs. exact E.
Defined.
