(* ===== verification/NetBase.v ===== *)
(** * NetBase: sizes and positions in jrpc's network code

    The inline code of net/types.h (alignment), net/event/buffer.h (the
    positions of a ring buffer) and net/rpc/rpc_controller.h (attachments of a
    call).  The members that move data have their bodies in the library
    binary. *)
From S2P Require Import Prelude Clock.

(** ** net/types.h *)

(** [PALIGN_DOWN(x, align)] and [PALIGN_UP(x, align)] on uint64_t operands. *)
Definition PALIGN_DOWN (x align : Z) : Z := Z.land x (u64 (Z.lnot (u64 (align - 1)))).
Definition PALIGN_UP (x align : Z) : Z :=
  Z.land (u64 (x + u64 (align - 1))) (u64 (Z.lnot (u64 (align - 1)))).

(** ** net/event/buffer.h *)

Module Buffer.
Definition kInitialSize : Z := 8192.

(** size_t members; ssize_t has the same width. *)
Record t : Type := mk { capacity_ : Z; readerIndex_ : Z; writerIndex_ : Z; score_ : Z }.

Definition ReadableBytes (b : t) : Z :=
  let diff := i64 (u64 (writerIndex_ b - readerIndex_ b)) in
  u64 (if diff <? 0 then i64 (u64 (u64 diff + capacity_ b)) else diff).
Definition WriteableBytes (b : t) : Z := u64 (u64 (capacity_ b - 1) - ReadableBytes b).

(** The two assertions of the constructor. *)
Definition ctor (initialSize : Z) : option t :=
  let b := mk initialSize 0 0 0 in
  if (ReadableBytes b =? 0) && (WriteableBytes b =? u64 (initialSize - 1)) then Some b else None.
End Buffer.

(** ** net/rpc/rpc_controller.h *)

Module AttachmentEntry.
Record t : Type := mk {
  ptr_ : Z; size_ : Z; cntl_hold_ : bool; lkey_ : Z; rkey_ : Z; has_mr_key_ : bool
}.

Definition ctor (ptr size : Z) : t := mk ptr size false 0 0 false.

(** A part of another entry: everything else of it is copied. *)
Definition part (e : t) (offset size : Z) : t :=
  mk (ptr_ e + offset) size (cntl_hold_ e) (lkey_ e) (rkey_ e) (has_mr_key_ e).

Definition SetMrKey (lk rk : Z) (e : t) : t := mk (ptr_ e) (size_ e) (cntl_hold_ e) lk rk true.
(* None is -1: the two out parameters are left as they are *)
Definition GetMrKey (e : t) : option (Z * Z) :=
  if has_mr_key_ e then Some (lkey_ e, rkey_ e) else None.

Definition set_cntl_hold (hold : bool) (e : t) : t :=
  mk (ptr_ e) (size_ e) hold (lkey_ e) (rkey_ e) (has_mr_key_ e).
End AttachmentEntry.

(** The attachments of one direction of a call, with their total size. *)
Module Attachments.
Record t : Type := mk { attachment_vec_ : list AttachmentEntry.t; attachment_size_ : Z }.
Definition empty : t := mk [] 0.

Definition AddAttachment (e : AttachmentEntry.t) (cntl_hold : bool) (a : t) : t :=
  mk (attachment_vec_ a ++ [AttachmentEntry.set_cntl_hold cntl_hold e])
     (u64 (attachment_size_ a + AttachmentEntry.size_ e)).
End Attachments.

(** ** Lemmas *)

Lemma land_mask x m : 0 ≤ x ≤ UINT64_MAX → Z.land x (u64 (Z.lnot m)) = Z.ldiff x m.
Proof.
  intros Hx. unfold u64. rewrite <- Z.land_ones by lia.
  rewrite (Z.land_comm (Z.lnot m)), Z.land_assoc, Z.land_ones by lia.
  rewrite Z.mod_small by (unfold UINT64_MAX in Hx; lia). by rewrite Z.ldiff_land.
Qed.

Lemma pow_fits n : 0 ≤ n < 64 → 0 < 2 ^ n ≤ 2 ^ 63.
Proof.
  intros Hn. split; [apply Z.pow_pos_nonneg; lia|]. apply Z.pow_le_mono_r; lia.
Qed.

Lemma align_below x n :
  0 ≤ n < 64 → 0 ≤ x ≤ UINT64_MAX →
  Z.land x (u64 (Z.lnot (u64 (2 ^ n - 1)))) = 2 ^ n * (x / 2 ^ n).
Proof.
  intros Hn Hx. pose proof (pow_fits n Hn).
  rewrite (u64_small (2 ^ n - 1)) by (unfold UINT64_MAX; lia). rewrite land_mask by done.
  replace (2 ^ n - 1) with (Z.ones n) by (rewrite Z.ones_equiv; lia).
  rewrite Z.ldiff_ones_r by lia. rewrite Z.shiftl_mul_pow2, Z.shiftr_div_pow2 by lia. lia.
Qed.

(** For a power of two, [PALIGN_DOWN] is the greatest multiple of it that is
    not above the argument. *)
Lemma PALIGN_DOWN_correct x n :
  0 ≤ n < 64 → 0 ≤ x ≤ UINT64_MAX →
  let y := PALIGN_DOWN x (2 ^ n) in (2 ^ n | y) ∧ y ≤ x < y + 2 ^ n.
Proof.
  intros Hn Hx y. pose proof (pow_fits n Hn). unfold y, PALIGN_DOWN. rewrite align_below by done.
  split; [by apply Z.divide_factor_l|].
  pose proof (Z.div_mod x (2 ^ n)). pose proof (Z.mod_pos_bound x (2 ^ n)). lia.
Qed.

(** [PALIGN_UP] is the least multiple that is not below it, as long as the
    sum does not overflow; when it does, the result is 0. *)
Lemma PALIGN_UP_correct x n :
  0 ≤ n < 64 → 0 ≤ x ≤ UINT64_MAX →
  let y := PALIGN_UP x (2 ^ n) in
  if x + (2 ^ n - 1) <=? UINT64_MAX then (2 ^ n | y) ∧ x ≤ y < x + 2 ^ n else y = 0.
Proof.
  intros Hn Hx y. pose proof (pow_fits n Hn). unfold y, PALIGN_UP.
  rewrite align_below by (done || apply u64_bounds).
  rewrite (u64_small (2 ^ n - 1)) by (unfold UINT64_MAX; lia).
  destruct (Z.leb_spec (x + (2 ^ n - 1)) UINT64_MAX).
  - rewrite u64_small by lia. split; [by apply Z.divide_factor_l|].
    pose proof (Z.div_mod (x + (2 ^ n - 1)) (2 ^ n)).
    pose proof (Z.mod_pos_bound (x + (2 ^ n - 1)) (2 ^ n)). lia.
  - assert (u64 (x + (2 ^ n - 1)) = x + (2 ^ n - 1) - 2 ^ 64) as ->.
    { unfold u64, UINT64_MAX in *. rewrite <- (Z.mod_add _ (-1)) by lia. rewrite Z.mod_small; lia. }
    rewrite Z.div_small; [lia|]. unfold UINT64_MAX in *. lia.
Qed.

(** The positions of a buffer: one byte of the capacity is never used. *)
Record buffer_ok (b : Buffer.t) : Prop := {
  bf_reader : 0 ≤ Buffer.readerIndex_ b < Buffer.capacity_ b;
  bf_writer : 0 ≤ Buffer.writerIndex_ b < Buffer.capacity_ b;
  bf_capacity : Buffer.capacity_ b ≤ INT64_MAX
}.

(** What can be read is the distance from the reader to the writer along the
    ring, and together with what can be written it is the capacity less one. *)
Lemma buffer_sizes b :
  buffer_ok b →
  Buffer.ReadableBytes b =
    (Buffer.writerIndex_ b - Buffer.readerIndex_ b) mod Buffer.capacity_ b ∧
  Buffer.ReadableBytes b + Buffer.WriteableBytes b = Buffer.capacity_ b - 1.
Proof.
  intros [Hr Hw Hc]. unfold INT64_MAX in *.
  set (w := Buffer.writerIndex_ b) in *. set (r := Buffer.readerIndex_ b) in *.
  set (c := Buffer.capacity_ b) in *.
  assert (Buffer.ReadableBytes b = (w - r) mod c) as Hrd.
  { unfold Buffer.ReadableBytes. fold w r c.
    assert (i64 (u64 (w - r)) = w - r) as ->.
    { unfold i64, u64. rewrite <- Zplus_mod_idemp_l, Z.mod_mod, Zplus_mod_idemp_l by lia.
      rewrite Z.mod_small; lia. }
    destruct (Z.ltb_spec (w - r) 0).
    - assert (u64 (u64 (w - r) + c) = w - r + c) as ->.
      { unfold u64. rewrite Zplus_mod_idemp_l. apply Z.mod_small. lia. }
      rewrite i64_small by (unfold INT64_MIN, INT64_MAX; lia).
      rewrite u64_small by (unfold UINT64_MAX; lia).
      rewrite <- (Z.mod_add _ 1) by lia. rewrite Z.mod_small; lia.
    - rewrite u64_small by (unfold UINT64_MAX; lia). by rewrite Z.mod_small by lia. }
  split; [done|]. unfold Buffer.WriteableBytes. rewrite Hrd. fold c.
  assert (0 ≤ (w - r) mod c < c) by (apply Z.mod_pos_bound; lia).
  rewrite (u64_small (c - 1)) by (unfold UINT64_MAX; lia).
  rewrite u64_small by (unfold UINT64_MAX; lia). lia.
Qed.

(** The assertions of the constructor hold for every size. *)
Lemma buffer_ctor n :
  0 ≤ n ≤ UINT64_MAX → Buffer.ctor n = Some (Buffer.mk n 0 0 0).
Proof.
  intros Hn. unfold Buffer.ctor, Buffer.WriteableBytes.
  assert (Buffer.ReadableBytes (Buffer.mk n 0 0 0) = 0) as -> by done. simpl.
  rewrite Z.sub_0_r, (u64_small (u64 _)) by apply u64_bounds. by rewrite Z.eqb_refl.
Qed.

Lemma foldr_add l b : foldr Z.add b l = foldr Z.add 0 l + b.
Proof. induction l as [|z l IH]; simpl; lia. Qed.

(** They do not exclude the empty buffer, which says that it can take everything. *)
Lemma empty_buffer_writeable : Buffer.WriteableBytes (Buffer.mk 0 0 0 0) = UINT64_MAX.
Proof. reflexivity. Qed.

(** The total size is the sum of the sizes, as long as it fits; every entry
    holds what the call that added it said. *)
Definition sizes_ok (a : Attachments.t) : Prop :=
  Attachments.attachment_size_ a =
    u64 (foldr Z.add 0 (AttachmentEntry.size_ <$> Attachments.attachment_vec_ a)).

Lemma AddAttachment_sizes e hold a :
  sizes_ok a → sizes_ok (Attachments.AddAttachment e hold a).
Proof.
  unfold sizes_ok. intros Ha. simpl. rewrite Ha, fmap_app, foldr_app. simpl.
  rewrite (foldr_add _ (_ + 0)). unfold u64. rewrite Zplus_mod_idemp_l. f_equal. lia.
Qed.
