(* ===== verification/AsioRpc.v ===== *)
(** * AsioRpc: the framing of the asio channel (jrpc/net/rpc/asio_rpc.h)

    [AsioChannel] and [AsioServer] exchange messages behind a length: an [int]
    in the representation of the host, and then the bytes of the message.  The
    channel reads the reply into a buffer of the announced length, but it sends
    the request without its frame, and it takes what one call of [receive]
    gives it for the whole. *)
From S2P Require Import Prelude CString.

Abbreviation bytes := (list ascii).

(** The object representation of an [int] on the host. *)
Class HostInt := { int_bytes : Z → bytes; bytes_int : bytes → Z }.
Class HostIntLaws `{HostInt} : Prop := {
  int_bytes_length z : length (int_bytes z) = 4%nat;
  bytes_int_bytes z : INT_MIN ≤ z ≤ INT_MAX → bytes_int (int_bytes z) = z
}.

(** The [RpcMeta] with these fields, serialized by protobuf. *)
Class MetaCodec := { rpc_meta : string → string → Z → bytes }.

(** A connected socket of boost::asio: what has gone out, what the peer has sent
    and has not been read, and the two operations.  An exception is the outcome
    [Abort]. *)
Class AsioSocket := {
  socket : Type;
  sent : socket → bytes;
  incoming : socket → bytes;
  send : bytes → M socket unit;
  receive : nat → M socket bytes
}.

(** [send] may write, and [receive] may read, a part of its buffer; [receive]
    gives at least one byte, unless its buffer is empty. *)
Class AsioSocketLaws `{AsioSocket} : Prop := {
  send_some data s : wp False (send data)
    (λ _ s', incoming s' = incoming s ∧ ∃ out, out `prefix_of` data ∧ sent s' = sent s ++ out)
    (λ _, True) s;
  receive_some size s : wp False (receive size)
    (λ got s', sent s' = sent s ∧ incoming s = got ++ incoming s' ∧ (length got ≤ size)%nat ∧
               (got = [] → size = O))
    (λ _, True) s
}.

(** [AsioChannel] *)
Module AsioChannel.
Section AsioChannel.
Context `{HostInt} `{MetaCodec} `{AsioSocket}.

(** The frame that [CallMethod] builds in [serial_str]. *)
Definition serial_str (service method : string) (serial_data : bytes) : bytes :=
  let meta := rpc_meta service method (Z.of_nat (length serial_data)) in
  int_bytes (i32 (Z.of_nat (length meta))) ++ meta ++ serial_data.

Definition throw {A} (exception : string) : M socket A := Abort exception.

(** [CallMethod] on a serialized request: the bytes it gives to
    [ParseFromString].  The frame is built and not used. *)
Definition CallMethod (service method : string) (serial_data : bytes) : M socket bytes :=
  let _ := serial_str service method serial_data in
  send serial_data ;;
  resp_data_size ← receive 4;
  if decide (length resp_data_size = 4%nat) then
    let resp_data_len := bytes_int resp_data_size in
    if resp_data_len <? 0 then throw "std::length_error"
    else
      got ← receive (Z.to_nat resp_data_len);
      if resp_data_len =? 0 then ub "resp_data[0] of an empty vector"
      else mret (got ++ replicate (Z.to_nat resp_data_len - length got) zero)
  else ub "read of an int that was not received".
End AsioChannel.
End AsioChannel.

(** [AsioServer] *)
Module AsioServer.

(** A descriptor of protobuf: the name of the service and its methods, each a
    name and the address of its descriptor. *)
Record ServiceDescriptor : Type := Descriptor { name : string; methods : list (string * Z) }.
Class Descriptors := { GetDescriptor : Z → ServiceDescriptor }.

Record ServiceInfo : Type := Info {
  service : Z; sd : ServiceDescriptor; mds : gmap string Z }.
Definition t : Type := gmap string ServiceInfo.

(** The constructor of [ServiceInfo], and the loop of [add]. *)
Definition info (s : Z) (d : ServiceDescriptor) : ServiceInfo :=
  Info s d (foldl (λ m md, <[md.1 := md.2]> m) ∅ (methods d)).

Definition add `{Descriptors} (s : Z) : M t unit :=
  modify (λ services_, let d := GetDescriptor s in <[name d := info s d]> services_).

Definition pack_message `{HostInt} (msg : bytes) : bytes :=
  int_bytes (i32 (Z.of_nat (length msg))) ++ msg.
End AsioServer.

(** ** What the channel does *)

Section channel.
Context `{HostIntLaws} `{MetaCodec} `{AsioSocketLaws}.
Implicit Types (s : socket) (data msg rest : bytes).

(** The request goes out without its frame, so what the peer gets never begins
    with one. *)
Lemma CallMethod_unframed service method data s :
  wp True (AsioChannel.CallMethod service method data)
    (λ _ s', ∃ out, out `prefix_of` data ∧ sent s' = sent s ++ out ∧
             ¬ AsioChannel.serial_str service method data `prefix_of` out) (λ _, True) s.
Proof.
  unfold AsioChannel.CallMethod. apply wp_bind.
  eapply wp_mono; [apply wp_defined, send_some| |done]. intros _ s1 (_ & out & Hp & Hs1).
  apply wp_bind. eapply wp_mono; [apply wp_defined, receive_some| |done].
  intros size s2 (Hs2 & _). case_decide; [|done]. destruct (_ <? 0); [done|].
  apply wp_bind. eapply wp_mono; [apply wp_defined, receive_some| |done].
  intros got s3 (Hs3 & _). destruct (_ =? 0); [done|]. apply wp_ret.
  exists out. split; [done|]. split; [congruence|].
  intros Hf%prefix_length. apply prefix_length in Hp. unfold AsioChannel.serial_str in Hf.
  rewrite !length_app, int_bytes_length in Hf. lia.
Qed.

(** A reply that the server packed: the message that is parsed begins with a
    part of it, in the best case all, and is filled up with zeros; an empty
    reply is undefined behaviour. *)
Lemma CallMethod_reply service method data s msg rest :
  incoming s = AsioServer.pack_message msg ++ rest → Z.of_nat (length msg) ≤ INT_MAX →
  wp True (AsioChannel.CallMethod service method data)
    (λ r s', msg ≠ [] ∧ ∃ got, (1 ≤ got ≤ length msg)%nat ∧
       r = take got msg ++ replicate (length msg - got) zero ∧
       incoming s' = drop got msg ++ rest) (λ _, True) s.
Proof.
  intros Hin Hlen. unfold AsioChannel.CallMethod. apply wp_bind.
  eapply wp_mono; [apply wp_defined, send_some| |done]. intros _ s1 (Hs1 & _).
  apply wp_bind. eapply wp_mono; [apply wp_defined, receive_some| |done].
  intros size s2 (_ & Hs2 & _). case_decide as Hsize; [|done].
  rewrite Hs1, Hin in Hs2. unfold AsioServer.pack_message in Hs2. rewrite <- app_assoc in Hs2.
  apply app_inj_1 in Hs2 as [<- Hs2]; [|by rewrite int_bytes_length].
  rewrite bytes_int_bytes, i32_small by
    (rewrite ?i32_small; unfold INT_MAX, INT_MIN in *; lia).
  destruct (Z.ltb_spec (Z.of_nat (length msg)) 0); [lia|]. rewrite Nat2Z.id.
  apply wp_bind. eapply wp_mono; [apply wp_defined, receive_some| |done].
  intros got s3 (_ & Hs3 & Hle & Hsome).
  destruct (Z.eqb_spec (Z.of_nat (length msg)) 0) as [|Hne]; [done|]. apply wp_ret.
  split; [by intros ->|]. exists (length got). rewrite Hs3 in Hs2.
  rewrite <- (take_app_le msg rest), <- (drop_app_le msg rest) by done.
  rewrite Hs2, take_app_length, drop_app_length. split_and!; [|done..].
  destruct got; [|simpl in *; lia]. specialize (Hsome eq_refl). lia.
Qed.
End channel.

(** ** The table of services *)

Lemma mds_lookup (l : list (string * Z)) (m0 : gmap string Z) n p :
  NoDup l.*1 →
  foldl (λ m md, <[md.1 := md.2]> m) m0 l !! n = Some p ↔
  (n, p) ∈ l ∨ (n ∉ l.*1 ∧ m0 !! n = Some p).
Proof.
  revert m0. induction l as [|[n' p'] l IH]; intros m0; simpl.
  - intros _. set_solver.
  - intros [Hn Hnd]%NoDup_cons. rewrite IH by done. rewrite lookup_insert_Some. simpl.
    rewrite !elem_of_cons. split; [naive_solver|].
    intros [[[= -> ->]|?]|[? ?]]; naive_solver.
Qed.

(** [add] enters the service under its name with all its methods, and keeps the
    others. *)
Lemma add_correct `{AsioServer.Descriptors} s (t : AsioServer.t) :
  let d := AsioServer.GetDescriptor s in
  NoDup (AsioServer.methods d).*1 →
  ∃ i t', AsioServer.add s t = Ok () t' ∧ t' !! AsioServer.name d = Some i ∧
    AsioServer.service i = s ∧ AsioServer.sd i = d ∧
    (∀ n p, AsioServer.mds i !! n = Some p ↔ (n, p) ∈ AsioServer.methods d) ∧
    ∀ n, n ≠ AsioServer.name d → t' !! n = t !! n.
Proof.
  intros d Hnd. exists (AsioServer.info s d). eexists. split; [done|]. simpl.
  split; [apply lookup_insert_eq|]. split_and!; [done..| |].
  - intros n p. simpl. rewrite mds_lookup by done. rewrite lookup_empty. naive_solver.
  - intros n Hn. apply lookup_insert_ne. by intros <-.
Qed.

(** ** A little-endian host and a scripted socket *)

(** A socket with the numbers of bytes its coming calls move at most. *)
Module Socket.
Record t : Type := mk { sent : bytes; incoming : bytes; moves : list nat }.

Definition chunk (s : t) (size : nat) : nat :=
  from_option (λ m, Nat.min size (Nat.max 1 m)) size (head (moves s)).

Definition send (data : bytes) : M t unit := λ s,
  Ok () (mk (sent s ++ take (chunk s (length data)) data) (incoming s) (tail (moves s))).

Definition receive (size : nat) : M t bytes := λ s,
  if decide (size ≠ O ∧ incoming s = []) then Abort "boost::system::system_error" s
  else Ok (take (chunk s size) (incoming s))
          (mk (sent s) (drop (chunk s size) (incoming s)) (tail (moves s))).
End Socket.

Section little_endian.
Definition byte_at (k : Z) (z : Z) : ascii := ascii_of_N (Z.to_N (z / 256 ^ k mod 256)).
Definition byte_val (a : ascii) : Z := Z.of_N (N_of_ascii a).

#[local] Instance little_endian : HostInt := {|
  int_bytes z := [byte_at 0 z; byte_at 1 z; byte_at 2 z; byte_at 3 z];
  bytes_int b := i32 (foldr (λ a n, byte_val a + 256 * n) 0 b)
|}.

Lemma byte_val_at k z : byte_val (byte_at k z) = z / 256 ^ k mod 256.
Proof.
  unfold byte_val, byte_at. rewrite N_ascii_embedding; [rewrite Z2N.id; [done|]|].
  all: pose proof (Z.mod_pos_bound (z / 256 ^ k) 256); lia.
Qed.

#[local] Instance no_meta : MetaCodec := {| rpc_meta _ _ _ := [] |}.

#[local] Instance little_endian_laws : HostIntLaws.
Proof.
  split; [done|]. intros z Hz. simpl. rewrite !byte_val_at. unfold i32, INT_MIN, INT_MAX in *.
  change (256 ^ 0) with 1. change (256 ^ 1) with 256. change (256 ^ 2) with 65536.
  change (256 ^ 3) with 16777216. rewrite Z.div_1_r.
  replace (2 ^ 31) with 2147483648 in * by done. replace (2 ^ 32) with 4294967296 by done.
  Z.div_mod_to_equations. lia.
Qed.

#[local] Instance scripted_socket : AsioSocket := {|
  socket := Socket.t; sent := Socket.sent; incoming := Socket.incoming;
  send := Socket.send; receive := Socket.receive
|}.

#[local] Instance scripted_socket_laws : AsioSocketLaws.
Proof.
  split.
  - intros data s. split; [done|]. eexists. split; [apply prefix_take|done].
  - intros size s. simpl. unfold wp, Socket.receive. case_decide as Hd; [done|]. simpl.
    split; [done|]. split; [by rewrite take_drop|]. rewrite length_take.
    assert (Socket.chunk s size ≤ size)%nat by
      (unfold Socket.chunk; destruct (head _); simpl; lia).
    split; [lia|]. intros Hnil. destruct (decide (size = O)) as [|Hne]; [done|].
    exfalso. apply Hd. split; [done|].
    assert (Socket.chunk s size ≠ O) by (unfold Socket.chunk; destruct (head _); simpl; lia).
    destruct (Socket.incoming s); [done|]. by destruct (Socket.chunk s size).
Qed.

(** A reply of three bytes, the second call of [receive] takes two of them. *)
Example short_reply :
  let b := String.list_ascii_of_string in
  let s := Socket.mk [] (AsioServer.pack_message (b "abc"%string)) [9; 4; 2]%nat in
  match AsioChannel.CallMethod "Kv" "Op" (b "xy"%string) s with
  | Ok r s' => r = b "ab"%string ++ [zero] ∧ Socket.sent s' = b "xy"%string
  | _ => False
  end.
Proof. by vm_compute. Qed.
End little_endian.
