(* ===== verification/Logging.v ===== *)
(** * Logging: what the header of the logger does (jrpc/base/logging/logging.h)

    The name of the source file in a log record, the level filter in front of
    the macros, and [CHECK_NOTNULL].  Formatting and output are in the library
    binary. *)
From S2P Require Import Prelude CString LogStream.

(** The last position of [c] in a list. *)
Fixpoint rindex (c : ascii) (l : list ascii) : option nat :=
  match l with
  | [] => None
  | x :: l' =>
      match rindex c l' with
      | Some k => Some (S k)
      | None => if decide (x = c) then Some O else None
      end
  end.

(** [strrchr]: the pointer to the last [c] of a C string, if any; none if the
    array has no terminator. *)
Definition strrchr (p : ptr) (c : ascii) : option (option ptr) :=
  n ← strlen p;
  Some ((λ k, Ptr (arr p) (off p + Z.of_nat k)) <$>
        rindex c (take (Z.to_nat n) (drop (Z.to_nat (off p)) (arr p)))).

Module SourceFile.
Record t : Type := mk { data_ : ptr; size_ : Z }.

(** The constructor from a reference to an array of [N] characters. *)
Definition ctor_array (chars : list ascii) : option t :=
  let N := Z.of_nat (length chars) in
  slash ← strrchr (Ptr chars 0) "/"%char;
  match slash with
  | Some q => let data := Ptr (arr q) (off q + 1) in Some (mk data (N - 1 - i32 (off data - 0)))
  | None => Some (mk (Ptr chars 0) (N - 1))
  end.

(** The constructor from a pointer. *)
Definition ctor_pointer (filename : ptr) : option t :=
  slash ← strrchr filename "/"%char;
  let data := match slash with Some q => Ptr (arr q) (off q + 1) | None => filename end in
  n ← strlen data; Some (mk data (i32 n)).
End SourceFile.

(** [Logger::LogLevel], in the order of the enum *)
Inductive LogLevel : Type := TRACE | DEBUG | INFO | WARN | ERROR | FATAL.
Definition level_num (l : LogLevel) : Z :=
  match l with TRACE => 0 | DEBUG => 1 | INFO => 2 | WARN => 3 | ERROR => 4 | FATAL => 5 end.

(** Whether the macro of a level makes a record when [Logger::logLevel()] is
    [g]: the last three have no [if]. *)
Definition makes_record (g l : LogLevel) : bool :=
  match l with
  | TRACE | DEBUG | INFO => level_num g <=? level_num l
  | WARN | ERROR | FATAL => true
  end.

(** [CheckNotNull]; a pointer is an address. *)
Definition CheckNotNull `{FatalPolicy} {S} (names : string) (ptr : Z) : M S Z :=
  when (ptr =? 0) (fatal names) ;; mret ptr.

(** ** Lemmas *)

Lemma rindex_none c l : c ∉ l → rindex c l = None.
Proof.
  induction l as [|x l IH]; simpl; [done|]. intros [Hx Hl]%not_elem_of_cons.
  rewrite IH by done. by rewrite decide_False by congruence.
Qed.

Lemma rindex_last c l r : c ∉ r → rindex c (l ++ c :: r) = Some (length l).
Proof.
  intros Hr. induction l as [|x l IH]; simpl; [|by rewrite IH].
  by rewrite rindex_none, decide_True.
Qed.

(** The rest of a C string is a C string. *)
Lemma strlen_rest d s :
  NUL ∉ s → strlen (Ptr (d ++ s ++ [NUL]) (Z.of_nat (length d))) = Some (Z.of_nat (length s)).
Proof.
  intros Hn. unfold strlen. simpl. rewrite (proj2 (Z.leb_le _ _)) by lia.
  by rewrite Nat2Z.id, drop_app_length, to_nul_app.
Qed.

Lemma strrchr_c_str s c :
  NUL ∉ s → strrchr (Ptr (s ++ [NUL]) 0) c =
    Some ((λ k, Ptr (s ++ [NUL]) (Z.of_nat k)) <$> rindex c s).
Proof.
  intros Hn. unfold strrchr. pose proof (strlen_c_str s Hn) as Hl. unfold c_str in Hl.
  rewrite Hl. simpl. change (Z.to_nat 0) with 0%nat. by rewrite drop_0, Nat2Z.id, take_app_length.
Qed.

(** A directory: empty, or the part of a path up to a slash. *)
Definition is_dir (d : list ascii) : Prop := d = [] ∨ ∃ d', d = d' ++ ["/"%char].

(** The last slash of a path ends its directory. *)
Lemma slash_of_path d b :
  is_dir d → "/"%char ∉ b →
  rindex "/"%char (d ++ b) = match d with [] => None | _ => Some (pred (length d)) end.
Proof.
  intros [->|[d' ->]] Hb; [by apply rindex_none|].
  rewrite <- app_assoc. simpl. rewrite rindex_last by done. rewrite length_app. simpl.
  destruct (d' ++ ["/"%char]) eqn:E; [by destruct d'|]. f_equal. lia.
Qed.

(** Both constructors give the name of the file without its directories. *)
Lemma SourceFile_correct d b :
  is_dir d → "/"%char ∉ b → NUL ∉ d ++ b → Z.of_nat (length (d ++ b)) ≤ INT_MAX →
  ∃ f, SourceFile.ctor_array ((d ++ b) ++ [NUL]) = Some f ∧
       SourceFile.ctor_pointer (c_str (d ++ b)) = Some f ∧
       read_bytes (Some (SourceFile.data_ f)) (SourceFile.size_ f) = Some b ∧
       SourceFile.size_ f = Z.of_nat (length b).
Proof.
  intros Hd Hb Hn Hlen. set (p := Ptr ((d ++ b) ++ [NUL]) (Z.of_nat (length d))).
  exists (SourceFile.mk p (Z.of_nat (length b))).
  assert (NUL ∉ b) as Hnb by set_solver. rewrite length_app in Hlen.
  assert (strlen p = Some (Z.of_nat (length b))) as Hp
    by (unfold p; rewrite <- app_assoc; by apply strlen_rest).
  unfold SourceFile.ctor_array, SourceFile.ctor_pointer, c_str.
  rewrite strrchr_c_str, slash_of_path by done.
  rewrite !length_app. simpl. split_and!.
  - destruct d as [|x d]; simpl; [do 2 f_equal; lia|]. simpl in Hlen.
    replace (Z.of_nat (length d) + 1) with (Z.of_nat (length (x :: d))) by (simpl length; lia).
    rewrite i32_small by (simpl length; lia). do 2 f_equal. simpl length. lia.
  - assert (i32 (Z.of_nat (length b)) = Z.of_nat (length b)) as Hi by (apply i32_small; lia).
    destruct d as [|x d]; simpl; [change (Ptr (b ++ [NUL]) 0) with p; by rewrite Hp; simpl; rewrite Hi|].
    replace (Z.of_nat (length d) + 1) with (Z.of_nat (length (x :: d))) by (simpl length; lia).
    change (Ptr (x :: (d ++ b) ++ [NUL]) (Z.of_nat (length (x :: d)))) with p.
    by rewrite Hp; simpl; rewrite Hi.
  - unfold p, read_bytes. simpl. destruct (Z.eqb_spec (Z.of_nat (length b)) 0).
    { by destruct b. }
    rewrite !length_app. simpl. rewrite !(proj2 (Z.leb_le _ _)) by lia. simpl.
    by rewrite !Nat2Z.id, <- app_assoc, drop_app_length, take_app_length.
  - done.
Qed.

(** A higher level makes no more records, and a FATAL one is always made. *)
Lemma makes_record_correct g g' l :
  (level_num g ≤ level_num g' → makes_record g' l = true → makes_record g l = true) ∧
  (makes_record g l = false → level_num l < level_num g) ∧ makes_record g FATAL = true.
Proof. split_and!; [..|done]; destruct l; simpl; intros; done || lia. Qed.

(** [CHECK_NOTNULL] gives back its argument, and with an aborting FATAL it does
    not return null. *)
Lemma CheckNotNull_correct `{FatalPolicy} {S} names ptr (s : S) :
  fatal_aborts = true →
  CheckNotNull names ptr s = if ptr =? 0 then Abort names s else Ok ptr s.
Proof.
  intros Hf. unfold CheckNotNull. destruct (ptr =? 0); [|done].
  by apply bind_Abort, fatal_Abort.
Qed.
